(* ===== verification/_CoqProject ===== *)
-Q . S2P
Prelude.v
JsFloat.v
JsString.v
JsValue.v
Json.v
Hex.v
Base64.v
HookData.v
CanonicalJson.v
BaseEvidence.v
IndexRows.v
KeeperRates.v
KeeperDecide.v
Lifeboat.v
Radar.v
KeeperChain.v
PolicyEngine.v
CanonicalMandate.v
MandatePolicy.v
AssetUnits.v
WorkQueue.v
MandateStore.v
MandateActivation.v
MandateSteps.v
MandateSafety.v
RelayStore.v
RelayLedger.v
RelayCanonical.v
UnwindStore.v
UnwindOps.v
UnwindRows.v
UnwindSafety.v
UnwindErrors.v
UnwindAttach.v
EvidenceSchema.v
EvidenceOutbox.v
OutboxSteps.v
OutboxSafety.v
BaseDeposit.v
DepositDispatch.v
DepositProtocol.v
DepositFacts.v
DepositEvidence.v
DepositRead.v
DepositRecovery.v
DepositSample.v
BaseRecovery.v
RecoverySafety.v
RecoverySample.v
RecoveryWork.v
WorkSafety.v
RecoveryExecutor.v
ExecutorSafety.v
ExecutorSample.v
MessageV2.v
Watcher.v
WatcherSafety.v
WatcherRuns.v
TransferJournal.v
ResumeTransfers.v
FlowState.v
Venue.v
PlanModel.v
MyMoney.v
