(* ===== verification/Prelude.v ===== *)
(** * Vibing Farmer: a verification development of its core logic

    Vibing Farmer lets an owner put stablecoins to work on Stellar and on Base.  Five parts of
    the repository keep its promises: the keeper (a scheduled worker that rebalances a vault),
    the relayer (a server that carries burned USDC across chains with Circle's CCTP and deposits
    it on Base with a session key), the agent index (an API that stores evidence about the
    agents), the frontend's strategy and money models, and the frontend's journal of cross-chain transfers.  This library models the code
    that decides, validates, stores and recovers; SDKs, SQL text, HTTP and React are outside.

    ** Files and what they model

    Shared.  Prelude.v: numbers and results.  JsFloat.v: doubles.  JsString.v: texts, decimal
    printing and reading, the predicates of the regular expressions.  JsValue.v: untyped values
    and property access.  Json.v: [JSON.stringify], [JSON.parse] and the proof that parsing
    inverts printing.  Hex.v: bytes and hexadecimal.  Base64.v: base 64.

    Keeper (keeper/src).  KeeperRates.v: the Blend rate arithmetic of apr.js.  KeeperDecide.v:
    decide.js.  Lifeboat.v: lifeboat.js.  Radar.v: the polling loop of radar.js, a function
    from the outcomes of its dependencies to its events.  KeeperChain.v: chain.js and the
    scheduled handler of index.js over a parameter that performs contract calls.

    Relayer (relayer/src).  WorkQueue.v: workQueue.mjs.  RelayStore.v, RelayLedger.v,
    RelayCanonical.v: store.mjs, the durable record of one relay execution, its transitions and
    the file it is kept in.  UnwindStore.v, UnwindOps.v, UnwindRows.v, UnwindSafety.v,
    UnwindErrors.v, UnwindAttach.v: unwindStore.mjs, the jobs that bring money back from Base,
    in one database with the relay records.  MessageV2.v: cctp/messageV2.mjs and the message
    selection of cctp/iris.mjs.  Watcher.v, WatcherSafety.v, WatcherRuns.v: cctp/watcher.mjs.

    Agent index (frontend/api/agent-index/models.js).  CanonicalJson.v, BaseEvidence.v,
    IndexRows.v: canonical JSON, the evidence of the Base phases, and the table rows.

    Frontend (frontend/src).  HookData.v: base/hookData.js.  AssetUnits.v: money/assetUnits.js
    and stellar/format.js.  TransferJournal.v, ResumeTransfers.v: cctp/transferJournal.js and
    cctp/resumeTransfers.js.  FlowState.v, Venue.v, PlanModel.v: strategy/flowState.js,
    venueTruth.js, planModel.js and amountValidation.js.  MyMoney.v: money/freshness.js and
    myMoneyModel.js.

    Mandates (relayer/src/mandateStore.mjs).  MandateStore.v: the two stores that forget what
    has expired.  MandateActivation.v: the mandates and the work that activates them, every
    operation.  MandateSteps.v: what a call can do to a row.  MandateSafety.v: what holds of
    every run.

    Evidence (relayer/src).  EvidenceSchema.v: baseEvidenceValidation.mjs.  EvidenceOutbox.v:
    baseEvidenceOutbox.mjs, the numbered events of each child, the claim of its deposit, their
    delivery and the worker.  OutboxSteps.v: the changes an operation makes.  OutboxSafety.v:
    what holds of every run.

    Session policy.  PolicyEngine.v: frontend/src/base/policyEngine.js, the permissions of a
    session key and their evaluation.  CanonicalMandate.v: relayer/src/base/canonicalMandate.mjs
    and the binding of session.mjs, every check of an approval.  MandatePolicy.v: what an
    accepted approval permits.

    Deposits on Base (relayer/src/base/orchestrator.mjs and userOpReceipt.mjs).  BaseDeposit.v:
    allocations, canonical forms and the proof of a deposit from a receipt.  DepositDispatch.v:
    the dispatch and the activation, as programs of calls.  DepositProtocol.v: the logic of
    observers, the protocol of a dispatch and the proof that it is followed.  DepositFacts.v:
    what the returned entries say of the run.  DepositEvidence.v: what is asked for and written
    down.  DepositRead.v: the bounded read and the reconciliations.  DepositRecovery.v: what
    they find and write.  DepositSample.v: concrete runs.

    Recovery of Base deposits (relayer/src/baseRecovery.mjs and the table baseRecoveryWorks of
    sqliteStores.mjs).  BaseRecovery.v: the closed bundle of evidence of one child, every check
    of it and the selection of the step that is left.  RecoverySafety.v: what a selection
    rests on.  RecoveryWork.v: the table of recoveries, every operation.  WorkSafety.v: what
    holds of every use of it.  RecoveryExecutor.v: a run as a program of its calls.
    ExecutorSafety.v: runs, timers, other callers and crashes together.  RecoverySample.v,
    ExecutorSample.v: the way of one child, and a scheduler that plays a recovery.

    ** How the parts interact

    A burn on one chain is announced to the relayer, whose store keeps one record per
    execution.  The watcher drives a record: it claims a lease, polls Circle (MessageV2.v decides
    which message is the burn's), submits the mint and confirms it.  Watcher.v runs the
    programs of any number of processes over the operations of RelayLedger.v, one store call
    per step, with crashes; its theorems use those of the store.  The unwind store inserts its
    record into the relay table and later copies its outcome; UnwindSafety.v takes arbitrary
    interleavings of the two stores.  In the browser, the journal fences each irreversible step
    of a transfer and the resumption reads it back; the money model reads the balances that
    result.  An owner signs a session policy that the frontend builds (PolicyEngine.v) and the
    relayer checks (CanonicalMandate.v); the dispatcher then sends deposits with that session
    key, one at a time, each between checkpoints of the evidence store, and a reconciliation
    settles from the chain what a crash left open.  DepositProtocol.v states the protocol of
    the dispatcher and proves that every run follows it; DepositEvidence.v proves its calls
    against the policy of PolicyEngine.v and its checkpoints against the validation of
    EvidenceSchema.v.  The agent index identifies evidence by its canonical JSON, so Json.v and
    CanonicalJson.v prove that the text determines the value.  When a child of a run is stuck,
    its owner claims a recovery at the agent index: BaseRecovery.v reads the evidence that the
    outbox of the relayer reported (RecoverySafety.v proves the two orders of events equal),
    RecoveryWork.v keeps the work, and RecoveryExecutor.v runs it over that table;
    ExecutorSafety.v composes the three and uses the theorems of WorkSafety.v and
    RecoverySafety.v.

    ** State and operations

    Stateful code is explicit state passing: a store is a map of rows and an operation gives
    its result and the next map; a transaction that throws gives the map it started from.
    SQLite is such a map whose writes check the constraints of the schema.  Errors are values
    of [result]; an error is identified by its code where it has one.  The watcher is a free
    monad of its calls with a small-step semantics, and the dispatcher of deposits one whose
    runs are lists of answers, any of which may be missing; an observer (a state and a relation
    on calls and answers) gives the program logic that its theorems share.  The executor of
    recoveries is a free monad too; its small steps include the renewals that run beside it and
    share its flag.  Objects are property lists in the order of [Object.keys].  Integers of [Number] are [Z] guarded by [isSafeInteger] where the code
    guards them; [bigint] is [Z]; fractional numbers are [SpecFloat] doubles.

    ** What the theorems show

    - Nothing is minted twice and nothing wrong is minted: [submitted_at_most_once],
      [submitted_message_expected], [minted_is_confirmed]; and an undisturbed drive mints:
      [drive_mints].
    - What a record keeps through every sequence of operations, and the exclusion that a lease
      gives: [relay_history], [held_lease_exclusive], [unwind_history], [journal_history] (and
      [evidence_lease_exclusive], [checkpoint_durable]).
    - Two stores that share a database agree: [unwind_in_step], [user_operation_once]; and fail
      only as documented: [unwind_errors_documented].
    - What is written can be read back, and what is read back is what was written:
      [store_writes_canonical], [open_file_settled], [rows_fit_tables], [hook_roundtrip],
      [parse_wire_form], [parse_format_roundtrip], [canonicalJson_identifies].
    - Resumption never repeats an irreversible step: [submission_never_retried],
      [resume_sound], [calls_carry_evidence].
    - Money is conserved and bounded: [plan_conserves], [plan_executable],
      [decide_rebalance_safe], [rebalance_settles], [compound_minOuts].
    - The interface claims nothing it has not seen: [confident_states], [primary_action],
      [start_requires_confirmation], [receipt_evidence], [lease_accepted],
      [evidence_accepted].
    - The queue is bounded and drains: [queue_bounds], [queue_drains].
    - A mandate's key is its owner's and its activation happens once: [rows_agree],
      [activation_submitted_once], [session_key_guarded], [stale_token_rejected],
      [v2_lookup_bound], [next_token_new].
    - Evidence is numbered, reported in order and a bounded number of times, and a deposit has
      one submitter: [outbox_history], [delivered_in_order], [attempts_bounded],
      [complete_forever], [deposit_claimed_once].
    - The session key can do what a farm needs and nothing else: [farm_policy_exact],
      [accepted_policy_is_farm_policy], [built_permissions_validated],
      [approval_text_canonical], [mandate_bound].
    - A deposit is sent once and settled before the next: [dispatch_follows_protocol],
      [sends_settled]; what is reported happened: [entries_account]; what is called is within
      the policy and what is written is accepted: [batches_within_policy],
      [dispatch_calls_sound]; and a reconciliation settles a deposit by its own operation and
      sends nothing: [read_settles_own_operation], [reconciliation_observes].
    - A recovery takes the one step that the evidence leaves, and only with authority: the
      evidence it accepts is a history of the outbox, [events_are_outbox_history]; its last
      event determines the step, [selected_step_is_head_step], and nothing is sent twice,
      [recovery_sends_first]; a piece of work is operated on once for each proof of its owner,
      [operations_within_proofs], after every check, [operations_justified]; and the table
      keeps its rows and lists all that can be claimed, [recovery_work_history],
      [listing_complete].

    ** Parameters, bounds and fuel

    SHA-256, keccak-256, the checksum tests of the SDKs, the encoders and decoders of viem and of
    the session SDK, the UTF-8 decoder, the network and the clock are arguments.  Hypotheses about them state documented behaviour only (a digest is 64 lowercase
    hexadecimal digits, a storage returns what was stored); each theorem with such a hypothesis
    has a witness at a concrete function.  The JSON parser runs with two
    units of fuel per character and one more, and Json.v proves this enough for every printed
    text; decimal printing runs with the binary length of the number, proved enough in
    JsString.v; the base-32 decoder of HookData.v needs one round per letter, as proved there;
    the loop that makes a lease token runs once more than there are issued tokens and two
    special ones, proved enough in MandateSteps.v; the pages of a listing need one round for
    each row and one more, proved enough in WorkSafety.v; all other recursion is structural, on the
    data or on the list of answers.  A character is a code unit below 256, which covers every text the
    modelled code compares.

    ** Not modelled, and why

    The relayer's HTTP routes, its SQL migrations and readiness probes and its SDK flows, the agent index's storage
    and handlers, the orchestrator of the frontend and the wallet are glue around services that
    are not in the repository.  The strategist and the council exchange prose with a language
    model.  The construction of the session client and of the read clients calls SDKs only.
    The classification of an existing database schema (PRAGMA and sqlite_master reads) in
    unwindStore.mjs is left out, and its triggers, which forbid updates no statement of the
    store makes.  Screens, the extension, the contracts and the tests are not part of this
    development.

    ** What could follow

    The parts with a logic of their own that have no model yet: the associations and the
    recovery of the agent index, the operations that the executor of recoveries calls, the
    relayer's table of farm intents and its outbox of associations, and the owner actions of
    the frontend. *)
From stdpp Require Export base tactics option list numbers strings gmap.
From Stdlib Require Export ZArith Lia.

#[global] Open Scope Z_scope.

(** ** JavaScript numbers

    The sources hold amounts in [bigint], modelled by [Z] directly, and times, counters
    and basis points in [Number].  A [Number] is modelled by [Z] where the code only ever
    puts integers into it, and by [num] where the code tests it for being finite or where
    a conversion can make it infinite or not a number.  The finite values of [num] are the
    integers. *)
Inductive num : Type :=
| Num (z : Z)
| PosInf
| NegInf
| NaN.

#[export] Instance num_eq_dec : EqDecision num.
Proof. solve_decision. Defined.

Module JsNum.
(** [Number.isFinite] *)
Definition isFinite (n : num) : bool :=
  match n with Num _ => true | _ => false end.

(** The relational operators: every comparison with [NaN] is false. *)
Definition ltb (a b : num) : bool :=
  match a, b with
  | NaN, _ | _, NaN => false
  | Num x, Num y => x <? y
  | NegInf, NegInf | PosInf, _ => false
  | NegInf, _ => true
  | _, PosInf => true
  | Num _, NegInf => false
  end.

Definition leb (a b : num) : bool :=
  match a, b with
  | NaN, _ | _, NaN => false
  | Num x, Num y => x <=? y
  | NegInf, _ | _, PosInf => true
  | PosInf, _ | _, NegInf => false
  end.

Definition gtb (a b : num) : bool := ltb b a.
Definition geb (a b : num) : bool := leb b a.

Lemma geb_Num x y : geb (Num x) (Num y) = (y <=? x).
Proof. reflexivity. Qed.

Lemma ltb_negb_geb a b : a <> NaN -> b <> NaN -> ltb a b = negb (geb a b).
Proof.
  destruct a, b; cbn; try done; intros _ _.
  destruct (Z.ltb_spec z z0), (Z.leb_spec z0 z); cbn; lia.
Qed.
End JsNum.
Arguments JsNum.ltb : simpl never.
Arguments JsNum.leb : simpl never.
Arguments JsNum.gtb : simpl never.
Arguments JsNum.geb : simpl never.

(** ** Fallible code

    A call that may throw returns [result]; stdpp's monad notation [x ← c; k] threads it. *)
Inductive result (E A : Type) : Type :=
| Ok (a : A)
| Throw (e : E).
Arguments Ok {E A} a.
Arguments Throw {E A} e.

#[export] Instance result_ret {E} : MRet (result E) := fun A a => Ok a.
#[export] Instance result_bind {E} : MBind (result E) := fun A B k m =>
  match m with Ok a => k a | Throw e => Throw e end.
#[export] Instance result_fmap {E} : FMap (result E) := fun A B f m =>
  match m with Ok a => Ok (f a) | Throw e => Throw e end.

#[export] Instance result_eq_dec {E A} `{EqDecision E, EqDecision A} :
  EqDecision (result E A).
Proof. solve_decision. Defined.

(** [try { m } catch { d }] *)
Definition catch_with {E A} (d : A) (m : result E A) : A :=
  match m with Ok a => a | Throw _ => d end.

(** [assert b e]: the early [throw] of a guard. *)
Definition guard_throw {E} (b : bool) (e : E) : result E unit :=
  if b then Ok tt else Throw e.

Lemma bind_Ok {E A B} (k : A -> result E B) m b :
  m ≫= k = Ok b <-> exists a, m = Ok a /\ k a = Ok b.
Proof.
  destruct m as [a|e]; cbn; split; [eauto| |done|].
  - intros (a' & [= ->] & ?); done.
  - intros (a' & ? & ?); done.
Qed.

Lemma guard_throw_Ok {E} b (e : E) u : guard_throw b e = Ok u <-> b = true.
Proof. destruct b, u; cbn; naive_solver. Qed.

(** [l.map(f)] and [l.filter(f)] where [f] may throw. *)
Fixpoint map_throw {E A B} (f : A -> result E B) (l : list A) : result E (list B) :=
  match l with
  | [] => Ok []
  | x :: l => y ← f x; ys ← map_throw f l; Ok (y :: ys)
  end.

Fixpoint filter_throw {E A} (f : A -> result E bool) (l : list A) : result E (list A) :=
  match l with
  | [] => Ok []
  | x :: l => b ← f x; xs ← filter_throw f l; Ok (if b : bool then x :: xs else xs)
  end.

Lemma map_throw_Forall2 {E A B} (f : A -> result E B) l ys :
  map_throw f l = Ok ys <-> Forall2 (fun x y => f x = Ok y) l ys.
Proof.
  revert ys. induction l as [|x l IH]; intros ys; cbn.
  - split; [by intros [= <-]|]. by inversion 1.
  - rewrite bind_Ok. setoid_rewrite bind_Ok. setoid_rewrite IH. split.
    + intros (y & Hy & ys' & Hys & [= <-]). by constructor.
    + inversion_clear 1 as [|? y ? ys']. eauto.
Qed.

(** ** Tactics of the development *)

(** Case analysis on the innermost [match] or [if] of the goal or of a hypothesis. *)
Ltac case_goal := repeat (case_match; simplify_eq/=; try done).

(** Turn boolean comparisons on [Z] among the hypotheses and the goal into [Prop]. *)
Ltac zbool :=
  repeat match goal with
    | H : (_ <? _) = true |- _ => apply Z.ltb_lt in H
    | H : (_ <? _) = false |- _ => apply Z.ltb_ge in H
    | H : (_ <=? _) = true |- _ => apply Z.leb_le in H
    | H : (_ <=? _) = false |- _ => apply Z.leb_gt in H
    | H : (_ >? _) = _ |- _ => rewrite Z.gtb_ltb in H
    | H : (_ >=? _) = _ |- _ => rewrite Z.geb_leb in H
    | H : (_ =? _) = true |- _ => apply Z.eqb_eq in H
    | H : (_ =? _) = false |- _ => apply Z.eqb_neq in H
    | H : (_ && _) = true |- _ => apply andb_prop in H as [? ?]
    | H : (_ || _) = false |- _ => apply orb_false_elim in H as [? ?]
    | H : negb _ = true |- _ => apply negb_true_iff in H
    | H : negb _ = false |- _ => apply negb_false_iff in H
    end.

(** Walk back through a computation that ended in [Ok]: its binds, its tests, its result. *)
Ltac invert_ok H :=
  repeat first
    [ discriminate H
    | match type of H with
      | _ ≫= _ = Ok _ => apply bind_Ok in H as (? & ? & H)
      | (if ?b then _ else _) = Ok _ => destruct b eqn:?; try discriminate H
      | match ?x with _ => _ end = Ok _ => destruct x eqn:?; try discriminate H
      | Ok _ = Ok _ => injection H as H
      end ]; simplify_eq.

(** [lia] after exposing the truncating division of [bigint] as equations. *)
Ltac zquot := Z.to_euclidean_division_equations; nia.

(** ** [bigint] division

    [a / b] on [bigint] truncates towards zero: it is [Z.quot]. *)
Lemma quot_nonneg a b : 0 <= a -> 0 <= b -> 0 <= a `quot` b.
Proof.
  intros Ha Hb. destruct (Z.eq_dec b 0) as [->|].
  - by rewrite Z.quot_0_r_ext.
  - apply Z.quot_pos; lia.
Qed.

Lemma quot_le_self a b : 0 <= a -> 0 < b -> a `quot` b <= a.
Proof. intros. rewrite Z.quot_div_nonneg by lia. apply Z.div_le_upper_bound; nia. Qed.

Lemma quot_le_mono a b c : 0 < c -> a <= b -> a `quot` c <= b `quot` c.
Proof. intros. apply Z.quot_le_mono; lia. Qed.

(** A fraction at most one of a non-negative amount is at most the amount. *)
Lemma quot_fraction_le a n d :
  0 <= a -> 0 <= n <= d -> 0 < d -> 0 <= (a * n) `quot` d <= a.
Proof.
  intros. split; [apply quot_nonneg; nia|].
  rewrite Z.quot_div_nonneg by nia. apply Z.div_le_upper_bound; nia.
Qed.

(** ** Lists *)
Fixpoint sumZ (l : list Z) : Z :=
  match l with [] => 0 | x :: l => x + sumZ l end.

Lemma sumZ_app l1 l2 : sumZ (l1 ++ l2) = sumZ l1 + sumZ l2.
Proof. induction l1; cbn; lia. Qed.

Lemma sumZ_nonneg l : Forall (fun x => 0 <= x) l -> 0 <= sumZ l.
Proof. induction 1; cbn; lia. Qed.

Lemma foldl_sumZ {A} (f : A -> Z) l acc :
  foldl (fun s x => s + f x) acc l = acc + sumZ (f <$> l).
Proof.
  revert acc. induction l as [|x l IH]; intros acc; cbn; [lia|].
  rewrite IH. lia.
Qed.

Create Rewrite HintDb js_list.
#[export] Hint Rewrite sumZ_app @length_app @length_fmap : js_list.

Create HintDb js discriminated.
#[export] Hint Resolve quot_nonneg quot_le_self sumZ_nonneg : js.
