(* ===== verification/JsFloat.v ===== *)
(** * Doubles

    The few places where the sources compute with fractional [Number]s use the standard
    library's [SpecFloat] at the format of IEEE doubles (53 bits, exponents below 1024):
    the operations round as the language requires. *)
From Stdlib Require Export SpecFloat.
From S2P Require Export Prelude.

Module Float.

Abbreviation float := spec_float.

Definition sub : float -> float -> float := SFsub 53 1024.
Definition div : float -> float -> float := SFdiv 53 1024.
Definition mul : float -> float -> float := SFmul 53 1024.

(** The double nearest to an integer. *)
Definition of_Z (z : Z) : float := binary_normalize 53 1024 z 0 false.

Definition zero : float := S754_zero false.

(** [Number.isFinite] *)
Definition isFinite (p : float) : bool :=
  match p with S754_zero _ | S754_finite _ _ _ => true | _ => false end.

(** [Math.round]: the nearest integer, ties towards positive infinity. *)
Definition round (p : float) : num :=
  match p with
  | S754_nan => NaN
  | S754_infinity s => if s then NegInf else PosInf
  | S754_zero _ => Num 0
  | S754_finite s m e =>
      let v := if s then Z.neg m else Z.pos m in
      if 0 <=? e then Num (v * 2 ^ e) else Num ((2 * v + 2 ^ (- e)) / 2 ^ (- e + 1))
  end.

(** [Math.floor] *)
Definition floor (p : float) : num :=
  match p with
  | S754_nan => NaN
  | S754_infinity s => if s then NegInf else PosInf
  | S754_zero _ => Num 0
  | S754_finite s m e =>
      let v := if s then Z.neg m else Z.pos m in
      if 0 <=? e then Num (v * 2 ^ e) else Num (v / 2 ^ (- e))
  end.

End Float.

(** [Number.MAX_SAFE_INTEGER] and [Number.isSafeInteger] *)
Definition MAX_SAFE_INTEGER : Z := 9007199254740991.

Definition isSafeInteger (n : num) : bool :=
  match n with Num z => Z.abs z <=? MAX_SAFE_INTEGER | _ => false end.
