(* ===== verification/JsString.v ===== *)
(** * Strings of the program: characters, decimal digits, patterns

    A JavaScript string is a Rocq [string]; operations on it are defined on the list of its
    characters.  A character stands for a code unit below 256, which covers every string
    the modelled code compares or parses.  This file holds the decimal printing and reading
    of integers ([BigInt(...)], [toString], [padStart], [padEnd]), the predicates behind
    the regular expressions of the sources, and their lemmas. *)
From Stdlib Require Export Ascii.
From S2P Require Export Prelude.

Abbreviation chars := (list ascii).

(** A string literal as a list of characters. *)
Definition chars_of (s : string) : chars := String.list_ascii_of_string s.
Definition string_of (l : chars) : string := String.string_of_list_ascii l.

Lemma chars_of_string_of l : chars_of (string_of l) = l.
Proof. apply String.list_ascii_of_string_of_list_ascii. Qed.

Lemma string_of_chars_of s : string_of (chars_of s) = s.
Proof. apply String.string_of_list_ascii_of_string. Qed.

Lemma chars_of_inj s1 s2 : chars_of s1 = chars_of s2 -> s1 = s2.
Proof. intros H. by rewrite <- (string_of_chars_of s1), H, string_of_chars_of. Qed.

Lemma chars_of_app s1 s2 : chars_of (s1 +:+ s2) = chars_of s1 ++ chars_of s2.
Proof. induction s1 as [|c s1 IH]; [done|]. exact (f_equal (cons c) IH). Qed.

(** ** Character codes *)
Definition code (c : ascii) : Z := Z.of_N (N_of_ascii c).

Definition in_range (lo hi : Z) (c : ascii) : bool := (lo <=? code c) && (code c <=? hi).

Definition is_digit : ascii -> bool := in_range 48 57.
Definition is_lower_hex (c : ascii) : bool := is_digit c || in_range 97 102 c.
(** [[A-Z2-7]] *)
Definition is_base32 (c : ascii) : bool := in_range 65 90 c || in_range 50 55 c.

Definition digit_val (c : ascii) : Z := code c - 48.
Definition digit_char (d : Z) : ascii := ascii_of_N (Z.to_N (48 + d)).

Lemma code_digit_char d : 0 <= d < 10 -> code (digit_char d) = 48 + d.
Proof.
  intros Hd. unfold code, digit_char. rewrite N_ascii_embedding by lia. lia.
Qed.

Lemma digit_val_char d : 0 <= d < 10 -> digit_val (digit_char d) = d.
Proof. intros. unfold digit_val. rewrite code_digit_char by done. lia. Qed.

Lemma is_digit_char d : 0 <= d < 10 -> is_digit (digit_char d) = true.
Proof. intros. unfold is_digit, in_range. rewrite code_digit_char by done. lia. Qed.

Lemma is_digit_range c : is_digit c = true -> 0 <= digit_val c < 10.
Proof. unfold is_digit, in_range, digit_val. intros; zbool. lia. Qed.

Lemma code_inj c c' : code c = code c' -> c = c'.
Proof.
  unfold code. intros H. rewrite <- (ascii_N_embedding c), <- (ascii_N_embedding c').
  f_equal. lia.
Qed.

Lemma digit_char_val c : is_digit c = true -> digit_char (digit_val c) = c.
Proof.
  intros Hc. apply code_inj. rewrite code_digit_char by (by apply is_digit_range).
  unfold digit_val. lia.
Qed.

(** ** Reading digits *)

(** The value of a list of digits, [BigInt] of a non-empty one. *)
Definition of_digits (l : chars) : Z := foldl (fun acc c => acc * 10 + digit_val c) 0 l.

Lemma foldl_digits l acc :
  foldl (fun acc c => acc * 10 + digit_val c) acc l
  = acc * 10 ^ Z.of_nat (length l) + of_digits l.
Proof.
  unfold of_digits. revert acc. induction l as [|c l IH]; intros acc; [cbn; lia|].
  cbn [foldl length]. rewrite IH, (IH (0 * 10 + digit_val c)), Nat2Z.inj_succ, Z.pow_succ_r by lia.
  lia.
Qed.

Lemma of_digits_app l1 l2 :
  of_digits (l1 ++ l2) = of_digits l1 * 10 ^ Z.of_nat (length l2) + of_digits l2.
Proof. unfold of_digits at 1. by rewrite foldl_app, foldl_digits. Qed.

Lemma of_digits_snoc l c : of_digits (l ++ [c]) = of_digits l * 10 + digit_val c.
Proof. unfold of_digits. by rewrite foldl_app. Qed.

Lemma of_digits_bounds l :
  Forall (fun c => is_digit c = true) l -> 0 <= of_digits l < 10 ^ Z.of_nat (length l).
Proof.
  induction l as [|c l IH] using rev_ind; [cbn; lia|].
  intros [HF Hc]%Forall_app. rewrite Forall_singleton in Hc.
  rewrite of_digits_snoc, length_app, Nat2Z.inj_add. cbn [length Z.of_nat].
  change (Z.of_nat 1) with 1. rewrite Z.pow_add_r by lia.
  pose proof (is_digit_range c Hc). specialize (IH HF). lia.
Qed.

Lemma of_digits_zeros n : of_digits (replicate n "0"%char) = 0.
Proof. induction n; [done|]. rewrite replicate_S_end, of_digits_snoc, IHn. done. Qed.

(** ** Printing digits: [toString] of a non-negative integer *)
Fixpoint digits_fuel (fuel : nat) (n : Z) : chars :=
  match fuel with
  | O => []
  | S fuel =>
      if n <? 10 then [digit_char n]
      else digits_fuel fuel (n / 10) ++ [digit_char (n mod 10)]
  end.

(** [Z.log2 n + 1] bounds the number of decimal digits of [n]. *)
Definition to_digits (n : Z) : chars := digits_fuel (S (Z.to_nat (Z.log2 n))) n.

Lemma digits_fuel_enough f1 f2 n :
  0 <= n -> (S (Z.to_nat (Z.log2 n)) <= f1)%nat -> (S (Z.to_nat (Z.log2 n)) <= f2)%nat ->
  digits_fuel f1 n = digits_fuel f2 n.
Proof.
  revert f2 n. induction f1 as [|f1 IH]; intros [|f2] n Hn H1 H2; try lia.
  cbn. destruct (Z.ltb_spec n 10); [done|]. f_equal.
  assert (Z.log2 (n / 10) < Z.log2 n) as Hlt.
  { apply Z.log2_lt_pow2; [apply Z.div_str_pos; lia|].
    pose proof (Z.log2_spec n ltac:(lia)) as [_ Hs]. rewrite Z.pow_succ_r in Hs by apply Z.log2_nonneg.
    apply Z.div_lt_upper_bound; lia. }
  pose proof (Z.log2_nonneg (n / 10)).
  apply IH; [apply Z.div_pos; lia|lia|lia].
Qed.

Lemma to_digits_small n : 0 <= n < 10 -> to_digits n = [digit_char n].
Proof. intros. unfold to_digits. cbn. destruct (Z.ltb_spec n 10); [done|lia]. Qed.

Lemma to_digits_step n :
  10 <= n -> to_digits n = to_digits (n / 10) ++ [digit_char (n mod 10)].
Proof.
  intros Hn. unfold to_digits at 1. cbn [digits_fuel]. destruct (Z.ltb_spec n 10); [lia|].
  f_equal. unfold to_digits.
  assert (Z.log2 (n / 10) < Z.log2 n) as Hlt.
  { apply Z.log2_lt_pow2; [apply Z.div_str_pos; lia|].
    pose proof (Z.log2_spec n ltac:(lia)) as [_ Hs]. rewrite Z.pow_succ_r in Hs by apply Z.log2_nonneg.
    apply Z.div_lt_upper_bound; lia. }
  pose proof (Z.log2_nonneg (n / 10)).
  apply digits_fuel_enough; [apply Z.div_pos; lia|lia|lia].
Qed.

(** Induction on the decimal digits of a non-negative integer. *)
Lemma decimal_ind (P : Z -> Prop) :
  (forall n, 0 <= n < 10 -> P n) ->
  (forall n, 10 <= n -> P (n / 10) -> P n) ->
  forall n, 0 <= n -> P n.
Proof.
  intros Hs Hstep n Hn. revert n Hn. apply Zlt_0_ind. intros n IH Hn.
  destruct (Z.ltb_spec n 10); [apply Hs; lia|].
  apply Hstep; [done|]. apply IH. split; [apply Z.div_pos; lia|apply Z.div_lt; lia].
Qed.

Lemma of_to_digits n : 0 <= n -> of_digits (to_digits n) = n.
Proof.
  revert n. apply decimal_ind.
  - intros n Hn. rewrite to_digits_small by done. unfold of_digits. cbn.
    rewrite digit_val_char by done. lia.
  - intros n Hn IH. rewrite to_digits_step, of_digits_snoc, IH by done.
    rewrite digit_val_char by (apply Z.mod_pos_bound; lia).
    pose proof (Z.div_mod n 10). lia.
Qed.

Lemma to_digits_digits n : 0 <= n -> Forall (fun c => is_digit c = true) (to_digits n).
Proof.
  revert n. apply decimal_ind.
  - intros n Hn. rewrite to_digits_small by done. apply Forall_singleton.
    by apply is_digit_char.
  - intros n Hn IH. rewrite to_digits_step by done. apply Forall_app. split; [done|].
    apply Forall_singleton, is_digit_char, Z.mod_pos_bound. lia.
Qed.

(** A canonical numeral: digits, at least one, no leading zero except [0] itself. *)
Definition canonical_digits (l : chars) : Prop :=
  Forall (fun c => is_digit c = true) l
  /\ match l with [] => False | c :: l' => c = "0"%char -> l' = [] end.

Lemma to_digits_canonical n : 0 <= n -> canonical_digits (to_digits n).
Proof.
  intros Hn. split; [by apply to_digits_digits|].
  revert n Hn. apply (decimal_ind (fun n =>
    match to_digits n with [] => False | c :: l => c = "0"%char -> l = [] end)).
  - intros n Hn. by rewrite to_digits_small.
  - intros n Hn IH. rewrite to_digits_step by done.
    destruct (to_digits (n / 10)) as [|c l] eqn:E; [done|]. cbn. intros ->.
    rewrite (IH eq_refl) in E.
    assert (of_digits (to_digits (n / 10)) = n / 10) as Hof
      by (apply of_to_digits, Z.div_pos; lia).
    rewrite E in Hof. cbn in Hof. assert (0 < n / 10) by (apply Z.div_str_pos; lia).
    unfold of_digits, digit_val, code in Hof. cbn in Hof. lia.
Qed.

Lemma to_digits_nonempty n : 0 <= n -> to_digits n <> [].
Proof. intros Hn E. destruct (to_digits_canonical n Hn) as [_ H]. by rewrite E in H. Qed.

Lemma canonical_snoc_pos l c :
  l <> [] -> canonical_digits (l ++ [c]) -> canonical_digits l /\ 0 < of_digits l.
Proof.
  intros Hne [HF Hc]. apply Forall_app in HF as [HF _].
  destruct l as [|x l]; [done|]. cbn in Hc.
  assert (x <> "0"%char) as Hx.
  { intros ->. specialize (Hc eq_refl). by destruct l. }
  split; [split; [done|]; intros ->; done|].
  rewrite Forall_cons in HF. destruct HF as [Hx' HF].
  change (x :: l) with ([x] ++ l). rewrite of_digits_app.
  pose proof (of_digits_bounds l HF). pose proof (is_digit_range x Hx').
  assert (digit_val x <> 0).
  { intros E. apply Hx, code_inj. unfold digit_val in E. change (code "0"%char) with 48. lia. }
  assert (of_digits [x] = digit_val x) as -> by done.
  assert (0 < 10 ^ Z.of_nat (length l)) by (apply Z.pow_pos_nonneg; lia). nia.
Qed.

(** Canonical numerals are exactly what [toString] prints. *)
Lemma to_of_digits l : canonical_digits l -> to_digits (of_digits l) = l.
Proof.
  induction l as [|c l IH] using rev_ind; [by intros [_ []]|].
  intros Hl. pose proof Hl as [HF _]. apply Forall_app in HF as [HF Hc].
  rewrite Forall_singleton in Hc. pose proof (is_digit_range c Hc).
  destruct (decide (l = [])) as [->|Hne].
  - cbn [app]. change (of_digits [c]) with (digit_val c).
    rewrite to_digits_small by lia. by rewrite digit_char_val.
  - destruct (canonical_snoc_pos l c Hne Hl) as [Hcan Hpos].
    rewrite of_digits_snoc, to_digits_step by lia.
    rewrite Z.div_add_l, Z.div_small, Z.add_0_r, IH by (done || lia).
    rewrite Z.add_comm, Z.mod_add, Z.mod_small by lia.
    by rewrite digit_char_val.
Qed.

(** [BigInt.prototype.toString] *)
Definition BigInt_toString (n : Z) : chars :=
  if n <? 0 then "-"%char :: to_digits (- n) else to_digits n.

(** ** Padding *)
Definition padStart (l : chars) (n : Z) (c : ascii) : chars :=
  replicate (Z.to_nat n - length l) c ++ l.

Definition padEnd (l : chars) (n : Z) (c : ascii) : chars :=
  l ++ replicate (Z.to_nat n - length l) c.

(** [replace(/0+$/, '')] *)
Fixpoint strip_zeros (l : chars) : chars :=
  match l with
  | [] => []
  | c :: l =>
      match strip_zeros l with
      | [] => if Ascii.eqb c "0" then [] else [c]
      | l' => c :: l'
      end
  end.

Lemma strip_zeros_spec l : exists k, l = strip_zeros l ++ replicate k "0"%char.
Proof.
  induction l as [|c l [k IH]]; [by exists O|]. cbn.
  destruct (strip_zeros l) as [|x l'] eqn:E.
  - cbn in IH. rewrite IH. destruct (Ascii.eqb_spec c "0") as [->|].
    + by exists (S k).
    + by exists k.
  - exists k. by rewrite IH at 1.
Qed.

(** The prefix before the first [c], and what follows it. *)
Fixpoint split_at (c : ascii) (l : chars) : chars * option chars :=
  match l with
  | [] => ([], None)
  | x :: l =>
      if Ascii.eqb x c then ([], Some l)
      else let '(a, b) := split_at c l in (x :: a, b)
  end.

Lemma split_at_app c l1 l2 :
  Forall (fun x => x <> c) l1 -> split_at c (l1 ++ c :: l2) = (l1, Some l2).
Proof.
  induction 1 as [|x l1 Hx HF IH]; cbn.
  - by rewrite Ascii.eqb_refl.
  - destruct (Ascii.eqb_spec x c); [done|]. by rewrite IH.
Qed.

Lemma split_at_none c l : Forall (fun x => x <> c) l -> split_at c l = (l, None).
Proof.
  induction 1 as [|x l Hx HF IH]; cbn; [done|].
  destruct (Ascii.eqb_spec x c); [done|]. by rewrite IH.
Qed.

Lemma digit_not_dot c : is_digit c = true -> c <> "."%char.
Proof. by intros H ->. Qed.

(** [l.includes(needle)], [l.startsWith(needle)], [l.endsWith(needle)] *)
Fixpoint startsWith (needle l : chars) : bool :=
  match needle, l with
  | [], _ => true
  | a :: needle, b :: l => Ascii.eqb a b && startsWith needle l
  | _, _ => false
  end.

Fixpoint includes (needle l : chars) : bool :=
  startsWith needle l || match l with [] => false | _ :: l => includes needle l end.

Definition endsWith (needle l : chars) : bool := startsWith (rev needle) (rev l).

(** ** The regular expressions of the sources *)

(** [/^\d+$/] *)
Definition all_digits (l : chars) : bool :=
  match l with [] => false | _ => forallb is_digit l end.

(** [/^(?:0|[1-9][0-9]* )$/] *)
Definition is_decimal (l : chars) : bool :=
  match l with
  | [] => false
  | [c] => is_digit c
  | c :: _ => forallb is_digit l && negb (Ascii.eqb c "0")
  end.

(** [/^[0-9a-f]{n}$/] *)
Definition is_hex (n : nat) (l : chars) : bool :=
  (length l =? n)%nat && forallb is_lower_hex l.

(** [/^0x[0-9a-f]{n}$/] *)
Definition is_0x_hex (n : nat) (l : chars) : bool :=
  match l with
  | a :: b :: l => Ascii.eqb a "0" && Ascii.eqb b "x" && is_hex n l
  | _ => false
  end.

(** [/^[CG][A-Z2-7]{55}$/] *)
Definition is_strkey (l : chars) : bool :=
  match l with
  | a :: l => (Ascii.eqb a "C" || Ascii.eqb a "G") && (length l =? 55)%nat && forallb is_base32 l
  | [] => false
  end.

(** [toLowerCase] and [toUpperCase] on the letters of the alphabet; the accented letters
    keep their case, which no pattern of the sources sees. *)
Definition lower (c : ascii) : ascii :=
  if in_range 65 90 c then ascii_of_N (Z.to_N (code c + 32)) else c.
Definition upper (c : ascii) : ascii :=
  if in_range 97 122 c then ascii_of_N (Z.to_N (code c - 32)) else c.
(** The sharp s is two letters in upper case. *)
Definition upper_chars (c : ascii) : chars :=
  if code c =? 223 then ["S"; "S"]%char else [upper c].
Definition toLowerCase (l : chars) : chars := lower <$> l.
Definition toUpperCase (l : chars) : chars := l ≫= upper_chars.

Lemma forallb_Forall {A} (f : A -> bool) l :
  forallb f l = true <-> Forall (fun x => f x = true) l.
Proof. rewrite forallb_forall, Forall_forall. setoid_rewrite list_elem_of_In. done. Qed.

Lemma is_decimal_canonical l : is_decimal l = true <-> canonical_digits l.
Proof.
  unfold canonical_digits. destruct l as [|c [|d l]]; cbn [is_decimal].
  - naive_solver.
  - rewrite Forall_singleton. naive_solver.
  - rewrite andb_true_iff, negb_true_iff, Ascii.eqb_neq, forallb_Forall. naive_solver.
Qed.

Lemma is_decimal_to_digits n : 0 <= n -> is_decimal (to_digits n) = true.
Proof. intros. by apply is_decimal_canonical, to_digits_canonical. Qed.

#[export] Hint Resolve to_digits_digits to_digits_canonical to_digits_nonempty : js.

(** ** [BigInt(text)]

    Surrounding white space is ignored; the empty text is zero; a sign may precede decimal
    digits and no other base. *)
Definition is_space (c : ascii) : bool :=
  in_range 9 13 c || (code c =? 32) || (code c =? 160).

Fixpoint trim_start (l : chars) : chars :=
  match l with
  | c :: l' => if is_space c then trim_start l' else l
  | [] => []
  end.

Definition trim (l : chars) : chars := rev (trim_start (rev (trim_start l))).

(** The value of a digit up to base sixteen, [None] for any other character. *)
Definition base_digit (c : ascii) : option Z :=
  if is_digit c then Some (digit_val c)
  else if in_range 97 102 c then Some (code c - 87)
  else if in_range 65 70 c then Some (code c - 55)
  else None.

Fixpoint radix_digits (base acc : Z) (l : chars) : option Z :=
  match l with
  | [] => Some acc
  | c :: l =>
      match base_digit c with
      | Some d => if d <? base then radix_digits base (acc * base + d) l else None
      | None => None
      end
  end.

(** The base announced by the character after a leading zero. *)
Definition radix_of (c : ascii) : option Z :=
  if Ascii.eqb (lower c) "x" then Some 16
  else if Ascii.eqb (lower c) "o" then Some 8
  else if Ascii.eqb (lower c) "b" then Some 2
  else None.

Definition StringToBigInt (text : chars) : option Z :=
  match trim text with
  | [] => Some 0
  | c :: l =>
      if Ascii.eqb c "-" then if all_digits l then Some (- of_digits l) else None
      else if Ascii.eqb c "+" then if all_digits l then Some (of_digits l) else None
      else if all_digits (c :: l) then Some (of_digits (c :: l))
      else
        match l with
        | d :: ((_ :: _) as r) =>
            if Ascii.eqb c "0" then
              match radix_of d with
              | Some base => radix_digits base 0 r
              | None => None
              end
            else None
        | _ => None
        end
  end.

Lemma digit_not_space c : is_digit c = true -> is_space c = false.
Proof.
  unfold is_digit, is_space, in_range. intros [H1%Z.leb_le H2%Z.leb_le]%andb_prop.
  apply orb_false_iff. split; [apply orb_false_iff; split; [apply andb_false_iff; right|]|];
    first [apply Z.leb_gt|apply Z.eqb_neq]; lia.
Qed.

Lemma trim_start_digit l :
  Forall (fun c => is_digit c = true) l -> trim_start l = l.
Proof. intros [|c l' Hc]; [done|]. cbn. by rewrite digit_not_space. Qed.

(** [BigInt] reads back what [toString] printed, for every integer. *)
Lemma StringToBigInt_digits l :
  l <> [] -> Forall (fun c => is_digit c = true) l -> StringToBigInt l = Some (of_digits l).
Proof.
  intros Hne HF. unfold StringToBigInt, trim. rewrite (trim_start_digit l HF).
  rewrite trim_start_digit by (by apply Forall_rev). rewrite rev_involutive.
  destruct l as [|c l]; [done|].
  assert (is_digit c = true) as Hc by (by inversion HF).
  assert (all_digits (c :: l) = true) as ->.
  { unfold all_digits. by apply forallb_Forall. }
  destruct (Ascii.eqb_spec c "-") as [->|_]; [done|].
  destruct (Ascii.eqb_spec c "+") as [->|_]; [done|]. done.
Qed.

Lemma StringToBigInt_toString n : 0 <= n -> StringToBigInt (BigInt_toString n) = Some n.
Proof.
  intros Hn. assert (BigInt_toString n = to_digits n) as ->.
  { unfold BigInt_toString. by destruct (Z.ltb_spec n 0); [lia|]. }
  rewrite StringToBigInt_digits; [by rewrite of_to_digits|by apply to_digits_nonempty|
    by apply to_digits_digits].
Qed.

Example StringToBigInt_examples :
  StringToBigInt (chars_of " 0x1F ") = Some 31 /\ StringToBigInt (chars_of "-42") = Some (-42)
  /\ StringToBigInt [] = Some 0 /\ StringToBigInt (chars_of "1.5") = None
  /\ StringToBigInt (chars_of "0x") = None.
Proof. split_and!; vm_compute; reflexivity. Qed.
