(* ===== verification/JsValue.v ===== *)
(** * Values of the program: objects, arrays and scalars

    The parts of the frontend that validate requests, rows and evidence work on untyped
    JavaScript values.  This file models the values they can meet: what [JSON.parse] builds,
    [undefined], and [bigint].  A value is a finite tree, so the guards of the sources
    against cyclic data always pass.  An object is the list of its own properties in the
    order [Object.keys] lists them. *)
From stdpp Require Export sorting.
From S2P Require Export Prelude JsString JsFloat.

(** [Number] holds the infinities, [NaN] and the safe integers; [Double] is any other
    number, by the text that [String] gives for it. *)
Inductive val : Type :=
| Undefined
| Null
| Bool (b : bool)
| Number (n : num)
| Double (text : chars)
| BigInt (z : Z)
| Str (s : string)
| Arr (l : list val)
| Obj (fs : list (string * val)).

(** ** Induction through arrays and objects *)
Section val_induction.
Context (P : val -> Prop).
Context (HUndefined : P Undefined) (HNull : P Null) (HBool : forall b, P (Bool b)).
Context (HNumber : forall n, P (Number n)) (HDouble : forall t, P (Double t)).
Context (HBigInt : forall z, P (BigInt z)) (HStr : forall s, P (Str s)).
Context (HArr : forall l, Forall P l -> P (Arr l)).
Context (HObj : forall fs, Forall (fun f => P f.2) fs -> P (Obj fs)).

Fixpoint val_tree_ind (v : val) : P v :=
  match v with
  | Undefined => HUndefined
  | Null => HNull
  | Bool b => HBool b
  | Number n => HNumber n
  | Double t => HDouble t
  | BigInt z => HBigInt z
  | Str s => HStr s
  | Arr l =>
      HArr l ((fix go l : Forall P l :=
                 match l with
                 | [] => Forall_nil_2 P
                 | v :: l => Forall_cons_2 P v l (val_tree_ind v) (go l)
                 end) l)
  | Obj fs =>
      HObj fs ((fix go fs : Forall (fun f => P f.2) fs :=
                  match fs with
                  | [] => Forall_nil_2 (fun f => P f.2)
                  | f :: fs => Forall_cons_2 (fun f => P f.2) f fs (val_tree_ind f.2) (go fs)
                  end) fs)
  end.
End val_induction.

(** ** Tests *)
Definition nullish (v : val) : bool := match v with Undefined | Null => true | _ => false end.
Definition is_string (v : val) : bool := match v with Str _ => true | _ => false end.
Definition is_boolean (v : val) : bool := match v with Bool _ => true | _ => false end.
Definition is_array (v : val) : bool := match v with Arr _ => true | _ => false end.
(** [v && typeof v === 'object' && !Array.isArray(v)] *)
Definition is_object (v : val) : bool := match v with Obj _ => true | _ => false end.

(** [Boolean(v)] *)
Definition truthy (v : val) : bool :=
  match v with
  | Undefined | Null | Number (Num 0) | Number NaN | BigInt 0 => false
  | Bool b => b
  | Str s => negb (bool_decide (s = EmptyString))
  | _ => true
  end.

(** The text of a number is that of an integer: [1.5] and [5e-324] are not, [1e+21] is. *)
Definition integral_text (t : chars) : bool :=
  match split_at "e" t with
  | (_, Some (c :: _)) => negb (Ascii.eqb c "-")
  | (mantissa, _) => match split_at "." mantissa with (_, None) => true | _ => false end
  end.

(** [Number.isInteger] and [Number.isSafeInteger] *)
Definition is_integer (v : val) : bool :=
  match v with
  | Number n => JsNum.isFinite n
  | Double t => integral_text t
  | _ => false
  end.

(** The integer a number stands for. The text of an integral [Double] is digits, or digits
    with a fraction and an exponent that shifts it out. *)
Definition text_integer (t : chars) : Z :=
  let '(sign, u) :=
    match t with c :: t' => if Ascii.eqb c "-" then (-1, t') else (1, t) | [] => (1, t) end in
  let '(mantissa, exponent) := split_at "e" u in
  let '(whole, fraction) := split_at "." mantissa in
  let f := default [] fraction in
  let e := match exponent with Some (_ :: x) => of_digits x | _ => 0 end in
  sign * (of_digits (whole ++ f) * 10 ^ (e - Z.of_nat (length f))).

Definition integer_of (v : val) : Z :=
  match v with Number (Num z) => z | Double t => text_integer t | _ => 0 end.

Definition is_safe_integer (v : val) : bool :=
  match v with Number n => isSafeInteger n | _ => false end.

(** [===] where one side is a scalar; objects and arrays compare by identity, and the
    modelled code never compares two of them. *)
Definition strict_eq (a b : val) : bool :=
  match a, b with
  | Undefined, Undefined | Null, Null => true
  | Bool x, Bool y => Bool.eqb x y
  | Number NaN, _ => false
  | Number x, Number y => bool_decide (x = y)
  | Double x, Double y => bool_decide (x = y)
  | BigInt x, BigInt y => x =? y
  | Str x, Str y => bool_decide (x = y)
  | _, _ => false
  end.

(** ** Conversion to a string, [String(v)] or a template literal *)
Definition num_chars (n : num) : chars :=
  match n with
  | Num z => BigInt_toString z
  | PosInf => chars_of "Infinity"
  | NegInf => chars_of "-Infinity"
  | NaN => chars_of "NaN"
  end.

(** [parts.join(sep)] *)
Fixpoint join (sep : chars) (parts : list chars) : chars :=
  match parts with
  | [] => []
  | [p] => p
  | p :: ps => p ++ sep ++ join sep ps
  end.

Fixpoint coerce (v : val) : chars :=
  match v with
  | Undefined => chars_of "undefined"
  | Null => chars_of "null"
  | Bool true => chars_of "true"
  | Bool false => chars_of "false"
  | Number n => num_chars n
  | Double t => t
  | BigInt z => BigInt_toString z
  | Str s => chars_of s
  | Arr l => join [","%char] ((fun v => if nullish v then [] else coerce v) <$> l)
  | Obj _ => chars_of "[object Object]"
  end.

(** [BigInt(v)], [None] where it throws. *)
Definition to_BigInt (v : val) : option Z :=
  match v with
  | Bool b => Some (if b then 1 else 0)
  | Number (Num z) => Some z
  | Double t => if integral_text t then Some (text_integer t) else None
  | BigInt z => Some z
  | Str s => StringToBigInt (chars_of s)
  | Arr _ | Obj _ => StringToBigInt (coerce v)
  | Undefined | Null | Number _ => None
  end.

(** [re.test(v)] *)
Definition test (re : chars -> bool) (v : val) : bool := re (coerce v).

(** ** Properties *)
Fixpoint assoc {A} (fs : list (string * A)) (k : string) : option A :=
  match fs with
  | [] => None
  | (k', v) :: fs => if decide (k' = k) then Some v else assoc fs k
  end.

(** [v?.k]: [undefined] for a missing property and for a value without properties. *)
Definition get (v : val) (k : string) : val :=
  match v with
  | Obj fs => default Undefined (assoc fs k)
  | Arr l => if decide (k = "length"%string) then Number (Num (Z.of_nat (length l))) else Undefined
  | Str s =>
      if decide (k = "length"%string) then Number (Num (Z.of_nat (String.length s)))
      else Undefined
  | _ => Undefined
  end.

Notation "v '#' k" := (get v k%string) (at level 8, left associativity, k at level 0, format "v # k").

(** [v ?? d] *)
Definition coalesce (v d : val) : val := if nullish v then d else v.
(** [v || {}] *)
Definition or_empty (v : val) : val := if truthy v then v else Obj [].

(** [Object.keys], [Object.entries] and [Object.values] of an object or array. *)
Definition entries (v : val) : list (string * val) :=
  match v with
  | Obj fs => fs
  | Arr l => imap (fun i v => (string_of (to_digits (Z.of_nat i)), v)) l
  | _ => []
  end.
Definition keys (v : val) : list string := (entries v).*1.
Definition values (v : val) : list val := (entries v).*2.

(** [Object.prototype.hasOwnProperty.call(v, k)] on an object. *)
Definition has_own (v : val) (k : string) : bool :=
  match v with Obj fs => match assoc fs k with Some _ => true | None => false end | _ => false end.

(** [String(v)] is defined: an object whose own property hides [toString] has no text.  Values
    hold no functions, so such a property can never be called. *)
Fixpoint stringable (v : val) : bool :=
  match v with
  | Arr l => forallb stringable l
  | Obj _ => negb (has_own v "toString"%string)
  | _ => true
  end.

(** The properties every object literal inherits. *)
Definition object_prototype : list string :=
  ["constructor"; "__defineGetter__"; "__defineSetter__"; "hasOwnProperty"; "__lookupGetter__";
   "__lookupSetter__"; "isPrototypeOf"; "propertyIsEnumerable"; "toString"; "valueOf";
   "__proto__"; "toLocaleString"]%string.

(** ** Building objects

    Setting a property overwrites in place or appends; array-index keys are listed first,
    in ascending order. *)
Fixpoint set_property (fs : list (string * val)) (k : string) (v : val) : list (string * val) :=
  match fs with
  | [] => [(k, v)]
  | (k', v') :: fs => if decide (k' = k) then (k, v) :: fs else (k', v') :: set_property fs k v
  end.

(** [{ ...base, k: v, ... }] *)
Definition with_props (base : val) (props : list (string * val)) : val :=
  Obj (foldl (fun fs p => set_property fs p.1 p.2) (match base with Obj fs => fs | _ => [] end) props).

Definition is_index (k : string) : bool :=
  is_decimal (chars_of k) && (of_digits (chars_of k) <? 4294967295).

Fixpoint insert_index (f : string * val) (fs : list (string * val)) : list (string * val) :=
  match fs with
  | [] => [f]
  | g :: fs' =>
      if of_digits (chars_of f.1) <=? of_digits (chars_of g.1) then f :: fs
      else g :: insert_index f fs'
  end.

Definition own_order (fs : list (string * val)) : list (string * val) :=
  foldr insert_index [] (filter (fun f => is_index f.1 = true) fs)
  ++ filter (fun f => is_index f.1 = false) fs.

(** [Object.fromEntries] *)
Definition from_entries (fs : list (string * val)) : list (string * val) :=
  own_order (foldl (fun acc f => set_property acc f.1 f.2) [] fs).

(** An object literal whose properties are computed in order and may throw. *)
Fixpoint fields {E} (fs : list (string * result E val)) : result E (list (string * val)) :=
  match fs with
  | [] => Ok []
  | (k, m) :: fs => v ← m; rest ← fields fs; Ok ((k, v) :: rest)
  end.

Definition object {E} (fs : list (string * result E val)) : result E val := Obj <$> fields fs.

Notation "k ↦ m" := (k%string, m) (at level 70, only parsing).

(** ** Lemmas *)
Lemma assoc_In {A} (fs : list (string * A)) k v : assoc fs k = Some v -> (k, v) ∈ fs.
Proof.
  induction fs as [|[k' v'] fs IH]; [done|]. cbn. case_decide as Hk; [|set_solver].
  intros [= ->]. subst. left.
Qed.

Lemma assoc_None {A} (fs : list (string * A)) k : assoc fs k = None <-> k ∉ fs.*1.
Proof.
  induction fs as [|[k' v'] fs IH]; cbn; [set_solver|]. case_decide; set_solver.
Qed.

Lemma In_assoc {A} (fs : list (string * A)) k v :
  NoDup fs.*1 -> (k, v) ∈ fs -> assoc fs k = Some v.
Proof.
  induction fs as [|[k' v'] fs IH]; cbn; [set_solver|].
  intros [Hk Hnd]%NoDup_cons [[= -> ->]|Hin]%elem_of_cons; [by rewrite decide_True|].
  rewrite decide_False; [auto|]. intros ->. apply Hk. by apply (list_elem_of_fmap_2 fst) in Hin.
Qed.

Lemma has_own_keys v k : has_own v k = true -> k ∈ keys v.
Proof.
  destruct v as [| | | | | | | |fs]; try done. unfold has_own, keys, entries.
  destruct (assoc fs k) eqn:E; [|done]. intros _. apply assoc_In in E.
  by apply (list_elem_of_fmap_2 fst) in E.
Qed.

Lemma is_object_inv v : is_object v = true -> exists fs, v = Obj fs.
Proof. destruct v; try done. eauto. Qed.

Lemma strict_eq_Str v s : strict_eq v (Str s) = true <-> v = Str s.
Proof.
  destruct v as [| | |[]| | | | |]; cbn; try done. rewrite bool_decide_eq_true. naive_solver.
Qed.

(** ** Association lists and objects *)
Lemma assoc_perm {A} (fs gs : list (string * A)) k :
  NoDup fs.*1 -> fs ≡ₚ gs -> assoc fs k = assoc gs k.
Proof.
  intros Hnd Hp. assert (NoDup gs.*1) as Hnd' by (by rewrite <- Hp).
  destruct (assoc gs k) as [v|] eqn:E.
  - apply assoc_In in E. apply In_assoc; [done|]. by rewrite Hp.
  - apply assoc_None. apply assoc_None in E. by rewrite Hp.
Qed.

Lemma set_property_new fs k v : k ∉ fs.*1 -> set_property fs k v = fs ++ [(k, v)].
Proof.
  induction fs as [|[k' v'] fs IH]; [done|]. cbn. intros H.
  rewrite decide_False by set_solver. rewrite IH by set_solver. done.
Qed.

Lemma set_properties_distinct fs acc :
  NoDup (acc ++ fs).*1 -> foldl (fun acc f => set_property acc f.1 f.2) acc fs = acc ++ fs.
Proof.
  revert acc. induction fs as [|[k v] fs IH]; intros acc Hnd; cbn; [by rewrite app_nil_r|].
  rewrite set_property_new.
  - rewrite IH, <- app_assoc; [done|]. by rewrite <- app_assoc.
  - rewrite fmap_app in Hnd. apply NoDup_app in Hnd as (_ & H & _). intros Hin.
    apply (H _ Hin). cbn. left.
Qed.

Lemma from_entries_distinct fs : NoDup fs.*1 -> from_entries fs = own_order fs.
Proof. intros. unfold from_entries. by rewrite set_properties_distinct. Qed.

Lemma insert_index_perm f fs : insert_index f fs ≡ₚ f :: fs.
Proof.
  induction fs as [|g fs IH]; cbn; [done|]. destruct (_ <=? _); [done|].
  rewrite IH. constructor.
Qed.

Lemma insert_indices_perm fs : foldr insert_index [] fs ≡ₚ fs.
Proof. induction fs as [|f fs IH]; cbn; [done|]. by rewrite insert_index_perm, IH. Qed.

Lemma filter_index_perm (fs : list (string * val)) :
  filter (fun f => is_index f.1 = true) fs ++ filter (fun f => is_index f.1 = false) fs ≡ₚ fs.
Proof.
  induction fs as [|f fs IH]; [done|]. rewrite !filter_cons.
  destruct (is_index f.1) eqn:E.
  - rewrite decide_True, decide_False by congruence. cbn. by rewrite IH.
  - rewrite decide_False, decide_True by congruence. by rewrite <- Permutation_middle, IH.
Qed.

Lemma own_order_perm fs : own_order fs ≡ₚ fs.
Proof. unfold own_order. by rewrite insert_indices_perm, filter_index_perm. Qed.

Definition index_le (f g : string * val) : Prop :=
  of_digits (chars_of f.1) <= of_digits (chars_of g.1).

Lemma insert_index_sorted f fs : Sorted index_le fs -> Sorted index_le (insert_index f fs).
Proof.
  induction 1 as [|g fs Hs IH Hd]; cbn; [by repeat constructor|].
  destruct (Z.leb_spec (of_digits (chars_of f.1)) (of_digits (chars_of g.1))).
  - repeat constructor; done.
  - constructor; [done|]. destruct Hd as [|h fs Hh]; cbn.
    + constructor. unfold index_le. lia.
    + destruct (_ <=? _); constructor; unfold index_le in *; lia || done.
Qed.

Lemma insert_indices_sorted fs : Sorted index_le (foldr insert_index [] fs).
Proof. induction fs; cbn; [constructor|]. by apply insert_index_sorted. Qed.

Lemma insert_indices_fixed fs : Sorted index_le fs -> foldr insert_index [] fs = fs.
Proof.
  induction 1 as [|f fs Hs IH Hd]; [done|]. cbn. rewrite IH.
  destruct Hd as [|g fs Hg]; [done|]. cbn.
  destruct (Z.leb_spec (of_digits (chars_of f.1)) (of_digits (chars_of g.1))); [done|].
  unfold index_le in Hg. lia.
Qed.

Lemma filter_all {A} (P : A -> Prop) `{forall x, Decision (P x)} l : Forall P l -> filter P l = l.
Proof. induction 1 as [|x l Hx _ IH]; [done|]. by rewrite filter_cons_True, IH. Qed.

Lemma filter_none {A} (P : A -> Prop) `{forall x, Decision (P x)} l :
  Forall (fun x => ~ P x) l -> filter P l = [].
Proof. induction 1 as [|x l Hx _ IH]; [done|]. by rewrite filter_cons_False. Qed.

Lemma own_order_idemp fs : own_order (own_order fs) = own_order fs.
Proof.
  unfold own_order at 1. set (A := foldr insert_index [] (filter (fun f => is_index f.1 = true) fs)).
  set (B := filter (fun f => is_index f.1 = false) fs).
  assert (Forall (fun f => is_index f.1 = true) A) as HA.
  { unfold A. rewrite insert_indices_perm. apply Forall_forall.
    intros f [? _]%list_elem_of_filter. done. }
  assert (Forall (fun f => is_index f.1 = false) B) as HB.
  { apply Forall_forall. intros f [? _]%list_elem_of_filter. done. }
  change (own_order fs) with (A ++ B). rewrite !filter_app.
  rewrite (filter_all _ A), (filter_none _ B), (filter_none _ A), (filter_all _ B); try done.
  - rewrite app_nil_r. by rewrite insert_indices_fixed by apply insert_indices_sorted.
  - eapply Forall_impl; [exact HA|]. cbn. congruence.
  - eapply Forall_impl; [exact HB|]. cbn. congruence.
Qed.

(** *** The properties of objects built from entries *)
Lemma set_property_keys_cases fs k v :
  (set_property fs k v).*1 = fs.*1 \/ (k ∉ fs.*1 /\ (set_property fs k v).*1 = fs.*1 ++ [k]).
Proof.
  induction fs as [|[k' v'] fs IH]; cbn; [right; set_solver|].
  case_decide as Hk; cbn; [subst; by left|].
  destruct IH as [->|[Hn ->]]; [by left|]. right. set_solver.
Qed.

Lemma set_property_NoDup fs k v : NoDup fs.*1 -> NoDup (set_property fs k v).*1.
Proof.
  intros Hnd. destruct (set_property_keys_cases fs k v) as [->|[Hn ->]]; [done|].
  apply NoDup_app. split_and!; [done|set_solver|apply NoDup_singleton].
Qed.

Lemma set_properties_NoDup fs acc :
  NoDup acc.*1 -> NoDup (foldl (fun acc f => set_property acc f.1 f.2) acc fs).*1.
Proof.
  revert acc. induction fs as [|[k v] fs IH]; intros acc Hnd; [done|]. cbn.
  apply IH. by apply set_property_NoDup.
Qed.

Lemma set_property_Forall (P : val -> Prop) fs k v :
  P v -> Forall (fun f => P f.2) fs -> Forall (fun f => P f.2) (set_property fs k v).
Proof.
  intros Hv. induction 1 as [|[k' v'] fs Hf HF IH]; cbn; [by constructor|].
  case_decide; by constructor.
Qed.

Lemma set_properties_Forall (P : val -> Prop) fs acc :
  Forall (fun f => P f.2) acc -> Forall (fun f => P f.2) fs ->
  Forall (fun f => P f.2) (foldl (fun acc f => set_property acc f.1 f.2) acc fs).
Proof.
  intros Ha HF. revert acc Ha. induction HF as [|[k v] fs Hv HF IH]; intros acc Ha; [done|].
  cbn. apply IH. by apply set_property_Forall.
Qed.

Lemma from_entries_NoDup fs : NoDup (from_entries fs).*1.
Proof.
  unfold from_entries. rewrite own_order_perm. apply set_properties_NoDup. constructor.
Qed.

Lemma from_entries_idemp fs : from_entries (from_entries fs) = from_entries fs.
Proof.
  rewrite from_entries_distinct by apply from_entries_NoDup.
  unfold from_entries. apply own_order_idemp.
Qed.

Lemma from_entries_Forall (P : val -> Prop) fs :
  Forall (fun f => P f.2) fs -> Forall (fun f => P f.2) (from_entries fs).
Proof.
  intros HF. unfold from_entries. rewrite own_order_perm. by apply set_properties_Forall.
Qed.

(** Reading a property after setting one. *)
Lemma assoc_set_property fs k v j :
  assoc (set_property fs k v) j = if decide (j = k) then Some v else assoc fs j.
Proof.
  induction fs as [|[k' v'] fs IH]; cbn.
  { destruct (decide (j = k)) as [->|]; [by rewrite decide_True|by rewrite decide_False]. }
  destruct (decide (k' = k)) as [->|Hk]; cbn.
  - destruct (decide (j = k)) as [->|]; [by rewrite decide_True|].
    by rewrite decide_False, decide_False by congruence.
  - rewrite IH. destruct (decide (k' = j)) as [->|]; [by rewrite decide_False|done].
Qed.

Lemma get_set_property fs k v j :
  get (Obj (set_property fs k v)) j = if decide (j = k) then v else get (Obj fs) j.
Proof. cbn. rewrite assoc_set_property. by case_decide. Qed.

Lemma strict_eq_eq a b : strict_eq a b = true -> a = b.
Proof.
  intros H. unfold strict_eq in H.
  destruct a as [| |x|[m| | |]|t|z|s|l|fs], b as [| |y|[m'| | |]|t'|z'|s'|l'|fs'];
    try discriminate H; try reflexivity;
    first [ apply bool_decide_eq_true in H; congruence
          | apply Z.eqb_eq in H; congruence
          | apply Bool.eqb_prop in H; congruence ].
Qed.
