(* ===== verification/Json.v ===== *)
(** * [JSON.stringify] and [JSON.parse]

    The printer and the parser of the values of [JsValue], on strings of code units below
    256, and the theorem that the parser reads back what the printer wrote. *)
From S2P Require Export JsValue.

Module JSON.

(** ** Printing *)
Definition hex_char (d : Z) : ascii := digit_char (if d <? 10 then d else d + 39).

Definition escape (c : ascii) : chars :=
  if Ascii.eqb c "034" then ["\"; "034"]%char
  else if Ascii.eqb c "\" then ["\"; "\"]%char
  else if Ascii.eqb c "008" then ["\"; "b"]%char
  else if Ascii.eqb c "009" then ["\"; "t"]%char
  else if Ascii.eqb c "010" then ["\"; "n"]%char
  else if Ascii.eqb c "012" then ["\"; "f"]%char
  else if Ascii.eqb c "013" then ["\"; "r"]%char
  else if code c <? 32
  then ["\"; "u"; "0"; "0"]%char ++ [hex_char (code c / 16); hex_char (code c mod 16)]
  else [c].

Definition quote (s : string) : chars :=
  "034"%char :: (chars_of s ≫= escape) ++ ["034"%char].

Inductive stringify_error := BigIntTypeError.

Definition comma : chars := [","%char].

Definition entry (k : string) (t : chars) : chars := quote k ++ ":"%char :: t.

Definition brackets (l : chars) : chars := "["%char :: l ++ ["]"%char].
Definition braces (l : chars) : chars := "{"%char :: l ++ ["}"%char].

(** [JSON.stringify(v)], [None] standing for [undefined]. *)
Fixpoint stringify (v : val) : result stringify_error (option chars) :=
  match v with
  | Undefined => Ok None
  | Null | Number PosInf | Number NegInf | Number NaN => Ok (Some (chars_of "null"))
  | Bool _ | Number (Num _) | Double _ => Ok (Some (coerce v))
  | BigInt _ => Throw BigIntTypeError
  | Str s => Ok (Some (quote s))
  | Arr l =>
      let fix elements l :=
        match l with
        | [] => Ok []
        | v :: l => t ← stringify v; ts ← elements l; Ok (default (chars_of "null") t :: ts)
        end in
      ts ← elements l; Ok (Some (brackets (join comma ts)))
  | Obj fs =>
      let fix members fs :=
        match fs with
        | [] => Ok []
        | (k, v) :: fs =>
            t ← stringify v; ts ← members fs;
            Ok (match t with Some t => entry k t :: ts | None => ts end)
        end in
      ts ← members fs; Ok (Some (braces (join comma ts)))
  end.

(** ** Parsing *)
Definition is_space (c : ascii) : bool :=
  Ascii.eqb c " " || Ascii.eqb c "009" || Ascii.eqb c "010" || Ascii.eqb c "013".

Fixpoint skip (l : chars) : chars :=
  match l with
  | c :: l' => if is_space c then skip l' else l
  | [] => []
  end.

Definition hex_val (c : ascii) : option Z :=
  if is_digit c then Some (code c - 48)
  else if in_range 97 102 c then Some (code c - 87)
  else if in_range 65 70 c then Some (code c - 55)
  else None.

Definition unescape (c : ascii) : option ascii :=
  if Ascii.eqb c "034" then Some "034"%char
  else if Ascii.eqb c "\" then Some "\"%char
  else if Ascii.eqb c "/" then Some "/"%char
  else if Ascii.eqb c "b" then Some "008"%char
  else if Ascii.eqb c "t" then Some "009"%char
  else if Ascii.eqb c "n" then Some "010"%char
  else if Ascii.eqb c "f" then Some "012"%char
  else if Ascii.eqb c "r" then Some "013"%char
  else None.

(** The code unit of [\uabcd]; [None] also above 255, outside the strings modelled. *)
Definition unicode (a b c d : ascii) : option ascii :=
  match hex_val a, hex_val b, hex_val c, hex_val d with
  | Some 0, Some 0, Some x, Some y => Some (ascii_of_N (Z.to_N (x * 16 + y)))
  | _, _, _, _ => None
  end.

(** The characters of a string up to its closing quote, and the text after it. *)
Fixpoint string_body (l : chars) : option (chars * chars) :=
  match l with
  | [] => None
  | c :: l =>
      if Ascii.eqb c "034" then Some ([], l)
      else if Ascii.eqb c "\" then
        match l with
        | e :: l =>
            if Ascii.eqb e "u" then
              match l with
              | a :: b :: c :: d :: l =>
                  match unicode a b c d, string_body l with
                  | Some x, Some (s, rest) => Some (x :: s, rest)
                  | _, _ => None
                  end
              | _ => None
              end
            else
              match unescape e, string_body l with
              | Some x, Some (s, rest) => Some (x :: s, rest)
              | _, _ => None
              end
        | [] => None
        end
      else if code c <? 32 then None
      else match string_body l with Some (s, rest) => Some (c :: s, rest) | None => None end
  end.

(** The longest prefix of characters that numbers are made of. *)
Definition number_char (c : ascii) : bool :=
  is_digit c || Ascii.eqb c "-" || Ascii.eqb c "+" || Ascii.eqb c "." || Ascii.eqb c "e"
  || Ascii.eqb c "E".

Fixpoint number_prefix (l : chars) : chars * chars :=
  match l with
  | c :: l' => if number_char c then let '(a, b) := number_prefix l' in (c :: a, b) else ([], l)
  | [] => ([], [])
  end.

Definition lower_e (c : ascii) : ascii := if Ascii.eqb c "E" then "e"%char else c.

Definition unsigned_part (t : chars) : chars :=
  match t with c :: t' => if Ascii.eqb c "-" then t' else t | [] => [] end.

(** [-?(0|[1-9]\d* )(\.\d+)?([eE][+-]?\d+)?] *)
Definition number_literal (t : chars) : bool :=
  let '(mantissa, exponent) := split_at "e" (lower_e <$> unsigned_part t) in
  let '(whole, fraction) := split_at "." mantissa in
  is_decimal whole
  && match fraction with None => true | Some f => all_digits f end
  && match exponent with
     | None => true
     | Some [] => false
     | Some (c :: x) =>
         if Ascii.eqb c "+" || Ascii.eqb c "-" then all_digits x else all_digits (c :: x)
     end.

(** The literal of an integer, and its value. *)
Definition integer_literal (t : chars) : option Z :=
  if is_decimal (unsigned_part t) then
    let u := of_digits (unsigned_part t) in
    Some (if bool_decide (unsigned_part t = t) then u else - u)
  else None.

(** The value of a literal with a fraction or an exponent, where it is an integer: [1e3],
    [10.0].  The safe integers are far below the exponents left out. *)
Definition scaled_integer (t : chars) : option Z :=
  let '(mantissa, exponent) := split_at "e" (lower_e <$> unsigned_part t) in
  let '(whole, fraction) := split_at "." mantissa in
  let digits := whole ++ default [] fraction in
  let e :=
    match exponent with
    | Some (c :: x) =>
        if Ascii.eqb c "-" then - of_digits x
        else if Ascii.eqb c "+" then of_digits x else of_digits (c :: x)
    | _ => 0
    end in
  let shift := e - Z.of_nat (length (default [] fraction)) in
  let sign := if bool_decide (unsigned_part t = t) then 1 else -1 in
  let m := of_digits digits in
  if m =? 0 then Some 0
  else if 400 <? Z.abs shift then None
  else if 0 <=? shift then Some (sign * m * 10 ^ shift)
  else if m mod 10 ^ (- shift) =? 0 then Some (sign * (m / 10 ^ (- shift)))
  else None.

(** A safe integer; of any other number the literal itself. *)
Definition number_value (t : chars) : val :=
  let z := match integer_literal t with Some z => Some z | None => scaled_integer t end in
  match z with
  | Some z => if isSafeInteger (Num z) then Number (Num z) else Double t
  | None => Double t
  end.

Fixpoint strip_prefix (p l : chars) : option chars :=
  match p, l with
  | [], _ => Some l
  | a :: p, b :: l => if Ascii.eqb a b then strip_prefix p l else None
  | _, _ => None
  end.

(** A value at the head of the text, and the text after it. Each character of the input
    costs at most two units of fuel. *)
Fixpoint value (fuel : nat) (l : chars) : option (val * chars) :=
  match fuel with
  | O => None
  | S fuel =>
      match skip l with
      | [] => None
      | c :: l =>
          if Ascii.eqb c "034" then
            match string_body l with Some (s, l) => Some (Str (string_of s), l) | None => None end
          else if Ascii.eqb c "[" then
            match skip l with
            | d :: l' =>
                if Ascii.eqb d "]" then Some (Arr [], l')
                else match elements fuel l with Some (vs, l) => Some (Arr vs, l) | None => None end
            | [] => None
            end
          else if Ascii.eqb c "{" then
            match skip l with
            | d :: l' =>
                if Ascii.eqb d "}" then Some (Obj [], l')
                else
                  match members fuel l with
                  | Some (fs, l) => Some (Obj (from_entries fs), l)
                  | None => None
                  end
            | [] => None
            end
          else if number_char c then
            let '(t, rest) := number_prefix (c :: l) in
            if number_literal t then Some (number_value t, rest) else None
          else
            match strip_prefix (chars_of "null") (c :: l), strip_prefix (chars_of "true") (c :: l),
                  strip_prefix (chars_of "false") (c :: l) with
            | Some l, _, _ => Some (Null, l)
            | _, Some l, _ => Some (Bool true, l)
            | _, _, Some l => Some (Bool false, l)
            | _, _, _ => None
            end
      end
  end

(** The elements of a non-empty array up to its closing bracket. *)
with elements (fuel : nat) (l : chars) : option (list val * chars) :=
  match fuel with
  | O => None
  | S fuel =>
      match value fuel l with
      | None => None
      | Some (v, l) =>
          match skip l with
          | c :: l =>
              if Ascii.eqb c "]" then Some ([v], l)
              else if Ascii.eqb c "," then
                match elements fuel l with Some (vs, l) => Some (v :: vs, l) | None => None end
              else None
          | [] => None
          end
      end
  end

(** The members of a non-empty object up to its closing brace. *)
with members (fuel : nat) (l : chars) : option (list (string * val) * chars) :=
  match fuel with
  | O => None
  | S fuel =>
      match skip l with
      | q :: l =>
          if negb (Ascii.eqb q "034") then None
          else
            match string_body l with
            | None => None
            | Some (k, l) =>
                match skip l with
                | c :: l =>
                    if negb (Ascii.eqb c ":") then None
                    else
                      match value fuel l with
                      | None => None
                      | Some (v, l) =>
                          match skip l with
                          | c :: l =>
                              if Ascii.eqb c "}" then Some ([(string_of k, v)], l)
                              else if Ascii.eqb c "," then
                                match members fuel l with
                                | Some (fs, l) => Some ((string_of k, v) :: fs, l)
                                | None => None
                                end
                              else None
                          | [] => None
                          end
                      end
                | [] => None
                end
            end
      | [] => None
      end
  end.

Inductive parse_error := SyntaxError.

(** [JSON.parse(text)] *)
Definition parse (l : chars) : result parse_error val :=
  match value (2 * length l + 1) l with
  | Some (v, rest) => match skip rest with [] => Ok v | _ => Throw SyntaxError end
  | None => Throw SyntaxError
  end.

End JSON.

(** ** Round trip *)
Section JsonLemmas.
Import JSON.

(** The text of a value that JSON can carry. *)
Fixpoint print (v : val) : chars :=
  match v with
  | Str s => quote s
  | Arr l => brackets (join comma (print <$> l))
  | Obj fs => braces (join comma ((fun f => entry f.1 (print f.2)) <$> fs))
  | _ => coerce v
  end.

(** The values JSON can carry: no [undefined], [bigint] or non-finite number, numbers in
    the form [JSON.parse] gives them, and properties in the order of [Object.keys]. *)
Inductive wire : val -> Prop :=
| wire_null : wire Null
| wire_bool b : wire (Bool b)
| wire_num z : isSafeInteger (Num z) = true -> wire (Number (Num z))
| wire_double t :
    number_literal t = true -> forallb number_char t = true -> number_value t = Double t ->
    wire (Double t)
| wire_str s : wire (Str s)
| wire_arr l : Forall wire l -> wire (Arr l)
| wire_obj fs : from_entries fs = fs -> Forall (fun f => wire f.2) fs -> wire (Obj fs).

Lemma Forall_mp {A} (P Q : A -> Prop) l : Forall (fun x => P x -> Q x) l -> Forall P l -> Forall Q l.
Proof. rewrite !Forall_forall. eauto. Qed.

Lemma stringify_wire v : wire v -> stringify v = Ok (Some (print v)).
Proof.
  induction v as [| |b|n|t|z|s|l IH|fs IH] using val_tree_ind; inversion 1; subst; try done.
  - apply (Forall_mp wire (fun v => stringify v = Ok (Some (print v)))) in IH; [|done]. cbn.
    replace (_ l) with (Ok (E := stringify_error) (print <$> l)); [done|].
    clear -IH. induction IH as [|v l Hv _ IHl]; [done|]. cbn. rewrite Hv. cbn.
    by rewrite <- IHl.
  - apply (Forall_mp (fun f => wire f.2) (fun f => stringify f.2 = Ok (Some (print f.2)))) in IH;
      [|done]. cbn.
    set (ts := (fun f => entry f.1 (print f.2)) <$> fs).
    replace (_ fs) with (Ok (E := stringify_error) ts); [done|]. unfold ts.
    clear -IH. induction IH as [|[k v] l Hv _ IHl]; [done|]. cbn in *. rewrite Hv. cbn.
    by rewrite <- IHl.
Qed.

(** Decide the comparisons of literal characters. *)
Ltac literal_chars :=
  repeat match goal with
    | |- context [Ascii.eqb ?a ?b] =>
        let r := eval vm_compute in (Ascii.eqb a b) in
        match r with true => idtac | false => idtac end; change (Ascii.eqb a b) with r
    | |- context [is_space ?a] =>
        let r := eval vm_compute in (is_space a) in
        match r with true => idtac | false => idtac end; change (is_space a) with r
    end; cbn [negb]; cbn iota.

(** *** Strings *)
Lemma string_body_escape c l :
  string_body (escape c ++ l)
  = match string_body l with Some (s, rest) => Some (c :: s, rest) | None => None end.
Proof. destruct c as [[] [] [] [] [] [] [] []]; reflexivity. Qed.

Lemma string_body_quoted l rest :
  string_body ((l ≫= escape) ++ "034"%char :: rest) = Some (l, rest).
Proof.
  induction l as [|c l IH]; [done|]. cbn [mbind list_bind].
  by rewrite <- app_assoc, string_body_escape, IH.
Qed.

(** *** Numbers *)
Definition stops (rest : chars) : Prop :=
  match rest with c :: _ => number_char c = false | [] => True end.

Lemma number_prefix_app t rest :
  forallb number_char t = true -> stops rest -> number_prefix (t ++ rest) = (t, rest).
Proof.
  intros Ht Hs. induction t as [|c t IH]; cbn in *.
  - destruct rest as [|c rest]; [done|]. cbn in *. by rewrite Hs.
  - apply andb_prop in Ht as [-> Ht]. by rewrite IH.
Qed.

Lemma digits_number_chars l :
  Forall (fun c => is_digit c = true) l -> forallb number_char l = true.
Proof.
  induction 1 as [|c l Hc _ IH]; [done|]. cbn. rewrite IH. unfold number_char. by rewrite Hc.
Qed.

Lemma lower_e_digits l : Forall (fun c => is_digit c = true) l -> lower_e <$> l = l.
Proof.
  induction 1 as [|c l Hc _ IH]; [done|]. cbn. rewrite IH. f_equal. unfold lower_e.
  by destruct (Ascii.eqb_spec c "E") as [->|].
Qed.

Lemma digits_avoid c l :
  is_digit c = false -> Forall (fun c => is_digit c = true) l -> Forall (fun x => x <> c) l.
Proof. intros Hc HF. eapply Forall_impl; [exact HF|]. cbn. intros x Hx ->. congruence. Qed.

Lemma digit_not_minus l : Forall (fun c => is_digit c = true) l -> unsigned_part l = l.
Proof.
  destruct 1 as [|c l Hc _]; [done|]. cbn. by destruct (Ascii.eqb_spec c "-") as [->|].
Qed.

Lemma unsigned_part_BigInt z : unsigned_part (BigInt_toString z) = to_digits (Z.abs z).
Proof.
  unfold BigInt_toString. destruct (Z.ltb_spec z 0).
  - cbn [unsigned_part Ascii.eqb Bool.eqb]. f_equal. lia.
  - rewrite Z.abs_eq by done. by apply digit_not_minus, to_digits_digits.
Qed.

Lemma BigInt_number_literal z : number_literal (BigInt_toString z) = true.
Proof.
  unfold number_literal. rewrite unsigned_part_BigInt.
  pose proof (to_digits_digits (Z.abs z) ltac:(lia)) as HF.
  rewrite lower_e_digits by done. rewrite split_at_none by (by apply digits_avoid).
  rewrite split_at_none by (by apply digits_avoid). rewrite is_decimal_to_digits by lia. done.
Qed.

Lemma BigInt_number_chars z : forallb number_char (BigInt_toString z) = true.
Proof.
  unfold BigInt_toString. case_match; cbn;
    apply digits_number_chars, to_digits_digits; zbool; lia.
Qed.

Lemma integer_literal_BigInt z : integer_literal (BigInt_toString z) = Some z.
Proof.
  unfold integer_literal. rewrite unsigned_part_BigInt, is_decimal_to_digits by lia.
  rewrite of_to_digits by lia. unfold BigInt_toString.
  destruct (Z.ltb_spec z 0).
  - rewrite bool_decide_eq_false_2; [f_equal; lia|]. intros E.
    pose proof (to_digits_digits (Z.abs z) ltac:(lia)) as HF. rewrite E in HF.
    apply Forall_cons in HF as [HF _]. done.
  - rewrite bool_decide_eq_true_2; [f_equal; lia|]. by rewrite Z.abs_eq.
Qed.

Lemma number_value_BigInt z :
  isSafeInteger (Num z) = true -> number_value (BigInt_toString z) = Number (Num z).
Proof. intros H. unfold number_value. by rewrite integer_literal_BigInt, H. Qed.

(** A value at the head of a text that starts with a number. *)
Lemma value_number n t rest :
  number_literal t = true -> forallb number_char t = true -> stops rest -> (0 < n)%nat ->
  value n (t ++ rest) = Some (number_value t, rest).
Proof.
  intros Hlit Hch Hs Hn. destruct n as [|n]; [lia|]. destruct t as [|c t]; [done|].
  pose proof Hch as Hc. cbn in Hc. apply andb_prop in Hc as [Hc _].
  assert (is_space c = false /\ Ascii.eqb c "034" = false /\ Ascii.eqb c "[" = false
          /\ Ascii.eqb c "{" = false) as (H1 & H2 & H3 & H4).
  { by destruct c as [[] [] [] [] [] [] [] []]. }
  change ((c :: t) ++ rest) with (c :: (t ++ rest)) at 1. cbn [value skip].
  rewrite H1, H2, H3, H4, Hc. change (c :: t ++ rest) with ((c :: t) ++ rest).
  rewrite number_prefix_app, Hlit by done. done.
Qed.

(** *** Arrays and objects *)
Definition reads (v : val) : Prop :=
  forall n rest, stops rest -> (2 * length (print v) <= n)%nat ->
  value n (print v ++ rest) = Some (v, rest).

Lemma print_head v :
  wire v -> exists c t, print v = c :: t /\ is_space c = false /\ Ascii.eqb c "]" = false.
Proof.
  inversion 1 as [|[]|z Hz|t Hl Hc _|s|l HF|fs Ho HF]; subst; try (by repeat eexists).
  - cbn. pose proof (BigInt_number_chars z) as Hc. pose proof (BigInt_number_literal z) as Hl.
    destruct (BigInt_toString z) as [|c t]; [done|]. exists c, t. split; [done|].
    cbn in Hc. apply andb_prop in Hc as [Hc _]. by destruct c as [[] [] [] [] [] [] [] []].
  - cbn. destruct t as [|c t]; [done|]. exists c, t. split; [done|].
    cbn in Hc. apply andb_prop in Hc as [Hc _]. by destruct c as [[] [] [] [] [] [] [] []].
Qed.

Lemma skip_head c l : is_space c = false -> skip (c :: l) = c :: l.
Proof. intros H. cbn. by rewrite H. Qed.

Lemma join_cons sep p ps : join sep (p :: ps) = p ++ match ps with [] => [] | _ => sep ++ join sep ps end.
Proof. destruct ps; cbn; [by rewrite app_nil_r|done]. Qed.

Lemma elements_print l n rest :
  Forall reads l -> l <> [] -> (2 * length (join comma (print <$> l)) + 1 <= n)%nat ->
  elements n (join comma (print <$> l) ++ "]"%char :: rest) = Some (l, rest).
Proof.
  intros HF. revert n. induction HF as [|v l Hv HF IH]; intros n Hne Hn; [done|].
  destruct n as [|n]; [lia|]. cbn [fmap list_fmap] in *. rewrite join_cons in *.
  rewrite length_app in Hn. cbn [elements]. destruct l as [|w l].
  - cbn [fmap list_fmap] in *. rewrite app_nil_r, Hv by (done || cbn in Hn; lia). done.
  - cbn [fmap list_fmap] in *. rewrite <- app_assoc.
    rewrite length_app in Hn. cbn [length comma] in Hn.
    rewrite Hv by (done || lia). cbn [app comma skip]. literal_chars.
    rewrite IH by (done || lia). done.
Qed.

Lemma value_quote n s rest :
  (0 < n)%nat -> value n (quote s ++ rest) = Some (Str s, rest).
Proof.
  intros Hn. destruct n as [|n]; [lia|]. unfold quote. cbn [app value skip].
  literal_chars.
  rewrite <- app_assoc. cbn [app]. by rewrite string_body_quoted, string_of_chars_of.
Qed.

Lemma members_print fs n rest :
  Forall (fun f => reads f.2) fs -> fs <> [] ->
  (2 * length (join comma ((fun f => entry f.1 (print f.2)) <$> fs)) + 1 <= n)%nat ->
  members n (join comma ((fun f => entry f.1 (print f.2)) <$> fs) ++ "}"%char :: rest)
  = Some (fs, rest).
Proof.
  intros HF. revert n. induction HF as [|[k v] l Hv HF IH]; intros n Hne Hn; [done|].
  destruct n as [|n]; [lia|]. cbn [fmap list_fmap fst snd] in *. rewrite join_cons in *.
  rewrite length_app in Hn. unfold entry in *. unfold quote in *.
  cbn [members app skip]. literal_chars.
    
  literal_chars.
  rewrite <- !app_assoc. cbn [app]. rewrite string_body_quoted, skip_head by done.
  literal_chars.
  rewrite string_of_chars_of. cbn [length] in Hn. rewrite !length_app in Hn.
  cbn [length] in Hn. destruct l as [|w l].
  - cbn [fmap list_fmap app]. rewrite Hv by (done || lia). done.
  - cbn [fmap list_fmap] in *. rewrite !length_app in Hn. cbn [length comma] in Hn.
    rewrite <- app_assoc, Hv by (done || lia). cbn [app comma skip].
    literal_chars.
    rewrite IH by (done || lia). done.
Qed.

Lemma print_reads v : wire v -> reads v.
Proof.
  induction v as [| |b|m|t|z|s|l IH|fs IH] using val_tree_ind; intros Hw n rest Hs Hn;
    inversion Hw; subst.
  - destruct n; [cbn in Hn; lia|done].
  - destruct n; [destruct b; cbn in Hn; lia|by destruct b].
  - cbn [print coerce num_chars] in *. rewrite value_number.
    + by rewrite number_value_BigInt.
    + apply BigInt_number_literal.
    + apply BigInt_number_chars.
    + done.
    + destruct (print_head (Number (Num z))) as (c & t & E & _); [done|]. cbn in E.
      rewrite E in Hn. cbn in Hn. lia.
  - cbn [print coerce] in *. rewrite value_number; [congruence|done..|].
    destruct (print_head (Double t)) as (c & t' & E & _); [done|]. cbn in E.
    rewrite E in Hn. cbn in Hn. lia.
  - cbn [print]. apply value_quote. unfold print, quote in Hn. cbn in Hn. lia.
  - assert (Forall reads l) as HF by (by apply (Forall_mp wire reads)).
    cbn [print] in *. unfold brackets in *. cbn [length] in Hn. rewrite length_app in Hn.
    cbn [length] in Hn. destruct n as [|n]; [lia|]. cbn [app value].
    rewrite skip_head by done. literal_chars.
     rewrite <- app_assoc. cbn [app].
    destruct l as [|w l]; [done|].
    match goal with H : Forall wire (w :: l) |- _ => apply Forall_cons in H as [Hw' _] end.
    destruct (print_head w Hw') as (c & t & E & Hc & Hb).
    assert (exists t', join comma (print <$> w :: l) = c :: t') as [t' E'].
    { cbn [fmap list_fmap]. rewrite join_cons, E. cbn. eauto. }
    pose proof (elements_print (w :: l) n rest HF ltac:(done) ltac:(lia)) as He.
    rewrite E' in *. cbn [app] in *. by rewrite skip_head, Hb, He.
  - assert (Forall (fun f => reads f.2) fs) as HF
      by (by apply (Forall_mp (fun f => wire f.2) (fun f => reads f.2))).
    cbn [print] in *. unfold braces in *. cbn [length] in Hn. rewrite length_app in Hn.
    cbn [length] in Hn. destruct n as [|n]; [lia|]. cbn [app value].
    rewrite skip_head by done. literal_chars.
     rewrite <- app_assoc. cbn [app].
    destruct fs as [|[k w] fs]; [done|].
    pose proof (members_print ((k, w) :: fs) n rest HF ltac:(done) ltac:(lia)) as He.
    assert (exists t', join comma ((fun f => entry f.1 (print f.2)) <$> (k, w) :: fs)
                       = "034"%char :: t') as [t' E'].
    { cbn [fmap list_fmap fst]. rewrite join_cons. unfold entry, quote. cbn. eauto. }
    rewrite E' in *. cbn [app] in *. rewrite skip_head by done.
    literal_chars.
     rewrite He. congruence.
Qed.

(** [JSON.parse] reads back what [JSON.stringify] wrote: every value that JSON can carry
    is printed without error, the fuel of the parser is enough for the printed text, and
    parsing it gives the value again. *)
Lemma parse_print v : wire v -> parse (print v) = Ok v.
Proof.
  intros Hv. unfold parse. rewrite <- (app_nil_r (print v)) at 2.
  by rewrite (print_reads v Hv) by (done || lia).
Qed.

Lemma parse_stringify v : wire v -> exists t, stringify v = Ok (Some t) /\ parse t = Ok v.
Proof. intros Hv. exists (print v). split; [by apply stringify_wire|by apply parse_print]. Qed.

(** *** The fuel is enough

    On any text, two amounts of fuel above twice its length give the same result. *)
Lemma skip_length l : (length (skip l) <= length l)%nat.
Proof. induction l as [|c l IH]; [done|]. cbn. destruct (is_space c); cbn; lia. Qed.

Lemma string_body_length l s rest :
  string_body l = Some (s, rest) -> (length rest < length l)%nat.
Proof.
  revert s rest. induction l as [l IH] using (induction_ltof1 _ (@length ascii)).
  unfold ltof in IH. destruct l as [|c l]; [done|]. intros s rest. cbn [string_body length].
  assert (forall l' s' rest', (length l' <= length l)%nat -> string_body l' = Some (s', rest') ->
            (length rest' < S (length l))%nat) as IH'.
  { intros l' s' rest' Hl H. apply IH in H; [lia|cbn; lia]. }
  repeat case_match; intros; simplify_eq; try (eapply IH'; [|eassumption]; cbn in *; lia); try (cbn in *; lia).
Qed.

Lemma number_prefix_length l t rest :
  number_prefix l = (t, rest) -> (length t + length rest = length l)%nat.
Proof.
  revert t rest. induction l as [|c l IH]; cbn; intros t rest; [by intros [= <- <-]|].
  destruct (number_char c); [|by intros [= <- <-]].
  destruct (number_prefix l) as [a b]. intros [= <- <-]. cbn. rewrite (IH a b); done.
Qed.

Lemma strip_prefix_length p l rest :
  strip_prefix p l = Some rest -> (length rest + length p = length l)%nat.
Proof.
  revert l. induction p as [|a p IH]; intros l; cbn.
  - intros [= ->]. lia.
  - destruct l as [|b l]; [done|]. destruct (Ascii.eqb a b); [|done].
    intros H. apply IH in H. cbn. lia.
Qed.

Definition settled {A} (f : nat -> chars -> option (A * chars)) (slack : nat) (l : chars) : Prop :=
  (forall n m, (2 * length l + slack <= n)%nat -> (2 * length l + slack <= m)%nat -> f n l = f m l)
  /\ forall n v rest, f n l = Some (v, rest) -> (length rest < length l)%nat.

Section Settled.
Context (l : chars).
Context (IH' : forall l', (length l' < length l)%nat ->
  settled value 1 l' /\ settled elements 2 l' /\ settled members 2 l').

Lemma value_settled : settled value 1 l.
Proof.
  split.
  - intros n m Hn Hm. destruct n as [|n]; [lia|]. destruct m as [|m]; [lia|].
    pose proof (skip_length l) as Hs. cbn [value]. destruct (skip l) as [|c l1]; [done|].
    cbn in Hs. pose proof (skip_length l1) as Hs1.
    destruct (IH' l1 ltac:(lia)) as (_ & [He _] & [Hm' _]).
    rewrite (He n m), (Hm' n m) by lia. done.
  - intros n v rest. destruct n as [|n]; [done|]. 
    pose proof (skip_length l) as Hs. cbn [value]. destruct (skip l) as [|c l1]; [done|].
    cbn in Hs. pose proof (skip_length l1) as Hs1.
    destruct (IH' l1 ltac:(lia)) as (_ & [_ He] & [_ Hm']).
    destruct (Ascii.eqb c "034").
    { destruct (string_body l1) as [[s l2]|] eqn:E; [|done]. intros [= <- <-].
      apply string_body_length in E. lia. }
    destruct (Ascii.eqb c "[").
    { destruct (skip l1) as [|d l2]; [done|]. destruct (Ascii.eqb d "]").
      - intros [= <- <-]. cbn in *. lia.
      - destruct (elements n l1) as [[vs l3]|] eqn:E; [|done]. intros [= <- <-].
        apply He in E. lia. }
    destruct (Ascii.eqb c "{").
    { destruct (skip l1) as [|d l2]; [done|]. destruct (Ascii.eqb d "}").
      - intros [= <- <-]. cbn in *. lia.
      - destruct (members n l1) as [[vs l3]|] eqn:E; [|done]. intros [= <- <-].
        apply Hm' in E. lia. }
    destruct (number_char c) eqn:Ec.
    { destruct (number_prefix (c :: l1)) as [t r] eqn:E. pose proof E as E2.
      apply number_prefix_length in E. destruct (number_literal t); [|done].
      intros [= <- <-]. cbn in E2. rewrite Ec in E2. destruct (number_prefix l1).
      injection E2 as <- <-. cbn in E. lia. }
    repeat case_match; intros; simplify_eq;
      match goal with H : strip_prefix _ _ = Some _ |- _ => apply strip_prefix_length in H end;
      cbn in *; lia.
Qed.

Lemma elements_settled : settled elements 2 l.
Proof.
  destruct value_settled as [HV1 HV2]. split.
  + intros n m Hn Hm. destruct n as [|n]; [lia|]. destruct m as [|m]; [lia|]. cbn [elements].
    rewrite (HV1 n m) by lia. destruct (value m l) as [[v l1]|] eqn:E; [|done].
    apply HV2 in E. pose proof (skip_length l1). destruct (skip l1) as [|c l2]; [done|].
    cbn in *. destruct (IH' l2 ltac:(lia)) as (_ & [He _] & _). by rewrite (He n m) by lia.
  + intros n v rest. destruct n as [|n]; [done|]. cbn [elements].
    destruct (value n l) as [[w l1]|] eqn:E; [|done].
    apply HV2 in E. pose proof (skip_length l1). destruct (skip l1) as [|c l2]; [done|].
    cbn in *. destruct (IH' l2 ltac:(lia)) as (_ & [_ He] & _).
    destruct (Ascii.eqb c "]"); [intros [= <- <-]; lia|].
    destruct (Ascii.eqb c ","); [|done].
    destruct (elements n l2) as [[vs l3]|] eqn:E2; [|done]. intros [= <- <-].
    apply He in E2. lia.
Qed.

Lemma members_settled : settled members 2 l.
Proof.
  split.
  + intros n m Hn Hm. destruct n as [|n]; [lia|]. destruct m as [|m]; [lia|]. cbn [members].
    pose proof (skip_length l). destruct (skip l) as [|q l1]; [done|]. cbn in *.
    destruct (Ascii.eqb q "034"); [|done]. cbn [negb].
    destruct (string_body l1) as [[k l2]|] eqn:Es; [|done]. apply string_body_length in Es.
    pose proof (skip_length l2). destruct (skip l2) as [|c l3]; [done|]. cbn in *.
    destruct (Ascii.eqb c ":"); [|done]. cbn [negb].
    destruct (IH' l3 ltac:(lia)) as ([Hv1 Hv2] & _). rewrite (Hv1 n m) by lia.
    destruct (value m l3) as [[v l4]|] eqn:E; [|done]. apply Hv2 in E.
    pose proof (skip_length l4). destruct (skip l4) as [|d l5]; [done|]. cbn in *.
    destruct (IH' l5 ltac:(lia)) as (_ & _ & [Hm' _]). by rewrite (Hm' n m) by lia.
  + intros n v rest. destruct n as [|n]; [done|]. cbn [members].
    pose proof (skip_length l). destruct (skip l) as [|q l1]; [done|]. cbn in *.
    destruct (Ascii.eqb q "034"); [|done]. cbn [negb].
    destruct (string_body l1) as [[k l2]|] eqn:Es; [|done]. apply string_body_length in Es.
    pose proof (skip_length l2). destruct (skip l2) as [|c l3]; [done|]. cbn in *.
    destruct (Ascii.eqb c ":"); [|done]. cbn [negb].
    destruct (IH' l3 ltac:(lia)) as ([Hv1 Hv2] & _).
    destruct (value n l3) as [[w l4]|] eqn:E; [|done]. apply Hv2 in E.
    pose proof (skip_length l4). destruct (skip l4) as [|d l5]; [done|]. cbn in *.
    destruct (IH' l5 ltac:(lia)) as (_ & _ & [_ Hm']).
    destruct (Ascii.eqb d "}"); [intros [= <- <-]; lia|].
    destruct (Ascii.eqb d ","); [|done].
    destruct (members n l5) as [[fs l6]|] eqn:E2; [|done]. intros [= <- <-].
    apply Hm' in E2. lia.
Qed.
End Settled.

Lemma parser_settled l : settled value 1 l /\ settled elements 2 l /\ settled members 2 l.
Proof.
  induction l as [l IH] using (induction_ltof1 _ (@length ascii)). unfold ltof in IH.
  split_and!; [by apply value_settled|by apply elements_settled|by apply members_settled].
Qed.

(** [parse] never fails for lack of fuel: more fuel does not change its result. *)
Lemma parse_fuel l n :
  (2 * length l + 1 <= n)%nat ->
  parse l = match value n l with
            | Some (v, rest) => match skip rest with [] => Ok v | _ => Throw SyntaxError end
            | None => Throw SyntaxError
            end.
Proof.
  intros Hn. destruct (parser_settled l) as ([H _] & _).
  unfold parse. by rewrite (H (2 * length l + 1)%nat n) by lia.
Qed.

(** *** What the parser builds is a value JSON can carry *)
Lemma number_prefix_chars l t rest : number_prefix l = (t, rest) -> forallb number_char t = true.
Proof.
  revert t rest. induction l as [|c l IH]; cbn; intros t rest; [by intros [= <- <-]|].
  destruct (number_char c) eqn:Hc; [|by intros [= <- <-]].
  destruct (number_prefix l) as [a b]. intros [= <- <-]. cbn. by rewrite Hc, (IH a b).
Qed.

Lemma number_value_wire t :
  number_literal t = true -> forallb number_char t = true -> wire (number_value t).
Proof.
  intros Hl Hc. assert (number_value t = Double t \/ exists z, number_value t = Number (Num z)
    /\ isSafeInteger (Num z) = true) as [E|(z & E & Hz)].
  { unfold number_value. destruct (match integer_literal t with Some z => Some z | None => _ end) as [z|]; [|by left].
    destruct (isSafeInteger (Num z)) eqn:Es; [right; eauto|by left]. }
  - rewrite E. by constructor.
  - rewrite E. by constructor.
Qed.

Lemma parser_wire n :
  (forall l v rest, value n l = Some (v, rest) -> wire v)
  /\ (forall l vs rest, elements n l = Some (vs, rest) -> Forall wire vs)
  /\ (forall l fs rest, members n l = Some (fs, rest) -> Forall (fun f => wire f.2) fs).
Proof.
  induction n as [|n (IHv & IHe & IHm)]; [done|]. split_and!; intros l v rest; cbn [value elements members].
  - destruct (skip l) as [|c l1]; [done|].
    destruct (Ascii.eqb c "034").
    { destruct (string_body l1) as [[s l2]|]; [|done]. intros [= <- <-]. constructor. }
    destruct (Ascii.eqb c "[").
    { destruct (skip l1) as [|d l2]; [done|]. destruct (Ascii.eqb d "]").
      - intros [= <- <-]. by constructor.
      - destruct (elements n l1) as [[vs l3]|] eqn:E; [|done]. intros [= <- <-].
        constructor. by eapply IHe. }
    destruct (Ascii.eqb c "{").
    { destruct (skip l1) as [|d l2]; [done|]. destruct (Ascii.eqb d "}").
      - intros [= <- <-]. by constructor.
      - destruct (members n l1) as [[fs l3]|] eqn:E; [|done]. intros [= <- <-].
        constructor; [apply from_entries_idemp|]. by eapply from_entries_Forall, IHm. }
    destruct (number_char c).
    { destruct (number_prefix (c :: l1)) as [t r] eqn:E. destruct (number_literal t) eqn:Hl; [|done].
      intros [= <- <-]. apply number_value_wire; [done|]. by eapply number_prefix_chars. }
    repeat case_match; intros; simplify_eq; constructor.
  - destruct (value n l) as [[w l1]|] eqn:E; [|done]. apply IHv in E.
    destruct (skip l1) as [|c l2]; [done|].
    destruct (Ascii.eqb c "]"); [intros [= <- <-]; by repeat constructor|].
    destruct (Ascii.eqb c ","); [|done].
    destruct (elements n l2) as [[vs l3]|] eqn:E2; [|done]. intros [= <- <-].
    constructor; [done|]. by eapply IHe.
  - destruct (skip l) as [|q l1]; [done|]. destruct (Ascii.eqb q "034"); [|done]. cbn [negb].
    destruct (string_body l1) as [[k l2]|]; [|done]. destruct (skip l2) as [|c l3]; [done|].
    destruct (Ascii.eqb c ":"); [|done]. cbn [negb].
    destruct (value n l3) as [[w l4]|] eqn:E; [|done]. apply IHv in E.
    destruct (skip l4) as [|d l5]; [done|].
    destruct (Ascii.eqb d "}"); [intros [= <- <-]; by repeat constructor|].
    destruct (Ascii.eqb d ","); [|done].
    destruct (members n l5) as [[fs l6]|] eqn:E2; [|done]. intros [= <- <-].
    constructor; [done|]. by eapply IHm.
Qed.

Lemma parse_wire l v : parse l = Ok v -> wire v.
Proof.
  unfold parse. destruct (value _ l) as [[w rest]|] eqn:E; [|done].
  destruct (skip rest); [|done]. intros [= <-]. by eapply parser_wire.
Qed.
End JsonLemmas.
