(* ===== verification/Hex.v ===== *)
(** * Bytes, hexadecimal and big-endian integers

    [Buffer.from(text, 'hex')], [toString('hex')], [BigInt] of a hexadecimal text and the
    slices of a buffer, with their inverses.  A byte is a character. *)
From S2P Require Export Json.

Module Hex.

Definition prefix : chars := ["0"; "x"]%char.

(** [v.slice(2)] after [v.startsWith('0x')] *)
Definition after_0x (l : chars) : option chars :=
  match l with
  | a :: b :: l => if Ascii.eqb a "0" && Ascii.eqb b "x" then Some l else None
  | _ => None
  end.

(** ** Digits *)
Definition is_hex_digit (c : ascii) : bool := is_lower_hex (lower c).
Definition hex_digit (c : ascii) : Z :=
  if is_digit (lower c) then digit_val (lower c) else code (lower c) - 87.
Definition byte (z : Z) : ascii := ascii_of_N (Z.to_N z).

(** [Buffer.from(l, 'hex')] on hexadecimal digits *)
Fixpoint from_hex (l : chars) : chars :=
  match l with
  | a :: b :: l => byte (hex_digit a * 16 + hex_digit b) :: from_hex l
  | _ => []
  end.

(** [bytes.toString('hex')] *)
Fixpoint to_hex (bytes : chars) : chars :=
  match bytes with
  | [] => []
  | b :: bytes => JSON.hex_char (code b / 16) :: JSON.hex_char (code b mod 16) :: to_hex bytes
  end.

(** [BigInt('0x' + bytes.toString('hex'))] *)
Definition be_value (bytes : chars) : Z := foldl (fun acc b => acc * 256 + code b) 0 bytes.

(** [bytes.subarray(off, off + n)] *)
Definition slice (off n : nat) (bytes : chars) : chars := take n (drop off bytes).

(** The big-endian encoding on [n] bytes. *)
Fixpoint be_bytes (n : nat) (z : Z) : chars :=
  match n with
  | O => []
  | S n => be_bytes n (z / 256) ++ [byte (z mod 256)]
  end.

(** ** Lemmas *)
Lemma after_0x_Some t l : after_0x t = Some l <-> t = prefix ++ l.
Proof.
  split; [|by intros ->]. destruct t as [|a [|b t]]; try done. cbn.
  destruct (Ascii.eqb_spec a "0") as [->|]; [|done].
  destruct (Ascii.eqb_spec b "x") as [->|]; [|done]. by intros [= ->].
Qed.

Lemma code_range c : 0 <= code c < 256.
Proof. unfold code. pose proof (N_ascii_bounded c). lia. Qed.

Lemma code_byte z : 0 <= z < 256 -> code (byte z) = z.
Proof. intros. unfold code, byte. rewrite N_ascii_embedding by lia. lia. Qed.

Lemma byte_code c : byte (code c) = c.
Proof. apply code_inj, code_byte, code_range. Qed.

Lemma hex_char_digit d :
  0 <= d < 16 -> is_lower_hex (JSON.hex_char d) = true /\ lower (JSON.hex_char d) = JSON.hex_char d
    /\ hex_digit (JSON.hex_char d) = d.
Proof.
  intros Hd. assert (d ∈ seqZ 0 16) as Hin by (apply elem_of_seqZ; lia).
  clear Hd. revert d Hin. apply Forall_forall. apply (bool_decide_unpack _). vm_compute. exact I.
Qed.

Lemma hex_digit_range c : is_hex_digit c = true -> 0 <= hex_digit c < 16.
Proof. destruct c as [[] [] [] [] [] [] [] []]; cbn; intros; try discriminate; vm_compute; split; congruence. Qed.

Lemma hex_char_hex_digit c : is_hex_digit c = true -> JSON.hex_char (hex_digit c) = lower c.
Proof. destruct c as [[] [] [] [] [] [] [] []]; intros H; first [discriminate H|reflexivity]. Qed.

Lemma from_to_hex bytes : from_hex (to_hex bytes) = bytes.
Proof.
  induction bytes as [|b bytes IH]; [done|]. cbn. rewrite IH. f_equal.
  pose proof (code_range b).
  destruct (hex_char_digit (code b / 16)) as (_ & _ & ->).
  { split; [apply Z.div_pos; lia|apply Z.div_lt_upper_bound; lia]. }
  destruct (hex_char_digit (code b mod 16)) as (_ & _ & ->); [apply Z.mod_pos_bound; lia|].
  rewrite <- (byte_code b) at 3. f_equal. pose proof (Z.div_mod (code b) 16). lia.
Qed.

Lemma to_hex_digits bytes : forallb is_lower_hex (to_hex bytes) = true.
Proof.
  induction bytes as [|b bytes IH]; [done|]. cbn. pose proof (code_range b).
  destruct (hex_char_digit (code b / 16)) as (-> & _).
  { split; [apply Z.div_pos; lia|apply Z.div_lt_upper_bound; lia]. }
  by destruct (hex_char_digit (code b mod 16)) as (-> & _); [apply Z.mod_pos_bound; lia|].
Qed.

Lemma to_hex_lower bytes : toLowerCase (to_hex bytes) = to_hex bytes.
Proof.
  induction bytes as [|b bytes IH]; [done|]. cbn. pose proof (code_range b). unfold toLowerCase in IH. rewrite IH.
  destruct (hex_char_digit (code b / 16)) as (_ & -> & _).
  { split; [apply Z.div_pos; lia|apply Z.div_lt_upper_bound; lia]. }
  by destruct (hex_char_digit (code b mod 16)) as (_ & -> & _); [apply Z.mod_pos_bound; lia|].
Qed.

Lemma to_hex_length bytes : length (to_hex bytes) = (2 * length bytes)%nat.
Proof. induction bytes; cbn; lia. Qed.

Lemma pairs_ind (P : chars -> Prop) :
  P [] -> (forall a b l, P l -> P (a :: b :: l)) -> forall l, Nat.even (length l) = true -> P l.
Proof.
  intros H0 H2. fix go 1. intros [|a [|b l]]; [done|done|]. intros H. apply H2, go, H.
Qed.

Lemma to_from_hex l :
  Nat.even (length l) = true -> forallb is_hex_digit l = true -> to_hex (from_hex l) = toLowerCase l.
Proof.
  intros He. pattern l. revert l He. apply pairs_ind; [done|]. intros a b l IH H. cbn in *.
  apply andb_prop in H as [Ha H]. apply andb_prop in H as [Hb H].
  pose proof (hex_digit_range a Ha). pose proof (hex_digit_range b Hb).
  rewrite code_byte by lia. rewrite IH by done. unfold toLowerCase. cbn. f_equal; [|f_equal].
  - rewrite <- hex_char_hex_digit by done. f_equal. rewrite Z.div_add_l by lia.
    rewrite Z.div_small by lia. lia.
  - rewrite <- hex_char_hex_digit by done. f_equal. rewrite Z.add_comm, Z.mod_add by lia.
    by apply Z.mod_small.
Qed.

Lemma from_hex_length l : length (from_hex l) = (length l / 2)%nat.
Proof.
  revert l. fix go 1. intros [|a [|b l]]; [done|done|]. cbn [from_hex length]. rewrite go.
  change (S (S (length l))) with (1 * 2 + length l)%nat. by rewrite Nat.div_add_l.
Qed.

Lemma hex_digit_lower c : hex_digit (lower c) = hex_digit c.
Proof. by destruct c as [[] [] [] [] [] [] [] []]. Qed.

Lemma from_hex_lower l : from_hex (toLowerCase l) = from_hex l.
Proof.
  revert l. fix go 1. intros [|a [|b l]]; [done|done|]. cbn. by rewrite !hex_digit_lower, go.
Qed.

Lemma forallb_lower (f : ascii -> bool) l :
  forallb f (toLowerCase l) = forallb (fun c => f (lower c)) l.
Proof. induction l as [|c l IH]; cbn; [done|]. by rewrite <- IH. Qed.

(** ** Big-endian integers *)
Lemma be_value_app l1 l2 : be_value (l1 ++ l2) = be_value l1 * 256 ^ Z.of_nat (length l2) + be_value l2.
Proof.
  unfold be_value. rewrite foldl_app. generalize (foldl (fun acc b => acc * 256 + code b) 0 l1).
  induction l2 as [|b l2 IH] using rev_ind; intros x; [cbn; lia|].
  rewrite !foldl_app, IH, length_app. cbn [foldl length].
  rewrite Nat2Z.inj_add, Z.pow_add_r by lia. change (256 ^ Z.of_nat 1) with 256. lia.
Qed.

Lemma be_value_range l : 0 <= be_value l < 256 ^ Z.of_nat (length l).
Proof.
  induction l as [|b l IH] using rev_ind; [by vm_compute|].
  rewrite be_value_app, length_app. unfold be_value at 2 4. cbn [foldl length].
  rewrite Nat2Z.inj_add, Z.pow_add_r by lia. change (256 ^ Z.of_nat 1) with 256.
  pose proof (code_range b). nia.
Qed.

Lemma be_bytes_length n z : length (be_bytes n z) = n.
Proof. revert z. induction n as [|n IH]; intros z; [done|]. cbn. rewrite length_app, IH. cbn. lia. Qed.

Lemma be_value_bytes n z : 0 <= z < 256 ^ Z.of_nat n -> be_value (be_bytes n z) = z.
Proof.
  revert z. induction n as [|n IH]; intros z Hz; [cbn in Hz; unfold be_value; cbn; lia|].
  cbn [be_bytes]. rewrite be_value_app. cbn [length].
  rewrite Nat2Z.inj_succ, Z.pow_succ_r in Hz by lia.
  rewrite IH by (split; [apply Z.div_pos; lia|apply Z.div_lt_upper_bound; lia]).
  unfold be_value. cbn [foldl]. rewrite code_byte by (apply Z.mod_pos_bound; lia).
  change (256 ^ Z.of_nat 1) with 256. pose proof (Z.div_mod z 256). lia.
Qed.

Lemma be_bytes_value l : be_bytes (length l) (be_value l) = l.
Proof.
  induction l as [|b l IH] using rev_ind; [done|].
  rewrite length_app, Nat.add_comm. cbn [length Nat.add be_bytes].
  rewrite be_value_app. unfold be_value at 2 4. cbn [foldl length].
  change (256 ^ Z.of_nat 1) with 256. pose proof (code_range b).
  rewrite Z.div_add_l, Z.div_small, !Z.add_0_r, IH by lia.
  replace ((be_value l * 256 + (0 * 256 + code b)) mod 256) with (code b); [by rewrite byte_code|].
  rewrite Z.add_comm, Z.mod_add by lia. rewrite Z.mod_small; lia.
Qed.

(** ** Slices *)
Lemma slice_length off n l : (off + n <= length l)%nat -> length (slice off n l) = n.
Proof. intros. unfold slice. rewrite length_take, length_drop. lia. Qed.

Lemma drop_slice off n l : drop off l = slice off n l ++ drop (off + n) l.
Proof. unfold slice. rewrite <- drop_drop. by rewrite take_drop. Qed.

Lemma slice_here n l r : length l = n -> slice 0 n (l ++ r) = l.
Proof. intros <-. unfold slice. rewrite drop_0. by rewrite take_app_length. Qed.

Lemma slice_skip k off n l r : length l = k -> (k <= off)%nat -> slice off n (l ++ r) = slice (off - k) n r.
Proof. intros <- Hle. unfold slice. by rewrite drop_app_ge. Qed.
End Hex.
