(* ===== verification/Base64.v ===== *)
(** * Base64

    The regular expression [BASE64_RE] of [relayer/src/base/canonicalMandate.mjs] and the two
    conversions of [Buffer] it stands in front of, with the texts on which they are inverses:
    a text whose last digit carries stray bits decodes to the bytes of another text. *)
From S2P Require Export Hex.

Module Base64.

Definition is_digit64 (c : ascii) : bool :=
  in_range 65 90 c || in_range 97 122 c || is_digit c || Ascii.eqb c "+" || Ascii.eqb c "/".

Definition pad_char : ascii := "="%char.

(** [/^(?:[A-Za-z0-9+/]{4})*(?:[A-Za-z0-9+/]{2}==|[A-Za-z0-9+/]{3}=)?$/] *)
Fixpoint BASE64_RE (l : chars) : bool :=
  match l with
  | [] => true
  | [a; b; c; d] =>
      is_digit64 a && is_digit64 b
      && ((is_digit64 c && (is_digit64 d || Ascii.eqb d pad_char))
          || (Ascii.eqb c pad_char && Ascii.eqb d pad_char))
  | a :: b :: c :: d :: l =>
      is_digit64 a && is_digit64 b && is_digit64 c && is_digit64 d && BASE64_RE l
  | _ => false
  end.

Definition digit64 (c : ascii) : Z :=
  if in_range 65 90 c then code c - 65
  else if in_range 97 122 c then code c - 71
  else if is_digit c then code c + 4
  else if Ascii.eqb c "+" then 62
  else 63.

Definition char64 (d : Z) : ascii :=
  if d <? 26 then Hex.byte (d + 65)
  else if d <? 52 then Hex.byte (d + 71)
  else if d <? 62 then Hex.byte (d - 4)
  else if d =? 62 then "+"%char
  else "/"%char.

(** [Buffer.from(l, 'base64')] on a text of [BASE64_RE] *)
Fixpoint decode (l : chars) : chars :=
  match l with
  | a :: b :: c :: d :: l =>
      let x := digit64 a * 4 + digit64 b / 16 in
      if Ascii.eqb c pad_char then [Hex.byte x]
      else
        let y := (digit64 b mod 16) * 16 + digit64 c / 4 in
        if Ascii.eqb d pad_char then [Hex.byte x; Hex.byte y]
        else Hex.byte x :: Hex.byte y :: Hex.byte ((digit64 c mod 4) * 64 + digit64 d) :: decode l
  | _ => []
  end.

(** [bytes.toString('base64')] *)
Fixpoint encode (bytes : chars) : chars :=
  match bytes with
  | [] => []
  | [x] => [char64 (code x / 4); char64 ((code x mod 4) * 16); pad_char; pad_char]
  | [x; y] =>
      [char64 (code x / 4); char64 ((code x mod 4) * 16 + code y / 16);
       char64 ((code y mod 16) * 4); pad_char]
  | x :: y :: z :: bytes =>
      char64 (code x / 4) :: char64 ((code x mod 4) * 16 + code y / 16)
      :: char64 ((code y mod 16) * 4 + code z / 64) :: char64 (code z mod 64) :: encode bytes
  end.

(** ** Digits *)
Lemma char64_digit d :
  0 <= d < 64 ->
  is_digit64 (char64 d) = true /\ Ascii.eqb (char64 d) pad_char = false /\ digit64 (char64 d) = d.
Proof.
  intros Hd. assert (d ∈ seqZ 0 64) as Hin by (apply elem_of_seqZ; lia).
  clear Hd. revert d Hin. apply Forall_forall. apply (bool_decide_unpack _). vm_compute. exact I.
Qed.

Lemma triples_ind (P : chars -> Prop) :
  P [] -> (forall x, P [x]) -> (forall x y, P [x; y]) ->
  (forall x y z l, P l -> P (x :: y :: z :: l)) -> forall l, P l.
Proof.
  intros H0 H1 H2 H3. fix go 1. intros [|x [|y [|z l]]]; [done|done|done|]. apply H3, go.
Qed.

(** The facts about the digit that encodes a bounded number. *)
Ltac digit_of d :=
  let H := fresh in
  assert (0 <= d < 64) as H by (Z.to_euclidean_division_equations; lia);
  destruct (char64_digit d H) as (? & ? & ?); clear H.
Ltac digits_of x y z :=
  pose proof (Hex.code_range x); pose proof (Hex.code_range y); pose proof (Hex.code_range z);
  digit_of (code x / 4); digit_of ((code x mod 4) * 16); digit_of ((code x mod 4) * 16 + code y / 16);
  digit_of ((code y mod 16) * 4); digit_of ((code y mod 16) * 4 + code z / 64); digit_of (code z mod 64).

Lemma re_digits a b c d l :
  is_digit64 a = true -> is_digit64 b = true -> is_digit64 c = true -> is_digit64 d = true ->
  BASE64_RE (a :: b :: c :: d :: l) = BASE64_RE l.
Proof. intros Ha Hb Hc Hd. destruct l; cbn; by rewrite Ha, Hb, Hc, Hd. Qed.

Ltac rewrite_digits :=
  repeat match goal with
    | H : is_digit64 ?c = true |- context [is_digit64 ?c] => rewrite H
    | H : Ascii.eqb ?c pad_char = false |- context [Ascii.eqb ?c pad_char] => rewrite H
    | H : digit64 ?c = _ |- context [digit64 ?c] => rewrite H
    end.

Lemma encode_re bytes : BASE64_RE (encode bytes) = true.
Proof.
  induction bytes as [|x|x y|x y z bytes IH] using triples_ind; [done| | |].
  - digits_of x x x. cbn [encode BASE64_RE]. rewrite_digits. apply orb_true_r.
  - digits_of x y x. cbn [encode BASE64_RE]. rewrite_digits. done.
  - digits_of x y z. cbn [encode]. by rewrite re_digits.
Qed.

(** ** Decoding inverts encoding *)
Lemma decode_digits a b c d l :
  is_digit64 c = true -> is_digit64 d = true ->
  decode (a :: b :: c :: d :: l) =
  Hex.byte (digit64 a * 4 + digit64 b / 16) :: Hex.byte ((digit64 b mod 16) * 16 + digit64 c / 4)
  :: Hex.byte ((digit64 c mod 4) * 64 + digit64 d) :: decode l.
Proof.
  intros Hc Hd. cbn [decode].
  destruct (Ascii.eqb_spec c pad_char) as [->|]; [done|].
  by destruct (Ascii.eqb_spec d pad_char) as [->|].
Qed.

(** A byte is split between two digits. *)
Lemma join_byte b z : z = code b -> Hex.byte z = b.
Proof. intros ->. apply Hex.byte_code. Qed.

Ltac bytes_join := repeat f_equal; apply join_byte; Z.to_euclidean_division_equations; lia.

Lemma decode_encode bytes : decode (encode bytes) = bytes.
Proof.
  induction bytes as [|x|x y|x y z bytes IH] using triples_ind; [done| | |].
  - digits_of x x x. cbn [encode decode]. rewrite_digits. bytes_join.
  - digits_of x y x. cbn [encode decode]. rewrite_digits. bytes_join.
  - digits_of x y z. cbn [encode]. rewrite decode_digits, IH by done. rewrite_digits. bytes_join.
Qed.

(** The texts that [Buffer] writes are exactly the texts it writes back unchanged. *)
Lemma canonical_iff t : encode (decode t) = t <-> exists bytes, t = encode bytes.
Proof. split; [eauto|]. intros [bytes ->]. by rewrite decode_encode. Qed.

(** [YQ==] is the text of one byte; [YR==] decodes to the same byte. *)
Example stray_bits :
  decode (chars_of "YQ==") = decode (chars_of "YR==") /\ BASE64_RE (chars_of "YR==") = true
  /\ encode (decode (chars_of "YR==")) = chars_of "YQ=="
  /\ decode (chars_of "SGVsbG8h") = chars_of "Hello!".
Proof. vm_compute. split_and!; reflexivity. Qed.

End Base64.
