(* ===== verification/HookData.v ===== *)
(** * The hook data of the reverse bridge

    Models [frontend/src/base/hookData.js]: the check of a Stellar address (base 32 and its
    checksum) and the bytes that name the recipient of a burn.  The theorems: the bytes built
    for an address are exactly the bytes accepted for it, and what a mistyped address does.
    A byte array is [chars]; the text of a payload with a byte above 127, which no address has,
    is one error here and a decoding or an address error in the source. *)
From S2P Require Export Hex.
Import Hex.

Module HookData.

Inductive hook_error :=
| StrkeyLength | Noncanonical | DecodedLength | StrkeyVersion | Checksum
| HookLength | ReservedHeader | HookVersion | DeclaredLength | Undecodable.

Definition HEADER_LEN : nat := 32.
Definition STRKEY_LEN : nat := 56.
Definition DECODED_STRKEY_LEN : nat := 35.
Definition BASE32_ALPHABET : chars := chars_of "ABCDEFGHIJKLMNOPQRSTUVWXYZ234567".
Definition ALLOWED_VERSIONS : list Z := [48; 16].

(** [alphabet.indexOf(character)] *)
Definition indexOf (alphabet : chars) (character : ascii) : option Z :=
  Z.of_nat ∘ fst <$> list_find (eq character) alphabet.

(** The inner [while]; [bits] stays below 13, so one round is all (see [shift_out_enough]). *)
Fixpoint shift_out (fuel : nat) (accumulator bits : Z) (output : list Z) : Z * Z * list Z :=
  match fuel with
  | O => (accumulator, bits, output)
  | S fuel =>
      if 8 <=? bits then
        shift_out fuel (accumulator mod 2 ^ (bits - 8)) (bits - 8)
          (output ++ [Z.land (accumulator / 2 ^ (bits - 8)) 255])
      else (accumulator, bits, output)
  end.

(** The body of the loop, for a digit. *)
Definition take_digit (s : Z * Z * list Z) (digit : Z) : Z * Z * list Z :=
  let '(accumulator, bits, output) := s in
  shift_out 1 (accumulator * 32 + digit) (bits + 5) output.

Fixpoint decode_loop (value : chars) (s : Z * Z * list Z) : result hook_error (Z * Z * list Z) :=
  match value with
  | [] => Ok s
  | character :: value =>
      match indexOf BASE32_ALPHABET character with
      | None => Throw Noncanonical
      | Some digit => decode_loop value (take_digit s digit)
      end
  end.

Definition decodeBase32 (value : val) : result hook_error (list Z) :=
  match value with
  | Str v =>
      let v := chars_of v in
      if negb (length v =? STRKEY_LEN)%nat then Throw StrkeyLength
      else
        s ← decode_loop v (0, 0, []);
        let '(_, bits, output) := s in
        if negb (bits =? 0) || negb (length output =? DECODED_STRKEY_LEN)%nat
        then Throw DecodedLength else Ok output
  | _ => Throw StrkeyLength
  end.

(** One round of the inner loop of [crc16Xmodem]. *)
Definition crc_bit (crc : Z) : Z :=
  if negb (Z.land crc 32768 =? 0)
  then Z.land (Z.lxor (Z.shiftl crc 1) 4129) 65535
  else Z.land (Z.shiftl crc 1) 65535.

Definition crc_byte (crc byte : Z) : Z := Nat.iter 8 crc_bit (Z.lxor crc (Z.shiftl byte 8)).

Definition crc16Xmodem (bytes : list Z) : Z := foldl crc_byte 0 bytes.

Definition assertStellarStrKey (strkey : val) : result hook_error val :=
  decoded ← decodeBase32 strkey;
  if negb (bool_decide (nth 0 decoded 0 ∈ ALLOWED_VERSIONS)) then Throw StrkeyVersion
  else
    let expected := crc16Xmodem (take 33 decoded) in
    let actual := Z.lor (nth 33 decoded 0) (Z.shiftl (nth 34 decoded 0) 8) in
    if negb (actual =? expected) then Throw Checksum else Ok strkey.

(** [view.setUint32(off, z, false)], [view.getUint32(off, false)] and [buf.set(bytes, off)] *)
Definition set_bytes (off : nat) (bytes buf : chars) : chars :=
  take off buf ++ bytes ++ drop (off + length bytes) buf.
Definition setUint32 (off : nat) (z : Z) (buf : chars) : chars := set_bytes off (be_bytes 4 z) buf.
Definition getUint32 (off : nat) (buf : chars) : Z := be_value (slice off 4 buf).

Definition buildForwarderHookData (strkey : val) : result hook_error chars :=
  _ ← assertStellarStrKey strkey;
  let strkeyBytes := coerce strkey in
  let buf := replicate (HEADER_LEN + length strkeyBytes) (byte 0) in
  let buf := setUint32 24 0 buf in
  let buf := setUint32 28 (Z.of_nat (length strkeyBytes)) buf in
  Ok (set_bytes 32 strkeyBytes buf).

Definition assertHookData (bytes : chars) : result hook_error val :=
  if negb (length bytes =? HEADER_LEN + STRKEY_LEN)%nat then Throw HookLength
  else if existsb (fun b => negb (code b =? 0)) (slice 0 24 bytes) then Throw ReservedHeader
  else if negb (getUint32 24 bytes =? 0) then Throw HookVersion
  else
    let declaredLen := getUint32 28 bytes in
    let actualLen := Z.of_nat (length bytes) - Z.of_nat HEADER_LEN in
    if negb (declaredLen =? Z.of_nat STRKEY_LEN) || negb (declaredLen =? actualLen) then Throw DeclaredLength
    else if negb (forallb (in_range 0 127) (drop 32 bytes)) then Throw Undecodable
    else assertStellarStrKey (Str (string_of (drop 32 bytes))).
End HookData.

Lemma shift_out_enough fuel accumulator bits output : bits < 16 ->
  HookData.shift_out (S fuel) accumulator bits output = HookData.shift_out 1 accumulator bits output.
Proof.
  intros. cbn. destruct (Z.leb_spec 8 bits); [|done]. destruct fuel; [done|]. cbn.
  destruct (Z.leb_spec 8 (bits - 8)); [lia|done].
Qed.

(** ** The bytes of the hook *)
Section Hook.
Import HookData.

Lemma indexOf_Some l c z : indexOf l c = Some z -> l !! Z.to_nat z = Some c /\ 0 <= z < Z.of_nat (length l).
Proof.
  unfold indexOf. intros ([i d] & (Hl & -> & _)%list_find_Some & ->)%fmap_Some.
  cbn. apply lookup_lt_Some in Hl as ?. rewrite Nat2Z.id. split; [done|lia].
Qed.

Lemma decode_loop_chars l s s' : decode_loop l s = Ok s' -> Forall (fun c => c ∈ BASE32_ALPHABET) l.
Proof.
  revert s. induction l as [|c l IH]; intros s; [by constructor|].
  cbn [decode_loop]. destruct (indexOf _ c) as [d|] eqn:Hf; [|done]. intros H. constructor; [|by eapply IH].
  apply indexOf_Some in Hf as (Hl & _). by eapply list_elem_of_lookup_2.
Qed.

Lemma assert_valid v w : assertStellarStrKey v = Ok w ->
  w = v /\ exists s, v = Str s /\ length (chars_of s) = STRKEY_LEN /\
  Forall (fun c => c ∈ BASE32_ALPHABET) (chars_of s).
Proof.
  intros H. unfold assertStellarStrKey in H. apply bind_Ok in H as (d & Hd & H).
  split; [by case_goal|]. clear H. unfold decodeBase32 in Hd. destruct v; try done.
  destruct (length (chars_of s) =? STRKEY_LEN)%nat eqn:Hl; [|done]. cbn in Hd.
  apply bind_Ok in Hd as (st & Hs & _). exists s. split; [done|].
  split; [by apply Nat.eqb_eq|]. by eapply decode_loop_chars.
Qed.

Lemma alphabet_ascii l : Forall (fun c => c ∈ BASE32_ALPHABET) l -> forallb (in_range 0 127) l = true.
Proof.
  intros H. apply forallb_Forall. eapply Forall_impl; [exact H|].
  apply Forall_forall. apply (bool_decide_unpack _). vm_compute. exact I.
Qed.

(** The layout of a hook: the reserved bytes, the version, the length and the address. *)
Definition layout (payload : chars) : chars :=
  replicate 24 (byte 0) ++ be_bytes 4 0 ++ be_bytes 4 56 ++ payload.

Lemma build_layout s : length (chars_of s) = STRKEY_LEN -> assertStellarStrKey (Str s) = Ok (Str s) ->
  buildForwarderHookData (Str s) = Ok (layout (chars_of s)).
Proof.
  intros Hl Hs. unfold buildForwarderHookData. rewrite Hs. cbn [mbind result_bind coerce]. rewrite Hl.
  unfold set_bytes at 1. rewrite Hl. f_equal. set (buf := setUint32 28 _ _).
  replace (take 32 buf) with (replicate 24 (byte 0) ++ be_bytes 4 0 ++ be_bytes 4 56) by done.
  replace (drop (32 + STRKEY_LEN) buf) with (@nil ascii) by done.
  unfold layout. by rewrite app_nil_r, <- !app_assoc.
Qed.

Lemma layout_zero l : existsb (fun b => negb (code b =? 0)) l = false -> l = replicate (length l) (byte 0).
Proof.
  induction l as [|c l IH]; [done|]. cbn. intros [Hc Hl]%orb_false_elim. f_equal; [|by apply IH].
  zbool. by apply code_inj.
Qed.

Lemma getUint32_bytes off b z : (off + 4 <= length b)%nat -> getUint32 off b = z -> slice off 4 b = be_bytes 4 z.
Proof. intros Hl <-. unfold getUint32. rewrite <- (slice_length off 4 b Hl) at 2. by rewrite be_bytes_value. Qed.

Lemma assert_layout b w : assertHookData b = Ok w ->
  exists s, w = Str s /\ b = layout (chars_of s) /\ assertStellarStrKey w = Ok w.
Proof.
  unfold assertHookData. intros H. invert_ok H. zbool. apply Nat.eqb_eq in Heqb0.
  pose proof (assert_valid _ _ H) as [-> _]. exists (string_of (drop 32 b)). split; [done|]. split; [|done].
  rewrite chars_of_string_of. unfold layout.
  apply layout_zero in Heqb1. rewrite slice_length in Heqb1 by (rewrite Heqb0; vm_compute; lia).
apply getUint32_bytes in Heqb2, H0; [|rewrite Heqb0; vm_compute; lia..].
  rewrite <- Heqb1. change 56 with (Z.of_nat STRKEY_LEN). rewrite <- Heqb2, <- H0.
  rewrite <- !drop_slice. done.
Qed.

Lemma layout_accepted s : length (chars_of s) = STRKEY_LEN -> Forall (fun c => c ∈ BASE32_ALPHABET) (chars_of s) ->
  assertHookData (layout (chars_of s)) = assertStellarStrKey (Str s).
Proof.
  intros Hl Ha. unfold assertHookData. replace (length (layout (chars_of s))) with 88%nat
    by (unfold layout; rewrite !length_app, Hl; done).
  replace (slice 0 24 (layout (chars_of s))) with (replicate 24 (byte 0)) by done.
  replace (getUint32 24 (layout (chars_of s))) with 0 by done.
  replace (getUint32 28 (layout (chars_of s))) with 56 by done.
  replace (drop 32 (layout (chars_of s))) with (chars_of s) by done.
  rewrite alphabet_ascii by done. rewrite string_of_chars_of. done.
Qed.
End Hook.

(** The hook of a burn names exactly one address: the bytes built for an address are the bytes,
    and the only bytes, from which the check before the burn reads that address; everything else,
    a wrong version or length or an address whose checksum fails, is refused by both. *)
Theorem hook_roundtrip v b :
  HookData.buildForwarderHookData v = Ok b <-> HookData.assertHookData b = Ok v.
Proof.
  split.
  - intros H. pose proof H as H'. unfold HookData.buildForwarderHookData in H'.
    apply bind_Ok in H' as (w & Hw & _). destruct (assert_valid _ _ Hw) as (-> & s & -> & Hl & Ha).
    rewrite build_layout in H by done. injection H as <-. by rewrite layout_accepted.
  - intros H. destruct (assert_layout _ _ H) as (s & -> & -> & Hs).
    destruct (assert_valid _ _ Hs) as (_ & s' & [= <-] & Hl & _). by apply build_layout.
Qed.

(** ** The checksum is linear

    Base 32, the checksum and the comparison of the two commute with the bitwise exclusive or,
    so that what two accepted addresses differ by has no checksum. *)
Section Linear.
Import HookData.

Lemma testbit_shift_add n x y i : 0 <= n -> 0 <= i -> 0 <= y < 2 ^ n ->
  Z.testbit (x * 2 ^ n + y) i = if i <? n then Z.testbit y i else Z.testbit x (i - n).
Proof.
  intros Hn Hi Hy. destruct (Z.ltb_spec i n).
  - rewrite <- (Z.mod_pow2_bits_low _ n) by lia. rewrite Z.add_comm, Z.mod_add by lia.
    by rewrite Z.mod_pow2_bits_low by lia.
  - replace i with (i - n + n) at 1 by lia. rewrite <- Z.div_pow2_bits by lia.
    rewrite Z.div_add_l, Z.div_small, Z.add_0_r by lia. done.
Qed.

Lemma lxor_shift_add n a b c d : 0 <= n -> 0 <= b < 2 ^ n -> 0 <= d < 2 ^ n ->
  Z.lxor (a * 2 ^ n + b) (c * 2 ^ n + d) = Z.lxor a c * 2 ^ n + Z.lxor b d.
Proof.
  intros Hn Hb Hd. apply Z.bits_inj'. intros i Hi. rewrite Z.lxor_spec.
  assert (0 <= Z.lxor b d < 2 ^ n) as Hbd.
  { assert (Z.lxor b d mod 2 ^ n = Z.lxor b d) as <-; [|apply Z.mod_pos_bound; lia].
    apply Z.bits_inj'. intros j Hj. destruct (Z.ltb_spec j n).
    - by rewrite Z.mod_pow2_bits_low by lia.
    - rewrite Z.mod_pow2_bits_high by lia. rewrite Z.lxor_spec.
      rewrite <- (Z.mod_small b (2 ^ n)), <- (Z.mod_small d (2 ^ n)) by lia.
      by rewrite !Z.mod_pow2_bits_high by lia. }
  rewrite !testbit_shift_add by done. destruct (i <? n); by rewrite Z.lxor_spec.
Qed.

Lemma lxor_mod n a b : 0 <= n -> Z.lxor a b mod 2 ^ n = Z.lxor (a mod 2 ^ n) (b mod 2 ^ n).
Proof.
  intros Hn. apply Z.bits_inj'. intros i Hi. rewrite Z.lxor_spec. destruct (Z.ltb_spec i n).
  - by rewrite !Z.mod_pow2_bits_low, Z.lxor_spec by lia.
  - by rewrite !Z.mod_pow2_bits_high by lia.
Qed.

Lemma lxor_div n a b : 0 <= n -> Z.lxor a b / 2 ^ n = Z.lxor (a / 2 ^ n) (b / 2 ^ n).
Proof. intros. by rewrite <- !Z.shiftr_div_pow2, Z.shiftr_lxor by lia. Qed.

Lemma lxor_land a b m : Z.land (Z.lxor a b) m = Z.lxor (Z.land a m) (Z.land b m).
Proof.
  apply Z.bits_inj'. intros i Hi. rewrite !Z.land_spec, !Z.lxor_spec, !Z.land_spec.
  by destruct (Z.testbit a i), (Z.testbit b i), (Z.testbit m i).
Qed.

Lemma crc_bit_form c : crc_bit c = Z.land (Z.lxor (Z.shiftl c 1) (if Z.testbit c 15 then 4129 else 0)) 65535.
Proof.
  unfold crc_bit. assert ((Z.land c 32768 =? 0) = negb (Z.testbit c 15)) as ->.
  { change 32768 with (1 * 2 ^ 15). rewrite <- Z.shiftl_mul_pow2 by lia. destruct (Z.testbit c 15) eqn:Hc.
    - apply Z.eqb_neq. intros H. apply (f_equal (fun z => Z.testbit z 15)) in H.
      rewrite Z.land_spec, Hc in H. done.
    - apply Z.eqb_eq, Z.bits_inj'. intros i Hi. rewrite Z.land_spec, Z.bits_0.
      rewrite Z.shiftl_spec by done. destruct (decide (i = 15)) as [->|]; [by rewrite Hc|].
      destruct (Z.testbit 1 (i - 15)) eqn:Hz; [|apply andb_false_r].
      destruct (decide (i - 15 < 0)); [by rewrite Z.testbit_neg_r in Hz|].
      change 1 with (2 ^ 0) in Hz. rewrite Z.pow2_bits_false in Hz by lia. done. }
  rewrite negb_involutive. destruct (Z.testbit c 15); [done|]. by rewrite Z.lxor_0_r.
Qed.

Lemma crc_bit_lxor a b : crc_bit (Z.lxor a b) = Z.lxor (crc_bit a) (crc_bit b).
Proof.
  rewrite !crc_bit_form, <- lxor_land, Z.shiftl_lxor, Z.lxor_spec. f_equal.
  apply Z.bits_inj'. intros i Hi. rewrite !Z.lxor_spec.
  destruct (Z.testbit a 15), (Z.testbit b 15); cbn [xorb]; rewrite ?Z.bits_0;
    destruct (Z.testbit _ i), (Z.testbit _ i), (Z.testbit 4129 i); done.
Qed.

Lemma lxor_swap a b c d : Z.lxor (Z.lxor a b) (Z.lxor c d) = Z.lxor (Z.lxor a c) (Z.lxor b d).
Proof. rewrite !Z.lxor_assoc. f_equal. by rewrite <- !Z.lxor_assoc, (Z.lxor_comm b c). Qed.

Lemma crc_byte_lxor a b x y : crc_byte (Z.lxor a b) (Z.lxor x y) = Z.lxor (crc_byte a x) (crc_byte b y).
Proof.
  unfold crc_byte. rewrite Z.shiftl_lxor, lxor_swap.
  generalize (Z.lxor a (Z.shiftl x 8)), (Z.lxor b (Z.shiftl y 8)), 8%nat. intros p q n.
  induction n as [|n IH]; [done|]. rewrite !Nat.iter_succ, IH. apply crc_bit_lxor.
Qed.

Lemma crc_foldl_lxor a b xs ys : length xs = length ys ->
  foldl crc_byte (Z.lxor a b) (zip_with Z.lxor xs ys) = Z.lxor (foldl crc_byte a xs) (foldl crc_byte b ys).
Proof.
  revert ys a b. induction xs as [|x xs IH]; intros [|y ys] a b Hl; try done. cbn [zip_with foldl]. injection Hl as Hl.
  rewrite crc_byte_lxor. by apply IH.
Qed.

Lemma crc_lxor xs ys : length xs = length ys ->
  crc16Xmodem (zip_with Z.lxor xs ys) = Z.lxor (crc16Xmodem xs) (crc16Xmodem ys).
Proof. apply (crc_foldl_lxor 0 0). Qed.

(** A digit of base 32 and a byte. *)
Definition digit (d : Z) : Prop := 0 <= d < 32.
Definition decoded (ds : list Z) : Z * Z * list Z := foldl take_digit (0, 0, []) ds.
Definition is_byte (b : Z) : Prop := 0 <= b < 256.

Lemma shift_out_lxor a b n o p : length o = length p -> 0 <= n ->
  shift_out 1 (Z.lxor a b) n (zip_with Z.lxor o p) =
  (Z.lxor (shift_out 1 a n o).1.1 (shift_out 1 b n p).1.1, (shift_out 1 a n o).1.2,
   zip_with Z.lxor (shift_out 1 a n o).2 (shift_out 1 b n p).2).
Proof.
  intros Hl Hn. cbn. destruct (Z.leb_spec 8 n); [|done]. cbn.
  rewrite lxor_mod, lxor_div, lxor_land by lia. f_equal. by rewrite zip_with_app.
Qed.

Lemma shift_out_bits a b n o p : 0 <= n < 13 -> length o = length p ->
  (shift_out 1 a n o).1.2 = (shift_out 1 b n p).1.2 /\ 0 <= (shift_out 1 a n o).1.2 < 8 /\
  length (shift_out 1 a n o).2 = length (shift_out 1 b n p).2.
Proof.
  intros ? Hl. cbn. destruct (Z.leb_spec 8 n); cbn; [rewrite !length_app, Hl; split_and!; (done || lia)|].
  split_and!; (done || lia).
Qed.

Lemma decoded_lxor xs ys : length xs = length ys -> Forall digit xs -> Forall digit ys ->
  (decoded xs).1.2 = (decoded ys).1.2 /\ 0 <= (decoded xs).1.2 < 8 /\
  length (decoded xs).2 = length (decoded ys).2 /\
  decoded (zip_with Z.lxor xs ys) =
    (Z.lxor (decoded xs).1.1 (decoded ys).1.1, (decoded xs).1.2, zip_with Z.lxor (decoded xs).2 (decoded ys).2).
Proof.
  revert ys. induction xs as [|x xs IH] using rev_ind; intros ys Hl Hx Hy.
  - destruct ys; [|done]. split_and!; (done || cbn; lia).
  - destruct ys as [|y ys _] using rev_ind; [rewrite length_app in Hl; cbn in Hl; lia|].
    rewrite !length_app in Hl. cbn in Hl. apply Forall_app in Hx as [Hx [Hdx _]%Forall_cons], Hy as [Hy [Hdy _]%Forall_cons].
    destruct (IH ys ltac:(lia) Hx Hy) as (Hb & Hr & Ho & Hd).
    rewrite zip_with_app by lia. unfold decoded. rewrite !foldl_snoc. cbn [zip_with foldl]. rewrite foldl_app. cbn [foldl].
    change (foldl take_digit (0, 0, []) ?l) with (decoded l). rewrite Hd.
    destruct (decoded xs) as [[ax nx] ox], (decoded ys) as [[ay ny] oy]. cbn [fst snd] in *. subst ny.
    unfold take_digit. change 32 with (2 ^ 5). rewrite <- lxor_shift_add by (unfold digit in *; lia).
    rewrite shift_out_lxor by (done || lia).
    destruct (shift_out_bits (ax * 2 ^ 5 + x) (ay * 2 ^ 5 + y) (nx + 5) ox oy) as (? & ? & ?); [lia|done|].
    split_and!; try done; lia.
Qed.
End Linear.

Section Syndrome.
Import HookData.

(** What the checksum of a list of digits is off by. *)
Definition syndrome (ds : list Z) : Z :=
  let o := (decoded ds).2 in
  Z.lxor (crc16Xmodem (take 33 o)) (Z.lor (nth 33 o 0) (Z.shiftl (nth 34 o 0) 8)).

Lemma decoded_bytes ds : Forall is_byte (decoded ds).2.
Proof.
  induction ds as [|d ds IH] using rev_ind; [constructor|]. unfold decoded in *. rewrite foldl_snoc.
  destruct (foldl _ _ _) as [[a n] o]. cbn in *. destruct (8 <=? n + 5); cbn; [|done].
  apply Forall_app. split; [done|]. constructor; [|done]. unfold is_byte.
  change 255 with (Z.ones 8). rewrite Z.land_ones by lia. apply Z.mod_pos_bound. lia.
Qed.

Lemma nth_zip_lxor i xs ys : length xs = length ys ->
  nth i (zip_with Z.lxor xs ys) 0 = Z.lxor (nth i xs 0) (nth i ys 0).
Proof. revert i ys. induction xs as [|x xs IH]; intros [|i] [|y ys] Hl; try done. injection Hl as Hl. cbn [zip_with nth]. by apply IH. Qed.

Lemma nth_byte i bs : Forall is_byte bs -> 0 <= nth i bs 0 < 256.
Proof. intros H. revert i. induction H as [|b bs Hb _ IH]; intros [|i]; [cbn; lia..|done|apply IH]. Qed.

Lemma lor_bytes a b : 0 <= a < 256 -> Z.lor a (Z.shiftl b 8) = b * 2 ^ 8 + a.
Proof.
  intros Ha. apply Z.bits_inj'. intros i Hi. rewrite testbit_shift_add, Z.lor_spec, Z.shiftl_spec by lia.
  destruct (Z.ltb_spec i 8).
  - by rewrite (Z.testbit_neg_r b), orb_false_r by lia.
  - rewrite <- (Z.mod_small a (2 ^ 8)) by lia. by rewrite Z.mod_pow2_bits_high by lia.
Qed.

Lemma syndrome_lxor xs ys : length xs = length ys -> Forall digit xs -> Forall digit ys ->
  syndrome (zip_with Z.lxor xs ys) = Z.lxor (syndrome xs) (syndrome ys).
Proof.
  intros Hl Hx Hy. destruct (decoded_lxor xs ys Hl Hx Hy) as (_ & _ & Ho & Hd).
  unfold syndrome. rewrite Hd. cbn [snd].
  pose proof (decoded_bytes xs) as Hbx. pose proof (decoded_bytes ys) as Hby.
  rewrite !nth_zip_lxor, zip_with_take, crc_lxor by (rewrite ?length_take; congruence).
  assert (forall i, is_byte (Z.lxor (nth i (decoded xs).2 0) (nth i (decoded ys).2 0))) as Hb.
  { intros i. pose proof (decoded_bytes (zip_with Z.lxor xs ys)) as Hb. rewrite Hd in Hb. cbn [snd] in Hb.
    apply (nth_byte i) in Hb. by rewrite nth_zip_lxor in Hb. }
  rewrite !lor_bytes by (done || by apply nth_byte || apply Hb).
  rewrite <- lxor_shift_add by (lia || by apply nth_byte). apply lxor_swap.
Qed.

Lemma lxor_digit x y : digit x -> digit y -> digit (Z.lxor x y).
Proof.
  unfold digit. intros Hx Hy. rewrite <- (Z.mod_small x 32), <- (Z.mod_small y 32) by lia.
  change 32 with (2 ^ 5). rewrite <- lxor_mod by lia. apply Z.mod_pos_bound. lia.
Qed.

(** ** One wrong digit, and every wrong digit *)
Definition zeros : list Z := replicate STRKEY_LEN 0.
Definition wrong (k : nat) (x : Z) : list Z := <[k := x]> zeros.

Lemma wrong_digits k x : digit x -> Forall digit (wrong k x).
Proof. intros. apply Forall_insert; [|done]. by apply Forall_replicate. Qed.

Lemma wrong_lxor k x y : zip_with Z.lxor (wrong k x) (wrong k y) = wrong k (Z.lxor x y).
Proof.
  unfold wrong. rewrite <- insert_zip_with. f_equal.
Qed.

Lemma syndrome_wrong_lxor k x y : digit x -> digit y ->
  syndrome (wrong k (Z.lxor x y)) = Z.lxor (syndrome (wrong k x)) (syndrome (wrong k y)).
Proof.
  intros. rewrite <- wrong_lxor. apply syndrome_lxor; [|by apply wrong_digits..].
  unfold wrong. by rewrite !length_insert.
Qed.

(** The exclusive ors of the subsets of a list; of the five bits they are the digits in order. *)
Fixpoint span (bs : list Z) : list Z :=
  match bs with
  | [] => [0]
  | b :: bs => let l := span bs in l ++ (Z.lxor b <$> l)
  end.

Lemma span_digits bs : Forall digit bs -> Forall digit (span bs).
Proof.
  induction 1 as [|b bs Hb _ IH]; [by repeat constructor|]. cbn. apply Forall_app. split; [done|].
  apply Forall_fmap. eapply Forall_impl; [exact IH|]. intros x. by apply lxor_digit.
Qed.

Lemma syndrome_span k bs : Forall digit bs ->
  (fun x => syndrome (wrong k x)) <$> span bs = span ((fun x => syndrome (wrong k x)) <$> bs).
Proof.
  induction 1 as [|b bs Hb Hbs IH].
  - cbn. f_equal. unfold wrong, zeros. rewrite list_insert_id'; [vm_compute; done|].
    intros. by apply lookup_replicate.
  - cbn [span fmap list_fmap]. rewrite fmap_app, IH. f_equal. rewrite <- IH, <- !list_fmap_compose.
    apply list_fmap_ext. intros i x Hx. cbn. apply syndrome_wrong_lxor; [done|].
    eapply Forall_lookup_1; [|done]. by apply span_digits.
Qed.
End Syndrome.

Section Typos.
Import HookData.

Definition five_bits : list Z := [16; 8; 4; 2; 1].

(** Every wrong digit at every place, with its syndrome. *)
Definition row (k : nat) : list (Z * Z) :=
  zip (span five_bits) (span ((fun x => syndrome (wrong k x)) <$> five_bits)).
Definition table : list (list (Z * Z)) := row <$> seq 0 STRKEY_LEN.

Definition harmless (p q : Z * Z) : bool := implb (p.2 =? q.2) ((p.1 =? 0) && (q.1 =? 0)).
Definition apart (r1 r2 : list (Z * Z)) : bool := forallb (fun p => forallb (harmless p) r2) r1.

Fixpoint neighbours_apart (t : list (list (Z * Z))) : bool :=
  match t with
  | r1 :: (r2 :: _) as t => apart r1 r2 && neighbours_apart t
  | _ => true
  end.

Definition aligned (r1 r2 : list (Z * Z)) : bool := forallb (fun '(p, q) => harmless p q) (zip r1 r2).

Fixpoint pairs_aligned (t : list (list (Z * Z))) : bool :=
  match t with
  | [] => true
  | r :: t => forallb (aligned r) t && pairs_aligned t
  end.

Lemma table_checks : neighbours_apart table && pairs_aligned table = true.
Proof. vm_compute. reflexivity. Qed.

Lemma row_map k : row k = (fun x => (x, syndrome (wrong k x))) <$> span five_bits.
Proof.
  unfold row. rewrite <- syndrome_span.
  - induction (span five_bits) as [|x l IH]; [done|]. cbn [fmap list_fmap zip_with]. by rewrite <- IH.
  - apply (bool_decide_unpack _). vm_compute. exact I.
Qed.

Lemma digit_span x : digit x -> x ∈ span five_bits.
Proof.
  intros Hx. assert (x ∈ seqZ 0 32) as Hin by (apply elem_of_seqZ; unfold digit in Hx; lia).
  clear Hx. revert x Hin. apply Forall_forall. apply (bool_decide_unpack _). vm_compute. exact I.
Qed.

Lemma table_lookup k : (k < STRKEY_LEN)%nat -> table !! k = Some (row k).
Proof. intros. unfold table. rewrite list_lookup_fmap, lookup_seq_lt by done. done. Qed.

Lemma neighbours_apart_at t k r1 r2 : neighbours_apart t = true ->
  t !! k = Some r1 -> t !! S k = Some r2 -> apart r1 r2 = true.
Proof.
  revert k. induction t as [|r [|r' t] IH]; intros k Ht H1 H2; [done|by destruct k|].
  apply andb_prop in Ht as [Ha Ht]. destruct k as [|k]; [by injection H1 as <-; injection H2 as <-|].
  by apply (IH k).
Qed.

Lemma pairs_aligned_at t k l r1 r2 : pairs_aligned t = true -> (k < l)%nat ->
  t !! k = Some r1 -> t !! l = Some r2 -> aligned r1 r2 = true.
Proof.
  revert k l. induction t as [|r t IH]; intros k l Ht Hkl H1 H2; [done|]. cbn in Ht.
  apply andb_prop in Ht as [Ha Ht]. destruct l as [|l]; [lia|]. cbn in H2. destruct k as [|k].
  - injection H1 as <-. apply forallb_Forall in Ha. by eapply Forall_lookup_1 in Ha.
  - apply (IH k l); [done|lia|done|done].
Qed.

Lemma apart_map {A} (f g : A -> Z * Z) L x y :
  apart (f <$> L) (g <$> L) = true -> x ∈ L -> y ∈ L -> harmless (f x) (g y) = true.
Proof.
  unfold apart. intros H Hx Hy. apply forallb_Forall in H. rewrite Forall_fmap, Forall_forall in H.
  specialize (H x Hx). cbn in H. apply forallb_Forall in H. rewrite Forall_fmap, Forall_forall in H. by apply H.
Qed.

Lemma aligned_map {A} (f g : A -> Z * Z) L x :
  aligned (f <$> L) (g <$> L) = true -> x ∈ L -> harmless (f x) (g x) = true.
Proof.
  unfold aligned. intros H Hx. induction L as [|z L IH]; [by apply elem_of_nil in Hx|]. cbn in H.
  apply andb_prop in H as [Hz H]. apply elem_of_cons in Hx as [<-|Hx]; auto.
Qed.

Lemma harmless_eq p q : harmless p q = true -> p.2 = q.2 -> p.1 = 0 /\ q.1 = 0.
Proof. unfold harmless. intros H He. rewrite He, Z.eqb_refl in H. cbn in H. by zbool. Qed.

Lemma adjacent_apart k x y : (S k < STRKEY_LEN)%nat -> digit x -> digit y ->
  syndrome (wrong k x) = syndrome (wrong (S k) y) -> x = 0 /\ y = 0.
Proof.
  intros Hk Hx Hy He. pose proof table_checks as [Ht _]%andb_prop.
  assert (apart (row k) (row (S k)) = true) as Ha
    by (eapply neighbours_apart_at; [exact Ht|apply table_lookup; lia|by apply table_lookup]).
  rewrite !row_map in Ha. pose proof (apart_map _ _ _ x y Ha (digit_span x Hx) (digit_span y Hy)) as Hh.
  apply harmless_eq in Hh; [done|exact He].
Qed.

Lemma same_apart k l x : k <> l -> (k < STRKEY_LEN)%nat -> (l < STRKEY_LEN)%nat -> digit x ->
  syndrome (wrong k x) = syndrome (wrong l x) -> x = 0.
Proof.
  intros Hkl Hk Hl Hx He. pose proof table_checks as [_ Ht]%andb_prop.
  assert (forall k l, (k < l)%nat -> (l < STRKEY_LEN)%nat -> syndrome (wrong k x) = syndrome (wrong l x) -> x = 0) as Hlt.
  { clear k l Hkl Hk Hl He. intros k l Hkl Hl He.
    assert (aligned (row k) (row l) = true) as Ha
      by (eapply pairs_aligned_at; [exact Ht|exact Hkl|apply table_lookup; lia|by apply table_lookup]).
    rewrite !row_map in Ha. pose proof (aligned_map _ _ _ x Ha (digit_span x Hx)) as Hh.
    apply harmless_eq in Hh; [apply Hh|exact He]. }
  destruct (decide (k < l)%nat); [by eapply Hlt|]. eapply (Hlt l k); [lia|done|done].
Qed.

(** ** Accepted addresses *)
Lemma decode_loop_digits l st st' : decode_loop l st = Ok st' ->
  exists ds, Forall2 (fun c d => indexOf BASE32_ALPHABET c = Some d) l ds /\ st' = foldl take_digit st ds.
Proof.
  revert st. induction l as [|c l IH]; intros st; cbn [decode_loop].
  - intros [= <-]. exists []. by split.
  - destruct (indexOf _ c) as [d|] eqn:Hc; [|done]. intros (ds & Hds & ->)%IH.
    exists (d :: ds). split; [by constructor|done].
Qed.

Lemma accepted_digits s w : assertStellarStrKey (Str s) = Ok w ->
  exists ds, Forall2 (fun c d => indexOf BASE32_ALPHABET c = Some d) (chars_of s) ds /\
  length ds = STRKEY_LEN /\ Forall digit ds /\ syndrome ds = 0.
Proof.
  intros H. destruct (assert_valid _ _ H) as (_ & s' & [= <-] & Hl & _).
  unfold assertStellarStrKey in H. apply bind_Ok in H as (o & Ho & H). unfold decodeBase32 in Ho.
  destruct (negb _) in Ho; [done|]. apply bind_Ok in Ho as ([[a n] o'] & Hs & Ho).
  destruct (_ || _) in Ho; [done|]. injection Ho as ->.
  apply decode_loop_digits in Hs as (ds & Hds & Hst). exists ds. split; [done|].
  split; [rewrite <- Hl; symmetry; by eapply Forall2_length|]. split.
  - eapply Forall2_Forall_r; [exact Hds|]. apply Forall_true. intros c d [_ Hd]%indexOf_Some. exact Hd.
  - unfold syndrome, decoded. rewrite <- Hst. cbn [snd]. destruct (negb _) in H; [done|].
    destruct (negb _) eqn:Hc in H; [done|]. apply negb_false_iff, Z.eqb_eq in Hc. rewrite Hc. apply Z.lxor_nilpotent.
Qed.
End Typos.

(** ** Mistyped addresses *)
Section Mistyped.
Import HookData.

Lemma nth_wrong i k x : (k < STRKEY_LEN)%nat -> nth i (wrong k x) 0 = if decide (i = k) then x else 0.
Proof.
  intros Hk. unfold wrong, zeros. rewrite nth_lookup. case_decide as Hi.
  - subst. by rewrite list_lookup_insert_eq by by rewrite length_replicate.
  - rewrite list_lookup_insert_ne by done. destruct (_ !! i) eqn:E; [|done].
    apply lookup_replicate in E as [-> _]. done.
Qed.

Lemma nth_digit i ds : Forall digit ds -> digit (nth i ds 0).
Proof.
  intros Hds. destruct (nth_in_or_default i ds 0) as [Hin| ->]; [|by split].
  eapply Forall_forall; [exact Hds|]. by apply list_elem_of_In.
Qed.

Lemma two_wrong ds ds' k l : length ds = STRKEY_LEN -> length ds' = STRKEY_LEN ->
  Forall digit ds -> Forall digit ds' -> syndrome ds = 0 -> syndrome ds' = 0 ->
  (k < STRKEY_LEN)%nat -> (l < STRKEY_LEN)%nat -> k <> l ->
  (forall i, i <> k -> i <> l -> nth i ds 0 = nth i ds' 0) ->
  syndrome (wrong k (Z.lxor (nth k ds 0) (nth k ds' 0))) = syndrome (wrong l (Z.lxor (nth l ds 0) (nth l ds' 0))).
Proof.
  intros Hl Hl' Hd Hd' Hs Hs' Hk Hlt Hkl Hsame.
  apply Z.lxor_eq. rewrite <- syndrome_lxor.
  - transitivity (syndrome (zip_with Z.lxor ds ds')); [|rewrite syndrome_lxor by (done || congruence); by rewrite Hs, Hs'].
    f_equal. apply (nth_ext _ _ 0 0).
    + rewrite !length_zip_with. unfold wrong. rewrite !length_insert. unfold zeros. rewrite length_replicate. lia.
    + intros i _. rewrite !nth_zip_lxor by (unfold wrong; rewrite ?length_insert; congruence).
      rewrite !nth_wrong by done. repeat case_decide; subst; rewrite ?Z.lxor_0_r, ?Z.lxor_0_l; try done.
      rewrite Hsame by done. by rewrite Z.lxor_nilpotent.
  - unfold wrong. by rewrite !length_insert.
  - by apply wrong_digits, lxor_digit; apply nth_digit.
  - by apply wrong_digits, lxor_digit; apply nth_digit.
Qed.

Lemma digits_nth s ds i : Forall2 (fun c d => indexOf BASE32_ALPHABET c = Some d) (chars_of s) ds ->
  (i < length ds)%nat -> exists c, chars_of s !! i = Some c /\ indexOf BASE32_ALPHABET c = Some (nth i ds 0).
Proof.
  intros H Hi. destruct (lookup_lt_is_Some_2 ds i Hi) as [d Hd].
  destruct (Forall2_lookup_r _ _ _ _ _ H Hd) as (c & Hc & Hcd). exists c. by rewrite nth_lookup, Hd.
Qed.

Lemma indexOf_inj c c' d : indexOf BASE32_ALPHABET c = Some d -> indexOf BASE32_ALPHABET c' = Some d -> c = c'.
Proof. intros [H1 _]%indexOf_Some [H2 _]%indexOf_Some. congruence. Qed.

Lemma same_digits s s' ds ds' :
  Forall2 (fun c d => indexOf BASE32_ALPHABET c = Some d) (chars_of s) ds ->
  Forall2 (fun c d => indexOf BASE32_ALPHABET c = Some d) (chars_of s') ds' ->
  length ds = length ds' -> (forall i, (i < length ds)%nat -> nth i ds 0 = nth i ds' 0) -> s = s'.
Proof.
  intros H H' Hl Hn. apply chars_of_inj. assert (ds = ds') as <- by by apply (nth_ext _ _ 0 0).
  clear Hl Hn. revert ds H H'. generalize (chars_of s), (chars_of s'). intros l. induction l as [|c l IH]; intros l' ds H H'.
  - inversion H; subst. by inversion H'.
  - inversion H; subst. inversion H'; subst. f_equal; [by eapply indexOf_inj|by eapply IH].
Qed.
End Mistyped.

(** A mistyped address is refused: no accepted address becomes another accepted one when one
    character or two neighbours are mistyped, or when two characters anywhere are exchanged. *)
Theorem mistyped_refused s s' k l a b :
  HookData.assertStellarStrKey (Str s) = Ok (Str s) ->
  HookData.assertStellarStrKey (Str s') = Ok (Str s') ->
  is_Some (chars_of s !! l) -> l = S k \/ (chars_of s !! k = Some b /\ chars_of s !! l = Some a) ->
  chars_of s' = <[l := b]> (<[k := a]> (chars_of s)) -> s' = s.
Proof.
  intros Hs Hs' Hl Hkl Heq.
  destruct (accepted_digits _ _ Hs) as (ds & Hds & Hlen & Hd & Hz).
  destruct (accepted_digits _ _ Hs') as (ds' & Hds' & Hlen' & Hd' & Hz').
  pose proof (Forall2_length _ _ _ Hds) as Hcl. apply lookup_lt_is_Some in Hl. rewrite Hcl, Hlen in Hl.
  destruct (decide (k = l)) as [<-|Hne].
  { destruct Hkl as [?|[Hb Ha]]; [lia|]. apply chars_of_inj. rewrite Heq.
    rewrite list_insert_insert_eq. by apply list_insert_id. }
  assert (k < HookData.STRKEY_LEN)%nat as Hk.
  { destruct Hkl as [->|[Hb _]]; [lia|]. apply lookup_lt_Some in Hb. congruence. }
  assert (forall i, i <> k -> i <> l -> nth i ds 0 = nth i ds' 0) as Hsame.
  { intros i Hik Hil. destruct (decide (i < length ds)%nat) as [Hi|Hi];
      [|by rewrite !nth_overflow by lia].
    destruct (digits_nth _ _ i Hds Hi) as (c & Hc & Hcd).
    destruct (digits_nth _ _ i Hds' ltac:(lia)) as (c' & Hc' & Hcd').
    rewrite Heq, !list_lookup_insert_ne, Hc in Hc' by done. injection Hc' as <-. congruence. }
  pose proof (two_wrong ds ds' k l Hlen Hlen' Hd Hd' Hz Hz' Hk Hl Hne Hsame) as Hw.
  set (x := Z.lxor (nth k ds 0) _) in Hw. set (y := Z.lxor (nth l ds 0) _) in Hw.
  assert (x = 0 /\ y = 0) as [Hx Hy].
  { assert (digit x /\ digit y) as [? ?] by (split; apply lxor_digit; by apply nth_digit).
    destruct Hkl as [->|[Hb Ha]]; [by apply (adjacent_apart k)|].
    assert (y = x) as Hyx; [|split; [|rewrite Hyx]; apply (same_apart k l); congruence].
    destruct (digits_nth _ _ k Hds ltac:(lia)) as (? & Hck & Hdk). destruct (digits_nth _ _ l Hds ltac:(lia)) as (? & Hcl' & Hdl).
    destruct (digits_nth _ _ k Hds' ltac:(lia)) as (? & Hck' & Hdk').
    destruct (digits_nth _ _ l Hds' ltac:(lia)) as (? & Hcl'' & Hdl').
    rewrite Heq in Hck', Hcl''. rewrite list_lookup_insert_ne in Hck' by done.
    rewrite list_lookup_insert_eq in Hck' by congruence.
    rewrite list_lookup_insert_eq in Hcl'' by (rewrite length_insert; congruence).
    subst x y. rewrite Z.lxor_comm. f_equal; congruence. }
  symmetry. apply (same_digits s s' ds ds'); [done|done|congruence|]. intros i Hi.
  apply Z.lxor_eq in Hx, Hy. destruct (decide (i = k)) as [->|]; [done|]. destruct (decide (i = l)) as [->|]; auto.
Qed.

Module HookSample.
Definition key : string := "GA7QYNF7SOWQ3GLR2BGMZEHXAVIRZA4KVWLTJJFC7MGXUA74P7UJVSGZ".
(** The third and the fourth character exchanged. *)
Definition typo : string := "GAQ7YNF7SOWQ3GLR2BGMZEHXAVIRZA4KVWLTJJFC7MGXUA74P7UJVSGZ".
End HookSample.

Lemma mistyped_refused_witness :
  HookData.assertStellarStrKey (Str HookSample.key) = Ok (Str HookSample.key) /\
  HookData.assertStellarStrKey (Str HookSample.typo) <> Ok (Str HookSample.typo).
Proof.
  assert (HookData.assertStellarStrKey (Str HookSample.key) = Ok (Str HookSample.key)) as Hk
    by (vm_compute; reflexivity).
  split; [exact Hk|]. intros Ht.
  assert (HookSample.typo = HookSample.key) as H; [|discriminate H].
  refine (mistyped_refused HookSample.key HookSample.typo 2 3 "Q" "7" Hk Ht _ _ _).
  - vm_compute. by eexists.
  - right. split; vm_compute; reflexivity.
  - vm_compute. reflexivity.
Defined.
