(* ===== verification/CanonicalJson.v ===== *)
(** * Canonical JSON of the agent index

    Models the validators and the canonical serialisation at the head of
    [frontend/api/agent-index/models.js]: the requirements on scalar fields, the rejection of
    key material by property name, exact units, and [canonicalJson], on which the digests of
    intents, batches and evidence are computed. *)
From stdpp Require Export sorting.
From S2P Require Export Json.

Module Canonical.

(** The errors, by class; the message of an [Error] without the rendering of the offending
    value. *)
Inductive index_error :=
| Error (message : string)
| ValidationError (message : string)
| TypeError
| SyntaxError.

Definition fails {A} (m : string) : result index_error A := Throw (Error m).

(** ** Field requirements *)
Section Requirements.
Local Open Scope string_scope.

Definition requireString (value : val) (field : string) : result index_error val :=
  match value with
  | Str s => if decide (s = "") then fails (field +:+ " must be a non-empty string") else Ok value
  | _ => fails (field +:+ " must be a non-empty string")
  end.

Definition requireInt (value : val) (field : string) : result index_error val :=
  if is_integer value then Ok value else fails (field +:+ " must be an integer").

Definition requireOneOf (value : val) (options : list string) (field : string)
    : result index_error val :=
  match value with
  | Str s => if decide (s ∈ options) then Ok value else fails (field +:+ " must be one of")
  | _ => fails (field +:+ " must be one of")
  end.

Definition optionalString (value : val) (field : string) : result index_error val :=
  if nullish value then Ok Null else requireString value field.

(** [Number.isSafeInteger(value) && value >= 0] *)
Definition non_negative_safe (value : val) : bool :=
  match value with Number (Num z) => isSafeInteger (Num z) && (0 <=? z)%Z | _ => false end.

Definition optionalNonNegativeSafeInt (value : val) (field : string) : result index_error val :=
  if nullish value then Ok Null
  else if non_negative_safe value then Ok value
  else fails (field +:+ " must be a non-negative safe integer").

(** [/^\d+(\.\d+)?$/] *)
Definition decimal_string (l : chars) : bool :=
  let '(whole, fraction) := split_at "." l in
  all_digits whole && match fraction with None => true | Some f => all_digits f end.

Definition requireDecimalString (value : val) (field : string) : result index_error val :=
  value ← requireString value field;
  if test decimal_string value then Ok value else fails (field +:+ " must be a decimal string").

(** [/^(0|[1-9]\d* )$/] is [is_decimal]. *)
Definition requireUnsignedIntegerString (value : val) (field : string) (positive : bool)
    : result index_error val :=
  value ← requireString value field;
  if negb (test is_decimal value) || (positive && strict_eq value (Str "0"))
  then fails (field +:+ (if positive then " must be a positive" else " must be an unsigned")
              +:+ " integer string")
  else Ok value.
End Requirements.

(** ** Property names *)

(** [key.toLowerCase().replace(/[^a-z0-9]/g, '')] *)
Definition normalized (key : string) : chars :=
  filter (fun c => (is_digit c || in_range 97 122 c) = true) (toLowerCase (chars_of key)).

Definition sensitive_words : list string :=
  ["secret"; "private"; "sessionkey"; "serializedapproval"; "capability"; "bearer"; "leasetoken";
   "walletmaterial"; "authorization"; "apikey"; "approval"; "holder"; "endpoint"; "diagnostic";
   "passkey"; "stack"]%string.

Definition sensitiveKey (key : string) : bool :=
  existsb (fun w => includes (chars_of w) (normalized key)) sensitive_words.

Definition index_key (i : nat) : string := string_of (to_digits (Z.of_nat i)).

Definition path_key (path key : string) : string := path +:+ "."%string +:+ key.

(** Both traversals check each property before the data under it, in [Object.entries]
    order. *)
Fixpoint walk (check : string -> string -> val -> result index_error unit) (path : string)
    (v : val) : result index_error unit :=
  match v with
  | Arr l =>
      (fix go (i : nat) (l : list val) : result index_error unit :=
         match l with
         | [] => Ok tt
         | e :: l =>
             _ ← check path (index_key i) e;
             _ ← walk check (path_key path (index_key i)) e;
             go (S i) l
         end) 0%nat l
  | Obj fs =>
      (fix go (fs : list (string * val)) : result index_error unit :=
         match fs with
         | [] => Ok tt
         | (key, e) :: fs =>
             _ ← check path key e;
             _ ← walk check (path_key path key) e;
             go fs
         end) fs
  | _ => Ok tt
  end.

Definition check_sensitive (path key : string) (e : val) : result index_error unit :=
  if sensitiveKey key
  then fails ("sensitive property rejected at "%string +:+ path_key path key) else Ok tt.

Definition assertNoSensitiveProperties (v : val) : result index_error unit :=
  walk check_sensitive "$"%string v.

Definition units_key (key : string) : bool := endsWith (chars_of "units") (normalized key).

Definition exact_units (e : val) : bool := is_string e && test all_digits e.

Definition check_units (path key : string) (e : val) : result index_error unit :=
  if units_key key && negb (exact_units e)
  then fails (path_key path key +:+ " units must be an exact integer string"%string) else Ok tt.

Definition assertExactUnits (v : val) : result index_error unit := walk check_units "$"%string v.

(** ** Canonical form *)
Definition sort_keys (ks : list string) : list string := merge_sort String.le ks.

Definition unsupported {A} : result index_error A := fails "unsupported JSON value".

(** [Object.fromEntries] of the sorted keys with their canonical values, the first error in
    key order. *)
Definition canonical_fields (ms : list (string * result index_error val))
    : result index_error (list (string * val)) :=
  fields ((fun k => (k, default unsupported (assoc ms k))) <$> sort_keys ms.*1).

Fixpoint canonicalize (v : val) : result index_error val :=
  match v with
  | Null | Str _ | Bool _ => Ok v
  | Number (Num z) =>
      if isSafeInteger (Num z) then Ok v
      else fails "integer JSON values must be safe integers; use an exact string"
  | Number _ => fails "non-finite numbers are not serializable"
  | Double t =>
      if integral_text t
      then fails "integer JSON values must be safe integers; use an exact string"
      else Ok v
  | Arr l =>
      let fix elements l :=
        match l with
        | [] => Ok []
        | e :: l => c ← canonicalize e; cs ← elements l; Ok (c :: cs)
        end in
      Arr <$> elements l
  | Obj fs =>
      let fix members fs :=
        match fs with [] => [] | (k, e) :: fs => (k, canonicalize e) :: members fs end in
      (fun fs => Obj (from_entries fs)) <$> canonical_fields (members fs)
  | Undefined | BigInt _ => unsupported
  end.

Definition canonicalJson (v : val) : result index_error chars :=
  _ ← assertNoSensitiveProperties v;
  _ ← assertExactUnits v;
  c ← canonicalize v;
  match JSON.stringify c with Ok (Some t) => Ok t | _ => Throw TypeError end.

(** ** Specifications *)

(** [P] holds of every property at every depth. *)
Inductive everywhere (P : string -> val -> Prop) : val -> Prop :=
| everywhere_scalar v : is_object v = false -> is_array v = false -> everywhere P v
| everywhere_array l :
    (forall i e, l !! i = Some e -> P (index_key i) e /\ everywhere P e) -> everywhere P (Arr l)
| everywhere_object fs :
    (forall k e, (k, e) ∈ fs -> P k e /\ everywhere P e) -> everywhere P (Obj fs).

(** The same data: objects with the same keys, in any order, and the same data under each. *)
Inductive same_data : val -> val -> Prop :=
| same_scalar v : is_object v = false -> is_array v = false -> same_data v v
| same_array l l' : Forall2 same_data l l' -> same_data (Arr l) (Arr l')
| same_object fs fs' :
    fs.*1 ≡ₚ fs'.*1 ->
    (forall k a b, assoc fs k = Some a -> assoc fs' k = Some b -> same_data a b) ->
    same_data (Obj fs) (Obj fs').

(** The values an object can hold: distinct keys, and numbers whose text is a literal. *)
Inductive well_formed : val -> Prop :=
| wf_scalar v :
    is_object v = false -> is_array v = false ->
    (forall t, v = Double t ->
       JSON.number_literal t = true /\ forallb JSON.number_char t = true
       /\ JSON.number_value t = Double t) ->
    well_formed v
| wf_array l : Forall well_formed l -> well_formed (Arr l)
| wf_object fs :
    NoDup fs.*1 -> Forall (fun f => well_formed f.2) fs -> well_formed (Obj fs).

End Canonical.

(** ** Lemmas *)
Section CanonicalLemmas.
Import Canonical.

(** *** Traversals *)
Lemma walk_Ok check (Q : string -> val -> Prop) :
  (forall p k e, check p k e = Ok tt <-> Q k e) ->
  forall v p, walk check p v = Ok tt <-> everywhere Q v.
Proof.
  intros Hc v. induction v as [| |b|m|t|z|s|l IH|fs IH] using val_tree_ind; intros p;
    try (split; [intros _; by constructor|done]).
  - cbn [walk]. match goal with |- ?g 0%nat l = _ <-> _ => set (go := g) end.
    assert (forall i, go i l = Ok tt <->
              forall j e, l !! j = Some e -> Q (index_key (i + j)) e /\ everywhere Q e) as Hgo.
    { induction IH as [|e l He _ IHl]; intros i.
      - split; [done|]. done.
      - cbn. rewrite bind_Ok. setoid_rewrite bind_Ok. setoid_rewrite (IHl (S i)).
        split.
        + intros ([] & H1 & [] & H2 & H3) [|j] e'.
          * intros [= <-]. rewrite Nat.add_0_r. split; [by apply (Hc p)|by eapply He].
          * cbn. intros Hj. rewrite Nat.add_succ_r. by apply (H3 j).
        + intros H. destruct (H O e eq_refl) as [H1 H2]. rewrite Nat.add_0_r in H1.
          exists tt. split; [by apply Hc|]. exists tt. split; [by apply He|].
          intros j e' Hj. specialize (H (S j) e' Hj). by rewrite Nat.add_succ_r in H. }
    rewrite Hgo. split; [by constructor|]. inversion 1; subst; done.
  - cbn [walk]. match goal with |- ?g fs = _ <-> _ => set (go := g) end.
    assert (go fs = Ok tt <-> forall k e, (k, e) ∈ fs -> Q k e /\ everywhere Q e) as Hgo.
    { induction IH as [|[k e] fs He _ IHl].
      - split; [|done]. intros _ k e []%not_elem_of_nil.
      - cbn. rewrite bind_Ok. setoid_rewrite bind_Ok. setoid_rewrite IHl.
        split.
        + intros ([] & H1 & [] & H2 & H3) k' e' [[= -> ->]|Hin]%elem_of_cons; [|auto].
          split; [by apply (Hc p)|by eapply He].
        + intros H. destruct (H k e ltac:(left)) as [H1 H2].
          exists tt. split; [by apply Hc|]. exists tt. split; [by apply He|].
          intros k' e' Hin. apply H. by right. }
    rewrite Hgo. split; [by constructor|]. inversion 1; subst; done.
Qed.

Lemma assertNoSensitiveProperties_Ok v :
  assertNoSensitiveProperties v = Ok tt <-> everywhere (fun k _ => sensitiveKey k = false) v.
Proof.
  apply walk_Ok. intros p k e. unfold check_sensitive, fails. destruct (sensitiveKey k); naive_solver.
Qed.

Lemma assertExactUnits_Ok v :
  assertExactUnits v = Ok tt
  <-> everywhere (fun k e => units_key k = true -> exact_units e = true) v.
Proof.
  apply walk_Ok. intros p k e. unfold check_units, fails.
  destruct (units_key k), (exact_units e); naive_solver.
Qed.
End CanonicalLemmas.

(** *** Canonical form *)
Section CanonicalForm.
Import Canonical.

Lemma fields_Ok {E} (l : list (string * result E val)) fs :
  fields l = Ok fs <-> Forall2 (fun m f => m.1 = f.1 /\ m.2 = Ok f.2) l fs.
Proof.
  revert fs. induction l as [|[k m] l IH]; intros fs; cbn.
  - split; [intros [= <-]; constructor|]. by inversion 1.
  - rewrite bind_Ok. setoid_rewrite bind_Ok. setoid_rewrite IH. split.
    + intros (v & -> & rest & Hr & [= <-]). by constructor.
    + inversion 1 as [|? [k' v] ? rest [H1 H2] HF]; subst. cbn in *. subst. eauto.
Qed.

Lemma fields_keys {E} (l : list (string * result E val)) fs : fields l = Ok fs -> fs.*1 = l.*1.
Proof. rewrite fields_Ok. induction 1 as [|m f l fs [H _] _ IH]; cbn; congruence. Qed.

Lemma fields_assoc {E} (l : list (string * result E val)) fs k m :
  fields l = Ok fs -> assoc l k = Some m -> exists v, m = Ok v /\ assoc fs k = Some v.
Proof.
  rewrite fields_Ok. induction 1 as [|[k1 m1] [k2 v2] l fs [H1 H2] _ IH]; [done|].
  cbn in *. subst. case_decide; [|auto]. intros [= <-]. eauto.
Qed.

Lemma sort_keys_perm ks : sort_keys ks ≡ₚ ks.
Proof. apply merge_sort_Permutation. Qed.

Lemma sort_keys_unique ks ks' : ks ≡ₚ ks' -> sort_keys ks = sort_keys ks'.
Proof.
  intros Hp. apply (StronglySorted_unique String.le).
  - apply StronglySorted_merge_sort; apply _.
  - apply StronglySorted_merge_sort; apply _.
  - by rewrite !sort_keys_perm.
Qed.

Lemma assoc_tabulate {A} (f : string -> A) ks k :
  k ∈ ks -> assoc ((fun k => (k, f k)) <$> ks) k = Some (f k).
Proof.
  induction ks as [|k' ks IH]; cbn; [by intros ?%not_elem_of_nil|].
  intros Hin. case_decide; [by subst|]. apply IH. set_solver.
Qed.

Lemma keys_tabulate {A} (f : string -> A) (ks : list string) :
  ((fun k => (k, f k)) <$> ks).*1 = ks.
Proof. rewrite <- list_fmap_compose. apply list_fmap_id. Qed.

Lemma canonical_fields_Ok ms fs :
  canonical_fields ms = Ok fs ->
  fs.*1 ≡ₚ ms.*1 /\ forall k m, assoc ms k = Some m -> exists v, m = Ok v /\ assoc fs k = Some v.
Proof.
  intros H. split.
  - apply fields_keys in H. by rewrite H, keys_tabulate, sort_keys_perm.
  - intros k m Hm. eapply fields_assoc in H; [exact H|].
    rewrite assoc_tabulate; [by rewrite Hm|]. rewrite sort_keys_perm.
    apply assoc_In in Hm. by apply (list_elem_of_fmap_2 fst) in Hm.
Qed.

(** Canonicalising an object, with its members computed by [fmap]. *)
Lemma canonicalize_Obj fs :
  canonicalize (Obj fs)
  = (fun fs => Obj (from_entries fs))
      <$> canonical_fields ((fun f => (f.1, canonicalize f.2)) <$> fs).
Proof.
  cbn [canonicalize]. match goal with |- context [canonical_fields (?g fs)] => set (go := g) end.
  replace (go fs) with ((fun f => (f.1, canonicalize f.2)) <$> fs); [done|].
  induction fs as [|[k e] fs IH]; cbn; [done|]. by rewrite <- IH.
Qed.

Lemma canonicalize_Arr l c :
  canonicalize (Arr l) = Ok c <->
  exists cs, c = Arr cs /\ Forall2 (fun e c => canonicalize e = Ok c) l cs.
Proof.
  cbn [canonicalize]. match goal with |- (Arr <$> ?g l) = _ <-> _ => set (go := g) end.
  assert (forall cs, go l = Ok cs <-> Forall2 (fun e c => canonicalize e = Ok c) l cs) as Hgo.
  { induction l as [|e l IH]; intros cs; cbn.
    - split; [intros [= <-]; constructor|]. by inversion 1.
    - rewrite bind_Ok. setoid_rewrite bind_Ok. setoid_rewrite IH. split.
      + intros (v & H & rest & Hr & [= <-]). by constructor.
      + inversion 1; subst. eauto. }
  destruct (go l) as [cs|e] eqn:E; cbn.
  - split; [intros [= <-]; exists cs; split; [done|by apply Hgo]|].
    intros (cs' & -> & H%Hgo). congruence.
  - split; [done|]. intros (cs' & -> & H%Hgo). congruence.
Qed.

Lemma assoc_fmap {A B} (f : A -> B) (fs : list (string * A)) k :
  assoc ((fun x => (x.1, f x.2)) <$> fs) k = f <$> assoc fs k.
Proof. induction fs as [|[k' v] fs IH]; cbn; [done|]. by case_decide. Qed.

Lemma keys_fmap {A B} (f : A -> B) (fs : list (string * A)) :
  ((fun x => (x.1, f x.2)) <$> fs).*1 = fs.*1.
Proof. rewrite <- list_fmap_compose. done. Qed.

(** The canonical form of an object with distinct keys. *)
Lemma canonicalize_object fs c :
  NoDup fs.*1 -> canonicalize (Obj fs) = Ok c ->
  exists gs, c = Obj (own_order gs) /\ NoDup gs.*1 /\ gs.*1 ≡ₚ fs.*1
    /\ forall k v, assoc fs k = Some v ->
         exists w, canonicalize v = Ok w /\ assoc (own_order gs) k = Some w.
Proof.
  intros Hnd. rewrite canonicalize_Obj. intros H.
  destruct (canonical_fields _) as [gs|] eqn:E; [|done]. injection H as <-.
  apply canonical_fields_Ok in E as [Hk Hv]. rewrite keys_fmap in Hk.
  assert (NoDup gs.*1) as Hnd' by (by rewrite Hk).
  exists gs. rewrite from_entries_distinct by done. split_and!; [done..|].
  intros k v Hkv. destruct (Hv k (canonicalize v)) as (w & Hw & Ha).
  - by rewrite assoc_fmap, Hkv.
  - exists w. split; [done|]. rewrite <- Ha. symmetry. apply assoc_perm; [done|].
    by rewrite own_order_perm.
Qed.

Lemma canonicalize_scalar v c :
  is_object v = false -> is_array v = false -> canonicalize v = Ok c -> c = v.
Proof. destruct v as [| |b|[]|t|z|s|l|fs]; try done; cbn; try case_match; unfold fails, unsupported; naive_solver. Qed.

Lemma assoc_Forall {A} (P : string * A -> Prop) (fs : list (string * A)) k v :
  Forall P fs -> assoc fs k = Some v -> P (k, v).
Proof. intros HF Ha. apply assoc_In in Ha. rewrite Forall_forall in HF. exact (HF _ Ha). Qed.

Lemma In_assoc_some {A} (fs : list (string * A)) k : k ∈ fs.*1 -> exists v, assoc fs k = Some v.
Proof.
  intros Hk. destruct (assoc fs k) eqn:E; [eauto|]. by apply assoc_None in E.
Qed.

Lemma canonicalize_same v c : well_formed v -> canonicalize v = Ok c -> same_data v c.
Proof.
  intros Hw. revert c. induction v as [| |b|m|t|z|s|l IH|fs IH] using val_tree_ind; intros c H;
    try (apply canonicalize_scalar in H; [subst|done..]; by constructor).
  - apply canonicalize_Arr in H as (cs & -> & H). constructor.
    inversion Hw as [|? HF|]; subst; [done|]. clear Hw.
    induction H as [|e c l cs He H IHl]; constructor;
      apply Forall_cons in IH as [? ?]; apply Forall_cons in HF as [? ?]; auto.
  - inversion Hw as [| |? Hnd HF]; subst; [done|].
    apply canonicalize_object in H as (gs & -> & Hnd' & Hk & Hv); [|done].
    constructor; [by rewrite own_order_perm|].
    intros k a b Ha Hb. destruct (Hv k a Ha) as (w & Hw' & Hg). simplify_eq.
    pose proof (assoc_Forall _ _ _ _ IH Ha) as IHa; cbn in IHa. pose proof (assoc_Forall _ _ _ _ HF Ha) as HFHa; cbn in HFHa. auto.
Qed.

Lemma canonicalize_wire v c : well_formed v -> canonicalize v = Ok c -> wire c.
Proof.
  intros Hw. revert c. induction v as [| |b|m|t|z|s|l IH|fs IH] using val_tree_ind; intros c H.
  - done.
  - injection H as <-. constructor.
  - injection H as <-. constructor.
  - destruct m; try done. cbn [canonicalize] in H. destruct (isSafeInteger (Num z)) eqn:E; [|done].
    injection H as <-. by constructor.
  - inversion Hw as [v _ _ Ht| |]; subst. destruct (Ht t eq_refl) as (? & ? & ?).
    cbn in H. destruct (integral_text t); [done|]. injection H as <-. by constructor.
  - done.
  - injection H as <-. constructor.
  - apply canonicalize_Arr in H as (cs & -> & H). constructor.
    inversion Hw as [|? HF|]; subst; [done|]. clear Hw.
    induction H as [|e c l cs He H IHl]; constructor;
      apply Forall_cons in IH as [? ?]; apply Forall_cons in HF as [? ?]; auto.
  - inversion Hw as [| |? Hnd HF]; subst; [done|].
    apply canonicalize_object in H as (gs & -> & Hnd' & Hk & Hv); [|done]. constructor.
    + rewrite from_entries_distinct by (by rewrite own_order_perm). apply own_order_idemp.
    + apply Forall_forall. intros [k w] Hin. cbn.
      assert (NoDup (own_order gs).*1) as Hnd2 by (by rewrite own_order_perm).
      pose proof (In_assoc _ _ _ Hnd2 Hin) as Hkw.
      assert (k ∈ fs.*1) as Hkf.
      { rewrite <- Hk, <- (own_order_perm gs). by apply (list_elem_of_fmap_2 fst) in Hin. }
      apply In_assoc_some in Hkf as [v Hkv]. destruct (Hv k v Hkv) as (w' & Hw' & Hg). simplify_eq.
      pose proof (assoc_Forall _ _ _ _ IH Hkv) as IHkv. pose proof (assoc_Forall _ _ _ _ HF Hkv) as HFkv.
      cbn in IHkv, HFkv. auto.
Qed.

(** Canonicalisation does not see the order of keys. *)
Lemma canonicalize_respects v w c :
  same_data v w -> canonicalize v = Ok c -> canonicalize w = Ok c.
Proof.
  revert w c. induction v as [| |b|m|t|z|s|l IH|fs IH] using val_tree_ind;
    intros w c Hs H; inversion Hs as [v' Hso Hsa|l1 l' HF2|fs1 fs' Hk Hd]; subst; try done.
  - apply canonicalize_Arr in H as (cs & -> & H). apply canonicalize_Arr. exists cs.
    split; [done|]. clear Hs. revert l' HF2. induction H as [|e c l cs He H IHl].
    + inversion 1. constructor.
    + intros l' Hl. inversion Hl; subst. apply Forall_cons in IH as [? ?]. constructor; auto.
  - rewrite canonicalize_Obj in *.
    destruct (canonical_fields _) as [gs|] eqn:E in H; [|done]. injection H as <-.
    replace (canonical_fields ((fun f => (f.1, canonicalize f.2)) <$> fs'))
      with (Ok (E := index_error) gs); [done|].
    pose proof E as E'. apply canonical_fields_Ok in E' as [_ Hv].
    rewrite <- E. unfold canonical_fields. rewrite !keys_fmap. rewrite (sort_keys_unique _ _ Hk).
    f_equal. apply list_fmap_ext. intros i k Hin%list_elem_of_lookup_2.
    rewrite sort_keys_perm in Hin. f_equal. rewrite !assoc_fmap.
    destruct (In_assoc_some fs' k Hin) as [b Hb]. rewrite <- Hk in Hin.
    destruct (In_assoc_some fs k Hin) as [a Ha]. rewrite Ha, Hb. cbn.
    destruct (Hv k (canonicalize a)) as (r & Hr & _); [by rewrite assoc_fmap, Ha|].
    rewrite Hr. symmetry. pose proof (assoc_Forall _ _ _ _ IH Ha) as IHa; cbn in IHa. eauto.
Qed.

Lemma everywhere_same (P : string -> val -> Prop) v w :
  (forall k a b, same_data a b -> P k a -> P k b) ->
  well_formed w -> same_data v w -> everywhere P v -> everywhere P w.
Proof.
  intros HP. revert w. induction v as [| |b|m|t|z|s|l IH|fs IH] using val_tree_ind;
    intros w Hw Hs H; inversion Hs as [v' Hso Hsa|l1 l' HF2|fs1 fs' Hk Hd]; subst; try done.
  - apply everywhere_array. intros i e Hi. inversion H as [|? Hl|]; subst; [done|].
    inversion Hw as [|? HF|]; subst; [done|].
    destruct (Forall2_lookup_r _ _ _ _ _ HF2 Hi) as (x & Hx & Hxe).
    destruct (Hl i x Hx) as [HPx Hex]. pose proof (Forall_lookup_1 _ _ _ _ IH Hx).
    pose proof (Forall_lookup_1 _ _ _ _ HF Hi). split; [by eapply HP|auto].
  - apply everywhere_object. intros k b Hb. inversion H as [| |? Hl]; subst; [done|].
    inversion Hw as [| |? Hnd HF]; subst; [done|].
    assert (k ∈ fs.*1) as Hin by (rewrite Hk; by apply (list_elem_of_fmap_2 fst) in Hb).
    apply In_assoc_some in Hin as [a Ha]. pose proof (In_assoc _ _ _ Hnd Hb) as Hb'.
    pose proof (Hd k a b Ha Hb') as Hab. pose proof (assoc_Forall _ _ _ _ IH Ha) as IHa; cbn in IHa.
    pose proof (assoc_Forall _ _ _ _ HF Hb').
    destruct (Hl k a (assoc_In _ _ _ Ha)). split; [by eapply HP|auto].
Qed.

Lemma exact_units_same a b : same_data a b -> exact_units a = true -> exact_units b = true.
Proof. by inversion 1. Qed.
End CanonicalForm.

(** Well-formedness of a closed value. *)
Ltac closed_well_formed :=
  repeat first
    [ apply Canonical.wf_object; [apply (bool_decide_unpack _); vm_compute; exact I|]
    | apply Canonical.wf_array
    | apply Forall_nil_2
    | apply Forall_cons_2
    | apply Canonical.wf_scalar; [reflexivity|reflexivity|
        let t := fresh in let E := fresh in intros t E;
        first [discriminate E | injection E as <-; split_and!; reflexivity]] ].

(** ** Properties *)
Section CanonicalProperties.
Import Canonical.

Lemma canonicalJson_inv v t :
  well_formed v -> canonicalJson v = Ok t ->
  exists c, canonicalize v = Ok c /\ wire c /\ t = print c /\ JSON.parse t = Ok c
    /\ same_data v c
    /\ everywhere (fun k _ => sensitiveKey k = false) v
    /\ everywhere (fun k e => units_key k = true -> exact_units e = true) v.
Proof.
  intros Hw H. unfold canonicalJson in H.
  apply bind_Ok in H as ([] & H1%assertNoSensitiveProperties_Ok & H).
  apply bind_Ok in H as ([] & H2%assertExactUnits_Ok & H).
  apply bind_Ok in H as (c & Hc & H).
  pose proof (canonicalize_wire _ _ Hw Hc) as Hwire.
  rewrite stringify_wire in H by done. injection H as <-.
  exists c. split_and!; try done; [by apply parse_print|by apply canonicalize_same].
Qed.

(** What [canonicalJson] serialises is clean and is the data it was given: parsing the
    text gives the same data back up to the order of keys, no property at any depth is
    named like key material, and every units property is an exact integer string. *)
Theorem canonicalJson_sound (v : val) (t : chars)
    (Hv : well_formed v) (Ht : canonicalJson v = Ok t) :
  (exists c, JSON.parse t = Ok c /\ same_data v c)
  /\ everywhere (fun k _ => sensitiveKey k = false) v
  /\ everywhere (fun k e => units_key k = true -> exact_units e = true) v.
Proof.
  destruct (canonicalJson_inv v t Hv Ht) as (c & _ & _ & _ & ? & ? & ? & ?). eauto.
Qed.

Lemma same_data_sym v w : same_data v w -> same_data w v.
Proof.
  revert w. induction v as [| |b|m|t|z|s|l IH|fs IH] using val_tree_ind;
    intros w Hs; inversion Hs as [v' Hso Hsa|l1 l' HF2|fs1 fs' Hk Hd]; subst; try done.
  - apply same_array. clear Hs. induction HF2 as [|a b l l' Hab _ IHl]; constructor;
      apply Forall_cons in IH as [? ?]; auto.
  - apply same_object; [done|]. intros k a b Ha Hb.
    pose proof (assoc_Forall _ _ _ _ IH Hb) as IHb. cbn in IHb. eauto.
Qed.

Lemma same_data_trans u v w : same_data u v -> same_data v w -> same_data u w.
Proof.
  revert v w. induction u as [| |b|m|t|z|s|l IH|fs IH] using val_tree_ind;
    intros v w Hs Hs2; inversion Hs as [v' Hso Hsa|l1 l' HF2|fs1 fs' Hk Hd]; subst; try done.
  - inversion Hs2 as [|? l'' HF3|]; subst; [done|]. apply same_array. clear Hs Hs2.
    revert l'' HF3. induction HF2 as [|a b l l' Hab _ IHl]; intros l''.
    + by inversion 1.
    + inversion 1; subst. apply Forall_cons in IH as [? ?]. constructor; eauto.
  - inversion Hs2 as [| |? fs'' Hk2 Hd2]; subst; [done|].
    apply same_object; [by rewrite Hk|]. intros k a c Ha Hc.
    assert (k ∈ fs'.*1) as Hin.
    { rewrite <- Hk. apply assoc_In in Ha. by apply (list_elem_of_fmap_2 fst) in Ha. }
    apply In_assoc_some in Hin as [b Hb].
    pose proof (assoc_Forall _ _ _ _ IH Ha) as IHa. cbn in IHa. eauto.
Qed.

(** C39. The canonical text identifies the data: two values have the same canonical text
    exactly when they hold the same data, whatever the order in which their keys were
    written, so a digest of the text identifies the record that was signed. *)
Theorem canonicalJson_identifies (v w : val) (t : chars)
    (Hv : well_formed v) (Hw : well_formed w) (Ht : canonicalJson v = Ok t) :
  canonicalJson w = Ok t <-> same_data v w.
Proof.
  destruct (canonicalJson_inv v t Hv Ht) as (c & Hc & Hwire & Et & Hp & Hs & H1 & H2). split.
  - intros Hwt. destruct (canonicalJson_inv w t Hw Hwt) as (c' & _ & _ & _ & Hp' & Hs' & _).
    assert (c' = c) as -> by congruence.
    eapply same_data_trans; [exact Hs|]. by apply same_data_sym.
  - intros Hvw. unfold canonicalJson.
    assert (assertNoSensitiveProperties w = Ok tt) as ->.
    { apply assertNoSensitiveProperties_Ok. eapply everywhere_same; [|exact Hw|exact Hvw|exact H1]. done. }
    assert (assertExactUnits w = Ok tt) as ->.
    { apply assertExactUnits_Ok. eapply everywhere_same; [|exact Hw|exact Hvw|exact H2].
      intros k a b Hab Hu Hk. eapply exact_units_same; eauto. }
    cbn. rewrite (canonicalize_respects _ _ _ Hvw Hc). cbn.
    by rewrite stringify_wire, Et.
Qed.

Definition sample_intent : val :=
  Obj ["runId" ↦ Str "run-1"; "units" ↦ Str "5000000"; "decimals" ↦ Number (Num 7);
       "nested" ↦ Obj ["b" ↦ Null; "a" ↦ Arr [Bool true; Double (chars_of "0.5")]]]%string.

Definition reordered_intent : val :=
  Obj ["nested" ↦ Obj ["a" ↦ Arr [Bool true; Double (chars_of "0.5")]; "b" ↦ Null];
       "decimals" ↦ Number (Num 7); "units" ↦ Str "5000000"; "runId" ↦ Str "run-1"]%string.

Lemma canonicalJson_sound_witness :
  exists t, canonicalJson sample_intent = Ok t
    /\ everywhere (fun k _ => sensitiveKey k = false) sample_intent.
Proof.
  eexists. split; [vm_compute; reflexivity|].
  eapply canonicalJson_sound; [closed_well_formed|vm_compute; reflexivity].
Defined.

Lemma canonicalJson_identifies_witness : same_data sample_intent reordered_intent.
Proof.
  eapply canonicalJson_identifies; [closed_well_formed|closed_well_formed| |];
    vm_compute; reflexivity.
Defined.

Example canonicalJson_rejects :
  canonicalJson (Obj ["a" ↦ Arr [Obj ["sessionKeyHash" ↦ Null]]]%string)
  = Throw (Error "sensitive property rejected at $.a.0.sessionKeyHash")
  /\ canonicalJson (Obj ["burnUnits" ↦ Number (Num 5)]%string)
  = Throw (Error "$.burnUnits units must be an exact integer string")
  /\ canonicalJson (Number (Num 9007199254740992))
  = Throw (Error "integer JSON values must be safe integers; use an exact string").
Proof. vm_compute. auto. Qed.
End CanonicalProperties.
