(* ===== verification/BaseEvidence.v ===== *)
(** * Evidence of the Base child phases

    Models [validateBaseChildPhaseEvidence] of [frontend/api/agent-index/models.js] with its
    tables: the evidence a recovery event may and must carry in each phase and state, the
    canonical form of its addresses, hashes and integers, and its depth and size bounds. *)
From S2P Require Export CanonicalJson.

Module Evidence.
Import Canonical.

Section Strings.
Local Open Scope string_scope.
Local Open Scope list_scope.

Definition MAX_BASE_CHILD_EVIDENCE_BYTES : Z := 4096%Z.
Definition MAX_BASE_CHILD_EVIDENCE_DEPTH : Z := 2%Z.
Definition BASE_RECONCILE_ENTRY_POINT : string := "0x0000000071727de22e5e9d8baf0edac6f37da032".

Definition BASE_RECONCILE_HANDLE_FIELDS : list string :=
  ["entryPoint"; "sender"; "nonce"; "startBlock"].

Definition BASE_CHILD_PHASE_EVIDENCE_FIELDS : list (string * list string) :=
  [("cctp_burn",
    ["burnTxHash"; "expectationDigest"; "burnUnits7"; "amount"; "token"; "units"; "decimals";
     "destinationDomain"; "messageDigest"; "messageHash"; "nonce"; "mintRecipient"; "reasonCode"]);
   ("cctp_attestation",
    ["burnTxHash"; "expectationDigest"; "messageDigest"; "attestationDigest"; "nonce";
     "evidenceVersion"; "messageHash"; "attestationHash"; "reasonCode"]);
   ("cctp_mint",
    ["burnTxHash"; "expectationDigest"; "messageDigest"; "attestationDigest"; "evidenceVersion";
     "nonce"; "mintTxHash"; "transactionHash"; "blockNumber"; "blockHash"; "chainId";
     "reasonCode"]);
   ("base_deposit",
    ["chainId"; "yieldRouterAddress"; "kernelAddress"; "caller"; "poolAddress"; "assets";
     "minShares"; "shares"; "userOpHash"; "transactionHash"; "blockNumber"; "blockHash";
     "reconcileHandle"; "reasonCode"; "custodyLocation"; "kernelCustodyConfirmed"; "custody";
     "event"])].

Definition BASE_DEPOSIT_EVENT_FIELDS : list string :=
  ["address"; "topic0"; "logIndex"; "caller"; "poolAddress"; "assets"; "shares"].

Definition BASE_COMMON_FIELDS : list string :=
  ["chainId"; "yieldRouterAddress"; "caller"; "poolAddress"; "assets"; "minShares"].

(** The states of [cctp_attestation] other than [confirmed]. *)
Definition attestation_fields (state : string) : list string :=
  (["burnTxHash"; "expectationDigest"; "messageDigest"; "nonce"]
   ++ (if decide (state = "failed" \/ state = "blocked") then ["reasonCode"] else [])).

Definition BASE_CHILD_PHASE_STATE_FIELDS : list (string * list string) :=
  ([("cctp_burn:submitted", ["burnTxHash"; "expectationDigest"; "burnUnits7"]);
    ("cctp_burn:confirmed", ["burnTxHash"; "expectationDigest"; "burnUnits7"]);
    ("cctp_burn:unknown", ["burnTxHash"; "expectationDigest"; "burnUnits7"; "reasonCode"]);
    ("cctp_burn:failed", ["reasonCode"]);
    ("cctp_burn:blocked", ["reasonCode"]);
    ("cctp_attestation:confirmed",
     ["burnTxHash"; "expectationDigest"; "messageDigest"; "attestationDigest";
      "evidenceVersion"])]
   ++ ((fun state => ("cctp_attestation:" +:+ state, attestation_fields state))
         <$> ["submitting"; "submitted"; "failed"; "unknown"; "blocked"])
   ++ [("cctp_mint:confirmed",
        ["burnTxHash"; "expectationDigest"; "messageDigest"; "attestationDigest";
         "evidenceVersion"; "mintTxHash"]);
       ("cctp_mint:submitted",
        ["burnTxHash"; "expectationDigest"; "messageDigest"; "attestationDigest"; "nonce";
         "evidenceVersion"]);
       ("cctp_mint:submitting",
        ["burnTxHash"; "expectationDigest"; "messageDigest"; "attestationDigest"; "nonce"]);
       ("cctp_mint:unknown",
        ["burnTxHash"; "expectationDigest"; "messageDigest"; "attestationDigest"; "nonce"]);
       ("cctp_mint:failed",
        ["burnTxHash"; "expectationDigest"; "messageDigest"; "attestationDigest"; "nonce";
         "reasonCode"]);
       ("cctp_mint:blocked",
        ["burnTxHash"; "expectationDigest"; "messageDigest"; "attestationDigest"; "nonce";
         "reasonCode"]);
       ("base_deposit:submitting", BASE_COMMON_FIELDS);
       ("base_deposit:submitted", BASE_COMMON_FIELDS ++ ["userOpHash"]);
       ("base_deposit:confirmed",
        BASE_COMMON_FIELDS ++ ["shares"; "userOpHash"; "transactionHash"; "event"]);
       ("base_deposit:failed",
        BASE_COMMON_FIELDS ++ ["userOpHash"; "transactionHash"; "reasonCode"]);
       ("base_deposit:blocked", BASE_COMMON_FIELDS ++ ["reasonCode"]);
       ("base_deposit:unknown", BASE_COMMON_FIELDS)]).

Definition LOWER_ADDRESS_RE : chars -> bool := is_0x_hex 40.
Definition LOWER_EVM_HASH_RE : chars -> bool := is_0x_hex 64.
Definition LOWER_BARE_DIGEST_RE : chars -> bool := is_hex 64.
Definition LOWER_CCTP_DIGEST_RE : chars -> bool := is_0x_hex 64.

Definition EXACT_EVIDENCE_INTEGER_FIELDS : list string :=
  ["burnUnits7"; "amount"; "units"; "decimals"; "destinationDomain"; "evidenceVersion"; "nonce";
   "blockNumber"; "chainId"; "assets"; "minShares"; "shares"; "logIndex"; "startBlock"].

(** [{ location, confirmed }] *)
Definition custody_valid (entry : val) : bool :=
  is_object entry
  && forallb (fun k => bool_decide (k ∈ ["location"; "confirmed"])) (keys entry)
  && is_string entry#"location" && is_boolean entry#"confirmed".

Definition handle_shape_valid (entry : val) : bool :=
  is_object entry
  && (length (keys entry) =? length BASE_RECONCILE_HANDLE_FIELDS)%nat
  && forallb (fun k => bool_decide (k ∈ BASE_RECONCILE_HANDLE_FIELDS)) (keys entry)
  && is_string entry#"entryPoint" && is_string entry#"sender"
  && is_string entry#"nonce" && is_string entry#"startBlock".

Definition scalar_evidence (entry : val) : bool :=
  match entry with Null | Str _ | Bool _ => true | _ => false end.

(** One property of the evidence; [nested] validates the deposit event. *)
Definition exact_entry (nested : result index_error unit) (allowed : list string)
    (path key : string) (entry : val) : result index_error unit :=
  if negb (bool_decide (key ∈ allowed))
  then fails (path_key path key +:+ " is not allowlisted evidence")
  else if bool_decide (key ∈ EXACT_EVIDENCE_INTEGER_FIELDS) then
    if bool_decide (key = "nonce") && is_string entry && test (is_0x_hex 64) entry then Ok tt
    else _ ← requireUnsignedIntegerString entry (path_key path key) false; Ok tt
  else if bool_decide (key = "event") then nested
  else if bool_decide (key = "custody") then
    if custody_valid entry then Ok tt else fails (path +:+ ".custody is invalid")
  else if bool_decide (key = "reconcileHandle") then
    if handle_shape_valid entry then Ok tt else fails (path +:+ ".reconcileHandle is invalid")
  else if scalar_evidence entry then Ok tt
  else fails (path_key path key +:+ " must be a bounded JSON scalar").

(** [required] is the set of fields that must be present, none when [requireAll] is off. *)
Fixpoint exactEvidenceObject (value : val) (allowed : list string) (path : string)
    (required : list string) : result index_error unit :=
  match value with
  | Obj fs =>
      _ ← (fix go (l : list (string * val)) : result index_error unit :=
             match l with
             | [] => Ok tt
             | (key, entry) :: l =>
                 _ ← exact_entry
                       (exactEvidenceObject entry BASE_DEPOSIT_EVENT_FIELDS (path +:+ ".event")
                          BASE_DEPOSIT_EVENT_FIELDS)
                       allowed path key entry;
                 go l
             end) fs;
      match filter (fun key => has_own value key = false) required with
      | missing :: _ => fails (path_key path missing +:+ " is required evidence")
      | [] => Ok tt
      end
  | _ => fails (path +:+ " must be an evidence object")
  end.

(** Objects and arrays may be nested once under the evidence itself. *)
Fixpoint assertEvidenceDepth (value : val) (depth : Z) : result index_error unit :=
  match value with
  | Arr l =>
      if (depth >? MAX_BASE_CHILD_EVIDENCE_DEPTH)%Z
      then fails "Base child evidence exceeds the depth limit"
      else (fix go (l : list val) : result index_error unit :=
              match l with
              | [] => Ok tt
              | entry :: l => _ ← assertEvidenceDepth entry (depth + 1); go l
              end) l
  | Obj fs =>
      if (depth >? MAX_BASE_CHILD_EVIDENCE_DEPTH)%Z
      then fails "Base child evidence exceeds the depth limit"
      else (fix go (fs : list (string * val)) : result index_error unit :=
              match fs with
              | [] => Ok tt
              | (_, entry) :: fs => _ ← assertEvidenceDepth entry (depth + 1); go fs
              end) fs
  | _ => Ok tt
  end.

(** The fields a state may carry besides those it must. *)
Definition extra_fields (phase state : string) : list string :=
  (if decide (phase = "cctp_mint" /\ (state = "submitted" \/ state = "unknown"))
   then ["mintTxHash"] else [])
  ++ (if decide (phase = "cctp_burn" /\ state = "confirmed")
      then ["messageDigest"; "nonce"] else [])
  ++ (if decide (phase = "cctp_attestation" /\ state = "confirmed") then ["nonce"] else [])
  ++ (if decide (phase = "cctp_mint" /\ state = "confirmed") then ["nonce"] else [])
  ++ (if decide (phase = "base_deposit" /\ state = "unknown")
      then ["userOpHash"; "transactionHash"; "reasonCode"] else [])
  ++ (if decide (phase = "base_deposit" /\ state = "failed")
      then ["custodyLocation"; "kernelCustodyConfirmed"; "custody"] else [])
  ++ (if decide (phase = "base_deposit" /\ state = "blocked")
      then ["userOpHash"; "transactionHash"; "kernelCustodyConfirmed"; "custodyLocation";
            "custody"] else [])
  ++ (if decide (phase = "base_deposit") then ["kernelAddress"; "reconcileHandle"] else []).

(** [for (const field of fields) if (bad(field)) throw] *)
Fixpoint each (fields : list string) (ok : string -> bool) (error : string -> string)
    : result index_error unit :=
  match fields with
  | [] => Ok tt
  | f :: fields => if ok f then each fields ok error else fails (error f)
  end.

(** [!hasOwnProperty(evidence, field) || re.test(evidence[field])] *)
Definition if_present (re : chars -> bool) (evidence : val) (field : string) : bool :=
  negb (has_own evidence field) || test re (get evidence field).

Definition handle_valid (evidence : val) : bool :=
  let handle := evidence#"reconcileHandle" in
  strict_eq handle#"entryPoint" (Str BASE_RECONCILE_ENTRY_POINT)
  && test LOWER_ADDRESS_RE handle#"entryPoint"
  && test LOWER_ADDRESS_RE handle#"sender"
  && negb (strict_eq handle#"sender" (Str "0x0000000000000000000000000000000000000000"))
  && strict_eq handle#"sender" evidence#"caller"
  && test is_decimal handle#"nonce" && test is_decimal handle#"startBlock".

Definition bad (what : string) (field : string) : string :=
  "event.evidence." +:+ field +:+ " must be a canonical " +:+ what.

(** The deposit event, when there is one. *)
Definition check_event (event : val) : result index_error unit :=
  if truthy event then
    _ ← each ["address"; "caller"; "poolAddress"]
          (fun field => test LOWER_ADDRESS_RE (get event field))
          (fun field => bad "address" ("event." +:+ field));
    if test LOWER_EVM_HASH_RE event#"topic0" then Ok tt
    else fails (bad "hash" "event.topic0")
  else Ok tt.

(** The checks on the form of the fields, after those on their presence. *)
Definition check_forms (evidence : val) : result index_error unit :=
  _ ← each ["yieldRouterAddress"; "caller"; "poolAddress"; "kernelAddress"]
        (if_present LOWER_ADDRESS_RE evidence) (bad "address");
  _ ← (if truthy evidence#"reconcileHandle" && negb (handle_valid evidence)
       then fails "event.evidence.reconcileHandle is invalid" else Ok tt);
  _ ← each ["userOpHash"; "transactionHash"; "mintTxHash"]
        (fun field => strict_eq (get evidence field) Null
                      || if_present LOWER_EVM_HASH_RE evidence field) (bad "hash");
  _ ← each ["burnTxHash"; "expectationDigest"]
        (if_present LOWER_BARE_DIGEST_RE evidence) (bad "digest");
  _ ← each ["messageDigest"; "attestationDigest"]
        (if_present LOWER_CCTP_DIGEST_RE evidence) (bad "0x-prefixed digest");
  _ ← check_event evidence#"event";
  if truthy evidence#"custody" && negb (custody_valid evidence#"custody")
  then fails "event.evidence.custody is invalid" else Ok tt.

(** [new TextEncoder().encode(text).byteLength]: a code unit from 128 to 255 takes two
    bytes. *)
Definition utf8_length (text : chars) : Z :=
  sumZ ((fun c => if (code c <? 128)%Z then 1 else 2) <$> text).

Definition validateBaseChildPhaseEvidence (phase state evidence : val)
    : result index_error chars :=
  match phase with
  | Str p =>
      match assoc BASE_CHILD_PHASE_EVIDENCE_FIELDS p with
      | None => fails "Base child evidence phase is unsupported"
      | Some _ =>
          let s := string_of (coerce state) in
          match assoc BASE_CHILD_PHASE_STATE_FIELDS (p +:+ ":" +:+ s) with
          | None => fails "Base child evidence phase/state is unsupported"
          | Some required =>
              (* the state is compared with string literals, by [===] *)
              let stateAllowed :=
                (required ++ extra_fields p (if is_string state then s else "")) in
              _ ← assertNoSensitiveProperties evidence;
              _ ← assertEvidenceDepth evidence 1;
              _ ← exactEvidenceObject evidence stateAllowed "event.evidence" required;
              _ ← check_forms evidence;
              evidenceJson ← canonicalJson evidence;
              if (utf8_length evidenceJson >? MAX_BASE_CHILD_EVIDENCE_BYTES)%Z
              then fails "Base child evidence exceeds the payload size limit"
              else Ok evidenceJson
          end
      end
  | _ => fails "Base child evidence phase is unsupported"
  end.
End Strings.
End Evidence.

(** ** Lemmas *)
Section EvidenceLemmas.
Import Canonical Evidence.

Lemma each_Ok fields ok error :
  each fields ok error = Ok tt <-> forall f, f ∈ fields -> ok f = true.
Proof.
  induction fields as [|f fields IH]; cbn.
  - split; [|done]. intros _ f []%not_elem_of_nil.
  - destruct (ok f) eqn:E.
    + rewrite IH. split; [|set_solver]. intros H g [->|?]%elem_of_cons; auto.
    + split; [done|]. intros H. rewrite H in E; [done|left].
Qed.

Lemma exactEvidenceObject_Ok v allowed path required :
  exactEvidenceObject v allowed path required = Ok tt ->
  exists fs, v = Obj fs
    /\ (forall k e, (k, e) ∈ fs ->
          exact_entry (exactEvidenceObject e BASE_DEPOSIT_EVENT_FIELDS (path +:+ ".event"%string)
                         BASE_DEPOSIT_EVENT_FIELDS) allowed path k e = Ok tt)
    /\ (forall k, k ∈ required -> has_own v k = true).
Proof.
  destruct v as [| |b|m|t|z|s|l|fs]; try done. cbn [exactEvidenceObject].
  intros ([] & Hgo & Hr)%bind_Ok. exists fs. split_and!; [done| |].
  - clear Hr. induction fs as [|[k e] fs IH]; [by intros ? ? []%not_elem_of_nil|].
    apply bind_Ok in Hgo as ([] & He & Hgo).
    intros k' e' [[= -> ->]|Hin]%elem_of_cons; [done|]. by apply IH.
  - intros k Hk. destruct (filter _ required) as [|x l] eqn:E; [|done].
    destruct (has_own (Obj fs) k) eqn:Ho; [done|].
    assert (k ∈ filter (fun key => has_own (Obj fs) key = false) required) as Hf
      by (by apply list_elem_of_filter).
    rewrite E in Hf. by apply not_elem_of_nil in Hf.
Qed.

(** Nesting: a scalar has depth 0. *)
Fixpoint depth (v : val) : Z :=
  match v with
  | Arr l => 1 + foldr Z.max 0 (depth <$> l)
  | Obj fs => 1 + foldr Z.max 0 ((fun f => depth f.2) <$> fs)
  | _ => 0
  end.

Lemma assertEvidenceDepth_Ok v d :
  0 < d <= 3 -> assertEvidenceDepth v d = Ok tt -> depth v <= 3 - d.
Proof.
  assert (forall d, fails (A := unit) d <> Ok tt) as Hf by done.
  revert d. induction v as [| |b|m|t|z|s|l IH|fs IH] using val_tree_ind; intros d Hd H;
    try (cbn; lia); cbn in H; rewrite Z.gtb_ltb in H;
    destruct (Z.ltb_spec MAX_BASE_CHILD_EVIDENCE_DEPTH d) as [|Hm]; try done;
    unfold MAX_BASE_CHILD_EVIDENCE_DEPTH in Hm; cbn [depth].
  - enough (foldr Z.max 0 (depth <$> l) <= 3 - (d + 1)) by lia.
    induction IH as [|e l He _ IHl]; cbn; [lia|].
    apply bind_Ok in H as ([] & H1 & H2). apply He in H1; [|lia]. specialize (IHl H2).
    cbn in *. lia.
  - enough (foldr Z.max 0 ((fun f => depth f.2) <$> fs) <= 3 - (d + 1)) by lia.
    induction IH as [|[k e] l He _ IHl]; cbn; [lia|].
    apply bind_Ok in H as ([] & H1 & H2). apply He in H1; [|lia]. specialize (IHl H2).
    cbn in *. lia.
Qed.

Lemma not_integer_field k :
  k = "custody"%string \/ k = "event"%string -> k ∉ EXACT_EVIDENCE_INTEGER_FIELDS.
Proof. by intros [-> | ->]; apply (bool_decide_unpack _). Qed.

Lemma exact_entry_Ok nested allowed path k e :
  exact_entry nested allowed path k e = Ok tt ->
  k ∈ allowed
  /\ (k ∈ EXACT_EVIDENCE_INTEGER_FIELDS ->
      exists s, e = Str s /\ (is_decimal (chars_of s) = true
                              \/ (k = "nonce"%string /\ is_0x_hex 64 (chars_of s) = true)))
  /\ (k = "custody"%string -> custody_valid e = true)
  /\ (k = "event"%string -> nested = Ok tt).
Proof.
  unfold exact_entry. case_bool_decide as Ha; [|done]. cbn [negb].
  case_bool_decide as Hi.
  - intros H. split_and!; [done| |..].
    + intros _. destruct (bool_decide (k = "nonce"%string) && is_string e && test (is_0x_hex 64) e)
        eqn:E.
      * apply andb_prop in E as [[En%bool_decide_eq_true Es]%andb_prop Et].
        destruct e; try done. eauto.
      * apply bind_Ok in H as (v & Hv & _). unfold requireUnsignedIntegerString in Hv.
        apply bind_Ok in Hv as (w & Hw & Hv). unfold requireString in Hw.
        destruct e as [| | | | | |s| |]; try done. exists s. split; [done|]. left.
        case_decide; [done|]. injection Hw as <-. cbn in Hv. unfold test in Hv. cbn in Hv.
        destruct (is_decimal (chars_of s)); done.
    + intros ->. exfalso. revert Hi. apply not_integer_field. auto.
    + intros ->. exfalso. revert Hi. apply not_integer_field. auto.
  - intros H. split_and!; [done|done|..].
    + intros ->. cbn in H. destruct (custody_valid e); done.
    + intros ->. done.
Qed.
End EvidenceLemmas.

(** ** Properties *)
Section EvidenceProperties.
Import Canonical Evidence.
Local Open Scope string_scope.
Local Open Scope list_scope.

(** What an accepted piece of evidence satisfies. *)
Record accepted (p s : string) (ev : val) (json : chars) : Prop := {
  acc_fields : exists required,
    assoc BASE_CHILD_PHASE_STATE_FIELDS (p +:+ ":" +:+ s) = Some required
    /\ (forall k, k ∈ required -> has_own ev k = true)
    /\ (forall k, k ∈ keys ev -> k ∈ required ++ extra_fields p s);
  acc_integers : forall k e, (k, e) ∈ entries ev -> k ∈ EXACT_EVIDENCE_INTEGER_FIELDS ->
    exists n, e = Str n /\ (is_decimal (chars_of n) = true
                            \/ (k = "nonce" /\ is_0x_hex 64 (chars_of n) = true));
  acc_addresses : forall k, k ∈ ["yieldRouterAddress"; "caller"; "poolAddress"; "kernelAddress"] ->
    has_own ev k = true -> test LOWER_ADDRESS_RE (get ev k) = true;
  acc_hashes : forall k, k ∈ ["userOpHash"; "transactionHash"; "mintTxHash"] ->
    has_own ev k = true -> get ev k = Null \/ test LOWER_EVM_HASH_RE (get ev k) = true;
  acc_handle : truthy ev#"reconcileHandle" = true -> handle_valid ev = true;
  acc_depth : depth ev <= 2;
  acc_size : utf8_length json <= MAX_BASE_CHILD_EVIDENCE_BYTES;
  acc_clean : everywhere (fun k _ => sensitiveKey k = false) ev;
  acc_json : canonicalJson ev = Ok json;
}.

Lemma validate_inv phase s ev json :
  validateBaseChildPhaseEvidence phase (Str s) ev = Ok json ->
  exists p required, phase = Str p
    /\ assoc BASE_CHILD_PHASE_STATE_FIELDS (p +:+ ":" +:+ s) = Some required
    /\ assertNoSensitiveProperties ev = Ok tt /\ assertEvidenceDepth ev 1 = Ok tt
    /\ exactEvidenceObject ev (required ++ extra_fields p s) "event.evidence" required = Ok tt
    /\ check_forms ev = Ok tt /\ canonicalJson ev = Ok json
    /\ utf8_length json <= MAX_BASE_CHILD_EVIDENCE_BYTES.
Proof.
  unfold validateBaseChildPhaseEvidence. destruct phase as [| | | | | |p| |]; try done.
  destruct (assoc BASE_CHILD_PHASE_EVIDENCE_FIELDS p); [|done]. cbn [coerce is_string].
  rewrite string_of_chars_of.
  destruct (assoc BASE_CHILD_PHASE_STATE_FIELDS _) as [required|] eqn:E; [|done].
  intros ([] & H1 & ([] & H2 & ([] & H3 & ([] & H4 & (j & H5 & H6)%bind_Ok)%bind_Ok)%bind_Ok)%bind_Ok)%bind_Ok.
  rewrite Z.gtb_ltb in H6. destruct (Z.ltb_spec MAX_BASE_CHILD_EVIDENCE_BYTES (utf8_length j)); [done|].
  injection H6 as <-. exists p, required. done.
Qed.

Lemma check_forms_inv ev :
  check_forms ev = Ok tt ->
  (forall k, k ∈ ["yieldRouterAddress"; "caller"; "poolAddress"; "kernelAddress"] ->
     if_present LOWER_ADDRESS_RE ev k = true)
  /\ (truthy ev#"reconcileHandle" = true -> handle_valid ev = true)
  /\ (forall k, k ∈ ["userOpHash"; "transactionHash"; "mintTxHash"] ->
        strict_eq (get ev k) Null || if_present LOWER_EVM_HASH_RE ev k = true).
Proof.
  unfold check_forms. intros ([] & H1 & H)%bind_Ok. apply bind_Ok in H as ([] & H2 & H).
  apply bind_Ok in H as ([] & H3 & _). rewrite each_Ok in H1, H3. split_and!; [done| |done].
  intros Ht. rewrite Ht in H2. cbn in H2. by destruct (handle_valid ev).
Qed.

(** Accepted evidence is exact: it carries every field its phase and state require and
    no field they do not allow, its integers are canonical unsigned decimals (a nonce may
    also be a hash), its addresses and hashes are canonical, a reconciliation handle names
    the entry point and the caller, nothing is nested more than once, no property is named
    like key material, and its canonical text fits in 4096 bytes. *)
Theorem evidence_accepted (phase : val) (s : string) (ev : val) (json : chars)
    (Hok : validateBaseChildPhaseEvidence phase (Str s) ev = Ok json) :
  exists p, phase = Str p /\ accepted p s ev json.
Proof.
  destruct (validate_inv _ _ _ _ Hok) as (p & required & -> & Hreq & H1 & H2 & H3 & H4 & H5 & H6).
  exists p. split; [done|].
  apply exactEvidenceObject_Ok in H3 as (fs & -> & Hin & Hall).
  apply check_forms_inv in H4 as (Ha & Hh & Hx).
  split; try done.
  - exists required. split_and!; [done..|]. intros k Hk. cbn in Hk.
    apply list_elem_of_fmap in Hk as ([k' e] & -> & Hke). cbn.
    by apply Hin, exact_entry_Ok in Hke as [? _].
  - intros k e Hke Hk. apply Hin, exact_entry_Ok in Hke as (_ & Hi & _). auto.
  - intros k Hk Ho. specialize (Ha k Hk). unfold if_present in Ha. by rewrite Ho in Ha.
  - intros k Hk Ho. specialize (Hx k Hk). unfold if_present in Hx. rewrite Ho in Hx.
    cbn [negb orb] in Hx. apply orb_prop in Hx as [Hx|Hx]; [|by right]. left.
    by destruct (get (Obj fs) k) as [| | |[]| | | | |].
  - apply assertEvidenceDepth_Ok in H2; lia.
  - by apply assertNoSensitiveProperties_Ok.
Qed.

Definition sample_hash : string :=
  "0xaaaaaaaaaaaaaaaaaaaaaaaaaaaaaaaaaaaaaaaaaaaaaaaaaaaaaaaaaaaaaaaa".
Definition sample_address : string := "0x00000000000000000000000000000000000000aa".

Definition sample_deposit : val :=
  Obj ["chainId" ↦ Str "84532"; "yieldRouterAddress" ↦ Str sample_address;
       "caller" ↦ Str sample_address; "poolAddress" ↦ Str sample_address;
       "assets" ↦ Str "1000000"; "minShares" ↦ Str "0"; "userOpHash" ↦ Str sample_hash].

Lemma evidence_accepted_witness :
  exists json p, Str "base_deposit" = Str p
    /\ accepted p "submitted" sample_deposit json.
Proof.
  eexists. eapply (evidence_accepted (Str "base_deposit") "submitted" sample_deposit).
  vm_compute. reflexivity.
Defined.

(** A missing hash, a field of another state, a fractional amount and a sensitive name are
    refused. *)
Example evidence_rejected :
  let extend f := match sample_deposit with Obj fs => Obj (f :: fs) | v => v end in
  (fun '(s, ev) => match validateBaseChildPhaseEvidence (Str "base_deposit") (Str s) ev with
                   | Ok _ => EmptyString | Throw (Error m) => m | Throw _ => "other" end)
    <$> [("submitting", sample_deposit); ("confirmed", sample_deposit);
         ("submitted", extend ("shares" ↦ Str "1.5")); ("submitted", extend ("apiKey" ↦ Null));
         ("missing", sample_deposit)]
  = ["event.evidence.userOpHash is not allowlisted evidence";
     "event.evidence.shares is required evidence";
     "event.evidence.shares is not allowlisted evidence";
     "sensitive property rejected at $.apiKey";
     "Base child evidence phase/state is unsupported"].
Proof. vm_compute. reflexivity. Qed.
End EvidenceProperties.
