(* ===== verification/IndexRows.v ===== *)
(** * Rows of the agent index

    Models the mapping between records and table rows of
    [frontend/api/agent-index/models.js]: each [to...Row] validates a record into the columns
    the store binds, each [parse...Row] reads a row back.  SHA-256, of [node:crypto], is a
    parameter. *)
From S2P Require Export CanonicalJson BaseEvidence.

Module Rows.
Import Canonical Evidence.

Section Strings.
Local Open Scope string_scope.
Local Open Scope list_scope.

(** ** Vocabulary *)
Definition AGENT_KINDS := ["deposit"; "bridge"; "unknown"].
Definition CUSTODY_LOCATIONS :=
  ["owner"; "agent"; "stellar-vault"; "in-transit"; "base-proxy"; "unknown"].
Definition EXECUTION_STATUSES :=
  ["queued"; "accepted"; "burn-confirmed"; "minted"; "deposited"; "held"; "failed"].
Definition BACKFILL_RESULTS := ["verified"; "failed"].
Definition RECEIPT_PHASES :=
  ["pull"; "stellar_deposit"; "cctp_burn"; "cctp_mint"; "base_deposit"].
Definition RECEIPT_PHASE_STATUSES :=
  ["not_started"; "submitted"; "confirmed"; "failed"; "unknown"].
Definition RECEIPT_CUSTODY_LOCATIONS :=
  ["owner"; "stellar-agent"; "stellar-vault"; "cctp-transit"; "base-kernel"; "base-vault";
   "unknown"].
Definition BASE_CHILD_LIFECYCLE_STATUSES :=
  ["planned"; "submitted"; "confirmed"; "failed"; "unknown"].
Definition BASE_CHILD_RECOVERY_PHASES :=
  ["cctp_burn"; "cctp_attestation"; "cctp_mint"; "base_deposit"].
Definition BASE_CHILD_RECOVERY_STATES :=
  ["submitting"; "submitted"; "confirmed"; "failed"; "unknown"; "blocked"].

Definition sourceIdFor (source : val) : result index_error string :=
  networkId ← requireString source#"networkId" "networkId";
  creatorAddress ← requireString source#"creatorAddress" "creatorAddress";
  Ok (string_of (coerce networkId ++ ":"%char :: coerce creatorAddress)).

(** [JSON.stringify(v)] and [JSON.parse(v)] as values. *)
Definition stringified (v : val) : result index_error val :=
  match JSON.stringify v with
  | Ok (Some t) => Ok (Str (string_of t))
  | Ok None => Ok Undefined
  | Throw _ => Throw TypeError
  end.

Definition parsed (v : val) : result index_error val :=
  match JSON.parse (coerce v) with Ok v => Ok v | Throw _ => Throw SyntaxError end.

Definition canonical (v : val) : result index_error val :=
  (fun t => Str (string_of t)) <$> canonicalJson v.

(** ** Execution receipts *)
Definition requireAmount (amount : val) (field : string) : result index_error val :=
  if negb (is_object amount) then fails (field +:+ " must be an object")
  else
    object [
      "token" ↦ requireString amount#"token" (field +:+ ".token");
      "units" ↦ (units ← requireString amount#"units" (field +:+ ".units");
                 if test all_digits units then Ok units
                 else fails (field +:+ ".units must be an exact integer string"));
      "decimals" ↦ (decimals ← requireInt amount#"decimals" (field +:+ ".decimals");
                    if (integer_of decimals <? 0)%Z
                    then fails (field +:+ ".decimals must be non-negative")
                    else Ok decimals)
    ].

(** [custody.amount == null ? null : requireAmount(...)] *)
Definition optionalAmount (amount : val) (field : string) : result index_error val :=
  if nullish amount then Ok Null else requireAmount amount field.

Definition toExecutionReceiptRow (record intentDigest : val) : result index_error val :=
  let r := or_empty record in
  if negb (strict_eq r#"version" (Number (Num 2))) then fails "receipt.version must be 2"
  else
    _ ← assertNoSensitiveProperties r;
    _ ← assertExactUnits r;
    let phases := or_empty r#"phases" in
    let custody := or_empty r#"custody" in
    amount ← optionalAmount custody#"amount" "custody.amount";
    if negb (is_boolean custody#"confirmed") then fails "custody.confirmed must be boolean"
    else
      object [
        "network_id" ↦ requireString r#"networkId" "networkId";
        "execution_id" ↦ requireString r#"executionId" "executionId";
        "allocation_id" ↦ requireString r#"allocationId" "allocationId";
        "receipt_format" ↦ Ok (Number (Num 2));
        "owner_address" ↦ requireString r#"owner" "owner";
        "run_id" ↦ requireString r#"runId" "runId";
        "parent_allocation_id" ↦ optionalString r#"parentAllocationId" "parentAllocationId";
        "child_id" ↦ optionalString r#"childId" "childId";
        "worker_address" ↦ requireString r#"worker" "worker";
        "agent_address" ↦ requireString r#"agent" "agent";
        "intent_digest" ↦ requireString intentDigest "intentDigest";
        "intent_json" ↦ canonical r#"intent";
        "pull_status" ↦ requireOneOf phases#"pull" RECEIPT_PHASE_STATUSES "phases.pull";
        "stellar_deposit_status" ↦
          requireOneOf phases#"stellar_deposit" RECEIPT_PHASE_STATUSES "phases.stellar_deposit";
        "cctp_burn_status" ↦
          requireOneOf phases#"cctp_burn" RECEIPT_PHASE_STATUSES "phases.cctp_burn";
        "cctp_mint_status" ↦
          requireOneOf phases#"cctp_mint" RECEIPT_PHASE_STATUSES "phases.cctp_mint";
        "base_deposit_status" ↦
          requireOneOf phases#"base_deposit" RECEIPT_PHASE_STATUSES "phases.base_deposit";
        "custody_location" ↦
          requireOneOf custody#"location" RECEIPT_CUSTODY_LOCATIONS "custody.location";
        "custody_confirmed" ↦ Ok (Number (Num (if truthy custody#"confirmed" then 1 else 0)));
        "custody_token" ↦ Ok (coalesce amount#"token" Null);
        "custody_units" ↦ Ok (coalesce amount#"units" Null);
        "custody_decimals" ↦ Ok (coalesce amount#"decimals" Null);
        "custody_reason" ↦ optionalString custody#"reason" "custody.reason"
      ].

Definition toPhaseAttemptRow (record : val) : result index_error val :=
  let r := or_empty record in
  _ ← assertNoSensitiveProperties r;
  _ ← assertExactUnits r;
  object [
    "attempt_id" ↦ requireString r#"attemptId" "attemptId";
    "attempt_kind" ↦
      requireOneOf r#"kind" ["phase"; "revoked-scope-reconciliation"] "attempt.kind";
    "phase" ↦ requireOneOf r#"phase" RECEIPT_PHASES "attempt.phase";
    "status" ↦ requireOneOf r#"status" RECEIPT_PHASE_STATUSES "attempt.status";
    "evidence_json" ↦ canonical (coalesce r#"evidence" (Obj []));
    "observed_at" ↦ requireInt r#"observedAt" "attempt.observedAt"
  ].

Definition parseExecutionReceiptRow (row attempts : val) : result index_error val :=
  if negb (truthy row) then Ok Null
  else
    let amount :=
      if nullish row#"custody_units" then Null
      else Obj ["token" ↦ row#"custody_token"; "units" ↦ row#"custody_units";
                "decimals" ↦ row#"custody_decimals"] in
    object [
      "version" ↦ Ok row#"version";
      "format" ↦ Ok row#"receipt_format";
      "networkId" ↦ Ok row#"network_id";
      "executionId" ↦ Ok row#"execution_id";
      "runId" ↦ Ok row#"run_id";
      "allocationId" ↦ Ok row#"allocation_id";
      "parentAllocationId" ↦ Ok row#"parent_allocation_id";
      "childId" ↦ Ok row#"child_id";
      "owner" ↦ Ok row#"owner_address";
      "worker" ↦ Ok row#"worker_address";
      "agent" ↦ Ok row#"agent_address";
      "intentDigest" ↦ Ok row#"intent_digest";
      "intent" ↦ parsed row#"intent_json";
      "phases" ↦ Ok (Obj [
        "pull" ↦ row#"pull_status";
        "stellar_deposit" ↦ row#"stellar_deposit_status";
        "cctp_burn" ↦ row#"cctp_burn_status";
        "cctp_mint" ↦ row#"cctp_mint_status";
        "base_deposit" ↦ row#"base_deposit_status"]);
      "custody" ↦ Ok (Obj [
        "location" ↦ row#"custody_location";
        "confirmed" ↦ Bool (strict_eq row#"custody_confirmed" (Number (Num 1)));
        "amount" ↦ amount;
        "reason" ↦ row#"custody_reason"]);
      "createdAt" ↦ Ok row#"created_at";
      "updatedAt" ↦ Ok row#"updated_at";
      "attempts" ↦ Ok attempts
    ].

Definition parsePhaseAttemptRow (row : val) : result index_error val :=
  object [
    "attemptId" ↦ Ok row#"attempt_id";
    "kind" ↦ Ok row#"attempt_kind";
    "phase" ↦ Ok row#"phase";
    "status" ↦ Ok row#"status";
    "evidence" ↦ parsed row#"evidence_json";
    "observedAt" ↦ Ok row#"observed_at";
    "receiptVersion" ↦ Ok row#"receipt_version"
  ].

(** ** Base children *)

(** [`${runId}:exec:${allocationId}`] *)
Definition execution_of (runId allocationId : val) : string :=
  string_of (coerce runId ++ chars_of ":exec:" ++ coerce allocationId).

Definition toBaseChildRow (child intentDigest : val) : result index_error val :=
  let c := or_empty child in
  if negb (strict_eq c#"version" (Number (Num 1))) then fails "base child version must be 1"
  else
    _ ← assertNoSensitiveProperties c;
    _ ← assertExactUnits c;
    amount ← requireAmount c#"intent" "intent";
    _ ← requireUnsignedIntegerString amount#"units" "intent.units" true;
    _ ← requireUnsignedIntegerString (c#"intent")#"minShares" "intent.minShares" false;
    executionId ← requireString c#"executionId" "executionId";
    runId ← requireString (c#"intent")#"runId" "intent.runId";
    allocationId ← requireString c#"allocationId" "allocationId";
    if negb (strict_eq executionId (Str (execution_of runId allocationId)))
    then fails "executionId must match runId and allocationId"
    else
      let lifecycle := or_empty c#"lifecycle" in
      if negb (strict_eq lifecycle#"sequence" (Number (Num 0)))
      then fails "first Base child lifecycle sequence must be 0"
      else
        object [
          "network_id" ↦ requireString c#"networkId" "networkId";
          "binding_id" ↦ requireString c#"bindingId" "bindingId";
          "execution_id" ↦ Ok executionId;
          "allocation_id" ↦ Ok c#"allocationId";
          "child_id" ↦ requireString c#"childId" "childId";
          "owner_address" ↦ requireString c#"owner" "owner";
          "agent_address" ↦ requireString c#"agent" "agent";
          "intent_digest" ↦ requireString intentDigest "intentDigest";
          "intent_json" ↦ canonical c#"intent";
          "token" ↦ Ok amount#"token";
          "units" ↦ Ok amount#"units";
          "decimals" ↦ Ok amount#"decimals";
          "recovery_version" ↦ Ok (Number (Num 0));
          "lifecycle_sequence" ↦ Ok (Number (Num 0));
          "lifecycle_status" ↦
            requireOneOf lifecycle#"status" BASE_CHILD_LIFECYCLE_STATUSES "lifecycle.status";
          "lifecycle_evidence_json" ↦ canonical (coalesce lifecycle#"evidence" (Obj []));
          "observed_at" ↦
            (observedAt ← requireInt lifecycle#"observedAt" "lifecycle.observedAt";
             if non_negative_safe observedAt then Ok observedAt
             else fails "lifecycle.observedAt must be a non-negative safe integer")
        ].

Definition parseBaseChildRow (row : val) : result index_error val :=
  if negb (truthy row) then Ok Null
  else
    intent ← parsed row#"intent_json";
    let executionId := coalesce row#"execution_id" Null in
    if negb (strict_eq executionId Null)
       && negb (strict_eq executionId (Str (execution_of intent#"runId" row#"allocation_id")))
    then fails "persisted Base child execution mapping is invalid"
    else
      let recoveryVersion := coalesce row#"recovery_version" (Number (Num 0)) in
      if negb (non_negative_safe recoveryVersion)
      then fails "persisted Base child recovery version is invalid"
      else
        evidence ← parsed row#"lifecycle_evidence_json";
        Ok (Obj [
          "version" ↦ Number (Num 1);
          "networkId" ↦ row#"network_id";
          "bindingId" ↦ row#"binding_id";
          "executionId" ↦ executionId;
          "allocationId" ↦ row#"allocation_id";
          "childId" ↦ row#"child_id";
          "owner" ↦ row#"owner_address";
          "agent" ↦ row#"agent_address";
          "intentDigest" ↦ row#"intent_digest";
          "intent" ↦ intent;
          "recoveryVersion" ↦ recoveryVersion;
          "recoverable" ↦ Bool (negb (strict_eq executionId Null));
          "recoveryUnavailableReason" ↦
            (if strict_eq executionId Null then Str "legacy-execution-unmapped" else Null);
          "lifecycle" ↦ Obj [
            "sequence" ↦ row#"lifecycle_sequence";
            "status" ↦ row#"lifecycle_status";
            "evidence" ↦ evidence];
          "createdAt" ↦ row#"created_at";
          "updatedAt" ↦ row#"updated_at"]).

Definition baseChildRecoveryIdentity (value : val) : result index_error val :=
  let identity := or_empty value in
  object [
    "networkId" ↦ requireString identity#"networkId" "networkId";
    "bindingId" ↦ requireString identity#"bindingId" "bindingId";
    "executionId" ↦ requireString identity#"executionId" "executionId";
    "allocationId" ↦ requireString identity#"allocationId" "allocationId";
    "childId" ↦ requireString identity#"childId" "childId"
  ].

(** ** Recovery requests and leases *)
Definition BASE_RECOVERY_ACTIONS : list string :=
  ["no-movement"; "poll-attestation"; "submit-mint"; "poll-mint"; "submit-base-deposit";
   "poll-base-deposit"; "owner-action-required"; "complete"; "manual-review"].

Definition BASE_RECOVERY_PHASES : list string := ["cctp_attestation"; "cctp_mint"; "base_deposit"].

Definition BASE_RECOVERY_ACTION_PHASE : list (string * string) :=
  [("poll-attestation", "cctp_attestation"); ("submit-mint", "cctp_mint");
   ("poll-mint", "cctp_mint"); ("submit-base-deposit", "base_deposit");
   ("poll-base-deposit", "base_deposit")].

Definition BASE_RECOVERY_REQUEST_FIELDS : list string :=
  ["executionId"; "bindingId"; "allocationId"; "childId"; "expectedRecoveryVersion";
   "leaseOwner"].

Definition BASE_RECOVERY_LEASE_FIELDS : list string :=
  ["identity"; "owner"; "action"; "phase"; "evidenceVersion"; "holder"; "leaseToken"; "now";
   "ttlMs"].

Definition refuses {A} (m : string) : result index_error A := Throw (ValidationError m).

Definition requireExactFields (value : val) (fields : list string) (label : string)
    : result index_error unit :=
  if negb (is_object value) then refuses (label +:+ " must be an object")
  else if negb (length (keys value) =? length fields)%nat
       || negb (forallb (fun k => bool_decide (k ∈ fields)) (keys value))
       || negb (forallb (has_own value) fields)
  then refuses ("Invalid " +:+ label) else Ok tt.

(** [s.split(sep)[0]] *)
Fixpoint before (sep l : chars) : chars :=
  match l with
  | [] => []
  | c :: l' => if startsWith sep l then [] else c :: before sep l'
  end.

(** A non-empty string. *)
Definition filled (v : val) : bool :=
  match v with Str s => negb (bool_decide (s = EmptyString)) | _ => false end.

Definition validateBaseExecutionMapping (identity : val) : result index_error unit :=
  let executionId := identity#"executionId" in
  let allocationId := identity#"allocationId" in
  if negb (filled executionId) || negb (filled allocationId)
     || negb (bool_decide (coerce executionId
                           = before (chars_of ":exec:") (coerce executionId)
                             ++ chars_of ":exec:" ++ coerce allocationId))
  then refuses "Base recovery execution mapping is invalid" else Ok tt.

(** [v.length > n] for a string. *)
Definition longer_than (n : Z) (v : val) : bool :=
  match v#"length" with Number (Num z) => (z >? n)%Z | _ => false end.

Fixpoint each_filled (value : val) (fields : list string) : result index_error unit :=
  match fields with
  | [] => Ok tt
  | f :: fields =>
      if filled (get value f) then each_filled value fields
      else refuses ("Base recovery request " +:+ f +:+ " is required")
  end.

Definition validateBaseRecoveryRequest (request : val) : result index_error val :=
  _ ← requireExactFields request BASE_RECOVERY_REQUEST_FIELDS "Base recovery request";
  _ ← each_filled request ["executionId"; "bindingId"; "allocationId"; "childId"; "leaseOwner"];
  if longer_than 128 request#"leaseOwner"
  then refuses "Base recovery request leaseOwner is too long"
  else
    _ ← validateBaseExecutionMapping request;
    if non_negative_safe request#"expectedRecoveryVersion" then Ok request
    else refuses "Base recovery request version is invalid".

Definition one_of (options : list string) (v : val) : bool :=
  match v with Str s => bool_decide (s ∈ options) | _ => false end.

(** [BASE_RECOVERY_ACTION_PHASE[action]] *)
Definition action_phase (action : val) : val :=
  match action with
  | Str a => match assoc BASE_RECOVERY_ACTION_PHASE a with Some p => Str p | None => Undefined end
  | _ => Undefined
  end.

Definition ttl_valid (now ttlMs : val) : bool :=
  match now, ttlMs with
  | Number (Num n), Number (Num t) =>
      isSafeInteger (Num t) && negb (t <=? 0)%Z && negb (n + t <=? n)%Z
  | _, _ => false
  end.

(** The fields of the lease after its identity. *)
Definition check_lease (lease : val) : result index_error unit :=
  if negb (filled lease#"owner") then refuses "Base recovery lease owner is required"
  else if negb (one_of BASE_RECOVERY_ACTIONS lease#"action")
          || strict_eq lease#"action" (Str "manual-review")
  then refuses "Base recovery lease action is not claimable"
  else if negb (one_of BASE_RECOVERY_PHASES lease#"phase")
          || negb (strict_eq (action_phase lease#"action") lease#"phase")
  then refuses "Base recovery lease phase is invalid"
  else if negb (non_negative_safe lease#"evidenceVersion")
  then refuses "Base recovery lease evidence version is invalid"
  else if negb (filled lease#"holder") || longer_than 128 lease#"holder"
  then refuses "Base recovery lease holder is required"
  else if negb (is_string lease#"leaseToken" && test (is_hex 64) lease#"leaseToken")
  then refuses "Base recovery lease token is invalid"
  else if negb (non_negative_safe lease#"now") then refuses "Base recovery lease time is invalid"
  else if negb (ttl_valid lease#"now" lease#"ttlMs")
  then refuses "Base recovery lease TTL is invalid"
  else Ok tt.

Definition validateBaseRecoveryLease (lease : val) : result index_error val :=
  _ ← requireExactFields lease BASE_RECOVERY_LEASE_FIELDS "Base recovery lease";
  identity ← baseChildRecoveryIdentity lease#"identity";
  _ ← validateBaseExecutionMapping identity;
  _ ← check_lease lease;
  Ok (Obj (set_property (entries lease) "identity" identity)).

(** ** Digests and phase events *)
Section Digests.
Context (sha256_hex : string -> string).

Definition digest (v : val) : result index_error val :=
  _ ← assertNoSensitiveProperties v;
  t ← canonicalJson v;
  Ok (Str (sha256_hex (string_of t))).

Definition baseChildBatchDigest (batch : val) : result index_error val := digest batch.
Definition baseChildEvidenceDigest (evidence : val) : result index_error val := digest evidence.
Definition baseChildEvidenceReportDigest (report : val) : result index_error val := digest report.

Definition next_version (expected : val) : val :=
  match expected with Number (Num z) => Number (Num (z + 1)) | v => v end.

Definition toBaseChildPhaseEventRow (report subjects : val) : result index_error val :=
  identity ← baseChildRecoveryIdentity report#"identity";
  let expectedRecoveryVersion := report#"expectedRecoveryVersion" in
  if negb (non_negative_safe expectedRecoveryVersion)
  then fails "expectedRecoveryVersion must be a non-negative safe integer"
  else
    let event := or_empty report#"event" in
    eventId ← requireString event#"eventId" "event.eventId";
    if negb (test (is_hex 64) eventId) then fails "event.eventId must be 64 lowercase hex"
    else
      let evidence := coalesce event#"evidence" (Obj []) in
      evidenceJson ← validateBaseChildPhaseEvidence event#"phase" event#"state" evidence;
      observedAt ← requireInt event#"observedAt" "event.observedAt";
      if negb (non_negative_safe observedAt)
      then fails "event.observedAt must be a non-negative safe integer"
      else
        object [
          "event_id" ↦ Ok eventId;
          "network_id" ↦ Ok identity#"networkId";
          "binding_id" ↦ Ok identity#"bindingId";
          "execution_id" ↦ Ok identity#"executionId";
          "allocation_id" ↦ Ok identity#"allocationId";
          "child_id" ↦ Ok identity#"childId";
          "owner_address" ↦ requireString subjects#"owner" "owner";
          "agent_address" ↦ requireString subjects#"agent" "agent";
          "recovery_version" ↦ Ok (next_version expectedRecoveryVersion);
          "phase" ↦ requireOneOf event#"phase" BASE_CHILD_RECOVERY_PHASES "event.phase";
          "state" ↦ requireOneOf event#"state" BASE_CHILD_RECOVERY_STATES "event.state";
          "evidence_digest" ↦ baseChildEvidenceDigest evidence;
          "evidence_json" ↦ Ok (Str (string_of evidenceJson));
          "observed_at" ↦ Ok observedAt
        ].
End Digests.

(** The child an event row belongs to. *)
Definition row_identity (row : val) : val :=
  Obj [
    "networkId" ↦ row#"network_id";
    "bindingId" ↦ row#"binding_id";
    "executionId" ↦ row#"execution_id";
    "allocationId" ↦ row#"allocation_id";
    "childId" ↦ row#"child_id"].

Definition parseBaseChildPhaseEventRow (row : val) : result index_error val :=
  if negb (truthy row) then Ok Null
  else
    object [
      "eventId" ↦ Ok row#"event_id";
      "identity" ↦ Ok (row_identity row);
      "owner" ↦ Ok row#"owner_address";
      "agent" ↦ Ok row#"agent_address";
      "recoveryVersion" ↦ Ok row#"recovery_version";
      "phase" ↦ Ok row#"phase";
      "state" ↦ Ok row#"state";
      "evidenceDigest" ↦ Ok row#"evidence_digest";
      "evidence" ↦ parsed row#"evidence_json";
      "observedAt" ↦ Ok row#"observed_at"
    ].

Definition parseBaseChildPhaseProjectionRow (row : val) : result index_error val :=
  if negb (truthy row) then Ok Null
  else
    object [
      "eventId" ↦ Ok row#"latest_event_id";
      "identity" ↦ Ok (row_identity row);
      "recoveryVersion" ↦ Ok row#"recovery_version";
      "phase" ↦ Ok row#"phase";
      "state" ↦ Ok row#"state";
      "evidenceDigest" ↦ Ok row#"evidence_digest";
      "evidence" ↦ parsed row#"evidence_json";
      "observedAt" ↦ Ok row#"observed_at"
    ].

(** ** Memberships, allocations and associations *)
Definition toMembershipRow (record : val) : result index_error val :=
  let r := or_empty record in
  object [
    "network_id" ↦ requireString r#"networkId" "networkId";
    "agent_address" ↦ requireString r#"agentAddress" "agentAddress";
    "owner_address" ↦ requireString r#"ownerAddress" "ownerAddress";
    "creator_address" ↦ requireString r#"creatorAddress" "creatorAddress";
    "schema_version" ↦ requireInt r#"schemaVersion" "schemaVersion";
    "agent_kind" ↦ requireOneOf r#"kind" AGENT_KINDS "kind";
    "creation_ledger" ↦ requireInt r#"creationLedger" "creationLedger";
    "creation_tx" ↦ requireString r#"creationTx" "creationTx";
    "grant_tx_hash" ↦ optionalString r#"grantTxHash" "grantTxHash";
    "run_id" ↦ optionalString r#"runId" "runId";
    "run_ordinal" ↦ optionalNonNegativeSafeInt r#"runOrdinal" "runOrdinal";
    "provenance" ↦ stringified (coalesce r#"provenance" (Obj []))
  ].

Definition parseMembershipRow (row : val) : result index_error val :=
  if negb (truthy row) then Ok Null
  else
    object [
      "networkId" ↦ Ok row#"network_id";
      "address" ↦ Ok row#"agent_address";
      "owner" ↦ Ok row#"owner_address";
      "creator" ↦ Ok row#"creator_address";
      "schemaVersion" ↦ Ok row#"schema_version";
      "kind" ↦ Ok row#"agent_kind";
      "createdLedger" ↦ Ok row#"creation_ledger";
      "createdTxHash" ↦ Ok row#"creation_tx";
      "grantTxHash" ↦ Ok row#"grant_tx_hash";
      "runId" ↦ Ok row#"run_id";
      "runOrdinal" ↦ Ok row#"run_ordinal";
      "provenance" ↦ parsed row#"provenance"
    ].

Definition toRunAllocationRow (record : val) : result index_error val :=
  let r := or_empty record in
  object [
    "id" ↦ requireString r#"id" "id";
    "network_id" ↦ requireString r#"networkId" "networkId";
    "run_id" ↦ requireString r#"runId" "runId";
    "owner_address" ↦ requireString r#"ownerAddress" "ownerAddress";
    "bridge_agent_address" ↦ requireString r#"bridgeAgentAddress" "bridgeAgentAddress";
    "base_child_address" ↦ optionalString r#"baseChildAddress" "baseChildAddress";
    "token" ↦ requireString r#"token" "token";
    "units" ↦ requireDecimalString r#"units" "units";
    "decimals" ↦ requireInt r#"decimals" "decimals";
    "proxy_target" ↦ optionalString r#"proxyTarget" "proxyTarget";
    "job_id" ↦ optionalString r#"jobId" "jobId";
    "tx_id" ↦ optionalString r#"txId" "txId";
    "execution_status" ↦ requireOneOf r#"executionStatus" EXECUTION_STATUSES "executionStatus";
    "custody_location" ↦ requireOneOf r#"custodyLocation" CUSTODY_LOCATIONS "custodyLocation"
  ].

(** [{ token, units, decimals }] of a row. *)
Definition row_amount (row : val) : val :=
  Obj ["token" ↦ row#"token"; "units" ↦ row#"units"; "decimals" ↦ row#"decimals"].

Definition parseRunAllocationRow (row : val) : result index_error val :=
  if negb (truthy row) then Ok Null
  else
    object [
      "id" ↦ Ok row#"id";
      "networkId" ↦ Ok row#"network_id";
      "runId" ↦ Ok row#"run_id";
      "ownerAddress" ↦ Ok row#"owner_address";
      "bridgeAgentAddress" ↦ Ok row#"bridge_agent_address";
      "baseChildAddress" ↦ Ok row#"base_child_address";
      "amount" ↦ Ok (row_amount row);
      "proxyTarget" ↦ Ok row#"proxy_target";
      "jobId" ↦ Ok row#"job_id";
      "txId" ↦ Ok row#"tx_id";
      "executionStatus" ↦ Ok row#"execution_status";
      "custodyLocation" ↦ Ok row#"custody_location";
      "createdAt" ↦ Ok row#"created_at";
      "updatedAt" ↦ Ok row#"updated_at"
    ].

Definition toAssociationRow (record : val) : result index_error val :=
  let r := or_empty record in
  object [
    "id" ↦ requireString r#"allocationId" "allocationId";
    "network_id" ↦ requireString r#"networkId" "networkId";
    "run_id" ↦ requireString r#"runId" "runId";
    "owner_address" ↦ requireString r#"ownerAddress" "ownerAddress";
    "bridge_agent_address" ↦ requireString r#"bridgeAgentAddress" "bridgeAgentAddress";
    "base_child_address" ↦ requireString r#"poolAddress" "poolAddress";
    "token" ↦ requireString (r#"amount")#"token" "amount.token";
    "units" ↦ requireDecimalString (r#"amount")#"units" "amount.units";
    "decimals" ↦ requireInt (r#"amount")#"decimals" "amount.decimals";
    "proxy_target" ↦
      requireOneOf r#"proxyTarget" ["aave-v3"; "morpho-blue"; "moonwell"] "proxyTarget";
    "job_id" ↦ requireString r#"baseJobId" "baseJobId";
    "tx_id" ↦ optionalString r#"txHash" "txHash";
    "execution_status" ↦ requireOneOf r#"executionStatus" EXECUTION_STATUSES "executionStatus";
    "custody_location" ↦ requireOneOf r#"custodyLocation" CUSTODY_LOCATIONS "custodyLocation";
    "grant_tx_hash" ↦ requireString r#"grantTxHash" "grantTxHash";
    "kernel_address" ↦ requireString r#"kernelAddress" "kernelAddress";
    "mandate_binding_id" ↦ requireString r#"mandateBindingId" "mandateBindingId";
    "mandate_binding_hash" ↦ requireString r#"mandateBindingHash" "mandateBindingHash";
    "association_source" ↦
      requireOneOf r#"associationSource" ["relayer-attested"] "associationSource";
    "reported_at" ↦ requireInt r#"reportedAt" "reportedAt";
    "scope_checked_at" ↦ requireInt r#"scopeCheckedAt" "scopeCheckedAt"
  ].

Definition parseAssociationRow (row : val) : result index_error val :=
  if negb (truthy row) then Ok Null
  else
    object [
      "allocationId" ↦ Ok row#"id";
      "networkId" ↦ Ok row#"network_id";
      "runId" ↦ Ok row#"run_id";
      "ownerAddress" ↦ Ok row#"owner_address";
      "bridgeAgentAddress" ↦ Ok row#"bridge_agent_address";
      "poolAddress" ↦ Ok row#"base_child_address";
      "amount" ↦ Ok (row_amount row);
      "proxyTarget" ↦ Ok row#"proxy_target";
      "baseJobId" ↦ Ok row#"job_id";
      "txHash" ↦ Ok row#"tx_id";
      "executionStatus" ↦ Ok row#"execution_status";
      "custodyLocation" ↦ Ok row#"custody_location";
      "grantTxHash" ↦ Ok (coalesce row#"grant_tx_hash" Null);
      "kernelAddress" ↦ Ok (coalesce row#"kernel_address" Null);
      "mandateBindingId" ↦ Ok (coalesce row#"mandate_binding_id" Null);
      "mandateBindingHash" ↦ Ok (coalesce row#"mandate_binding_hash" Null);
      "associationSource" ↦ Ok (coalesce row#"association_source" Null);
      "reportedAt" ↦ Ok (coalesce row#"reported_at" Null);
      "scopeCheckedAt" ↦ Ok (coalesce row#"scope_checked_at" Null);
      "createdAt" ↦ Ok row#"created_at";
      "updatedAt" ↦ Ok row#"updated_at"
    ].

(** ** Gaps, backfill audits and sources *)

(** [a < b] of two integers that passed [requireInt]. *)
Definition less (a b : val) : bool := (integer_of a <? integer_of b)%Z.

Definition toGapRow (gap : val) : result index_error val :=
  let g := or_empty gap in
  fromLedger ← requireInt g#"fromLedger" "fromLedger";
  throughLedger ← requireInt g#"throughLedger" "throughLedger";
  if less throughLedger fromLedger then fails "throughLedger must be >= fromLedger"
  else
    object [
      "source_id" ↦ requireString g#"sourceId" "sourceId";
      "network_id" ↦ requireString g#"networkId" "networkId";
      "from_ledger" ↦ Ok fromLedger;
      "through_ledger" ↦ Ok throughLedger;
      "reason" ↦ requireString g#"reason" "reason"
    ].

Definition toBackfillAuditRow (audit : val) : result index_error val :=
  let a := or_empty audit in
  fromLedger ← requireInt a#"fromLedger" "fromLedger";
  throughLedger ← requireInt a#"throughLedger" "throughLedger";
  if less throughLedger fromLedger then fails "throughLedger must be >= fromLedger"
  else
    object [
      "network_id" ↦ requireString a#"networkId" "networkId";
      "source_id" ↦ requireString a#"sourceId" "sourceId";
      "method" ↦ requireString a#"method" "method";
      "result" ↦ requireOneOf a#"result" BACKFILL_RESULTS "result";
      "from_ledger" ↦ Ok fromLedger;
      "through_ledger" ↦ Ok throughLedger;
      "evidence" ↦ stringified (coalesce a#"evidence" (Obj []));
      "notes" ↦ optionalString a#"notes" "notes"
    ].

Definition parseGapRow (row : val) : result index_error val :=
  if negb (truthy row) then Ok Null
  else
    object [
      "id" ↦ Ok row#"id";
      "sourceId" ↦ Ok row#"source_id";
      "networkId" ↦ Ok row#"network_id";
      "fromLedger" ↦ Ok row#"from_ledger";
      "throughLedger" ↦ Ok row#"through_ledger";
      "reason" ↦ Ok row#"reason";
      "status" ↦ Ok row#"status";
      "openedAt" ↦ Ok row#"opened_at";
      "closedAt" ↦ Ok row#"closed_at"
    ].

Definition parseBackfillAuditRow (row : val) : result index_error val :=
  if negb (truthy row) then Ok Null
  else
    object [
      "id" ↦ Ok row#"id";
      "networkId" ↦ Ok row#"network_id";
      "sourceId" ↦ Ok row#"source_id";
      "attemptedAt" ↦ Ok row#"attempted_at";
      "method" ↦ Ok row#"method";
      "result" ↦ Ok row#"result";
      "fromLedger" ↦ Ok row#"from_ledger";
      "throughLedger" ↦ Ok row#"through_ledger";
      "evidence" ↦ parsed row#"evidence";
      "notes" ↦ Ok row#"notes"
    ].

Definition parseSourceRow (row : val) : result index_error val :=
  if negb (truthy row) then Ok Null
  else
    object [
      "sourceId" ↦ Ok row#"source_id";
      "networkId" ↦ Ok row#"network_id";
      "creatorAddress" ↦ Ok row#"creator_address";
      "manifestHash" ↦ Ok row#"manifest_hash";
      "manifestVersion" ↦ Ok row#"manifest_version";
      "schemaVersion" ↦ Ok row#"schema_version";
      "indexedFromLedger" ↦ Ok row#"indexed_from_ledger";
      "indexedThroughLedger" ↦ Ok row#"indexed_through_ledger";
      "finalizedThroughLedger" ↦ Ok row#"finalized_through_ledger";
      "cursor" ↦ Ok row#"cursor";
      "status" ↦ Ok row#"status";
      "lastSuccessAt" ↦ Ok row#"last_success_at";
      "lastErrorAt" ↦ Ok row#"last_error_at";
      "lastErrorMessage" ↦ Ok row#"last_error_message";
      "providerId" ↦ Ok (coalesce row#"provider_id" Null);
      "endpointClass" ↦ Ok (coalesce row#"endpoint_class" Null);
      "reportedOldestLedger" ↦ Ok (coalesce row#"reported_oldest_ledger" Null);
      "reportedLatestLedger" ↦ Ok (coalesce row#"reported_latest_ledger" Null)
    ].

(** ** Table columns

    The constraints of the tables in [frontend/migrations] that a bound value must meet. *)
Inductive column :=
| TextCol
| DigitsCol
| IntCol
| MinCol (least : Z)
| CheckCol (options : list string)
| BitCol
| NullableCol (c : column).

Fixpoint fits (c : column) (v : val) : bool :=
  match c with
  | TextCol => is_string v
  | DigitsCol => is_string v && test all_digits v
  | IntCol => is_integer v
  | MinCol least => is_integer v && (least <=? integer_of v)%Z
  | CheckCol options => one_of options v
  | BitCol => strict_eq v (Number (Num 0)) || strict_eq v (Number (Num 1))
  | NullableCol c => strict_eq v Null || fits c v
  end.

Definition execution_receipts : list (string * column) :=
  [("network_id", TextCol); ("execution_id", TextCol); ("allocation_id", TextCol);
   ("receipt_format", MinCol 2); ("owner_address", TextCol); ("run_id", TextCol);
   ("parent_allocation_id", NullableCol TextCol); ("child_id", NullableCol TextCol);
   ("worker_address", TextCol); ("agent_address", TextCol); ("intent_digest", TextCol);
   ("intent_json", TextCol); ("pull_status", CheckCol RECEIPT_PHASE_STATUSES);
   ("stellar_deposit_status", CheckCol RECEIPT_PHASE_STATUSES);
   ("cctp_burn_status", CheckCol RECEIPT_PHASE_STATUSES);
   ("cctp_mint_status", CheckCol RECEIPT_PHASE_STATUSES);
   ("base_deposit_status", CheckCol RECEIPT_PHASE_STATUSES);
   ("custody_location", CheckCol RECEIPT_CUSTODY_LOCATIONS); ("custody_confirmed", BitCol);
   ("custody_token", NullableCol TextCol); ("custody_units", NullableCol DigitsCol);
   ("custody_decimals", NullableCol (MinCol 0)); ("custody_reason", NullableCol TextCol)].

Definition execution_phase_attempts : list (string * column) :=
  [("attempt_id", TextCol); ("attempt_kind", CheckCol ["phase"; "revoked-scope-reconciliation"]);
   ("phase", CheckCol RECEIPT_PHASES); ("status", CheckCol RECEIPT_PHASE_STATUSES);
   ("evidence_json", TextCol); ("observed_at", IntCol)].

Definition base_child_intents : list (string * column) :=
  [("network_id", TextCol); ("binding_id", TextCol); ("execution_id", TextCol);
   ("allocation_id", TextCol); ("child_id", TextCol); ("owner_address", TextCol);
   ("agent_address", TextCol); ("intent_digest", TextCol); ("intent_json", TextCol);
   ("token", TextCol); ("units", DigitsCol); ("decimals", MinCol 0);
   ("recovery_version", MinCol 0); ("lifecycle_sequence", MinCol 0);
   ("lifecycle_status", CheckCol BASE_CHILD_LIFECYCLE_STATUSES);
   ("lifecycle_evidence_json", TextCol); ("observed_at", MinCol 0)].

Definition base_child_phase_events : list (string * column) :=
  [("event_id", TextCol); ("network_id", TextCol); ("binding_id", TextCol);
   ("execution_id", TextCol); ("allocation_id", TextCol); ("child_id", TextCol);
   ("owner_address", TextCol); ("agent_address", TextCol); ("recovery_version", MinCol 1);
   ("phase", CheckCol BASE_CHILD_RECOVERY_PHASES);
   ("state", CheckCol BASE_CHILD_RECOVERY_STATES); ("evidence_digest", TextCol);
   ("evidence_json", TextCol); ("observed_at", MinCol 0)].

Definition agent_memberships : list (string * column) :=
  [("network_id", TextCol); ("agent_address", TextCol); ("owner_address", TextCol);
   ("creator_address", TextCol); ("schema_version", IntCol); ("agent_kind", CheckCol AGENT_KINDS);
   ("creation_ledger", IntCol); ("creation_tx", TextCol); ("grant_tx_hash", NullableCol TextCol);
   ("run_id", NullableCol TextCol); ("run_ordinal", NullableCol (MinCol 0));
   ("provenance", TextCol)].

Definition agent_run_allocations : list (string * column) :=
  [("id", TextCol); ("network_id", TextCol); ("run_id", TextCol); ("owner_address", TextCol);
   ("bridge_agent_address", TextCol); ("base_child_address", NullableCol TextCol);
   ("token", TextCol); ("units", TextCol); ("decimals", IntCol);
   ("proxy_target", NullableCol TextCol); ("job_id", NullableCol TextCol);
   ("tx_id", NullableCol TextCol); ("execution_status", CheckCol EXECUTION_STATUSES);
   ("custody_location", CheckCol CUSTODY_LOCATIONS)].

Definition association_columns : list (string * column) :=
  [("grant_tx_hash", NullableCol TextCol); ("kernel_address", NullableCol TextCol);
   ("mandate_binding_id", NullableCol TextCol); ("mandate_binding_hash", NullableCol TextCol);
   ("association_source", NullableCol (CheckCol ["relayer-attested"]));
   ("reported_at", NullableCol IntCol); ("scope_checked_at", NullableCol IntCol)].

Definition agent_index_gaps : list (string * column) :=
  [("source_id", TextCol); ("network_id", TextCol); ("from_ledger", IntCol);
   ("through_ledger", IntCol); ("reason", TextCol)].

Definition agent_backfill_audits : list (string * column) :=
  [("network_id", TextCol); ("source_id", TextCol); ("method", TextCol);
   ("result", CheckCol BACKFILL_RESULTS); ("from_ledger", IntCol); ("through_ledger", IntCol);
   ("evidence", TextCol); ("notes", NullableCol TextCol)].

(** [CHECK (through_ledger >= from_ledger)] *)
Definition range_check (row : val) : Prop :=
  integer_of row#"from_ledger" <= integer_of row#"through_ledger".

(** A row binds exactly the given columns, in order, each with a value that fits. *)
Definition row_fits (schema : list (string * column)) (row : val) : Prop :=
  Forall2 (fun c f => f.1 = c.1 /\ fits c.2 f.2 = true) schema (entries row) /\ is_object row = true.
End Strings.
End Rows.

(** ** Lemmas *)
Section RowLemmas.
Import Canonical Evidence Rows.
Local Open Scope string_scope.
Local Open Scope list_scope.

(** *** What a requirement returns *)
Lemma requireString_Ok v f w : requireString v f = Ok w -> w = v /\ filled v = true.
Proof.
  unfold requireString, fails. destruct v; try done. case_decide; [done|].
  intros [= <-]. split; [done|]. cbn. by rewrite bool_decide_eq_false_2.
Qed.

Lemma requireInt_Ok v f w : requireInt v f = Ok w -> w = v /\ is_integer v = true.
Proof. unfold requireInt, fails. destruct (is_integer v) eqn:E; [|done]. intros [= <-]. done. Qed.

Lemma requireOneOf_Ok v o f w : requireOneOf v o f = Ok w -> w = v /\ one_of o v = true.
Proof.
  unfold requireOneOf, fails. destruct v; try done. case_decide; [|done]. intros [= <-].
  split; [done|]. cbn. by rewrite bool_decide_eq_true_2.
Qed.

Lemma optionalString_Ok v f w :
  optionalString v f = Ok w -> w = coalesce v Null /\ (strict_eq w Null || is_string w = true).
Proof.
  unfold optionalString, coalesce. destruct (nullish v); [by intros [= <-]|].
  intros [-> Hf]%requireString_Ok. split; [done|]. by destruct v.
Qed.

Lemma optionalInt_Ok v f w :
  optionalNonNegativeSafeInt v f = Ok w ->
  w = coalesce v Null /\ (strict_eq w Null || non_negative_safe w = true).
Proof.
  unfold optionalNonNegativeSafeInt, coalesce, fails. destruct (nullish v); [by intros [= <-]|].
  destruct (non_negative_safe v) eqn:E; [|done]. intros [= <-].
  split; [done|]. by rewrite E, orb_true_r.
Qed.

Lemma requireDecimalString_Ok v f w :
  requireDecimalString v f = Ok w -> w = v /\ filled v = true /\ test decimal_string v = true.
Proof.
  unfold requireDecimalString, fails. intros (u & [-> Hf]%requireString_Ok & H)%bind_Ok.
  destruct (test decimal_string v); [|done]. injection H as <-. done.
Qed.

Lemma filled_string v : filled v = true -> is_string v = true.
Proof. by destruct v. Qed.

Lemma non_negative_safe_fits v : non_negative_safe v = true -> fits (MinCol 0) v = true.
Proof. destruct v as [| | |[]| | | | |]; cbn; try done. lia. Qed.

(** *** A bound value fits its column *)
Lemma requireString_fits v f w : requireString v f = Ok w -> fits TextCol w = true.
Proof. intros [-> ?]%requireString_Ok. by apply filled_string. Qed.
Lemma requireDecimalString_fits v f w : requireDecimalString v f = Ok w -> fits TextCol w = true.
Proof. intros (-> & ? & _)%requireDecimalString_Ok. by apply filled_string. Qed.
Lemma requireInt_fits v f w : requireInt v f = Ok w -> fits IntCol w = true.
Proof. by intros [-> ?]%requireInt_Ok. Qed.
Lemma requireOneOf_fits v o f w : requireOneOf v o f = Ok w -> fits (CheckCol o) w = true.
Proof. by intros [-> ?]%requireOneOf_Ok. Qed.
Lemma requireOneOf_text v o f w : requireOneOf v o f = Ok w -> fits TextCol w = true.
Proof. intros [-> ?]%requireOneOf_Ok. by destruct v. Qed.
Lemma optionalString_fits v f w : optionalString v f = Ok w -> fits (NullableCol TextCol) w = true.
Proof. by intros [_ ?]%optionalString_Ok. Qed.
Lemma optionalInt_fits v f w :
  optionalNonNegativeSafeInt v f = Ok w -> fits (NullableCol (MinCol 0)) w = true.
Proof.
  intros [_ H]%optionalInt_Ok. cbn [fits]. apply orb_prop in H as [-> |H]; [done|].
  apply non_negative_safe_fits in H. cbn in H. by rewrite H, orb_true_r.
Qed.
Lemma nullable_fits c v : fits c v = true -> fits (NullableCol c) v = true.
Proof. cbn. intros ->. apply orb_true_r. Qed.
Lemma coalesce_nullable c v : fits c v = true -> fits (NullableCol c) (coalesce v Null) = true.
Proof. unfold coalesce. destruct (nullish v); [done|]. apply nullable_fits. Qed.
Lemma Ok_fits {E} c v w : fits c v = true -> Ok (E := E) v = Ok w -> fits c w = true.
Proof. by intros ? [= <-]. Qed.
Lemma stringified_fits v w : stringified (coalesce v (Obj [])) = Ok w -> fits TextCol w = true.
Proof.
  unfold stringified, coalesce. destruct (JSON.stringify _) as [[t|]|] eqn:E; [by intros [= <-]| |done].
  exfalso. destruct (nullish v) eqn:En; [done|].
  destruct v as [| |b|[]|t|z|s|l|fs]; try done;
    try (cbn in E; discriminate E); cbn in E; apply bind_Ok in E as (? & _ & ?); done.
Qed.
Lemma canonical_fits v w : canonical v = Ok w -> fits TextCol w = true.
Proof. unfold canonical. destruct (canonicalJson v); [by intros [= <-]|done]. Qed.

(** *** Objects built field by field *)
Lemma object_fits schema (l : list (string * result index_error val)) row :
  object l = Ok row ->
  Forall2 (fun c m => m.1 = c.1 /\ forall v, m.2 = Ok v -> fits c.2 v = true) schema l ->
  row_fits schema row.
Proof.
  unfold object. destruct (fields l) as [fs|] eqn:E; [|done]. intros [= <-] HF.
  split; [|done]. cbn. apply fields_Ok in E. revert schema HF.
  induction E as [|m f l fs [Hk Hv] _ IH]; intros schema HF;
    inversion HF as [|c ? schema' ? [Hc Hfit] HF']; subst; constructor; [|by apply IH].
  split; [congruence|]. by apply Hfit.
Qed.

Lemma requireAmount_Ok amount field w :
  requireAmount amount field = Ok w ->
  w = Obj ["token" ↦ amount#"token"; "units" ↦ amount#"units"; "decimals" ↦ amount#"decimals"]
  /\ is_object amount = true /\ filled amount#"token" = true
  /\ fits DigitsCol amount#"units" = true /\ fits (MinCol 0) amount#"decimals" = true.
Proof.
  unfold requireAmount, fails, object. destruct (is_object amount); [|done]. cbn [negb].
  destruct (fields _) as [fs|] eqn:E; [|done]. intros [= <-]. cbn in E.
  apply bind_Ok in E as (t & [-> Ht]%requireString_Ok & E).
  apply bind_Ok in E as (r1 & E1 & E). injection E as <-.
  apply bind_Ok in E1 as (u & Hu & E1). apply bind_Ok in Hu as (u' & [-> Hu']%requireString_Ok & Hu).
  destruct (test all_digits (amount#"units")) eqn:Ed; [|done]. injection Hu as <-.
  apply bind_Ok in E1 as (r2 & E2 & E). injection E as <-.
  apply bind_Ok in E2 as (d & Hd & E2). apply bind_Ok in Hd as (d' & [-> Hd']%requireInt_Ok & Hd).
  destruct (Z.ltb_spec (integer_of amount#"decimals") 0) as [|Hge]; [done|]. injection Hd as <-.
  cbn in E2. injection E2 as <-. split_and!; try done.
  - cbn. by rewrite Ed, (filled_string _ Hu').
  - cbn. rewrite Hd'. by apply Z.leb_le.
Qed.

Lemma requireAmount_parts amount field w :
  requireAmount amount field = Ok w ->
  fits TextCol w#"token" = true /\ fits DigitsCol w#"units" = true
  /\ fits (MinCol 0) w#"decimals" = true.
Proof.
  intros (-> & _ & Ht & Hu & Hd)%requireAmount_Ok.
  split_and!; [exact (filled_string _ Ht)|exact Hu|exact Hd].
Qed.

Lemma filled_text v : filled v = true -> fits TextCol v = true.
Proof. apply filled_string. Qed.

Lemma observed_Ok v f m w :
  (o ← requireInt v f; if non_negative_safe o then Ok o else fails m) = Ok w ->
  w = v /\ non_negative_safe v = true.
Proof.
  intros (o & [-> _]%requireInt_Ok & H)%bind_Ok.
  destruct (non_negative_safe v); [|done]. by injection H as <-.
Qed.

Lemma observed_fits v f m w :
  (o ← requireInt v f; if non_negative_safe o then Ok o else fails m) = Ok w ->
  fits (MinCol 0) w = true.
Proof. intros [-> ?]%observed_Ok. by apply non_negative_safe_fits. Qed.

Lemma digest_fits sha v w : baseChildEvidenceDigest sha v = Ok w -> fits TextCol w = true.
Proof.
  unfold baseChildEvidenceDigest, digest. intros ([] & _ & (t & _ & H)%bind_Ok)%bind_Ok.
  by injection H as <-.
Qed.
End RowLemmas.

Create HintDb rows discriminated.
#[export] Hint Resolve requireString_fits requireDecimalString_fits requireInt_fits
  requireOneOf_fits requireOneOf_text optionalString_fits optionalInt_fits stringified_fits canonical_fits
  filled_text digest_fits observed_fits non_negative_safe_fits nullable_fits : rows.

(** Check each bound value of a row against its column. *)
Ltac fits_columns :=
  eapply object_fits; [eassumption|];
  repeat apply Forall2_cons_2; [..|apply Forall2_nil_2];
  (split; [reflexivity|]; intros ? ?; cbn [snd] in *;
   first [solve [eauto with rows] | eapply Ok_fits; [|eassumption]; try reflexivity; eauto with rows]).

Section Tables.
Import Canonical Evidence Rows.

Lemma membership_fits r row : toMembershipRow r = Ok row -> row_fits agent_memberships row.
Proof. unfold toMembershipRow. intros H. fits_columns. Qed.

Lemma run_allocation_fits r row : toRunAllocationRow r = Ok row -> row_fits agent_run_allocations row.
Proof. unfold toRunAllocationRow. intros H. fits_columns. Qed.

Lemma association_fits r row :
  toAssociationRow r = Ok row -> row_fits (agent_run_allocations ++ association_columns) row.
Proof.
  unfold toAssociationRow, agent_run_allocations, association_columns. intros H. cbn [app].
  fits_columns.
Qed.

Lemma phase_attempt_fits r row : toPhaseAttemptRow r = Ok row -> row_fits execution_phase_attempts row.
Proof.
  unfold toPhaseAttemptRow. intros ([] & _ & H)%bind_Ok. apply bind_Ok in H as ([] & _ & H).
  fits_columns.
Qed.

Lemma receipt_fits r d row : toExecutionReceiptRow r d = Ok row -> row_fits execution_receipts row.
Proof.
  unfold toExecutionReceiptRow. destruct (strict_eq _ _); [|done]. cbn [negb].
  intros ([] & _ & ([] & _ & (amount & Ha & H)%bind_Ok)%bind_Ok)%bind_Ok.
  destruct (is_boolean _); [|done]. cbn [negb] in H.
  assert (fits (NullableCol TextCol) (coalesce amount#"token" Null) = true
          /\ fits (NullableCol DigitsCol) (coalesce amount#"units" Null) = true
          /\ fits (NullableCol (MinCol 0)) (coalesce amount#"decimals" Null) = true)
    as (Ht & Hu & Hd).
  { unfold optionalAmount in Ha. destruct (nullish _); [by injection Ha as <-|].
    apply requireAmount_parts in Ha as (Ht & Hu & Hd). by split_and!; apply coalesce_nullable. }
  fits_columns. by destruct (truthy _).
Qed.

Lemma base_child_fits c d row : toBaseChildRow c d = Ok row -> row_fits base_child_intents row.
Proof.
  unfold toBaseChildRow. destruct (strict_eq _ _); [|done]. cbn [negb].
  intros ([] & _ & ([] & _ & (amount & Ha & H)%bind_Ok)%bind_Ok)%bind_Ok.
  apply bind_Ok in H as (? & _ & H). apply bind_Ok in H as (? & _ & H).
  apply bind_Ok in H as (e & [-> He]%requireString_Ok & H).
  apply bind_Ok in H as (? & _ & H). apply bind_Ok in H as (a & [-> Hal]%requireString_Ok & H).
  destruct (strict_eq _ _); [|done]. cbn [negb] in H.
  destruct (strict_eq _ _); [|done]. cbn [negb] in H.
  apply requireAmount_parts in Ha as (Ht & Hu & Hd).
  fits_columns.
Qed.

(** Reading a property of an object built field by field. *)
Lemma object_get (l : list (string * result index_error val)) row k m :
  object l = Ok row -> assoc l k = Some m -> m = Ok (get row k).
Proof.
  unfold object. destruct (fields l) as [fs|] eqn:E; [|done]. intros [= <-] Hm.
  destruct (fields_assoc _ _ _ _ E Hm) as (v & -> & Hv). cbn. by rewrite Hv.
Qed.

Lemma range_ok (l : list (string * result index_error val)) row a b :
  object l = Ok row -> assoc l "from_ledger" = Some (Ok a) ->
  assoc l "through_ledger" = Some (Ok b) -> less b a = false -> range_check row.
Proof.
  intros H Ha Hb Hl. unfold range_check.
  apply (object_get l row _ _ H) in Ha as [= <-]. apply (object_get l row _ _ H) in Hb as [= <-].
  unfold less in Hl. zbool. lia.
Qed.

Lemma gap_fits g row : toGapRow g = Ok row -> row_fits agent_index_gaps row /\ range_check row.
Proof.
  unfold toGapRow. intros (a & Ha & (b & Hb & H)%bind_Ok)%bind_Ok.
  destruct (less b a) eqn:El; [done|].
  split; [|by eapply range_ok]. apply requireInt_fits in Ha, Hb. fits_columns.
Qed.

Lemma audit_fits g row :
  toBackfillAuditRow g = Ok row -> row_fits agent_backfill_audits row /\ range_check row.
Proof.
  unfold toBackfillAuditRow. intros (a & Ha & (b & Hb & H)%bind_Ok)%bind_Ok.
  destruct (less b a) eqn:El; [done|].
  split; [|by eapply range_ok]. apply requireInt_fits in Ha, Hb. fits_columns.
Qed.

Lemma next_version_fits v :
  non_negative_safe v = true -> fits (MinCol 1) (next_version v) = true.
Proof. destruct v as [| | |[]| | | | |]; cbn; try done. lia. Qed.

Lemma identity_Ok v w :
  baseChildRecoveryIdentity v = Ok w ->
  w = Obj ["networkId" ↦ (or_empty v)#"networkId"; "bindingId" ↦ (or_empty v)#"bindingId";
           "executionId" ↦ (or_empty v)#"executionId";
           "allocationId" ↦ (or_empty v)#"allocationId"; "childId" ↦ (or_empty v)#"childId"]
  /\ forallb (fun k => filled (get w k))
       ["networkId"; "bindingId"; "executionId"; "allocationId"; "childId"]%string = true.
Proof.
  unfold baseChildRecoveryIdentity, object. destruct (fields _) as [fs|] eqn:E; [|done].
  intros [= <-]. apply fields_Ok in E.
  repeat match goal with
    | H : Forall2 _ (_ :: _) _ |- _ => inversion H as [|? [? ?] ? ? [Hk Hv] ?]; subst; clear H;
        cbn [fst snd] in Hk, Hv; subst; apply requireString_Ok in Hv as [-> ?]
    | H : Forall2 _ [] _ |- _ => inversion H; subst; clear H
    end.
  split; [done|]. cbn -[or_empty get filled] in *. cbn [get assoc default].
  repeat (apply andb_true_intro; split); assumption || done.
Qed.

Lemma phase_event_fits sha r s row :
  toBaseChildPhaseEventRow sha r s = Ok row -> row_fits base_child_phase_events row.
Proof.
  unfold toBaseChildPhaseEventRow. intros (identity & Hi & H)%bind_Ok.
  destruct (non_negative_safe r#"expectedRecoveryVersion") eqn:Ev; [|done]. cbn [negb] in H.
  apply bind_Ok in H as (eventId & [-> He]%requireString_Ok & H).
  destruct (test _ _); [|done]. cbn [negb] in H.
  apply bind_Ok in H as (json & _ & H). apply bind_Ok in H as (o & [-> _]%requireInt_Ok & H).
  destruct (non_negative_safe (or_empty r#"event")#"observedAt") eqn:Eo; [|done]. cbn [negb] in H.
  apply next_version_fits in Ev. apply identity_Ok in Hi as [_ Hi].
  cbn [forallb] in Hi. repeat (apply andb_prop in Hi as [? Hi]).
  fits_columns.
Qed.

(** No validated record is refused by its table: every row the mappers produce binds
    exactly the columns of its table, in order, with a text, an integer in range, an
    enumerated value or an allowed null in each, and ledger ranges are not empty. *)
Theorem rows_fit_tables (sha256_hex : string -> string) (r d row : val) :
  (toExecutionReceiptRow r d = Ok row -> row_fits execution_receipts row)
  /\ (toPhaseAttemptRow r = Ok row -> row_fits execution_phase_attempts row)
  /\ (toBaseChildRow r d = Ok row -> row_fits base_child_intents row)
  /\ (toBaseChildPhaseEventRow sha256_hex r d = Ok row -> row_fits base_child_phase_events row)
  /\ (toMembershipRow r = Ok row -> row_fits agent_memberships row)
  /\ (toRunAllocationRow r = Ok row -> row_fits agent_run_allocations row)
  /\ (toAssociationRow r = Ok row -> row_fits (agent_run_allocations ++ association_columns) row)
  /\ (toGapRow r = Ok row -> row_fits agent_index_gaps row /\ range_check row)
  /\ (toBackfillAuditRow r = Ok row -> row_fits agent_backfill_audits row /\ range_check row).
Proof.
  split_and!; [apply receipt_fits|apply phase_attempt_fits|apply base_child_fits
    |apply phase_event_fits|apply membership_fits|apply run_allocation_fits
    |apply association_fits|apply gap_fits|apply audit_fits].
Qed.
End Tables.

(** ** Round trips *)

(** Equations between the columns of a row built by [object] and the record it came from. *)
Ltac column H k :=
  let E := fresh "E" in
  pose proof (object_get _ _ k%string _ H eq_refl) as E;
  first
    [ apply requireString_Ok in E as [E _]
    | apply requireInt_Ok in E as [E _]
    | apply requireOneOf_Ok in E as [E _]
    | apply optionalString_Ok in E as [E _]
    | apply optionalInt_Ok in E as [E _]
    | apply requireDecimalString_Ok in E as [E _]
    | apply observed_Ok in E as [E _]
    | injection E as E; symmetry in E
    | idtac ].
Ltac columns H ks :=
  lazymatch ks with
  | ?k :: ?ks => column H k; columns H ks
  | _ => idtac
  end.

Section RoundTrips.
Import Canonical Evidence Rows.
Local Open Scope string_scope.
Local Open Scope list_scope.

Lemma object_truthy (l : list (string * result index_error val)) row :
  object l = Ok row -> truthy row = true.
Proof. unfold object. destruct (fields l); [by intros [= <-]|done]. Qed.

Lemma parsed_stringified v w : wire v -> stringified v = Ok w -> parsed w = Ok v.
Proof.
  intros Hv. unfold stringified, parsed. rewrite stringify_wire by done. intros [= <-].
  cbn [coerce]. by rewrite chars_of_string_of, parse_print.
Qed.

Lemma parsed_canonical v w :
  well_formed v -> canonical v = Ok w -> exists c, parsed w = Ok c /\ same_data v c.
Proof.
  intros Hv. unfold canonical. destruct (canonicalJson v) as [t|] eqn:E; [|done]. intros [= <-].
  destruct (canonicalJson_inv v t Hv E) as (c & _ & _ & _ & Hp & Hs & _). exists c.
  unfold parsed. cbn [coerce]. by rewrite chars_of_string_of, Hp.
Qed.

(** A membership survives its row: reading back the row of a record gives the record's
    fields, absent optional fields as [null], and its provenance exactly. *)
Theorem membership_roundtrip (r row : val)
    (Hr : is_object r = true)
    (Hp : wire (coalesce r#"provenance" (Obj [])))
    (H : toMembershipRow r = Ok row) :
  parseMembershipRow row
  = Ok (Obj ["networkId" ↦ r#"networkId"; "address" ↦ r#"agentAddress";
             "owner" ↦ r#"ownerAddress"; "creator" ↦ r#"creatorAddress";
             "schemaVersion" ↦ r#"schemaVersion"; "kind" ↦ r#"kind";
             "createdLedger" ↦ r#"creationLedger"; "createdTxHash" ↦ r#"creationTx";
             "grantTxHash" ↦ coalesce r#"grantTxHash" Null; "runId" ↦ coalesce r#"runId" Null;
             "runOrdinal" ↦ coalesce r#"runOrdinal" Null;
             "provenance" ↦ coalesce r#"provenance" (Obj [])]).
Proof.
  unfold toMembershipRow in H.
  assert (or_empty r = r) as Er by (destruct r; try done). rewrite Er in H.
  columns H ["network_id"; "agent_address"; "owner_address"; "creator_address"; "schema_version";
             "agent_kind"; "creation_ledger"; "creation_tx"; "grant_tx_hash"; "run_id";
             "run_ordinal"; "provenance"].
  apply parsed_stringified in E10; [|done].
  unfold parseMembershipRow. rewrite (object_truthy _ _ H). cbn [negb].
  rewrite E, E0, E1, E2, E3, E4, E5, E6, E7, E8, E9, E10. reflexivity.
Qed.

(** A recovery event survives its row: the row has the next recovery version and the
    digest of exactly the evidence text it stores, and reading it back gives the identity,
    subjects, phase, state and time of the report and the evidence up to key order. *)
Theorem phase_event_roundtrip (sha256_hex : string -> string) (r s row : val) (version : Z)
    (Hr : is_object r = true) (He : is_object r#"event" = true) (Hi : is_object r#"identity" = true)
    (Hversion : r#"expectedRecoveryVersion" = Number (Num version))
    (Hwf : well_formed r#"event"#"evidence") (Hev : is_object r#"event"#"evidence" = true)
    (H : toBaseChildPhaseEventRow sha256_hex r s = Ok row) :
  exists text evidence,
    row#"evidence_json" = Str text /\ row#"evidence_digest" = Str (sha256_hex text)
    /\ row#"recovery_version" = Number (Num (version + 1)) /\ 0 <= version
    /\ same_data r#"event"#"evidence" evidence
    /\ parseBaseChildPhaseEventRow row
       = Ok (Obj ["eventId" ↦ r#"event"#"eventId";
                  "identity" ↦ Obj ["networkId" ↦ r#"identity"#"networkId";
                                    "bindingId" ↦ r#"identity"#"bindingId";
                                    "executionId" ↦ r#"identity"#"executionId";
                                    "allocationId" ↦ r#"identity"#"allocationId";
                                    "childId" ↦ r#"identity"#"childId"];
                  "owner" ↦ s#"owner"; "agent" ↦ s#"agent";
                  "recoveryVersion" ↦ Number (Num (version + 1));
                  "phase" ↦ r#"event"#"phase"; "state" ↦ r#"event"#"state";
                  "evidenceDigest" ↦ Str (sha256_hex text); "evidence" ↦ evidence;
                  "observedAt" ↦ r#"event"#"observedAt"]).
Proof.
  unfold toBaseChildPhaseEventRow in H. apply bind_Ok in H as (identity & Hid & H).
  apply identity_Ok in Hid as [-> _].
  assert (or_empty r#"identity" = r#"identity") as Ei by (by destruct (r#"identity")).
  assert (or_empty r#"event" = r#"event") as Ee by (by destruct (r#"event")).
  assert (coalesce r#"event"#"evidence" (Obj []) = r#"event"#"evidence") as Ec
    by (by destruct (r#"event"#"evidence")).
  rewrite Ei, Ee, Ec, Hversion in H. 
  destruct (non_negative_safe (Number (Num version))) eqn:Ev; [|done]. cbn [negb next_version] in H.
  apply bind_Ok in H as (eventId & [-> _]%requireString_Ok & H).
  destruct (test (is_hex 64) r#"event"#"eventId"); [|done]. cbn [negb] in H.
  apply bind_Ok in H as (json & Hj & H). apply bind_Ok in H as (o & [-> _]%requireInt_Ok & H).
  destruct (non_negative_safe r#"event"#"observedAt"); [|done]. cbn [negb] in H.
  columns H ["event_id"; "network_id"; "binding_id"; "execution_id"; "allocation_id"; "child_id";
             "owner_address"; "agent_address"; "recovery_version"; "phase"; "state";
             "evidence_digest"; "evidence_json"; "observed_at"].
  pose proof (object_get _ _ "state" _ H eq_refl) as [_ Hst]%requireOneOf_Ok.
  assert (canonicalJson r#"event"#"evidence" = Ok json) as Hc.
  { destruct (r#"event"#"state"); try done.
    apply validate_inv in Hj as (? & ? & ? & ? & ? & ? & ? & ? & ? & ?). done. }
  destruct (canonicalJson_inv _ _ Hwf Hc) as (c & _ & _ & _ & Hp & Hs & _).
  unfold baseChildEvidenceDigest, digest in E10. rewrite Hc in E10.
  destruct (assertNoSensitiveProperties _); [|done]. cbn in E10. injection E10 as E10.
  exists (string_of json), c. split_and!; try done; [by cbn in Ev; lia|].
  unfold parseBaseChildPhaseEventRow. rewrite (object_truthy _ _ H). cbn [negb].
  unfold row_identity, parsed. rewrite E, E0, E1, E2, E3, E4, E5, E6, E7, E8, E9, E11, E12.
  rewrite <- E10. cbn [coerce]. rewrite chars_of_string_of, Hp. reflexivity.
Qed.

Lemma same_get fs v k s : same_data (Obj fs) v -> get (Obj fs) k = Str s -> get v k = Str s.
Proof.
  inversion 1 as [| |? gs Hk Hd]; subst; [done|]. cbn [get].
  destruct (assoc fs k) as [a|] eqn:Ea; [|done]. cbn. intros ->.
  assert (k ∈ gs.*1) as Hin.
  { rewrite <- Hk. apply assoc_In in Ea. by apply (list_elem_of_fmap_2 fst) in Ea. }
  apply In_assoc_some in Hin as [b Hb]. rewrite Hb. cbn.
  pose proof (Hd k _ _ Ea Hb) as Hs. by inversion Hs.
Qed.

Lemma strict_eq_refl_Str s : strict_eq (Str s) (Str s) = true.
Proof. cbn. by apply bool_decide_eq_true. Qed.

Lemma filled_Str v : filled v = true -> exists s, v = Str s.
Proof. destruct v; try done. eauto. Qed.

(** A Base child that was accepted is recoverable: reading its row back passes the check
    of the execution mapping and of the recovery version, keeps the execution and
    allocation, starts at recovery version 0, and gives the intent up to key order. *)
Theorem base_child_roundtrip (c d row : val)
    (Hc : is_object c = true) (Hin : is_object c#"intent" = true)
    (Hl : is_object c#"lifecycle" = true) (Hev : is_object c#"lifecycle"#"evidence" = true)
    (Hwi : well_formed c#"intent") (Hwe : well_formed c#"lifecycle"#"evidence")
    (H : toBaseChildRow c d = Ok row) :
  exists child, parseBaseChildRow row = Ok child
    /\ child#"recoverable" = Bool true /\ child#"recoveryVersion" = Number (Num 0)
    /\ child#"executionId" = c#"executionId" /\ child#"allocationId" = c#"allocationId"
    /\ child#"childId" = c#"childId" /\ child#"intentDigest" = d
    /\ same_data c#"intent" child#"intent"
    /\ same_data c#"lifecycle"#"evidence" child#"lifecycle"#"evidence".
Proof.
  unfold toBaseChildRow in H.
  assert (or_empty c = c) as Ec by (by destruct c).
  assert (or_empty c#"lifecycle" = c#"lifecycle") as El by (by destruct (c#"lifecycle")).
  assert (coalesce c#"lifecycle"#"evidence" (Obj []) = c#"lifecycle"#"evidence") as Ee
    by (by destruct (c#"lifecycle"#"evidence")).
  rewrite Ec, El, Ee in H.
  destruct (strict_eq c#"version" _); [|done]. cbn [negb] in H.
  apply bind_Ok in H as ([] & _ & H). apply bind_Ok in H as ([] & _ & H).
  apply bind_Ok in H as (amount & _ & H). apply bind_Ok in H as (? & _ & H).
  apply bind_Ok in H as (? & _ & H).
  apply bind_Ok in H as (e & [-> He]%requireString_Ok & H).
  apply bind_Ok in H as (rid & [-> Hrid]%requireString_Ok & H).
  apply bind_Ok in H as (a & [-> Ha]%requireString_Ok & H).
  destruct (strict_eq c#"executionId" (Str _)) eqn:Ex; [|done]. cbn [negb] in H.
  destruct (strict_eq c#"lifecycle"#"sequence" _); [|done]. cbn [negb] in H.
  apply strict_eq_Str in Ex.
  columns H ["network_id"; "binding_id"; "execution_id"; "allocation_id"; "child_id";
             "owner_address"; "agent_address"; "intent_digest"; "intent_json";
             "recovery_version"; "lifecycle_sequence"; "lifecycle_status";
             "lifecycle_evidence_json"].
  destruct (parsed_canonical _ _ Hwi E7) as (intent & Hpi & Hsi).
  destruct (parsed_canonical _ _ Hwe E11) as (ev & Hpe & Hse).
  apply filled_Str in Hrid as [run Hrun].
  assert (intent#"runId" = Str run) as Hrun'.
  { destruct (c#"intent"); try done. by eapply same_get. }
  rewrite Hrun in Ex. unfold parseBaseChildRow. rewrite (object_truthy _ _ H). cbn [negb].
  rewrite Hpi. cbn [mbind result_bind]. rewrite E1, E2, E8, Ex. cbn [coalesce nullish].
  rewrite Hrun', strict_eq_refl_Str. cbn [negb andb strict_eq].
  change (non_negative_safe (Number (Num 0))) with true. cbn [negb]. rewrite Hpe.
  cbn [mbind result_bind].
  eexists. split; [reflexivity|]. cbn [get assoc]. 
  split_and!; try reflexivity; try done.
Qed.

(** ** Leases *)
Lemma execution_mapping_Ok i :
  validateBaseExecutionMapping i = Ok tt ->
  exists e a, i#"executionId" = Str e /\ i#"allocationId" = Str a
    /\ chars_of e = before (chars_of ":exec:") (chars_of e) ++ chars_of ":exec:" ++ chars_of a.
Proof.
  unfold validateBaseExecutionMapping, refuses.
  destruct (filled i#"executionId") eqn:He; [|done].
  destruct (filled i#"allocationId") eqn:Ha; [|done]. cbn [negb orb].
  case_bool_decide as Hb; [|done]. intros _.
  apply filled_Str in He as [e He]. apply filled_Str in Ha as [a Ha].
  rewrite He, Ha in Hb. cbn [coerce] in Hb. eauto.
Qed.

Lemma action_phase_In a p : strict_eq (action_phase a) p = true -> one_of BASE_RECOVERY_PHASES p = true ->
  exists x y, a = Str x /\ p = Str y /\ (x, y) ∈ BASE_RECOVERY_ACTION_PHASE.
Proof.
  unfold action_phase. destruct a as [| | | | | |x| |]; try (by destruct p).
  destruct (assoc BASE_RECOVERY_ACTION_PHASE x) as [y|] eqn:E; [|by destruct p].
  intros Hs _. destruct p as [| | | | | |z| |]; try done. cbn in Hs.
  apply bool_decide_eq_true in Hs as <-. exists x, y. split_and!; try done. by apply assoc_In.
Qed.

Lemma ttl_valid_Ok now ttl :
  non_negative_safe now = true -> ttl_valid now ttl = true ->
  exists n t, now = Number (Num n) /\ ttl = Number (Num t) /\ 0 <= n < n + t.
Proof.
  destruct now as [| | |[n| | |]| | | | |]; try done.
  destruct ttl as [| | |[t| | |]| | | | |]; try done.
  intros [_ Hn%Z.leb_le]%andb_prop [[_ Ht]%andb_prop Hs]%andb_prop. zbool.
  exists n, t. split_and!; done || lia.
Qed.

Lemma check_lease_Ok lease :
  check_lease lease = Ok tt ->
  filled lease#"owner" = true
  /\ one_of BASE_RECOVERY_PHASES lease#"phase" = true
  /\ strict_eq (action_phase lease#"action") lease#"phase" = true
  /\ non_negative_safe lease#"evidenceVersion" = true
  /\ filled lease#"holder" = true /\ longer_than 128 lease#"holder" = false
  /\ test (is_hex 64) lease#"leaseToken" = true
  /\ non_negative_safe lease#"now" = true /\ ttl_valid lease#"now" lease#"ttlMs" = true.
Proof.
  unfold check_lease, refuses.
  destruct (filled lease#"owner"); [|done].
  destruct (one_of BASE_RECOVERY_ACTIONS _), (strict_eq lease#"action" _); try done.
  destruct (one_of BASE_RECOVERY_PHASES _), (strict_eq (action_phase _) _); try done.
  destruct (non_negative_safe lease#"evidenceVersion"); [|done].
  destruct (filled lease#"holder"), (longer_than 128 lease#"holder"); try done.
  destruct (is_string _), (test _ _); try done.
  destruct (non_negative_safe lease#"now"); [|done].
  by destruct (ttl_valid _ _).
Qed.

Lemma set_property_keys fs k v : k ∈ fs.*1 -> (set_property fs k v).*1 = fs.*1.
Proof.
  induction fs as [|[k' v'] fs IH]; cbn; [by intros ?%not_elem_of_nil|].
  intros Hin. case_decide as Hk; [by subst|]. cbn. f_equal. apply IH. set_solver.
Qed.

Lemma set_property_get fs k v : get (Obj (set_property fs k v)) k = v.
Proof.
  cbn. induction fs as [|[k' v'] fs IH]; cbn; [by rewrite decide_True|].
  case_decide as Hk; cbn; [by rewrite decide_True|]. by rewrite decide_False.
Qed.

Lemma exact_fields_Ok v fields label :
  requireExactFields v fields label = Ok tt ->
  exists fs, v = Obj fs /\ forall k, k ∈ fields <-> k ∈ fs.*1.
Proof.
  unfold requireExactFields, refuses. destruct v as [| | | | | | | |fs]; try done. cbn [negb is_object].
  destruct (_ =? _)%nat; [|done]. destruct (forallb _ (keys _)) eqn:Ek; [|done].
  destruct (forallb (has_own _) fields) eqn:Eh; [|done]. intros _. exists fs. split; [done|].
  rewrite forallb_Forall, Forall_forall in Ek, Eh. intros k. split.
  - intros Hk. by apply Eh, has_own_keys in Hk.
  - intros Hk. by apply Ek, bool_decide_eq_true in Hk.
Qed.

(** A lease names work that can be done: an accepted lease has one of the five actions
    that drive a recovery phase, with exactly that phase, so the terminal and manual actions
    cannot be claimed; its time window is not empty; its holder and token are well formed;
    and its execution identifies one allocation. *)
Theorem lease_accepted (lease out : val)
    (H : validateBaseRecoveryLease lease = Ok out) :
  (exists a p, lease#"action" = Str a /\ lease#"phase" = Str p
     /\ (a, p) ∈ BASE_RECOVERY_ACTION_PHASE)
  /\ (exists now ttl, lease#"now" = Number (Num now) /\ lease#"ttlMs" = Number (Num ttl)
        /\ 0 <= now < now + ttl)
  /\ non_negative_safe lease#"evidenceVersion" = true
  /\ filled lease#"owner" = true /\ filled lease#"holder" = true
  /\ longer_than 128 lease#"holder" = false
  /\ test (is_hex 64) lease#"leaseToken" = true
  /\ keys out = keys lease
  /\ exists e a, out#"identity"#"executionId" = Str e /\ out#"identity"#"allocationId" = Str a
       /\ chars_of e = before (chars_of ":exec:") (chars_of e) ++ chars_of ":exec:" ++ chars_of a.
Proof.
  unfold validateBaseRecoveryLease in H.
  apply bind_Ok in H as ([] & Hf & H). apply bind_Ok in H as (identity & Hi & H).
  apply bind_Ok in H as ([] & Hm & H). apply bind_Ok in H as ([] & Hc & H). injection H as <-.
  apply exact_fields_Ok in Hf as (fs & -> & Hk).
  apply check_lease_Ok in Hc as (Ho & Hph & Hap & Hv & Hh & Hlong & Ht & Hn & Httl).
  apply execution_mapping_Ok in Hm.
  split_and!; try done.
  - destruct (action_phase_In _ _ Hap Hph) as (a & p & ? & ? & ?). eauto 6.
  - destruct (ttl_valid_Ok _ _ Hn Httl) as (n & t & ? & ? & ?). eauto 6.
  - cbn. apply set_property_keys, Hk. left.
  - cbn [entries]. by rewrite set_property_get.
Qed.

(** One execution, one allocation: two recovery requests for the same execution that are
    accepted are for the same allocation, and an accepted request is returned unchanged with
    a version that can be compared. *)
Theorem request_execution (a b out out' : val)
    (Ha : validateBaseRecoveryRequest a = Ok out)
    (Hb : validateBaseRecoveryRequest b = Ok out')
    (Hab : a#"executionId" = b#"executionId") :
  a#"allocationId" = b#"allocationId" /\ out = a /\ out' = b
  /\ non_negative_safe a#"expectedRecoveryVersion" = true.
Proof.
  assert (forall r o, validateBaseRecoveryRequest r = Ok o ->
            o = r /\ validateBaseExecutionMapping r = Ok tt
            /\ non_negative_safe r#"expectedRecoveryVersion" = true) as Hinv.
  { intros r o H. unfold validateBaseRecoveryRequest in H.
    apply bind_Ok in H as ([] & _ & H). apply bind_Ok in H as ([] & _ & H).
    destruct (longer_than _ _); [done|]. apply bind_Ok in H as ([] & Hm & H).
    destruct (non_negative_safe _); [|done]. by injection H as <-. }
  destruct (Hinv _ _ Ha) as (-> & Hma & ?), (Hinv _ _ Hb) as (-> & Hmb & _).
  apply execution_mapping_Ok in Hma as (e & x & He & Hx & Ee).
  apply execution_mapping_Ok in Hmb as (e' & y & He' & Hy & Ee').
  rewrite He, He' in Hab. injection Hab as <-. rewrite Ee in Ee' at 1.
  apply app_inv_head in Ee'. apply (app_inv_head (chars_of ":exec:")) in Ee'.
  apply chars_of_inj in Ee' as ->. rewrite Hx, Hy. done.
Qed.

(** ** Witnesses *)
Definition sample_membership : val :=
  Obj ["networkId" ↦ Str "testnet"; "agentAddress" ↦ Str "CA"; "ownerAddress" ↦ Str "GO";
       "creatorAddress" ↦ Str "CR"; "schemaVersion" ↦ Number (Num 1); "kind" ↦ Str "bridge";
       "creationLedger" ↦ Number (Num 120); "creationTx" ↦ Str "ab";
       "provenance" ↦ Obj ["via" ↦ Str "event"]].

Ltac wire_value :=
  repeat first
    [ apply wire_obj; [vm_compute; reflexivity|] | apply wire_arr | apply Forall_nil_2
    | apply Forall_cons_2 | apply wire_str | apply wire_null | apply wire_bool
    | apply wire_num; reflexivity ].

Lemma rows_fit_tables_witness :
  exists row, toMembershipRow sample_membership = Ok row /\ row_fits agent_memberships row.
Proof.
  eexists. split; [vm_compute; reflexivity|].
  eapply (rows_fit_tables (fun s => s) sample_membership Null). vm_compute. reflexivity.
Defined.

Lemma membership_roundtrip_witness :
  exists row parsed_row, toMembershipRow sample_membership = Ok row
    /\ parseMembershipRow row = Ok parsed_row /\ parsed_row#"address" = Str "CA"
    /\ parsed_row#"runId" = Null.
Proof.
  eexists _, _. split_and!.
  - vm_compute. reflexivity.
  - eapply membership_roundtrip with (r := sample_membership); [reflexivity| |vm_compute; reflexivity].
    vm_compute. wire_value.
  - vm_compute. reflexivity.
  - vm_compute. reflexivity.
Defined.

Definition sample_identity : val :=
  Obj ["networkId" ↦ Str "testnet"; "bindingId" ↦ Str "b1"; "executionId" ↦ Str "run:exec:al1";
       "allocationId" ↦ Str "al1"; "childId" ↦ Str "c1"].

Definition sample_event_id : string :=
  "00000000000000000000000000000000000000000000000000000000000000ff".

Definition sample_report : val :=
  Obj ["identity" ↦ sample_identity; "expectedRecoveryVersion" ↦ Number (Num 3);
       "event" ↦ Obj ["eventId" ↦ Str sample_event_id; "phase" ↦ Str "base_deposit";
                      "state" ↦ Str "submitted"; "evidence" ↦ sample_deposit;
                      "observedAt" ↦ Number (Num 1700000000)]].

Definition sample_subjects : val := Obj ["owner" ↦ Str "GO"; "agent" ↦ Str "CA"].

Lemma phase_event_roundtrip_witness :
  exists row text,
    toBaseChildPhaseEventRow (fun s => s) sample_report sample_subjects = Ok row
    /\ row#"evidence_json" = Str text /\ row#"recovery_version" = Number (Num 4).
Proof.
  eexists. destruct (phase_event_roundtrip (fun s => s) sample_report sample_subjects
    ltac:(let r := eval vm_compute in
            (match toBaseChildPhaseEventRow (fun s => s) sample_report sample_subjects with
             | Ok r => r | Throw _ => Null end) in exact r) 3)
    as (text & evidence & H1 & H2 & H3 & H4).
  1-4: reflexivity.
  1: closed_well_formed.
  1: reflexivity.
  1: vm_compute; reflexivity.
  exists text. split_and!; [vm_compute; reflexivity|exact H1|exact H3].
Defined.

Definition sample_child : val :=
  Obj ["version" ↦ Number (Num 1); "networkId" ↦ Str "testnet"; "bindingId" ↦ Str "b1";
       "executionId" ↦ Str "run:exec:al1"; "allocationId" ↦ Str "al1"; "childId" ↦ Str "c1";
       "owner" ↦ Str "GO"; "agent" ↦ Str "CA";
       "intent" ↦ Obj ["runId" ↦ Str "run"; "token" ↦ Str "USDC"; "units" ↦ Str "5000000";
                       "decimals" ↦ Number (Num 7); "minShares" ↦ Str "0"];
       "lifecycle" ↦ Obj ["sequence" ↦ Number (Num 0); "status" ↦ Str "planned";
                          "evidence" ↦ Obj []; "observedAt" ↦ Number (Num 1700000000)]].

Lemma base_child_roundtrip_witness :
  exists row child, toBaseChildRow sample_child (Str "d") = Ok row
    /\ parseBaseChildRow row = Ok child /\ child#"recoverable" = Bool true.
Proof.
  eexists. destruct (base_child_roundtrip sample_child (Str "d")
    ltac:(let r := eval vm_compute in
            (match toBaseChildRow sample_child (Str "d") with
             | Ok r => r | Throw _ => Null end) in exact r))
    as (child & H1 & H2 & _).
  1-4: reflexivity.
  1-2: closed_well_formed.
  1: vm_compute; reflexivity.
  exists child. split_and!; [vm_compute; reflexivity|exact H1|exact H2].
Defined.

Definition sample_lease : val :=
  Obj ["identity" ↦ sample_identity; "owner" ↦ Str "GO"; "action" ↦ Str "submit-mint";
       "phase" ↦ Str "cctp_mint"; "evidenceVersion" ↦ Number (Num 3); "holder" ↦ Str "tab-1";
       "leaseToken" ↦ Str sample_event_id; "now" ↦ Number (Num 1000);
       "ttlMs" ↦ Number (Num 60000)].

Lemma lease_accepted_witness :
  exists out, validateBaseRecoveryLease sample_lease = Ok out /\ keys out = keys sample_lease.
Proof.
  eexists. split; [vm_compute; reflexivity|].
  eapply (lease_accepted sample_lease). vm_compute. reflexivity.
Defined.

Example lease_not_claimable :
  (fun a => validateBaseRecoveryLease
              (Obj (set_property (entries sample_lease) "action" (Str a))))
    <$> ["manual-review"; "complete"; "poll-attestation"]
  = [Throw (ValidationError "Base recovery lease action is not claimable");
     Throw (ValidationError "Base recovery lease phase is invalid");
     Throw (ValidationError "Base recovery lease phase is invalid")].
Proof. vm_compute. reflexivity. Qed.

Definition sample_request : val :=
  Obj ["executionId" ↦ Str "run:exec:al1"; "bindingId" ↦ Str "b1"; "allocationId" ↦ Str "al1";
       "childId" ↦ Str "c1"; "expectedRecoveryVersion" ↦ Number (Num 3);
       "leaseOwner" ↦ Str "tab-1"].

Lemma request_execution_witness :
  sample_request#"allocationId" = Str "al1"
  /\ validateBaseRecoveryRequest sample_request = Ok sample_request.
Proof.
  destruct (request_execution sample_request sample_request sample_request sample_request)
    as (_ & _ & _ & _); try (vm_compute; reflexivity).
  split; vm_compute; reflexivity.
Defined.
End RoundTrips.
