(* ===== verification/KeeperRates.v ===== *)
(** * Keeper: Blend rate arithmetic

    Models [keeper/src/apr.js] ([estimateSupplyAprBps], [utilizationBps]) and
    [computePendingInterest] of [keeper/src/chain.js].  Every amount is a [bigint], so [Z];
    [/] on [bigint] is [Z.quot].  The final [Number(...)] of the code is the identity here:
    it is exact below [2^53], far above any rate in basis points. *)
From S2P Require Import Prelude.

Definition SCALAR_7 : Z := 10000000.
Definition SCALAR_12 : Z := 1000000000000.
Definition BPS_DENOMINATOR : Z := 10000.

Module Rates.
(** The fields of Blend's [get_reserve(asset)] the keeper reads. *)
Record reserve_config := {
  util : Z;
  max_util : Z;
  r_base : Z;
  r_one : Z;
  r_two : Z;
  r_three : Z;
}.

Record reserve_data := {
  b_supply : Z;
  b_rate : Z;
  d_supply : Z;
  d_rate : Z;
  ir_mod : Z;
}.

Record reserve := { config : reserve_config; data : reserve_data }.

(** [x || 1n] *)
Definition or_one (x : Z) : Z := if x =? 0 then 1 else x.

Definition bSupplyUnderlying (d : reserve_data) : Z :=
  (b_supply d * b_rate d) `quot` SCALAR_12.

Definition dSupplyUnderlying (d : reserve_data) : Z :=
  (d_supply d * d_rate d) `quot` SCALAR_12.

(** The three-slope curve of the interest rate against utilization. *)
Definition borrowRate (c : reserve_config) (u : Z) : Z :=
  if u <=? util c then
    r_base c + (u * r_one c) `quot` or_one (util c)
  else if u <=? max_util c then
    r_base c + r_one c
    + ((u - util c) * r_two c) `quot` or_one (max_util c - util c)
  else
    r_base c + r_one c + r_two c
    + ((u - max_util c) * r_three c) `quot` or_one (SCALAR_7 - max_util c).

Definition supplyRate (c : reserve_config) (irMod bstop u : Z) : Z :=
  let adjustedBorrowRate := (borrowRate c u * irMod) `quot` SCALAR_7 in
  (adjustedBorrowRate * u * (SCALAR_7 - bstop)) `quot` (SCALAR_7 * SCALAR_7).

Definition estimateSupplyAprBps (r : reserve) (backstopTakeRateFraction : Z) : Z :=
  let bs := bSupplyUnderlying (data r) in
  let ds := dSupplyUnderlying (data r) in
  if bs <=? 0 then 0
  else
    let u := (ds * SCALAR_7) `quot` bs in
    (supplyRate (config r) (ir_mod (data r)) backstopTakeRateFraction u
     * BPS_DENOMINATOR) `quot` SCALAR_7.

(** [reserve?.data] may be missing: [None]. *)
Definition utilizationBps (d : option reserve_data) : option Z :=
  match d with
  | None => None
  | Some d =>
      let supplied := bSupplyUnderlying d in
      if supplied <=? 0 then None
      else Some ((dSupplyUnderlying d * BPS_DENOMINATOR) `quot` supplied)
  end.

(** [positions?.supply?.[reserveIndex] ?? 0] is passed as [bTokens]. *)
Definition computePendingInterest (bTokens : option Z) (bRate principal : Z) : Z :=
  let bTokenAmount := default 0 bTokens in
  let liveValue := (bTokenAmount * bRate) `quot` SCALAR_12 in
  let pending := liveValue - principal in
  if pending >? 0 then pending else 0.

(** ** Well-formed reserves: the ranges Blend guarantees for its configuration. *)
Record config_ok (c : reserve_config) : Prop := {
  util_range : 0 <= util c <= max_util c;
  max_util_range : max_util c <= SCALAR_7;
  r_base_nonneg : 0 <= r_base c;
  r_one_nonneg : 0 <= r_one c;
  r_two_nonneg : 0 <= r_two c;
  r_three_nonneg : 0 <= r_three c;
}.

Record data_ok (d : reserve_data) : Prop := {
  b_supply_nonneg : 0 <= b_supply d;
  b_rate_nonneg : 0 <= b_rate d;
  d_supply_nonneg : 0 <= d_supply d;
  d_rate_nonneg : 0 <= d_rate d;
  ir_mod_nonneg : 0 <= ir_mod d;
}.
End Rates.

(** ** Lemmas *)
Section RateLemmas.
Import Rates.

Lemma or_one_pos x : 0 <= x -> 0 < or_one x.
Proof. unfold or_one. destruct (Z.eqb_spec x 0); lia. Qed.

Lemma or_one_id x : 0 < x -> or_one x = x.
Proof. unfold or_one. destruct (Z.eqb_spec x 0); lia. Qed.

(** One segment [ (x * slope) / width ] stays between [0] and [slope] on [0 .. width]. *)
Lemma segment_bounds x slope width :
  0 <= slope -> 0 <= x <= width -> 0 < width ->
  0 <= (x * slope) `quot` or_one width <= slope.
Proof.
  intros. rewrite or_one_id by lia. split; [apply quot_nonneg; nia|].
  rewrite Z.quot_div_nonneg by nia. apply Z.div_le_upper_bound; nia.
Qed.

Lemma segment_mono x y slope width :
  0 <= slope -> 0 <= x <= y -> 0 <= width ->
  (x * slope) `quot` or_one width <= (y * slope) `quot` or_one width.
Proof. intros. apply quot_le_mono; [by apply or_one_pos|nia]. Qed.

Lemma segment_nonneg x slope width :
  0 <= slope -> 0 <= x -> 0 <= width -> 0 <= (x * slope) `quot` or_one width.
Proof. intros. apply quot_nonneg; [nia|]. pose proof (or_one_pos width). lia. Qed.

Context (c : reserve_config) (Hc : config_ok c).

Lemma borrowRate_nonneg u : 0 <= u -> 0 <= borrowRate c u.
Proof.
  intros Hu. destruct Hc. unfold borrowRate.
  destruct (Z.leb_spec u (util c)); [|destruct (Z.leb_spec u (max_util c))].
  - pose proof (segment_nonneg u (r_one c) (util c)). lia.
  - pose proof (segment_nonneg (u - util c) (r_two c) (max_util c - util c)). lia.
  - pose proof (segment_nonneg (u - max_util c) (r_three c) (SCALAR_7 - max_util c)).
    lia.
Qed.

(** On the first segment the rate is at most [r_base + r_one]. *)
Lemma borrowRate_first u :
  0 <= u <= util c -> borrowRate c u <= r_base c + r_one c.
Proof.
  intros Hu. destruct Hc. unfold borrowRate.
  destruct (Z.leb_spec u (util c)); [|lia].
  destruct (Z.eq_dec (util c) 0) as [E|].
  - assert (u = 0) as -> by lia. rewrite E, Z.mul_0_l.
    change (0 `quot` or_one 0) with 0. lia.
  - pose proof (segment_bounds u (r_one c) (util c)). lia.
Qed.

(** On the first two segments it is at most [r_base + r_one + r_two]. *)
Lemma borrowRate_second u :
  0 <= u <= max_util c -> borrowRate c u <= r_base c + r_one c + r_two c.
Proof.
  intros Hu. destruct (Z.leb_spec u (util c)).
  - pose proof (borrowRate_first u). destruct Hc. lia.
  - destruct Hc. unfold borrowRate.
    destruct (Z.leb_spec u (util c)); [lia|].
    destruct (Z.leb_spec u (max_util c)); [|lia].
    pose proof (segment_bounds (u - util c) (r_two c) (max_util c - util c)). lia.
Qed.

Lemma borrowRate_mono_aux u v : 0 <= u <= v -> borrowRate c u <= borrowRate c v.
Proof.
  intros Huv. pose proof Hc as [? ? ? ? ? ?].
  destruct (Z.leb_spec v (util c)) as [Hv|Hv].
  { unfold borrowRate. destruct (Z.leb_spec u (util c)); [|lia].
    destruct (Z.leb_spec v (util c)); [|lia].
    pose proof (segment_mono u v (r_one c) (util c)). lia. }
  destruct (Z.leb_spec v (max_util c)) as [Hv'|Hv'].
  - assert (r_base c + r_one c <= borrowRate c v) as Hlo.
    { unfold borrowRate. destruct (Z.leb_spec v (util c)); [lia|].
      destruct (Z.leb_spec v (max_util c)); [|lia].
      pose proof (segment_nonneg (v - util c) (r_two c) (max_util c - util c)). lia. }
    destruct (Z.leb_spec u (util c)) as [Hu|Hu].
    { pose proof (borrowRate_first u). lia. }
    unfold borrowRate. destruct (Z.leb_spec u (util c)); [lia|].
    destruct (Z.leb_spec u (max_util c)); [|lia].
    destruct (Z.leb_spec v (util c)); [lia|].
    destruct (Z.leb_spec v (max_util c)); [|lia].
    pose proof (segment_mono (u - util c) (v - util c) (r_two c)
                  (max_util c - util c)). lia.
  - assert (r_base c + r_one c + r_two c <= borrowRate c v) as Hlo.
    { unfold borrowRate. destruct (Z.leb_spec v (util c)); [lia|].
      destruct (Z.leb_spec v (max_util c)); [lia|].
      pose proof (segment_nonneg (v - max_util c) (r_three c)
                    (SCALAR_7 - max_util c)). lia. }
    destruct (Z.leb_spec u (max_util c)) as [Hu|Hu].
    { pose proof (borrowRate_second u). lia. }
    unfold borrowRate. destruct (Z.leb_spec u (util c)); [lia|].
    destruct (Z.leb_spec u (max_util c)); [lia|].
    destruct (Z.leb_spec v (util c)); [lia|].
    destruct (Z.leb_spec v (max_util c)); [lia|].
    pose proof (segment_mono (u - max_util c) (v - max_util c) (r_three c)
                  (SCALAR_7 - max_util c)). lia.
Qed.

Lemma supplyRate_mono irMod bstop u v :
  0 <= irMod -> bstop <= SCALAR_7 -> 0 <= u <= v ->
  0 <= supplyRate c irMod bstop u <= supplyRate c irMod bstop v.
Proof.
  intros Hi Hb Huv.
  pose proof (borrowRate_nonneg u ltac:(lia)).
  pose proof (borrowRate_mono_aux u v Huv).
  unfold supplyRate, SCALAR_7 in *. cbv zeta.
  assert (0 <= (borrowRate c u * irMod) `quot` 10000000
          <= (borrowRate c v * irMod) `quot` 10000000) as [H1 H2].
  { split; [apply quot_nonneg; nia|apply quot_le_mono; nia]. }
  revert H1 H2. generalize ((borrowRate c u * irMod) `quot` 10000000).
  generalize ((borrowRate c v * irMod) `quot` 10000000). intros y x Hx Hxy.
  assert (0 <= x * u <= y * v) by nia.
  split; [apply quot_nonneg; nia|apply quot_le_mono; nia].
Qed.
End RateLemmas.

(** ** Properties *)
Section RateProperties.
Import Rates.

Definition with_borrowed (d : reserve_data) (x : Z) : reserve_data :=
  {| b_supply := b_supply d; b_rate := b_rate d; d_supply := x;
     d_rate := d_rate d; ir_mod := ir_mod d |}.

(** The supply-rate estimate is monotone in what is borrowed: for a reserve whose
    configuration and data are in Blend's ranges, raising the borrowed supply never
    lowers [estimateSupplyAprBps], and the estimate is never negative.  This is what
    makes the keeper's comparison of two pools' rates meaningful across the kinks of the
    three-slope curve. *)
Theorem estimateSupplyAprBps_monotone (r : reserve) (bstop x y : Z)
    (Hc : config_ok (config r)) (Hd : data_ok (data r))
    (Hb : bstop <= SCALAR_7) (Hxy : 0 <= x <= y) :
  0 <= estimateSupplyAprBps {| config := config r; data := with_borrowed (data r) x |} bstop
    <= estimateSupplyAprBps {| config := config r; data := with_borrowed (data r) y |} bstop.
Proof.
  destruct Hd. unfold estimateSupplyAprBps. cbn [config data].
  unfold bSupplyUnderlying, dSupplyUnderlying. cbn [with_borrowed b_supply b_rate d_supply d_rate ir_mod].
  set (bs := (b_supply (data r) * b_rate (data r)) `quot` SCALAR_12).
  destruct (Z.leb_spec bs 0) as [|Hbs]; [lia|].
  set (u := (x * d_rate (data r)) `quot` SCALAR_12).
  set (v := (y * d_rate (data r)) `quot` SCALAR_12).
  assert (0 <= u <= v) as Huv.
  { unfold u, v, SCALAR_12. split; [apply quot_nonneg; nia|apply quot_le_mono; nia]. }
  clearbody u v bs. assert (0 < SCALAR_7) as HS by done.
  assert (0 <= (u * SCALAR_7) `quot` bs <= (v * SCALAR_7) `quot` bs) as Hq.
  { split; [apply quot_nonneg; nia|apply quot_le_mono; nia]. }
  pose proof (supplyRate_mono (config r) Hc (ir_mod (data r)) bstop _ _
                ltac:(lia) Hb Hq) as [? ?].
  assert (0 < BPS_DENOMINATOR) by done.
  split; [apply quot_nonneg; nia|apply quot_le_mono; nia].
Qed.

Definition sample_config : reserve_config :=
  {| util := 8000000; max_util := 9500000; r_base := 100000; r_one := 400000;
     r_two := 5000000; r_three := 15000000 |}.

Definition sample_data : reserve_data :=
  {| b_supply := 1000000000; b_rate := 1050000000000; d_supply := 500000000;
     d_rate := 1100000000000; ir_mod := 10000000 |}.

Lemma sample_config_ok : config_ok sample_config.
Proof. by constructor. Qed.

Lemma sample_data_ok : data_ok sample_data.
Proof. by constructor. Qed.

Example sample_apr :
  estimateSupplyAprBps {| config := sample_config; data := sample_data |} 2000000 = 151.
Proof. reflexivity. Qed.

Lemma estimateSupplyAprBps_monotone_witness :
  0 <= estimateSupplyAprBps
         {| config := sample_config; data := with_borrowed sample_data 500000000 |} 2000000
    <= estimateSupplyAprBps
         {| config := sample_config; data := with_borrowed sample_data 900000000 |} 2000000.
Proof.
  apply (estimateSupplyAprBps_monotone {| config := sample_config; data := sample_data |}
           2000000 500000000 900000000).
  - by constructor.
  - by constructor.
  - unfold SCALAR_7. lia.
  - lia.
Defined.

(** The radar's utilization is absent exactly when nothing is supplied, and a pool that
    lends out no more than it holds reports at most [10000] basis points. *)
Lemma utilizationBps_None d :
  utilizationBps d = None
  <-> forall rd, d = Some rd -> bSupplyUnderlying rd <= 0.
Proof.
  destruct d as [rd|]; cbn; [|naive_solver].
  destruct (Z.leb_spec (bSupplyUnderlying rd) 0); [naive_solver|].
  split; [done|]. intros H'. specialize (H' rd eq_refl). lia.
Qed.

Lemma utilizationBps_bounds d u :
  utilizationBps (Some d) = Some u ->
  0 <= dSupplyUnderlying d <= bSupplyUnderlying d -> 0 <= u <= BPS_DENOMINATOR.
Proof.
  cbn. destruct (Z.leb_spec (bSupplyUnderlying d) 0); [done|]. intros [= <-] Hd.
  unfold BPS_DENOMINATOR. split; [apply quot_nonneg; lia|].
  rewrite Z.quot_div_nonneg by lia. apply Z.div_le_upper_bound; lia.
Qed.

(** Pending interest is what the live position is worth above the book principal, never
    below zero. *)
Lemma computePendingInterest_max b r p :
  computePendingInterest b r p
  = Z.max 0 ((default 0 b * r) `quot` SCALAR_12 - p).
Proof. unfold computePendingInterest. rewrite Z.gtb_ltb. destruct (Z.ltb_spec 0 ((default 0 b * r) `quot` SCALAR_12 - p)); lia. Qed.
End RateProperties.
