(* ===== verification/KeeperDecide.v ===== *)
(** * Keeper: what to do this tick

    Models [keeper/src/decide.js] and [buildConfig] of [keeper/src/index.js].  [decide] is
    a function of the state read from the chain and of the configuration; the only way it
    throws is [BigInt(slippageBps)] on a number that is not an integer.  Strategies are
    compared by object identity in the code; here a strategy is named by its position in
    the array. *)
From S2P Require Import Prelude.

Module Decide.
Definition BPS_DENOMINATOR : Z := 10000.

Record strategy := {
  address : string;
  balance : Z;
  supplyAprBps : Z;
  pendingInterest : Z;
  blndClaimable : Z;
}.

(** [blndQuote] is [null] or an object whose [usdcOutFor] is a function. *)
Record state := {
  strategies : list strategy;
  idle : Z;
  lastRebalanceTs : Z;
  nowTs : Z;
  blndQuote : option (Z -> Z);
}.

Record config := {
  minCompound : Z;
  rebalanceBps : num;
  cooldownS : num;
  slippageBps : num;
}.

Inductive action :=
| Compound (minOuts : list Z)
| Rebalance (from to : string) (amount : Z).

Inductive error := RangeError.

#[global] Instance action_eq_dec : EqDecision action.
Proof. solve_decision. Defined.
#[global] Instance error_eq_dec : EqDecision error.
Proof. solve_decision. Defined.

(** [BigInt(n)] of a [Number] *)
Definition BigInt (n : num) : result error Z :=
  match n with Num z => Ok z | _ => Throw RangeError end.

Definition minOutForStrategy (s : strategy) (quote : option (Z -> Z)) (slippage : num)
    : result error Z :=
  match quote with
  | Some usdcOutFor =>
      if blndClaimable s <=? 0 then Ok 0
      else
        bps ← BigInt slippage;
        Ok ((usdcOutFor (blndClaimable s) * (BPS_DENOMINATOR - bps))
              `quot` BPS_DENOMINATOR)
  | None => Ok 0
  end.

Definition totalPendingInterest (st : state) : Z :=
  foldl (fun sum s => sum + pendingInterest s) 0 (strategies st).

Definition shouldCompound (st : state) (c : config) : bool :=
  (totalPendingInterest st >=? minCompound c) || (idle st >? 0).

Definition decideCompound (st : state) (c : config) : result error (option action) :=
  if shouldCompound st c then
    outs ← map_throw (fun s => minOutForStrategy s (blndQuote st) (slippageBps c))
             (strategies st);
    Ok (Some (Compound outs))
  else Ok None.

(** The scan keeps the first strategy with the highest (lowest) rate, with its index. *)
Definition extremes := option ((nat * strategy) * (nat * strategy)).

Definition scan_step (acc : nat * extremes) (s : strategy) : nat * extremes :=
  let '(i, e) := acc in
  (S i,
   match e with
   | None => Some ((i, s), (i, s))
   | Some (hi, lo) =>
       Some (if supplyAprBps s >? supplyAprBps hi.2 then (i, s) else hi,
             if supplyAprBps s <? supplyAprBps lo.2 then (i, s) else lo)
   end).

Definition findAprExtremes (l : list strategy) : extremes :=
  (foldl scan_step (0%nat, None) l).2.

(** The amount moved: the smaller of half the imbalance and half the source balance,
    nothing when the low-rate strategy does not hold more. *)
Definition rebalanceAmount (highest lowest : strategy) : Z :=
  let imbalance := balance lowest - balance highest in
  let halfImbalance := imbalance `quot` 2 in
  let halfFromBalance := balance lowest `quot` 2 in
  if imbalance <=? 0 then 0
  else if halfImbalance <? halfFromBalance then halfImbalance else halfFromBalance.

Definition decideRebalance (st : state) (c : config) : option action :=
  if negb (JsNum.geb (Num (nowTs st - lastRebalanceTs st)) (cooldownS c)) then None
  else
    match findAprExtremes (strategies st) with
    | None => None
    | Some ((i, highest), (j, lowest)) =>
        if decide (i = j) then None
        else
          let aprDeltaBps := supplyAprBps highest - supplyAprBps lowest in
          if JsNum.leb (Num aprDeltaBps) (rebalanceBps c) then None
          else
            let amount := rebalanceAmount highest lowest in
            if amount <=? 0 then None
            else Some (Rebalance (address lowest) (address highest) amount)
    end.

Definition decide_actions (st : state) (c : config) : result error (list action) :=
  compoundAction ← decideCompound st c;
  Ok (option_list compoundAction ++ option_list (decideRebalance st c)).

(** [buildConfig]: the Worker's environment, an unset or empty variable being [None] and
    a numeric one carrying the value of [Number(...)]. *)
Record env := {
  MIN_COMPOUND : option Z;
  REBALANCE_BPS : option num;
  COOLDOWN_S : option num;
  SLIPPAGE_BPS : option num;
}.

Definition DEFAULT_MIN_COMPOUND : Z := 10000000.
Definition DEFAULT_REBALANCE_BPS : num := Num 50.
Definition DEFAULT_COOLDOWN_S : num := Num 86400.
Definition DEFAULT_SLIPPAGE_BPS : num := Num 100.

Definition buildConfig (e : env) : config :=
  {| minCompound := default DEFAULT_MIN_COMPOUND (MIN_COMPOUND e);
     rebalanceBps := default DEFAULT_REBALANCE_BPS (REBALANCE_BPS e);
     cooldownS := default DEFAULT_COOLDOWN_S (COOLDOWN_S e);
     slippageBps := default DEFAULT_SLIPPAGE_BPS (SLIPPAGE_BPS e) |}.
End Decide.

(** ** The scan for extreme rates *)
Section Extremes.
Import Decide.

Definition extremes_ok (l : list strategy) (e : extremes) : Prop :=
  match e with
  | None => l = []
  | Some ((i, hi), (j, lo)) =>
      l !! i = Some hi /\ l !! j = Some lo
      /\ Forall (fun s => supplyAprBps lo <= supplyAprBps s <= supplyAprBps hi) l
  end.

Lemma scan_ok l :
  (foldl scan_step (0%nat, None) l).1 = length l
  /\ extremes_ok l (foldl scan_step (0%nat, None) l).2.
Proof.
  induction l as [|s l [IHn IH]] using rev_ind; [done|].
  rewrite foldl_app. cbn [foldl].
  destruct (foldl scan_step (0%nat, None) l) as [n e]. cbn in IHn, IH. subst n.
  assert ((l ++ [s]) !! length l = Some s) as Hs.
  { rewrite lookup_app_r by lia. by rewrite Nat.sub_diag. }
  unfold scan_step. split; [cbn; rewrite length_app; cbn; lia|].
  destruct e as [[[i hi] [j lo]]|]; cbn.
  - destruct IH as (Hi & Hj & HF).
    assert ((l ++ [s]) !! i = Some hi) by (by apply lookup_app_l_Some).
    assert ((l ++ [s]) !! j = Some lo) by (by apply lookup_app_l_Some).
    rewrite Forall_lookup in HF.
    pose proof (HF _ _ Hi). pose proof (HF _ _ Hj). rewrite <- Forall_lookup in HF.
    destruct (Z.gtb_spec (supplyAprBps s) (supplyAprBps hi));
      destruct (Z.ltb_spec (supplyAprBps s) (supplyAprBps lo)); cbn;
      (split_and!; [done|done|]); apply Forall_app; split;
      try (apply Forall_singleton; lia);
      (eapply Forall_impl; [exact HF|]; cbn; lia).
  - cbn in IH. subst l. cbn. split_and!; [done..|]. apply Forall_singleton. lia.
Qed.

Lemma findAprExtremes_ok l : extremes_ok l (findAprExtremes l).
Proof. apply scan_ok. Qed.

(** The scan looks only at the rates: strategies with the same rates in the same order
    give the same positions. *)
Definition positions (e : extremes) : option (nat * nat) :=
  match e with None => None | Some ((i, _), (j, _)) => Some (i, j) end.

Definition rates_of (e : extremes) : option (Z * Z) :=
  match e with
  | None => None
  | Some ((_, hi), (_, lo)) => Some (supplyAprBps hi, supplyAprBps lo)
  end.

Definition agree (acc acc' : nat * extremes) : Prop :=
  acc.1 = acc'.1 /\ positions acc.2 = positions acc'.2
  /\ rates_of acc.2 = rates_of acc'.2.

Lemma scan_step_agree acc acc' s s' :
  agree acc acc' -> supplyAprBps s = supplyAprBps s' ->
  agree (scan_step acc s) (scan_step acc' s').
Proof.
  destruct acc as [n [[[i hi] [j lo]]|]], acc' as [n' [[[i' hi'] [j' lo']]|]];
    intros (H1 & H2 & H3) Hs; cbn in *; try discriminate; subst;
    [|by unfold agree; cbn; rewrite Hs].
  injection H2 as -> ->. injection H3 as Hhi Hlo. unfold scan_step, agree. cbn. rewrite Hs, Hhi, Hlo.
  destruct (_ >? _), (_ <? _); cbn; rewrite ?Hs, ?Hhi, ?Hlo; done.
Qed.

Lemma scan_rates l l' :
  supplyAprBps <$> l = supplyAprBps <$> l' ->
  forall acc acc', agree acc acc' ->
  agree (foldl scan_step acc l) (foldl scan_step acc' l').
Proof.
  revert l'. induction l as [|s l IH]; intros [|s' l'] Hl; try done; cbn.
  injection Hl as Hs Hl. intros acc acc' Ha. apply (IH _ Hl).
  by apply scan_step_agree.
Qed.

Lemma findAprExtremes_rates l l' :
  supplyAprBps <$> l = supplyAprBps <$> l' ->
  positions (findAprExtremes l) = positions (findAprExtremes l').
Proof. intros H. by apply (scan_rates l l' H (0%nat, None) (0%nat, None)). Qed.
End Extremes.

(** ** The amount moved *)
Section Amount.
Import Decide.

Lemma rebalanceAmount_bounds hi lo :
  0 < rebalanceAmount hi lo ->
  rebalanceAmount hi lo <= balance lo
  /\ balance hi + rebalanceAmount hi lo <= balance lo - rebalanceAmount hi lo.
Proof.
  unfold rebalanceAmount. cbv zeta.
  destruct (Z.leb_spec (balance lo - balance hi) 0); [lia|].
  rewrite Z.quot_div_nonneg by lia.
  pose proof (Z.mul_div_le (balance lo - balance hi) 2).
  destruct (Z.ltb_spec ((balance lo - balance hi) / 2) (balance lo `quot` 2));
    intros; [|zquot].
  zquot.
Qed.

(** With non-negative balances the amount is exactly half the imbalance, so the two
    balances end up within one unit of each other. *)
Lemma rebalanceAmount_half hi lo :
  0 <= balance hi -> balance hi <= balance lo ->
  balance lo - balance hi - 2 * rebalanceAmount hi lo = (balance lo - balance hi) mod 2.
Proof.
  intros H1 H2. unfold rebalanceAmount. cbv zeta.
  destruct (Z.leb_spec (balance lo - balance hi) 0).
  { assert (balance lo - balance hi = 0) as -> by lia. done. }
  rewrite !Z.quot_div_nonneg by lia.
  pose proof (Z.div_mod (balance lo - balance hi) 2).
  pose proof (Z.div_le_mono (balance lo - balance hi) (balance lo) 2).
  destruct (Z.ltb_spec ((balance lo - balance hi) / 2) (balance lo / 2)); lia.
Qed.
End Amount.

(** ** Properties of a tick's decision *)
Section DecideProperties.
Import Decide.

Lemma decideRebalance_inv st c f t a :
  decideRebalance st c = Some (Rebalance f t a) ->
  JsNum.geb (Num (nowTs st - lastRebalanceTs st)) (cooldownS c) = true
  /\ exists i hi j lo,
    findAprExtremes (strategies st) = Some ((i, hi), (j, lo)) /\ i <> j
    /\ JsNum.leb (Num (supplyAprBps hi - supplyAprBps lo)) (rebalanceBps c) = false
    /\ f = address lo /\ t = address hi /\ a = rebalanceAmount hi lo /\ 0 < a.
Proof.
  unfold decideRebalance. destruct (JsNum.geb _ _); cbn; [|done].
  destruct (findAprExtremes _) as [[[i hi] [j lo]]|]; [|done].
  case_decide; [done|]. cbv zeta.
  destruct (JsNum.leb _ _) eqn:Hd; [done|].
  destruct (Z.leb_spec (rebalanceAmount hi lo) 0); [done|].
  intros [= <- <- <-]. split; [done|]. by exists i, hi, j, lo.
Qed.

Lemma decideCompound_compound st c o :
  decideCompound st c = Ok (Some o) -> exists outs, o = Compound outs.
Proof.
  unfold decideCompound. destruct (shouldCompound st c); [|done].
  rewrite bind_Ok. intros (outs & _ & [= <-]). by exists outs.
Qed.

(** C38. Every rebalance [decide] emits is safe: its source and its target are two
    different strategies of the state, the target has the highest and the source the
    lowest rate of all strategies, the rate gap is above the threshold, the cooldown has
    elapsed, and the amount is positive, covered by the source's balance, and never
    makes the source poorer than the target. *)
Theorem decide_rebalance_safe (st : state) (c : config) (acts : list action)
    (f t : string) (a : Z)
    (Hd : decide_actions st c = Ok acts) (Hin : Rebalance f t a ∈ acts) :
  exists i hi j lo,
    strategies st !! i = Some hi /\ strategies st !! j = Some lo /\ i <> j
    /\ f = address lo /\ t = address hi
    /\ Forall (fun s => supplyAprBps lo <= supplyAprBps s <= supplyAprBps hi) (strategies st)
    /\ JsNum.leb (Num (supplyAprBps hi - supplyAprBps lo)) (rebalanceBps c) = false
    /\ JsNum.geb (Num (nowTs st - lastRebalanceTs st)) (cooldownS c) = true
    /\ 0 < a <= balance lo
    /\ balance hi + a <= balance lo - a.
Proof.
  unfold decide_actions in Hd. rewrite bind_Ok in Hd. destruct Hd as (co & Hco & [= <-]).
  apply elem_of_app in Hin as [Hin|Hin].
  { destruct co as [o|]; [|by apply elem_of_nil in Hin].
    apply list_elem_of_singleton in Hin as <-.
    by destruct (decideCompound_compound _ _ _ Hco). }
  destruct (decideRebalance st c) as [o|] eqn:Hr; [|by apply elem_of_nil in Hin].
  apply list_elem_of_singleton in Hin as <-.
  destruct (decideRebalance_inv _ _ _ _ _ Hr)
    as (Hcool & i & hi & j & lo & Hx & Hij & Hgap & -> & -> & -> & Ha).
  pose proof (findAprExtremes_ok (strategies st)) as Hok. rewrite Hx in Hok.
  destruct Hok as (Hi & Hj & HF). destruct (rebalanceAmount_bounds hi lo Ha).
  exists i, hi, j, lo. split_and!; done || lia.
Qed.

(** The vault after a rebalance of [a] from position [j] to position [i]. *)
Definition with_balance (s : strategy) (b : Z) : strategy :=
  {| address := address s; balance := b; supplyAprBps := supplyAprBps s;
     pendingInterest := pendingInterest s; blndClaimable := blndClaimable s |}.

Definition moved (l : list strategy) (i j : nat) (hi lo : strategy) (a : Z)
    : list strategy :=
  <[j := with_balance lo (balance lo - a)]> (<[i := with_balance hi (balance hi + a)]> l).

Definition with_strategies (st : state) (l : list strategy) : state :=
  {| strategies := l; idle := idle st; lastRebalanceTs := lastRebalanceTs st;
     nowTs := nowTs st; blndQuote := blndQuote st |}.

Lemma moved_rates l i j hi lo a :
  l !! i = Some hi -> l !! j = Some lo ->
  supplyAprBps <$> moved l i j hi lo a = supplyAprBps <$> l.
Proof.
  intros Hi Hj. unfold moved. rewrite !list_fmap_insert. cbn.
  rewrite (list_insert_id (supplyAprBps <$> l) i); [|by rewrite list_lookup_fmap, Hi].
  apply list_insert_id. by rewrite list_lookup_fmap, Hj.
Qed.

(** One rebalance is enough: when no balance is negative, executing the emitted
    rebalance leaves the two balances within one unit of each other, and on the state
    after it [decideRebalance] has nothing to do, whatever the configuration and the
    cooldown.  So repeated ticks at unchanged rates never oscillate. *)
Theorem rebalance_settles (st : state) (c c' : config) (f t : string) (a : Z)
    (i j : nat) (hi lo : strategy)
    (Hnn : Forall (fun s => 0 <= balance s) (strategies st))
    (Hr : decideRebalance st c = Some (Rebalance f t a))
    (Hx : findAprExtremes (strategies st) = Some ((i, hi), (j, lo))) :
  0 <= (balance lo - a) - (balance hi + a) <= 1
  /\ decideRebalance (with_strategies st (moved (strategies st) i j hi lo a)) c' = None.
Proof.
  destruct (decideRebalance_inv _ _ _ _ _ Hr)
    as (_ & i' & hi' & j' & lo' & Hx' & Hij & _ & _ & _ & -> & Ha).
  rewrite Hx in Hx'. injection Hx' as <- <- <- <-.
  pose proof (findAprExtremes_ok (strategies st)) as Hok. rewrite Hx in Hok.
  destruct Hok as (Hi & Hj & _). rewrite Forall_lookup in Hnn.
  pose proof (Hnn _ _ Hi) as Hhi. cbn in Hhi.
  destruct (rebalanceAmount_bounds hi lo Ha) as [Hle Hord].
  pose proof (rebalanceAmount_half hi lo Hhi ltac:(lia)) as Hhalf.
  pose proof (Z.mod_pos_bound (balance lo - balance hi) 2 ltac:(lia)) as Hmod.
  split; [lia|].
  set (l' := moved (strategies st) i j hi lo (rebalanceAmount hi lo)).
  pose proof (findAprExtremes_rates _ _ (moved_rates _ i j hi lo (rebalanceAmount hi lo) Hi Hj))
    as Hpos. fold l' in Hpos. rewrite Hx in Hpos. cbn in Hpos.
  pose proof (findAprExtremes_ok l') as Hok'.
  unfold decideRebalance. cbn [strategies with_strategies].
  destruct (negb _); [done|].
  destruct (findAprExtremes l') as [[[i' hi''] [j' lo'']]|]; [|done].
  cbn in Hpos. injection Hpos as -> ->. destruct Hok' as (Hi' & Hj' & _).
  pose proof (lookup_lt_Some _ _ _ Hi). pose proof (lookup_lt_Some _ _ _ Hj).
  unfold l', moved in Hi', Hj'.
  rewrite list_lookup_insert_ne, list_lookup_insert_eq in Hi' by done.
  rewrite list_lookup_insert_eq in Hj' by (by rewrite length_insert).
  injection Hi' as <-. injection Hj' as <-.
  case_decide; [done|]. cbv zeta. cbn [supplyAprBps with_balance].
  destruct (JsNum.leb _ _); [done|].
  enough (rebalanceAmount (with_balance hi (balance hi + rebalanceAmount hi lo))
            (with_balance lo (balance lo - rebalanceAmount hi lo)) <= 0) as E.
  { apply Z.leb_le in E. by rewrite E. }
  revert Hhalf Hmod Hle. generalize (rebalanceAmount hi lo). intros a Hhalf Hmod Hle.
  unfold rebalanceAmount. cbn [balance with_balance]. cbv zeta.
  destruct (Z.leb_spec (balance lo - a - (balance hi + a)) 0); [done|].
  assert (balance lo - a - (balance hi + a) = 1) as -> by lia.
  change (1 `quot` 2) with 0. destruct (Z.ltb_spec 0 ((balance lo - a) `quot` 2)); lia.
Qed.

(** The compound action protects every swap: it carries one [minOut] per strategy, in
    order; a strategy with nothing to claim or with no quote gets [0]; any other gets
    exactly its quote less the slippage fraction, which for a slippage between [0] and
    [10000] basis points lies between [0] and the quote. *)
Theorem compound_minOuts (st : state) (c : config) (outs : list Z) (slip : Z)
    (Hs : slippageBps c = Num slip) (Hr : 0 <= slip <= BPS_DENOMINATOR)
    (Hd : decideCompound st c = Ok (Some (Compound outs))) :
  Forall2 (fun s out =>
    match blndQuote st with
    | Some q =>
        if blndClaimable s <=? 0 then out = 0
        else out = (q (blndClaimable s) * (BPS_DENOMINATOR - slip)) `quot` BPS_DENOMINATOR
             /\ (0 <= q (blndClaimable s) -> 0 <= out <= q (blndClaimable s))
    | None => out = 0
    end) (strategies st) outs.
Proof.
  unfold decideCompound in Hd. destruct (shouldCompound st c); [|done].
  rewrite bind_Ok in Hd. destruct Hd as (outs' & Hm & [= ->]).
  apply map_throw_Forall2 in Hm. eapply Forall2_impl; [exact Hm|].
  intros s out. unfold minOutForStrategy. destruct (blndQuote st) as [q|]; [|by intros [= <-]].
  destruct (blndClaimable s <=? 0); [by intros [= <-]|].
  rewrite Hs. cbn. intros [= <-]. split; [done|].
  intros Hq. apply quot_fraction_le; unfold BPS_DENOMINATOR in *; lia.
Qed.

(** A tick never throws when the slippage is an integer, and emits at most two actions,
    the compound before the rebalance. *)
Lemma decide_total st c slip :
  slippageBps c = Num slip ->
  exists co, decide_actions st c = Ok (option_list co ++ option_list (decideRebalance st c))
    /\ (forall o, co = Some o -> exists outs, o = Compound outs).
Proof.
  intros Hs.
  assert (exists outs, map_throw
    (fun s => minOutForStrategy s (blndQuote st) (slippageBps c)) (strategies st) = Ok outs)
    as [outs Houts].
  { rewrite Hs. induction (strategies st) as [|s l [outs IH]]; cbn; [eauto|].
    rewrite IH. unfold minOutForStrategy.
    destruct (blndQuote st), (blndClaimable s <=? 0); cbn; eauto. }
  unfold decide_actions, decideCompound. rewrite Houts.
  destruct (shouldCompound st c); [exists (Some (Compound outs))|exists None];
    cbn; naive_solver.
Qed.
End DecideProperties.

(** ** Concrete states *)
Section DecideWitnesses.
Import Decide.

Definition low_strategy : strategy :=
  {| address := "CLOW"; balance := 9000000001; supplyAprBps := 100;
     pendingInterest := 20000000; blndClaimable := 0 |}.

Definition high_strategy : strategy :=
  {| address := "CHIGH"; balance := 1000000000; supplyAprBps := 400;
     pendingInterest := 5; blndClaimable := 700 |}.

Definition sample_state : state :=
  {| strategies := [low_strategy; high_strategy]; idle := 0; lastRebalanceTs := 0;
     nowTs := 200000; blndQuote := Some (fun a => 3 * a) |}.

Definition sample_env : env :=
  {| MIN_COMPOUND := None; REBALANCE_BPS := None; COOLDOWN_S := None;
     SLIPPAGE_BPS := None |}.

Definition sample_tick : config := buildConfig sample_env.

Example sample_decision :
  decide_actions sample_state sample_tick
  = Ok [Compound [0; 2079]; Rebalance "CLOW" "CHIGH" 4000000000].
Proof. reflexivity. Qed.

Lemma decide_rebalance_safe_witness :
  exists i hi j lo,
    strategies sample_state !! i = Some hi /\ strategies sample_state !! j = Some lo
    /\ i <> j /\ "CLOW"%string = address lo /\ "CHIGH"%string = address hi
    /\ Forall (fun s => supplyAprBps lo <= supplyAprBps s <= supplyAprBps hi)
         (strategies sample_state)
    /\ JsNum.leb (Num (supplyAprBps hi - supplyAprBps lo)) (rebalanceBps sample_tick) = false
    /\ JsNum.geb (Num (nowTs sample_state - lastRebalanceTs sample_state))
         (cooldownS sample_tick) = true
    /\ 0 < 4000000000 <= balance lo
    /\ balance hi + 4000000000 <= balance lo - 4000000000.
Proof.
  apply (decide_rebalance_safe sample_state sample_tick
           [Compound [0; 2079]; Rebalance "CLOW" "CHIGH" 4000000000]).
  - reflexivity.
  - set_solver.
Defined.

Lemma rebalance_settles_witness :
  0 <= (balance low_strategy - 4000000000) - (balance high_strategy + 4000000000) <= 1
  /\ decideRebalance
       (with_strategies sample_state
          (moved (strategies sample_state) 1 0 high_strategy low_strategy 4000000000))
       sample_tick = None.
Proof.
  apply (rebalance_settles sample_state sample_tick sample_tick "CLOW" "CHIGH").
  - repeat constructor; cbn; lia.
  - reflexivity.
  - reflexivity.
Defined.

Lemma compound_minOuts_witness :
  Forall2 (fun s out =>
    match blndQuote sample_state with
    | Some q =>
        if blndClaimable s <=? 0 then out = 0
        else out = (q (blndClaimable s) * (BPS_DENOMINATOR - 100)) `quot` BPS_DENOMINATOR
             /\ (0 <= q (blndClaimable s) -> 0 <= out <= q (blndClaimable s))
    | None => out = 0
    end) (strategies sample_state) [0; 2079].
Proof.
  apply (compound_minOuts sample_state sample_tick [0; 2079] 100).
  - reflexivity.
  - unfold BPS_DENOMINATOR. lia.
  - reflexivity.
Defined.
End DecideWitnesses.
