(* ===== verification/Lifeboat.v ===== *)
(** * Keeper: the lifeboat decision

    Models [keeper/src/lifeboat.js]: the engage and resume thresholds, the all-clear test
    of one ledger and [decideLifeboat].  A signal is [None] when it is unavailable
    ([null]); a present signal is a [Number] and may be infinite or not a number. *)
From S2P Require Import Prelude.

Module Lifeboat.

(** The reason codes shared with the vault contract. *)
Inductive reason := UTIL_SPIKE | LIQ_DROP | ORACLE_DIVERGENCE.

#[global] Instance reason_eq_dec : EqDecision reason.
Proof. solve_decision. Defined.

Definition REASON (r : reason) : Z :=
  match r with UTIL_SPIKE => 1 | LIQ_DROP => 2 | ORACLE_DIVERGENCE => 3 end.

Record config := {
  utilEngageBps : num;
  utilResumeBps : num;
  liqDropEngageBps : num;
  oracleDivEngageBps : num;
  oracleDivResumeBps : num;
  allClearLedgers : num;
}.

(** The environment, each variable absent or carrying [Number] of its text. *)
Record env := {
  LIFEBOAT_UTIL_ENGAGE_BPS : option num;
  LIFEBOAT_UTIL_RESUME_BPS : option num;
  LIFEBOAT_LIQ_DROP_ENGAGE_BPS : option num;
  LIFEBOAT_ORACLE_DIV_ENGAGE_BPS : option num;
  LIFEBOAT_ORACLE_DIV_RESUME_BPS : option num;
  LIFEBOAT_ALL_CLEAR_LEDGERS : option num;
}.

Definition num_or (parsed : option num) (fallback : Z) : num :=
  match parsed with
  | Some n => if JsNum.isFinite n then n else Num fallback
  | None => Num fallback
  end.

Definition defaultConfig (e : env) : config :=
  {| utilEngageBps := num_or (LIFEBOAT_UTIL_ENGAGE_BPS e) 9500;
     utilResumeBps := num_or (LIFEBOAT_UTIL_RESUME_BPS e) 8500;
     liqDropEngageBps := num_or (LIFEBOAT_LIQ_DROP_ENGAGE_BPS e) 3000;
     oracleDivEngageBps := num_or (LIFEBOAT_ORACLE_DIV_ENGAGE_BPS e) 2500;
     oracleDivResumeBps := num_or (LIFEBOAT_ORACLE_DIV_RESUME_BPS e) 500;
     allClearLedgers := num_or (LIFEBOAT_ALL_CLEAR_LEDGERS e) 100 |}.

Record signals := {
  utilizationBps : option num;
  liqDropBps : option num;
  oracleDivergenceBps : option num;
}.

#[global] Instance signals_eq_dec : EqDecision signals.
Proof. solve_decision. Defined.

(** [signal !== null && signal >= threshold] *)
Definition fires (s : option num) (threshold : num) : bool :=
  match s with None => false | Some n => JsNum.geb n threshold end.

Definition isNormal (s : signals) (c : config) : bool :=
  match utilizationBps s with
  | None => false
  | Some u =>
      if JsNum.geb u (utilResumeBps c) then false
      else if fires (liqDropBps s) (liqDropEngageBps c) then false
      else if fires (oracleDivergenceBps s) (oracleDivResumeBps c) then false
      else true
  end.

(** Highest severity first; an absent signal never fires. *)
Definition engageReason (s : signals) (c : config) : option reason :=
  if fires (oracleDivergenceBps s) (oracleDivEngageBps c) then Some ORACLE_DIVERGENCE
  else if fires (liqDropBps s) (liqDropEngageBps c) then Some LIQ_DROP
  else if fires (utilizationBps s) (utilEngageBps c) then Some UTIL_SPIKE
  else None.

Record state := {
  derisked : bool;
  mandateExpiry : Z;
  nowTs : Z;
  state_signals : signals;
  normalStreak : Z;
}.

Inductive action := Derisk (r : reason) | Alarm (r : reason) | Resume.

#[global] Instance action_eq_dec : EqDecision action.
Proof. solve_decision. Defined.

Definition mandateOk (st : state) : bool :=
  (mandateExpiry st >? 0) && (nowTs st <? mandateExpiry st).

Definition decideLifeboat (st : state) (c : config) : option action :=
  if negb (derisked st) then
    match engageReason (state_signals st) c with
    | None => None
    | Some r => Some (if mandateOk st then Derisk r else Alarm r)
    end
  else if mandateOk st && JsNum.geb (Num (normalStreak st)) (allClearLedgers c)
  then Some Resume
  else None.

(** A configuration has hysteresis when it resumes below where it engages; an engage
    threshold is a number. *)
Definition hysteresis (c : config) : Prop :=
  JsNum.leb (utilResumeBps c) (utilEngageBps c) = true
  /\ JsNum.leb (oracleDivResumeBps c) (oracleDivEngageBps c) = true.

End Lifeboat.

(** ** Properties *)
Section LifeboatProperties.
Import Lifeboat.

Lemma geb_trans a b d :
  JsNum.leb b d = true -> JsNum.geb a d = true -> JsNum.geb a b = true.
Proof. destruct a, b, d; cbv [JsNum.leb JsNum.geb]; intros; zbool; try done; try lia. Qed.

Lemma fires_mono s lo hi :
  JsNum.leb lo hi = true -> fires s lo = false -> fires s hi = false.
Proof.
  destruct s as [n|]; [|done]. cbn. intros Hle Hlo.
  destruct (JsNum.geb n hi) eqn:E; [|done]. by rewrite (geb_trans n lo hi) in Hlo.
Qed.

Lemma isNormal_quiet s c :
  hysteresis c -> isNormal s c = true -> engageReason s c = None.
Proof.
  intros [Hu Ho]. unfold isNormal, engageReason.
  destruct (utilizationBps s) as [u|] eqn:Eu; [|done].
  destruct (JsNum.geb u (utilResumeBps c)) eqn:H1; [done|].
  destruct (fires (liqDropBps s) _); [done|].
  destruct (fires (oracleDivergenceBps s) (oracleDivResumeBps c)) eqn:H2; [done|].
  pose proof (fires_mono (Some u) _ _ Hu H1) as H3. cbn in H3 |- *.
  by rewrite (fires_mono _ _ _ Ho H2), H3.
Qed.

(** The defaults, and any environment that overrides no threshold, have hysteresis. *)
Lemma default_hysteresis :
  hysteresis (defaultConfig {|
    LIFEBOAT_UTIL_ENGAGE_BPS := None; LIFEBOAT_UTIL_RESUME_BPS := None;
    LIFEBOAT_LIQ_DROP_ENGAGE_BPS := None; LIFEBOAT_ORACLE_DIV_ENGAGE_BPS := None;
    LIFEBOAT_ORACLE_DIV_RESUME_BPS := None; LIFEBOAT_ALL_CLEAR_LEDGERS := None |}).
Proof. by split. Qed.

Lemma mandateOk_iff st : mandateOk st = true <-> 0 < mandateExpiry st /\ nowTs st < mandateExpiry st.
Proof. unfold mandateOk. rewrite andb_true_iff, Z.gtb_ltb, !Z.ltb_lt. done. Qed.

Lemma mandateOk_false st :
  mandateOk st = false -> mandateExpiry st <= 0 \/ mandateExpiry st <= nowTs st.
Proof.
  unfold mandateOk. rewrite andb_false_iff, Z.gtb_ltb, !Z.ltb_ge. done.
Qed.

(** Severity of a reason: the order in which reasons win. *)
Definition signal_fires (s : signals) (c : config) (r : reason) : bool :=
  match r with
  | ORACLE_DIVERGENCE => fires (oracleDivergenceBps s) (oracleDivEngageBps c)
  | LIQ_DROP => fires (liqDropBps s) (liqDropEngageBps c)
  | UTIL_SPIKE => fires (utilizationBps s) (utilEngageBps c)
  end.

Lemma engageReason_spec s c :
  match engageReason s c with
  | None => forall r, signal_fires s c r = false
  | Some r => signal_fires s c r = true
              /\ forall r', signal_fires s c r' = true -> REASON r' <= REASON r
  end.
Proof.
  unfold engageReason.
  destruct (fires (oracleDivergenceBps s) _) eqn:E1;
    [|destruct (fires (liqDropBps s) _) eqn:E2;
      [|destruct (fires (utilizationBps s) _) eqn:E3]].
  - split; [done|]. intros []; cbn; lia.
  - split; [done|]. intros []; cbn; congruence || lia.
  - split; [done|]. intros []; cbn; congruence || lia.
  - by intros [].
Qed.

(** The lifeboat decision, completely: on a vault that is not de-risked it acts exactly
    when some live signal is at its engage threshold, with the most severe reason that
    fires, and it moves funds only under a live mandate, raising an alarm otherwise; on a
    de-risked vault it resumes exactly when the mandate is live and the streak of normal
    ledgers is long enough, and never de-risks again. *)
Theorem decideLifeboat_spec (st : state) (c : config) :
  match decideLifeboat st c with
  | Some (Derisk r) =>
      derisked st = false /\ 0 < mandateExpiry st /\ nowTs st < mandateExpiry st
      /\ signal_fires (state_signals st) c r = true
      /\ (forall r', signal_fires (state_signals st) c r' = true -> REASON r' <= REASON r)
  | Some (Alarm r) =>
      derisked st = false /\ (mandateExpiry st <= 0 \/ mandateExpiry st <= nowTs st)
      /\ signal_fires (state_signals st) c r = true
      /\ (forall r', signal_fires (state_signals st) c r' = true -> REASON r' <= REASON r)
  | Some Resume =>
      derisked st = true /\ 0 < mandateExpiry st /\ nowTs st < mandateExpiry st
      /\ JsNum.geb (Num (normalStreak st)) (allClearLedgers c) = true
  | None =>
      (derisked st = false /\ forall r, signal_fires (state_signals st) c r = false)
      \/ (derisked st = true
          /\ (mandateExpiry st <= 0 \/ mandateExpiry st <= nowTs st
              \/ JsNum.geb (Num (normalStreak st)) (allClearLedgers c) = false))
  end.
Proof.
  unfold decideLifeboat.
  pose proof (engageReason_spec (state_signals st) c) as HR.
  destruct (mandateOk st) eqn:HM;
    [apply mandateOk_iff in HM as [? ?]|apply mandateOk_false in HM];
    destruct (derisked st); cbn.
  - destruct (JsNum.geb _ _) eqn:E; [done|]. right. split; [done|]. by right; right.
  - destruct (engageReason _ _) as [r|]; [|by left]. by destruct HR.
  - right. split; [done|]. tauto.
  - destruct (engageReason _ _) as [r|]; [|by left]. by destruct HR.
Qed.

(** No flapping: with a configuration whose resume thresholds are not above its engage
    thresholds, a ledger that counts as normal engages nothing, so signals good enough to
    extend the all-clear streak can never de-risk the vault right after it resumed. *)
Theorem normal_ledger_never_engages (st : state) (c : config)
    (Hh : hysteresis c) (Hn : isNormal (state_signals st) c = true)
    (Hd : derisked st = false) :
  decideLifeboat st c = None.
Proof. unfold decideLifeboat. rewrite Hd. cbn. by rewrite isNormal_quiet. Qed.

Definition calm_state : state :=
  {| derisked := false; mandateExpiry := 2000; nowTs := 1000;
     state_signals := {| utilizationBps := Some (Num 8400); liqDropBps := Some (Num 2999);
                         oracleDivergenceBps := None |};
     normalStreak := 0 |}.

Definition default_config : config :=
  defaultConfig {|
    LIFEBOAT_UTIL_ENGAGE_BPS := None; LIFEBOAT_UTIL_RESUME_BPS := None;
    LIFEBOAT_LIQ_DROP_ENGAGE_BPS := None; LIFEBOAT_ORACLE_DIV_ENGAGE_BPS := None;
    LIFEBOAT_ORACLE_DIV_RESUME_BPS := None; LIFEBOAT_ALL_CLEAR_LEDGERS := None |}.

Lemma normal_ledger_never_engages_witness : decideLifeboat calm_state default_config = None.
Proof.
  apply (normal_ledger_never_engages calm_state default_config).
  - split; reflexivity.
  - reflexivity.
  - reflexivity.
Defined.
End LifeboatProperties.
