(* ===== verification/Radar.v ===== *)
(** * Keeper: the lifeboat radar loop

    Models [keeper/src/radar.js].  The outcomes of the injected dependencies ([read],
    [submit], [latestLedger], [refPrices]) are inputs of a poll, a throwing one being
    [Throw]; what the loop does to the outside (log lines, submitted transactions) is a
    list of events.  Prices are IEEE doubles, computed with the standard library's
    [SpecFloat]; [Math.round] and the comparisons are those of JavaScript. *)
From Stdlib Require Import Sorted.
From S2P Require Import Prelude JsFloat Lifeboat.

Module Price.

Import Float.

Abbreviation price := float.

(** [sort((a, b) => a - b)] *)
Fixpoint insert_sorted (x : price) (l : list price) : list price :=
  match l with
  | [] => [x]
  | y :: l' => if SFleb x y then x :: l else y :: insert_sorted x l'
  end.

Fixpoint sort (l : list price) : list price :=
  match l with [] => [] | x :: l => insert_sorted x (sort l) end.

Definition valid_refs (l : list price) : list price :=
  List.filter (fun p => isFinite p && SFltb zero p) l.

Definition median (refs : list price) : price :=
  nth (Nat.div2 (length refs)) (sort refs) zero.

Definition divergenceBps (poolPrice : option price) (refPrices : option (list price))
    : option num :=
  match poolPrice with
  | None => None
  | Some p =>
      let refs := valid_refs (default [] refPrices) in
      match refs with
      | [] => None
      | _ =>
          let m := median refs in
          Some (round (mul (div (SFabs (sub p m)) m) (of_Z 10000)))
      end
  end.

End Price.

Module Radar.

Import Lifeboat.

Definition liqDropBpsFrom (prevLiq currentLiq : option Z) : option num :=
  match prevLiq, currentLiq with
  | Some p, Some cur =>
      if p <=? 0 then None
      else
        let drop := ((p - cur) * 10000) `quot` p in
        Some (Num (if drop >? 0 then drop else 0))
  | _, _ => None
  end.

(** What [readLifeboatChainState] returns. *)
Record chain := {
  c_utilizationBps : option num;
  availableLiquidity : option Z;
  poolPrice : option Price.price;
  c_derisked : bool;
  c_mandateExpiry : Z;
  c_nowTs : Z;
  pendingUpgrade : option (string * Z);
}.

(** [memo] together with the module variable [lastSeenUpgradeKey]; the key
    [`${wasmHashHex}:${eta}`] is kept as the pair, a hexadecimal hash having no colon. *)
Record memo := {
  prevLiq : option Z;
  m_normalStreak : Z;
  inFlight : bool;
  lastSeenUpgradeKey : option (string * Z);
}.

Definition initial_memo : memo :=
  {| prevLiq := None; m_normalStreak := 0; inFlight := false; lastSeenUpgradeKey := None |}.

Inductive event :=
| ReadFailed
| PendingUpgrade (hash : string) (eta : Z)
| UpgradeCleared
| Danger (r : reason)
| Submit (a : action)
| Submitted (a : action) (hash : string)
| SubmitFailed (a : action)
| LoopError.

Inductive fault := Fault.

(** [new Date(ms).toISOString()] throws outside the range of dates. *)
Definition date_in_range (ms : Z) : bool := Z.abs ms <=? 8640000000000000.

(** [logPendingUpgrade]: the new key, the log lines, and whether the call throws; the key
    is stored before the date is formatted. *)
Definition logPendingUpgrade (last pending : option (string * Z))
    : option (string * Z) * result fault (list event) :=
  if decide (pending = last) then (last, Ok [])
  else
    (pending,
     match pending with
     | Some (hash, eta) =>
         if date_in_range (eta * 1000) then Ok [PendingUpgrade hash eta] else Throw Fault
     | None => Ok [UpgradeCleared]
     end).

Definition set_key (m : memo) (k : option (string * Z)) : memo :=
  {| prevLiq := prevLiq m; m_normalStreak := m_normalStreak m; inFlight := inFlight m;
     lastSeenUpgradeKey := k |}.

Definition set_observed (m : memo) (liq : option Z) (streak : Z) : memo :=
  {| prevLiq := liq; m_normalStreak := streak; inFlight := inFlight m;
     lastSeenUpgradeKey := lastSeenUpgradeKey m |}.

Definition set_inFlight (m : memo) (b : bool) : memo :=
  {| prevLiq := prevLiq m; m_normalStreak := m_normalStreak m; inFlight := b;
     lastSeenUpgradeKey := lastSeenUpgradeKey m |}.

Definition tick_signals (m : memo) (ch : chain) (refs : option (list Price.price)) : signals :=
  {| utilizationBps := c_utilizationBps ch;
     liqDropBps := liqDropBpsFrom (prevLiq m) (availableLiquidity ch);
     oracleDivergenceBps := Price.divergenceBps (poolPrice ch) refs |}.

Definition tick_streak (m : memo) (ch : chain) (s : signals) (c : config) : Z :=
  if c_derisked ch && isNormal s c then m_normalStreak m + 1 else 0.

Definition tick_state (ch : chain) (s : signals) (streak : Z) : state :=
  {| derisked := c_derisked ch; mandateExpiry := c_mandateExpiry ch; nowTs := c_nowTs ch;
     state_signals := s; normalStreak := streak |}.

(** What [radarTick] returns; [Skipped] is the tick whose read failed. *)
Inductive outcome :=
| Skipped
| Thrown
| Evaluated (ch : chain) (s : signals) (a : option action).

(** The [try { submit } catch finally] of a fund-moving action. *)
Definition submit_action (m : memo) (a : action) (submit : result fault string)
    : memo * list event :=
  let m := set_inFlight m true in
  let events :=
    Submit a :: [match submit with Ok h => Submitted a h | Throw _ => SubmitFailed a end] in
  (set_inFlight m false, events).

Definition radarTick (c : config) (refs : option (list Price.price))
    (read : result fault chain) (submit : result fault string) (m : memo)
    : memo * list event * outcome :=
  match read with
  | Throw _ => (m, [ReadFailed], Skipped)
  | Ok ch =>
      let '(key, logged) := logPendingUpgrade (lastSeenUpgradeKey m) (pendingUpgrade ch) in
      let m := set_key m key in
      match logged with
      | Throw _ => (m, [], Thrown)
      | Ok log =>
          let s := tick_signals m ch refs in
          let streak := tick_streak m ch s c in
          let m := set_observed m (availableLiquidity ch) streak in
          let a := decideLifeboat (tick_state ch s streak) c in
          match a with
          | Some (Alarm r) => (m, log ++ [Danger r], Evaluated ch s a)
          | Some act =>
              if negb (inFlight m) then
                let '(m, ev) := submit_action m act submit in
                (m, log ++ ev, Evaluated ch s a)
              else (m, log, Evaluated ch s a)
          | None => (m, log, Evaluated ch s a)
          end
      end
  end.

(** One iteration of [runRadar]'s loop: the answers of the four dependencies.  [p_refs] is
    [None] when [deps.refPrices] is not configured. *)
Record poll := {
  p_ledger : result fault Z;
  p_refs : option (result fault (option (list Price.price)));
  p_read : result fault chain;
  p_submit : result fault string;
}.

Record loop := {
  lastSeq : Z;
  refPrices : option (list Price.price);
  l_memo : memo;
}.

Definition initial_loop : loop :=
  {| lastSeq := 0; refPrices := None; l_memo := initial_memo |}.

(** The result says which ledger was evaluated, if any. *)
Definition radarPoll (c : config) (l : loop) (p : poll)
    : loop * list event * option (Z * outcome) :=
  match p_ledger p with
  | Throw _ => (l, [LoopError], None)
  | Ok seq =>
      if seq >? lastSeq l then
        let fetched := match p_refs p with Some r => r | None => Ok None end in
        match fetched with
        | Throw _ =>
            ({| lastSeq := seq; refPrices := refPrices l; l_memo := l_memo l |},
             [LoopError], None)
        | Ok refs =>
            let '(m, ev, o) := radarTick c refs (p_read p) (p_submit p) (l_memo l) in
            ({| lastSeq := seq; refPrices := refs; l_memo := m |},
             ev ++ (match o with Thrown => [LoopError] | _ => [] end), Some (seq, o))
        end
      else (l, [], None)
  end.

(** The loop over a sequence of polls: final state and the trace of every poll. *)
Fixpoint runRadar (c : config) (l : loop) (ps : list poll)
    : loop * list (list event * option (Z * outcome)) :=
  match ps with
  | [] => (l, [])
  | p :: ps =>
      let '(l1, ev, o) := radarPoll c l p in
      let '(l2, tr) := runRadar c l1 ps in
      (l2, (ev, o) :: tr)
  end.

End Radar.

(** ** The trace of a run *)
Section RadarTrace.
Import Lifeboat Radar.

Context (c : config).

Abbreviation poll_trace := (list event * option (Z * outcome))%type.

(** The evaluated ledgers of a trace, with the chain state and the signals of each. *)
Definition evaluated (x : poll_trace) : list (chain * signals) :=
  match x.2 with Some (_, Evaluated ch s _) => [(ch, s)] | _ => [] end.

Definition evaluations (tr : list poll_trace) : list (chain * signals) := tr ≫= evaluated.

Definition ledgers (tr : list poll_trace) : list Z :=
  omap (fun x : poll_trace => fst <$> x.2) tr.

(** An evaluation that extends the all-clear streak. *)
Definition all_clear (e : chain * signals) : Prop :=
  c_derisked e.1 = true /\ isNormal e.2 c = true.

Definition submissions (ev : list event) : list action :=
  omap (fun e => match e with Submit a => Some a | _ => None end) ev.

Definition moves_funds (a : action) : bool :=
  match a with Alarm _ => false | _ => true end.

(** The actions a poll's outcome calls for. *)
Definition due (o : option (Z * outcome)) : list action :=
  match o with
  | Some (_, Evaluated _ _ (Some a)) => if moves_funds a then [a] else []
  | _ => []
  end.

Lemma submitted_app e1 e2 : submissions (e1 ++ e2) = submissions e1 ++ submissions e2.
Proof. apply omap_app. Qed.

Lemma logPendingUpgrade_quiet last pending log :
  (logPendingUpgrade last pending).2 = Ok log -> submissions log = [].
Proof.
  unfold logPendingUpgrade. case_decide; cbn; [by intros [= <-]|].
  destruct pending as [[h e]|]; [destruct (date_in_range _)|]; cbn; by intros [= <-].
Qed.

(** What one poll does, in terms of the decision it evaluates. *)
Definition poll_inv (l : loop) (past : list (chain * signals)) : Prop :=
  inFlight (l_memo l) = false
  /\ exists pre suf, past = pre ++ suf /\ Forall all_clear suf
     /\ m_normalStreak (l_memo l) = Z.of_nat (length suf).

Definition evaluation_ok (past : list (chain * signals)) (o : option (Z * outcome)) : Prop :=
  match o with
  | Some (_, Evaluated ch s a) =>
      exists k, a = decideLifeboat (tick_state ch s (Z.of_nat k)) c
        /\ exists pre suf, past ++ [(ch, s)] = pre ++ suf /\ Forall all_clear suf
           /\ length suf = k
  | _ => True
  end.

Lemma radarTick_spec refs read submit m past :
  inFlight m = false ->
  (exists pre suf, past = pre ++ suf /\ Forall all_clear suf
     /\ m_normalStreak m = Z.of_nat (length suf)) ->
  let '(m', ev, o) := radarTick c refs read submit m in
  inFlight m' = false
  /\ (exists pre suf, past ++ evaluated (ev, Some (0, o)) = pre ++ suf
        /\ Forall all_clear suf /\ m_normalStreak m' = Z.of_nat (length suf))
  /\ evaluation_ok past (Some (0, o))
  /\ submissions ev = due (Some (0, o)).
Proof.
  intros Hf (pre & suf & -> & Hsuf & Hk). unfold radarTick.
  destruct read as [ch|e]; cbn [evaluated];
    [|cbn; rewrite app_nil_r; split_and!; try done; by exists pre, suf].
  pose proof (logPendingUpgrade_quiet (lastSeenUpgradeKey m) (pendingUpgrade ch)) as Hq.
  destruct (logPendingUpgrade _ _) as [key logged]; cbn in Hq |- *.
  destruct logged as [log|e]; [specialize (Hq log eq_refl)|];
    [|cbn; rewrite app_nil_r; split_and!; try done; by exists pre, suf].
  set (s := tick_signals (set_key m key) ch refs).
  set (k := tick_streak (set_key m key) ch s c).
  assert (exists pre' suf', (pre ++ suf) ++ [(ch, s)] = pre' ++ suf'
            /\ Forall all_clear suf' /\ k = Z.of_nat (length suf'))
    as (pre' & suf' & Hp' & Hsuf' & Hk').
  { unfold k, tick_streak. destruct (c_derisked ch && isNormal s c) eqn:E.
    - apply andb_prop in E as [E1 E2]. exists pre, (suf ++ [(ch, s)]).
      rewrite app_assoc, length_app. split_and!; [done| |cbn; lia].
      apply Forall_app_2; [done|]. by apply Forall_singleton.
    - exists ((pre ++ suf) ++ [(ch, s)]), []. rewrite app_nil_r. by split_and!. }
  assert (evaluation_ok (pre ++ suf)
            (Some (0, Evaluated ch s (decideLifeboat (tick_state ch s k) c)))) as Hev.
  { exists (length suf'). rewrite <- Hk'. split; [done|]. by exists pre', suf'. }
  destruct (decideLifeboat (tick_state ch s k) c) as [[r|r|]|]; cbn;
    rewrite ?Hf; cbn; rewrite ?submitted_app, ?Hq; cbn;
    (split_and!; [done|by exists pre', suf'|exact Hev|]); try done;
    by destruct submit.
Qed.

Lemma radarPoll_spec l p past :
  poll_inv l past ->
  let '(l', ev, o) := radarPoll c l p in
  poll_inv l' (past ++ evaluated (ev, o))
  /\ evaluation_ok past o /\ submissions ev = due o
  /\ lastSeq l <= lastSeq l'
  /\ (forall seq out, o = Some (seq, out) -> lastSeq l < seq /\ lastSeq l' = seq).
Proof.
  intros [Hf Hs]. unfold radarPoll.
  assert (poll_inv l (past ++ [])) by (rewrite app_nil_r; by split).
  destruct (p_ledger p) as [seq|]; [|by split_and!].
  destruct (Z.gtb_spec seq (lastSeq l)); [|by split_and!].
  assert (poll_inv {| lastSeq := seq; refPrices := refPrices l; l_memo := l_memo l |}
            (past ++ [])) by (rewrite app_nil_r; by split).
  destruct (match p_refs p with Some r => r | None => Ok None end) as [refs|];
    [|split_and!; cbn; try done; lia].
  pose proof (radarTick_spec refs (p_read p) (p_submit p) (l_memo l) past Hf Hs) as HT.
  destruct (radarTick c refs (p_read p) (p_submit p) (l_memo l)) as [[m ev] o].
  destruct HT as (Hf' & Hs' & He & Hsub). split_and!; cbn [lastSeq].
  - split; [done|]. by destruct o.
  - by destruct o.
  - rewrite submitted_app, Hsub. destruct o; cbn; by rewrite ?app_nil_r.
  - lia.
  - intros seq' out [= <- <-]. lia.
Qed.

Lemma runRadar_spec l ps past tr1 x tr2 :
  poll_inv l past -> (runRadar c l ps).2 = tr1 ++ x :: tr2 ->
  evaluation_ok (past ++ evaluations tr1) x.2 /\ submissions x.1 = due x.2.
Proof.
  revert l past tr1. induction ps as [|p ps IH]; intros l past tr1 HI; cbn.
  { intros H. by destruct tr1. }
  pose proof (radarPoll_spec l p past HI) as HP.
  destruct (radarPoll c l p) as [[l1 ev] o].
  destruct HP as (HI' & He & Hsub & _).
  destruct (runRadar c l1 ps) as [l2 tr] eqn:Er.
  destruct tr1 as [|y tr1]; cbn; intros [= <- Htr].
  - by rewrite app_nil_r.
  - subst tr. unfold evaluations. cbn. rewrite app_assoc.
    apply (IH l1 (past ++ evaluated (ev, o)) tr1 HI'). by rewrite Er.
Qed.

Lemma initial_poll_inv : poll_inv initial_loop [].
Proof. split; [done|]. by exists [], []. Qed.

Lemma runRadar_ledgers l ps :
  Forall (fun s => lastSeq l < s) (ledgers (runRadar c l ps).2)
  /\ StronglySorted Z.lt (ledgers (runRadar c l ps).2).
Proof.
  revert l. induction ps as [|p ps IH]; intros l; cbn; [by split; constructor|].
  assert (lastSeq l <= lastSeq (radarPoll c l p).1.1
    /\ (forall seq out, (radarPoll c l p).2 = Some (seq, out) ->
        lastSeq l < seq /\ lastSeq (radarPoll c l p).1.1 = seq)) as [Hle Hsome].
  { unfold radarPoll. destruct (p_ledger p) as [seq|]; [|by split].
    destruct (Z.gtb_spec seq (lastSeq l)); [|by split].
    destruct (match p_refs p with Some r => r | None => Ok None end) as [refs|];
      [|split; cbn; [lia|done]].
    destruct (radarTick c refs (p_read p) (p_submit p) (l_memo l)) as [[m ev] o]. cbn.
    split; [lia|]. intros ? ? [= <- <-]. lia. }
  destruct (radarPoll c l p) as [[l1 ev] o]. cbn in Hle, Hsome.
  specialize (IH l1). destruct (runRadar c l1 ps) as [l2 tr]. cbn in IH |- *.
  destruct IH as [IH1 IH2].
  destruct o as [[seq out]|]; cbn.
  - destruct (Hsome seq out eq_refl) as [H1 H2]. rewrite H2 in IH1. split.
    + constructor; [done|]. eapply Forall_impl; [exact IH1|]. cbn. lia.
    + constructor; [done|]. exact IH1.
  - split; [|done]. eapply Forall_impl; [exact IH1|]. cbn. lia.
Qed.
End RadarTrace.

(** ** Properties of the radar loop *)
Section RadarProperties.
Import Lifeboat Radar.

(** The radar resumes a de-risked vault only after an unbroken all-clear: in a run from
    the start, whenever a poll submits [Resume], that poll's mandate is live, its vault is
    de-risked, and the last [N] evaluated ledgers, the current one included and [N] being
    the configured [allClearLedgers], were all de-risked ledgers with every signal normal;
    ledgers whose read failed are not counted. *)
Theorem radar_resume_after_all_clear (c : config) (N : Z) (ps : list poll)
    (tr1 tr2 : list (list event * option (Z * outcome)))
    (ev : list event) (o : option (Z * outcome))
    (HN : allClearLedgers c = Num N)
    (Hrun : (runRadar c initial_loop ps).2 = tr1 ++ (ev, o) :: tr2)
    (Hsub : Submit Resume ∈ ev) :
  exists seq ch s pre suf,
    o = Some (seq, Evaluated ch s (Some Resume))
    /\ c_derisked ch = true
    /\ 0 < c_mandateExpiry ch /\ c_nowTs ch < c_mandateExpiry ch
    /\ evaluations (tr1 ++ [(ev, o)]) = pre ++ suf
    /\ N <= Z.of_nat (length suf)
    /\ Forall (all_clear c) suf.
Proof.
  destruct (runRadar_spec c initial_loop ps [] tr1 (ev, o) tr2 (initial_poll_inv c) Hrun)
    as [He Hs]. cbn in He, Hs.
  assert (Resume ∈ due o) as Hdue.
  { rewrite <- Hs. apply list_elem_of_omap. exists (Submit Resume). by split. }
  destruct o as [[seq [| |ch s [a|]]]|]; try by apply elem_of_nil in Hdue.
  cbn in Hdue. assert (a = Resume) as ->.
  { destruct (moves_funds a); [|by apply elem_of_nil in Hdue].
    by apply list_elem_of_singleton in Hdue. }
  destruct He as (k & Ha & pre & suf & Hp & Hsuf & Hlen). subst k.
  pose proof (decideLifeboat_spec (tick_state ch s (Z.of_nat (length suf))) c) as Hspec.
  rewrite <- Ha in Hspec. destruct Hspec as (Hd & H1 & H2 & H3).
  rewrite HN in H3. unfold JsNum.geb, JsNum.leb in H3. zbool. cbn in H3.
  exists seq, ch, s, pre, suf. split_and!; try done.
  unfold evaluations. rewrite bind_app. cbn. exact Hp.
Qed.

(** The radar submits exactly what it decides, once, and never twice for a ledger: in a
    run from the start the transactions a poll submits are the fund-moving action its
    evaluation decided (nothing when it skipped, failed, raised an alarm or decided
    nothing), each such action is decided under a live mandate, and the evaluated ledgers
    are strictly increasing. *)
Theorem radar_submits_decisions (c : config) (ps : list poll) :
  StronglySorted Z.lt (ledgers (runRadar c initial_loop ps).2)
  /\ Forall (fun x : list event * option (Z * outcome) =>
       submissions x.1 = due x.2
       /\ forall a, a ∈ submissions x.1 ->
          exists seq ch s, x.2 = Some (seq, Evaluated ch s (Some a))
            /\ c_nowTs ch < c_mandateExpiry ch
            /\ c_derisked ch = match a with Resume => true | _ => false end)
     (runRadar c initial_loop ps).2.
Proof.
  split; [apply runRadar_ledgers|].
  apply Forall_lookup. intros i [ev o] Hi. cbn.
  destruct (list_elem_of_split_length _ _ _ Hi) as (tr1 & tr2 & Htr & _).
  destruct (runRadar_spec c initial_loop ps [] tr1 (ev, o) tr2 (initial_poll_inv c) Htr)
    as [He Hs]. cbn in He, Hs. split; [done|]. rewrite Hs. intros a Ha.
  destruct o as [[seq [| |ch s [a'|]]]|]; try by apply elem_of_nil in Ha.
  cbn in Ha. destruct (moves_funds a') eqn:Hm; [|by apply elem_of_nil in Ha].
  apply list_elem_of_singleton in Ha as ->.
  destruct He as (k & Hk & _).
  pose proof (decideLifeboat_spec (tick_state ch s (Z.of_nat k)) c) as Hspec.
  rewrite <- Hk in Hspec. exists seq, ch, s.
  destruct a'; [| done|]; cbn in Hspec; naive_solver.
Qed.

(** The oracle detector is off exactly when the pool price or every usable reference price
    is missing, so a detector that is off never engages the lifeboat. *)
Lemma divergenceBps_None p refs :
  Price.divergenceBps p refs = None
  <-> p = None \/ Price.valid_refs (default [] refs) = [].
Proof.
  unfold Price.divergenceBps. destruct p as [p|]; [|naive_solver].
  destruct (Price.valid_refs _); naive_solver.
Qed.

Example divergence_10_percent :
  Price.divergenceBps (Some (Float.of_Z 11)) (Some [Float.of_Z 10; Float.of_Z 9; Float.of_Z 30])
  = Some (Num 1000).
Proof. vm_compute. reflexivity. Qed.

(** A vault that is de-risked and calm for three ledgers, the second of which is polled
    twice, with [allClearLedgers] two. *)
Definition calm_chain : chain :=
  {| c_utilizationBps := Some (Num 5000); availableLiquidity := Some 1000;
     poolPrice := None; c_derisked := true; c_mandateExpiry := 500; c_nowTs := 100;
     pendingUpgrade := None |}.

Definition calm_poll (seq : Z) : poll :=
  {| p_ledger := Ok seq; p_refs := None; p_read := Ok calm_chain; p_submit := Ok "h"%string |}.

Definition two_ledger_config : config :=
  {| utilEngageBps := Num 9500; utilResumeBps := Num 8500; liqDropEngageBps := Num 3000;
     oracleDivEngageBps := Num 2500; oracleDivResumeBps := Num 500;
     allClearLedgers := Num 2 |}.

Definition calm_trace : list (list event * option (Z * outcome)) :=
  (runRadar two_ledger_config initial_loop [calm_poll 7; calm_poll 7; calm_poll 8]).2.

Lemma radar_resume_after_all_clear_witness :
  exists seq ch s pre suf,
    nth 2 calm_trace ([], None)
    = (nth 2 (calm_trace.*1) [], Some (seq, Evaluated ch s (Some Resume)))
    /\ c_derisked ch = true
    /\ 0 < c_mandateExpiry ch /\ c_nowTs ch < c_mandateExpiry ch
    /\ evaluations (take 2 calm_trace ++ [nth 2 calm_trace ([], None)]) = pre ++ suf
    /\ 2 <= Z.of_nat (length suf)
    /\ Forall (all_clear two_ledger_config) suf.
Proof.
  destruct (radar_resume_after_all_clear two_ledger_config 2
              [calm_poll 7; calm_poll 7; calm_poll 8] (take 2 calm_trace) []
              (nth 2 calm_trace ([], None)).1 (nth 2 calm_trace ([], None)).2)
    as (seq & ch & s & pre & suf & Ho & H); [reflexivity|reflexivity|cbn; set_solver|].
  exists seq, ch, s, pre, suf. split; [|exact H].
  rewrite <- Ho. reflexivity.
Defined.
End RadarProperties.
