(* ===== verification/KeeperChain.v ===== *)
(** * Keeper: reading the chain, submitting, and the scheduled tick

    Models [keeper/src/chain.js] and the handler of [keeper/src/index.js].  The Stellar SDK
    is a parameter: a [call] names one simulated contract call (or ledger query) the keeper
    makes and the type its answer decodes to, and [perform] runs it in a world [W] of the
    network, possibly failing.  Everything the keeper does with the answers (defaults,
    lookups, fallbacks, the order of the calls) is defined here. *)
From S2P Require Import Prelude JsFloat KeeperRates KeeperDecide Lifeboat Radar.

Module Chain.

(** [get_user_emissions]: absent, a bare amount, a record with [accrued], or another shape. *)
Inductive emissions := NoEmissions | Amount (z : Z) | Accrued (z : Z) | OtherShape.

(** The actions [submit] accepts; an action of an unknown type has its own constructor. *)
Inductive action :=
| Compound (minOuts : list Z)
| Rebalance (from to : string) (amount : Z)
| Derisk (r : Lifeboat.reason)
| Resume
| UnknownAction (type : string).

#[global] Instance action_eq_dec : EqDecision action.
Proof. solve_decision. Defined.

(** The contract call an action becomes; [u32] and [i128] encodings are the SDK's. *)
Inductive operation :=
| CompoundOp (vault : string) (minOuts : list Z)
| RebalanceOp (vault from to : string) (amount : Z)
| DeriskOp (vault : string) (code : Z)
| ResumeOp (vault : string).

Inductive call : Type -> Type :=
| TokenBalance (token owner : string) : call (option Z)
| StrategyBalance (strategy : string) : call (option Z)
| GetReserveList (pool : string) : call (list string)
| GetUserEmissions (pool strategy : string) (reserveTokenId : Z) : call emissions
| GetReserve (pool asset : string) : call Rates.reserve
| GetConfig (pool : string) : call Z
| GetPositions (pool strategy : string) : call (list (Z * Z))
| AmountsOut (router : string) (amount : Z) (path : list string) : call (list Z)
| InstanceStorage (contract : string) : call (option (list (list string * Z)))
| LatestLedger : call Z
| OracleLastPrice (oracle asset : string) : call (option Z)
| OracleDecimals (oracle : string) : call Z
| LifeboatState (vault : string) : call (bool * Z)
| VaultPendingUpgrade (vault : string) : call (option (string * Z))
| GetAccount (address : string) : call unit
| PrepareAndSend (op : operation) : call (string * string)
| PollTransaction (hash : string) : call string.

Inductive error :=
| NotConfigured
| AssetNotListed
| NoQuote
| CallFailed
| NotAccepted (status : string)
| NotConfirmed (status : string)
| UnknownActionType (type : string).

Record env := {
  STELLAR_KEEPER_SECRET : option string;
  USDC : string;
  BLND : string;
  VAULT_ADDRESS : string;
  SOROSWAP_ROUTER : string;
  STRATEGY_1 : option string;
  POOL_1 : string;
  STRATEGY_2 : option string;
  POOL_2 : string;
  POOL_ORACLE : option string;
}.

Section Monad.
Context {W : Type}.

(** A computation that talks to the network: it may change the world and may throw. *)
Definition io (A : Type) : Type := W -> W * result error A.

#[global] Instance io_ret : MRet io := fun A a w => (w, Ok a).
#[global] Instance io_bind : MBind io := fun A B k m w =>
  match m w with (w', Ok a) => k a w' | (w', Throw e) => (w', Throw e) end.

Definition throw {A} (e : error) : io A := fun w => (w, Throw e).

(** [bestEffort(label, fn, fallback)] *)
Definition bestEffort {A} (fn : io A) (fallback : A) : io A := fun w =>
  match fn w with (w', Ok a) => (w', Ok a) | (w', Throw _) => (w', Ok fallback) end.

End Monad.
Arguments io : clear implicits.

Section Reads.
Context {W : Type} (perform : forall A, call A -> io W A).
Arguments perform {A}.

(** The wall clock [Math.floor(Date.now() / 1000)], the fallback for the ledger time. *)
Context (dateNow : Z).

Definition keeperKeypair (e : env) : io W string :=
  match STELLAR_KEEPER_SECRET e with
  | Some s => if decide (s = ""%string) then throw NotConfigured else mret s
  | None => throw NotConfigured
  end.

Definition readIdle (e : env) : io W Z :=
  v ← perform (TokenBalance (USDC e) (VAULT_ADDRESS e)); mret (default 0 v).

Definition readStrategyBalance (s : string) : io W Z :=
  v ← perform (StrategyBalance s); mret (default 0 v).

(** [findIndex]: the first position of the asset in the reserve list. *)
Fixpoint findIndex (l : list string) (a : string) : option Z :=
  match l with
  | [] => None
  | x :: l => if decide (x = a) then Some 0 else Z.succ <$> findIndex l a
  end.

Definition deriveReserveIndex (pool asset : string) : io W Z :=
  l ← perform (GetReserveList pool);
  match findIndex l asset with Some i => mret i | None => throw AssetNotListed end.

Definition deriveReserveTokenId (pool asset : string) : io W Z :=
  idx ← deriveReserveIndex pool asset; mret (idx * 2 + 1).

Definition readBlndClaimable (e : env) (pool strategy : string) : io W Z :=
  reserveTokenId ← deriveReserveTokenId pool (USDC e);
  val ← perform (GetUserEmissions pool strategy reserveTokenId);
  mret (match val with
        | NoEmissions => 0
        | Amount z => z
        | Accrued z => z
        | OtherShape => 0
        end).

Definition readSupplyAprBps (e : env) (pool : string) : io W Z :=
  r ← perform (GetReserve pool (USDC e));
  bstop ← perform (GetConfig pool);
  mret (Rates.estimateSupplyAprBps r bstop).

(** [positions.supply[reserveIndex]]: the decoded map is an object keyed by index. *)
Definition supply_at (positions : list (Z * Z)) (i : Z) : option Z :=
  snd <$> List.find (fun kv => kv.1 =? i) positions.

Definition readPendingInterest (e : env) (pool strategy : string) (principal : Z) : io W Z :=
  reserveIndex ← deriveReserveIndex pool (USDC e);
  positions ← perform (GetPositions pool strategy);
  r ← perform (GetReserve pool (USDC e));
  mret (Rates.computePendingInterest (supply_at positions reserveIndex)
          (Rates.b_rate (Rates.data r)) principal).

(** [readInstanceStorageEntry] for an enum key, encoded as a one-element vector. *)
Definition readInstanceStorageEntry (contract keyName : string) : io W (option Z) :=
  storage ← perform (InstanceStorage contract);
  mret (match storage with
        | None => None
        | Some l => snd <$> List.find (fun kv => bool_decide (kv.1 = [keyName])) l
        end).

Definition readLastRebalanceTs (e : env) : io W Z :=
  raw ← readInstanceStorageEntry (VAULT_ADDRESS e) "LastRebalance"; mret (default 0 raw).

Definition readLedgerNowTs : io W Z := perform LatestLedger.

(** [for (const amount of nonZero)]: one router call per distinct positive amount. *)
Fixpoint quoteAll (e : env) (amounts : list Z) (quotes : gmap Z Z) : io W (gmap Z Z) :=
  match amounts with
  | [] => mret quotes
  | a :: l =>
      outs ← perform (AmountsOut (SOROSWAP_ROUTER e) a [BLND e; USDC e]);
      match last outs with
      | Some q => quoteAll e l (<[a := q]> quotes)
      | None => throw NoQuote
      end
  end.

(** [new Set(...)] keeps the first occurrence of each amount. *)
Fixpoint distinct (l : list Z) : list Z :=
  match l with
  | [] => []
  | x :: l => x :: List.filter (fun y => negb (y =? x)) (distinct l)
  end.

Definition nonZero (amounts : list Z) : list Z :=
  distinct (List.filter (fun a => a >? 0) amounts).

Definition buildBlndQuote (e : env) (claimableAmounts : list Z) : io W (option (Z -> Z)) :=
  match nonZero claimableAmounts with
  | [] => mret None
  | l =>
      quotes ← quoteAll e l ∅;
      mret (Some (fun blndAmount => default 0 (quotes !! blndAmount)))
  end.

Definition readStrategy (e : env) (strategy pool : string) : io W Decide.strategy :=
  balance ← readStrategyBalance strategy;
  blndClaimable ← bestEffort (readBlndClaimable e pool strategy) 0;
  supplyAprBps ← bestEffort (readSupplyAprBps e pool) 0;
  pendingInterest ← bestEffort (readPendingInterest e pool strategy balance) 0;
  mret {| Decide.address := strategy; Decide.balance := balance;
          Decide.supplyAprBps := supplyAprBps; Decide.pendingInterest := pendingInterest;
          Decide.blndClaimable := blndClaimable |}.

Fixpoint readStrategies (e : env) (pairs : list (string * string))
    : io W (list Decide.strategy) :=
  match pairs with
  | [] => mret []
  | (s, p) :: pairs =>
      x ← readStrategy e s p; l ← readStrategies e pairs; mret (x :: l)
  end.

(** The configured strategies: a missing or empty address drops its pair. *)
Definition pairs (e : env) : list (string * string) :=
  omap (fun '(s, p) =>
    match s with Some s => if decide (s = ""%string) then None else Some (s, p) | None => None end)
    [(STRATEGY_1 e, POOL_1 e); (STRATEGY_2 e, POOL_2 e)].

Definition readState (e : env) : io W Decide.state :=
  _ ← keeperKeypair e;
  idle ← readIdle e;
  strategies ← readStrategies e (pairs e);
  lastRebalanceTs ← bestEffort (readLastRebalanceTs e) 0;
  nowTs ← bestEffort readLedgerNowTs dateNow;
  blndQuote ← bestEffort (buildBlndQuote e (Decide.blndClaimable <$> strategies)) None;
  mret {| Decide.strategies := strategies; Decide.idle := idle;
          Decide.lastRebalanceTs := lastRebalanceTs; Decide.nowTs := nowTs;
          Decide.blndQuote := blndQuote |}.

(** [Number(priceData.price) / 10 ** Number(decimals)], in doubles. *)
Definition readPoolPrice (e : env) (oracle : string) : io W (option Price.price) :=
  priceData ← perform (OracleLastPrice oracle (USDC e));
  match priceData with
  | None => mret None
  | Some p =>
      decimals ← perform (OracleDecimals oracle);
      mret (Some (Float.div (Float.of_Z p) (Float.of_Z (10 ^ decimals))))
  end.

Definition readLifeboatChainState (e : env) : io W Radar.chain :=
  _ ← keeperKeypair e;
  utilization ← bestEffort
    (r ← perform (GetReserve (POOL_1 e) (USDC e));
     mret (Num <$> Rates.utilizationBps (Some (Rates.data r)))) None;
  availableLiquidity ← bestEffort
    (v ← perform (TokenBalance (USDC e) (POOL_1 e)); mret (Some (default 0 v))) None;
  poolPrice ← match POOL_ORACLE e with
              | Some o =>
                  if decide (o = ""%string) then mret None
                  else bestEffort (readPoolPrice e o) None
              | None => mret None
              end;
  ls ← perform (LifeboatState (VAULT_ADDRESS e));
  nowTs ← bestEffort readLedgerNowTs dateNow;
  pendingUpgrade ← bestEffort (perform (VaultPendingUpgrade (VAULT_ADDRESS e))) None;
  mret {| Radar.c_utilizationBps := utilization; Radar.availableLiquidity := availableLiquidity;
          Radar.poolPrice := poolPrice; Radar.c_derisked := ls.1;
          Radar.c_mandateExpiry := ls.2; Radar.c_nowTs := nowTs;
          Radar.pendingUpgrade := pendingUpgrade |}.

Definition buildActionOperation (e : env) (a : action) : result error operation :=
  match a with
  | Compound minOuts => Ok (CompoundOp (VAULT_ADDRESS e) minOuts)
  | Rebalance from to amount => Ok (RebalanceOp (VAULT_ADDRESS e) from to amount)
  | Derisk r => Ok (DeriskOp (VAULT_ADDRESS e) (Lifeboat.REASON r))
  | Resume => Ok (ResumeOp (VAULT_ADDRESS e))
  | UnknownAction t => Throw (UnknownActionType t)
  end.

(** [submit]: the source account is fetched before the operation is built; the transaction
    counts only when it is accepted and then confirmed. *)
Definition submit (e : env) (a : action) : io W string :=
  kp ← keeperKeypair e;
  _ ← perform (GetAccount kp);
  op ← (fun w => (w, buildActionOperation e a));
  sent ← perform (PrepareAndSend op);
  let '(status, hash) := sent in
  if decide (status <> "PENDING"%string /\ status <> "DUPLICATE"%string)
  then throw (NotAccepted status)
  else
    final ← perform (PollTransaction hash);
    if decide (final <> "SUCCESS"%string) then throw (NotConfirmed final) else mret hash.

(** ** The scheduled handler of [index.js] *)
Inductive log :=
| ReadStateFailed
| DecideFailed
| State (st : Decide.state) (actions : list Decide.action)
| SubmittedLog (a : Decide.action) (hash : string)
| SkippedLog (a : Decide.action).

Definition chain_action (a : Decide.action) : action :=
  match a with
  | Decide.Compound minOuts => Compound minOuts
  | Decide.Rebalance f t amount => Rebalance f t amount
  end.

(** [for (const action of actions) try { submit } catch { log }] *)
Fixpoint submitAll (e : env) (actions : list Decide.action) (w : W) : W * list log :=
  match actions with
  | [] => (w, [])
  | a :: actions =>
      let '(w1, r) := submit e (chain_action a) w in
      let '(w2, logs) := submitAll e actions w1 in
      (w2, (match r with Ok h => SubmittedLog a h | Throw _ => SkippedLog a end) :: logs)
  end.

Definition scheduled (e : env) (cfg : Decide.env) (w : W) : W * list log :=
  match readState e w with
  | (w1, Throw _) => (w1, [ReadStateFailed])
  | (w1, Ok st) =>
      match Decide.decide_actions st (Decide.buildConfig cfg) with
      | Throw _ => (w1, [DecideFailed])
      | Ok actions =>
          let '(w2, logs) := submitAll e actions w1 in (w2, State st actions :: logs)
      end
  end.

End Reads.

End Chain.

(** ** Lemmas about the monad *)
Section ChainLemmas.
Import Chain.
Context {W : Type} (perform : forall A, call A -> io W A) (dateNow : Z).

Lemma io_bind_Ok {A B} (m : io W A) (k : A -> io W B) w w' b :
  (m ≫= k) w = (w', Ok b) <-> exists w1 a, m w = (w1, Ok a) /\ k a w1 = (w', Ok b).
Proof.
  unfold mbind, io_bind. destruct (m w) as [w1 [a|e]]; naive_solver.
Qed.

(** A computation that returns a value in every world. *)
Definition total {A} (m : io W A) : Prop := forall w, exists w' a, m w = (w', Ok a).

Lemma total_ret {A} (a : A) : total (mret a).
Proof. intros w. by exists w, a. Qed.

Lemma total_bind {A B} (m : io W A) (k : A -> io W B) :
  total m -> (forall a, total (k a)) -> total (m ≫= k).
Proof.
  intros Hm Hk w. destruct (Hm w) as (w1 & a & H1). destruct (Hk a w1) as (w2 & b & H2).
  exists w2, b. apply io_bind_Ok. eauto.
Qed.

Lemma total_bestEffort {A} (m : io W A) (d : A) : total (bestEffort m d).
Proof. intros w. unfold bestEffort. destruct (m w) as [w' [a|e]]; eauto. Qed.

Lemma readStrategies_address e ps w w' l :
  readStrategies perform e ps w = (w', Ok l) -> Decide.address <$> l = ps.*1.
Proof.
  revert w l. induction ps as [|[s p] ps IH]; intros w l; cbn; [by intros [= <- <-]|].
  rewrite io_bind_Ok. intros (w1 & x & Hx & Hl). rewrite io_bind_Ok in Hl.
  destruct Hl as (w2 & l' & Hl' & [= <- <-]). cbn. rewrite (IH _ _ Hl'). f_equal.
  unfold readStrategy in Hx. repeat (rewrite io_bind_Ok in Hx; destruct Hx as (? & ? & _ & Hx)).
  by injection Hx as _ <-.
Qed.

(** Every amount that was quoted is in the map with the last hop of a router answer. *)
Definition quoted (e : env) (a q : Z) : Prop :=
  exists w1 w2 outs,
    perform _ (AmountsOut (SOROSWAP_ROUTER e) a [BLND e; USDC e]) w1 = (w2, Ok outs)
    /\ last outs = Some q.

Lemma quoteAll_spec e l m w w' m' :
  quoteAll perform e l m w = (w', Ok m') ->
  (forall a q, m !! a = Some q -> quoted e a q) ->
  (forall a q, m' !! a = Some q -> quoted e a q)
  /\ forall a, a ∈ l \/ is_Some (m !! a) -> is_Some (m' !! a).
Proof.
  revert m w. induction l as [|x l IH]; intros m w; cbn.
  { intros [= <- <-] H. split; [done|]. intros a [Ha|]; [by apply elem_of_nil in Ha|done]. }
  rewrite io_bind_Ok. intros (w1 & outs & Ho & H) Hm.
  destruct (last outs) as [q|] eqn:Hq; [|done].
  destruct (IH _ _ H) as [H1 H2].
  { intros a q' Ha. destruct (decide (a = x)) as [->|].
    - rewrite lookup_insert_eq in Ha. injection Ha as <-. by exists w, w1, outs.
    - rewrite lookup_insert_ne in Ha by done. by apply Hm. }
  split; [done|]. intros a Ha. apply H2.
  destruct (decide (a = x)) as [->|]; [right; by rewrite lookup_insert_eq|].
  rewrite lookup_insert_ne by done. set_solver.
Qed.

Lemma elem_of_nonZero a l : a ∈ nonZero l <-> a ∈ l /\ 0 < a.
Proof.
  unfold nonZero.
  assert (forall k, a ∈ distinct k <-> a ∈ k) as Hd.
  { induction k as [|x k IH]; cbn; [done|].
    rewrite !elem_of_cons, list_elem_of_In, List.filter_In, <- list_elem_of_In, IH.
    destruct (Z.eqb_spec a x); cbn; intuition congruence. }
  rewrite Hd, list_elem_of_In, List.filter_In, <- list_elem_of_In, Z.gtb_ltb, Z.ltb_lt.
  done.
Qed.

Lemma buildBlndQuote_spec e amounts w w' f :
  buildBlndQuote perform e amounts w = (w', Ok (Some f)) ->
  forall a, a ∈ amounts -> 0 < a -> quoted e a (f a).
Proof.
  unfold buildBlndQuote. destruct (nonZero amounts) as [|x l] eqn:E; [done|].
  rewrite io_bind_Ok. intros (w1 & m & Hm & [= <- <-]) a Ha Hpos.
  destruct (quoteAll_spec _ _ _ _ _ _ Hm) as [H1 H2]; [done|].
  destruct (H2 a) as [q Hq]; [left; rewrite <- E; by apply elem_of_nonZero|].
  rewrite Hq. by apply H1.
Qed.
End ChainLemmas.

(** ** Properties *)
Section ChainProperties.
Import Chain.

(** A tick survives every best-effort failure: when the keeper's key is configured and
    the vault's idle balance and the strategies' balances can be read, [readState] returns
    a state in every world, whatever the rates, emissions, positions, ledger time, storage
    and router calls do, and that state lists exactly the configured strategies in order. *)
Theorem readState_best_effort {W : Type} (perform : forall A, call A -> io W A)
    (dateNow : Z) (e : env) (secret : string) (w : W)
    (Hkey : STELLAR_KEEPER_SECRET e = Some secret) (Hne : secret <> ""%string)
    (Hidle : total (perform _ (TokenBalance (USDC e) (VAULT_ADDRESS e))))
    (Hbal : forall s, total (perform _ (StrategyBalance s))) :
  exists w' st, readState perform dateNow e w = (w', Ok st)
    /\ Decide.address <$> Decide.strategies st = (pairs e).*1.
Proof.
  assert (forall s p, total (readStrategy perform e s p)) as Hone.
  { intros s p. unfold readStrategy. apply total_bind.
    { apply total_bind; [apply Hbal|intros; apply total_ret]. }
    intros b. repeat (apply total_bind; [apply total_bestEffort|intros ?]). apply total_ret. }
  assert (forall ps, total (readStrategies perform e ps)) as Hstr.
  { induction ps as [|[s p] ps IH]; cbn; [apply total_ret|].
    apply total_bind; [apply Hone|intros x].
    apply total_bind; [done|intros; apply total_ret]. }
  assert (total (readIdle perform e)) as Hidle'.
  { apply total_bind; [done|intros; apply total_ret]. }
  assert (keeperKeypair e w = (w, Ok secret)) as Hk.
  { unfold keeperKeypair. rewrite Hkey. by rewrite decide_False. }
  destruct (Hidle' w) as (w1 & idle & H1). destruct (Hstr (pairs e) w1) as (w2 & l & H2).
  assert (forall (k : list Decide.strategy -> io W Decide.state) w' st,
    k l w2 = (w', Ok st) ->
    (_ ← keeperKeypair e; i ← readIdle perform e; x ← readStrategies perform e (pairs e); k x) w
    = (w', Ok st)) as Hrun.
  { intros k w' st Hst. apply io_bind_Ok. exists w, secret. split; [done|].
    apply io_bind_Ok. exists w1, idle. split; [done|]. apply io_bind_Ok. eauto. }
  pose proof (readStrategies_address _ _ _ _ _ _ H2) as Ha.
  destruct (total_bestEffort (readLastRebalanceTs perform e) 0 w2) as (w3 & lr & H3).
  destruct (total_bestEffort (readLedgerNowTs perform) dateNow w3) as (w4 & now & H4).
  destruct (total_bestEffort (buildBlndQuote perform e (Decide.blndClaimable <$> l)) None w4)
    as (w5 & q & H5).
  eexists w5, (Decide.Build_state l idle lr now q). split; [|done].
  unfold readState. repeat (apply io_bind_Ok; do 2 eexists; split; [eassumption|]). done.
Qed.

(** The swap floor is never invented: whenever [readState] returns a quote, every
    strategy with a positive claimable amount has been quoted by the router for exactly
    that amount, and the quote handed to [decide] is the last hop of that answer, never
    the [0n] a missing entry would give. *)
Theorem readState_quotes_from_router {W : Type} (perform : forall A, call A -> io W A)
    (dateNow : Z) (e : env) (w w' : W) (st : Decide.state) (q : Z -> Z)
    (Hrun : readState perform dateNow e w = (w', Ok st))
    (Hq : Decide.blndQuote st = Some q) :
  Forall (fun s => 0 < Decide.blndClaimable s ->
                   quoted perform e (Decide.blndClaimable s) (q (Decide.blndClaimable s)))
    (Decide.strategies st).
Proof.
  unfold readState in Hrun.
  repeat (rewrite io_bind_Ok in Hrun; destruct Hrun as (? & ? & ? & Hrun)).
  injection Hrun as <- <-. cbn in *. subst.
  apply Forall_forall. intros s Hs Hpos.
  match goal with H : bestEffort (buildBlndQuote _ _ _) _ _ = _ |- _ => rename H into HB end.
  unfold bestEffort in HB. destruct (buildBlndQuote _ _ _ _) as [? [f|]] eqn:E; [|done].
  injection HB as <- ->. eapply buildBlndQuote_spec; [exact E| |done].
  apply list_elem_of_fmap. by exists s.
Qed.

(** The action a log line of the submission loop is about. *)
Definition logged (l : log) : option Decide.action :=
  match l with SubmittedLog a _ | SkippedLog a => Some a | _ => None end.

Lemma submitAll_logs {W : Type} (perform : forall A, call A -> io W A) e actions w :
  omap logged (submitAll perform e actions w).2 = actions.
Proof.
  revert w. induction actions as [|a l IH]; intros w; cbn; [done|].
  destruct (submit perform e (chain_action a) w) as [w1 r].
  specialize (IH w1). destruct (submitAll perform e l w1) as [w2 logs]. cbn in IH |- *.
  destruct r; cbn; by rewrite IH.
Qed.

(** A failed action never blocks the others: in every world a scheduled tick that
    decided a list of actions attempts each of them exactly once and in order, whatever the
    earlier submissions did. *)
Theorem scheduled_attempts_all {W : Type} (perform : forall A, call A -> io W A)
    (dateNow : Z) (e : env) (cfg : Decide.env) (w w1 : W) (st : Decide.state)
    (acts : list Decide.action)
    (Hread : readState perform dateNow e w = (w1, Ok st))
    (Hdec : Decide.decide_actions st (Decide.buildConfig cfg) = Ok acts) :
  exists logs, (scheduled perform dateNow e cfg w).2 = State st acts :: logs
    /\ omap logged logs = acts.
Proof.
  unfold scheduled. rewrite Hread, Hdec.
  pose proof (submitAll_logs perform e acts w1) as H.
  destruct (submitAll perform e acts w1) as [w2 logs]. cbn in H |- *. eauto.
Qed.

(** [submit] reports a hash only for a transaction that was accepted and then confirmed. *)
Lemma submit_confirmed {W : Type} (perform : forall A, call A -> io W A) e a w w' h :
  submit perform e a w = (w', Ok h) ->
  exists op status w1 w2 w3,
    buildActionOperation e a = Ok op
    /\ perform _ (PrepareAndSend op) w1 = (w2, Ok (status, h))
    /\ (status = "PENDING"%string \/ status = "DUPLICATE"%string)
    /\ perform _ (PollTransaction h) w2 = (w3, Ok "SUCCESS"%string).
Proof.
  unfold submit. rewrite io_bind_Ok. intros (w1 & kp & _ & H).
  rewrite io_bind_Ok in H. destruct H as (w2 & [] & _ & H).
  rewrite io_bind_Ok in H. destruct H as (w3 & op & [= -> Hop] & H).
  rewrite io_bind_Ok in H. destruct H as (w4 & [status hash] & Hsend & H).
  case_decide as Hs; [done|]. rewrite io_bind_Ok in H.
  destruct H as (w5 & final & Hpoll & H). case_decide as Hf; [done|].
  injection H as <- ->. exists op, status, w3, w4, w5.
  destruct (decide (final = "SUCCESS"%string)) as [->|]; [|tauto].
  split_and!; try done.
  destruct (decide (status = "PENDING"%string)); [by left|].
  destruct (decide (status = "DUPLICATE"%string)); [by right|tauto].
Qed.
End ChainProperties.

(** ** A network where every best-effort read but the claimable amount fails *)
Section ChainWitnesses.
Import Chain.

Definition sample_perform (A : Type) (c : call A) : io unit A :=
  match c in call A return io unit A with
  | TokenBalance _ _ => mret (Some 25000000)
  | StrategyBalance _ => mret (Some 7)
  | GetReserveList _ => mret ["XLM"; "USDC"]%string
  | GetUserEmissions _ _ _ => mret (Accrued 400)
  | AmountsOut _ a _ => mret [a; 9; 2 * a]
  | GetAccount _ => mret tt
  | PrepareAndSend _ => mret ("PENDING", "tx1")%string
  | PollTransaction _ => mret "SUCCESS"%string
  | _ => throw CallFailed
  end.

Definition sample_env : env :=
  {| STELLAR_KEEPER_SECRET := Some "SECRET"%string; USDC := "USDC"; BLND := "BLND";
     VAULT_ADDRESS := "VAULT"; SOROSWAP_ROUTER := "ROUTER"; STRATEGY_1 := Some "S1"%string;
     POOL_1 := "P1"; STRATEGY_2 := None; POOL_2 := "P2" ; POOL_ORACLE := None |}.

Definition sample_st : Decide.state :=
  {| Decide.strategies :=
       [{| Decide.address := "S1"; Decide.balance := 7; Decide.supplyAprBps := 0;
           Decide.pendingInterest := 0; Decide.blndClaimable := 400 |}];
     Decide.idle := 25000000; Decide.lastRebalanceTs := 0; Decide.nowTs := 55;
     Decide.blndQuote := Some (fun a => default 0 ((<[400 := 800]> ∅ : gmap Z Z) !! a)) |}.

Definition default_tick : Decide.env :=
  {| Decide.MIN_COMPOUND := None; Decide.REBALANCE_BPS := None; Decide.COOLDOWN_S := None;
     Decide.SLIPPAGE_BPS := None |}.

Lemma readState_best_effort_witness :
  exists w' st, readState sample_perform 55 sample_env tt = (w', Ok st)
    /\ Decide.address <$> Decide.strategies st = ["S1"%string].
Proof.
  apply (readState_best_effort sample_perform 55 sample_env "SECRET" tt).
  - reflexivity.
  - discriminate.
  - intros w. by exists w, (Some 25000000).
  - intros s w. by exists w, (Some 7).
Defined.

Lemma readState_quotes_from_router_witness :
  Forall (fun s => 0 < Decide.blndClaimable s ->
      quoted sample_perform sample_env (Decide.blndClaimable s)
        (default 0 ((<[400 := 800]> ∅ : gmap Z Z) !! Decide.blndClaimable s)))
    (Decide.strategies sample_st).
Proof.
  apply (readState_quotes_from_router sample_perform 55 sample_env tt tt sample_st
           (fun a => default 0 ((<[400 := 800]> ∅ : gmap Z Z) !! a))).
  - reflexivity.
  - reflexivity.
Defined.

Lemma scheduled_attempts_all_witness :
  exists logs, (scheduled sample_perform 55 sample_env default_tick tt).2
      = State sample_st [Decide.Compound [792]] :: logs
    /\ omap logged logs = [Decide.Compound [792]].
Proof.
  apply (scheduled_attempts_all sample_perform 55 sample_env default_tick tt tt sample_st).
  - reflexivity.
  - reflexivity.
Defined.
End ChainWitnesses.
