(* ===== verification/PolicyEngine.v ===== *)
(** * The policy of a session key

    Models [frontend/src/base/policyEngine.js]: [buildFarmPermissions], the two permissions a
    session key is given, and [evaluateCall], the check of one call before it is sent.  The
    theorems say which permissions are built and exactly which calls they let through. *)
From S2P Require Export JsValue.

Module PolicyEngine.
Section PolicyEngine.
Local Open Scope string_scope.

(** An [Error] by its message; a [TypeError] of a property access or of a conversion to a
    string; the error of a [BigInt] conversion, whose class depends on the value. *)
Inductive policy_error :=
| Error (message : string)
| TypeError
| ConversionError.

Definition to_String (v : val) : result policy_error chars :=
  if stringable v then Ok (coerce v) else Throw TypeError.

Definition BigInt_of (v : val) : result policy_error Z :=
  match to_BigInt v with Some z => Ok z | None => Throw ConversionError end.

(** The conditions of [ParamCondition] the code names, numbers of an enumeration. *)
Context (EQUAL LESS_THAN_OR_EQUAL : Z).

Definition condition (c : Z) : val := Number (Num c).

(** ** [buildFarmPermissions] *)

(** One round of the loop over the pools. *)
Definition pool_cap (maxCap : Z) (entry : val) : result policy_error Z :=
  if nullish entry then Throw TypeError
  else
    let pool := entry#"pool" in
    if negb (truthy pool) || negb (is_string pool)
    then Throw (Error ("invalid pool address: " +:+ string_of (coerce pool)))
    else
      match entry#"cap" with
      | BigInt cap =>
          if (cap <=? 0)%Z
          then Throw (Error ("invalid cap for " +:+ string_of (coerce pool) +:+ ": "
                             +:+ string_of (coerce (BigInt cap))))
          else Ok (if (maxCap <? cap)%Z then cap else maxCap)
      | v => Throw (Error ("invalid cap for " +:+ string_of (coerce pool) +:+ ": "
                           +:+ string_of (coerce v)))
      end.

Fixpoint pool_caps (maxCap : Z) (pools : list val) : result policy_error Z :=
  match pools with
  | [] => Ok maxCap
  | entry :: pools => m ← pool_cap maxCap entry; pool_caps m pools
  end.

Definition arg_condition (c : Z) (value : val) : val :=
  Obj [("condition", condition c); ("value", value)].

Definition approve_permission (usdcAddress usdcAbi yieldRouterAddress : val) (maxCap : Z) : val :=
  Obj [("target", usdcAddress); ("valueLimit", BigInt 0); ("abi", usdcAbi);
       ("functionName", Str "approve");
       ("args", Arr [arg_condition EQUAL yieldRouterAddress;
                     arg_condition LESS_THAN_OR_EQUAL (BigInt maxCap)])].

Definition deposit_permission (yieldRouterAddress yieldRouterAbi : val) (maxCap : Z) : val :=
  Obj [("target", yieldRouterAddress); ("valueLimit", BigInt 0); ("abi", yieldRouterAbi);
       ("functionName", Str "deposit");
       ("args", Arr [Null; arg_condition LESS_THAN_OR_EQUAL (BigInt maxCap); Null])].

Record farm := {
  pools : val;
  yieldRouterAbi : val;
  usdcAbi : val;
  yieldRouterAddress : val;
  usdcAddress : val }.

Definition farm_permissions (p : farm) (maxCap : Z) : list val :=
  [approve_permission (usdcAddress p) (usdcAbi p) (yieldRouterAddress p) maxCap;
   deposit_permission (yieldRouterAddress p) (yieldRouterAbi p) maxCap].

Definition buildFarmPermissions (p : farm) : result policy_error (list val) :=
  match pools p with
  | Arr ((_ :: _) as l) => maxCap ← pool_caps 0 l; Ok (farm_permissions p maxCap)
  | _ => Throw (Error "buildFarmPermissions requires at least one pool")
  end.

Definition buildDepositPermissions (params : farm) : result policy_error (list val) :=
  buildFarmPermissions params.

(** ** [evaluateCall] *)
Record verdict := { allowed : bool; reason : option string }.
Definition deny (reason : string) : result policy_error verdict :=
  Ok {| allowed := false; reason := Some reason |}.
Definition allow : result policy_error verdict := Ok {| allowed := true; reason := None |}.

(** [p.target.toLowerCase() === String(to).toLowerCase() && p.functionName === functionName]:
    only a string has [toLowerCase]. *)
Definition permits (to functionName : val) (p : val) : result policy_error bool :=
  match p#"target" with
  | Str target =>
      t ← to_String to;
      Ok (bool_decide (toLowerCase (chars_of target) = toLowerCase t)
          && strict_eq p#"functionName" functionName)
  | _ => Throw TypeError
  end.

(** [permissions.find] *)
Fixpoint find_permission (to functionName : val) (permissions : list val)
    : result policy_error (option val) :=
  match permissions with
  | [] => Ok None
  | p :: ps =>
      b ← permits to functionName p;
      if b : bool then Ok (Some p) else find_permission to functionName ps
  end.

(** The conditions of a permission are an array; [undefined] and [null] have no length. *)
Definition conditions (p : val) : result policy_error (list val) :=
  match p#"args" with Arr l => Ok l | Undefined | Null => Throw TypeError | _ => Ok [] end.

(** [args[i]] *)
Definition arg_at (args : val) (i : nat) : result policy_error val :=
  match args with
  | Arr l => Ok (default Undefined (l !! i))
  | Undefined | Null => Throw TypeError
  | _ => Ok Undefined
  end.

Definition is_condition (cond : val) (c : Z) : bool := strict_eq cond#"condition" (condition c).

(** One round of the loop over the conditions: [None] to go on. *)
Definition check_arg (args : val) (i : nat) (cond : val) : result policy_error (option string) :=
  if nullish cond then Ok None
  else
    actual ← arg_at args i;
    differs ← (if is_condition cond EQUAL then
                 a ← to_String actual; v ← to_String cond#"value";
                 Ok (negb (bool_decide (toLowerCase a = toLowerCase v)))
               else Ok false);
    if differs : bool
    then Ok (Some ("arg " +:+ string_of (to_digits (Z.of_nat i)) +:+ " not EQUAL to policy value"))
    else
      exceeds ← (if is_condition cond LESS_THAN_OR_EQUAL then
                   a ← BigInt_of actual; v ← BigInt_of cond#"value"; Ok (negb (a <=? v)%Z)
                 else Ok false);
      if exceeds : bool
      then Ok (Some ("arg " +:+ string_of (to_digits (Z.of_nat i)) +:+ " exceeds policy cap"))
      else Ok None.

Fixpoint check_args (args : val) (i : nat) (conds : list val) : result policy_error verdict :=
  match conds with
  | [] => allow
  | cond :: conds =>
      failed ← check_arg args i cond;
      match failed with
      | Some reason => deny reason
      | None => check_args args (S i) conds
      end
  end.

(** The call that is checked: [to], [value], [functionName] and [args]. *)
Record call := {
  to : val;
  value : val;
  functionName : val;
  args : val }.

(** A missing [value] is zero and a missing [now] is the clock in seconds. *)
Definition default_arg (v d : val) : val := match v with Undefined => d | _ => v end.

Definition is_expired (clock : Z) (now expiry : option num) : bool :=
  match expiry with
  | Some expiry => JsNum.geb (default (Num (clock / 1000)%Z) now) expiry
  | None => false
  end.

Definition evaluateCall (clock : Z) (permissions : list val) (c : call) (now expiry : option num)
    : result policy_error verdict :=
  if is_expired clock now expiry then deny "expired"
  else
    found ← find_permission (to c) (functionName c) permissions;
    match found with
    | None => deny "no permission for this target+selector"
    | Some p =>
        sent ← BigInt_of (default_arg (value c) (BigInt 0));
        limit ← BigInt_of (coalesce p#"valueLimit" (BigInt 0));
        if (limit <? sent)%Z then deny "call value exceeds permission limit"
        else conds ← conditions p; check_args (args c) 0 conds
    end.

End PolicyEngine.

(** ** Lemmas *)
Section Lemmas.
Context (EQUAL LESS_THAN_OR_EQUAL : Z).

(** A well-formed entry: a non-empty address and a positive cap. *)
Definition entry_cap (entry : val) (cap : Z) : Prop :=
  exists pool, entry#"pool" = Str pool /\ pool <> EmptyString /\ entry#"cap" = BigInt cap /\ 0 < cap.

Lemma pool_cap_Ok m entry m' :
  pool_cap m entry = Ok m' <-> exists cap, entry_cap entry cap /\ m' = Z.max m cap.
Proof.
  unfold pool_cap, entry_cap. split.
  - intros H. invert_ok H. zbool. destruct (entry#"pool") eqn:Ep; try done. cbn in *.
    exists z. split; [eexists; split_and!; [done| |done|lia]|].
    + intros ->. done.
    + destruct (m <? z) eqn:?; zbool; lia.
  - intros (cap & (pool & Hp & Hne & Hc & Hpos) & ->). rewrite Hp, Hc.
    assert (nullish entry = false) as -> by (destruct entry; done). cbn.
    rewrite bool_decide_false by done. cbn. destruct (Z.leb_spec cap 0); [lia|].
    f_equal. destruct (Z.ltb_spec m cap); lia.
Qed.

Lemma pool_caps_Ok m l m' :
  pool_caps m l = Ok m' <->
  exists caps, Forall2 entry_cap l caps /\ m' = foldl Z.max m caps.
Proof.
  revert m. induction l as [|e l IH]; intros m; cbn.
  - split; [intros [= <-]; by exists []|]. intros (caps & H & ->). by inversion H.
  - rewrite bind_Ok. setoid_rewrite pool_cap_Ok. setoid_rewrite IH. split.
    + intros (? & (cap & He & ->) & caps & Hl & ->). exists (cap :: caps). split; [by constructor|done].
    + intros (caps & H & ->). inversion H as [|? cap ? caps']; subst. eauto 10.
Qed.

Lemma foldl_max_spec m caps :
  m <= foldl Z.max m caps /\ Forall (fun c => c <= foldl Z.max m caps) caps
  /\ (foldl Z.max m caps = m \/ foldl Z.max m caps ∈ caps).
Proof.
  revert m. induction caps as [|c caps IH]; intros m; cbn; [split_and!; [lia|done|by left]|].
  destruct (IH (Z.max m c)) as (H1 & H2 & H3). split_and!; [lia|constructor; [lia|done]|].
  destruct H3 as [H3|H3]; [|right; by right].
  destruct (Z.max_spec m c) as [[_ E]|[_ E]]; rewrite E in *; [right; rewrite H3; left|by left].
Qed.

Lemma build_Ok p perms :
  buildFarmPermissions EQUAL LESS_THAN_OR_EQUAL p = Ok perms <->
  exists l caps, pools p = Arr l /\ l <> [] /\ Forall2 entry_cap l caps
    /\ perms = farm_permissions EQUAL LESS_THAN_OR_EQUAL p (foldl Z.max 0 caps).
Proof.
  unfold buildFarmPermissions. split.
  - intros H. destruct (pools p) as [| | | | | | |[|e l]|]; try done.
    apply bind_Ok in H as (m & (caps & Hl & ->)%pool_caps_Ok & [= <-]). by exists (e :: l), caps.
  - intros (l & caps & -> & Hne & Hl & ->). destruct l as [|e l]; [done|].
    apply bind_Ok. exists (foldl Z.max 0 caps). split; [|done]. apply pool_caps_Ok. by exists caps.
Qed.

(** The cap of the policy is the largest cap of a pool, and positive. *)
Lemma max_cap_spec l caps :
  Forall2 entry_cap l caps -> l <> [] ->
  foldl Z.max 0 caps ∈ caps /\ Forall (fun c => c <= foldl Z.max 0 caps) caps
  /\ 0 < foldl Z.max 0 caps.
Proof.
  intros Hcaps Hne. destruct (foldl_max_spec 0 caps) as (_ & Hmax & Hin).
  assert (0 < foldl Z.max 0 caps) as Hpos.
  { destruct Hcaps as [|e c l caps (_ & _ & _ & _ & Hc)]; [done|].
    apply Forall_cons in Hmax as [? _]. lia. }
  split_and!; [|done|done]. destruct Hin; [lia|done].
Qed.

(** ** What a call must satisfy *)

(** The text of [v], up to the case of its letters. *)
Definition same_text (v : val) (s : string) : Prop :=
  stringable v = true /\ toLowerCase (coerce v) = toLowerCase (chars_of s).

Definition at_most (v : val) (cap : Z) : Prop := exists a, to_BigInt v = Some a /\ a <= cap.

(** The two calls a farm needs: an approval of the router and a deposit, both without native
    value and for at most the cap. *)
Definition farm_call (usdc router : string) (cap : Z) (c : call) : Prop :=
  at_most (default_arg (value c) (BigInt 0)) 0 /\
  exists l, args c = Arr l /\
  ((same_text (to c) usdc /\ functionName c = Str "approve"
    /\ (exists spender, l !! 0%nat = Some spender /\ same_text spender router)
    /\ (exists amount, l !! 1%nat = Some amount /\ at_most amount cap))
   \/ (same_text (to c) router /\ functionName c = Str "deposit"
    /\ (exists amount, l !! 1%nat = Some amount /\ at_most amount cap))).

Lemma Ok_eq {E A} (a b : A) : @Ok E A a = Ok b <-> a = b.
Proof. naive_solver. Qed.

Lemma to_String_Ok v t : to_String v = Ok t <-> stringable v = true /\ t = coerce v.
Proof. unfold to_String. destruct (stringable v); naive_solver. Qed.

Lemma BigInt_of_Ok v z : BigInt_of v = Ok z <-> to_BigInt v = Some z.
Proof. unfold BigInt_of. destruct (to_BigInt v); naive_solver. Qed.

Lemma check_args_allow args i conds :
  check_args EQUAL LESS_THAN_OR_EQUAL args i conds = allow <->
  forall j cond, conds !! j = Some cond ->
    check_arg EQUAL LESS_THAN_OR_EQUAL args (i + j) cond = Ok None.
Proof.
  revert i. induction conds as [|cond conds IH]; intros i; [done|]. cbn. split.
  - intros H. apply bind_Ok in H as (failed & Hc & H). destruct failed; [done|].
    intros [|j] cond' Hj; cbn in Hj; [injection Hj as <-; by rewrite Nat.add_0_r|].
    rewrite Nat.add_succ_r. by apply (proj1 (IH (S i))).
  - intros H. pose proof (H 0%nat cond eq_refl) as H0. rewrite Nat.add_0_r in H0. rewrite H0. cbn.
    apply IH. intros j cond' Hj. specialize (H (S j) cond' Hj). by rewrite Nat.add_succ_r in H.
Qed.

Context (Hconditions : EQUAL <> LESS_THAN_OR_EQUAL).

(** A condition that demands the text [s], and one that caps an amount. *)
Definition demands_text (cond : val) (s : string) : Prop :=
  nullish cond = false /\ cond#"condition" = condition EQUAL /\ same_text cond#"value" s.

Definition caps (cond : val) (cap : Z) : Prop :=
  nullish cond = false /\ cond#"condition" = condition LESS_THAN_OR_EQUAL
  /\ to_BigInt cond#"value" = Some cap.

Lemma condition_eq c d : strict_eq (condition c) (condition d) = bool_decide (c = d).
Proof. cbn. apply bool_decide_ext. naive_solver. Qed.

Lemma check_equal cond args i s :
  demands_text cond s ->
  check_arg EQUAL LESS_THAN_OR_EQUAL args i cond = Ok None <->
  exists v, arg_at args i = Ok v /\ same_text v s.
Proof.
  intros (Hn & Hc & Hs & Ht). unfold check_arg, is_condition, same_text, to_String.
  rewrite Hn, Hc, Hs, !condition_eq.
  rewrite (bool_decide_true (EQUAL = EQUAL)), (bool_decide_false (EQUAL = _)) by done.
  destruct (arg_at args i) as [v|]; cbn; [|split; [done|by intros (? & ? & _)]].
  rewrite Ht. destruct (stringable v) eqn:Hv; cbn.
  - case_bool_decide; cbn; [by split; eauto|]. split; [discriminate|].
    intros (? & [= <-] & _ & ?). contradiction.
  - split; [done|]. intros (? & [= <-] & ? & _). congruence.
Qed.

Lemma check_cap cond args i cap :
  caps cond cap ->
  check_arg EQUAL LESS_THAN_OR_EQUAL args i cond = Ok None <->
  exists v, arg_at args i = Ok v /\ at_most v cap.
Proof.
  intros (Hn & Hc & Hv). unfold check_arg, is_condition, at_most, BigInt_of.
  rewrite Hn, Hc, Hv, !condition_eq.
  rewrite (bool_decide_false (_ = EQUAL)), bool_decide_true by congruence.
  destruct (arg_at args i) as [v|]; cbn; [|split; [done|by intros (? & ? & _)]].
  destruct (to_BigInt v) as [a|] eqn:Ha; cbn.
  - destruct (Z.leb_spec a cap); cbn; [by split; eauto 10|]. split; [discriminate|].
    intros (? & [= <-] & ? & Ha' & ?). simplify_eq. lia.
  - split; [done|]. intros (? & [= <-] & ? & ? & _). congruence.
Qed.

(** Only an element of an array converts to an integer. *)
Lemma arg_at_most args i cap :
  (exists v, arg_at args i = Ok v /\ at_most v cap) <->
  exists l v, args = Arr l /\ l !! i = Some v /\ at_most v cap.
Proof.
  unfold at_most. split.
  - intros (v & Hv & a & Ha & Hle). destruct args; try done; cbn in Hv; simplify_eq; try done.
    exists l. destruct (l !! i) as [w|]; [|done]. eauto 10.
  - intros (l & v & -> & Hv & Ha). cbn. rewrite Hv. eauto.
Qed.

(** The conditions of the two permissions, on the arguments of a call. *)
Lemma check_approve args spender amount router cap :
  demands_text spender router -> caps amount cap ->
  check_args EQUAL LESS_THAN_OR_EQUAL args 0 [spender; amount] = allow <->
  exists l, args = Arr l /\ (exists v, l !! 0%nat = Some v /\ same_text v router)
    /\ exists v, l !! 1%nat = Some v /\ at_most v cap.
Proof.
  intros Hs Hc. rewrite check_args_allow. split.
  - intros H. pose proof (proj1 (check_equal _ _ _ _ Hs) (H 0%nat _ eq_refl)) as (v & Hv & Hr).
    pose proof (proj1 (check_cap _ _ _ _ Hc) (H 1%nat _ eq_refl)) as (l & w & -> & Hw & Ha)%arg_at_most.
    exists l. split_and!; [done| |by exists w]. cbn in Hv, Hw. injection Hv as <-.
    destruct l as [|v l]; [done|]. by exists v.
  - intros (l & -> & (v & Hv & Hr) & (w & Hw & Ha)) [|[|j]] cond Hj; cbn in Hj; simplify_eq.
    + apply (check_equal _ _ _ _ Hs). exists v. cbn. by rewrite Hv.
    + apply (check_cap _ _ _ _ Hc). exists w. cbn. by rewrite Hw.
Qed.

Lemma check_deposit args amount cap :
  caps amount cap ->
  check_args EQUAL LESS_THAN_OR_EQUAL args 0 [Null; amount; Null] = allow <->
  exists l, args = Arr l /\ exists v, l !! 1%nat = Some v /\ at_most v cap.
Proof.
  intros Hc. rewrite check_args_allow. split.
  - intros H.
    pose proof (proj1 (check_cap _ _ _ _ Hc) (H 1%nat _ eq_refl)) as (l & w & -> & Hw & Ha)%arg_at_most.
    eauto.
  - intros (l & -> & w & Hw & Ha) [|[|[|j]]] cond Hj; cbn in Hj; simplify_eq; try done.
    apply (check_cap _ _ _ _ Hc). exists w. cbn. by rewrite Hw.
Qed.

(** ** Policies of the shape a farm needs *)

(** [p] lets [target.name] be called without native value, under [conds]. *)
Definition grants (p : val) (target name : string) (conds : list val) : Prop :=
  (exists t, p#"target" = Str t /\ toLowerCase (chars_of t) = toLowerCase (chars_of target))
  /\ p#"functionName" = Str name
  /\ to_BigInt (coalesce p#"valueLimit" (BigInt 0)) = Some 0
  /\ p#"args" = Arr conds.

Definition farm_policy (usdc router : string) (cap : Z) (perms : list val) : Prop :=
  exists approve deposit spender amount amount',
    perms = [approve; deposit]
    /\ grants approve usdc "approve" [spender; amount]
    /\ grants deposit router "deposit" [Null; amount'; Null]
    /\ demands_text spender router /\ caps amount cap /\ caps amount' cap.

Lemma permits_true p target name conds c :
  grants p target name conds ->
  permits (to c) (functionName c) p = Ok true <->
  same_text (to c) target /\ functionName c = Str name.
Proof.
  intros ((t & Ht & Hl) & Hn & _). unfold permits, to_String, same_text. rewrite Ht, Hn, Hl.
  destruct (stringable (to c)); cbn [mbind result_bind]; [|naive_solver].
  rewrite Ok_eq, andb_true_iff, bool_decide_eq_true.
  destruct (functionName c); cbn; rewrite ?bool_decide_eq_true; naive_solver.
Qed.

(** A call of another function does not match. *)
Lemma permits_false p target name conds c :
  grants p target name conds -> stringable (to c) = true -> functionName c <> Str name ->
  permits (to c) (functionName c) p = Ok false.
Proof.
  intros Hg Hs Hne. destruct (permits (to c) (functionName c) p) as [[]|] eqn:E; [|done|].
  - by apply (permits_true _ _ _ _ _ Hg) in E as [_ ?].
  - destruct Hg as ((t & Ht & _) & _). unfold permits, to_String in E. by rewrite Ht, Hs in E.
Qed.

(** What a granted call must still satisfy. *)
Definition check_granted (p : val) (c : call) : result policy_error verdict :=
  sent ← BigInt_of (default_arg (value c) (BigInt 0));
  limit ← BigInt_of (coalesce p#"valueLimit" (BigInt 0));
  if limit <? sent then deny "call value exceeds permission limit"
  else conds ← conditions p; check_args EQUAL LESS_THAN_OR_EQUAL (args c) 0 conds.

Lemma check_granted_allow p target name conds c :
  grants p target name conds ->
  check_granted p c = allow <->
  at_most (default_arg (value c) (BigInt 0)) 0
  /\ check_args EQUAL LESS_THAN_OR_EQUAL (args c) 0 conds = allow.
Proof.
  intros (_ & _ & Hv & Ha). unfold check_granted, at_most, conditions, BigInt_of. rewrite Hv, Ha.
  destruct (to_BigInt (default_arg _ _)) as [z|]; cbn; [|naive_solver].
  destruct (Z.ltb_spec 0 z); [|naive_solver lia].
  split; [done|]. intros [(? & [= <-] & ?) _]. lia.
Qed.

Lemma find_two a d c p :
  find_permission (to c) (functionName c) [a; d] = Ok (Some p) <->
  (permits (to c) (functionName c) a = Ok true /\ p = a)
  \/ (permits (to c) (functionName c) a = Ok false /\ permits (to c) (functionName c) d = Ok true
      /\ p = d).
Proof.
  cbn. destruct (permits (to c) (functionName c) a) as [[]|]; cbn; [naive_solver| |naive_solver].
  destruct (permits (to c) (functionName c) d) as [[]|]; cbn; naive_solver.
Qed.

Lemma evaluate_allow clock perms c now expiry :
  evaluateCall EQUAL LESS_THAN_OR_EQUAL clock perms c now expiry = allow <->
  is_expired clock now expiry = false /\
  exists p, find_permission (to c) (functionName c) perms = Ok (Some p) /\ check_granted p c = allow.
Proof.
  unfold evaluateCall. destruct (is_expired _ _ _); [naive_solver|].
  destruct (find_permission _ _ _) as [[p|]|]; cbn [mbind result_bind]; [|naive_solver|naive_solver].
  fold (check_granted p c). naive_solver.
Qed.

(** A policy of this shape lets through exactly the calls a farm needs, until it expires. *)
Lemma evaluate_farm usdc router cap perms clock c now expiry :
  farm_policy usdc router cap perms ->
  evaluateCall EQUAL LESS_THAN_OR_EQUAL clock perms c now expiry = allow <->
  is_expired clock now expiry = false /\ farm_call usdc router cap c.
Proof.
  intros (a & d & spender & amount & amount' & -> & Ha & Hd & Hs & Hc & Hc').
  rewrite evaluate_allow. apply and_iff_compat_l. setoid_rewrite find_two.
  pose proof (check_approve (args c) _ _ _ _ Hs Hc) as Happrove.
  pose proof (check_deposit (args c) _ _ Hc') as Hdeposit.
  split.
  - intros (p & [[Hp ->]|(_ & Hp & ->)] & Hg).
    + apply (permits_true _ _ _ _ _ Ha) in Hp as [Ht Hn].
      apply (check_granted_allow _ _ _ _ _ Ha) in Hg as [Hv Hg].
      apply Happrove in Hg as (l & Hl & H). split; [done|]. exists l. split; [done|]. left. by destruct H.
    + apply (permits_true _ _ _ _ _ Hd) in Hp as [Ht Hn].
      apply (check_granted_allow _ _ _ _ _ Hd) in Hg as [Hv Hg].
      apply Hdeposit in Hg as (l & Hl & H). split; [done|]. exists l. split; [done|]. by right.
  - intros (Hv & l & Hl & [(Ht & Hn & H)|(Ht & Hn & H)]).
    + exists a. split; [left; split; [by apply (permits_true _ _ _ _ _ Ha)|done]|].
      apply (check_granted_allow _ _ _ _ _ Ha). split; [done|]. apply Happrove. eauto.
    + exists d. split.
      * right. split_and!; [|by apply (permits_true _ _ _ _ _ Hd)|done].
        apply (permits_false _ _ _ _ _ Ha); [apply Ht|]. by rewrite Hn.
      * apply (check_granted_allow _ _ _ _ _ Hd). split; [done|]. apply Hdeposit. eauto.
Qed.

Lemma farm_permissions_policy p usdc router cap :
  usdcAddress p = Str usdc -> yieldRouterAddress p = Str router ->
  farm_policy usdc router cap (farm_permissions EQUAL LESS_THAN_OR_EQUAL p cap).
Proof.
  intros Hu Hr. unfold farm_permissions. rewrite Hr.
  exists (approve_permission EQUAL LESS_THAN_OR_EQUAL (usdcAddress p) (usdcAbi p) (Str router) cap).
  do 4 eexists. split; [reflexivity|]. split; [|split; [|split; [|split]]].
  - rewrite Hu. split; [by eexists|done].
  - split; [by eexists|done].
  - done.
  - done.
  - done.
Qed.

End Lemmas.

(** C23. The permissions that are built let through exactly the calls a farm needs: before the
    expiry, without native value, [approve] of the router on the USDC contract and [deposit] on
    the router, each for at most the largest cap of the pools, which is positive.  In
    particular a call that moves the money elsewhere is refused, whatever its arguments. *)
Theorem farm_policy_exact EQUAL LESS_THAN_OR_EQUAL p perms usdc router :
  EQUAL <> LESS_THAN_OR_EQUAL ->
  usdcAddress p = Str usdc -> yieldRouterAddress p = Str router ->
  buildFarmPermissions EQUAL LESS_THAN_OR_EQUAL p = Ok perms ->
  exists l pool_caps cap,
    pools p = Arr l /\ Forall2 entry_cap l pool_caps
    /\ cap ∈ pool_caps /\ Forall (fun c => c <= cap) pool_caps /\ 0 < cap
    /\ forall clock c now expiry,
      evaluateCall EQUAL LESS_THAN_OR_EQUAL clock perms c now expiry = allow <->
      is_expired clock now expiry = false /\ farm_call usdc router cap c.
Proof.
  intros Hne Hu Hr (l & caps & Hl & Hlne & Hcaps & ->)%build_Ok.
  exists l, caps, (foldl Z.max 0 caps).
  destruct (max_cap_spec l caps Hcaps Hlne) as (Hin & Hmax & Hpos).
  split_and!; try done.
  intros. by apply evaluate_farm, farm_permissions_policy.
Qed.

Module PolicySample.
Local Open Scope string_scope.
Definition pool (address : string) (cap : Z) : val := Obj [("pool", Str address); ("cap", BigInt cap)].
Definition sample : farm := {|
  pools := Arr [pool "0xPoolA" 40; pool "0xPoolB" 70; pool "0xPoolC" 15];
  yieldRouterAbi := Arr []; usdcAbi := Arr [];
  yieldRouterAddress := Str "0xF80aa8F5"; usdcAddress := Str "0x036CbD53" |}.

(** A deposit of 70 is let through, one of 71 and a transfer are not. *)
Definition deposit_of (z : Z) : call := {|
  to := Str "0xf80AA8f5"; value := Undefined; functionName := Str "deposit";
  args := Arr [Str "0xPoolA"; BigInt z; BigInt 0] |}.
Definition transfer : call := {|
  to := Str "0x036CbD53"; value := Undefined; functionName := Str "transfer";
  args := Arr [Str "0xThief"; BigInt 1] |}.

Example sample_calls :
  let perms := farm_permissions 0 4 sample 70 in
  (fun c => evaluateCall 0 4 1000000 perms c None (Some (Num 1001))) <$>
    [deposit_of 70; deposit_of 71; transfer]
  = [allow; deny "arg 1 exceeds policy cap"; deny "no permission for this target+selector"]
  /\ evaluateCall 0 4 1000000 perms (deposit_of 70) None (Some (Num 1000)) = deny "expired".
Proof. vm_compute. split; reflexivity. Qed.
End PolicySample.

Lemma farm_policy_exact_witness :
  exists l pool_caps cap,
    pools PolicySample.sample = Arr l /\ Forall2 entry_cap l pool_caps
    /\ cap ∈ pool_caps /\ Forall (fun c => c <= cap) pool_caps /\ 0 < cap
    /\ forall clock c now expiry,
      evaluateCall 0 4 clock (farm_permissions 0 4 PolicySample.sample 70) c now expiry = allow <->
      is_expired clock now expiry = false /\ farm_call "0x036CbD53" "0xF80aa8F5" cap c.
Proof.
  apply (farm_policy_exact 0 4 PolicySample.sample); [lia|reflexivity|reflexivity|].
  vm_compute. reflexivity.
Defined.
End PolicyEngine.
