(* ===== verification/CanonicalMandate.v ===== *)
(** * The canonical mandate

    Models [relayer/src/base/canonicalMandate.mjs] and the gate of
    [relayer/src/base/session.mjs]: what an approval of a session key must contain before the
    relayer stores the key or uses it.  The theorems are in MandatePolicy.v. *)
From S2P Require Export Base64 PolicyEngine.

Module CanonicalMandate.
Export Hex.

(** ** What the code takes from its libraries

    [viem], the ZeroDev SDK and the Stellar SDK are parameters; an operation that may throw
    is an option.  So is the decoder of UTF-8 ([None] where the text would hold a code unit
    above 255, as where the bytes are malformed) and the digest. *)
Record sdk := {
  EQUAL : Z;
  LESS_THAN_OR_EQUAL : Z;
  isAddress : chars -> bool;
  concatHex : list chars -> chars;
  pad32 : val -> option chars;
  slice4 : chars -> chars;
  keccak256 : chars -> chars;
  encode_bytes_list : list chars -> option chars;
  encode_bytes : chars -> option chars;
  (** [getPolicyInfoInBytes] and [getPolicyData] of the two policies *)
  toCallPolicy : val -> val -> val -> val -> option (chars * chars);
  toTimestampPolicy : val -> val -> val -> val -> option (chars * chars);
  (** [decodeFunctionData] and [encodeFunctionData] at the two ABIs *)
  decode_factory : val -> option (val * val);
  decode_kernel : val -> option (val * val);
  encode_initialize : list val -> option val;
  encode_deploy : list val -> option val;
  decodeParamsFromInitCode : val -> val -> option (list (string * val));
  privateKey_address : val -> option val;
  isValidEd25519PublicKey : chars -> bool;
  isValidContract : chars -> bool;
  decode_utf8 : chars -> option chars;
  sha256 : chars -> string }.

Section CanonicalMandate.
Context (lib : sdk).
Local Open Scope string_scope.

Definition MAX_CALL_CAP_UNITS : Z := 10000000000%Z.
Definition CANONICAL_PERMISSION_FLAG : string := "0x0000".

Definition CANONICAL_BASE_MANDATE_POLICY : val := Obj [
  ("chainId", Number (Num 84532));
  ("kernelVersion", Str "0.3.1");
  ("kernelImplementation", Str "0xBAC849bB641841b44E965fB01A4Bf5F074f84b4D");
  ("entryPointVersion", Str "0.7");
  ("entryPointAddress", Str "0x0000000071727De22E5E9d8BAf0edAc6f37da032");
  ("callPolicyVersion", Str "0.0.4");
  ("callPolicyAddress", Str "0x9a52283276A0ec8740DF50bF01B28A80D880eaf2");
  ("timestampPolicyAddress", Str "0xB9f8f524bE6EcD8C945b1b87f9ae5C192FdCE20F");
  ("ecdsaSignerAddress", Str "0x6A6F069E2a08c2468e7724Ab3250CdBFBA14D4FF");
  ("usdcAddress", Str "0x036CbD53842c5426634e7929541eC2318f3dCF7e");
  ("yieldRouterAddress", Str "0xF80aa8F571E6d24Ea72F051Fc6F9A9C516727B6d");
  ("approveSelector", Str "0x095ea7b3");
  ("depositSelector", Str "0x0efe6a8b");
  ("callType", Str "call");
  ("nativeValue", Str "0");
  ("executionHorizonSeconds", Number (Num 2700))].

(** ** The regular expressions *)
Definition DECIMAL_RE : chars -> bool := is_decimal.
Definition BYTES32_RE (t : chars) : bool :=
  match after_0x t with Some l => (length l =? 64)%nat && forallb is_hex_digit l | None => false end.
Definition PERMISSION_ID_RE : chars -> bool := is_0x_hex 8.
(** [/^0x[0-9a-f]{64}$/] *)
Definition hash_re : chars -> bool := is_0x_hex 64.
(** [/^0x(?:[0-9a-fA-F]{2})*$/] *)
Definition bytes_re (t : chars) : bool :=
  match after_0x t with Some l => Nat.even (length l) && forallb is_hex_digit l | None => false end.

Definition DEFAULT_ACTION_SELECTOR : string := "0xe9ae5c53".
Definition ZERO_ADDRESS : string := "0x0000000000000000000000000000000000000000".
Definition KERNEL_V0_3_1_FACTORY : string := "0xaac5D4240AF87249B3f71BC8E4A2cae074A3E419".
Definition PASSKEY_VALIDATOR_V0_0_3 : string := "0x7ab16Ff354AcB328452F1D445b3Ddee9a91e9e69".
Definition PASSKEY_ROOT_VALIDATOR_ID : string :=
  string_of (concatHex lib [chars_of "0x00"; chars_of PASSKEY_VALIDATOR_V0_0_3]).
Definition MAX_ENABLE_SIGNATURE_BYTES : Z := 16384%Z.
Definition MAX_INIT_CODE_BYTES : Z := 65536%Z.

Definition TOP_LEVEL_FIELDS : list string :=
  ["permissionParams"; "action"; "validityData"; "accountParams"; "enableSignature";
   "eip7702Auth"; "isPreInstalled"].
Definition ACCOUNT_FIELDS : list string := ["initCode"; "accountAddress"].
Definition ACTION_FIELDS : list string := ["selector"; "address"].
Definition VALIDITY_FIELDS : list string := ["validAfter"; "validUntil"].
Definition PERMISSION_PARAMS_FIELDS : list string := ["permissionId"; "policies"].
Definition POLICY_FIELDS : list string := ["policyParams"].
Definition CALL_POLICY_FIELDS : list string :=
  ["type"; "policyVersion"; "policyAddress"; "policyFlag"; "permissions"].
Definition TIMESTAMP_POLICY_FIELDS : list string :=
  ["type"; "policyAddress"; "policyFlag"; "validAfter"; "validUntil"].
Definition CALL_FIELDS : list string :=
  ["target"; "valueLimit"; "abi"; "functionName"; "args"; "callType"; "selector"; "rules"].
Definition RULE_FIELDS : list string := ["params"; "offset"; "condition"].
Definition ARG_FIELDS : list string := ["condition"; "value"].

(** ** Errors and tests *)

(** A [CanonicalMandateError], or any other error that was thrown on the way. *)
Inductive mandate_error :=
| CanonicalMandateError (code message : string)
| OtherError.

Definition fail {A} (code message : string) : result mandate_error A :=
  Throw (CanonicalMandateError code message).

Definition of_option {A} (m : option A) : result mandate_error A :=
  match m with Some a => Ok a | None => Throw OtherError end.

Definition to_String (v : val) : result mandate_error chars :=
  if stringable v then Ok (coerce v) else Throw OtherError.

(** [a || b || ...], evaluated up to the first test that holds or throws. *)
Fixpoint any_of (tests : list (result mandate_error bool)) : result mandate_error bool :=
  match tests with
  | [] => Ok false
  | t :: tests => b ← t; if b : bool then Ok true else any_of tests
  end.

(** [!m] *)
Definition not_ (m : result mandate_error bool) : result mandate_error bool := negb <$> m.

(** [if (a || b || ...) fail(code, message);] *)
Definition fail_if (tests : list (result mandate_error bool)) (code message : string)
    : result mandate_error unit :=
  bad ← any_of tests; if bad : bool then fail code message else Ok tt.

(** [a !== b] *)
Definition differs (a b : val) : result mandate_error bool := Ok (negb (strict_eq a b)).

Definition objectWithOnly (value : val) (allowed : list string) : bool :=
  is_object value && forallb (fun key => bool_decide (key ∈ allowed)) (keys value).

Definition only (value : val) (allowed : list string) : result mandate_error bool :=
  Ok (objectWithOnly value allowed).

(** [v || ''] *)
Definition or_text (v : val) : val := if truthy v then v else Str EmptyString.

Definition is_address (v : val) : result mandate_error bool :=
  t ← to_String (or_text v); Ok (isAddress lib t).

Definition sameAddress (left right : val) : result mandate_error bool :=
  a ← is_address left;
  if negb a then Ok false
  else
    b ← is_address right;
    if negb b then Ok false
    else
      l ← to_String left; r ← to_String right;
      Ok (bool_decide (toLowerCase l = toLowerCase r)).

Definition sameHex (left right : val) : bool :=
  match left, right with
  | Str l, Str r => bool_decide (toLowerCase (chars_of l) = toLowerCase (chars_of r))
  | _, _ => false
  end.

Definition boundedHex (value : val) (maxBytes : Z) (allowEmpty : bool) : bool :=
  match value with
  | Str s =>
      bytes_re (chars_of s)
      && let bytes := (Z.of_nat (String.length s) - 2) / 2 in
         (bytes <=? maxBytes)%Z && (allowEmpty || (0 <? bytes)%Z)
  | _ => false
  end.

(** [JSON.stringify] with every [bigint] replaced by its decimal text *)
Fixpoint texts_for_bigints (v : val) : val :=
  match v with
  | BigInt z => Str (string_of (BigInt_toString z))
  | Arr l => Arr (texts_for_bigints <$> l)
  | Obj fs => Obj ((fun f => (f.1, texts_for_bigints f.2)) <$> fs)
  | v => v
  end.

Definition json (value : val) : option chars :=
  match JSON.stringify (texts_for_bigints value) with Ok t => t | Throw _ => None end.

(** A digest of [undefined] throws. *)
Definition digestCanonicalValue (value : val) : result mandate_error string :=
  match value with
  | Str s => Ok (sha256 lib (chars_of s))
  | v => t ← of_option (json v); Ok (sha256 lib t)
  end.

Definition isStellarStrKey (value : val) : bool :=
  match value with
  | Str s => isValidEd25519PublicKey lib (chars_of s) || isValidContract lib (chars_of s)
  | _ => false
  end.

Definition deriveSessionAddress (sessionPrivateKey : val) : option val :=
  privateKey_address lib sessionPrivateKey.

Definition canonicalUserOpHash (value : val) : option string :=
  match value with Str s => if hash_re (chars_of s) then Some s else None | _ => None end.

Definition canonicalTxHash (value : val) : option string :=
  match value with Str s => if hash_re (chars_of s) then Some s else None | _ => None end.

(** ** The pinned configuration *)

(** The two addresses a deployment chooses are not compared with the pinned ones. *)
Definition pinned_key_differs (policy : val) (key : string) : bool :=
  negb (bool_decide (key ∈ ["usdcAddress"; "yieldRouterAddress"]))
  && negb (strict_eq (get policy key) (get CANONICAL_BASE_MANDATE_POLICY key)).

Definition assertPinnedConfig (config : val) : result mandate_error val :=
  let base := config#"base" in
  let policy := base#"mandatePolicy" in
  let deployment := base#"hardenedDeployment" in
  _ ← fail_if [Ok (negb (is_object policy))]
        "POLICY_MISMATCH" "canonical mandate policy is unavailable";
  _ ← fail_if
        [differs base#"baseCrossChainAvailable" (Bool true);
         differs deployment#"generation" (Str "hardened-v2");
         differs deployment#"chainId" (Number (Num 84532));
         not_ (sameAddress deployment#"yieldRouter"#"address" policy#"yieldRouterAddress");
         not_ (sameAddress deployment#"route"#"usdcAddress" policy#"usdcAddress")]
        "POLICY_MISMATCH" "hardened deployment authority is unavailable";
  let expectedKeys := keys CANONICAL_BASE_MANDATE_POLICY in
  _ ← fail_if
        [Ok (negb (length (keys policy) =? length expectedKeys)%nat);
         Ok (existsb (pinned_key_differs policy) expectedKeys)]
        "POLICY_MISMATCH" "canonical mandate policy facts do not match pinned deployment facts";
  _ ← fail_if [differs base#"chain"#"id" policy#"chainId"]
        "CHAIN_MISMATCH" "configured Base chain does not match the pinned mandate chain";
  Ok policy.

(** ** The serialized approval *)
Definition decodeCanonicalBase64 (serializedApproval : val) : result mandate_error val :=
  match serializedApproval with
  | Str s =>
      let t := chars_of s in
      _ ← fail_if [Ok (bool_decide (s = EmptyString)); Ok (negb (Base64.BASE64_RE t))]
            "APPROVAL_MALFORMED" "serialized approval is not canonical base64";
      let bytes := Base64.decode t in
      _ ← fail_if [Ok (negb (bool_decide (Base64.encode bytes = t)))]
            "APPROVAL_MALFORMED" "serialized approval is not canonical base64";
      value ←
        match decode_utf8 lib bytes with
        | Some text =>
            match JSON.parse text with
            | Ok value => Ok value
            | Throw _ => fail "APPROVAL_MALFORMED" "serialized approval is not canonical UTF-8 JSON"
            end
        | None => fail "APPROVAL_MALFORMED" "serialized approval is not canonical UTF-8 JSON"
        end;
      _ ← fail_if [not_ (only value TOP_LEVEL_FIELDS); Ok (has_own value "privateKey")]
            "APPROVAL_MALFORMED" "serialized approval contains unsupported fields";
      Ok value
  | _ => fail "APPROVAL_MALFORMED" "serialized approval is not canonical base64"
  end.

Definition canonicalDecimal (value : val) (label : string) : result mandate_error Z :=
  match value with
  | Str s =>
      if DECIMAL_RE (chars_of s) then Ok (of_digits (chars_of s))
      else fail "POLICY_MISMATCH" (label +:+ " is not a canonical decimal")
  | _ => fail "POLICY_MISMATCH" (label +:+ " is not a canonical decimal")
  end.

Definition condition (c : Z) : val := Number (Num c).

Definition exactArg (arg : val) (c : Z) (value : val) (label : string) : result mandate_error unit :=
  let message := label +:+ " argument mismatch" in
  _ ← fail_if [not_ (only arg ARG_FIELDS); differs arg#"condition" (condition c)]
        "POLICY_MISMATCH" message;
  if (c =? EQUAL lib)%Z
  then fail_if [not_ (sameAddress arg#"value" value)] "POLICY_MISMATCH" message
  else fail_if [differs arg#"value" value] "POLICY_MISMATCH" message.

Definition ruleValue (rule : val) (label : string) : result mandate_error val :=
  let message := label +:+ " rule mismatch" in
  _ ← fail_if [not_ (only rule RULE_FIELDS)] "POLICY_MISMATCH" message;
  match rule#"params" with
  | Arr [p] =>
      t ← to_String (or_text p);
      _ ← fail_if [Ok (negb (BYTES32_RE t))] "POLICY_MISMATCH" message;
      Ok p
  | _ => fail "POLICY_MISMATCH" message
  end.

(** ** The code that creates the account *)

(** [v?.[i]] *)
Definition element (v : val) (i : nat) : val :=
  match v with Arr l => default Undefined (l !! i) | _ => Undefined end.

(** [v[i]] throws where [v] is [undefined] or [null]. *)
Definition index (v : val) (i : nat) : result mandate_error val :=
  if nullish v then Throw OtherError else Ok (element v i).

Definition factory_mismatch : string := "serialized approval factory init code mismatch".

(** [catch (error)]: what is not a [CanonicalMandateError] becomes one. *)
Definition catch_other {A} (m : result mandate_error A) : result mandate_error A :=
  match m with Throw OtherError => fail "APPROVAL_MALFORMED" factory_mismatch | m => m end.

(** The call of the factory, the initialisation it carries and what the SDK makes of both. *)
Definition decode_init_code (initCode policy : val)
    : result mandate_error ((val * val) * (val * val) * val) :=
  catch_other (
    outer ← of_option (decode_factory lib initCode);
    _ ← fail_if
          [differs outer.1 (Str "deployWithFactory");
           not_ (sameAddress (element outer.2 0) (Str KERNEL_V0_3_1_FACTORY))]
          "APPROVAL_MALFORMED" factory_mismatch;
    data ← index outer.2 1;
    initialize ← of_option (decode_kernel lib data);
    decoded ← of_option (decodeParamsFromInitCode lib initCode policy#"kernelVersion");
    Ok (outer, initialize, Obj decoded)).

Definition is_bigint (v : val) : bool := match v with BigInt _ => true | _ => false end.
Definition is_empty_array (v : val) : bool := match v with Arr [] => true | _ => false end.
Definition array_of (v : val) : list val := match v with Arr l => l | _ => [] end.

Definition check_initialize (outer initialize : val * val) (decoded : val)
    : result mandate_error unit :=
  let args := initialize.2 in
  let data := decoded#"validatorInitData" in
  fail_if
    [differs initialize.1 (Str "initialize");
     Ok (negb (sameHex (element args 0) (Str PASSKEY_ROOT_VALIDATOR_ID)));
     not_ (sameAddress (element args 1) (Str ZERO_ADDRESS));
     Ok (negb (boundedHex (element args 2) MAX_INIT_CODE_BYTES false));
     differs (element args 3) (Str "0x");
     Ok (negb (is_empty_array (element args 4)));
     differs decoded#"useMetaFactory" (Bool true);
     Ok (negb (is_bigint decoded#"index"));
     (salt ← index outer.2 2; z ← of_option (to_BigInt salt); differs decoded#"index" (BigInt z));
     Ok (negb (sameHex data#"identifier" (Str PASSKEY_ROOT_VALIDATOR_ID)));
     Ok (negb (sameHex data#"validatorAddress" (Str PASSKEY_ROOT_VALIDATOR_ID)));
     Ok (negb (sameHex data#"enableData" (element args 2)));
     differs data#"initConfig" Undefined]
    "APPROVAL_MALFORMED" "serialized approval account initialization mismatch".

Definition validateCanonicalInitCode (initCode policy : val) : result mandate_error unit :=
  if strict_eq initCode (Str "0x") then Ok tt
  else
    _ ← fail_if [Ok (negb (boundedHex initCode MAX_INIT_CODE_BYTES true))]
          "APPROVAL_MALFORMED" "serialized approval init code mismatch";
    parts ← decode_init_code initCode policy;
    let '(outer, initialize, decoded) := parts in
    _ ← check_initialize outer initialize decoded;
    canonicalInitialize ← of_option (encode_initialize lib (array_of initialize.2));
    salt ← index outer.2 2;
    canonicalInitCode ←
      of_option (encode_deploy lib [Str KERNEL_V0_3_1_FACTORY; canonicalInitialize; salt]);
    fail_if [Ok (negb (sameHex initCode canonicalInitCode))]
      "APPROVAL_MALFORMED" "serialized approval factory init code is not canonical".

(** ** The permissions *)

(** The elements of an array of one, two or three. *)
Definition pair_of (v : val) (message : string) : result mandate_error (val * val) :=
  match v with Arr [a; b] => Ok (a, b) | _ => fail "POLICY_MISMATCH" message end.
Definition triple_of (v : val) (message : string) : result mandate_error (val * val * val) :=
  match v with Arr [a; b; c] => Ok (a, b, c) | _ => fail "POLICY_MISMATCH" message end.
Definition single_of (v : val) (message : string) : result mandate_error val :=
  match v with Arr [a] => Ok a | _ => fail "POLICY_MISMATCH" message end.

(** The head of a permission: what it lets be called, by a plain call without value. *)
Definition check_head (p : val) (name : string) (target selector : val) (message : string)
    : result mandate_error unit :=
  fail_if
    [differs p#"functionName" (Str name); not_ (sameAddress p#"target" target);
     Ok (negb (sameHex p#"selector" selector)); differs p#"callType" (Str "0x00");
     differs p#"valueLimit" (Str "0")]
    "POLICY_MISMATCH" message.

(** The arguments of the approval: its spender and its cap. *)
Definition approve_cap (approve policy : val) : result mandate_error Z :=
  args ← pair_of approve#"args" "approve argument metadata mismatch";
  _ ← exactArg args.1 (EQUAL lib) policy#"yieldRouterAddress" "approve spender";
  _ ← fail_if
        [not_ (only args.2 ARG_FIELDS);
         differs args.2#"condition" (condition (LESS_THAN_OR_EQUAL lib))]
        "POLICY_MISMATCH" "approve cap argument mismatch";
  approveCap ← canonicalDecimal args.2#"value" "approve cap";
  _ ← fail_if [Ok (approveCap <=? 0)%Z; Ok (MAX_CALL_CAP_UNITS <? approveCap)%Z]
        "POLICY_MISMATCH" "approve cap is outside the canonical bound";
  Ok approveCap.

(** The arguments of the deposit: only its amount is constrained. *)
Definition deposit_cap (deposit : val) (approveCap : Z) : result mandate_error Z :=
  let message := "deposit argument metadata mismatch" in
  args ← triple_of deposit#"args" message;
  let '(pool, amount, minShares) := args in
  _ ← fail_if
        [differs pool Null; differs minShares Null; not_ (only amount ARG_FIELDS);
         differs amount#"condition" (condition (LESS_THAN_OR_EQUAL lib))]
        "POLICY_MISMATCH" message;
  depositCap ← canonicalDecimal amount#"value" "deposit cap";
  _ ← fail_if [Ok (negb (depositCap =? approveCap)%Z)]
        "POLICY_MISMATCH" "permission caps must be equal";
  Ok depositCap.

(** A rule that caps the word at an offset. *)
Definition check_cap_rule (rule : val) (cap : Z) (label : string) : result mandate_error unit :=
  word ← ruleValue rule label;
  fail_if
    [differs rule#"condition" (condition (LESS_THAN_OR_EQUAL lib));
     differs rule#"offset" (Number (Num 32));
     (z ← of_option (to_BigInt word); Ok (negb (z =? cap)%Z))]
    "POLICY_MISMATCH" (label +:+ " rule mismatch").

Definition check_spender_rule (rule policy : val) : result mandate_error unit :=
  word ← ruleValue rule "approve spender";
  fail_if
    [differs rule#"condition" (condition (EQUAL lib));
     differs rule#"offset" (Number (Num 0));
     (padded ← of_option (pad32 lib policy#"yieldRouterAddress");
      Ok (negb (sameHex word (Str (string_of padded)))))]
    "POLICY_MISMATCH" "approve spender rule mismatch".

Definition validatePermissions (call policy : val) : result mandate_error Z :=
  entries ← pair_of call#"permissions" "call policy must contain exactly two permissions";
  let '(approve, deposit) := entries in
  _ ← fail_if [not_ (only approve CALL_FIELDS); not_ (only deposit CALL_FIELDS)]
        "POLICY_MISMATCH" "permission contains unsupported fields";
  _ ← check_head approve "approve" policy#"usdcAddress" policy#"approveSelector"
        "approve permission mismatch";
  _ ← check_head deposit "deposit" policy#"yieldRouterAddress" policy#"depositSelector"
        "deposit permission mismatch";
  approveCap ← approve_cap approve policy;
  depositCap ← deposit_cap deposit approveCap;
  rules ← pair_of approve#"rules" "approve rules mismatch";
  _ ← check_spender_rule rules.1 policy;
  _ ← check_cap_rule rules.2 approveCap "approve cap";
  rule ← single_of deposit#"rules" "deposit rules mismatch";
  _ ← check_cap_rule rule depositCap "deposit cap";
  Ok approveCap.

(** ** The permission id: a digest of the policies and the signer *)
Definition derivePermissionId (call timestamp policy sessionKeyAddress : val)
    : result mandate_error string :=
  call_policy ← of_option (toCallPolicy lib call#"policyVersion" policy#"callPolicyAddress"
                             call#"policyFlag" call#"permissions");
  timestamp_policy ← of_option (toTimestampPolicy lib policy#"timestampPolicyAddress"
                                  timestamp#"policyFlag" timestamp#"validAfter"
                                  timestamp#"validUntil");
  policyId ← of_option (encode_bytes_list lib
    [concatHex lib [call_policy.1; call_policy.2];
     concatHex lib [timestamp_policy.1; timestamp_policy.2]]);
  signerId ← of_option (encode_bytes lib
    (concatHex lib [coerce policy#"ecdsaSignerAddress"; coerce sessionKeyAddress]));
  all ← of_option (encode_bytes_list lib
    [policyId; chars_of CANONICAL_PERMISSION_FLAG; signerId]);
  Ok (string_of (toLowerCase (slice4 lib (keccak256 lib all)))).

Definition expectedCanonicalPolicyData : list string :=
  (fun address => string_of (concatHex lib
     [chars_of CANONICAL_PERMISSION_FLAG; coerce (get CANONICAL_BASE_MANDATE_POLICY address)]))
  <$> ["callPolicyAddress"; "timestampPolicyAddress"].

(** ** The mandate *)
Record request := {
  serializedApproval : val;
  sessionPrivateKey : val;
  sessionKeyAddress : val;
  stellarOwner : val;
  kernelAddress : val;
  permissionId : val;
  validUntilSeconds : val;
  expiresAt : val;
  relayerOrigin : val;
  bindingId : val;
  bindingHash : val;
  config : val;
  now : val }.

Record mandate := {
  m_accountAddress : val;
  m_sessionKeyAddress : val;
  m_stellarOwner : val;
  m_permissionId : string;
  m_validAfter : val;
  m_validUntilSeconds : val;
  m_cap : Z;
  m_policies : val;
  m_call : val;
  m_timestamp : val;
  m_policyDigest : string;
  m_policyData : list string }.

(** The envelope of the approval: its fields, the account's initialisation, the action, the
    validity, the signature and the mode of installation. *)
Definition check_envelope (decoded policy : val) : result mandate_error unit :=
  let account := decoded#"accountParams" in
  let permission := decoded#"permissionParams" in
  _ ← fail_if
        [not_ (only account ACCOUNT_FIELDS);
         not_ (is_address account#"accountAddress");
         Ok (negb (boundedHex account#"initCode" MAX_INIT_CODE_BYTES true));
         not_ (only permission PERMISSION_PARAMS_FIELDS);
         (t ← to_String (or_text permission#"permissionId"); Ok (negb (PERMISSION_ID_RE t)))]
        "APPROVAL_MALFORMED" "serialized approval envelope mismatch";
  _ ← validateCanonicalInitCode account#"initCode" policy;
  let action := decoded#"action" in
  _ ← fail_if
        [not_ (only action ACTION_FIELDS);
         Ok (negb (sameHex action#"selector" (Str DEFAULT_ACTION_SELECTOR)));
         not_ (sameAddress action#"address" (Str ZERO_ADDRESS))]
        "APPROVAL_MALFORMED" "serialized approval action mismatch";
  let validity := decoded#"validityData" in
  _ ← fail_if
        [not_ (only validity VALIDITY_FIELDS);
         differs validity#"validAfter" (Number (Num 0));
         differs validity#"validUntil" (Number (Num 0))]
        "APPROVAL_MALFORMED" "serialized approval account validity mismatch";
  _ ← fail_if [Ok (negb (boundedHex decoded#"enableSignature" MAX_ENABLE_SIGNATURE_BYTES false))]
        "APPROVAL_MALFORMED" "serialized approval enable signature mismatch";
  fail_if
    [Ok (negb (nullish decoded#"eip7702Auth"));
     Ok (negb (strict_eq decoded#"isPreInstalled" Undefined)
         && negb (strict_eq decoded#"isPreInstalled" (Bool false)))]
    "APPROVAL_MALFORMED" "serialized approval installation mode mismatch".

(** The owner, the kernel and the session key; the address derived from the key. *)
Definition check_parties (r : request) (decoded : val) : result mandate_error val :=
  _ ← fail_if [Ok (negb (isStellarStrKey (stellarOwner r)))]
        "OWNER_MISMATCH" "invalid Stellar owner checksum";
  _ ← fail_if [not_ (sameAddress decoded#"accountParams"#"accountAddress" (kernelAddress r))]
        "KERNEL_MISMATCH" "kernel does not match the serialized approval";
  derivedSession ←
    match deriveSessionAddress (sessionPrivateKey r) with
    | Some a => Ok a
    | None => fail "SESSION_MISMATCH" "invalid session private key"
    end;
  _ ← fail_if [not_ (sameAddress derivedSession (sessionKeyAddress r))]
        "SESSION_MISMATCH" "session address does not match the supplied private key";
  Ok derivedSession.

(** The two policies, in their order, and their fixed facts. *)
Definition check_policies (decoded policy : val) : result mandate_error (val * val) :=
  let message := "policy order or count mismatch" in
  policies ← pair_of decoded#"permissionParams"#"policies" message;
  _ ← fail_if
        [not_ (only policies.1 POLICY_FIELDS); not_ (only policies.2 POLICY_FIELDS);
         not_ (only policies.1#"policyParams" CALL_POLICY_FIELDS);
         not_ (only policies.2#"policyParams" TIMESTAMP_POLICY_FIELDS)]
        "POLICY_MISMATCH" message;
  let call := policies.1#"policyParams" in
  let timestamp := policies.2#"policyParams" in
  _ ← fail_if
        [differs call#"type" (Str "call");
         differs timestamp#"type" (Str "timestamp");
         differs call#"policyVersion" policy#"callPolicyVersion";
         (if strict_eq call#"policyAddress" Undefined then Ok false
          else not_ (sameAddress call#"policyAddress" policy#"callPolicyAddress"));
         not_ (sameAddress timestamp#"policyAddress" policy#"timestampPolicyAddress");
         differs call#"policyFlag" (Str CANONICAL_PERMISSION_FLAG);
         differs timestamp#"policyFlag" (Str CANONICAL_PERMISSION_FLAG)]
        "POLICY_MISMATCH" "policy contract, version, flag, or order mismatch";
  _ ← fail_if
        [differs timestamp#"validAfter" (Number (Num 0));
         Ok (negb (is_safe_integer timestamp#"validUntil"));
         Ok (integer_of timestamp#"validUntil" <=? 0)%Z]
        "POLICY_MISMATCH" "timestamp policy mismatch";
  Ok (call, timestamp).

(** The three expiries agree and have not passed. *)
Definition check_expiry (r : request) (timestamp : val) : result mandate_error unit :=
  _ ← fail_if
        [Ok (negb (is_safe_integer (validUntilSeconds r)));
         Ok (negb (is_safe_integer (expiresAt r)));
         differs timestamp#"validUntil" (validUntilSeconds r);
         differs (validUntilSeconds r) (expiresAt r)]
        "EXPIRY_MISMATCH" "embedded and public expiry must match in Unix seconds";
  fail_if
    [Ok (negb (strict_eq (now r) Undefined)
         && (negb (is_safe_integer (now r))
             || (integer_of (validUntilSeconds r) <=? integer_of (now r))%Z))]
    "EXPIRED" "mandate has expired".

(** [`${stellarOwner}|${kernelAddress}|${sessionKeyAddress}|${validUntilSeconds}`] *)
Definition binding_text (r : request) : chars :=
  join ["|"%char]
    [coerce (stellarOwner r); coerce (kernelAddress r); coerce (sessionKeyAddress r);
     coerce (validUntilSeconds r)].

Definition check_identity (r : request) (decoded : val) (canonicalPermissionId : string)
    : result mandate_error unit :=
  _ ← fail_if
        [differs decoded#"permissionParams"#"permissionId" (Str canonicalPermissionId);
         Ok (negb (strict_eq (permissionId r) Undefined)
             && negb (strict_eq (permissionId r) (Str canonicalPermissionId)))]
        "PERMISSION_MISMATCH" "permission identity mismatch";
  _ ← fail_if
        [Ok (negb (strict_eq (relayerOrigin r) Undefined)
             && negb (strict_eq (relayerOrigin r) (config r)#"publicOrigin"))]
        "ORIGIN_MISMATCH" "relayer origin mismatch";
  if strict_eq (bindingId r) Undefined && strict_eq (bindingHash r) Undefined then Ok tt
  else
    wantedBinding ← digestCanonicalValue (Str (string_of (binding_text r)));
    fail_if
      [Ok (negb (is_string (bindingId r))); Ok (negb (truthy (bindingId r)));
       differs (bindingHash r) (Str wantedBinding)]
      "BINDING_MISMATCH" "binding mismatch".

Definition parseCanonicalMandate (r : request) : result mandate_error mandate :=
  policy ← assertPinnedConfig (config r);
  decoded ← decodeCanonicalBase64 (serializedApproval r);
  _ ← check_envelope decoded policy;
  derivedSession ← check_parties r decoded;
  params ← check_policies decoded policy;
  let '(call, timestamp) := params in
  _ ← check_expiry r timestamp;
  cap ← validatePermissions call policy;
  canonicalPermissionId ← derivePermissionId call timestamp policy derivedSession;
  _ ← check_identity r decoded canonicalPermissionId;
  let policies := decoded#"permissionParams"#"policies" in
  policyDigest ← digestCanonicalValue policies;
  Ok {| m_accountAddress := decoded#"accountParams"#"accountAddress";
        m_sessionKeyAddress := derivedSession;
        m_stellarOwner := stellarOwner r;
        m_permissionId := canonicalPermissionId;
        m_validAfter := timestamp#"validAfter";
        m_validUntilSeconds := validUntilSeconds r;
        m_cap := cap;
        m_policies := policies;
        m_call := call;
        m_timestamp := timestamp;
        m_policyDigest := policyDigest;
        m_policyData := expectedCanonicalPolicyData |}.

Inductive outcome :=
| Accepted (m : mandate)
| Refused (code reason : string).

Definition validateCanonicalMandate (params : request) : outcome :=
  match parseCanonicalMandate params with
  | Ok m => Accepted m
  | Throw (CanonicalMandateError code message) => Refused code message
  | Throw OtherError => Refused "APPROVAL_MALFORMED" "malformed canonical mandate"
  end.

(** ** The gate of [session.mjs] *)
Definition default_to (v d : val) : val := match v with Undefined => d | _ => v end.

(** The parameters that have a default, by the values that were passed and the clock in
    milliseconds. *)
Definition binding_request (p : request) (clock : Z) : request := {|
  serializedApproval := serializedApproval p;
  sessionPrivateKey := sessionPrivateKey p;
  sessionKeyAddress := sessionKeyAddress p;
  stellarOwner := stellarOwner p;
  kernelAddress := kernelAddress p;
  permissionId := permissionId p;
  validUntilSeconds := validUntilSeconds p;
  expiresAt := default_to (expiresAt p) (validUntilSeconds p);
  relayerOrigin := relayerOrigin p;
  bindingId := bindingId p;
  bindingHash := bindingHash p;
  config := default_to (config p)
    (Obj [("publicOrigin", relayerOrigin p);
          ("base", Obj [("chain", Obj [("id", get CANONICAL_BASE_MANDATE_POLICY "chainId")]);
                        ("mandatePolicy", CANONICAL_BASE_MANDATE_POLICY)])]);
  now := default_to (now p) (Number (Num (clock / 1000)%Z)) |}.

Inductive binding_outcome :=
| Bound (derivedSessionAddress : val) (m : mandate)
| Unbound (reason code : string).

Definition validateMandateBinding (p : request) (clock : Z) : binding_outcome :=
  match validateCanonicalMandate (binding_request p clock) with
  | Accepted m => Bound (m_sessionKeyAddress m) m
  | Refused code reason => Unbound reason code
  end.

End CanonicalMandate.
End CanonicalMandate.
