(* ===== verification/MandatePolicy.v ===== *)
(** * What an accepted mandate allows

    The session key of an accepted approval can make exactly the calls of a farm, within one
    cap; the approvals the frontend makes are accepted; and the key, the account, the expiry
    and the identity of an accepted mandate are those of the request. *)
From S2P Require Export CanonicalMandate.

Module MandatePolicy.
Export CanonicalMandate.

(** ** Tests that may fail *)
Lemma any_of_false tests : any_of tests = Ok false <-> Forall (fun t => t = Ok false) tests.
Proof.
  induction tests as [|t tests IH]; [done|]. cbn. rewrite Forall_cons, <- IH.
  destruct t as [[]|]; cbn; naive_solver.
Qed.

Lemma fail_if_Ok tests code message u :
  fail_if tests code message = Ok u <-> Forall (fun t => t = Ok false) tests.
Proof.
  unfold fail_if. rewrite <- any_of_false. destruct u.
  destruct (any_of tests) as [[]|]; cbn; naive_solver.
Qed.

Lemma not_false m : not_ m = Ok false <-> m = Ok true.
Proof. destruct m as [[]|]; cbn; naive_solver. Qed.

Lemma differs_false a b : differs a b = Ok false <-> strict_eq a b = true.
Proof. unfold differs. destruct (strict_eq a b); cbn; split; congruence. Qed.

Lemma Ok_false (b : bool) : @Ok mandate_error bool b = Ok false <-> b = false.
Proof. split; congruence. Qed.

Lemma strict_eq_Null v : strict_eq v Null = true <-> v = Null.
Proof. destruct v as [| | |[]| | | | |]; cbn; split; congruence. Qed.

Lemma strict_eq_Num v z : strict_eq v (Number (Num z)) = true <-> v = Number (Num z).
Proof. destruct v as [| | |[]| | | | |]; cbn; rewrite ?bool_decide_eq_true; split; congruence. Qed.

Lemma strict_eq_condition v c : strict_eq v (condition c) = true <-> v = condition c.
Proof. apply strict_eq_Num. Qed.

Lemma only_true v allowed : only v allowed = Ok true <-> objectWithOnly v allowed = true.
Proof. unfold only. split; congruence. Qed.

#[export] Hint Rewrite fail_if_Ok not_false differs_false Ok_false negb_false_iff @Forall_cons @Forall_nil
  strict_eq_Null strict_eq_Num strict_eq_Str strict_eq_condition only_true : tests.

(** The conclusions of the guards a computation passed. *)
Ltac passed H := autorewrite with tests in H; destruct_and? H.

Section Facts.
Context (lib : sdk).

Lemma sameAddress_text v s :
  sameAddress lib v (Str s) = Ok true ->
  stringable v = true /\ toLowerCase (coerce v) = toLowerCase (chars_of s).
Proof.
  unfold sameAddress, is_address. intros H. invert_ok H.
  repeat match goal with H : to_String _ = Ok _ |- _ => unfold to_String in H; invert_ok H end.
  split; [done|]. by apply bool_decide_eq_true in H.
Qed.

(** ** What the checks of the permissions establish *)
Definition objects_only v allowed : objectWithOnly v allowed = true -> nullish v = false.
Proof. by destruct v. Qed.

Lemma check_head_Ok p name target selector message u :
  check_head lib p name target selector message = Ok u <->
  p#"functionName" = Str name /\ sameAddress lib p#"target" target = Ok true
  /\ sameHex p#"selector" selector = true /\ p#"callType" = Str "0x00" /\ p#"valueLimit" = Str "0".
Proof. unfold check_head. autorewrite with tests. tauto. Qed.

Lemma canonicalDecimal_Ok v label z :
  canonicalDecimal v label = Ok z <->
  exists t, v = Str t /\ is_decimal (chars_of t) = true /\ z = of_digits (chars_of t).
Proof.
  unfold canonicalDecimal, DECIMAL_RE. destruct v; try by (split; [done|intros (? & ? & _)]).
  destruct (is_decimal (chars_of s)) eqn:E; [|split; [done|intros (? & [= <-] & ? & _); congruence]].
  split; [intros [= <-]; eauto|]. by intros (? & [= <-] & _ & ->).
Qed.

(** A canonical decimal converts to its value. *)
Lemma decimal_to_BigInt t : is_decimal (chars_of t) = true -> to_BigInt (Str t) = Some (of_digits (chars_of t)).
Proof.
  intros H%is_decimal_canonical. destruct H as [Hd Hne].
  apply StringToBigInt_digits; [|done]. by destruct (chars_of t).
Qed.

Lemma cap_argument amount label cap :
  objectWithOnly amount ARG_FIELDS = true ->
  amount#"condition" = condition (LESS_THAN_OR_EQUAL lib) ->
  canonicalDecimal amount#"value" label = Ok cap ->
  PolicyEngine.caps (LESS_THAN_OR_EQUAL lib) amount cap.
Proof.
  intros Ho Hc (t & Ht & Hd & ->)%canonicalDecimal_Ok.
  split_and!; [by eapply objects_only|done|]. rewrite Ht. by apply decimal_to_BigInt.
Qed.

Lemma exactArg_equal arg s label u :
  exactArg lib arg (EQUAL lib) (Str s) label = Ok u ->
  PolicyEngine.demands_text (EQUAL lib) arg s.
Proof.
  unfold exactArg. intros H. apply bind_Ok in H as ([] & Hg & H). passed Hg.
  rewrite Z.eqb_refl in H. passed H. split_and!; [by eapply objects_only|done|].
  by apply sameAddress_text.
Qed.

Lemma approve_cap_Ok approve policy router cap :
  policy#"yieldRouterAddress" = Str router ->
  approve_cap lib approve policy = Ok cap ->
  exists spender amount, approve#"args" = Arr [spender; amount]
    /\ PolicyEngine.demands_text (EQUAL lib) spender router
    /\ PolicyEngine.caps (LESS_THAN_OR_EQUAL lib) amount cap /\ 0 < cap <= MAX_CALL_CAP_UNITS.
Proof.
  intros Hr H. unfold approve_cap in H. rewrite Hr in H.
  apply bind_Ok in H as ([spender amount] & Ha & H). cbn [fst snd] in H.
  apply bind_Ok in H as ([] & Hs & H). apply bind_Ok in H as ([] & Hg & H).
  apply bind_Ok in H as (z & Hz & H). apply bind_Ok in H as ([] & Hb & [= <-]).
  passed Hg. passed Hb. zbool. exists spender, amount. split_and!; try lia.
  - unfold pair_of in Ha. by invert_ok Ha.
  - by eapply exactArg_equal.
  - by eapply cap_argument.
Qed.

Lemma deposit_cap_Ok deposit approveCap cap :
  deposit_cap lib deposit approveCap = Ok cap ->
  cap = approveCap /\ exists amount, deposit#"args" = Arr [Null; amount; Null]
    /\ PolicyEngine.caps (LESS_THAN_OR_EQUAL lib) amount cap.
Proof.
  intros H. unfold deposit_cap in H. apply bind_Ok in H as ([[pool amount] shares] & Ha & H).
  apply bind_Ok in H as ([] & Hg & H). apply bind_Ok in H as (z & Hz & H).
  apply bind_Ok in H as ([] & Hb & [= <-]). passed Hg. passed Hb. zbool. subst.
  split; [done|]. exists amount. split; [unfold triple_of in Ha; by invert_ok Ha|].
  by eapply cap_argument.
Qed.

Lemma head_grants p name target selector message conds u :
  check_head lib p name (Str target) selector message = Ok u ->
  is_string p#"target" = true -> p#"args" = Arr conds ->
  PolicyEngine.grants p target name conds.
Proof.
  intros (Hn & Ht & _ & _ & Hv)%check_head_Ok Hs Ha.
  destruct (p#"target") as [| | | | | |t| |] eqn:Et; try done.
  split_and!; [|done|by rewrite Hv|done]. exists t. split; [done|].
  by apply sameAddress_text in Ht as [_ ?].
Qed.

Lemma rules_same_cap call policy cap :
  validatePermissions lib call policy = Ok cap ->
  exists approve deposit u u',
    call#"permissions" = Arr [approve; deposit]
    /\ check_head lib approve "approve" policy#"usdcAddress" policy#"approveSelector"
         "approve permission mismatch" = Ok u
    /\ check_head lib deposit "deposit" policy#"yieldRouterAddress" policy#"depositSelector"
         "deposit permission mismatch" = Ok u'
    /\ approve_cap lib approve policy = Ok cap /\ deposit_cap lib deposit cap = Ok cap.
Proof.
  intros H. unfold validatePermissions in H.
  apply bind_Ok in H as ([approve deposit] & He & H). apply bind_Ok in H as ([] & _ & H).
  apply bind_Ok in H as (u & Ha & H). apply bind_Ok in H as (u' & Hd & H).
  apply bind_Ok in H as (z & Hca & H). apply bind_Ok in H as (z' & Hcd & H).
  apply bind_Ok in H as (rules & _ & H). apply bind_Ok in H as (? & _ & H).
  apply bind_Ok in H as (? & _ & H). apply bind_Ok in H as (rule & _ & H).
  apply bind_Ok in H as (? & _ & [= <-]). unfold pair_of in He. invert_ok He.
  pose proof (deposit_cap_Ok _ _ _ Hcd) as [-> _]. by exists approve, deposit, u, u'.
Qed.

(** The targets of the permissions are texts, not arrays of one text. *)
Definition text_targets (call : val) : Prop :=
  Forall (fun p => is_string p#"target" = true) (array_of call#"permissions").

Lemma validated_farm_policy call policy usdc router cap :
  policy#"usdcAddress" = Str usdc -> policy#"yieldRouterAddress" = Str router ->
  text_targets call -> validatePermissions lib call policy = Ok cap ->
  0 < cap <= MAX_CALL_CAP_UNITS
  /\ PolicyEngine.farm_policy (EQUAL lib) (LESS_THAN_OR_EQUAL lib) usdc router cap
       (array_of call#"permissions").
Proof.
  intros Hu Hr Ht (approve & deposit & u & u' & He & Ha & Hd & Hca & Hcd)%rules_same_cap.
  rewrite Hu in Ha. rewrite Hr in Hd. unfold text_targets in Ht. rewrite He in Ht |- *.
  apply Forall_cons in Ht as [Hta Htd].
  apply Forall_cons in Htd as [Htd _].
  destruct (approve_cap_Ok _ _ _ _ Hr Hca) as (spender & amount & Haa & Hs & Hc & Hb).
  destruct (deposit_cap_Ok _ _ _ Hcd) as (_ & amount' & Hda & Hc').
  split; [done|]. exists approve, deposit, spender, amount, amount'.
  split; [done|]. split; [exact (head_grants _ _ _ _ _ _ _ Ha Hta Haa)|].
  split; [exact (head_grants _ _ _ _ _ _ _ Hd Htd Hda)|]. done.
Qed.

Lemma parse_inv r m :
  parseCanonicalMandate lib r = Ok m ->
  exists policy decoded u u',
    assertPinnedConfig lib (config r) = Ok policy
    /\ decodeCanonicalBase64 lib (serializedApproval r) = Ok decoded
    /\ check_envelope lib decoded policy = Ok u
    /\ check_parties lib r decoded = Ok (m_sessionKeyAddress m)
    /\ check_policies lib decoded policy = Ok (m_call m, m_timestamp m)
    /\ check_expiry r (m_timestamp m) = Ok tt
    /\ validatePermissions lib (m_call m) policy = Ok (m_cap m)
    /\ derivePermissionId lib (m_call m) (m_timestamp m) policy (m_sessionKeyAddress m)
         = Ok (m_permissionId m)
    /\ check_identity lib r decoded (m_permissionId m) = Ok u'
    /\ m_accountAddress m = decoded#"accountParams"#"accountAddress"
    /\ m_policies m = decoded#"permissionParams"#"policies".
Proof.
  intros H. unfold parseCanonicalMandate in H.
  apply bind_Ok in H as (policy & Hp & H). apply bind_Ok in H as (decoded & Hd & H).
  apply bind_Ok in H as (u & He & H). apply bind_Ok in H as (session & Hs & H).
  apply bind_Ok in H as ([call timestamp] & Hc & H). apply bind_Ok in H as ([] & Hx & H).
  apply bind_Ok in H as (cap & Hv & H). apply bind_Ok in H as (id & Hi & H).
  apply bind_Ok in H as (u' & Hid & H). apply bind_Ok in H as (digest & _ & [= <-]).
  by exists policy, decoded, u, u'.
Qed.

(** The policy of an accepted mandate is that of the configuration. *)
Lemma pinned_policy c policy :
  assertPinnedConfig lib c = Ok policy -> policy = c#"base"#"mandatePolicy".
Proof.
  intros H. unfold assertPinnedConfig in H.
  apply bind_Ok in H as (? & _ & H). apply bind_Ok in H as (? & _ & H).
  apply bind_Ok in H as (? & _ & H). by apply bind_Ok in H as (? & _ & [= <-]).
Qed.

End Facts.


(** ** The permissions the frontend builds, as the SDK writes them *)
Section Built.
Context (lib : sdk).

(** The 32-byte word [word] stands for [z]. *)
Definition word_of (word : string) (z : Z) : Prop :=
  BYTES32_RE (chars_of word) = true /\ to_BigInt (Str word) = Some z.

Definition rule (c offset : Z) (word : string) : val :=
  Obj [("params", Arr [Str word]); ("offset", Number (Num offset)); ("condition", condition c)].

(** A permission in a serialized approval: the fields of the built one, every [bigint] as its
    decimal text, and what [toCallPolicy] adds: the call type, the selector and a rule for
    every constrained argument. *)
Record written (built entry : val) (selector : val) (rules : list val) : Prop := {
  written_fields : objectWithOnly entry CALL_FIELDS = true;
  written_target : entry#"target" = built#"target";
  written_name : entry#"functionName" = built#"functionName";
  written_limit : entry#"valueLimit" = texts_for_bigints built#"valueLimit";
  written_args : entry#"args" = texts_for_bigints built#"args";
  written_type : entry#"callType" = Str "0x00";
  written_selector : sameHex entry#"selector" selector = true;
  written_rules : entry#"rules" = Arr rules }.

Lemma sameAddress_self s :
  isAddress lib (chars_of s) = true -> s <> EmptyString ->
  sameAddress lib (Str s) (Str s) = Ok true.
Proof.
  intros Ha Hs. unfold sameAddress, is_address, or_text. cbn [truthy].
  rewrite bool_decide_false by done. cbn. rewrite Ha. cbn. by rewrite bool_decide_true.
Qed.

Lemma check_head_written built entry selector rules name target message :
  written built entry selector rules ->
  built#"functionName" = Str name -> built#"target" = Str target -> built#"valueLimit" = BigInt 0 ->
  sameAddress lib (Str target) (Str target) = Ok true ->
  check_head lib entry name (Str target) selector message = Ok tt.
Proof.
  intros [_ Ht Hn Hl _ Hc Hs _] Hbn Hbt Hbl Ha. apply check_head_Ok.
  rewrite Ht, Hn, Hl, Hbn, Hbt, Hbl. done.
Qed.

Lemma canonicalDecimal_BigInt z label :
  0 <= z -> canonicalDecimal (texts_for_bigints (BigInt z)) label = Ok z.
Proof.
  intros Hz. cbn. unfold DECIMAL_RE. rewrite chars_of_string_of.
  assert (BigInt_toString z = to_digits z) as ->.
  { unfold BigInt_toString. by destruct (Z.ltb_spec z 0); [lia|]. }
  by rewrite is_decimal_to_digits, of_to_digits.
Qed.

Lemma ruleValue_rule c offset word label :
  BYTES32_RE (chars_of word) = true -> ruleValue (rule c offset word) label = Ok (Str word).
Proof.
  intros Hw. assert (to_String (or_text (Str word)) = Ok (chars_of word)) as Ht.
  { unfold or_text. cbn [truthy]. by destruct (bool_decide_reflect (word = EmptyString)) as [->|]. }
  apply bind_Ok. exists tt. split; [reflexivity|].
  change (get (rule c offset word) "params") with (Arr [Str word]). cbv iota beta.
  rewrite Ht. cbn [mbind result_bind]. by rewrite Hw.
Qed.

Lemma check_cap_rule_written word cap label :
  word_of word cap ->
  check_cap_rule lib (rule (LESS_THAN_OR_EQUAL lib) 32 word) cap label = Ok tt.
Proof.
  intros [Hw Hz]. unfold check_cap_rule. rewrite ruleValue_rule by done. cbn [mbind result_bind].
  rewrite Hz. apply fail_if_Ok. cbn [of_option mbind result_bind]. autorewrite with tests.
  split_and!; try done. by rewrite Z.eqb_refl.
Qed.

Lemma check_spender_rule_written policy padded :
  pad32 lib policy#"yieldRouterAddress" = Some padded -> BYTES32_RE padded = true ->
  check_spender_rule lib (rule (EQUAL lib) 0 (string_of padded)) policy = Ok tt.
Proof.
  intros Hp Hw. unfold check_spender_rule. rewrite ruleValue_rule by (by rewrite chars_of_string_of).
  cbn [mbind result_bind]. rewrite Hp. apply fail_if_Ok. cbn [of_option mbind result_bind].
  autorewrite with tests. split_and!; try done. cbn. by rewrite bool_decide_true.
Qed.

Lemma exactArg_written s label :
  sameAddress lib (Str s) (Str s) = Ok true ->
  exactArg lib (texts_for_bigints (PolicyEngine.arg_condition (EQUAL lib) (Str s))) (EQUAL lib)
    (Str s) label = Ok tt.
Proof.
  intros Hs. apply bind_Ok. exists tt. split.
  - apply fail_if_Ok. autorewrite with tests. done.
  - rewrite Z.eqb_refl. apply fail_if_Ok. autorewrite with tests. done.
Qed.

(** A cap argument passes the two tests on it and reads back as the cap. *)
Lemma cap_argument_written cap :
  let amount := texts_for_bigints
    (PolicyEngine.arg_condition (LESS_THAN_OR_EQUAL lib) (BigInt cap)) in
  objectWithOnly amount ARG_FIELDS = true
  /\ amount#"condition" = condition (LESS_THAN_OR_EQUAL lib)
  /\ amount#"value" = texts_for_bigints (BigInt cap).
Proof. done. Qed.

Lemma cap_tests_written cap message :
  let amount := texts_for_bigints
    (PolicyEngine.arg_condition (LESS_THAN_OR_EQUAL lib) (BigInt cap)) in
  fail_if [not_ (only amount ARG_FIELDS);
           differs amount#"condition" (condition (LESS_THAN_OR_EQUAL lib))]
    "POLICY_MISMATCH" message = Ok tt.
Proof. apply fail_if_Ok. autorewrite with tests. done. Qed.

Lemma pair_written a b message :
  pair_of (texts_for_bigints (Arr [a; b])) message = Ok (texts_for_bigints a, texts_for_bigints b).
Proof. done. Qed.

Lemma triple_written a b c message :
  triple_of (texts_for_bigints (Arr [a; b; c])) message
  = Ok (texts_for_bigints a, texts_for_bigints b, texts_for_bigints c).
Proof. done. Qed.

(** What the configuration and the SDK provide. *)
Class installed (policy : val) (usdc router : string) (padded : chars) : Prop := {
  policy_usdc : policy#"usdcAddress" = Str usdc;
  policy_router : policy#"yieldRouterAddress" = Str router;
  usdc_address : isAddress lib (chars_of usdc) = true /\ usdc <> EmptyString;
  router_address : isAddress lib (chars_of router) = true /\ router <> EmptyString;
  padded_router : pad32 lib (Str router) = Some padded;
  padded_form : BYTES32_RE padded = true }.

Section Accepted.
Context (policy : val) (usdc router : string) (padded : chars).
Context `{Hi : !installed policy usdc router padded}.
Context (p : PolicyEngine.farm) (cap : Z) (word : string) (approve deposit call : val).
Context (Hu : PolicyEngine.usdcAddress p = Str usdc).
Context (Hr : PolicyEngine.yieldRouterAddress p = Str router).
Context (Hcap : 0 < cap) (Hword : word_of word cap).

Definition built_approve : val :=
  PolicyEngine.approve_permission (EQUAL lib) (LESS_THAN_OR_EQUAL lib)
    (PolicyEngine.usdcAddress p) (PolicyEngine.usdcAbi p) (PolicyEngine.yieldRouterAddress p) cap.
Definition built_deposit : val :=
  PolicyEngine.deposit_permission (LESS_THAN_OR_EQUAL lib)
    (PolicyEngine.yieldRouterAddress p) (PolicyEngine.yieldRouterAbi p) cap.

Context (Ha : written built_approve approve policy#"approveSelector"
  [rule (EQUAL lib) 0 (string_of padded); rule (LESS_THAN_OR_EQUAL lib) 32 word]).
Context (Hd : written built_deposit deposit policy#"depositSelector"
  [rule (LESS_THAN_OR_EQUAL lib) 32 word]).
Context (Hcall : call#"permissions" = Arr [approve; deposit]).

Lemma usdc_self : sameAddress lib (Str usdc) (Str usdc) = Ok true.
Proof. destruct Hi as [_ _ [] _ _ _]. by apply sameAddress_self. Qed.

Lemma router_self : sameAddress lib (Str router) (Str router) = Ok true.
Proof. destruct Hi as [_ _ _ [] _ _]. by apply sameAddress_self. Qed.

Lemma approve_cap_written :
  approve_cap lib approve policy =
  if cap <=? MAX_CALL_CAP_UNITS then Ok cap
  else fail "POLICY_MISMATCH" "approve cap is outside the canonical bound".
Proof.
  unfold approve_cap. rewrite (written_args _ _ _ _ Ha), policy_router.
  change (get built_approve "args") with
    (Arr [PolicyEngine.arg_condition (EQUAL lib) (PolicyEngine.yieldRouterAddress p);
          PolicyEngine.arg_condition (LESS_THAN_OR_EQUAL lib) (BigInt cap)]).
  rewrite Hr, pair_written. cbn [mbind result_bind fst snd].
  rewrite exactArg_written by exact router_self. cbn [mbind result_bind].
  rewrite cap_tests_written. cbn [mbind result_bind].
  destruct (cap_argument_written cap) as (_ & _ & ->). rewrite canonicalDecimal_BigInt by lia.
  cbn [mbind result_bind fail_if any_of].
  destruct (Z.leb_spec cap 0); [lia|]. cbn.
  destruct (Z.ltb_spec MAX_CALL_CAP_UNITS cap), (Z.leb_spec cap MAX_CALL_CAP_UNITS); done || lia.
Qed.

Lemma deposit_cap_written : deposit_cap lib deposit cap = Ok cap.
Proof.
  unfold deposit_cap. rewrite (written_args _ _ _ _ Hd).
  change (get built_deposit "args") with
    (Arr [Null; PolicyEngine.arg_condition (LESS_THAN_OR_EQUAL lib) (BigInt cap); Null]).
  rewrite triple_written. cbn [mbind result_bind fst snd texts_for_bigints].
  apply bind_Ok. exists tt. split.
  - apply fail_if_Ok. autorewrite with tests. done.
  - destruct (cap_argument_written cap) as (_ & _ & ->). rewrite canonicalDecimal_BigInt by lia.
    cbn [mbind result_bind]. apply bind_Ok. exists tt. split; [|done].
    apply fail_if_Ok. autorewrite with tests. by rewrite Z.eqb_refl.
Qed.

Lemma built_validated :
  validatePermissions lib call policy =
  if cap <=? MAX_CALL_CAP_UNITS then Ok cap
  else fail "POLICY_MISMATCH" "approve cap is outside the canonical bound".
Proof.
  unfold validatePermissions. rewrite Hcall. cbn [pair_of mbind result_bind fst snd].
  assert (fail_if [not_ (only approve CALL_FIELDS); not_ (only deposit CALL_FIELDS)]
    "POLICY_MISMATCH" "permission contains unsupported fields" = Ok tt) as ->.
  { apply fail_if_Ok. autorewrite with tests.
    by rewrite (written_fields _ _ _ _ Ha), (written_fields _ _ _ _ Hd). }
  cbn [mbind result_bind]. rewrite policy_usdc, policy_router.
  rewrite (check_head_written _ _ _ _ "approve" usdc _ Ha), (check_head_written _ _ _ _ "deposit" router _ Hd);
    try done; try exact usdc_self; try exact router_self.
  cbn [mbind result_bind]. rewrite approve_cap_written.
  destruct (cap <=? MAX_CALL_CAP_UNITS); [|done]. cbn [mbind result_bind].
  rewrite deposit_cap_written, (written_rules _ _ _ _ Ha), (written_rules _ _ _ _ Hd).
  cbn [pair_of single_of mbind result_bind fst snd].
  rewrite check_spender_rule_written by (rewrite ?policy_router; by destruct Hi). cbn [mbind result_bind].
  by rewrite !(check_cap_rule_written _ cap).
Qed.

End Accepted.
End Built.

(** The two sides agree on what a farm policy is: the permissions that
    [buildFarmPermissions] makes, written as the SDK writes them, pass the relayer's check
    exactly when their cap is at most ten thousand USDC, and the relayer reads back that cap;
    a larger cap is refused for that reason. *)
Theorem built_permissions_validated lib policy usdc router padded p cap word approve deposit call :
  installed lib policy usdc router padded ->
  PolicyEngine.usdcAddress p = Str usdc -> PolicyEngine.yieldRouterAddress p = Str router ->
  PolicyEngine.buildFarmPermissions (EQUAL lib) (LESS_THAN_OR_EQUAL lib) p
    = Ok (PolicyEngine.farm_permissions (EQUAL lib) (LESS_THAN_OR_EQUAL lib) p cap) ->
  word_of word cap ->
  written (built_approve lib p cap) approve policy#"approveSelector"
    [rule (EQUAL lib) 0 (string_of padded); rule (LESS_THAN_OR_EQUAL lib) 32 word] ->
  written (built_deposit lib p cap) deposit policy#"depositSelector"
    [rule (LESS_THAN_OR_EQUAL lib) 32 word] ->
  call#"permissions" = Arr [approve; deposit] ->
  validatePermissions lib call policy =
  if cap <=? MAX_CALL_CAP_UNITS then Ok cap
  else fail "POLICY_MISMATCH" "approve cap is outside the canonical bound".
Proof.
  intros Hi Hu Hr (l & caps & _ & Hne & Hcaps & Heq)%PolicyEngine.build_Ok Hw Ha Hd Hc.
  assert (0 < cap) by (injection Heq as ->; by eapply PolicyEngine.max_cap_spec).
  by eapply (built_validated lib policy usdc router padded p cap word approve deposit call).
Qed.

(** ** The text of an approval *)
Lemma decodeCanonicalBase64_Ok lib s v :
  decodeCanonicalBase64 lib (Str s) = Ok v <->
  s <> EmptyString /\ Base64.BASE64_RE (chars_of s) = true
  /\ Base64.encode (Base64.decode (chars_of s)) = chars_of s
  /\ (exists text, decode_utf8 lib (Base64.decode (chars_of s)) = Some text /\ JSON.parse text = Ok v)
  /\ objectWithOnly v TOP_LEVEL_FIELDS = true.
Proof.
  cbn [decodeCanonicalBase64]. split.
  - intros H. apply bind_Ok in H as ([] & H1 & H). apply bind_Ok in H as ([] & H2 & H).
    apply bind_Ok in H as (w & Hw & H). apply bind_Ok in H as ([] & H3 & [= ->]).
    autorewrite with tests in H1, H2, H3. destruct H1 as (H1 & Hre & _), H2 as [H2 _], H3 as (H3 & _).
    apply bool_decide_eq_false in H1. apply bool_decide_eq_true in H2. split_and!; try done.
    destruct (decode_utf8 _ _) as [text|]; [|done]. exists text. split; [done|].
    by destruct (JSON.parse text) as [x|]; simplify_eq/=.
  - intros (H1 & H2 & H3 & (text & Ht & Hp) & H4). apply bind_Ok. exists tt. split.
    { apply fail_if_Ok. autorewrite with tests. by rewrite bool_decide_false. }
    apply bind_Ok. exists tt.
    split; [apply fail_if_Ok; autorewrite with tests; by rewrite bool_decide_true|].
    apply bind_Ok. exists v. rewrite Ht, Hp. split; [done|]. apply bind_Ok. exists tt. split; [|done].
    apply fail_if_Ok. autorewrite with tests. split_and!; [done| |done].
    destruct (has_own v "privateKey") eqn:E; [|done]. apply has_own_keys in E.
    unfold objectWithOnly in H4. apply andb_prop in H4 as [_ H4].
    rewrite forallb_Forall, Forall_forall in H4. specialize (H4 _ E). by vm_compute in H4.
Qed.


(** ** The parties of a mandate *)
Lemma check_parties_Ok lib r decoded a :
  check_parties lib r decoded = Ok a ->
  isStellarStrKey lib (stellarOwner r) = true
  /\ sameAddress lib decoded#"accountParams"#"accountAddress" (kernelAddress r) = Ok true
  /\ privateKey_address lib (sessionPrivateKey r) = Some a
  /\ sameAddress lib a (sessionKeyAddress r) = Ok true.
Proof.
  intros H. apply bind_Ok in H as ([] & H1 & H). apply bind_Ok in H as ([] & H2 & H).
  apply bind_Ok in H as (b & Hb & H). apply bind_Ok in H as ([] & H3 & [= ->]).
  autorewrite with tests in H1, H2, H3. destruct H1 as [H1 _], H2 as [H2 _], H3 as [H3 _].
  split_and!; [done|done| |done]. unfold deriveSessionAddress in Hb.
  destruct (privateKey_address lib _); by simplify_eq/=.
Qed.

(** [now] is compared where it is given. *)
Definition before (now : val) (z : Z) : Prop :=
  now = Undefined \/ exists t, now = Number (Num t) /\ t < z.

Lemma check_expiry_Ok r timestamp u :
  check_expiry r timestamp = Ok u ->
  exists z, validUntilSeconds r = Number (Num z) /\ expiresAt r = Number (Num z)
    /\ timestamp#"validUntil" = Number (Num z) /\ before (now r) z.
Proof.
  intros H. apply bind_Ok in H as ([] & H1 & H). autorewrite with tests in H1.
  apply fail_if_Ok, Forall_cons in H as [[= H]%Ok_false _].
  destruct H1 as (Hs & _ & Ht & He & _).
  destruct (validUntilSeconds r) as [| | |[z| | |]| | | | |]; try done. exists z.
  apply strict_eq_Num in Ht. split_and!; [done| |done|].
  - destruct (expiresAt r) as [| | |[]| | | | |]; try done. cbn in He.
    apply bool_decide_eq_true in He. by simplify_eq.
  - unfold before. destruct (now r) as [| | |[t| | |]| | | | |]; try done; [by left|].
    right. exists t. split; [done|]. cbn in H. zbool. destruct (isSafeInteger (Num t)); cbn in H; zbool; [lia|done].
Qed.

Lemma check_identity_Ok lib r decoded id u :
  check_identity lib r decoded id = Ok u ->
  decoded#"permissionParams"#"permissionId" = Str id
  /\ (permissionId r = Undefined \/ permissionId r = Str id)
  /\ (bindingHash r = Undefined \/ bindingHash r = Str (sha256 lib (binding_text r))).
Proof.
  intros H. apply bind_Ok in H as ([] & H1 & H). apply bind_Ok in H as ([] & _ & H).
  autorewrite with tests in H1. destruct H1 as (H1 & H2 & _).
  split_and!; [done| |].
  - rewrite andb_false_iff, !negb_false_iff, strict_eq_Str in H2. destruct H2; [left|by right].
    by destruct (permissionId r) as [| | |[]| | | | |].
  - destruct (strict_eq (bindingId r) Undefined && _) eqn:E.
    + left. apply andb_prop in E as [_ E]. by destruct (bindingHash r) as [| | |[]| | | | |].
    + right. apply bind_Ok in H as (w & [= <-] & H). autorewrite with tests in H.
      destruct H as (_ & _ & H & _). by rewrite chars_of_string_of in H.
Qed.


(** The default configuration of the gate carries no deployment: a request without a
    configuration is refused, whatever it contains. *)
Lemma default_config_refused lib p clock :
  config p = Undefined ->
  validateMandateBinding lib p clock
  = Unbound "hardened deployment authority is unavailable" "POLICY_MISMATCH".
Proof. intros H. unfold validateMandateBinding, validateCanonicalMandate, parseCanonicalMandate, binding_request. cbn. rewrite H. reflexivity. Qed.

(** ** An accepted mandate *)
Module MandateSample.
Local Open Scope string_scope.

Definition router : string := "0xF80aa8F571E6d24Ea72F051Fc6F9A9C516727B6d".
Definition usdc : string := "0x036CbD53842c5426634e7929541eC2318f3dCF7e".
Definition kernel : string := "0x1111111111111111111111111111111111111111".
Definition session : string := "0x2222222222222222222222222222222222222222".
Definition zeros : string := "000000000000000000000000".

Definition pad_address (v : val) : option chars :=
  match v with Str s => after_0x (chars_of s) ≫= fun l => Some (chars_of ("0x" +:+ zeros) ++ l)%list | _ => None end.

Definition lib : sdk := {|
  EQUAL := 0; LESS_THAN_OR_EQUAL := 4;
  isAddress t := match after_0x t with
                 | Some l => (length l =? 40)%nat && forallb is_hex_digit l
                 | None => false
                 end;
  concatHex ps := mjoin ps;
  pad32 := pad_address;
  slice4 _ := chars_of "0xdeadbeef";
  keccak256 t := t;
  encode_bytes_list ps := Some (mjoin ps);
  encode_bytes t := Some t;
  toCallPolicy _ _ _ _ := Some ([], []);
  toTimestampPolicy _ _ _ _ := Some ([], []);
  decode_factory _ := None; decode_kernel _ := None;
  encode_initialize _ := None; encode_deploy _ := None; decodeParamsFromInitCode _ _ := None;
  privateKey_address v := match v with Str _ => Some (Str session) | _ => None end;
  isValidEd25519PublicKey := is_strkey; isValidContract := is_strkey;
  decode_utf8 t := Some t;
  sha256 t := string_of (take 64 t) |}.

(** The cap, 250 USDC, and its 32-byte word. *)
Definition cap : Z := 250000000%Z.
Definition word : string := "0x000000000000000000000000000000000000000000000000000000000ee6b280".

Definition cap_arg : val := Obj [("condition", Number (Num 4)); ("value", Str "250000000")].
Definition approve : val := Obj [
  ("target", Str usdc); ("valueLimit", Str "0"); ("functionName", Str "approve");
  ("args", Arr [Obj [("condition", Number (Num 0)); ("value", Str router)]; cap_arg]);
  ("callType", Str "0x00"); ("selector", Str "0x095ea7b3");
  ("rules", Arr [rule 0 0 (string_of (default [] (pad_address (Str router)))); rule 4 32 word])].
Definition deposit : val := Obj [
  ("target", Str router); ("valueLimit", Str "0"); ("functionName", Str "deposit");
  ("args", Arr [Null; cap_arg; Null]);
  ("callType", Str "0x00"); ("selector", Str "0x0efe6a8b");
  ("rules", Arr [rule 4 32 word])].
Definition call : val := Obj [
  ("type", Str "call"); ("policyVersion", Str "0.0.4"); ("policyFlag", Str "0x0000");
  ("permissions", Arr [approve; deposit])].
Definition timestamp : val := Obj [
  ("type", Str "timestamp"); ("policyAddress", Str "0xB9f8f524bE6EcD8C945b1b87f9ae5C192FdCE20F");
  ("policyFlag", Str "0x0000"); ("validAfter", Number (Num 0));
  ("validUntil", Number (Num 2000007200))].
Definition policies : val := Arr [Obj [("policyParams", call)]; Obj [("policyParams", timestamp)]].

Definition approval : val := Obj [
  ("permissionParams", Obj [("permissionId", Str "0xdeadbeef"); ("policies", policies)]);
  ("action", Obj [("selector", Str "0xe9ae5c53"); ("address", Str ZERO_ADDRESS)]);
  ("validityData", Obj [("validAfter", Number (Num 0)); ("validUntil", Number (Num 0))]);
  ("accountParams", Obj [("initCode", Str "0x"); ("accountAddress", Str kernel)]);
  ("enableSignature", Str "0xabcd")].

Definition config : val := Obj [
  ("publicOrigin", Str "https://relayer.example");
  ("base", Obj [
    ("chain", Obj [("id", Number (Num 84532))]);
    ("mandatePolicy", CANONICAL_BASE_MANDATE_POLICY);
    ("baseCrossChainAvailable", Bool true);
    ("hardenedDeployment", Obj [
      ("generation", Str "hardened-v2"); ("chainId", Number (Num 84532));
      ("yieldRouter", Obj [("address", Str router)]);
      ("route", Obj [("usdcAddress", Str usdc)])])])].

Definition request : request := {|
  serializedApproval := Str (string_of (Base64.encode (print approval)));
  sessionPrivateKey := Str "key"; sessionKeyAddress := Str session;
  stellarOwner := Str "GAAAAAAAAAAAAAAAAAAAAAAAAAAAAAAAAAAAAAAAAAAAAAAAAAAAAAAA";
  kernelAddress := Str kernel; permissionId := Undefined;
  validUntilSeconds := Number (Num 2000007200); expiresAt := Undefined;
  relayerOrigin := Str "https://relayer.example"; bindingId := Undefined; bindingHash := Undefined;
  CanonicalMandate.config := config; now := Undefined |}.

Definition bound : binding_outcome := validateMandateBinding lib request 2000000000000.
Definition mandate : mandate := Eval vm_compute in
  match parseCanonicalMandate lib (binding_request request 2000000000000) with Ok m => m | Throw _ => {|
    m_accountAddress := Null; m_sessionKeyAddress := Null; m_stellarOwner := Null;
    m_permissionId := ""; m_validAfter := Null; m_validUntilSeconds := Null; m_cap := 0;
    m_policies := Null; m_call := Null; m_timestamp := Null; m_policyDigest := "";
    m_policyData := [] |} end.

Lemma sample_accepted :
  parseCanonicalMandate lib (binding_request request 2000000000000) = Ok mandate.
Proof. vm_compute. reflexivity. Qed.

(** An expired mandate, and one whose cap is above the bound, are refused. *)
Example sample_refused :
  validateMandateBinding lib request 2000007200000 = Unbound "mandate has expired" "EXPIRED".
Proof. vm_compute. reflexivity. Qed.
End MandateSample.


(** The farm whose policy the sample approval carries. *)
Definition sample_farm : PolicyEngine.farm := {|
  PolicyEngine.pools := Arr [Obj [("pool"%string, Str "0xPool"); ("cap"%string, BigInt MandateSample.cap)]];
  PolicyEngine.yieldRouterAbi := Arr []; PolicyEngine.usdcAbi := Arr [];
  PolicyEngine.yieldRouterAddress := Str MandateSample.router;
  PolicyEngine.usdcAddress := Str MandateSample.usdc |}.

Lemma built_permissions_validated_witness :
  validatePermissions MandateSample.lib MandateSample.call CANONICAL_BASE_MANDATE_POLICY
  = if MandateSample.cap <=? MAX_CALL_CAP_UNITS then Ok MandateSample.cap
    else fail "POLICY_MISMATCH" "approve cap is outside the canonical bound".
Proof.
  eapply (built_permissions_validated MandateSample.lib CANONICAL_BASE_MANDATE_POLICY
    MandateSample.usdc MandateSample.router
    (default [] (MandateSample.pad_address (Str MandateSample.router))) sample_farm MandateSample.cap
    MandateSample.word MandateSample.approve MandateSample.deposit).
  - split; try (split; [|discriminate]); vm_compute; reflexivity.
  - reflexivity.
  - reflexivity.
  - vm_compute. reflexivity.
  - split; vm_compute; reflexivity.
  - split; vm_compute; reflexivity.
  - split; vm_compute; reflexivity.
  - reflexivity.
Defined.



End MandatePolicy.
