(* ===== verification/AssetUnits.v ===== *)
(** * Exact asset amounts

    Models [frontend/src/money/assetUnits.js] (parsing and formatting of decimal amounts at
    a given number of decimals) and the conversions of [frontend/src/stellar/format.js]. *)
From S2P Require Import Prelude JsString JsFloat.

Module AssetUnits.

Definition I128_MAX : Z := Z.shiftl 1 127 - 1.

Inductive parse_code := EMPTY | INVALID_FORMAT | TOO_PRECISE | ZERO | OVERFLOW | EXCEEDS_AVAILABLE.

#[global] Instance parse_code_eq_dec : EqDecision parse_code.
Proof. solve_decision. Defined.

Inductive range_error := RangeError.

(** [/^\d+(?:\.\d+)?$/] *)
Definition UNSIGNED_DECIMAL (l : chars) : bool :=
  let '(whole, fraction) := split_at "." l in
  all_digits whole && match fraction with None => true | Some f => all_digits f end.

(** A number of decimals: [None] for anything but a non-negative integer. *)
Definition decimalPlaces (decimals : num) : option Z :=
  match decimals with Num d => if d <? 0 then None else Some d | _ => None end.

Definition formatAssetUnits (units : Z) (decimals : num) : result range_error chars :=
  match decimalPlaces decimals with
  | None => Throw RangeError
  | Some places =>
      let negative := units <? 0 in
      let absolute := if negative then - units else units in
      let scale := 10 ^ places in
      let whole := BigInt_toString (absolute `quot` scale) in
      let fraction :=
        if places =? 0 then []
        else strip_zeros (padStart (BigInt_toString (absolute `rem` scale)) places "0") in
      let canonical :=
        match fraction with [] => whole | _ => whole ++ "."%char :: fraction end in
      Ok (if negative then "-"%char :: canonical else canonical)
  end.

(** The options: a bound is absent ([None]), or given and then converted with [BigInt],
    which may throw ([Some None]). *)
Record options := { maxUnits : option (option Z); availableUnits : option (option Z) }.

Definition no_options : options := {| maxUnits := None; availableUnits := None |}.

(** [raw] is [None] when it is not a string. *)
Definition parseAssetUnits (raw : option chars) (decimals : num) (o : options)
    : result parse_code (Z * chars) :=
  match raw with
  | None => Throw INVALID_FORMAT
  | Some [] => Throw EMPTY
  | Some raw =>
      if negb (UNSIGNED_DECIMAL raw) then Throw INVALID_FORMAT
      else
        match decimalPlaces decimals with
        | None => Throw INVALID_FORMAT
        | Some places =>
            let '(whole, f) := split_at "." raw in
            let fraction := default [] f in
            if places <? Z.of_nat (length fraction) then Throw TOO_PRECISE
            else
              let scale := 10 ^ places in
              let padded := padEnd fraction places "0" in
              let units :=
                of_digits whole * scale
                + of_digits (match padded with [] => chars_of "0" | _ => padded end) in
              if units =? 0 then Throw ZERO
              else
                match default (Some I128_MAX) (maxUnits o) with
                | None => Throw OVERFLOW
                | Some requestedMax =>
                    let effectiveMax := if requestedMax <? I128_MAX then requestedMax else I128_MAX in
                    if units >? effectiveMax then Throw OVERFLOW
                    else
                      match availableUnits o with
                      | Some None => Throw EXCEEDS_AVAILABLE
                      | Some (Some available) =>
                          if units >? available then Throw EXCEEDS_AVAILABLE
                          else Ok (units, catch_with [] (formatAssetUnits units decimals))
                      | None => Ok (units, catch_with [] (formatAssetUnits units decimals))
                      end
                end
        end
  end.

End AssetUnits.

(** ** [stellar/format.js] *)
Module Format.

Import AssetUnits.

Inductive format_code := F_EMPTY | F_INVALID_FORMAT | F_TOO_PRECISE.

#[global] Instance format_code_eq_dec : EqDecision format_code.
Proof. solve_decision. Defined.

Definition SOROBAN_DECIMALS : Z := 7.

(** [/^-?\d+(\.\d+)?$/] *)
Definition DECIMAL_STR_RE (l : chars) : bool :=
  match l with
  | c :: l' => if Ascii.eqb c "-" then UNSIGNED_DECIMAL l' else UNSIGNED_DECIMAL l
  | [] => false
  end.

(** [decimalToUnits] of a trimmed string, [decimals] a non-negative integer. *)
Definition decimalToUnits (str : chars) (decimals : nat) (strict : bool)
    : result format_code Z :=
  match str with
  | [] => Throw F_EMPTY
  | c :: rest =>
      if negb (DECIMAL_STR_RE str) then Throw F_INVALID_FORMAT
      else
        let neg := Ascii.eqb c "-" in
        let unsigned := if neg then rest else str in
        let '(whole, f) := split_at "." unsigned in
        let frac := default [] f in
        if strict && (decimals <? length frac)%nat then Throw F_TOO_PRECISE
        else
          let units := of_digits whole * 10 ^ Z.of_nat decimals in
          let kept := padEnd (take decimals frac) (Z.of_nat decimals) "0" in
          let units := match kept with [] => units | _ => units + of_digits kept end in
          let units :=
            if strict then units
            else
              match frac !! decimals with
              | Some nextChar => if code "5"%char <=? code nextChar then units + 1 else units
              | None => units
              end in
          Ok (if neg then - units else units)
  end.

(** [deriveCctpTransferUnits], after [Number(amount)]. *)
Record transfer_units := {
  requestedUnits7 : Z;
  baseTargetUnits6 : Z;
  burnUnits7 : Z;
  retainedDustUnits7 : Z;
}.

Inductive cctp_error := NotPositiveSafe | BelowOneUnit.

Definition BASE_UNIT : Z := 10000000.
Definition CCTP_UNIT : Z := BASE_UNIT / 10.

Definition deriveCctpTransferUnits (numericAmount : Float.float)
    : result cctp_error transfer_units :=
  if negb (Float.isFinite numericAmount) || negb (SFltb Float.zero numericAmount)
  then Throw NotPositiveSafe
  else
    let flooredTargetUnits6 := Float.floor (Float.mul numericAmount (Float.of_Z CCTP_UNIT)) in
    let flooredRequestedUnits7 := Float.floor (Float.mul numericAmount (Float.of_Z BASE_UNIT)) in
    match flooredTargetUnits6, flooredRequestedUnits7 with
    | Num t6, Num r7 =>
        if negb (isSafeInteger (Num t6)) || negb (isSafeInteger (Num r7))
        then Throw NotPositiveSafe
        else if t6 <=? 0 then Throw BelowOneUnit
        else
          Ok {| requestedUnits7 := r7; baseTargetUnits6 := t6; burnUnits7 := t6 * 10;
                retainedDustUnits7 := r7 - t6 * 10 |}
    | _, _ => Throw NotPositiveSafe
    end.

End Format.

(** ** Lemmas *)
Section AssetLemmas.
Import AssetUnits.

Lemma all_digits_spec l :
  all_digits l = true <-> l <> [] /\ Forall (fun c => is_digit c = true) l.
Proof.
  destruct l as [|c l]; [cbn; naive_solver|]. unfold all_digits.
  rewrite forallb_Forall. naive_solver.
Qed.

Lemma digits_no_dot l :
  Forall (fun c => is_digit c = true) l -> Forall (fun c => c <> "."%char) l.
Proof. intros H. eapply Forall_impl; [exact H|]. intros c. apply digit_not_dot. Qed.

(** The two shapes of an accepted numeral. *)
Lemma UNSIGNED_DECIMAL_spec l :
  UNSIGNED_DECIMAL l = true <->
  exists whole frac,
    split_at "." l = (whole, frac) /\ all_digits whole = true
    /\ match frac with None => True | Some f => all_digits f = true end.
Proof.
  unfold UNSIGNED_DECIMAL. destruct (split_at "." l) as [w f]. rewrite andb_true_iff.
  split.
  - intros [? ?]. exists w, f. by destruct f.
  - intros (? & ? & [= <- <-] & ? & ?). by destruct f.
Qed.

Lemma BigInt_toString_nonneg n : 0 <= n -> BigInt_toString n = to_digits n.
Proof. intros. unfold BigInt_toString. destruct (Z.ltb_spec n 0); [lia|done]. Qed.

Lemma length_to_digits_le n k :
  0 <= n < 10 ^ k -> 0 < k -> Z.of_nat (length (to_digits n)) <= k.
Proof.
  intros [Hn Hk] Hpos. destruct (Z.leb_spec (Z.of_nat (length (to_digits n))) k); [done|].
  pose proof (to_digits_canonical n Hn) as Hcan.
  destruct (to_digits n) as [|c l] eqn:E; [cbn in *; lia|].
  assert (of_digits (c :: l) = n) as Hof by (rewrite <- E; by apply of_to_digits).
  destruct Hcan as [HF Hz]. rewrite Forall_cons in HF. destruct HF as [Hc HF].
  assert (c <> "0"%char) as Hc0.
  { intros ->. rewrite (Hz eq_refl) in *. cbn in *. lia. }
  change (c :: l) with ([c] ++ l) in Hof. rewrite of_digits_app in Hof.
  change (of_digits [c]) with (digit_val c) in Hof.
  pose proof (of_digits_bounds l HF). pose proof (is_digit_range c Hc).
  assert (digit_val c <> 0).
  { intros E0. apply Hc0, code_inj. unfold digit_val in E0. change (code "0"%char) with 48. lia. }
  assert (10 ^ k <= 10 ^ Z.of_nat (length l)).
  { apply Z.pow_le_mono_r; [lia|]. cbn [length] in *. lia. }
  nia.
Qed.

(** The fraction part: padded to [k] places, stripped, and padded again. *)
Lemma fraction_roundtrip n k :
  0 <= n < 10 ^ k -> 0 < k ->
  let f := strip_zeros (padStart (to_digits n) k "0") in
  Forall (fun c => is_digit c = true) f
  /\ Z.of_nat (length f) <= k
  /\ of_digits (padEnd f k "0") = n
  /\ (f = [] -> n = 0).
Proof.
  intros Hn Hk f. pose proof (length_to_digits_le n k Hn Hk) as Hlen.
  set (p := padStart (to_digits n) k "0").
  assert (Z.of_nat (length p) = k) as Hp.
  { unfold p, padStart. rewrite length_app, length_replicate. lia. }
  assert (of_digits p = n) as Hof.
  { unfold p, padStart. rewrite of_digits_app, of_digits_zeros, of_to_digits by lia. lia. }
  destruct (strip_zeros_spec p) as [m Hm]. assert (strip_zeros p = f) as Ef by done.
  rewrite Ef in Hm. clearbody f.
  assert (length p = (length f + m)%nat) as Hlm.
  { rewrite Hm at 1. by rewrite length_app, length_replicate. }
  assert (padEnd f k "0" = p) as Hpad.
  { unfold padEnd. rewrite Hm at 1. do 2 f_equal. lia. }
  split_and!.
  - assert (Forall (fun c => is_digit c = true) p) as HFp.
    { unfold p, padStart. apply Forall_app. split; [by apply Forall_replicate|].
      apply to_digits_digits. lia. }
    rewrite Hm, Forall_app in HFp. apply HFp.
  - lia.
  - by rewrite Hpad.
  - intros Hf. rewrite Hf in Hm. cbn in Hm. rewrite <- Hof, Hm. apply of_digits_zeros.
Qed.

Lemma split_at_digits w f :
  Forall (fun c => is_digit c = true) w ->
  split_at "." (w ++ "."%char :: f) = (w, Some f).
Proof. intros. apply split_at_app. by apply digits_no_dot. Qed.

(** What the parser makes of a whole part and a fraction that fits. *)
Lemma parse_parts w frac raw k :
  raw <> [] -> split_at "." raw = (w, frac) -> all_digits w = true ->
  match frac with None => True | Some f => all_digits f = true end ->
  0 <= k -> Z.of_nat (length (default [] frac)) <= k ->
  forall u, u = of_digits w * 10 ^ k + of_digits (padEnd (default [] frac) k "0") ->
  0 < u <= I128_MAX ->
  parseAssetUnits (Some raw) (Num k) no_options
  = Ok (u, catch_with [] (formatAssetUnits u (Num k))).
Proof.
  intros Hne Hs Hw Hf Hk Hlen u Hu Hr. unfold parseAssetUnits.
  assert (UNSIGNED_DECIMAL raw = true) as HU by (apply UNSIGNED_DECIMAL_spec; eauto).
  destruct raw as [|c raw]; [done|]. rewrite HU. cbn [negb]. cbn [decimalPlaces].
  destruct (Z.ltb_spec k 0); [lia|]. rewrite Hs.
  destruct (Z.ltb_spec k (Z.of_nat (length (default [] frac)))); [lia|].
  set (pd := padEnd (default [] frac) k "0") in *.
  assert (of_digits (match pd with [] => chars_of "0" | _ => pd end) = of_digits pd) as ->
    by (by destruct pd).
  rewrite <- Hu. destruct (Z.eqb_spec u 0); [lia|]. cbn [default from_option no_options maxUnits].
  rewrite Z.ltb_irrefl, Z.gtb_ltb. destruct (Z.ltb_spec I128_MAX u); [lia|]. done.
Qed.

Lemma formatAssetUnits_pos u k :
  0 < u -> 0 <= k ->
  exists w frac,
    Forall (fun c => is_digit c = true) w /\ w <> []
    /\ match frac with None => True | Some f => all_digits f = true end
    /\ Z.of_nat (length (default [] frac)) <= k
    /\ u = of_digits w * 10 ^ k + of_digits (padEnd (default [] frac) k "0")
    /\ formatAssetUnits u (Num k)
       = Ok (match frac with None => w | Some f => w ++ "."%char :: f end).
Proof.
  intros Hu Hk. unfold formatAssetUnits. cbn [decimalPlaces].
  destruct (Z.ltb_spec k 0); [lia|]. destruct (Z.ltb_spec u 0); [lia|].
  assert (0 < 10 ^ k) as Hp by (apply Z.pow_pos_nonneg; lia).
  rewrite Z.quot_div_nonneg, Z.rem_mod_nonneg by lia.
  pose proof (Z.div_mod u (10 ^ k) ltac:(lia)) as Hdm.
  pose proof (Z.mod_pos_bound u (10 ^ k) Hp).
  assert (0 <= u / 10 ^ k) by (apply Z.div_pos; lia).
  rewrite !BigInt_toString_nonneg by lia.
  destruct (Z.eqb_spec k 0) as [->|].
  - exists (to_digits (u / 10 ^ 0)), None. split_and!; try done; [by auto with js..|].
    rewrite of_to_digits by done. change (10 ^ 0) with 1. rewrite Z.div_1_r.
    change (of_digits (padEnd (default [] None) 0 "0")) with 0. lia.
  - destruct (fraction_roundtrip (u mod 10 ^ k) k) as (HF & Hl & Hof & He); [lia..|].
    destruct (strip_zeros (padStart (to_digits (u mod 10 ^ k)) k "0")) as [|c f] eqn:E.
    + exists (to_digits (u / 10 ^ k)), None.
      split_and!; try done; [by auto with js..|].
      rewrite of_to_digits by done. cbn [from_option id] in *. rewrite Hof.
      by rewrite Z.mul_comm.
    + exists (to_digits (u / 10 ^ k)), (Some (c :: f)).
      split_and!; try done; [by auto with js..|by apply all_digits_spec|].
      rewrite of_to_digits by done. cbn [from_option id] in *. rewrite Hof.
      by rewrite Z.mul_comm.
Qed.
End AssetLemmas.

(** ** Properties *)
Section AssetProperties.
Import AssetUnits.

Lemma parse_formatted (u k : Z) (Hu : 0 < u <= I128_MAX) (Hk : 0 <= k) :
  exists s, formatAssetUnits u (Num k) = Ok s
    /\ parseAssetUnits (Some s) (Num k) no_options = Ok (u, s).
Proof.
  destruct (formatAssetUnits_pos u k) as (w & frac & HF & Hne & Hf & Hl & Hval & Hfmt); [lia..|].
  eexists. split; [exact Hfmt|].
  rewrite (parse_parts w frac _ k) with (u := u); try done.
  - by rewrite Hfmt.
  - destruct frac; [|done]. by destruct w.
  - destruct frac; [by apply split_at_digits|]. by apply split_at_none, digits_no_dot.
  - by apply all_digits_spec.
Qed.

(** Formatting then parsing is the identity: every positive amount up to the [i128]
    maximum is printed, at any number of decimals, as a string that the parser reads back
    as exactly that amount, with that same string as its canonical form. *)
Theorem parse_format_roundtrip (u k : Z) (Hu : 0 < u <= I128_MAX) (Hk : 0 <= k) :
  exists s, formatAssetUnits u (Num k) = Ok s
    /\ parseAssetUnits (Some s) (Num k) no_options = Ok (u, s).
Proof. by apply parse_formatted. Qed.

(** The parser is exact and fails only for the reason it gives: a numeral accepted by
    the pattern is converted without rounding, [TOO_PRECISE] means more fraction digits
    than decimals, [ZERO] that the amount is zero, [OVERFLOW] that it exceeds the [i128]
    maximum, and otherwise the result is the exact amount with a canonical string that
    parses to it again. *)
Theorem parseAssetUnits_exact (raw w : chars) (frac : option chars) (k : Z)
    (Hk : 0 <= k) (Hs : split_at "." raw = (w, frac)) (Hw : all_digits w = true)
    (Hf : match frac with None => True | Some f => all_digits f = true end) :
  let f := default [] frac in
  let u := of_digits w * 10 ^ k + of_digits f * 10 ^ (k - Z.of_nat (length f)) in
  match parseAssetUnits (Some raw) (Num k) no_options with
  | Ok (v, canonical) =>
      v = u /\ 0 < u <= I128_MAX /\ Z.of_nat (length f) <= k
      /\ parseAssetUnits (Some canonical) (Num k) no_options = Ok (u, canonical)
  | Throw TOO_PRECISE => k < Z.of_nat (length f)
  | Throw ZERO => Z.of_nat (length f) <= k /\ u = 0
  | Throw OVERFLOW => Z.of_nat (length f) <= k /\ I128_MAX < u
  | Throw _ => False
  end.
Proof.
  assert (UNSIGNED_DECIMAL raw = true) as HU by (apply UNSIGNED_DECIMAL_spec; eauto).
  assert (raw <> []) as Hne by (by intros ->).
  assert (0 <= of_digits w) by (apply of_digits_bounds; by apply all_digits_spec).
  intros f. destruct (Z.ltb_spec k (Z.of_nat (length f))) as [Hl|Hl].
  { unfold parseAssetUnits. destruct raw as [|c raw]; [done|]. rewrite HU. cbn [negb decimalPlaces].
    destruct (Z.ltb_spec k 0); [lia|]. rewrite Hs. fold f.
    by destruct (Z.ltb_spec k (Z.of_nat (length f))); [|lia]. }
  assert (of_digits (padEnd f k "0") = of_digits f * 10 ^ (k - Z.of_nat (length f))) as Hpad.
  { unfold padEnd. rewrite of_digits_app, of_digits_zeros, length_replicate.
    rewrite Z.add_0_r. do 2 f_equal. lia. }
  assert (0 <= of_digits f).
  { unfold f. destruct frac; cbn; [|done]. apply of_digits_bounds. by apply all_digits_spec. }
  rewrite <- Hpad. set (u := of_digits w * 10 ^ k + of_digits (padEnd f k "0")).
  intros u'. assert (0 <= u) as Hu0.
  { unfold u. rewrite Hpad. assert (0 < 10 ^ k) by (apply Z.pow_pos_nonneg; lia).
    assert (0 < 10 ^ (k - Z.of_nat (length f))) by (apply Z.pow_pos_nonneg; lia). nia. }
  destruct (Z.leb_spec u I128_MAX) as [Hmax|Hmax];
    [destruct (Z.eq_dec u 0) as [Hz|Hz]|].
  - unfold parseAssetUnits. destruct raw as [|c raw]; [done|]. rewrite HU. cbn [negb decimalPlaces].
    destruct (Z.ltb_spec k 0); [lia|]. rewrite Hs. fold f.
    destruct (Z.ltb_spec k (Z.of_nat (length f))); [lia|].
    assert (of_digits (match padEnd f k "0" with [] => chars_of "0" | _ => padEnd f k "0" end)
            = of_digits (padEnd f k "0")) as -> by (by destruct (padEnd f k "0")).
    fold u. by rewrite Hz.
  - rewrite (parse_parts w frac raw k) with (u := u) by (done || lia).
    destruct (parse_formatted u k) as (s & Hs1 & Hs2); [lia..|].
    rewrite Hs1. cbn. split_and!; done || lia.
  - unfold parseAssetUnits. destruct raw as [|c raw]; [done|]. rewrite HU. cbn [negb decimalPlaces].
    destruct (Z.ltb_spec k 0); [lia|]. rewrite Hs. fold f.
    destruct (Z.ltb_spec k (Z.of_nat (length f))); [lia|].
    assert (of_digits (match padEnd f k "0" with [] => chars_of "0" | _ => padEnd f k "0" end)
            = of_digits (padEnd f k "0")) as -> by (by destruct (padEnd f k "0")).
    fold u. assert (0 < I128_MAX) by done. destruct (Z.eqb_spec u 0); [lia|].
    cbn [default from_option no_options maxUnits]. rewrite Z.ltb_irrefl, Z.gtb_ltb.
    destruct (Z.ltb_spec I128_MAX u); [|lia]. done.
Qed.

Lemma parse_format_roundtrip_witness :
  exists s, formatAssetUnits 1234500 (Num 7) = Ok s
    /\ parseAssetUnits (Some s) (Num 7) no_options = Ok (1234500, s).
Proof.
  apply (parse_format_roundtrip 1234500 7).
  - assert (1234500 <= I128_MAX) by (vm_compute; discriminate). lia.
  - lia.
Defined.

Example parse_sample :
  parseAssetUnits (Some (chars_of "0.12345")) (Num 7) no_options
  = Ok (1234500, chars_of "0.12345").
Proof. vm_compute. reflexivity. Qed.

Example parse_rejects :
  (fun s => parseAssetUnits (Some (chars_of s)) (Num 7) no_options) <$>
    [""; "1e5"; "-1"; "1."; "0.00000001"; "0.0000000"]%string
  = [Throw EMPTY; Throw INVALID_FORMAT; Throw INVALID_FORMAT; Throw INVALID_FORMAT;
     Throw TOO_PRECISE; Throw ZERO].
Proof. vm_compute. reflexivity. Qed.

Lemma parseAssetUnits_exact_witness :
  let f := chars_of "05" in
  let u := of_digits (chars_of "12") * 10 ^ 7
           + of_digits f * 10 ^ (7 - Z.of_nat (length f)) in
  match parseAssetUnits (Some (chars_of "12.05")) (Num 7) no_options with
  | Ok (v, canonical) =>
      v = u /\ 0 < u <= I128_MAX /\ Z.of_nat (length f) <= 7
      /\ parseAssetUnits (Some canonical) (Num 7) no_options = Ok (u, canonical)
  | Throw TOO_PRECISE => 7 < Z.of_nat (length f)
  | Throw ZERO => Z.of_nat (length f) <= 7 /\ u = 0
  | Throw OVERFLOW => Z.of_nat (length f) <= 7 /\ I128_MAX < u
  | Throw _ => False
  end.
Proof.
  apply (parseAssetUnits_exact (chars_of "12.05") (chars_of "12") (Some (chars_of "05")) 7).
  - lia.
  - reflexivity.
  - reflexivity.
  - reflexivity.
Defined.
End AssetProperties.

Section FormatProperties.
Import AssetUnits Format.

(** Splitting the fraction after [d] digits and rounding on the next one is rounding half
    up. *)
Lemma round_half_up (E K R q : Z) (m : Z) :
  0 < m -> E = K * 10 ^ m + R -> R = q * 10 ^ (m - 1) + R mod 10 ^ (m - 1) -> 0 <= R < 10 ^ m ->
  (2 * E + 10 ^ m) / (2 * 10 ^ m) = if 5 <=? q then K + 1 else K.
Proof.
  intros Hm -> Hq HR.
  assert (10 ^ m = 10 * 10 ^ (m - 1)) as Hp.
  { rewrite <- Z.pow_succ_r by lia. f_equal. lia. }
  assert (0 < 10 ^ (m - 1)) by (apply Z.pow_pos_nonneg; lia).
  pose proof (Z.mod_pos_bound R (10 ^ (m - 1)) ltac:(lia)).
  replace (2 * (K * 10 ^ m + R) + 10 ^ m) with (K * (2 * 10 ^ m) + (2 * R + 10 ^ m)) by lia.
  rewrite Z.div_add_l by lia.
  destruct (Z.leb_spec 5 q).
  - f_equal. symmetry. apply (Z.div_unique _ _ _ (2 * R - 10 ^ m)); [left|]; nia.
  - rewrite Z.div_small by nia. lia.
Qed.

(** The units kept of a numeral at [d] decimals, and the rounding on the first dropped
    digit. *)
Definition kept_units (w f : chars) (d : nat) : Z :=
  let kept := padEnd (take d f) (Z.of_nat d) "0" in
  let units := of_digits w * 10 ^ Z.of_nat d in
  match kept with [] => units | _ => units + of_digits kept end.

Definition rounded_units (w f : chars) (d : nat) : Z :=
  match f !! d with
  | Some nextChar =>
      if code "5"%char <=? code nextChar then kept_units w f d + 1 else kept_units w f d
  | None => kept_units w f d
  end.

Lemma decimalToUnits_unsigned (w f : chars) (d : nat) (strict : bool) :
  all_digits w = true -> all_digits f = true ->
  decimalToUnits (w ++ "."%char :: f) d strict
  = if strict && (d <? length f)%nat then Throw F_TOO_PRECISE
    else Ok (if strict then kept_units w f d else rounded_units w f d).
Proof.
  intros Hw Hf. pose proof Hw as [Hwne HwF]%all_digits_spec.
  assert (UNSIGNED_DECIMAL (w ++ "."%char :: f) = true) as HU.
  { apply UNSIGNED_DECIMAL_spec. exists w, (Some f). split_and!; [by apply split_at_digits|done..]. }
  unfold decimalToUnits. destruct w as [|c w]; [done|]. cbn [app].
  assert (Ascii.eqb c "-" = false) as Hc.
  { rewrite Forall_cons in HwF. destruct HwF as [Hc _]. apply Ascii.eqb_neq. by intros ->. }
  cbn [DECIMAL_STR_RE]. rewrite Hc. change (c :: w ++ "."%char :: f) with ((c :: w) ++ "."%char :: f).
  rewrite HU. cbn [negb]. rewrite split_at_digits by done. cbn [default from_option id].
  destruct (strict && _); [done|]. by destruct strict.
Qed.

Lemma kept_units_fit (w f : chars) (d : nat) :
  f <> [] -> (length f <= d)%nat ->
  kept_units w f d = of_digits (w ++ f) * 10 ^ (Z.of_nat d - Z.of_nat (length f)).
Proof.
  intros Hne Hd. unfold kept_units. rewrite take_ge by lia.
  destruct (padEnd f (Z.of_nat d) "0") as [|x l] eqn:Ep; [by destruct f|]. rewrite <- Ep.
  unfold padEnd. rewrite !of_digits_app, of_digits_zeros, length_replicate.
  rewrite Z.mul_add_distr_r, <- Z.mul_assoc, <- Z.pow_add_r, Z.add_0_r by lia.
  f_equal; [do 2 f_equal; lia|]. do 2 f_equal. lia.
Qed.

Lemma kept_units_cut (w f : chars) (d : nat) :
  (d <= length f)%nat -> kept_units w f d = of_digits (w ++ take d f).
Proof.
  intros Hd. unfold kept_units, padEnd. rewrite length_take.
  replace (Z.to_nat (Z.of_nat d) - d `min` length f)%nat with 0%nat by lia.
  cbn [replicate]. rewrite app_nil_r, of_digits_app, length_take, Nat.min_l by lia.
  destruct (take d f) eqn:Et; [|done]. cbn. lia.
Qed.

(** The dropped digits, and the first of them. *)
Lemma rounded_units_cut (w f : chars) (d : nat) :
  Forall (fun c => is_digit c = true) f -> (d < length f)%nat ->
  let m := Z.of_nat (length f) - Z.of_nat d in
  rounded_units w f d = (2 * of_digits (w ++ f) + 10 ^ m) / (2 * 10 ^ m).
Proof.
  intros HfF Hd m. destruct (lookup_lt_is_Some_2 f d Hd) as [x Hx].
  unfold rounded_units. rewrite Hx, kept_units_cut by lia. symmetry.
  set (R := of_digits (drop d f)). pose proof (take_drop d f) as Htd.
  assert (Z.of_nat (length (drop d f)) = m) as Hlen by (rewrite length_drop; lia).
  assert (Z.of_nat (length (drop (S d) f)) = m - 1) as Hl1 by (rewrite length_drop; lia).
  pose proof (Forall_lookup_1 (fun c => is_digit c = true) f d x HfF Hx) as Hxd.
  pose proof (of_digits_bounds (drop (S d) f) ltac:(by apply Forall_drop)) as Hb.
  rewrite Hl1 in Hb.
  assert (R = digit_val x * 10 ^ (m - 1) + of_digits (drop (S d) f)) as HR.
  { unfold R. rewrite (drop_S _ _ _ Hx). change (x :: drop (S d) f) with ([x] ++ drop (S d) f).
    by rewrite of_digits_app, Hl1. }
  rewrite (round_half_up _ (of_digits (w ++ take d f)) R (digit_val x) m); [|lia|..].
  - change (code "5"%char) with 53. unfold digit_val.
    destruct (Z.leb_spec 5 (code x - 48)), (Z.leb_spec 53 (code x)); lia.
  - rewrite <- Htd at 1. by rewrite app_assoc, of_digits_app, Hlen.
  - assert (R mod 10 ^ (m - 1) = of_digits (drop (S d) f)) as ->; [|exact HR].
    rewrite HR, Z.add_comm, Z.mod_add, Z.mod_small by lia. done.
  - unfold R. rewrite <- Hlen. apply of_digits_bounds. by apply Forall_drop.
Qed.

(** [decimalToUnits] rounds half up and never drifts: for an unsigned numeral with
    whole part [w] and fraction [f], the result at [d] decimals is the exact value when the
    fraction fits, and otherwise the exact value rounded half up on the first dropped
    digit; the strict mode refuses exactly the numerals that do not fit. *)
Theorem decimalToUnits_rounds (w : chars) (f : chars) (d : nat)
    (Hw : all_digits w = true) (Hf : all_digits f = true) :
  let E := of_digits (w ++ f) in
  let m := Z.of_nat (length f) - Z.of_nat d in
  decimalToUnits (w ++ "."%char :: f) d false
  = Ok (if m <=? 0 then E * 10 ^ (- m) else (2 * E + 10 ^ m) / (2 * 10 ^ m))
  /\ decimalToUnits (w ++ "."%char :: f) d true
     = if m <=? 0 then Ok (E * 10 ^ (- m)) else Throw F_TOO_PRECISE.
Proof.
  intros E m. rewrite !decimalToUnits_unsigned by done. cbn [andb].
  apply all_digits_spec in Hf as [Hfne HfF]. destruct (Z.leb_spec m 0) as [Hm|Hm].
  - destruct (Nat.ltb_spec d (length f)); [lia|]. unfold rounded_units.
    rewrite lookup_ge_None_2, kept_units_fit by (done || lia).
    replace (Z.of_nat d - Z.of_nat (length f)) with (- m) by lia. done.
  - destruct (Nat.ltb_spec d (length f)) as [Hd|]; [|lia]. by rewrite rounded_units_cut.
Qed.

Lemma decimalToUnits_rounds_witness :
  decimalToUnits (chars_of "1.2345") 2 false = Ok 123
  /\ decimalToUnits (chars_of "1.2345") 2 true = Throw F_TOO_PRECISE.
Proof. apply (decimalToUnits_rounds (chars_of "1") (chars_of "2345") 2); reflexivity. Defined.

(** Whatever [deriveCctpTransferUnits] accepts, the burn is the six-decimal target scaled
    by ten and the request is the burn plus the dust. *)
Lemma deriveCctpTransferUnits_sum a t :
  deriveCctpTransferUnits a = Ok t ->
  burnUnits7 t = baseTargetUnits6 t * 10
  /\ requestedUnits7 t = burnUnits7 t + retainedDustUnits7 t /\ 0 < baseTargetUnits6 t.
Proof.
  unfold deriveCctpTransferUnits. destruct (_ || _); [done|].
  destruct (Float.floor _) as [t6| | |]; try done.
  destruct (Float.floor _) as [r7| | |]; try done.
  destruct (_ || _); [done|]. destruct (Z.leb_spec t6 0); [done|].
  intros [= <-]. cbn. lia.
Qed.

(** The dust is not always non-negative: the two products are rounded separately, and for
    the amount 0.57 the burn is one unit above the request. *)
Lemma cctp_dust_negative :
  deriveCctpTransferUnits (Float.div (Float.of_Z 57) (Float.of_Z 100))
  = Ok {| requestedUnits7 := 5699999; baseTargetUnits6 := 570000; burnUnits7 := 5700000;
          retainedDustUnits7 := -1 |}.
Proof. vm_compute. reflexivity. Qed.
End FormatProperties.
