(* ===== verification/WorkQueue.v ===== *)
(** * The work queue of the relayer

    Models [relayer/src/workQueue.mjs].  The callback [run] is the environment's: a job that was
    launched settles at any later time, or never, and whether it fails makes no difference to the
    queue.  The theorems: the bounds and the order of the queue, and that it drains. *)
From S2P Require Export JsValue.

Module Queue.

Section Identity.
Local Open Scope string_scope.

(** [a ?? b ?? …] *)
Definition first_given (vs : list val) : option val :=
  head (filter (fun v => negb (nullish v)) vs).

Definition identityOf (item : val) : option string :=
  let own :=
    if is_object item || is_array item
    then first_given [item#"id"; item#"jobId"; item#"mandateId"; item#"identity"#"id"; item#"identity"#"childId"]%list
    else None in
  match own with
  | Some v => Some (string_of (coerce v))
  | None =>
      match item with
      | Str _ | Number _ | Double _ => Some (string_of (coerce item))
      | _ => None
      end
  end.
End Identity.

Definition entry : Type := val * string.

(** The variables of the closure, and what the outside sees: the jobs that run, in the order
    they were launched, everything ever accepted and launched, and the waiters resolved. *)
Record queue := {
  pending : list entry;
  identities : gset string;
  active : nat;
  stopped : bool;
  finishing : bool;
  drainResolvers : list nat;
  running : list entry;
  accepted : list entry;
  launched : list entry;
  resolved : list nat;
}.

Inductive queue_error := BoundError.

Definition validBound (value : num) (allowZero : bool) : result queue_error Z :=
  match value with
  | Num z =>
      if isSafeInteger value && negb (if allowZero then z <? 0 else z <? 1) then Ok z
      else Throw BoundError
  | _ => Throw BoundError
  end.

Definition empty : queue := {|
  pending := []; identities := ∅; active := 0; stopped := false; finishing := false;
  drainResolvers := []; running := []; accepted := []; launched := []; resolved := [] |}.

(** The concurrency, the bound on the pending work and the queue. *)
Definition createWorkQueue (concurrency maxPending : num) : result queue_error (Z * Z * queue) :=
  c ← validBound concurrency false;
  p ← validBound maxPending true;
  Ok (c, p, empty).

Section Operations.
Context (concurrency maxPending : Z).

Definition settleDrain (q : queue) : queue :=
  if negb (active q =? 0)%nat || negb (length (pending q) =? 0)%nat then q
  else {|
    pending := pending q; identities := identities q; active := active q; stopped := stopped q;
    finishing := finishing q; drainResolvers := []; running := running q;
    accepted := accepted q; launched := launched q; resolved := resolved q ++ drainResolvers q |}.

(** The loop of [launch] over the pending entries. *)
Fixpoint launch_loop (allowStopped : bool) (q : queue) (entries : list entry) : queue :=
  match entries with
  | [] => q
  | e :: entries =>
      if (allowStopped || finishing q || negb (stopped q)) && (Z.of_nat (active q) <? concurrency) then
        launch_loop allowStopped
          {| pending := entries; identities := identities q; active := S (active q);
             stopped := stopped q; finishing := finishing q; drainResolvers := drainResolvers q;
             running := running q ++ [e]; accepted := accepted q; launched := launched q ++ [e];
             resolved := resolved q |}
          entries
      else q
  end.

Definition launch (allowStopped : bool) (q : queue) : queue :=
  settleDrain (launch_loop allowStopped q (pending q)).

Definition enqueue (q : queue) (item : val) : queue * bool :=
  if stopped q then (q, false)
  else
    match identityOf item with
    | None => (q, false)
    | Some identity =>
        if bool_decide (identity = EmptyString) || bool_decide (identity ∈ identities q)
           || (maxPending <=? Z.of_nat (length (pending q)))
        then (q, false)
        else
          (launch false
             {| pending := pending q ++ [(item, identity)]; identities := {[identity]} ∪ identities q;
                active := active q; stopped := stopped q; finishing := finishing q;
                drainResolvers := drainResolvers q; running := running q;
                accepted := accepted q ++ [(item, identity)]; launched := launched q;
                resolved := resolved q |},
           true)
    end.

(** The promise of a waiter resolves at once or when the queue is empty. *)
Definition drain (q : queue) (waiter : nat) : queue :=
  if (active q =? 0)%nat && (length (pending q) =? 0)%nat then {|
    pending := pending q; identities := identities q; active := active q; stopped := stopped q;
    finishing := finishing q; drainResolvers := drainResolvers q; running := running q;
    accepted := accepted q; launched := launched q; resolved := resolved q ++ [waiter] |}
  else {|
    pending := pending q; identities := identities q; active := active q; stopped := stopped q;
    finishing := finishing q; drainResolvers := drainResolvers q ++ [waiter]; running := running q;
    accepted := accepted q; launched := launched q; resolved := resolved q |}.

Definition stop (q : queue) (cancelPending : bool) (waiter : nat) : queue :=
  drain
    (if cancelPending then {|
       pending := []; identities := identities q ∖ list_to_set (pending q).*2; active := active q;
       stopped := true; finishing := finishing q; drainResolvers := drainResolvers q;
       running := running q; accepted := accepted q; launched := launched q; resolved := resolved q |}
     else
       launch true {|
         pending := pending q; identities := identities q; active := active q; stopped := true;
         finishing := true; drainResolvers := drainResolvers q; running := running q;
         accepted := accepted q; launched := launched q; resolved := resolved q |})
    waiter.

(** The [finally] of the job at a place among the running ones. *)
Definition settle (q : queue) (i : nat) : queue :=
  match running q !! i with
  | None => q
  | Some e =>
      let q := {|
        pending := pending q; identities := identities q ∖ {[e.2]}; active := pred (active q);
        stopped := stopped q; finishing := finishing q; drainResolvers := drainResolvers q;
        running := delete i (running q); accepted := accepted q; launched := launched q;
        resolved := resolved q |} in
      settleDrain (launch (finishing q) q)
  end.

(** What can happen to a queue. *)
Inductive event :=
| Enqueue (item : val) | Drain (waiter : nat) | Stop (cancelPending : bool) (waiter : nat)
| Settle (i : nat).

Definition happen (q : queue) (e : event) : queue :=
  match e with
  | Enqueue item => (enqueue q item).1
  | Drain waiter => drain q waiter
  | Stop cancelPending waiter => stop q cancelPending waiter
  | Settle i => settle q i
  end.

Definition after (es : list event) : queue := foldl happen empty es.

Definition size (q : queue) : nat := (active q + length (pending q))%nat.
End Operations.
End Queue.

(** ** The bounds and the order of the queue *)
Section Invariant.
Import Queue.
Context (concurrency maxPending : Z).

(** The entries in the queue, running before pending. *)
Definition held (q : queue) : list entry := running q ++ pending q.

(** What holds even in the middle of an operation. *)
Record counted (q : queue) : Prop := {
  c_active : active q = length (running q);
  c_limit : Z.of_nat (active q) <= concurrency;
  c_pending : Z.of_nat (length (pending q)) <= maxPending;
  c_distinct : NoDup (held q).*2;
  c_identities : forall s, s ∈ identities q <-> s ∈ (held q).*2;
  c_finishing : pending q <> [] -> stopped q = true -> finishing q = true;
}.

(** What holds between operations: nothing waits while a place is free, and nobody waits for an
    empty queue. *)
Record sound (q : queue) : Prop := {
  s_counted : counted q;
  s_busy : pending q <> [] -> Z.of_nat (active q) = concurrency;
  s_waiters : size q = 0%nat -> drainResolvers q = [];
}.

Definition moved (q : queue) (n : nat) : queue := {|
  pending := drop n (pending q); identities := identities q; active := active q + n;
  stopped := stopped q; finishing := finishing q; drainResolvers := drainResolvers q;
  running := running q ++ take n (pending q); accepted := accepted q;
  launched := launched q ++ take n (pending q); resolved := resolved q |}.

(** How many entries a launch takes. *)
Definition room (q : queue) : nat := Z.to_nat (concurrency - Z.of_nat (active q)) `min` length (pending q).

Lemma launch_loop_moved (allowStopped : bool) q :
  allowStopped || finishing q || negb (stopped q) = true ->
  launch_loop concurrency allowStopped q (pending q) = moved q (room q).
Proof.
  remember (pending q) as l eqn:Hl. revert q Hl. induction l as [|e l IH]; intros q Hl Ha; cbn.
  - unfold room, moved. rewrite <- Hl, Nat.min_0_r. cbn. rewrite !app_nil_r, Nat.add_0_r.
    destruct q; cbn in *; congruence.
  - rewrite Ha. cbn. destruct (Z.ltb_spec (Z.of_nat (active q)) concurrency).
    + rewrite IH by done. unfold room, moved. cbn. rewrite <- Hl. cbn.
      replace (Z.to_nat (concurrency - Z.of_nat (active q)))
        with (S (Z.to_nat (concurrency - Z.of_nat (S (active q))))) by lia.
      cbn. rewrite <- !app_assoc, <- plus_n_Sm. done.
    + unfold room, moved. replace (Z.to_nat (concurrency - Z.of_nat (active q))) with 0%nat by lia.
      cbn. rewrite !app_nil_r, Nat.add_0_r. destruct q; done.
Qed.

Lemma held_moved q n : held (moved q n) = held q.
Proof. unfold held. cbn. by rewrite <- app_assoc, take_drop. Qed.

Lemma room_limit q : Z.of_nat (active q) <= concurrency -> Z.of_nat (active q + room q) <= concurrency.
Proof. unfold room. lia. Qed.

Lemma counted_moved q : counted q -> counted (moved q (room q)).
Proof.
  intros [? Hl ? ? ? Hf]. split; rewrite ?held_moved; cbn; try done.
  - rewrite length_app, length_take. unfold room. lia.
  - by apply room_limit.
  - rewrite length_drop. lia.
  - intros Hp. apply Hf. intros Hn. by rewrite Hn, drop_nil in Hp.
Qed.

Lemma busy_moved q : pending (moved q (room q)) <> [] -> Z.of_nat (active q) <= concurrency ->
  Z.of_nat (active (moved q (room q))) = concurrency.
Proof.
  intros Hp ?. cbn in *. assert (room q < length (pending q))%nat; [|unfold room in *; lia].
  apply Nat.nle_gt. intros Hle. by apply Hp, drop_ge.
Qed.

Lemma settleDrain_fields q : let q' := settleDrain q in
  held q' = held q /\ pending q' = pending q /\ identities q' = identities q /\ active q' = active q /\
  stopped q' = stopped q /\ finishing q' = finishing q /\ running q' = running q /\
  launched q' = launched q /\ accepted q' = accepted q /\
  resolved q' ++ drainResolvers q' = resolved q ++ drainResolvers q.
Proof. unfold settleDrain. destruct (_ || _); cbn; [done|]. by rewrite app_nil_r. Qed.

Lemma counted_settleDrain q : counted q -> counted (settleDrain q).
Proof.
  intros []. destruct (settleDrain_fields q) as (Hh & Hp & Hi & Ha & Hs & Hf & Hr & _).
  split; rewrite ?Hh, ?Hp, ?Hi, ?Ha, ?Hs, ?Hf, ?Hr; done.
Qed.

Lemma settleDrain_waiters q : size q = 0%nat -> drainResolvers (settleDrain q) = [].
Proof. unfold size, settleDrain. intros H. destruct (active q), (pending q); cbn in *; done || lia. Qed.

Lemma settleDrain_sound q : counted q -> (pending q <> [] -> Z.of_nat (active q) = concurrency) ->
  sound (settleDrain q).
Proof.
  intros Hc Hb. destruct (settleDrain_fields q) as (_ & Hp & _ & Ha & _). split.
  - by apply counted_settleDrain.
  - by rewrite Hp, Ha.
  - unfold size. rewrite Hp, Ha. apply settleDrain_waiters.
Qed.

Lemma launch_sound q (allowStopped : bool) :
  counted q -> (pending q <> [] -> allowStopped || finishing q || negb (stopped q) = true) ->
  sound (launch concurrency allowStopped q).
Proof.
  intros Hc Ha. unfold launch. destruct (decide (pending q = [])) as [Hn|Hn].
  - rewrite Hn. cbn. by apply settleDrain_sound.
  - rewrite launch_loop_moved by auto. apply settleDrain_sound; [by apply counted_moved|].
    intros. apply busy_moved; [done|apply Hc].
Qed.

Lemma sound_empty : 1 <= concurrency -> 0 <= maxPending -> sound empty.
Proof. intros. repeat split; cbn; try lia; try done; try set_solver. constructor. Qed.
End Invariant.

Section Steps.
Import Queue.
Context (concurrency maxPending : Z) (Hconcurrency : 1 <= concurrency).
Notation sound := (sound concurrency maxPending).
Notation counted := (counted concurrency maxPending).

Lemma enqueue_sound q item : sound q -> sound (enqueue concurrency maxPending q item).1.
Proof.
  intros Hs. unfold enqueue. destruct (stopped q) eqn:Hstop; [done|].
  destruct (identityOf item) as [s|]; [|done].
  destruct (_ || _) eqn:Hno; [done|]. apply orb_false_elim in Hno as [[_ Hnew]%orb_false_elim Hp].
  apply bool_decide_eq_false in Hnew. apply Z.leb_gt in Hp. destruct Hs as [[] _ _]. cbn.
  apply launch_sound; [|by intros; cbn; rewrite !orb_true_r]. split; cbn; try done.
  - rewrite length_app. cbn. lia.
  - unfold held in *. cbn. rewrite app_assoc, fmap_app, NoDup_app. cbn. split_and!; [done| |apply NoDup_singleton].
    intros x Hx [->|[]%elem_of_nil]%elem_of_cons. by apply Hnew, c_identities0.
  - intros x. unfold held in *. cbn. rewrite app_assoc, fmap_app, elem_of_app, elem_of_union, c_identities0.
    cbn. rewrite list_elem_of_singleton, elem_of_singleton. tauto.
Qed.

Lemma drain_sound q w : sound q -> sound (drain q w).
Proof.
  intros [[] Hb Hw]. unfold drain. destruct (_ && _) eqn:Hz; repeat split; cbn; try done.
  - apply c_identities0.
  - apply c_identities0.
  - apply c_identities0.
  - apply c_identities0.
  - intros H0. exfalso. unfold size in H0. cbn in H0. apply andb_false_iff in Hz as [Hz|Hz];
      apply Nat.eqb_neq in Hz; lia.
Qed.

Lemma sound_idle q : sound q -> active q = 0%nat -> pending q = [].
Proof. intros [_ Hb _] H0. destruct (pending q); [done|]. specialize (Hb ltac:(done)). lia. Qed.

Lemma stop_sound q (c : bool) w : sound q -> sound (stop concurrency q c w).
Proof.
  intros Hs. apply drain_sound. destruct c.
  - pose proof (sound_idle q Hs) as Hi. destruct Hs as [[] Hb Hw].
    unfold held in *. rewrite fmap_app in *. apply NoDup_app in c_distinct0 as (Hr & Hd & _).
    repeat split; cbn; try done; unfold held; cbn; rewrite ?app_nil_r; try done; try lia.
    1,2: rewrite elem_of_difference, elem_of_list_to_set, c_identities0, elem_of_app.
    + tauto.
    + intros Hx. split; [tauto|]. by apply Hd.
    + unfold size. cbn. intros H0. apply Hw. unfold size. rewrite Hi by lia. cbn. lia.
  - destruct Hs as [[] _ _]. apply launch_sound; [|done]. by split.
Qed.

Lemma delete_Permutation_fmap {A B} (f : A -> B) (l : list A) i x :
  l !! i = Some x -> f <$> l ≡ₚ f x :: (f <$> delete i l).
Proof. intros H. apply delete_Permutation in H. by rewrite H at 1. Qed.

(** The queue between the end of a job and the launch that follows. *)
Definition ended (q : queue) (i : nat) (e : entry) : queue := {|
  pending := pending q; identities := identities q ∖ {[e.2]}; active := pred (active q);
  stopped := stopped q; finishing := finishing q; drainResolvers := drainResolvers q;
  running := delete i (running q); accepted := accepted q; launched := launched q;
  resolved := resolved q |}.

Lemma settle_ended q i e : running q !! i = Some e ->
  settle concurrency q i = settleDrain (launch concurrency (finishing q) (ended q i e)).
Proof. intros H. unfold settle. destruct (running q !! i) as [e0|]; [|done]. by injection H as ->. Qed.

Lemma ended_counted q i e : running q !! i = Some e -> counted q -> counted (ended q i e).
Proof.
  intros Hi []. pose proof (length_delete (running q) i (ltac:(by eexists))) as Hlen.
  pose proof (delete_Permutation_fmap snd _ _ _ Hi) as Hp.
  assert ((held q).*2 ≡ₚ e.2 :: (held (ended q i e)).*2) as Hh
    by (unfold held; cbn; by rewrite !fmap_app, Hp).
  pose proof c_distinct0 as Hd. rewrite Hh in Hd. apply NoDup_cons in Hd as [Hnew Hd].
  split; cbn; try done; try lia.
  intros s. rewrite elem_of_difference, elem_of_singleton, c_identities0, Hh, elem_of_cons.
  split; [tauto|]. intros Hs. split; [tauto|]. by intros ->.
Qed.

Lemma ended_allowed q i e : counted q -> pending (ended q i e) <> [] ->
  finishing q || finishing (ended q i e) || negb (stopped (ended q i e)) = true.
Proof. intros [] Hp. cbn in *. destruct (stopped q); [rewrite c_finishing0 by done|]; by rewrite ?orb_true_r. Qed.

Lemma settle_sound q i : sound q -> sound (settle concurrency q i).
Proof.
  intros Hs. destruct (running q !! i) as [e|] eqn:Hi; [|]. 2:{ unfold settle. destruct (running q !! i); congruence. }
  rewrite (settle_ended q i e Hi).
  destruct (launch_sound concurrency maxPending (ended q i e) (finishing q)) as [Hc Hb Hw].
  - apply ended_counted; [done|apply Hs].
  - apply ended_allowed, Hs.
  - by apply settleDrain_sound.
Qed.

Lemma happen_sound q e : sound q -> sound (happen concurrency maxPending q e).
Proof.
  intros Hs. destruct e; cbn; [by apply enqueue_sound|by apply drain_sound|by apply stop_sound|by apply settle_sound].
Qed.

Lemma after_snoc es e : after concurrency maxPending (es ++ [e]) = happen concurrency maxPending (after concurrency maxPending es) e.
Proof. unfold after. by rewrite foldl_snoc. Qed.

Lemma after_sound es : 0 <= maxPending -> sound (after concurrency maxPending es).
Proof.
  intros. induction es as [|e es IH] using rev_ind; [by apply sound_empty|].
  rewrite after_snoc. by apply happen_sound.
Qed.

(** ** One job that ends *)
Lemma settle_one q i e : sound q -> running q !! i = Some e ->
  let q' := settle concurrency q i in
  S (size q') = size q /\ launched q' ++ pending q' = launched q ++ pending q /\
  resolved q' ++ drainResolvers q' = resolved q ++ drainResolvers q.
Proof.
  intros Hs Hi. cbn. rewrite (settle_ended q i e Hi). unfold launch.
  set (m := launch_loop _ _ _ _).
  pose proof (s_counted _ _ _ Hs) as Hc. pose proof (c_active _ _ _ Hc) as Ha.
  apply lookup_lt_Some in Hi as Hlt.
  assert (size m = size (ended q i e) /\ launched m ++ pending m = launched q ++ pending q /\
    resolved m ++ drainResolvers m = resolved q ++ drainResolvers q) as (Hsz & Hla & Hre).
  { destruct (decide (pending (ended q i e) = [])) as [Hn|Hn].
    - subst m. rewrite Hn. cbn in *. done.
    - subst m. rewrite launch_loop_moved by by apply ended_allowed. unfold size. cbn.
      rewrite length_drop, <- app_assoc, take_drop. split; [|done].
      unfold room. cbn. lia. }
  clearbody m.
  destruct (settleDrain_fields (settleDrain m)) as (_ & -> & _ & Ha' & _ & _ & _ & -> & _ & ->).
  destruct (settleDrain_fields m) as (_ & -> & _ & Ha'' & _ & _ & _ & -> & _ & ->).
  split; [|done]. unfold size in *. rewrite Ha', Ha''.
  destruct (settleDrain_fields (settleDrain m)) as (_ & -> & _).
  destruct (settleDrain_fields m) as (_ & -> & _). cbn in Hsz. lia.
Qed.
End Steps.

Section Drained.
Import Queue.
Context (concurrency maxPending : Z) (Hconcurrency : 1 <= concurrency) (Hmax : 0 <= maxPending).
Notation sound := (sound concurrency maxPending).
Notation after := (after concurrency maxPending).

Definition cancels (e : event) : bool := match e with Stop c _ => c | _ => false end.

Lemma launch_fifo q (a : bool) :
  launched (launch concurrency a q) ++ pending (launch concurrency a q) = launched q ++ pending q /\
  accepted (launch concurrency a q) = accepted q.
Proof.
  unfold launch. destruct (settleDrain_fields (launch_loop concurrency a q (pending q)))
    as (_ & -> & _ & _ & _ & _ & _ & -> & -> & _).
  destruct (a || finishing q || negb (stopped q)) eqn:Ha.
  - rewrite launch_loop_moved by done. cbn. by rewrite <- app_assoc, take_drop.
  - destruct (pending q) eqn:E; cbn; rewrite ?E, ?Ha; cbn; by rewrite ?E.
Qed.

Lemma happen_fifo q e : cancels e = false -> accepted q = launched q ++ pending q ->
  let q' := happen concurrency maxPending q e in accepted q' = launched q' ++ pending q'.
Proof.
  intros He Hq. assert (forall a q1, accepted q1 = launched q1 ++ pending q1 ->
    accepted (launch concurrency a q1) = launched (launch concurrency a q1) ++ pending (launch concurrency a q1)) as Hl.
  { intros a q1 H1. destruct (launch_fifo q1 a) as [-> ->]. done. }
  assert (forall q1 w, accepted q1 = launched q1 ++ pending q1 ->
    accepted (drain q1 w) = launched (drain q1 w) ++ pending (drain q1 w)) as Hd
    by (intros; unfold drain; by case_match).
  destruct e as [item|w|[] w|i]; cbn; [|by apply Hd|done| |].
  - unfold enqueue. repeat case_match; try done. apply Hl. cbn. by rewrite Hq, app_assoc.
  - by apply Hd, Hl.
  - destruct (running q !! i) as [e|] eqn:Hi; [|unfold settle; destruct (running q !! i); done].
    rewrite (settle_ended concurrency q i e Hi).
    destruct (settleDrain_fields (launch concurrency (finishing q) (ended q i e))) as (_ & -> & _ & _ & _ & _ & _ & -> & -> & _).
    by apply Hl.
Qed.

Lemma after_fifo es : Forall (fun e => cancels e = false) es ->
  accepted (after es) = launched (after es) ++ pending (after es).
Proof.
  induction es as [|e es IH] using rev_ind; [done|]. intros [? [? _]%Forall_cons]%Forall_app.
  rewrite after_snoc. apply happen_fifo; auto.
Qed.

(** Jobs end one by one, in the order [choose] takes them. *)
Fixpoint finish (choose : queue -> nat) (n : nat) (q : queue) : queue :=
  match n with O => q | S n => finish choose n (settle concurrency q (choose q)) end.

Lemma sound_running q : sound q -> size q <> 0%nat -> running q <> [].
Proof.
  intros Hs Hn Hr. pose proof (c_active _ _ _ (s_counted _ _ _ Hs)) as Ha.
  rewrite Hr in Ha. apply Hn. unfold size. by rewrite Ha, (sound_idle _ _ Hconcurrency q Hs Ha).
Qed.

Lemma finish_drained choose n q : sound q -> size q = n ->
  (forall q, running q <> [] -> (choose q < length (running q))%nat) ->
  let q' := finish choose n q in
  size q' = 0%nat /\ running q' = [] /\ launched q' = launched q ++ pending q /\
  drainResolvers q' = [] /\ resolved q' = resolved q ++ drainResolvers q.
Proof.
  intros Hs Hn Hch. revert q Hs Hn. induction n as [|n IH]; intros q Hs Hn; cbn.
  - pose proof (c_active _ _ _ (s_counted _ _ _ Hs)) as Ha. pose proof (s_waiters _ _ _ Hs Hn) as Hw.
    rewrite Hw, app_nil_r. pose proof Hn as Hz. unfold size in Hz.
    destruct (pending q); [|cbn in Hz; lia]. rewrite app_nil_r.
    split_and!; try done. apply length_zero_iff_nil. lia.
  - assert (exists e, running q !! choose q = Some e) as [e He]
      by (apply lookup_lt_is_Some, Hch, (sound_running q Hs); lia).
    destruct (settle_one _ _ q (choose q) e Hs He) as (Hsz & Hla & Hre).
    destruct (IH (settle concurrency q (choose q))) as (? & ? & -> & ? & ->); [by apply settle_sound|lia|].
    done.
Qed.
End Drained.

Lemma created_bounds c m concurrency maxPending q :
  Queue.createWorkQueue c m = Ok (concurrency, maxPending, q) ->
  1 <= concurrency /\ 0 <= maxPending /\ q = Queue.empty.
Proof.
  unfold Queue.createWorkQueue, Queue.validBound. intros H.
  destruct c as [z| | |]; try done. destruct (_ && _) eqn:Hc; [|done]. cbn in H.
  destruct m as [z'| | |]; try done. destruct (_ && negb (z' <? 0)) eqn:Hm; [|done]. cbn in H.
  apply andb_prop in Hc as [_ Hc], Hm as [_ Hm]. cbn in Hc. zbool. injection H as <- <- <-. done.
Qed.

(** Whatever happens to a queue that was created: the jobs that run are counted and never more
    than the concurrency, never more entries wait than the bound, and none waits while a place is
    free; no two entries held, running or waiting, have the same identity, and the identities
    the queue refuses are exactly theirs; a waiter for an empty queue is never left over. *)
Theorem queue_bounds c m concurrency maxPending q0 es :
  Queue.createWorkQueue c m = Ok (concurrency, maxPending, q0) ->
  let q := foldl (Queue.happen concurrency maxPending) q0 es in
  Queue.active q = length (Queue.running q) /\ Z.of_nat (Queue.active q) <= concurrency /\
  Z.of_nat (length (Queue.pending q)) <= maxPending /\
  (Queue.pending q <> [] -> Z.of_nat (Queue.active q) = concurrency) /\
  NoDup (Queue.running q ++ Queue.pending q).*2 /\
  (forall s, s ∈ Queue.identities q <-> s ∈ (Queue.running q ++ Queue.pending q).*2) /\
  (Queue.size q = 0%nat -> Queue.drainResolvers q = []).
Proof.
  intros (Hc & Hm & ->)%created_bounds.
  destruct (after_sound concurrency maxPending Hc es Hm) as [[] Hb Hw]. done.
Qed.

(** C40. A queue drains: in whatever order its jobs end, and without any new event, as many ends as
    the queue has entries leave it empty, every entry that waited was launched, in order and
    once, and every waiter of [drain] and [stop] was resolved.  Without a cancelling stop, all
    that was ever accepted was launched in the order of acceptance. *)
Theorem queue_drains c m concurrency maxPending q0 es choose :
  Queue.createWorkQueue c m = Ok (concurrency, maxPending, q0) ->
  (forall q, Queue.running q <> [] -> (choose q < length (Queue.running q))%nat) ->
  let q := foldl (Queue.happen concurrency maxPending) q0 es in
  let q' := finish concurrency choose (Queue.size q) q in
  Queue.size q' = 0%nat /\ Queue.running q' = [] /\
  Queue.launched q' = Queue.launched q ++ Queue.pending q /\
  Queue.drainResolvers q' = [] /\
  Queue.resolved q' = Queue.resolved q ++ Queue.drainResolvers q /\
  (Forall (fun e => cancels e = false) es -> Queue.launched q' = Queue.accepted q).
Proof.
  intros (Hc & Hm & ->)%created_bounds Hch.
  pose proof (after_sound concurrency maxPending Hc es Hm) as Hs.
  destruct (finish_drained concurrency maxPending Hc choose _ _ Hs eq_refl Hch) as (? & ? & Hl & ? & ?).
  cbn. split_and!; try done. intros He. etransitivity; [exact Hl|].
  by rewrite <- after_fifo.
Qed.

Module QueueSample.
Import Queue.
Local Open Scope string_scope.
Definition job (id : string) : val := Obj [("id", Str id)].
Definition events : list event :=
  [Enqueue (job "a"); Enqueue (job "b"); Enqueue (job "a"); Enqueue (Str "c"); Drain 1; Stop false 2]%list.
End QueueSample.

Lemma queue_bounds_witness :
  Queue.createWorkQueue (Num 1) (Num 2) = Ok (1, 2, Queue.empty) /\
  Z.of_nat (Queue.active (Queue.after 1 2 QueueSample.events)) <= 1.
Proof.
  split; [vm_compute; reflexivity|].
  exact (proj1 (proj2 (queue_bounds (Num 1) (Num 2) 1 2 Queue.empty QueueSample.events eq_refl))).
Defined.

Lemma queue_drains_witness :
  Queue.size (Queue.after 1 2 QueueSample.events) = 3%nat /\
  Queue.resolved (finish 1 (fun _ => 0%nat) 3 (Queue.after 1 2 QueueSample.events)) = [1; 2]%nat /\
  Queue.running (finish 1 (fun _ => 0%nat) (Queue.size (Queue.after 1 2 QueueSample.events))
    (Queue.after 1 2 QueueSample.events)) = [].
Proof.
  split; [vm_compute; reflexivity|]. split; [vm_compute; reflexivity|].
  refine (proj1 (proj2 (queue_drains (Num 1) (Num 2) 1 2 Queue.empty QueueSample.events (fun _ => 0%nat) eq_refl _))).
  intros q Hq. destruct (Queue.running q); [by destruct Hq|cbn; lia].
Defined.
