(* ===== verification/MandateStore.v ===== *)
(** * Mandates kept for a while

    Models the first two stores of [relayer/src/mandateStore.mjs], [createMandateStore] and
    [createMandateStoreV2]: session keys by approval, and records by approval, owner and kernel
    together, both forgotten when they expire.  A [Map] is a finite map; the clock is an
    argument; the expiry is any [Number], as the stores do not check it. *)
From S2P Require Export JsValue.

(** ** Approval to session key *)
Module Ttl.
Definition HOUR_MS : Z := 60 * 60 * 1000.

Record entry := { value : string; expiresAt : num }.
Abbreviation store := (gmap string entry).

Definition isExpired (rec : entry) (t : Z) : bool := JsNum.geb (Num t) (expiresAt rec).

Definition set (s : store) (ttlMs : Z) (key v : string) (expires : option num) (now : Z) : store :=
  <[key := {| value := v; expiresAt := default (Num (now + ttlMs)) expires |}]> s.

Definition get (s : store) (key : string) (now : Z) : option string * store :=
  match s !! key with
  | None => (None, s)
  | Some rec => if isExpired rec now then (None, delete key s) else (Some (value rec), s)
  end.

(** [{ valid, expiresAt }]: never the value. *)
Definition status (s : store) (key : string) (now : Z) : option num * store :=
  match s !! key with
  | None => (None, s)
  | Some rec => if isExpired rec now then (None, delete key s) else (Some (expiresAt rec), s)
  end.

Definition remove (s : store) (key : string) : bool * store :=
  (bool_decide (is_Some (s !! key)), delete key s).

(** How many were dropped, and the others. *)
Definition sweep (s : store) (now : Z) : Z * store :=
  let kept := filter (fun p => isExpired p.2 now = false) s in
  (Z.of_nat (size s) - Z.of_nat (size kept), kept).
End Ttl.

(** ** Mandates by approval, owner and kernel *)
Module MandateV2.
Local Open Scope string_scope.

Record mandate := {
  serializedApproval : string; stellarOwner : string; kernelAddress : string;
  sessionKeyAddress : val; sessionPrivateKey : val; relayerOrigin : val; expiresAt : num;
  recordedStatus : val; bindingId : val; bindingHash : val;
}.
Abbreviation store := (gmap string mandate).

Definition KEY_SEP : string := "|".
Definition mandateKeyV2 (approval owner kernel : string) : string :=
  approval +:+ KEY_SEP +:+ owner +:+ KEY_SEP +:+ kernel.
Definition key_of (rec : mandate) : string :=
  mandateKeyV2 (serializedApproval rec) (stellarOwner rec) (kernelAddress rec).

Definition isExpired (rec : mandate) (t : Z) : bool := JsNum.geb (Num t) (expiresAt rec).

(** The answer of [status]: no session key. *)
Record status_view := {
  v_stellarOwner : val; v_kernelAddress : val; v_sessionKeyAddress : val; v_relayerOrigin : val;
  v_expiresAt : val; v_status : string; v_bindingId : val; v_bindingHash : val;
}.
Definition MISSING_STATUS_V2 : status_view := {|
  v_stellarOwner := Null; v_kernelAddress := Null; v_sessionKeyAddress := Null;
  v_relayerOrigin := Null; v_expiresAt := Null; v_status := "missing"; v_bindingId := Null;
  v_bindingHash := Null |}.
Definition statusShape (rec : mandate) (status : string) : status_view := {|
  v_stellarOwner := Str (stellarOwner rec); v_kernelAddress := Str (kernelAddress rec);
  v_sessionKeyAddress := sessionKeyAddress rec; v_relayerOrigin := coalesce (relayerOrigin rec) Null;
  v_expiresAt := Number (expiresAt rec); v_status := status;
  v_bindingId := coalesce (bindingId rec) Null; v_bindingHash := coalesce (bindingHash rec) Null |}.

Definition set (s : store) (rec : mandate) : store := <[key_of rec := rec]> s.

Definition getRecord (s : store) (approval owner kernel : string) (now : Z) : option mandate * store :=
  let k := mandateKeyV2 approval owner kernel in
  match s !! k with
  | None => (None, s)
  | Some rec => if isExpired rec now then (None, delete k s) else (Some rec, s)
  end.
Definition get : store -> string -> string -> string -> Z -> option mandate * store := getRecord.

Definition status (s : store) (approval owner kernel : string) (now : Z) : status_view * store :=
  let k := mandateKeyV2 approval owner kernel in
  match s !! k with
  | None => (MISSING_STATUS_V2, s)
  | Some rec =>
      if isExpired rec now then (statusShape rec "expired", delete k s)
      else (statusShape rec
              (if strict_eq (recordedStatus rec) (Str "revoked") then "revoked" else "active"), s)
  end.

Definition remove (s : store) (approval owner kernel : string) : bool * store :=
  let k := mandateKeyV2 approval owner kernel in (bool_decide (is_Some (s !! k)), delete k s).

Definition sweep (s : store) (now : Z) : Z * store :=
  let kept := filter (fun p => isExpired p.2 now = false) s in
  (Z.of_nat (size s) - Z.of_nat (size kept), kept).

(** The calls of the store, one after the other. *)
Inductive call :=
| Set_ (rec : mandate)
| Get (approval owner kernel : string) (now : Z)
| Status (approval owner kernel : string) (now : Z)
| Remove (approval owner kernel : string)
| Sweep (now : Z).

Definition after (s : store) (c : call) : store :=
  match c with
  | Set_ rec => set s rec
  | Get a o k now => (get s a o k now).2
  | Status a o k now => (status s a o k now).2
  | Remove a o k => (remove s a o k).2
  | Sweep now => (sweep s now).2
  end.
Definition run (s : store) (l : list call) : store := foldl after s l.
End MandateV2.

(** ** What a lookup can find *)
Section Found.
Import MandateV2.
Local Open Scope string_scope.
Local Open Scope list_scope.

(** No separator inside a component. *)
Definition plain (s : string) : Prop := "|"%char ∉ chars_of s.

Lemma plain_prefix (a b x y : chars) : "|"%char ∉ a -> "|"%char ∉ b -> a ++ "|"%char :: x = b ++ "|"%char :: y -> a = b /\ x = y.
Proof.
  revert b. induction a as [|c a IH]; intros [|c' b] Ha Hb H; cbn in H.
  - by injection H as ->.
  - injection H as <- _. set_solver.
  - injection H as -> _. set_solver.
  - injection H as -> H. apply IH in H as [-> ->]; [done|set_solver..].
Qed.

Lemma mandateKeyV2_inj a o k a' o' k' : plain a -> plain o -> plain a' -> plain o' ->
  mandateKeyV2 a o k = mandateKeyV2 a' o' k' -> a = a' /\ o = o' /\ k = k'.
Proof.
  unfold plain. intros Ha Ho Ha' Ho' H%(f_equal chars_of). unfold mandateKeyV2, KEY_SEP in H.
  rewrite !chars_of_app in H. change (chars_of "|") with ["|"%char] in H. cbn in H.
  apply plain_prefix in H as [H1%chars_of_inj H]; [|done..]. apply plain_prefix in H as [H2%chars_of_inj H]; [|done..].
  by apply chars_of_inj in H.
Qed.

(** Stored under its own key, by a call of the run. *)
Definition filed (s : store) (l : list call) : Prop :=
  forall key rec, s !! key = Some rec -> key = key_of rec /\ Set_ rec ∈ l.

Lemma filed_subset s s' l c : filed s l -> s' ⊆ s -> filed s' (l ++ [c]).
Proof. intros Hs Hsub key rec Hk. destruct (Hs key rec) as [-> ?]; [by eapply lookup_weaken|]. set_solver. Qed.

Lemma filed_after s l c : filed s l -> filed (after s c) (l ++ [c]).
Proof.
  intros Hs. destruct c as [rec|a o k now|a o k now|a o k|now]; cbn [after].
  - intros key r Hk. unfold set in Hk. destruct (decide (key = key_of rec)) as [->|Hn].
    + rewrite lookup_insert_eq in Hk. injection Hk as <-. set_solver.
    + rewrite lookup_insert_ne in Hk by done. destruct (Hs _ _ Hk). set_solver.
  - apply (filed_subset s); [done|]. unfold get, getRecord. repeat case_match; cbn; first [done|apply delete_subseteq].
  - apply (filed_subset s); [done|]. unfold status. repeat case_match; cbn; first [done|apply delete_subseteq].
  - apply (filed_subset s); [done|]. apply delete_subseteq.
  - apply (filed_subset s); [done|]. apply map_filter_subseteq.
Qed.

Lemma filed_run l : filed (run ∅ l) l.
Proof.
  induction l as [|c l IH] using rev_ind; [intros key rec H; cbn in H; by rewrite lookup_empty in H|].
  unfold run. rewrite foldl_app. by apply filed_after.
Qed.

(** Whatever was stored, looked up, removed or swept before, the record found for an
    approval, an owner and a kernel was stored for exactly these three, and it has not expired:
    the approval of one owner finds nothing for another owner or another kernel. *)
Theorem v2_lookup_bound l approval owner kernel now rec :
  (forall r, Set_ r ∈ l -> plain (serializedApproval r) /\ plain (stellarOwner r)) ->
  plain approval -> plain owner ->
  (get (run ∅ l) approval owner kernel now).1 = Some rec ->
  serializedApproval rec = approval /\ stellarOwner rec = owner /\ kernelAddress rec = kernel /\
  Set_ rec ∈ l /\ JsNum.geb (Num now) (expiresAt rec) = false.
Proof.
  intros Hl Ha Ho H. unfold get, getRecord in H. destruct (_ !! _) as [r|] eqn:Hr in H; [|done].
  destruct (isExpired r now) eqn:He; [done|]. cbn in H. injection H as <-.
  destruct (filed_run l _ _ Hr) as [Hk Hin]. destruct (Hl _ Hin).
  apply mandateKeyV2_inj in Hk as (-> & -> & ->); done.
Qed.

Definition sample_mandate : mandate := {|
  serializedApproval := "QQ=="; stellarOwner := "GA"; kernelAddress := "0x1"; sessionKeyAddress := Str "0x2";
  sessionPrivateKey := Str "0x3"; relayerOrigin := Undefined; expiresAt := Num 10; recordedStatus := Undefined;
  bindingId := Undefined; bindingHash := Undefined |}.

Lemma v2_lookup_bound_witness :
  (get (run ∅ [Set_ sample_mandate]) "QQ==" "GA" "0x1" 9).1 = Some sample_mandate /\
  stellarOwner sample_mandate = "GA".
Proof.
  assert ((get (run ∅ [Set_ sample_mandate]) "QQ==" "GA" "0x1" 9).1 = Some sample_mandate) as H
    by (vm_compute; reflexivity).
  refine (conj H (proj1 (proj2 (v2_lookup_bound [Set_ sample_mandate] "QQ==" "GA" "0x1" 9 sample_mandate _ _ _ H)))).
  - intros r Hr. apply list_elem_of_singleton in Hr. injection Hr as ->.
    split; apply (bool_decide_unpack _); vm_compute; exact I.
  - apply (bool_decide_unpack _); vm_compute; exact I.
  - apply (bool_decide_unpack _); vm_compute; exact I.
Defined.
End Found.
