(* ===== verification/MandateActivation.v ===== *)
(** * Mandates and the work that activates them

    Models [createMandateStoresV3] of [relayer/src/mandateStore.mjs]: the mandates, the work row
    that brings one to life on chain, and every operation on the two.  The source changes its
    rows in place and keeps what it changed when it throws; an operation here is a function of
    the store that gives its result or the message of its error, and the store after it.  Rows
    given to the caller are copies.  SHA-256 and the token generator are arguments; the keys of
    both maps in the order of their insertion, which only lists show, are a list.  A digest
    field is any value whose text matches, as the source tests it. *)
From S2P Require Export JsValue.

Module Activation.

Inductive mandate_state := pending_activation | active | activation_uncertain | revoked.
Inductive work_state := pending | running | submitting | submitted | done | uncertain.

#[global] Instance mandate_state_eq_dec : EqDecision mandate_state.
Proof. solve_decision. Defined.
#[global] Instance work_state_eq_dec : EqDecision work_state.
Proof. solve_decision. Defined.

Section Strings.
Local Open Scope string_scope.
Local Open Scope list_scope.

Definition USER_OP_HASH_RE : chars -> bool := is_0x_hex 64.
Definition TX_HASH_RE : chars -> bool := is_0x_hex 64.
Definition DIGEST_RE : chars -> bool := is_hex 64.

(** [re.test(v || '')] *)
Definition tested (re : chars -> bool) (v : val) : bool :=
  test re (if truthy v then v else Str EmptyString).

(** ** Rows *)

(** The fields of a mandate that never change. *)
Record facts := {
  mandateId : string;
  approvalDigest : val; policyDigest : val; serializedApproval : val; sessionKeyDigest : string;
  sessionKeyAddress : string; capabilityHash : val; stellarOwner : string; kernelAddress : string;
  relayerOrigin : val; validUntilSeconds : Z; bindingId : val; bindingHash : val;
  permissionId : val;
}.

Record mandate := {
  about : facts;
  sessionPrivateKey : option string;
  mstatus : mandate_state;
  activationUserOpHash : val; activationTxHash : val; activatedAt : option Z;
  mcreatedAt : Z; mupdatedAt : Z;
}.

Record work := {
  wmandateId : string; wstellarOwner : string; wkernelAddress : string;
  wstatus : work_state;
  wattempts : Z;
  wleaseToken : option string;
  wleaseExpiresAt : option Z;
  wuserOpHash : val; wtxHash : val;
  wcreatedAt : Z; wupdatedAt : Z;
}.

Record store := {
  records : gmap string mandate;
  workRows : gmap string work;
  ids : list string;
  issuedLeaseTokens : gset string;
  tokenCounter : Z;
}.
Definition empty : store := {|
  records := ∅; workRows := ∅; ids := []; issuedLeaseTokens := ∅; tokenCounter := 0 |}.

(** [V3_IMMUTABLE_FIELDS] of a record. *)
Definition immutable (f : facts) : list val :=
  [approvalDigest f; policyDigest f; serializedApproval f; Str (sessionKeyDigest f);
   Str (sessionKeyAddress f); capabilityHash f; Str (stellarOwner f); Str (kernelAddress f);
   relayerOrigin f; Number (Num (validUntilSeconds f)); bindingId f; bindingHash f;
   permissionId f].
Definition v3Conflict (existing incoming : facts) : bool :=
  existsb (fun p => negb (strict_eq p.1 p.2)) (zip (immutable existing) (immutable incoming)).

Section Parameters.
(** [createHash('sha256').update(text).digest('hex')] *)
Context (sha256 : chars -> chars).

(** A non-empty text. *)
Definition filled (v : val) : option string :=
  match v with Str s => if decide (s = EmptyString) then None else Some s | _ => None end.
Definition lower_text (s : string) : string := string_of (toLowerCase (chars_of s)).

Definition normalizeV3Record (record : val) : result string (facts * string) :=
  if negb (is_object record || is_array record) then Throw "mandate record is required"
  else
    match filled record#"mandateId" with
    | None => Throw "mandate ID is required"
    | Some id =>
        if negb (tested DIGEST_RE record#"capabilityHash") then Throw "capability hash is required"
        else if negb (tested DIGEST_RE record#"policyDigest")
        then Throw "policy digest is required and must be canonical"
        else if negb (tested DIGEST_RE record#"approvalDigest")
                || negb (tested DIGEST_RE record#"bindingHash")
        then Throw "mandate digest fields are invalid"
        else
          match record#"validUntilSeconds" with
          | Number (Num expiry) =>
              if negb (isSafeInteger (Num expiry)) || (expiry <=? 0)%Z
              then Throw "mandate expiry is invalid"
              else
                match filled record#"stellarOwner", filled record#"kernelAddress",
                      filled record#"sessionKeyAddress", filled record#"sessionPrivateKey" with
                | Some owner, Some kernel, Some session, Some key =>
                    Ok ({| mandateId := id; approvalDigest := record#"approvalDigest";
                           policyDigest := record#"policyDigest";
                           serializedApproval := record#"serializedApproval";
                           sessionKeyDigest := string_of (sha256 (chars_of key));
                           sessionKeyAddress := lower_text session;
                           capabilityHash := record#"capabilityHash"; stellarOwner := owner;
                           kernelAddress := lower_text kernel;
                           relayerOrigin := coalesce record#"relayerOrigin" Null;
                           validUntilSeconds := expiry;
                           bindingId := coalesce record#"bindingId" Null;
                           bindingHash := record#"bindingHash";
                           permissionId := coalesce record#"permissionId" Null |}, key)
                | _, _, _, _ => Throw "mandate identity or session authority is invalid"
                end
          | _ => Throw "mandate expiry is invalid"
          end
    end.
End Parameters.

(** ** What the caller sees *)
Inductive shown := expired | in_state (s : mandate_state).

Record public_mandate := {
  p_about : facts; p_status : shown; p_activationUserOpHash : val; p_activationTxHash : val;
  p_activatedAt : option Z; p_createdAt : Z; p_updatedAt : Z;
}.
(** All but the session key and the hash of the capability. *)
Definition public_facts (f : facts) : facts := {|
  mandateId := mandateId f; approvalDigest := approvalDigest f; policyDigest := policyDigest f;
  serializedApproval := Undefined; sessionKeyDigest := EmptyString;
  sessionKeyAddress := sessionKeyAddress f; capabilityHash := Undefined;
  stellarOwner := stellarOwner f; kernelAddress := kernelAddress f;
  relayerOrigin := relayerOrigin f; validUntilSeconds := validUntilSeconds f;
  bindingId := bindingId f; bindingHash := coalesce (bindingHash f) Null; permissionId := permissionId f |}.
Definition publicMandateV3 (r : mandate) (status : shown) : public_mandate := {|
  p_about := public_facts (about r); p_status := status;
  p_activationUserOpHash := activationUserOpHash r; p_activationTxHash := activationTxHash r;
  p_activatedAt := activatedAt r; p_createdAt := mcreatedAt r; p_updatedAt := mupdatedAt r |}.

(** The record for the relayer itself: the session key only on request, and when there is one. *)
Record internal_mandate := {
  i_about : facts; i_status : mandate_state; i_activationUserOpHash : val;
  i_activationTxHash : val; i_activatedAt : option Z; i_createdAt : Z; i_updatedAt : Z;
  i_sessionPrivateKey : option string;
}.
Definition internal_facts (f : facts) : facts := {|
  mandateId := mandateId f; approvalDigest := approvalDigest f; policyDigest := policyDigest f;
  serializedApproval := serializedApproval f; sessionKeyDigest := EmptyString;
  sessionKeyAddress := sessionKeyAddress f; capabilityHash := capabilityHash f;
  stellarOwner := stellarOwner f; kernelAddress := kernelAddress f;
  relayerOrigin := relayerOrigin f; validUntilSeconds := validUntilSeconds f;
  bindingId := bindingId f; bindingHash := coalesce (bindingHash f) Null; permissionId := permissionId f |}.
Definition internalMandateV3 (r : mandate) (includeSession : bool) : internal_mandate := {|
  i_about := internal_facts (about r); i_status := mstatus r; i_activationUserOpHash := activationUserOpHash r;
  i_activationTxHash := activationTxHash r; i_activatedAt := activatedAt r;
  i_createdAt := mcreatedAt r; i_updatedAt := mupdatedAt r;
  i_sessionPrivateKey := if includeSession then sessionPrivateKey r else None |}.

Record authority := {
  a_mandateId : string; a_stellarOwner : string; a_kernelAddress : string; a_relayerOrigin : val;
  a_validUntilSeconds : Z; a_status : shown; a_bindingId : val; a_bindingHash : val;
  a_capabilityHash : val;
}.
Definition internalMandateAuthorityV3 (r : mandate) (status : shown) : authority :=
  let f := about r in {|
  a_mandateId := mandateId f; a_stellarOwner := stellarOwner f; a_kernelAddress := kernelAddress f;
  a_relayerOrigin := relayerOrigin f; a_validUntilSeconds := validUntilSeconds f;
  a_status := status; a_bindingId := bindingId f; a_bindingHash := coalesce (bindingHash f) Null;
  a_capabilityHash := capabilityHash f |}.

(** ** Operations: a result or an error, and the store either way *)
Definition act (A : Type) : Type := store -> result string A * store.
End Strings.

#[global] Instance act_ret : MRet act := fun A a s => (Ok a, s).
#[global] Instance act_bind : MBind act := fun A B k m s =>
  match m s with (Ok a, s) => k a s | (Throw e, s) => (Throw e, s) end.

Definition raise {A} (e : string) : act A := fun s => (Throw e, s).
Definition check (b : bool) (e : string) : act unit := if b then mret tt else raise e.
Definition look {A} (f : store -> A) : act A := fun s => (Ok (f s), s).
Definition change (f : store -> store) : act unit := fun s => (Ok tt, f s).

Definition set_records (f : gmap string mandate -> gmap string mandate) (s : store) : store := {|
  records := f (records s); workRows := workRows s; ids := ids s;
  issuedLeaseTokens := issuedLeaseTokens s; tokenCounter := tokenCounter s |}.
Definition set_works (f : gmap string work -> gmap string work) (s : store) : store := {|
  records := records s; workRows := f (workRows s); ids := ids s;
  issuedLeaseTokens := issuedLeaseTokens s; tokenCounter := tokenCounter s |}.
Definition id_of (r : mandate) : string := mandateId (about r).
Definition put_mandate (r : mandate) : store -> store := set_records (insert (id_of r) r).
Definition put_work (w : work) : store -> store := set_works (insert (wmandateId w) w).

Section Operations.
Local Open Scope string_scope.
Local Open Scope list_scope.
Context (sha256 : chars -> chars).

(** ** Shared steps *)

(** [{ mandateId, stellarOwner, kernelAddress }] *)
Record identity := { i_mandateId : val; i_stellarOwner : val; i_kernelAddress : val }.

Definition sameV3Identity (r : mandate) (i : identity) : bool :=
  let f := about r in
  strict_eq (Str (mandateId f)) (i_mandateId i) && strict_eq (Str (stellarOwner f)) (i_stellarOwner i)
  && bool_decide (kernelAddress f = lower_text (string_of
       (if truthy (i_kernelAddress i) then coerce (i_kernelAddress i) else []))).

(** [map.get(v)]: keys are strings. *)
Definition lookup_val {A} (m : gmap string A) (v : val) : option A :=
  match v with Str id => m !! id | _ => None end.

Definition recordFor (i : identity) (s : store) : option mandate :=
  match lookup_val (records s) (i_mandateId i) with
  | Some r => if sameV3Identity r i then Some r else None
  | None => None
  end.
Definition workFor (i : identity) (s : store) : option work :=
  match recordFor i s with Some _ => lookup_val (workRows s) (i_mandateId i) | None => None end.

(** [value ?? nowSeconds()], already chosen. *)
Definition effectiveNow (now : num) : act Z :=
  match now with
  | Num z => if isSafeInteger now then mret z else raise "activation time is invalid"
  | _ => raise "activation time is invalid"
  end.

Definition forget_key (r : mandate) : mandate := {|
  about := about r; sessionPrivateKey := None; mstatus := mstatus r;
  activationUserOpHash := activationUserOpHash r; activationTxHash := activationTxHash r;
  activatedAt := activatedAt r; mcreatedAt := mcreatedAt r; mupdatedAt := mupdatedAt r |}.
Definition set_mstatus (r : mandate) (s : mandate_state) (at_ : Z) : mandate := {|
  about := about r; sessionPrivateKey := sessionPrivateKey r; mstatus := s;
  activationUserOpHash := activationUserOpHash r; activationTxHash := activationTxHash r;
  activatedAt := activatedAt r; mcreatedAt := mcreatedAt r; mupdatedAt := at_ |}.
Definition set_activation (r : mandate) (s : mandate_state) (userOp tx : val) (activated at_ : Z) : mandate := {|
  about := about r; sessionPrivateKey := sessionPrivateKey r; mstatus := s;
  activationUserOpHash := userOp; activationTxHash := tx; activatedAt := Some activated;
  mcreatedAt := mcreatedAt r; mupdatedAt := at_ |}.

(** The work row with another status, lease and evidence. *)
Definition set_work (w : work) (s : work_state) (lease : option string) (expires : option Z)
    (userOp tx : val) (at_ : Z) : work := {|
  wmandateId := wmandateId w; wstellarOwner := wstellarOwner w; wkernelAddress := wkernelAddress w;
  wstatus := s; wattempts := wattempts w; wleaseToken := lease; wleaseExpiresAt := expires;
  wuserOpHash := userOp; wtxHash := tx; wcreatedAt := wcreatedAt w; wupdatedAt := at_ |}.
Definition end_work (w : work) (s : work_state) (at_ : Z) : work :=
  set_work w s None None (wuserOpHash w) (wtxHash w) at_.
Definition count_attempt (w : work) : work := {|
  wmandateId := wmandateId w; wstellarOwner := wstellarOwner w; wkernelAddress := wkernelAddress w;
  wstatus := wstatus w; wattempts := wattempts w + 1; wleaseToken := wleaseToken w;
  wleaseExpiresAt := wleaseExpiresAt w; wuserOpHash := wuserOpHash w; wtxHash := wtxHash w;
  wcreatedAt := wcreatedAt w; wupdatedAt := wupdatedAt w |}.

(** What [expireRecord] makes of a mandate and its work once the time is over. *)
Definition expire_pair (r : mandate) (w : option work) (at_ : Z) : mandate * option work :=
  match w with
  | Some w =>
      match wstatus w with
      | pending | running => (forget_key r, None)
      | submitting | submitted =>
          (set_mstatus (forget_key r) activation_uncertain at_, Some (end_work w uncertain at_))
      | done | uncertain => (forget_key r, Some w)
      end
  | None => (forget_key r, None)
  end.

Definition store_pair (id : string) (p : mandate * option work) (s : store) : store :=
  set_works (partial_alter (fun _ => p.2) id) (set_records (insert id p.1) s).

(** Whether a stored mandate is over, and the row after it. *)
Definition expireRecord (r : mandate) (at_ : Z) : act (bool * mandate) :=
  if (at_ <? validUntilSeconds (about r))%Z then mret (false, r)
  else
    w ← look (fun s => workRows s !! id_of r);
    let p := expire_pair r w at_ in
    _ ← change (store_pair (id_of r) p); mret (true, p.1).

(** The mandate is expired, if it is time, before the error. *)
Definition assertMandateLive (r : mandate) (at_ : Z) : act unit :=
  if (validUntilSeconds (about r) <=? at_)%Z then
    _ ← expireRecord r at_; raise "mandate expiry has been reached"
  else mret tt.

Definition assertLease (w : work) (token : val) (at_ : Z) : act unit :=
  match wleaseToken w with
  | None => raise "stale activation lease token"
  | Some t =>
      _ ← check (negb (bool_decide (t = EmptyString)) && strict_eq token (Str t)) "stale activation lease token";
      match wleaseExpiresAt w with
      | Some e => check (isSafeInteger (Num e) && (at_ <? e)%Z) "activation lease has expired"
      | None => raise "activation lease has expired"
      end
  end.

(** The loop of [nextLeaseToken]: the candidate, lengthened until it is new. *)
Fixpoint fresh_token (fuel : nat) (previous : option string) (issued : gset string)
    (candidate : string) (counter : Z) : string * Z :=
  match fuel with
  | O => (candidate, counter)
  | S fuel =>
      if bool_decide (candidate = EmptyString) || bool_decide (previous = Some candidate)
         || bool_decide (candidate ∈ issued)
      then
        let counter := (counter + 1)%Z in
        fresh_token fuel previous issued
          ((if decide (candidate = EmptyString) then "lease" else candidate) +:+ "-"
           +:+ string_of (BigInt_toString counter)) counter
      else (candidate, counter)
  end.

Definition nextLeaseToken (previous : option string) (candidate : string) : act string := fun s =>
  let p := fresh_token (3 + size (issuedLeaseTokens s)) previous (issuedLeaseTokens s) candidate (tokenCounter s) in
  (Ok p.1, {| records := records s; workRows := workRows s; ids := ids s;
              issuedLeaseTokens := {[p.1]} ∪ issuedLeaseTokens s; tokenCounter := p.2 |}).

Definition safe_positive (n : num) (e : string) : act Z :=
  match n with
  | Num z => if isSafeInteger n && (0 <? z)%Z then mret z else raise e
  | _ => raise e
  end.

(** ** Mandates *)
Definition or_none {A B} (o : option A) (k : A -> act (option B)) : act (option B) :=
  match o with Some a => k a | None => mret None end.
Definition shown_of (expired_ : bool) (r : mandate) : shown :=
  if expired_ then expired else in_state (mstatus r).

Definition mandate_authority (id : val) (now : num) : act (option authority) :=
  r ← look (fun s => lookup_val (records s) id);
  or_none r (fun r =>
    at_ ← effectiveNow now;
    p ← expireRecord r at_;
    mret (Some (internalMandateAuthorityV3 p.2 (shown_of p.1 p.2)))).

Definition mandate_get (i : identity) (now : num) : act (option internal_mandate) :=
  r ← look (recordFor i);
  or_none r (fun r =>
    at_ ← effectiveNow now;
    p ← expireRecord r at_;
    mret (Some (internalMandateV3 p.2 (negb p.1 && negb (bool_decide (mstatus p.2 = revoked)))))).

(** [None]: [{ status: 'missing' }]. *)
Definition mandate_status (i : identity) (now : num) : act (option public_mandate) :=
  r ← look (recordFor i);
  or_none r (fun r =>
    at_ ← effectiveNow now;
    p ← expireRecord r at_;
    mret (Some (publicMandateV3 p.2 (shown_of p.1 p.2)))).

Definition mandate_revoke (i : identity) (now : num) : act (option public_mandate) :=
  r ← look (recordFor i);
  or_none r (fun r =>
    at_ ← effectiveNow now;
    p ← expireRecord r at_;
    if p.1 : bool then mret (Some (publicMandateV3 p.2 expired))
    else
      let r := set_mstatus (forget_key r) revoked at_ in
      _ ← change (put_mandate r);
      _ ← change (set_works (delete (id_of r)));
      mret (Some (publicMandateV3 r (in_state revoked)))).

(** ** The work of an activation *)
Definition new_mandate (f : facts) (key : string) (at_ : Z) : mandate := {|
  about := f; sessionPrivateKey := Some key; mstatus := pending_activation;
  activationUserOpHash := Null; activationTxHash := Null; activatedAt := None;
  mcreatedAt := at_; mupdatedAt := at_ |}.
Definition new_work (f : facts) (at_ : Z) : work := {|
  wmandateId := mandateId f; wstellarOwner := stellarOwner f; wkernelAddress := kernelAddress f;
  wstatus := pending; wattempts := 0; wleaseToken := None; wleaseExpiresAt := None;
  wuserOpHash := Null; wtxHash := Null; wcreatedAt := at_; wupdatedAt := at_ |}.
Definition append_id (id : string) (s : store) : store := {|
  records := records s; workRows := workRows s; ids := ids s ++ [id];
  issuedLeaseTokens := issuedLeaseTokens s; tokenCounter := tokenCounter s |}.

Definition lift {A} (m : result string A) : act A := fun s => (m, s).

(** [{ duplicate, mandate, work }] *)
Definition activation_enqueue (input : val) (now : num) : act (bool * public_mandate * option work) :=
  n ← lift (normalizeV3Record sha256 input);
  let '(incoming, key) := n in
  existing ← look (fun s => records s !! mandateId incoming);
  match existing with
  | Some r =>
      at_ ← effectiveNow now;
      p ← expireRecord r at_;
      if v3Conflict (about p.2) incoming then raise "immutable mandate conflict"
      else
        w ← look (fun s => workRows s !! id_of r);
        mret (true, publicMandateV3 p.2 (shown_of p.1 p.2), w)
  | None =>
      at_ ← effectiveNow now;
      if (validUntilSeconds incoming <=? at_)%Z then
        (* the new record is not stored; a work row of its name would be *)
        _ ← change (fun s =>
              set_works (partial_alter (fun w => (expire_pair (new_mandate incoming key at_) w at_).2)
                           (mandateId incoming)) s);
        raise "mandate expiry has been reached"
      else
        let r := new_mandate incoming key at_ in
        let w := new_work incoming at_ in
        _ ← change (put_mandate r);
        _ ← change (put_work w);
        _ ← change (append_id (mandateId incoming));
        mret (false, publicMandateV3 r (in_state pending_activation), Some w)
  end.

Definition activation_get (i : identity) (now : num) : act (option work) :=
  r ← look (recordFor i);
  or_none r (fun r =>
    at_ ← effectiveNow now;
    _ ← expireRecord r at_;
    look (fun s => workRows s !! id_of r)).

(** [Math.min(at + leaseSeconds, validUntilSeconds)] *)
Definition lease_end (r : mandate) (at_ leaseSeconds : Z) : Z :=
  Z.min (at_ + leaseSeconds) (validUntilSeconds (about r)).

Definition activation_claim (i : identity) (now leaseSeconds : num) (candidate : string)
    : act (option work) :=
  r ← look (recordFor i);
  w ← look (workFor i);
  match r, w with
  | Some r, Some w =>
      if negb (bool_decide (wstatus w = pending)) then mret None
      else
        at_ ← effectiveNow now;
        _ ← assertMandateLive r at_;
        leaseSeconds ← safe_positive leaseSeconds "activation lease duration is invalid";
        token ← nextLeaseToken (wleaseToken w) candidate;
        let w := set_work (count_attempt w) running (Some token) (Some (lease_end r at_ leaseSeconds))
                   (wuserOpHash w) (wtxHash w) at_ in
        _ ← change (put_work w);
        mret (Some w)
  | _, _ => mret None
  end.

(** The record and the work that a lease holder works on, checked. *)
Definition with_lease {A} (missing : string) (i : identity) (token : val) (now : num)
    (k : mandate -> work -> Z -> act A) : act A :=
  r ← look (recordFor i);
  w ← look (workFor i);
  match r, w with
  | Some r, Some w =>
      at_ ← effectiveNow now;
      _ ← assertMandateLive r at_;
      _ ← assertLease w token at_;
      k r w at_
  | _, _ => raise missing
  end.

Definition among (s : work_state) (l : list work_state) : bool := bool_decide (s ∈ l).

Definition activation_renew (i : identity) (token : val) (now leaseSeconds : num) : act work :=
  with_lease "stale or missing activation lease" i token now (fun r w at_ =>
    _ ← check (among (wstatus w) [running; submitting; submitted])
          "activation lease is terminal or not renewable";
    leaseSeconds ← safe_positive leaseSeconds "activation lease duration is invalid";
    let w := set_work w (wstatus w) (wleaseToken w) (Some (lease_end r at_ leaseSeconds))
               (wuserOpHash w) (wtxHash w) at_ in
    _ ← change (put_work w); mret w).

Definition activation_checkpoint (i : identity) (token status userOpHash : val) (now : num) : act work :=
  with_lease "activation work is missing" i token now (fun r w at_ =>
    if strict_eq status (Str "submitting") then
      _ ← check (bool_decide (wstatus w = running)) "invalid activation transition";
      let w := set_work w submitting (wleaseToken w) (wleaseExpiresAt w) (wuserOpHash w) (wtxHash w) at_ in
      _ ← change (put_work w); mret w
    else if strict_eq status (Str "submitted") then
      _ ← check (bool_decide (wstatus w = submitting)) "invalid activation transition to submitted";
      _ ← check (tested USER_OP_HASH_RE userOpHash) "submitted user operation hash is invalid";
      let w := set_work w submitted (wleaseToken w) (wleaseExpiresAt w) userOpHash (wtxHash w) at_ in
      _ ← change (put_work w); mret w
    else raise "invalid activation checkpoint state").

(** The evidence that the activation was mined. *)
Definition check_receipt (r : mandate) (w : work) (userOpHash txHash : val) (activated : num)
    (mismatch invalid late : string) : act Z :=
  _ ← check (tested USER_OP_HASH_RE userOpHash && strict_eq userOpHash (wuserOpHash w)) mismatch;
  _ ← check (tested TX_HASH_RE txHash) "activation transaction hash is not canonical";
  activated ← safe_positive activated invalid;
  _ ← check (activated <? validUntilSeconds (about r))%Z late;
  mret activated.

Definition activation_finishActive (i : identity) (token userOpHash txHash : val)
    (activated now : num) : act (public_mandate * option work) :=
  with_lease "stale or terminal activation lease" i token now (fun r w at_ =>
    _ ← check (bool_decide (wstatus w = submitted)) "activation must be submitted before finish";
    activated ← check_receipt r w userOpHash txHash activated
      "submitted user operation hash disagreement" "activation time is invalid"
      "activation time must precede mandate expiry";
    let r := set_activation r active userOpHash txHash activated at_ in
    let w := set_work w done None None (wuserOpHash w) txHash at_ in
    _ ← change (put_mandate r);
    _ ← change (put_work w);
    mret (publicMandateV3 r (in_state active), Some w)).

Definition activation_finishUncertain (i : identity) (token userOpHash txHash : val) (now : num)
    : act (public_mandate * option work) :=
  with_lease "stale or terminal activation lease" i token now (fun r w at_ =>
    _ ← check (among (wstatus w) [submitting; submitted])
          "activation must cross the submitting or submitted fence";
    let given := negb (strict_eq userOpHash Undefined) in
    let mined := negb (strict_eq txHash Undefined) in
    _ ← check (implb given (test USER_OP_HASH_RE userOpHash)) "user operation hash is not canonical";
    _ ← check (implb (bool_decide (wstatus w = submitted) && given) (strict_eq userOpHash (wuserOpHash w)))
          "submitted user operation hash mismatch";
    let retained := coalesce userOpHash (wuserOpHash w) in
    _ ← check (implb mined (test TX_HASH_RE txHash)) "activation transaction hash is not canonical";
    _ ← check (implb mined (truthy retained))
          "transaction evidence requires a canonical user operation hash";
    let r := set_mstatus r activation_uncertain at_ in
    let w := set_work w uncertain None None (if truthy retained then retained else wuserOpHash w)
               (if mined then txHash else wtxHash w) at_ in
    _ ← change (put_mandate r);
    _ ← change (put_work w);
    mret (publicMandateV3 r (in_state activation_uncertain), Some w)).

Definition activation_finishRevoked (i : identity) (token userOpHash txHash : val)
    (activated now : num) : act (public_mandate * option work) :=
  with_lease "stale or terminal activation lease" i token now (fun r w at_ =>
    _ ← check (bool_decide (wstatus w = submitted)) "activation must be submitted before receipt revocation";
    activated ← check_receipt r w userOpHash txHash activated
      "submitted user operation hash mismatch" "activation timestamp is invalid"
      "activation timestamp must precede mandate expiry";
    let r := forget_key (set_activation r revoked userOpHash txHash activated at_) in
    _ ← change (put_mandate r);
    _ ← change (set_works (delete (id_of r)));
    mret (publicMandateV3 r (in_state revoked), None)).

(** ** Sweeps over all rows, in the order of insertion *)
Fixpoint recoverable (at_ : Z) (l : list string) : act (list work) :=
  match l with
  | [] => mret []
  | id :: l =>
      r ← look (fun s => records s !! id);
      match r with
      | None => recoverable at_ l
      | Some r =>
          p ← expireRecord r at_;
          w ← look (fun s => workRows s !! id);
          rest ← recoverable at_ l;
          mret (match w with
                | Some w =>
                    if negb p.1 && bool_decide (mstatus p.2 = pending_activation)
                       && bool_decide (wstatus w = pending)
                    then w :: rest else rest
                | None => rest
                end)
      end
  end.

Definition activation_listRecoverable (now : num) : act (list work) :=
  at_ ← effectiveNow now; l ← look ids; recoverable at_ l.

(** A lease that is over: back to the queue, or of unknown outcome. *)
Definition reconcile_work (w : work) (r : option mandate) (at_ : Z) : act (list work) :=
  match wleaseExpiresAt w with
  | Some e =>
      if negb (among (wstatus w) [running; submitting; submitted]) || negb (isSafeInteger (Num e))
         || (at_ <? e)%Z
      then mret []
      else
        let back := bool_decide (wstatus w = running) in
        let w := end_work w (if back then pending else uncertain) at_ in
        _ ← match r with
            | Some r => if back then mret tt else change (put_mandate (set_mstatus r activation_uncertain at_))
            | None => mret tt
            end;
        _ ← change (put_work w);
        mret [w]
  | None => mret []
  end.

Fixpoint reconcile_works (at_ : Z) (l : list string) : act (list work) :=
  match l with
  | [] => mret []
  | id :: l =>
      w ← look (fun s => workRows s !! id);
      match w with
      | None => reconcile_works at_ l
      | Some w =>
          r ← look (fun s => records s !! wmandateId w);
          over ← match r with
                 | Some r => p ← expireRecord r at_; mret (p.1 : bool)
                 | None => mret false
                 end;
          first ← if over : bool then mret [] else reconcile_work w r at_;
          rest ← reconcile_works at_ l;
          mret (first ++ rest)
      end
  end.

Definition activation_reconcileExpired (now : num) : act (list work) :=
  at_ ← effectiveNow now; l ← look ids; reconcile_works at_ l.

(** ** One interface *)
Inductive call :=
| Authority (id : val) | Get (i : identity) | Status (i : identity) | Revoke (i : identity)
| Enqueue (record : val) | GetWork (i : identity)
| Claim (i : identity) (leaseSeconds : num) (candidate : string)
| Renew (i : identity) (token : val) (leaseSeconds : num)
| Checkpoint (i : identity) (token status userOpHash : val)
| FinishActive (i : identity) (token userOpHash txHash : val) (activated : num)
| FinishUncertain (i : identity) (token userOpHash txHash : val)
| FinishRevoked (i : identity) (token userOpHash txHash : val) (activated : num)
| ListRecoverable
| ReconcileExpired.

Inductive answer :=
| Authorized (a : option authority) | Internal (m : option internal_mandate)
| Public (m : option public_mandate) | Enqueued (duplicate : bool) (m : public_mandate) (w : option work)
| Work (w : option work) | Works (l : list work) | Finished (m : public_mandate) (w : option work).

Definition answered {A} (f : A -> answer) (m : act A) : act answer := a ← m; mret (f a).

Definition perform (c : call) (now : num) : act answer :=
  match c with
  | Authority id => answered Authorized (mandate_authority id now)
  | Get i => answered Internal (mandate_get i now)
  | Status i => answered Public (mandate_status i now)
  | Revoke i => answered Public (mandate_revoke i now)
  | Enqueue record => answered (fun p => Enqueued p.1.1 p.1.2 p.2) (activation_enqueue record now)
  | GetWork i => answered Work (activation_get i now)
  | Claim i leaseSeconds candidate => answered Work (activation_claim i now leaseSeconds candidate)
  | Renew i token leaseSeconds => answered (fun w => Work (Some w)) (activation_renew i token now leaseSeconds)
  | Checkpoint i token status hash =>
      answered (fun w => Work (Some w)) (activation_checkpoint i token status hash now)
  | FinishActive i token hash tx activated =>
      answered (fun p => Finished p.1 p.2) (activation_finishActive i token hash tx activated now)
  | FinishUncertain i token hash tx =>
      answered (fun p => Finished p.1 p.2) (activation_finishUncertain i token hash tx now)
  | FinishRevoked i token hash tx activated =>
      answered (fun p => Finished p.1 p.2) (activation_finishRevoked i token hash tx activated now)
  | ListRecoverable => answered Works (activation_listRecoverable now)
  | ReconcileExpired => answered Works (activation_reconcileExpired now)
  end.

(** The calls one after the other, each at its time. *)
Definition after (s : store) (c : call * num) : store := (perform c.1 c.2 s).2.
Definition run (s : store) (l : list (call * num)) : store := foldl after s l.
End Operations.
End Activation.
