(* ===== verification/MandateSteps.v ===== *)
(** * What the operations on mandates do to their rows

    Every call changes a mandate and its work in one of a few ways, or creates them, and the loop
    that makes a lease token ends.  [MandateSafety] draws the consequences. *)
From S2P Require Export MandateActivation.

Ltac zprop := zbool; repeat match goal with
  | H : bool_decide _ = true |- _ => apply bool_decide_eq_true in H
  | H : bool_decide _ = false |- _ => apply bool_decide_eq_false in H
  | H : Activation.among _ _ = true |- _ => apply bool_decide_eq_true in H
  | H : strict_eq _ (Str _) = true |- _ => apply strict_eq_Str in H; subst
  end.

Section Steps.
Import Activation.
Local Open Scope string_scope.
Local Open Scope list_scope.
Local Open Scope Z_scope.
Context (sha256 : chars -> chars).
Notation perform := (perform sha256).
Notation after := (after sha256).
Notation run := (run sha256).

(** ** The store after a computation *)
Definition final {A} (m : act A) (s : store) : store := (m s).2.

Lemma final_bind {A B} (k : A -> act B) (m : act A) s :
  final (m ≫= k) s = match m s with (Ok a, s') => final (k a) s' | (Throw _, s') => s' end.
Proof. unfold final, mbind, act_bind. by destruct (m s) as [[]]. Qed.

Lemma check_eq b e s : check b e s = (if b then Ok tt else Throw e, s).
Proof. by destruct b. Qed.

Lemma effectiveNow_eq now s : effectiveNow now s =
  (match now with
   | Num z => if isSafeInteger (Num z) then Ok z else Throw "activation time is invalid"
   | _ => Throw "activation time is invalid" end, s).
Proof. unfold effectiveNow. destruct now as [z| | |]; try done. by destruct (isSafeInteger (Num z)). Qed.

Lemma safe_positive_eq n e s : safe_positive n e s =
  (match n with Num z => if isSafeInteger (Num z) && (0 <? z) then Ok z else Throw e | _ => Throw e end, s).
Proof. unfold safe_positive. destruct n as [z| | |]; try done. by destruct (_ && _). Qed.

(** ** The changes of one mandate and its work *)
Definition token_of (c : call) : val :=
  match c with
  | Renew _ t _ | Checkpoint _ t _ _ | FinishActive _ t _ _ _ | FinishUncertain _ t _ _
  | FinishRevoked _ t _ _ _ => t
  | _ => Undefined
  end.

(** The call shows the token of a lease that runs. *)
Definition holds_lease (c : call) (w : work) (at_ : Z) : Prop :=
  exists t e, wleaseToken w = Some t /\ token_of c = Str t /\ t <> EmptyString /\
    wleaseExpiresAt w = Some e /\ at_ < e.

Inductive moved (c : call) (at_ : Z) (issued issued' : gset string) (r : mandate)
  : option work -> mandate -> option work -> Prop :=
| mv_expire w : validUntilSeconds (about r) <= at_ ->
    moved c at_ issued issued' r w (expire_pair r w at_).1 (expire_pair r w at_).2
| mv_revoke w i : c = Revoke i -> at_ < validUntilSeconds (about r) ->
    moved c at_ issued issued' r w (set_mstatus (forget_key r) revoked at_) None
| mv_claim w t z : wstatus w = pending -> at_ < validUntilSeconds (about r) -> t <> EmptyString ->
    t ∉ issued -> t ∈ issued' -> 0 < z ->
    moved c at_ issued issued' r (Some w) r
      (Some (set_work (count_attempt w) running (Some t) (Some (lease_end r at_ z)) (wuserOpHash w) (wtxHash w) at_))
| mv_renew w z : holds_lease c w at_ -> at_ < validUntilSeconds (about r) ->
    wstatus w ∈ [running; submitting; submitted] -> 0 < z ->
    moved c at_ issued issued' r (Some w) r
      (Some (set_work w (wstatus w) (wleaseToken w) (Some (lease_end r at_ z)) (wuserOpHash w) (wtxHash w) at_))
| mv_submitting w i t h : c = Checkpoint i t (Str "submitting") h -> holds_lease c w at_ ->
    at_ < validUntilSeconds (about r) -> wstatus w = running ->
    moved c at_ issued issued' r (Some w) r
      (Some (set_work w submitting (wleaseToken w) (wleaseExpiresAt w) (wuserOpHash w) (wtxHash w) at_))
| mv_submitted w h : holds_lease c w at_ -> at_ < validUntilSeconds (about r) -> wstatus w = submitting ->
    tested USER_OP_HASH_RE h = true ->
    moved c at_ issued issued' r (Some w) r
      (Some (set_work w submitted (wleaseToken w) (wleaseExpiresAt w) h (wtxHash w) at_))
| mv_active w h tx a : holds_lease c w at_ -> at_ < validUntilSeconds (about r) -> wstatus w = submitted ->
    tested USER_OP_HASH_RE h = true -> strict_eq h (wuserOpHash w) = true -> tested TX_HASH_RE tx = true ->
    0 < a < validUntilSeconds (about r) ->
    moved c at_ issued issued' r (Some w) (set_activation r active h tx a at_)
      (Some (set_work w done None None (wuserOpHash w) tx at_))
| mv_uncertain w h tx : holds_lease c w at_ -> at_ < validUntilSeconds (about r) ->
    wstatus w ∈ [submitting; submitted] ->
    moved c at_ issued issued' r (Some w) (set_mstatus r activation_uncertain at_)
      (Some (set_work w uncertain None None h tx at_))
| mv_receipt w h tx a : holds_lease c w at_ -> at_ < validUntilSeconds (about r) -> wstatus w = submitted ->
    moved c at_ issued issued' r (Some w) (forget_key (set_activation r revoked h tx a at_)) None
| mv_requeue w e : wleaseExpiresAt w = Some e -> e <= at_ -> at_ < validUntilSeconds (about r) -> wstatus w = running ->
    moved c at_ issued issued' r (Some w) r (Some (end_work w pending at_))
| mv_lapsed w e : wleaseExpiresAt w = Some e -> e <= at_ -> at_ < validUntilSeconds (about r) ->
    wstatus w ∈ [submitting; submitted] ->
    moved c at_ issued issued' r (Some w) (set_mstatus r activation_uncertain at_) (Some (end_work w uncertain at_)).

(** ** One change of the store *)
Inductive step (c : call) (at_ : Z) (s s' : store) : Prop :=
| step_move id r r' w' :
    records s !! id = Some r ->
    moved c at_ (issuedLeaseTokens s) (issuedLeaseTokens s') r (workRows s !! id) r' w' ->
    records s' = <[id := r']> (records s) ->
    workRows s' = partial_alter (fun _ => w') id (workRows s) ->
    issuedLeaseTokens s ⊆ issuedLeaseTokens s' -> step c at_ s s'
| step_new input f k :
    c = Enqueue input -> normalizeV3Record sha256 input = Ok (f, k) -> at_ < validUntilSeconds f ->
    records s !! mandateId f = None ->
    records s' = <[mandateId f := new_mandate f k at_]> (records s) ->
    workRows s' = <[mandateId f := new_work f at_]> (workRows s) ->
    issuedLeaseTokens s' = issuedLeaseTokens s -> step c at_ s s'
| step_tokens : records s' = records s -> workRows s' = workRows s ->
    issuedLeaseTokens s ⊆ issuedLeaseTokens s' -> step c at_ s s'.

(** Rows are filed under their identifiers, and no work is without its mandate. *)
Record filed (s : store) : Prop := {
  fi_records : forall id r, records s !! id = Some r -> id_of r = id;
  fi_works : forall id w, workRows s !! id = Some w -> wmandateId w = id;
  fi_owned : forall id, records s !! id = None -> workRows s !! id = None;
}.

Lemma moved_about c at_ i1 i2 r w r' w' : moved c at_ i1 i2 r w r' w' -> about r' = about r.
Proof. destruct 1; try done. unfold expire_pair. by repeat case_match. Qed.

Lemma expire_pair_eq r w at_ :
  about (expire_pair r w at_).1 = about r /\ sessionPrivateKey (expire_pair r w at_).1 = None.
Proof. unfold expire_pair. by repeat case_match. Qed.

Lemma moved_work c at_ i1 i2 r w r' w' : moved c at_ i1 i2 r w r' (Some w') ->
  exists w0, w = Some w0 /\ wmandateId w' = wmandateId w0.
Proof.
  inversion 1; subst; try (eexists; split; [reflexivity|reflexivity]).
  match goal with H : _ = Some w' |- _ => unfold expire_pair in H end. destruct w as [w|]; [|done].
  destruct (wstatus w); simplify_eq/=; eauto.
Qed.

Lemma filed_step c at_ s s' : filed s -> step c at_ s s' -> filed s'.
Proof.
  intros [H1 H2 H3] [id r r' w' Hr Hm Hrs Hws _|input f k _ _ _ Hn Hrs Hws _|Hrs Hws _]; split; rewrite ?Hrs, ?Hws.
  - intros id' x. destruct (decide (id' = id)) as [->|Hne].
    + rewrite lookup_insert_eq. intros [= <-]. unfold id_of. rewrite (moved_about _ _ _ _ _ _ _ _ Hm). by apply H1.
    + rewrite lookup_insert_ne by done. apply H1.
  - intros id' x. destruct (decide (id' = id)) as [->|Hne].
    + rewrite lookup_partial_alter_eq. intros ->. apply moved_work in Hm as (w0 & Hw & ->). by apply H2.
    + rewrite lookup_partial_alter_ne by done. apply H2.
  - intros id' Hn. destruct (decide (id' = id)) as [->|Hne]; [by rewrite lookup_insert_eq in Hn|].
    rewrite lookup_insert_ne in Hn by done. rewrite lookup_partial_alter_ne by done. by apply H3.
  - intros id' x. destruct (decide (id' = mandateId f)) as [->|Hne].
    + rewrite lookup_insert_eq. by intros [= <-].
    + rewrite lookup_insert_ne by done. apply H1.
  - intros id' x. destruct (decide (id' = mandateId f)) as [->|Hne].
    + rewrite lookup_insert_eq. by intros [= <-].
    + rewrite lookup_insert_ne by done. apply H2.
  - intros id' Hn'. destruct (decide (id' = mandateId f)) as [->|Hne]; [by rewrite lookup_insert_eq in Hn'|].
    rewrite lookup_insert_ne in Hn' by done. rewrite lookup_insert_ne by done. by apply H3.
  - done.
  - done.
  - done.
Qed.

(** ** The calls, one by one *)
Lemma expire_eq r at_ s : expireRecord r at_ s =
  if validUntilSeconds (about r) <=? at_
  then (Ok (true, (expire_pair r (workRows s !! id_of r) at_).1),
        store_pair (id_of r) (expire_pair r (workRows s !! id_of r) at_) s)
  else (Ok (false, r), s).
Proof.
  unfold expireRecord. rewrite (Z.leb_antisym at_), if_negb. destruct (at_ <? _); done.
Qed.

Lemma store_pair_step c at_ s id r r' w' : records s !! id = Some r ->
  moved c at_ (issuedLeaseTokens s) (issuedLeaseTokens s) r (workRows s !! id) r' w' ->
  step c at_ s (store_pair id (r', w') s).
Proof. intros Hr Hm. by eapply step_move. Qed.

Lemma put_both_step c at_ s id r r' w w' : records s !! id = Some r -> workRows s !! id = Some w ->
  id_of r' = id -> wmandateId w' = id ->
  moved c at_ (issuedLeaseTokens s) (issuedLeaseTokens s) r (Some w) r' (Some w') ->
  step c at_ s (put_work w' (put_mandate r' s)).
Proof.
  intros Hr Hw H1 H2 Hm. eapply step_move with (id := id) (w' := Some w').
  - done.
  - by rewrite Hw.
  - cbn. by rewrite H1.
  - cbn. by rewrite H2.
  - done.
Qed.

Lemma put_work_step c at_ s s1 id r w w' : records s !! id = Some r -> workRows s !! id = Some w ->
  wmandateId w' = id -> records s1 = records s -> workRows s1 = workRows s ->
  issuedLeaseTokens s ⊆ issuedLeaseTokens s1 ->
  moved c at_ (issuedLeaseTokens s) (issuedLeaseTokens s1) r (Some w) r (Some w') ->
  step c at_ s (put_work w' s1).
Proof.
  intros Hr Hw Hid H1 H2 H3 Hm. eapply step_move with (id := id) (r' := r) (w' := Some w').
  - done.
  - by rewrite Hw.
  - cbn. by rewrite H1, insert_id.
  - cbn. by rewrite Hid, H2.
  - done.
Qed.

Lemma drop_work_step c at_ s id r w r' : records s !! id = Some r -> workRows s !! id = w -> id_of r' = id ->
  moved c at_ (issuedLeaseTokens s) (issuedLeaseTokens s) r w r' None ->
  step c at_ s (set_works (delete (id_of r')) (put_mandate r' s)).
Proof.
  intros Hr Hw Hid Hm. eapply step_move with (id := id) (r' := r') (w' := None).
  - done.
  - by rewrite Hw.
  - cbn. by rewrite Hid.
  - cbn. by rewrite Hid.
  - done.
Qed.

Lemma expire_steps c at_ s r : records s !! id_of r = Some r ->
  rtc (step c at_) s (final (expireRecord r at_) s).
Proof.
  intros Hr. unfold final. rewrite expire_eq. destruct (_ <=? _) eqn:E; [|done]. cbn [snd]. apply rtc_once.
  rewrite (surjective_pairing (expire_pair _ _ _)). apply store_pair_step with r; [done|]. apply mv_expire. by zbool.
Qed.

Lemma recordFor_Some i s r : recordFor i s = Some r ->
  i_mandateId i = Str (id_of r) /\ records s !! id_of r = Some r /\ sameV3Identity r i = true.
Proof.
  unfold recordFor, lookup_val. destruct (i_mandateId i) as [| | | | | |id| |] eqn:Hi; try done.
  destruct (records s !! id) as [r'|] eqn:Hr; [|done]. destruct (sameV3Identity r' i) eqn:Hs; [|done].
  intros [= <-]. assert (id = id_of r') as ->; [|done]. unfold sameV3Identity in Hs. rewrite Hi in Hs.
  zbool. by match goal with H : strict_eq _ (Str id) = true |- _ => apply strict_eq_eq in H; injection H end.
Qed.

Lemma workFor_Some i s r w : recordFor i s = Some r -> workFor i s = Some w -> workRows s !! id_of r = Some w.
Proof.
  intros Hr. pose proof (recordFor_Some _ _ _ Hr) as (Hi & _). unfold workFor. rewrite Hr, Hi. done.
Qed.
(** The time a call is for, when it is one. *)
Definition time_of (now : num) : Z := match now with Num z => z | _ => 0 end.

Lemma effective_steps {A} c s now (k : Z -> act A) :
  (forall at_, now = Num at_ -> rtc (step c (time_of now)) s (final (k at_) s)) ->
  rtc (step c (time_of now)) s (final (at_ ← effectiveNow now; k at_) s).
Proof.
  intros Hk. rewrite final_bind, effectiveNow_eq. destruct now as [z| | |]; try done.
  destruct (isSafeInteger (Num z)); [|done]. by apply Hk.
Qed.

Lemma check_steps {A} c at_ s b e (k : unit -> act A) :
  (b = true -> rtc (step c at_) s (final (k tt) s)) ->
  rtc (step c at_) s (final (u ← check b e; k u) s).
Proof. intros Hk. rewrite final_bind, check_eq. destruct b; [by apply Hk|done]. Qed.

Lemma positive_steps {A} c at_ s n e (k : Z -> act A) :
  (forall z, n = Num z -> 0 < z -> rtc (step c at_) s (final (k z) s)) ->
  rtc (step c at_) s (final (z ← safe_positive n e; k z) s).
Proof.
  intros Hk. rewrite final_bind, safe_positive_eq. destruct n as [z| | |]; try done.
  destruct (isSafeInteger (Num z) && _) eqn:E; [|done]. zbool. by apply Hk.
Qed.

(** A mandate is first expired, when it is time. *)
Lemma expired_steps {A} c at_ s r (k : bool * mandate -> act A) : records s !! id_of r = Some r ->
  (forall p s', rtc (step c at_) s s' -> rtc (step c at_) s (final (k p) s')) ->
  rtc (step c at_) s (final (p ← expireRecord r at_; k p) s).
Proof.
  intros Hr Hk. pose proof (expire_steps c at_ s r Hr) as Hs. rewrite final_bind. unfold final in Hs.
  rewrite expire_eq in *. destruct (_ <=? _); by apply Hk.
Qed.

(** A read of the store, and a mandate that must be there. *)
Lemma for_record_steps {A} c s (o : option mandate) now (k : mandate -> Z -> act (option A)) :
  (forall r at_, o = Some r -> now = Num at_ -> rtc (step c (time_of now)) s (final (k r at_) s)) ->
  rtc (step c (time_of now)) s (final (or_none o (fun r => at_ ← effectiveNow now; k r at_)) s).
Proof.
  intros Hk. destruct o as [r|]; [|done]. cbn [or_none]. apply effective_steps. intros at_ ->. by apply Hk.
Qed.

(** The holder of a lease works on rows that are there and agree with it. *)
Lemma with_lease_steps {A} missing i now c s (k : mandate -> work -> Z -> act A) :
  (forall r w at_, now = Num at_ -> recordFor i s = Some r -> workFor i s = Some w ->
    holds_lease c w at_ -> at_ < validUntilSeconds (about r) ->
    rtc (step c (time_of now)) s (final (k r w at_) s)) ->
  rtc (step c (time_of now)) s (final (with_lease missing i (token_of c) now k) s).
Proof.
  intros Hk. unfold with_lease. rewrite final_bind. cbn. rewrite final_bind. cbn.
  destruct (recordFor i s) as [r|] eqn:Hr; [|done]. destruct (workFor i s) as [w|] eqn:Hw; [|done].
  apply effective_steps. intros at_ ->. cbn [time_of]. rewrite final_bind. unfold assertMandateLive.
  destruct (_ <=? _) eqn:E.
  - pose proof (expire_steps c at_ s r (proj1 (proj2 (recordFor_Some _ _ _ Hr)))) as H.
    unfold mbind, act_bind. unfold final in H. rewrite expire_eq, E in *. exact H.
  - cbn. zbool. rewrite final_bind. unfold assertLease. destruct (wleaseToken w) as [t|] eqn:Ht; [|done].
    unfold mbind, act_bind. rewrite check_eq. destruct (_ && strict_eq _ _) eqn:Htok; [|done].
    destruct (wleaseExpiresAt w) as [e|] eqn:He; [|done]. rewrite check_eq.
    destruct (isSafeInteger _ && _) eqn:Hl; [|done]. zbool.
    eapply Hk; [done..| |done]. exists t, e. split_and!; try done.
    + by apply strict_eq_eq.
    + by match goal with H : bool_decide _ = false |- _ => apply bool_decide_eq_false in H end.
Qed.

Lemma answered_final {A} (f : A -> answer) (m : act A) s : final (answered f m) s = final m s.
Proof. unfold answered. rewrite final_bind. unfold final. by destruct (m s) as [[] ?]. Qed.

(** ** Lease tokens

    Every candidate that is refused is lengthened, so the candidates are different from one
    another, and one of the first is new. *)
Definition longer (candidate : string) (counter : Z) : string :=
  (if decide (candidate = EmptyString) then "lease" else candidate) +:+ "-"
    +:+ string_of (BigInt_toString counter).

Lemma longer_length candidate counter : (length (chars_of candidate) < length (chars_of (longer candidate counter)))%nat.
Proof.
  unfold longer. rewrite !chars_of_app, !length_app. destruct (decide _) as [->|]; cbn; lia.
Qed.

Lemma size_union_le (X Y : gset string) : (size (X ∪ Y) <= size X + size Y)%nat.
Proof. rewrite size_union_alt. pose proof (subseteq_size (Y ∖ X) Y ltac:(set_solver)). lia. Qed.

(** Enough fuel: more than the issued tokens that are as long as the candidate, and one for the
    previous token and one for the empty candidate. *)
Definition as_long (n : nat) (s : string) : Prop := (n <= length (chars_of s))%nat.
#[local] Instance as_long_dec n s : Decision (as_long n s).
Proof. unfold as_long. apply _. Defined.

Lemma fresh_token_settles fuel previous issued candidate counter :
  let seen : gset string := filter (as_long (length (chars_of candidate)))
    (issued ∪ {[EmptyString]} ∪ default ∅ ((fun t => {[t]}) <$> previous)) in
  (size seen < fuel)%nat ->
  let p := fresh_token fuel previous issued candidate counter in
  p.1 <> EmptyString /\ previous <> Some p.1 /\ p.1 ∉ issued.
Proof.
  revert candidate counter. induction fuel as [|fuel IH]; intros candidate counter seen Hs; [lia|]. cbn [fresh_token].
  destruct (_ || _) eqn:E; [|by zprop].
  apply IH. set (all := issued ∪ _ ∪ _) in *. apply Nat.lt_le_trans with (size seen); [|lia].
  apply subset_size. split.
  - intros t. unfold seen. rewrite !elem_of_filter. pose proof (longer_length candidate (counter + 1)) as Hl.
    unfold as_long, longer in *. intros [? ?]. split; [lia|done].
  - intros Hsub. assert (candidate ∈ seen) as Hc.
    { unfold seen. apply elem_of_filter. split; [by unfold as_long|]. unfold all.
      apply orb_true_iff in E as [[E|E]%orb_true_iff|E]; apply bool_decide_eq_true in E; subst; set_solver. }
    apply Hsub, elem_of_filter in Hc as [Hc _]. pose proof (longer_length candidate (counter + 1)) as Hl.
    unfold as_long, longer in *. lia.
Qed.

Lemma fresh_token_new previous issued candidate counter :
  let p := fresh_token (3 + size issued) previous issued candidate counter in
  p.1 <> EmptyString /\ previous <> Some p.1 /\ p.1 ∉ issued.
Proof.
  apply fresh_token_settles. eapply Nat.le_lt_trans; [apply subseteq_size; intros t Ht; apply elem_of_filter in Ht; apply Ht|].
  eapply Nat.le_lt_trans; [apply size_union_le|]. 
  pose proof (size_union_le issued {[EmptyString]}). rewrite size_singleton in *.
  assert (size (default ∅ ((fun t : string => {[t]}) <$> previous) : gset string) <= 1)%nat.
  { destruct previous; cbn; [by rewrite size_singleton|rewrite size_empty; lia]. }
  lia.
Qed.

(** The rows of a lease holder are filed. *)
Ltac work_there Hr Hw :=
  pose proof (workFor_Some _ _ _ _ Hr Hw);
  pose proof (fi_works _ ltac:(eassumption) _ _ (workFor_Some _ _ _ _ Hr Hw));
  apply recordFor_Some in Hr as (_ & Hr & _).

(** A checked receipt names the operation that was submitted, and a time before the end. *)
Lemma check_receipt_steps {A} c at_ s r w h tx a e1 e2 e3 (k : Z -> act A) :
  (forall z, tested USER_OP_HASH_RE h = true -> strict_eq h (wuserOpHash w) = true ->
    tested TX_HASH_RE tx = true -> 0 < z < validUntilSeconds (about r) ->
    rtc (step c at_) s (final (k z) s)) ->
  rtc (step c at_) s (final (z ← check_receipt r w h tx a e1 e2 e3; k z) s).
Proof.
  intros Hk. rewrite final_bind. unfold check_receipt, mbind, act_bind. rewrite check_eq.
  destruct (_ && _) eqn:E1; [|done]. rewrite check_eq. destruct (tested TX_HASH_RE tx) eqn:E2; [|done].
  rewrite safe_positive_eq. destruct a as [z| | |]; try done. destruct (isSafeInteger _ && _) eqn:E3; [|done].
  rewrite check_eq. destruct (_ <? validUntilSeconds _) eqn:E4; [|done]. cbn. zbool. by apply Hk.
Qed.

(** ** The sweeps *)
Lemma filed_steps c at_ s s' : filed s -> rtc (step c at_) s s' -> filed s'.
Proof. intros Hf Hs. induction Hs as [|s1 s2 s3 H1 _ IH]; [done|]. by apply IH, (filed_step c at_ s1). Qed.

Lemma bind_steps {A B} c at_ s (m : act A) (k : A -> act B) : filed s ->
  rtc (step c at_) s (final m s) ->
  (forall a s', filed s' -> m s = (Ok a, s') -> rtc (step c at_) s' (final (k a) s')) ->
  rtc (step c at_) s (final (m ≫= k) s).
Proof.
  intros Hf Hm Hk. rewrite final_bind. pose proof (filed_steps _ _ _ _ Hf Hm) as Hf'. unfold final in *.
  destruct (m s) as [[a|e] s']; cbn in *; [|done]. transitivity s'; [done|]. by apply Hk.
Qed.

Lemma recoverable_steps c at_ l s : filed s -> rtc (step c at_) s (final (recoverable at_ l) s).
Proof.
  revert s. induction l as [|id l IH]; intros s Hf; [done|]. cbn [recoverable]. rewrite final_bind. cbn.
  destruct (records s !! id) as [r|] eqn:Hr; [|by apply IH].
  apply bind_steps; [done|apply expire_steps; by rewrite (fi_records s Hf _ _ Hr)|]. intros p s' Hf' _.
  rewrite final_bind. cbn. apply bind_steps; [done|by apply IH|]. done.
Qed.

(** A lease that is over is given up, with the mandate it is for. *)
Lemma reconcile_work_steps c at_ s id r w : filed s -> records s !! id = Some r -> workRows s !! id = Some w ->
  at_ < validUntilSeconds (about r) -> rtc (step c at_) s (final (reconcile_work w (Some r) at_) s).
Proof.
  intros Hf Hr Hw Ht. unfold reconcile_work. destruct (wleaseExpiresAt w) as [e|] eqn:He; [|done].
  destruct (_ || _) eqn:E; [done|]. zprop. apply rtc_once.
  pose proof (fi_records s Hf _ _ Hr) as Hid. pose proof (fi_works s Hf _ _ Hw) as Hid'.
  destruct (bool_decide (wstatus w = running)) eqn:Hrun; zprop.
  - eapply (put_work_step _ _ _ _ id); try done. by eapply mv_requeue.
  - eapply (put_both_step _ _ _ id); try done. eapply mv_lapsed; try done. set_solver.
Qed.

Lemma reconcile_works_steps c at_ l s : filed s -> rtc (step c at_) s (final (reconcile_works at_ l) s).
Proof.
  revert s. induction l as [|id l IH]; intros s Hf; [done|]. cbn [reconcile_works]. rewrite final_bind. cbn.
  destruct (workRows s !! id) as [w|] eqn:Hw; [|by apply IH]. pose proof (fi_works s Hf _ _ Hw) as ->.
  rewrite final_bind. cbn.
  destruct (records s !! id) as [r|] eqn:Hr; [|by rewrite (fi_owned s Hf) in Hw].
  pose proof (fi_records s Hf _ _ Hr) as Hid. apply bind_steps; [done| |].
  - apply expired_steps; [by rewrite Hid|]. by intros p s' Hs.
  - intros over s' Hf' Hm. unfold mbind, act_bind in Hm. rewrite expire_eq in Hm.
    destruct (_ <=? _) eqn:E; injection Hm as <- <-.
    + apply bind_steps; [done..|]. intros first s' Hf'' [= <- <-]. apply bind_steps; [done|by apply IH|done].
    + zbool. apply bind_steps; [done|by eapply reconcile_work_steps|]. intros a s' Hf'' _.
      apply bind_steps; [done|by apply IH|done].
Qed.

(** One call takes the store through changes of single mandates. *)
Lemma after_steps c now s : filed s -> rtc (step c (time_of now)) s (after s (c, now)).
Proof.
  intros Hf. unfold after. cbn [fst snd]. change ((perform c now s).2) with (final (perform c now) s).
  destruct c as [id|i|i|i|record|i|i lease candidate|i token lease|i token status h|i token h tx a|i token h tx
    |i token h tx a| |]; cbn [perform]; rewrite answered_final.
  - unfold mandate_authority. rewrite final_bind. cbn. apply for_record_steps. intros r at_ Hr ->. cbn.
    apply expired_steps; [|done]. unfold lookup_val in Hr. destruct id; try done. by rewrite (fi_records s Hf _ _ Hr).
  - unfold mandate_get. rewrite final_bind. cbn. apply for_record_steps. intros r at_ Hr ->. cbn.
    apply expired_steps; [|done]. by apply recordFor_Some in Hr as (_ & ? & _).
  - unfold mandate_status. rewrite final_bind. cbn. apply for_record_steps. intros r at_ Hr ->. cbn.
    apply expired_steps; [|done]. by apply recordFor_Some in Hr as (_ & ? & _).
  - unfold mandate_revoke. rewrite final_bind. cbn. apply for_record_steps. intros r at_ Hr ->. cbn.
    apply recordFor_Some in Hr as (_ & Hr & _). pose proof (expire_steps (Revoke i) at_ s r Hr) as Hs.
    unfold final in Hs. rewrite final_bind. rewrite expire_eq in *. destruct (_ <=? _) eqn:E; [exact Hs|].
    zbool. apply rtc_once. by eapply (drop_work_step _ _ _ (id_of r)), mv_revoke.
  - unfold activation_enqueue. rewrite final_bind. unfold lift.
    destruct (normalizeV3Record sha256 record) as [[f k]|e] eqn:En; [|done]. rewrite final_bind. cbn -[v3Conflict].
    destruct (records s !! mandateId f) as [r|] eqn:Hr.
    + apply effective_steps. intros at_ ->. cbn [time_of].
      assert (id_of r = mandateId f) as Hid by apply (fi_records s Hf _ _ Hr).
      apply expired_steps; [by rewrite Hid|]. intros p s' Hs.
      destruct (v3Conflict (about p.2) f); [exact Hs|]. rewrite final_bind. exact Hs.
    + apply effective_steps. intros at_ ->. cbn [time_of]. destruct (_ <=? _) eqn:E.
      * apply rtc_once, step_tokens; [done| |done].
        change (partial_alter (fun w => (expire_pair (new_mandate f k at_) w at_).2) (mandateId f) (workRows s)
                = workRows s).
        apply partial_alter_id. by rewrite (fi_owned s Hf).
      * zbool. rewrite !final_bind. apply rtc_once. by eapply (step_new _ _ _ _ record f k).
  - unfold activation_get. rewrite final_bind. cbn. apply for_record_steps. intros r at_ Hr ->. cbn.
    apply expired_steps; [|done]. by apply recordFor_Some in Hr as (_ & ? & _).
  - unfold activation_claim. rewrite !final_bind. cbn. rewrite final_bind. cbn.
    destruct (recordFor i s) as [r|] eqn:Hr; [|done]. destruct (workFor i s) as [w|] eqn:Hw; [|done].
    destruct (negb _) eqn:Hp; [done|]. apply effective_steps. intros at_ ->. cbn [time_of].
    pose proof (recordFor_Some _ _ _ Hr) as (_ & Hr' & _). pose proof (workFor_Some _ _ _ _ Hr Hw) as Hw'.
    pose proof (expire_steps (Claim i lease candidate) at_ s r Hr') as Hs. 
    rewrite final_bind. unfold assertMandateLive. unfold final in Hs. rewrite expire_eq in Hs.
    destruct (_ <=? _) eqn:E; [unfold mbind at 1, act_bind at 1; rewrite expire_eq, E; exact Hs|]. cbn.
    apply positive_steps. intros z -> Hz. rewrite final_bind. unfold nextLeaseToken.
    match goal with |- context [fresh_token ?n ?p ?x ?c ?k] => pose proof (fresh_token_new p x c k) as Hn; cbv zeta in Hn;
      destruct (fresh_token n p x c k) as [t k'] end. destruct Hn as (Hn1 & Hn2 & Hn3).
    apply negb_false_iff in Hp. zprop. apply rtc_once. pose proof (fi_works s Hf _ _ Hw') as Hid.
    eapply (put_work_step _ _ _ _ (id_of r)); [done|done|done|done|done| |].
    + cbn. set_solver.
    + cbn [issuedLeaseTokens]. eapply mv_claim; try done. set_solver.
  - apply (with_lease_steps _ i now (Renew i token lease)). intros r w at_ -> Hr Hw Hl Ht. cbn [time_of].
    apply check_steps. intros Hs. apply positive_steps. intros z -> Hz. apply rtc_once.
    work_there Hr Hw. eapply put_work_step; try done. zprop. by apply mv_renew.
  - apply (with_lease_steps _ i now (Checkpoint i token status h)). intros r w at_ -> Hr Hw Hl Ht. cbn [time_of].
    work_there Hr Hw.
    destruct (strict_eq status (Str "submitting")) eqn:E1; [|destruct (strict_eq status (Str "submitted")) eqn:E2; [|apply rtc_refl]].
    + apply check_steps. intros Hs. zprop. apply rtc_once. eapply put_work_step; try done. by eapply mv_submitting.
    + apply check_steps. intros Hs. apply check_steps. intros Hh. zprop. apply rtc_once.
      eapply put_work_step; try done. by eapply mv_submitted.
  - apply (with_lease_steps _ i now (FinishActive i token h tx a)). intros r w at_ -> Hr Hw Hl Ht. cbn [time_of].
    apply check_steps. intros Hs. apply check_receipt_steps. intros z Hh Heq Htx Hz. zprop. apply rtc_once.
    work_there Hr Hw. eapply put_both_step; try done. by apply mv_active.
  - apply (with_lease_steps _ i now (FinishUncertain i token h tx)). intros r w at_ -> Hr Hw Hl Ht. cbn [time_of].
    apply check_steps. intros Hs. do 4 (apply check_steps; intros _). zprop. apply rtc_once.
    work_there Hr Hw. eapply put_both_step; try done. by apply mv_uncertain.
  - apply (with_lease_steps _ i now (FinishRevoked i token h tx a)). intros r w at_ -> Hr Hw Hl Ht. cbn [time_of].
    apply check_steps. intros Hs. apply check_receipt_steps. intros z Hh Heq Htx Hz. zprop. apply rtc_once.
    work_there Hr Hw. by eapply (drop_work_step _ _ _ (id_of r)), mv_receipt.
  - apply effective_steps. intros at_ ->. rewrite final_bind. by apply recoverable_steps.
  - apply effective_steps. intros at_ ->. rewrite final_bind. by apply reconcile_works_steps.
Qed.

End Steps.
