(* ===== verification/MandateSafety.v ===== *)
(** * What holds of every run of the mandate stores

    The rows of a mandate and of its activation agree; an activation is submitted at most once;
    the lease that was taken from a worker never comes back; the session key is given to its
    owner only, while the mandate lasts. *)
From S2P Require Export MandateSteps.

Section Safety.
Import Activation.
Local Open Scope string_scope.
Local Open Scope list_scope.
Local Open Scope Z_scope.
Context (sha256 : chars -> chars).
Notation perform := (perform sha256).
Notation after := (after sha256).
Notation run := (run sha256).
Notation step := (step sha256).

(** ** Runs as changes *)
Lemma filed_empty : filed empty.
Proof. by split. Qed.

Lemma rows_filed_after s c now : filed s -> filed (after s (c, now)).
Proof. intros Hf. by eapply filed_steps, after_steps. Qed.

(** What every change of a call preserves, every run does. *)
Lemma run_ind (P : store -> Prop) s l :
  (forall c now s1 s2, (c, now) ∈ l -> filed s1 -> P s1 -> step c (time_of now) s1 s2 -> P s2) ->
  filed s -> P s -> filed (run s l) /\ P (run s l).
Proof.
  revert s. induction l as [|[c now] l IH]; intros s Hstep Hf HP; [done|]. cbn.
  apply IH; [|by apply rows_filed_after|].
  { intros c' now' s1 s2 Hin. apply (Hstep c' now' s1 s2). set_solver. }
  pose proof (after_steps sha256 c now s Hf) as Hs.
  clear IH. induction Hs as [s|s1 s2 s3 H1 _ IH]; [done|].
  apply IH; [by eapply filed_step|]. eapply (Hstep c now s1 s2); [|done..]. set_solver.
Qed.

Lemma run_filed l : filed (run empty l).
Proof. by apply (run_ind (fun _ => True) empty l). Qed.

(** ** The rows agree *)
Definition leased (w : work) : Prop :=
  match wstatus w with running | submitting | submitted => True | _ => False end.

(** The lease of a work row is of an issued token, and ends with the mandate at the latest. *)
Definition lease_sound (f : facts) (issued : gset string) (w : work) : Prop :=
  match wleaseToken w, wleaseExpiresAt w with
  | Some t, Some e => leased w /\ t ∈ issued /\ e <= validUntilSeconds f
  | None, None => ~ leased w
  | _, _ => False
  end.

(** What a mandate's status says of its work, its key and its evidence. *)
Definition status_sound (r : mandate) (w : option work) : Prop :=
  match mstatus r, w with
  | pending_activation, Some w => wstatus w = pending \/ leased w
  | pending_activation, None => sessionPrivateKey r = None
  | active, Some w =>
      wstatus w = done /\ tested USER_OP_HASH_RE (activationUserOpHash r) = true /\
      tested TX_HASH_RE (activationTxHash r) = true /\
      activationUserOpHash r = wuserOpHash w /\ activationTxHash r = wtxHash w /\
      exists a, activatedAt r = Some a /\ 0 < a < validUntilSeconds (about r)
  | activation_uncertain, Some w => wstatus w = uncertain
  | revoked, None => sessionPrivateKey r = None
  | _, _ => False
  end.

Definition key_sound (r : mandate) : Prop :=
  forall k, sessionPrivateKey r = Some k -> sessionKeyDigest (about r) = string_of (sha256 (chars_of k)).

Definition pair_sound (issued : gset string) (r : mandate) (w : option work) : Prop :=
  key_sound r /\ status_sound r w /\
  (forall w', w = Some w' ->
    wstellarOwner w' = stellarOwner (about r) /\ wkernelAddress w' = kernelAddress (about r) /\
    lease_sound (about r) issued w' /\
    (wstatus w' = submitted -> tested USER_OP_HASH_RE (wuserOpHash w') = true)).

Definition sound (s : store) : Prop :=
  forall id r, records s !! id = Some r -> pair_sound (issuedLeaseTokens s) r (workRows s !! id).

Lemma pair_sound_mono i1 i2 r w : i1 ⊆ i2 -> pair_sound i1 r w -> pair_sound i2 r w.
Proof.
  intros Hi (H1 & H2 & H3). split_and!; [done..|]. intros w' Hw'. destruct (H3 _ Hw') as (Ho & Hk & Hl & Hs).
  split_and!; try done. unfold lease_sound in *. repeat case_match; naive_solver.
Qed.

Lemma lease_end_le r at_ z : lease_end r at_ z <= validUntilSeconds (about r).
Proof. apply Z.le_min_r. Qed.

Ltac rows := unfold key_sound, status_sound, lease_sound, leased in *; cbn in *.

Lemma pair_sound_expire issued r w at_ : pair_sound issued r w ->
  pair_sound issued (expire_pair r w at_).1 (expire_pair r w at_).2.
Proof.
  intros (H1 & H2 & H3). unfold expire_pair. destruct w as [w|].
  - destruct (H3 w eq_refl) as (Ho & Hk & Hl & Hs).
    destruct (wstatus w) eqn:E; (split_and!; [done| |]);
      try (intros w' [= <-]; rows; rewrite ?E in *; by split_and!);
      rows; destruct (mstatus r); first [exact H2|rewrite E in *; naive_solver|intuition congruence].
  - split_and!; [done| |done]. rows. by destruct (mstatus r).
Qed.

(** A work row of a running activation. *)
Lemma leased_pending issued r w : pair_sound issued r (Some w) -> wstatus w = pending \/ leased w ->
  mstatus r = pending_activation.
Proof.
  intros (_ & H & _) Hw. unfold status_sound, leased in *. destruct (mstatus r); [done|..].
  - destruct H as [H _]. rewrite H in Hw. by destruct Hw.
  - rewrite H in Hw. by destruct Hw.
  - done.
Qed.

(** A change that keeps the status of a running activation. *)
Lemma pair_sound_work i1 i2 r w s t e h at_ : i1 ⊆ i2 -> pair_sound i1 r (Some w) ->
  wstatus w = pending \/ leased w ->
  (let w' := set_work w s t e h (wtxHash w) at_ in
   (wstatus w' = pending \/ leased w') /\ lease_sound (about r) i2 w' /\
   (s = submitted -> tested USER_OP_HASH_RE h = true)) ->
  pair_sound i2 r (Some (set_work w s t e h (wtxHash w) at_)).
Proof.
  intros Hi Hs Hw (H1 & H2 & H3). pose proof (leased_pending _ _ _ Hs Hw) as Hr. destruct Hs as (Hk & _ & Hws).
  destruct (Hws w eq_refl) as (? & ? & _). split_and!; [done|by unfold status_sound; rewrite Hr|].
  intros w' [= <-]. by split_and!.
Qed.

Lemma holds_lease_sound c at_ issued r w : pair_sound issued r (Some w) -> holds_lease c w at_ ->
  lease_sound (about r) issued w.
Proof. intros (_ & _ & H) _. by apply H. Qed.
Lemma pair_sound_moved c at_ i1 i2 r w r' w' : i1 ⊆ i2 ->
  pair_sound i1 r w -> moved c at_ i1 i2 r w r' w' -> pair_sound i2 r' w'.
Proof.
  intros Hi Hs Hm. destruct Hm as [w Ht|w i Hc Ht|w t z Hw Ht Hne Hnew Hold Hz|w z Hl Ht Hw Hz|w i t h Hc Hl Ht Hw
    |w h Hl Ht Hw Hh|w h tx a Hl Ht Hw Hh Heq Htx Ha|w h tx Hl Ht Hw|w h tx a Hl Ht Hw|w e He Hle Ht Hw|w e He Hle Ht Hw].
  - by apply (pair_sound_mono i1), pair_sound_expire.
  - by split_and!.
  - eapply (pair_sound_work i1 i2 r (count_attempt w)); [done| |by left|].
    { destruct Hs as (H1 & H2 & H3). split_and!; [done..|]. intros w' [= <-]. exact (H3 w eq_refl). }
    rows. split_and!; try done; [by right|apply lease_end_le].
  - pose proof (holds_lease_sound _ _ _ _ _ Hs Hl) as Hls. destruct Hl as (t & e & Ht1 & _ & _ & He & _).
    pose proof Hs as (_ & _ & Hsub). destruct (Hsub w eq_refl) as (_ & _ & _ & Hh).
    eapply pair_sound_work; [done|done|right|]; rows; rewrite Ht1, He in *; [naive_solver|].
    split_and!; [naive_solver..|apply lease_end_le|done].
  - pose proof (holds_lease_sound _ _ _ _ _ Hs Hl) as Hls. destruct Hl as (t' & e & Ht1 & _ & _ & He & _).
    eapply pair_sound_work; [done|done|right|]; rows; rewrite ?Ht1, ?He, ?Hw in *; [done|].
    split_and!; [naive_solver..|done].
  - pose proof (holds_lease_sound _ _ _ _ _ Hs Hl) as Hls. destruct Hl as (t' & e & Ht1 & _ & _ & He & _).
    eapply pair_sound_work; [done|done|right|]; rows; rewrite ?Ht1, ?He, ?Hw in *; [done|].
    split_and!; [naive_solver..|done].
  - destruct Hs as (H1 & H2 & H3). destruct (H3 w eq_refl) as (Ho & Hk & _). apply strict_eq_eq in Heq.
    split_and!; [done| |intros w' [= <-]; rows; naive_solver].
    rows. split_and!; try done. by exists a; split.
  - destruct Hs as (H1 & H2 & H3). destruct (H3 w eq_refl) as (Ho & Hk & _).
    split_and!; [done..|]. intros w' [= <-]. rows. naive_solver.
  - by split_and!.
  - eapply (pair_sound_work i1 i2 r w); [done..|right; unfold leased; by rewrite Hw|]. rows. split_and!; [by left|by intros []|done].
  - destruct Hs as (H1 & H2 & H3). destruct (H3 w eq_refl) as (Ho & Hk & _).
    split_and!; [done..|]. intros w' [= <-]. rows. naive_solver.
Qed.
Lemma normalize_key input f k : normalizeV3Record sha256 input = Ok (f, k) ->
  sessionKeyDigest f = string_of (sha256 (chars_of k)).
Proof. unfold normalizeV3Record. intros H. invert_ok H. done. Qed.

Lemma sound_step c at_ s s' : filed s -> sound s -> step c at_ s s' -> sound s'.
Proof.
  intros Hf Hs [id r r' w' Hr Hm Hrs Hws Hi|input f k _ Hn _ Hnone Hrs Hws Hi|Hrs Hws Hi] id' x; rewrite Hrs, Hws.
  - destruct (decide (id' = id)) as [->|Hne].
    + rewrite lookup_insert_eq, lookup_partial_alter_eq. intros [= <-].
      eapply pair_sound_moved; [exact Hi|by apply Hs|done].
    + rewrite lookup_insert_ne, lookup_partial_alter_ne by done. intros Hx.
      by eapply pair_sound_mono; [exact Hi|apply Hs].
  - destruct (decide (id' = mandateId f)) as [->|Hne].
    + rewrite !lookup_insert_eq. intros [= <-]. split_and!; [|by left|].
      * intros k' [= <-]. cbn. by apply normalize_key in Hn.
      * intros w' [= <-]. split_and!; try done. by intros [].
    + rewrite !lookup_insert_ne by done. intros Hx. rewrite Hi. by apply Hs.
  - intros Hx. by eapply pair_sound_mono; [exact Hi|apply Hs].
Qed.

(** In every reachable state the row of a mandate and the row of its activation agree, and
    both are filed under the mandate's identifier.  A mandate that waits for its activation has a work
    that is queued or leased, or its time is over and its key is gone.  An active one has canonical
    hashes of the operation and of the transaction that activated it, the same as its work, and a
    time before its end.  A revoked one has neither key nor work.  A lease is of a token that
    was issued, there is one exactly in the three states of a worker, it ends with the mandate
    at the latest, and a submitted operation has a canonical hash.  A key that is kept is
    the one whose digest is recorded. *)
Theorem rows_agree l : filed (run empty l) /\ sound (run empty l).
Proof.
  apply run_ind; [|by apply filed_empty|by intros id r H].
  intros c now s1 s2 _ Hf Hs Hst. by eapply sound_step.
Qed.
(** ** A lost lease *)
Definition lease_of (s : store) (id : string) : option string := workRows s !! id ≫= wleaseToken.

(** The identity and the token of a call that needs a lease. *)
Definition lease_call (c : call) : option (identity * val) :=
  match c with
  | Renew i t _ | Checkpoint i t _ _ | FinishActive i t _ _ _ | FinishUncertain i t _ _
  | FinishRevoked i t _ _ _ => Some (i, t)
  | _ => None
  end.

(** Nothing gives a work a token that was issued, unless the work has it already. *)
Lemma moved_lease c at_ i1 i2 r w r' w' t : moved c at_ i1 i2 r w r' w' -> t ∈ i1 ->
  w' ≫= wleaseToken = Some t -> w ≫= wleaseToken = Some t.
Proof.
  destruct 1; cbn; intros Hi; try done.
  - match goal with |- context [expire_pair _ ?w _] => destruct w as [w|]; [|done] end. cbn.
    by destruct (wstatus w).
  - intros [= <-]. done.
Qed.

Lemma lost_step c at_ s s' id t : t ∈ issuedLeaseTokens s /\ lease_of s id <> Some t -> step c at_ s s' ->
  t ∈ issuedLeaseTokens s' /\ lease_of s' id <> Some t.
Proof.
  unfold lease_of.
  intros [Hi Hl] [id' r r' w' Hr Hm _ Hws Hsub|input f k _ _ _ _ _ Hws Hsub|_ Hws Hsub]; rewrite Hws.
  - split; [by apply Hsub|]. destruct (decide (id' = id)) as [->|Hne].
    + rewrite lookup_partial_alter_eq. intros H. by eapply Hl, moved_lease.
    + by rewrite lookup_partial_alter_ne.
  - rewrite Hsub. split; [done|]. destruct (decide (mandateId f = id)) as [->|Hne].
    + by rewrite lookup_insert_eq.
    + by rewrite lookup_insert_ne.
  - split; [by apply Hsub|done].
Qed.

Lemma with_lease_lost {A} missing i t now (k : mandate -> work -> Z -> act A) s id :
  i_mandateId i = Str id -> lease_of s id <> Some t ->
  exists e, (with_lease missing i (Str t) now k s).1 = Throw e.
Proof.
  intros Hi Hl. unfold with_lease, mbind, act_bind. cbn.
  destruct (recordFor i s) as [r|] eqn:Hr; [|by eexists]. destruct (workFor i s) as [w|] eqn:Hw; [|by eexists].
  pose proof (recordFor_Some _ _ _ Hr) as (Hi' & _). rewrite Hi in Hi'. injection Hi' as ->.
  rewrite effectiveNow_eq. destruct now as [z| | |]; try by eexists. destruct (isSafeInteger (Num z)); [|by eexists].
  unfold assertMandateLive. destruct (_ <=? _) eqn:E.
  { unfold mbind, act_bind. rewrite expire_eq, E. by eexists. }
  cbn.
  unfold lease_of in Hl. rewrite (workFor_Some _ _ _ _ Hr Hw) in Hl. cbn in Hl. unfold assertLease.
  destruct (wleaseToken w) as [t'|]; [|by eexists]. unfold mbind, act_bind. rewrite check_eq.
  assert (strict_eq (Str t) (Str t') = false) as -> by (cbn; apply bool_decide_eq_false_2; congruence). rewrite andb_false_r. by eexists.
Qed.

Lemma answered_throw {A} (f : A -> answer) (m : act A) s e : (m s).1 = Throw e -> (answered f m s).1 = Throw e.
Proof. unfold answered, mbind, act_bind. destruct (m s) as [[a|e'] s']; cbn; congruence. Qed.

(** A token that was issued and that the work of a mandate does not hold is refused for that
    mandate ever after, whatever the calls in between and their times: once a lease has been
    lost, to another worker or to the sweep, its worker can neither prolong it nor record
    anything. *)
Theorem stale_token_rejected l1 l2 id t c i now :
  let s := run empty l1 in
  t ∈ issuedLeaseTokens s -> lease_of s id <> Some t ->
  lease_call c = Some (i, Str t) -> i_mandateId i = Str id ->
  exists e, (perform c now (run s l2)).1 = Throw e.
Proof.
  intros s Ht Hl Hc Hi.
  destruct (run_ind (fun s => t ∈ issuedLeaseTokens s /\ lease_of s id <> Some t) s l2) as (_ & _ & Hl');
    [by intros; eapply lost_step|apply run_filed|done|].
  destruct c; try done; injection Hc as -> ->;
    (edestruct @with_lease_lost as [e He]; [exact Hi|exact Hl'|exists e; apply answered_throw; exact He]).
Qed.
(** ** One submission *)

(** The call that crosses the fence of a mandate: from here the operation may be on chain. *)
Definition submits (id : string) (c : call) : bool :=
  match c with
  | Checkpoint i _ status _ => strict_eq (i_mandateId i) (Str id) && strict_eq status (Str "submitting")
  | _ => false
  end.
Definition accepted {A} (m : result string A) : bool := match m with Ok _ => true | Throw _ => false end.

(** How many of the calls cross it. *)
Fixpoint submissions (id : string) (s : store) (l : list (call * num)) : nat :=
  match l with
  | [] => 0%nat
  | (c, now) :: l =>
      ((if submits id c && accepted (perform c now s).1 then 1 else 0) + submissions id (after s (c, now)) l)%nat
  end.

(** The mandate is there, and its work no longer waits for the fence. *)
Definition crossed (s : store) (id : string) : Prop :=
  is_Some (records s !! id) /\
  forall w, workRows s !! id = Some w -> wstatus w <> pending /\ wstatus w <> running.

Lemma moved_fence c at_ i1 i2 r w r' w' : moved c at_ i1 i2 r w r' (Some w') ->
  (forall w0, w = Some w0 -> wstatus w0 <> pending /\ wstatus w0 <> running) ->
  wstatus w' <> pending /\ wstatus w' <> running.
Proof.
  inversion 1; subst; intros Hw; try (destruct (Hw _ eq_refl); cbn; split; congruence).
  match goal with Heq : _ = Some w' |- _ => unfold expire_pair in Heq end. destruct w as [w|]; [|done]. specialize (Hw w eq_refl).
  by destruct Hw, (wstatus w) eqn:E; simplify_eq/=; rewrite ?E.
Qed.

Lemma crossed_step c at_ s s' id : crossed s id -> step c at_ s s' -> crossed s' id.
Proof.
  intros [Hr Hw] [id' r r' w' Hr' Hm Hrs Hws _|input f k _ _ _ Hn Hrs Hws _|Hrs Hws _]; unfold crossed; rewrite Hrs, Hws.
  - destruct (decide (id' = id)) as [->|Hne].
    + rewrite lookup_insert_eq, lookup_partial_alter_eq. split; [done|]. intros w ->. by eapply moved_fence.
    + by rewrite lookup_insert_ne, lookup_partial_alter_ne.
  - assert (mandateId f <> id) by (intros <-; rewrite Hn in Hr; by destruct Hr).
    by rewrite !lookup_insert_ne.
  - done.
Qed.

Lemma with_lease_Ok {A} missing i token now (k : mandate -> work -> Z -> act A) s a s' :
  with_lease missing i token now k s = (Ok a, s') ->
  exists r w at_, recordFor i s = Some r /\ workFor i s = Some w /\ k r w at_ s = (Ok a, s').
Proof.
  unfold with_lease, mbind, act_bind. cbn. intros H.
  destruct (recordFor i s) as [r|] eqn:Hr; [|done]. destruct (workFor i s) as [w|] eqn:Hw; [|done].
  rewrite effectiveNow_eq in H. destruct now as [z| | |]; try done. destruct (isSafeInteger (Num z)); [|done].
  unfold assertMandateLive in H. destruct (_ <=? _) eqn:E in H.
  { unfold mbind, act_bind in H. by rewrite expire_eq, E in H. }
  cbn in H. unfold assertLease in H. destruct (wleaseToken w) as [t|]; [|done]. unfold mbind, act_bind in H.
  rewrite check_eq in H. destruct (_ && _) in H; [|done]. destruct (wleaseExpiresAt w) as [e|]; [|done].
  rewrite check_eq in H. destruct (_ && _) in H; [|done]. by exists r, w, z.
Qed.

Lemma submits_accepted id c now s : filed s -> submits id c && accepted (perform c now s).1 = true ->
  ~ crossed s id /\ crossed (after s (c, now)) id.
Proof.
  intros Hf [Hc Ha]%andb_true_iff. destruct c; try done. cbn [submits] in Hc.
  apply andb_true_iff in Hc as [Hi%strict_eq_Str ->%strict_eq_Str]. unfold after. cbn [Activation.perform fst snd] in *.
  unfold answered, mbind, act_bind in *. destruct (activation_checkpoint _ _ _ _ _ s) as [[w'|e] s'] eqn:E; [|done]. cbn.
  apply with_lease_Ok in E as (r & w & at_ & Hr & Hw & E).
  pose proof (workFor_Some _ _ _ _ Hr Hw) as Hw'. apply recordFor_Some in Hr as (Hi' & Hr & _).
  rewrite Hi in Hi'. injection Hi' as ->. pose proof (fi_works s Hf _ _ Hw') as Hid.
  cbn -[check] in E. unfold mbind, act_bind in E. rewrite bool_decide_eq_true_2, check_eq in E by done.
  destruct (bool_decide (wstatus w = running)) eqn:Hrun; [|done]. zprop. injection E as _ <-. split.
  - intros [_ Hx]. by destruct (Hx _ Hw').
  - unfold crossed. cbn. rewrite Hid. rewrite lookup_insert_eq. split; [done|]. by intros x [= <-].
Qed.

Lemma fence_after s c now id : filed s -> crossed s id -> crossed (after s (c, now)) id.
Proof.
  intros Hf Hc. pose proof (after_steps sha256 c now s Hf) as Hs.
  clear Hf. induction Hs as [|s1 s2 s3 H1 _ IH]; [done|]. by eapply IH, crossed_step.
Qed.

Lemma submissions_crossed id s l : filed s -> crossed s id -> submissions id s l = 0%nat.
Proof.
  revert s. induction l as [|[c now] l IH]; intros s Hf Hc; [done|]. cbn [submissions].
  rewrite IH; [|by apply rows_filed_after|by apply fence_after].
  destruct (_ && _) eqn:E; [|done]. by apply submits_accepted in E as [E _].
Qed.

(** C31. Whatever calls are made, by whatever workers and at whatever times, the activation of a
    mandate crosses the fence of submission at most once: a lease that lapses after it, or a
    clock that runs back, never makes a second operation. *)
Theorem activation_submitted_once id l : (submissions id empty l <= 1)%nat.
Proof.
  generalize filed_empty. generalize empty. induction l as [|[c now] l IH]; intros s Hf; cbn [submissions]; [lia|].
  destruct (_ && _) eqn:E.
  - apply submits_accepted in E as [_ E]; [|done]. rewrite submissions_crossed; [lia|by apply rows_filed_after|done].
  - by apply IH, rows_filed_after.
Qed.
(** ** The session key *)

(** Every key comes from a mandate that was enqueued, under its identifier. *)
Definition keys_from (l : list (call * num)) (s : store) : Prop :=
  forall id r, records s !! id = Some r ->
    exists input t k, (Enqueue input, t) ∈ l /\ normalizeV3Record sha256 input = Ok (about r, k) /\
      (forall k', sessionPrivateKey r = Some k' -> k' = k).

Lemma moved_key c at_ i1 i2 r w r' w' k : moved c at_ i1 i2 r w r' w' ->
  sessionPrivateKey r' = Some k -> sessionPrivateKey r = Some k.
Proof.
  destruct 1; cbn; try done. intros Hk. pose proof (expire_pair_eq r w at_) as [_ He]. by rewrite He in Hk.
Qed.

Lemma keys_from_run l : keys_from l (run empty l).
Proof.
  apply run_ind; [|by apply filed_empty|by intros id r H].
  intros c now s1 s2 Hin _ Hk [id' r r' w' Hr' Hm Hrs _ _|input f k Hc Hn _ _ Hrs _ _|Hrs _ _] id x; rewrite Hrs.
  - destruct (decide (id' = id)) as [->|Hne].
    + rewrite lookup_insert_eq. intros [= <-]. destruct (Hk _ _ Hr') as (input & t & k & H1 & H2 & H3).
      exists input, t, k. rewrite (moved_about _ _ _ _ _ _ _ _ Hm). split_and!; [done..|].
      intros k' Hk'. by eapply H3, moved_key.
    + rewrite lookup_insert_ne by done. apply Hk.
  - destruct (decide (mandateId f = id)) as [->|Hne].
    + rewrite lookup_insert_eq. intros [= <-]. exists input, now, k. subst c. split_and!; [done..|].
      by intros k' [= ->].
    + rewrite lookup_insert_ne by done. apply Hk.
  - apply Hk.
Qed.

(** A mandate keeps its facts, and a key that is gone stays gone. *)
Lemma keys_kept l s id r : filed s -> records s !! id = Some r ->
  exists r', records (run s l) !! id = Some r' /\ about r' = about r /\
    forall k, sessionPrivateKey r' = Some k -> sessionPrivateKey r = Some k.
Proof.
  intros Hf Hr.
  apply (run_ind (fun s' => exists r', records s' !! id = Some r' /\ about r' = about r /\
    forall k, sessionPrivateKey r' = Some k -> sessionPrivateKey r = Some k) s l); [|done|by exists r].
  intros c now s1 s2 _ _ (x & Hx & Ha & Hk) [id' y y' w' Hy Hm Hrs _ _|input f k _ _ _ Hn Hrs _ _|Hrs _ _]; rewrite Hrs.
  - destruct (decide (id' = id)) as [->|Hne].
    + rewrite lookup_insert_eq. rewrite Hx in Hy. injection Hy as <-. exists y'. split_and!; [done| |].
      * by rewrite (moved_about _ _ _ _ _ _ _ _ Hm).
      * intros k Hk'. by eapply Hk, moved_key.
    + rewrite lookup_insert_ne by done. by exists x.
  - rewrite lookup_insert_ne by congruence. by exists x.
  - by exists x.
Qed.

Lemma get_key i now s m s' k : perform (Get i) now s = (Ok (Internal (Some m)), s') ->
  i_sessionPrivateKey m = Some k ->
  exists r at_, recordFor i s = Some r /\ now = Num at_ /\ at_ < validUntilSeconds (about r) /\
    mstatus r <> revoked /\ sessionPrivateKey r = Some k /\ m = internalMandateV3 r true.
Proof.
  intros H Hk. cbn [Activation.perform] in H. unfold answered, mandate_get, mbind, act_bind in H. cbn in H.
  destruct (recordFor i s) as [r|] eqn:Hr; [|done]. cbn [or_none] in H. rewrite effectiveNow_eq in H.
  destruct now as [z| | |]; try done. destruct (isSafeInteger (Num z)); [|done]. rewrite expire_eq in H.
  destruct (_ <=? _) eqn:E in H; cbn in H; injection H as <- <-; [done|]. zbool. cbn in Hk.
  destruct (bool_decide (mstatus r = revoked)) eqn:Hs; [done|]. zprop. by exists r, z.
Qed.

(** C35. A session key is given only to who names the mandate, its owner and its kernel account, it
    is the key that came with the mandate, the time of the mandate is not over, and the mandate is not
    revoked.  If the key was given up at any earlier point, because the mandate had been seen
    over or was revoked, it is not given again, whatever time the call says it is. *)
Theorem session_key_guarded l i now m s' k :
  perform (Get i) now (run empty l) = (Ok (Internal (Some m)), s') ->
  i_sessionPrivateKey m = Some k ->
  exists input t f at_, (Enqueue input, t) ∈ l /\ normalizeV3Record sha256 input = Ok (f, k) /\
    i_mandateId i = Str (mandateId f) /\ i_stellarOwner i = Str (stellarOwner f) /\
    kernelAddress f = lower_text (string_of (if truthy (i_kernelAddress i) then coerce (i_kernelAddress i) else [])) /\
    i_about m = internal_facts f /\ i_status m <> revoked /\ now = Num at_ /\ at_ < validUntilSeconds f /\
    (forall l1 l2 r, l = l1 ++ l2 -> records (run empty l1) !! mandateId f = Some r -> sessionPrivateKey r = Some k).
Proof.
  intros H Hk. destruct (get_key _ _ _ _ _ _ H Hk) as (r & at_ & Hr & -> & Ht & Hs & Hkey & ->).
  apply recordFor_Some in Hr as (Hi & Hr & Hid). destruct (keys_from_run _ _ _ Hr) as (input & t & k0 & Hin & Hn & Hk0).
  apply Hk0 in Hkey as Heq. subst k0. unfold sameV3Identity in Hid. zprop.
  exists input, t, (about r), at_. split_and!; try done.
  - symmetry. by apply strict_eq_eq.
  - intros l1 l2 r1 -> Hr1. unfold Activation.run in Hr. rewrite foldl_app in Hr.
    destruct (keys_kept l2 _ _ _ (run_filed l1) Hr1) as (r' & Hr' & _ & Hk').
    apply Hk'. unfold id_of in Hr. unfold Activation.run in Hr'. rewrite Hr in Hr'. by injection Hr' as <-.
Qed.

(** ** The loop of a lease token *)
Lemma fresh_token_more n previous issued candidate counter extra :
  let p := fresh_token n previous issued candidate counter in
  p.1 <> EmptyString -> previous <> Some p.1 -> p.1 ∉ issued ->
  fresh_token (n + extra) previous issued candidate counter = p.
Proof.
  revert candidate counter. induction n as [|n IH]; intros candidate counter p H1 H2 H3; cbn in *.
  - destruct extra; [done|]. cbn. by rewrite !bool_decide_eq_false_2.
  - destruct (_ || _); [by apply IH|done].
Qed.

(** The loop that makes a lease token ends, whatever the generator gives: after at most as
    many rounds as there are issued tokens and two more it has a token that is not empty, not
    the work's last one and was never issued, and more rounds change nothing.  The token is then issued. *)
Theorem next_token_new previous candidate s :
  exists t, (nextLeaseToken previous candidate s).1 = Ok t /\
    t <> EmptyString /\ previous <> Some t /\ t ∉ issuedLeaseTokens s /\
    issuedLeaseTokens (nextLeaseToken previous candidate s).2 = {[t]} ∪ issuedLeaseTokens s /\
    (forall fuel, (3 + size (issuedLeaseTokens s) <= fuel)%nat ->
      (fresh_token fuel previous (issuedLeaseTokens s) candidate (tokenCounter s)).1 = t).
Proof.
  unfold nextLeaseToken. cbn [fst snd]. eexists. split; [reflexivity|].
  destruct (fresh_token_new previous (issuedLeaseTokens s) candidate (tokenCounter s)) as (H1 & H2 & H3).
  split_and!; [done..|]. intros fuel Hf. replace fuel with (3 + size (issuedLeaseTokens s) + (fuel - (3 + size (issuedLeaseTokens s))))%nat by lia.
  by rewrite fresh_token_more.
Qed.
End Safety.

Module MandateSample.
Import Activation.
Local Open Scope string_scope.
Local Open Scope list_scope.

(** One digest for every text. *)
Definition sha (text : chars) : chars := chars_of "00000000000000000000000000000000000000000000000000000000000000aa".
Definition digest : string := "00000000000000000000000000000000000000000000000000000000000000bb".
Definition hash : string := "0x" +:+ digest.

Definition input : val := Obj [
  ("mandateId", Str "m1"); ("capabilityHash", Str digest); ("policyDigest", Str digest);
  ("approvalDigest", Str digest); ("bindingHash", Str digest); ("serializedApproval", Str "QQ==");
  ("validUntilSeconds", Number (Num 1000)); ("stellarOwner", Str "GA"); ("kernelAddress", Str "0xAB");
  ("sessionKeyAddress", Str "0xCD"); ("sessionPrivateKey", Str "0x99")].
Definition who : identity := {| i_mandateId := Str "m1"; i_stellarOwner := Str "GA"; i_kernelAddress := Str "0xab" |}.

(** Enqueued and claimed; the lease lapses and a second worker claims, with the same generator. *)
Definition first : list (call * num) := [
  (Enqueue input, Num 10); (Claim who (Num 30) "t", Num 20); (ReconcileExpired, Num 60)].
Definition second : list (call * num) := [
  (Claim who (Num 30) "t", Num 61);
  (Checkpoint who (Str "t-1") (Str "submitting") Undefined, Num 62);
  (Checkpoint who (Str "t-1") (Str "submitting") Undefined, Num 63);
  (Checkpoint who (Str "t-1") (Str "submitted") (Str hash), Num 64);
  (FinishActive who (Str "t-1") (Str hash) (Str hash) (Num 64), Num 65)].
Definition mined : list (call * num) := first ++ second.

Example mined_active : (fun r => mstatus r) <$> records (run sha empty mined) !! "m1" = Some active.
Proof. reflexivity. Qed.
Example mined_once : submissions sha "m1" empty mined = 1%nat.
Proof. reflexivity. Qed.
Definition key_at (t : Z) : option string :=
  match (perform sha (Get who) (Num t) (run sha empty mined)).1 with
  | Ok (Internal (Some m)) => i_sessionPrivateKey m | _ => None end.
Example key_at_end : key_at 1000 = None.
Proof. vm_compute. reflexivity. Qed.
Example key_before_end : key_at 999 = Some "0x99".
Proof. vm_compute. reflexivity. Qed.

Definition given : option internal_mandate :=
  match (perform sha (Get who) (Num 999) (run sha empty mined)).1 with Ok (Internal m) => m | _ => None end.
End MandateSample.

Section Witnesses.
Import Activation MandateSample.
Local Open Scope string_scope.
Local Open Scope list_scope.

Lemma stale_token_rejected_witness :
  lease_of (run sha empty first) "m1" <> Some "t" /\
  exists e, (perform sha (Renew who (Str "t") (Num 30)) (Num 63) (run sha (run sha empty first) second)).1 = Throw e.
Proof.
  assert (lease_of (run sha empty first) "m1" <> Some "t") as H by (apply (bool_decide_unpack _); vm_compute; exact I).
  refine (conj H (stale_token_rejected sha first second "m1" "t" (Renew who (Str "t") (Num 30)) who (Num 63) _ H _ _)).
  - apply (bool_decide_unpack _); vm_compute; exact I.
  - reflexivity.
  - reflexivity.
Defined.

Lemma session_key_guarded_witness :
  exists m, given = Some m /\ i_sessionPrivateKey m = Some "0x99" /\
  exists input t f at_, (Enqueue input, t) ∈ mined /\ normalizeV3Record sha input = Ok (f, "0x99") /\
    i_about m = internal_facts f /\ (at_ < validUntilSeconds f)%Z.
Proof.
  destruct (perform sha (Get who) (Num 999) (run sha empty mined)) as [[[| [m|] | | | | |]|] s'] eqn:E;
    try (vm_compute in E; discriminate E).
  assert (i_sessionPrivateKey m = Some "0x99") as Hk.
  { apply (f_equal (fun p => match p.1 with Ok (Internal (Some m)) => i_sessionPrivateKey m | _ => None end)) in E.
    cbv beta iota delta [fst] in E. rewrite <- E. vm_compute. reflexivity. }
  exists m. split; [unfold given; rewrite E; reflexivity|]. split; [exact Hk|].
  destruct (session_key_guarded sha mined who (Num 999) m s' "0x99" E Hk)
    as (input & t & f & at_ & H1 & H2 & _ & _ & _ & H6 & _ & _ & H9 & _).
  exists input, t, f, at_. exact (conj H1 (conj H2 (conj H6 H9))).
Defined.
End Witnesses.
