(* ===== verification/RelayStore.v ===== *)
(** * The store of relay work

    Models [relayer/src/store.mjs]: the immutable expectation of a burn and its digest, the
    record of one execution, the compare-and-transition operations on it and the store that
    holds the records by execution id.  SHA-256 is a parameter; the token of a claim is an
    argument.  A record groups the columns that never change ([intent]) and those of the
    evidence; times are checked numbers, integers once accepted.  Execution ids are strings,
    none the name of an inherited property. *)
From stdpp Require Import sorting.
From S2P Require Export JsValue Json Hex.

Module Relay.

Inductive state :=
| attestation_pending | attested | mint_submitting | mint_submitted | minted | blocked | uncertain.

#[global] Instance state_eq_dec : EqDecision state.
Proof. solve_decision. Defined.

Definition RELAY_CLAIMABLE_STATES : list state := [attestation_pending; attested; mint_submitted].
Definition RELAY_TERMINAL_STATES : list state := [minted; blocked; uncertain].
Definition claimable (s : state) : bool := bool_decide (s ∈ RELAY_CLAIMABLE_STATES).
Definition terminal (s : state) : bool := bool_decide (s ∈ RELAY_TERMINAL_STATES).

Inductive relay_error := RELAY_VALIDATION | RELAY_ENQUEUE_CONFLICT | RELAY_CAS_CONFLICT | TypeError.

Section Strings.
Local Open Scope string_scope.
Local Open Scope list_scope.

Definition RELAY_BLOCKED_REASONS : list string :=
  ["message_mismatch"; "message_ambiguous"; "attested_evidence_changed"; "destination_reverted";
   "legacy_record_unrecoverable"].
Definition RELAY_UNCERTAIN_REASONS : list string :=
  ["submission_unknown"; "submitted_checkpoint_failed"; "submission_lease_expired"].

(** ** The expectation *)
Definition EXPECTATION_KEY_ORDER : list string :=
  ["version"; "direction"; "sourceDomain"; "destinationDomain"; "sender"; "recipient";
   "destinationCaller"; "burnToken"; "mintRecipient"; "messageSender"; "amount"; "burnUnits7";
   "maxFee"; "minFinalityThreshold"; "hookData"].
Definition EXPECTATION_DIGEST_DOMAIN : chars := chars_of "vf-cctp-expectation-v1".

Definition STELLAR_DOMAIN : Z := 27.
Definition BASE_DOMAIN : Z := 6.
Definition number (z : Z) : val := Number (Num z).

(** [DIRECTION_DOMAINS[direction]]: an inherited property has no domains. *)
Definition DIRECTION_DOMAINS (direction : val) : option (val * val) :=
  let k := string_of (coerce direction) in
  if decide (k = "stellar-to-base") then Some (number STELLAR_DOMAIN, number BASE_DOMAIN)
  else if decide (k = "base-to-stellar") then Some (number BASE_DOMAIN, number STELLAR_DOMAIN)
  else if decide (k ∈ object_prototype) then Some (Undefined, Undefined)
  else None.

(** [/^[0-9a-fA-F]{n}$/] *)
Definition is_hex_ci (n : nat) (l : chars) : bool := is_hex n (lower <$> l).

Definition even_hex (hex : ascii -> bool) (l : chars) : bool :=
  forallb hex l && Nat.even (length l).

Definition HEX64_CI_RE : chars -> bool := is_hex_ci 64.
Definition BYTES32_STRICT_RE : chars -> bool := is_0x_hex 64.
Definition DECIMAL_RE : chars -> bool := is_decimal.
(** [/^0x([0-9a-fA-F]{2})+$/] *)
Definition EVEN_HEX_RE (l : chars) : bool :=
  match Hex.after_0x l with
  | Some [] | None => false
  | Some l => even_hex (fun c => is_lower_hex (lower c)) l
  end.
(** [/^0x([0-9a-f]{2})*$/] *)
Definition HOOK_DATA_RE (l : chars) : bool :=
  match Hex.after_0x l with Some l => even_hex is_lower_hex l | None => false end.

(** [typeof v === 'string' && re.test(v)] *)
Definition string_matches (re : chars -> bool) (v : val) : bool := is_string v && test re v.

Definition invalid {A} : result relay_error A := Throw RELAY_VALIDATION.
Definition conflict {A} : result relay_error A := Throw RELAY_CAS_CONFLICT.

Definition expectDecimalString (v : val) : result relay_error Z :=
  if string_matches DECIMAL_RE v then Ok (of_digits (coerce v)) else invalid.

Definition bytes32_fields : list string :=
  ["sender"; "recipient"; "destinationCaller"; "burnToken"; "mintRecipient"; "messageSender"].

(** The relation of [burnUnits7] to the amount, by direction. *)
Definition check_burnUnits7 (e : val) (amount : Z) : result relay_error unit :=
  if strict_eq e#"direction" (Str "stellar-to-base") then
    units ← expectDecimalString e#"burnUnits7";
    if negb (units `rem` 10 =? 0)%Z || negb (amount =? units `quot` 10)%Z then invalid else Ok tt
  else if negb (strict_eq e#"burnUnits7" Null) then invalid else Ok tt.

Definition canonicalizeExpectation (e : val) : result relay_error val :=
  if negb (is_object e) then invalid
  else if negb (length (keys e) =? length EXPECTATION_KEY_ORDER)%nat
          || negb (forallb (has_own e) EXPECTATION_KEY_ORDER)
  then invalid
  else if negb (strict_eq e#"version" (number 1)) then invalid
  else
    match DIRECTION_DOMAINS e#"direction" with
    | None => invalid
    | Some (source, destination) =>
        if negb (strict_eq e#"sourceDomain" source)
           || negb (strict_eq e#"destinationDomain" destination)
        then invalid
        else if negb (forallb (fun f => string_matches BYTES32_STRICT_RE (get e f)) bytes32_fields)
        then invalid
        else
          amount ← expectDecimalString e#"amount";
          _ ← expectDecimalString e#"maxFee";
          if negb (strict_eq e#"minFinalityThreshold" (number 1000))
             && negb (strict_eq e#"minFinalityThreshold" (number 2000))
          then invalid
          else if negb (string_matches HOOK_DATA_RE e#"hookData") then invalid
          else
            _ ← check_burnUnits7 e amount;
            Ok (Obj ((fun k => (k, get e k)) <$> EXPECTATION_KEY_ORDER))
    end.

Section Store.
(** [createHash('sha256')] on bytes, in lowercase hexadecimal. *)
Context (sha256 : chars -> chars).

Definition expectationDigest (canonicalExpectation : val) : result relay_error chars :=
  match JSON.stringify canonicalExpectation with
  | Ok (Some text) => Ok (sha256 (EXPECTATION_DIGEST_DOMAIN ++ "000"%char :: text))
  | _ => Throw TypeError
  end.

(** ** Hashes and evidence *)
Definition normalizeSourceDomain (v : val) : result relay_error Z :=
  if strict_eq v (number STELLAR_DOMAIN) then Ok STELLAR_DOMAIN
  else if strict_eq v (number BASE_DOMAIN) then Ok BASE_DOMAIN
  else invalid.

(** A hash of the Stellar form, and one of the Base form, in lower case. *)
Definition stellar_hash (v : val) : result relay_error chars :=
  if string_matches HEX64_CI_RE v then Ok (toLowerCase (coerce v)) else invalid.
Definition base_hash (v : val) : result relay_error chars :=
  match v with
  | Str s =>
      match Hex.after_0x (chars_of s) with
      | Some l => if HEX64_CI_RE l then Ok (toLowerCase (chars_of s)) else invalid
      | None => invalid
      end
  | _ => invalid
  end.

Definition normalizeBurnTxHash (sourceDomain : Z) (burnTxHash : val) : result relay_error chars :=
  if (sourceDomain =? STELLAR_DOMAIN)%Z then stellar_hash burnTxHash else base_hash burnTxHash.
Definition normalizeMintTxHash (sourceDomain : Z) (mintTxHash : val) : result relay_error chars :=
  if (sourceDomain =? STELLAR_DOMAIN)%Z then base_hash mintTxHash else stellar_hash mintTxHash.

(** [Buffer.from(hex, 'hex')], hashed *)
Definition sha256Bytes (hex : chars) : chars := sha256 (Hex.from_hex hex).

(** The five columns of the evidence, [null] before it is recorded. *)
Record evidence := {
  messageHex : option chars;
  nonceHex : option chars;
  messageDigest : option chars;
  attestationHex : option chars;
  attestationDigest : option chars;
}.

Definition no_evidence : evidence := {|
  messageHex := None; nonceHex := None; messageDigest := None; attestationHex := None;
  attestationDigest := None |}.

#[global] Instance evidence_eq_dec : EqDecision evidence.
Proof. solve_decision. Defined.

(** A non-empty, even number of hexadecimal digits after [0x], in lower case. *)
Definition even_hex_value (v : val) : result relay_error chars :=
  if string_matches EVEN_HEX_RE v then Ok (toLowerCase (coerce v)) else invalid.

Definition normalizeEvidence (message_ nonce_ attestation_ : val)
    : result relay_error evidence :=
  message ← even_hex_value message_;
  nonce ← base_hash nonce_;
  attestation ← even_hex_value attestation_;
  Ok {| messageHex := Some message; nonceHex := Some nonce;
        messageDigest := Some (sha256Bytes (drop 2 message));
        attestationHex := Some attestation;
        attestationDigest := Some (sha256Bytes (drop 2 attestation)) |}.

(** ** Records *)
Record intent := {
  execId : string;
  sourceDomain : option Z;
  burnTxHash : option chars;
  expectation : option val;
  expectationDigest_ : option chars;
  createdAt : Z;
}.

Record relay := {
  ident : intent;
  status : state;
  ev : evidence;
  evidenceVersion : Z;
  mintTxHash : option chars;
  reasonCode : option string;
  attempts : Z;
  leaseToken : option string;
  leaseExpiresAt : option Z;
  updatedAt : Z;
}.

Definition requireNow (now : num) : result relay_error Z :=
  match now with Num z => if isSafeInteger now then Ok z else invalid | _ => invalid end.

(** [requireLeaseArgs]: the time and the length of a lease. *)
Definition requireLeaseArgs (now leaseMs : num) : result relay_error (Z * Z) :=
  now ← requireNow now;
  match leaseMs with
  | Num ms => if isSafeInteger leaseMs && (0 <? ms)%Z then Ok (now, ms) else invalid
  | _ => invalid
  end.

Definition relayIdentityConflicts (record : relay) (source : Z) (burn digest : chars) : bool :=
  if negb (bool_decide (sourceDomain (ident record) = Some source)) then false
  else if (source =? 27)%Z then bool_decide (burnTxHash (ident record) = Some burn)
  else bool_decide (burnTxHash (ident record) = Some burn)
       && bool_decide (expectationDigest_ (ident record) = Some digest).

Definition relayNewPendingRecord (id : string) (source : Z) (burn : chars) (e : val)
    (digest : chars) (now : num) : result relay_error relay :=
  now ← requireNow now;
  Ok {| ident := {| execId := id; sourceDomain := Some source; burnTxHash := Some burn;
                    expectation := Some e; expectationDigest_ := Some digest;
                    createdAt := now |};
        status := attestation_pending; ev := no_evidence; evidenceVersion := 0;
        mintTxHash := None; reasonCode := None; attempts := 0; leaseToken := None;
        leaseExpiresAt := None; updatedAt := now |}.

(** The record to keep and whether it is new. *)
Definition relayEnqueueDecision (existing : option relay)
    (hasIdentityConflict : Z -> chars -> chars -> bool) (id : string)
    (sourceDomain_ burnTxHash_ expectation_ : val) (now : num) : result relay_error (relay * bool) :=
  if decide (id = EmptyString) then invalid
  else
    source ← normalizeSourceDomain sourceDomain_;
    canonical ← canonicalizeExpectation expectation_;
    digest ← expectationDigest canonical;
    match existing with
    | Some r =>
        let same_burn :=
          match normalizeBurnTxHash source burnTxHash_ with
          | Ok burn => bool_decide (burnTxHash (ident r) = Some burn)
          | Throw _ => false
          end in
        if negb (bool_decide (sourceDomain (ident r) = Some source)) || negb same_burn
           || negb (bool_decide (expectationDigest_ (ident r) = Some digest))
        then Throw RELAY_ENQUEUE_CONFLICT
        else Ok (r, false)
    | None =>
        if negb (strict_eq canonical#"sourceDomain" sourceDomain_) then invalid
        else
          burn ← normalizeBurnTxHash source burnTxHash_;
          if hasIdentityConflict source burn digest then Throw RELAY_ENQUEUE_CONFLICT
          else
            r ← relayNewPendingRecord id source burn canonical digest now;
            Ok (r, true)
    end.

(** ** Transitions: one record in, the next record out *)

(** [{ ...r, leaseToken, leaseExpiresAt, updatedAt }] *)
Definition set_lease (r : relay) (token : option string) (expires : option Z) (now : Z) : relay := {|
  ident := ident r; status := status r; ev := ev r; evidenceVersion := evidenceVersion r;
  mintTxHash := mintTxHash r; reasonCode := reasonCode r; attempts := attempts r;
  leaseToken := token; leaseExpiresAt := expires; updatedAt := now |}.

Definition set_status (r : relay) (s : state) (now : Z) : relay := {|
  ident := ident r; status := s; ev := ev r; evidenceVersion := evidenceVersion r;
  mintTxHash := mintTxHash r; reasonCode := reasonCode r; attempts := attempts r;
  leaseToken := leaseToken r; leaseExpiresAt := leaseExpiresAt r; updatedAt := now |}.

Definition set_evidence (r : relay) (s : state) (e : evidence) (version now : Z) : relay := {|
  ident := ident r; status := s; ev := e; evidenceVersion := version;
  mintTxHash := mintTxHash r; reasonCode := reasonCode r; attempts := attempts r;
  leaseToken := leaseToken r; leaseExpiresAt := leaseExpiresAt r; updatedAt := now |}.

Definition set_mint (r : relay) (s : state) (hash : option chars) (now : Z) : relay := {|
  ident := ident r; status := s; ev := ev r; evidenceVersion := evidenceVersion r;
  mintTxHash := hash; reasonCode := reasonCode r; attempts := attempts r;
  leaseToken := leaseToken r; leaseExpiresAt := leaseExpiresAt r; updatedAt := now |}.

(** A final state, without a lease. *)
Definition set_final (r : relay) (s : state) (hash : option chars) (reason : option string) (now : Z)
    : relay := {|
  ident := ident r; status := s; ev := ev r; evidenceVersion := evidenceVersion r;
  mintTxHash := hash; reasonCode := reason; attempts := attempts r;
  leaseToken := None; leaseExpiresAt := None; updatedAt := now |}.

Definition count_attempt (r : relay) : relay := {|
  ident := ident r; status := status r; ev := ev r; evidenceVersion := evidenceVersion r;
  mintTxHash := mintTxHash r; reasonCode := reasonCode r; attempts := attempts r + 1;
  leaseToken := leaseToken r; leaseExpiresAt := leaseExpiresAt r; updatedAt := updatedAt r |}.

Definition assertLease (current : option relay) (token : string) (now : Z)
    : result relay_error relay :=
  match current with
  | None => conflict
  | Some r =>
      if bool_decide (token = EmptyString) || negb (bool_decide (leaseToken r = Some token))
      then conflict
      else
        match leaseExpiresAt r with
        | Some expires =>
            if negb (isSafeInteger (Num expires)) || (expires <=? now)%Z then conflict else Ok r
        | None => conflict
        end
  end.

Definition relayClaim (current : option relay) (now leaseMs : num) (token : string)
    : result relay_error (option relay) :=
  args ← requireLeaseArgs now leaseMs;
  match current with
  | None => Ok None
  | Some r =>
      if negb (claimable (status r)) then Ok None
      else
        match leaseToken r with
        | Some _ => Ok None
        | None =>
            Ok (Some (set_lease (count_attempt r) (Some token) (Some (args.1 + args.2)%Z) args.1))
        end
  end.

Definition relayRenew (current : option relay) (token : string) (now leaseMs : num)
    : result relay_error relay :=
  args ← requireLeaseArgs now leaseMs;
  r ← assertLease current token args.1;
  if terminal (status r) then conflict
  else Ok (set_lease r (leaseToken r) (Some (args.1 + args.2)%Z) args.1).

(** [None] when nothing changes. *)
Definition relayRecordAttested (current : option relay) (token : string)
    (message nonce attestation : val) (now : num) : result relay_error (option relay) :=
  now ← requireNow now;
  e ← normalizeEvidence message nonce attestation;
  r ← assertLease current token now;
  if decide (status r = attestation_pending) then Ok (Some (set_evidence r attested e 1 now))
  else if negb (bool_decide (status r = attested)) then conflict
  else if negb (bool_decide (messageHex e = messageHex (ev r)))
          || negb (bool_decide (nonceHex e = nonceHex (ev r)))
  then conflict
  else if bool_decide (attestationHex e = attestationHex (ev r)) then Ok None
  else
    let e' := {| messageHex := messageHex (ev r); nonceHex := nonceHex (ev r);
                 messageDigest := messageDigest (ev r); attestationHex := attestationHex e;
                 attestationDigest := attestationDigest e |} in
    Ok (Some (set_evidence r (status r) e' (evidenceVersion r + 1) now)).

Definition relayMarkMintSubmitting (current : option relay) (token : string) (now : num)
    : result relay_error relay :=
  now ← requireNow now;
  r ← assertLease current token now;
  if negb (bool_decide (status r = attested)) then conflict
  else Ok (set_status r mint_submitting now).

(** [normalizeMintTxHash(current.sourceDomain, v)]: no domain is no Stellar or Base domain. *)
Definition record_mint_hash (r : relay) (v : val) : result relay_error chars :=
  match sourceDomain (ident r) with
  | Some d => source ← normalizeSourceDomain (number d); normalizeMintTxHash source v
  | None => invalid
  end.

Definition relayMarkMintSubmitted (current : option relay) (token : string) (mintTxHash_ : val)
    (now : num) : result relay_error relay :=
  now ← requireNow now;
  match current with
  | None => conflict
  | Some r =>
      hash ← record_mint_hash r mintTxHash_;
      r ← assertLease current token now;
      if negb (bool_decide (status r = mint_submitting)) then conflict
      else Ok (set_mint r mint_submitted (Some hash) now)
  end.

Definition relayFinishMinted (current : option relay) (token : string) (mintTxHash_ : val)
    (now : num) : result relay_error relay :=
  now ← requireNow now;
  r ← assertLease current token now;
  if negb (bool_decide (status r = mint_submitted)) then conflict
  else
    hash ← record_mint_hash r mintTxHash_;
    if negb (bool_decide (mintTxHash r = Some hash)) then conflict
    else Ok (set_final r minted (mintTxHash r) (reasonCode r) now).

Definition relayFinishBlocked (current : option relay) (token reason : string) (now : num)
    : result relay_error relay :=
  now ← requireNow now;
  if negb (bool_decide (reason ∈ RELAY_BLOCKED_REASONS)) then invalid
  else
    r ← assertLease current token now;
    if terminal (status r) then conflict
    else Ok (set_final r blocked (mintTxHash r) (Some reason) now).

Definition relayFinishUncertain (current : option relay) (token : string) (mintTxHash_ : val)
    (reason : string) (now : num) : result relay_error relay :=
  now ← requireNow now;
  if negb (bool_decide (reason ∈ RELAY_UNCERTAIN_REASONS)) then invalid
  else
    match current with
    | None => conflict
    | Some r =>
        hash ← match mintTxHash_ with
               | Undefined => Ok None
               | v => h ← record_mint_hash r v; Ok (Some h)
               end;
        r ← assertLease current token now;
        if negb (bool_decide (status r = mint_submitting))
           && negb (bool_decide (status r = mint_submitted))
        then conflict
        else
          Ok (set_final r uncertain (match hash with Some h => Some h | None => mintTxHash r end)
                (Some reason) now)
    end.

Definition relayRelease (current : option relay) (token : string) (now : num)
    : result relay_error relay :=
  now ← requireNow now;
  r ← assertLease current token now;
  if negb (claimable (status r)) then conflict else Ok (set_lease r None None now).

Definition relayReconcileExpired (r : relay) (now : Z) : relay :=
  if decide (status r = mint_submitting)
  then set_final r uncertain (mintTxHash r) (Some "submission_lease_expired") now
  else set_lease r None None now.

(** ** Persisted records, as [JSON.parse] gives them *)
Definition state_name (s : state) : string :=
  match s with
  | attestation_pending => "attestation_pending" | attested => "attested"
  | mint_submitting => "mint_submitting" | mint_submitted => "mint_submitted"
  | minted => "minted" | blocked => "blocked" | uncertain => "uncertain"
  end.
Definition RELAY_ALL_STATES : list state :=
  [attestation_pending; attested; mint_submitting; mint_submitted; minted; blocked; uncertain].

(** [names.includes(v)] *)
Definition one_of (names : list string) (v : val) : bool :=
  existsb (fun s => strict_eq v (Str s)) names.

Definition valid (b : bool) : result relay_error unit := guard_throw b RELAY_VALIDATION.
(** [v === text] for a computed text. *)
Definition is_text (v : val) (t : option chars) : bool :=
  match t with Some t => strict_eq (Str (string_of t)) v | None => false end.
Definition safe_at_least (v : val) (least : Z) : bool :=
  is_safe_integer v && (least <=? integer_of v)%Z.

Definition check_shape (record : val) : bool :=
  is_object record
  && is_string record#"execId" && negb (strict_eq record#"execId" (Str EmptyString))
  && one_of (map state_name RELAY_ALL_STATES) record#"state"
  && safe_at_least record#"attempts" 0 && safe_at_least record#"createdAt" 0
  && safe_at_least record#"updatedAt" (integer_of record#"createdAt").

Definition leaseAbsent (record : val) : bool :=
  strict_eq record#"leaseToken" Null && strict_eq record#"leaseExpiresAt" Null.
Definition leasePresent (record : val) : bool :=
  is_string record#"leaseToken" && negb (strict_eq record#"leaseToken" (Str EmptyString))
  && safe_at_least record#"leaseExpiresAt" 0.

Definition check_binding (record : val) : result relay_error Z :=
  source ← normalizeSourceDomain record#"sourceDomain";
  burn ← normalizeBurnTxHash source record#"burnTxHash";
  _ ← valid (is_text record#"burnTxHash" (Some burn));
  e ← canonicalizeExpectation record#"expectation";
  _ ← valid (strict_eq e#"sourceDomain" (number source));
  match JSON.stringify e, JSON.stringify record#"expectation" with
  | Ok t, Ok t' =>
      _ ← valid (bool_decide (t = t'));
      digest ← expectationDigest e;
      _ ← valid (is_text record#"expectationDigest" (Some digest));
      Ok source
  | _, _ => Throw TypeError
  end.

Definition evidence_keys : list string :=
  ["messageHex"; "nonceHex"; "messageDigest"; "attestationHex"; "attestationDigest"].
Definition hasEvidence (record : val) : bool :=
  forallb (fun k => negb (strict_eq (get record k) Null)) evidence_keys.

Definition check_evidence (record : val) : result relay_error unit :=
  if hasEvidence record then
    e ← normalizeEvidence record#"messageHex" record#"nonceHex" record#"attestationHex";
    valid (is_text record#"messageHex" (messageHex e) && is_text record#"nonceHex" (nonceHex e)
           && is_text record#"messageDigest" (messageDigest e)
           && is_text record#"attestationHex" (attestationHex e)
           && is_text record#"attestationDigest" (attestationDigest e)
           && safe_at_least record#"evidenceVersion" 1)
  else
    _ ← valid (forallb (fun k => strict_eq (get record k) Null) evidence_keys);
    valid (strict_eq record#"evidenceVersion" (number 0)).

Definition in_state (record : val) (s : state) : bool :=
  strict_eq record#"state" (Str (state_name s)).

Definition check_agreement (record : val) : bool :=
  let evidenceRequired :=
    existsb (in_state record) [attested; mint_submitting; mint_submitted; minted; uncertain] in
  (Bool.eqb evidenceRequired (hasEvidence record) || in_state record blocked)
  && negb (in_state record attestation_pending && hasEvidence record)
  && negb (in_state record mint_submitting && negb (leasePresent record)).

Definition check_mint (source : Z) (record : val) : result relay_error unit :=
  let needsMintHash :=
    existsb (in_state record) [mint_submitted; minted]
    || in_state record blocked && strict_eq record#"reasonCode" (Str "destination_reverted") in
  _ ← (if negb (strict_eq record#"mintTxHash" Null) then
         hash ← normalizeMintTxHash source record#"mintTxHash";
         valid (is_text record#"mintTxHash" (Some hash))
       else valid (negb needsMintHash));
  valid (needsMintHash || in_state record uncertain || strict_eq record#"mintTxHash" Null).

Definition check_reason (record : val) : bool :=
  if in_state record blocked then one_of RELAY_BLOCKED_REASONS record#"reasonCode"
  else if in_state record uncertain then one_of RELAY_UNCERTAIN_REASONS record#"reasonCode"
  else strict_eq record#"reasonCode" Null.

Definition assertCanonicalRelayRecord (record : val) : result relay_error val :=
  _ ← valid (check_shape record);
  _ ← valid (leaseAbsent record || leasePresent record);
  _ ← valid (negb (existsb (in_state record) RELAY_TERMINAL_STATES) || leaseAbsent record);
  if strict_eq record#"reasonCode" (Str "legacy_record_unrecoverable") then
    _ ← valid (in_state record blocked && leaseAbsent record
               && strict_eq record#"mintTxHash" Null);
    Ok record
  else
    source ← check_binding record;
    _ ← check_evidence record;
    _ ← valid (check_agreement record);
    _ ← check_mint source record;
    _ ← valid (check_reason record);
    Ok record.

(** A record as [JSON.stringify] writes it. *)
Definition or_null {A} (f : A -> val) (o : option A) : val :=
  match o with Some a => f a | None => Null end.
Definition text (l : chars) : val := Str (string_of l).

Definition record_val (r : relay) : val :=
  Obj [("execId", Str (execId (ident r))); ("sourceDomain", or_null number (sourceDomain (ident r)));
       ("burnTxHash", or_null text (burnTxHash (ident r)));
       ("expectation", or_null id (expectation (ident r)));
       ("expectationDigest", or_null text (expectationDigest_ (ident r)));
       ("state", Str (state_name (status r)));
       ("messageHex", or_null text (messageHex (ev r))); ("nonceHex", or_null text (nonceHex (ev r)));
       ("messageDigest", or_null text (messageDigest (ev r)));
       ("attestationHex", or_null text (attestationHex (ev r)));
       ("attestationDigest", or_null text (attestationDigest (ev r)));
       ("evidenceVersion", number (evidenceVersion r));
       ("mintTxHash", or_null text (mintTxHash r)); ("reasonCode", or_null Str (reasonCode r));
       ("attempts", number (attempts r)); ("leaseToken", or_null Str (leaseToken r));
       ("leaseExpiresAt", or_null number (leaseExpiresAt r));
       ("createdAt", number (createdAt (ident r))); ("updatedAt", number (updatedAt r))].
End Store.
End Strings.
End Relay.
