(* ===== verification/RelayLedger.v ===== *)
(** * The relay store: rows by execution id

    Models [createRelayStore] of [relayer/src/store.mjs] over its memory rows and the opening of
    the file store.  An operation is one critical section: it computes the next rows or throws
    and leaves them alone.  The theorems: what a record keeps through every sequence of
    operations, the exclusion a live lease gives, and the canonical form of persisted records. *)
From S2P Require Export RelayStore.

Module Ledger.
Import Relay.

Notation rows := (gmap string relay).

Section Ops.
Context (sha256 : chars -> chars).

(** ** Orders *)
Definition order := relay -> relay -> bool.

(** [a.k - b.k || next(a, b)] and the comparison of the ids, as "not after". *)
Definition by_key (key : relay -> Z) (next : order) : order := fun a b =>
  (key a <? key b) || (key a =? key b) && next a b.
Definition by_execId : order := fun a b => String.leb (execId (ident a)) (execId (ident b)).

Definition relayByCreated : order := by_key (fun r => createdAt (ident r)) by_execId.
Definition relayByActionableAge : order := by_key updatedAt relayByCreated.
Definition by_expiry : order := by_key (fun r => default 0 (leaseExpiresAt r)) relayByCreated.

(** [Object.values(rows).filter(keep).sort(cmp).slice(0, limit)] *)
Definition select (keep : relay -> bool) (cmp : order) (limit : Z) (m : rows) : list relay :=
  take (Z.to_nat limit)
    (merge_sort (fun a b => Is_true (cmp a b)) (filter (fun r => Is_true (keep r)) (map snd (map_to_list m)))).

Definition require_limit (limit : num) : result relay_error Z :=
  match limit with
  | Num z => if isSafeInteger limit && (0 <? z) then Ok z else invalid
  | _ => invalid
  end.

(** ** Operations *)
Definition enqueue (m : rows) (id : string) (source burn e : val) (now : num)
    : result relay_error (relay * rows) :=
  d ← relayEnqueueDecision sha256 (m !! id)
        (fun s b g => existsb (fun r => relayIdentityConflicts r s b g) (map snd (map_to_list m)))
        id source burn e now;
  Ok (d.1, if d.2 : bool then <[id := d.1]> m else m).

Definition fetch (m : rows) (id : string) : option relay := m !! id.

(** [rows[execId] = outcome.next] *)
Definition put (m : rows) (id : string) (m' : result relay_error relay)
    : result relay_error (relay * rows) :=
  r ← m'; Ok (r, <[id := r]> m).

(** The result is [null] when the claim is refused. *)
Definition claim (m : rows) (id : string) (now leaseMs : num) (token : string)
    : result relay_error (option relay * rows) :=
  o ← relayClaim (m !! id) now leaseMs token;
  match o with
  | Some r => Ok (Some r, <[id := r]> m)
  | None => Ok (None, m)
  end.

Definition renew (m : rows) (id token : string) (now leaseMs : num) :=
  put m id (relayRenew (m !! id) token now leaseMs).

Definition recordAttested (m : rows) (id token : string) (message nonce attestation : val) (now : num)
    : result relay_error (relay * rows) :=
  o ← relayRecordAttested sha256 (m !! id) token message nonce attestation now;
  match o, m !! id with
  | Some r, _ => Ok (r, <[id := r]> m)
  | None, Some r => Ok (r, m)
  | None, None => conflict
  end.

Definition markMintSubmitting (m : rows) (id token : string) (now : num) :=
  put m id (relayMarkMintSubmitting (m !! id) token now).
Definition markMintSubmitted (m : rows) (id token : string) (mint : val) (now : num) :=
  put m id (relayMarkMintSubmitted (m !! id) token mint now).
Definition finishMinted (m : rows) (id token : string) (mint : val) (now : num) :=
  put m id (relayFinishMinted (m !! id) token mint now).
Definition finishBlocked (m : rows) (id token reason : string) (now : num) :=
  put m id (relayFinishBlocked (m !! id) token reason now).
Definition finishUncertain (m : rows) (id token : string) (mint : val) (reason : string) (now : num) :=
  put m id (relayFinishUncertain (m !! id) token mint reason now).
Definition release (m : rows) (id token : string) (now : num) :=
  put m id (relayRelease (m !! id) token now).

Definition unleased (r : relay) : bool := bool_decide (leaseToken r = None).

Definition listForSweep (m : rows) (now limit : num) (includeTerminal : bool)
    : result relay_error (list relay) :=
  _ ← requireNow now;
  limit ← require_limit limit;
  Ok (if includeTerminal
      then select (fun r => negb (bool_decide (status r = minted))) relayByCreated limit m
      else select (fun r => claimable (status r) && unleased r) relayByActionableAge limit m).

Definition listSweepSummary (m : rows) (now limit : num) : result relay_error (list relay) :=
  _ ← requireNow now;
  limit ← require_limit limit;
  Ok (select (fun r => bool_decide (status r ∈ [blocked; uncertain]) || negb (unleased r))
        relayByCreated limit m).

(** A lease that has run out: [leaseExpiresAt <= now] on a safe integer. *)
Definition lease_expired (now : Z) (r : relay) : bool :=
  negb (unleased r)
  && match leaseExpiresAt r with
     | Some e => isSafeInteger (Num e) && (e <=? now)
     | None => false
     end
  && negb (terminal (status r)).

(** The loop over the expired records: each is written under its own id. *)
Definition reconcile_all (now : Z) (m : rows) (expired : list relay) : rows :=
  foldl (fun m r => <[execId (ident r) := relayReconcileExpired r now]> m) m expired.

Definition reconcileExpired (m : rows) (now limit : num)
    : result relay_error (list relay * rows) :=
  now ← requireNow now;
  limit ← require_limit limit;
  let expired := select (lease_expired now) by_expiry limit m in
  Ok (map (fun r => relayReconcileExpired r now) expired, reconcile_all now m expired).

(** [leaseExpiresAt > now], [null] counting as zero. *)
Definition reconcileOne (m : rows) (id : string) (now : num)
    : result relay_error (option relay * rows) :=
  now ← requireNow now;
  match m !! id with
  | None => Ok (None, m)
  | Some r =>
      if terminal (status r) || unleased r || (now <? default 0 (leaseExpiresAt r))
      then Ok (Some r, m)
      else
        let r' := relayReconcileExpired r now in
        Ok (Some r', <[id := r']> m)
  end.

(** What leaves the relayer: no evidence, digest or lease token. *)
Record public_status := {
  pub_execId : string; pub_sourceDomain : option Z; pub_state : state;
  pub_burnTxHash : option chars; pub_mintTxHash : option chars; pub_reasonCode : option string;
  pub_attempts : Z; pub_createdAt : Z; pub_updatedAt : Z;
}.

Definition relayStatusOf (record : option relay) : option public_status :=
  match record with
  | None => None
  | Some r =>
      Some {| pub_execId := execId (ident r); pub_sourceDomain := sourceDomain (ident r);
              pub_state := status r; pub_burnTxHash := burnTxHash (ident r);
              pub_mintTxHash := mintTxHash r; pub_reasonCode := reasonCode r;
              pub_attempts := attempts r; pub_createdAt := createdAt (ident r);
              pub_updatedAt := updatedAt r |}
  end.

Definition statusOf (m : rows) (id : string) : option public_status := relayStatusOf (m !! id).

(** ** One interface *)
Inductive request :=
| Enqueue (id : string) (source burn e : val) (now : num)
| Claim (id : string) (now leaseMs : num) (token : string)
| Renew (id token : string) (now leaseMs : num)
| RecordAttested (id token : string) (message nonce attestation : val) (now : num)
| MarkMintSubmitting (id token : string) (now : num)
| MarkMintSubmitted (id token : string) (mint : val) (now : num)
| FinishMinted (id token : string) (mint : val) (now : num)
| FinishBlocked (id token reason : string) (now : num)
| FinishUncertain (id token : string) (mint : val) (reason : string) (now : num)
| Release (id token : string) (now : num)
| ReconcileExpired (now limit : num)
| ReconcileOne (id : string) (now : num).

Definition one (m : result relay_error (relay * rows)) : result relay_error (list relay * rows) :=
  p ← m; Ok ([p.1], p.2).
Definition at_most_one (m : result relay_error (option relay * rows))
    : result relay_error (list relay * rows) :=
  p ← m; Ok (match p.1 with Some r => [r] | None => [] end, p.2).

(** The records the call returns, and the rows after it. *)
Definition perform (m : rows) (q : request) : result relay_error (list relay * rows) :=
  match q with
  | Enqueue id source burn e now => one (enqueue m id source burn e now)
  | Claim id now leaseMs token => at_most_one (claim m id now leaseMs token)
  | Renew id token now leaseMs => one (renew m id token now leaseMs)
  | RecordAttested id token message nonce attestation now =>
      one (recordAttested m id token message nonce attestation now)
  | MarkMintSubmitting id token now => one (markMintSubmitting m id token now)
  | MarkMintSubmitted id token mint now => one (markMintSubmitted m id token mint now)
  | FinishMinted id token mint now => one (finishMinted m id token mint now)
  | FinishBlocked id token reason now => one (finishBlocked m id token reason now)
  | FinishUncertain id token mint reason now => one (finishUncertain m id token mint reason now)
  | Release id token now => one (release m id token now)
  | ReconcileExpired now limit => reconcileExpired m now limit
  | ReconcileOne id now => at_most_one (reconcileOne m id now)
  end.

(** The rows after a call, successful or not, and after a sequence of calls. *)
Definition after (m : rows) (q : request) : rows :=
  match perform m q with Ok p => p.2 | Throw _ => m end.
Definition run (m : rows) (qs : list request) : rows := foldl after m qs.

(** Each record is stored under its own id. *)
Definition keyed (m : rows) : Prop := map_Forall (fun id r => execId (ident r) = id) m.
End Ops.
End Ledger.

(** ** What a call does to one record *)
Section Steps.
Import Relay Ledger.
Context (sha256 : chars -> chars).

(** The transition of an existing record that a call makes. *)
Inductive touched : request -> relay -> relay -> Prop :=
| touch_claim id now ms token r r' :
    relayClaim (Some r) now ms token = Ok (Some r') -> touched (Claim id now ms token) r r'
| touch_renew id token now ms r r' :
    relayRenew (Some r) token now ms = Ok r' -> touched (Renew id token now ms) r r'
| touch_record id token m n a now r r' :
    relayRecordAttested sha256 (Some r) token m n a now = Ok (Some r') ->
    touched (RecordAttested id token m n a now) r r'
| touch_submitting id token now r r' :
    relayMarkMintSubmitting (Some r) token now = Ok r' -> touched (MarkMintSubmitting id token now) r r'
| touch_submitted id token mint now r r' :
    relayMarkMintSubmitted (Some r) token mint now = Ok r' ->
    touched (MarkMintSubmitted id token mint now) r r'
| touch_minted id token mint now r r' :
    relayFinishMinted (Some r) token mint now = Ok r' -> touched (FinishMinted id token mint now) r r'
| touch_blocked id token reason now r r' :
    relayFinishBlocked (Some r) token reason now = Ok r' ->
    touched (FinishBlocked id token reason now) r r'
| touch_uncertain id token mint reason now r r' :
    relayFinishUncertain (Some r) token mint reason now = Ok r' ->
    touched (FinishUncertain id token mint reason now) r r'
| touch_release id token now r r' :
    relayRelease (Some r) token now = Ok r' -> touched (Release id token now) r r'
| touch_expired now limit z r :
    requireNow now = Ok z -> lease_expired z r = true ->
    touched (ReconcileExpired now limit) r (relayReconcileExpired r z)
| touch_one id now z r :
    requireNow now = Ok z -> terminal (status r) = false -> unleased r = false ->
    default 0 (leaseExpiresAt r) <= z ->
    touched (ReconcileOne id now) r (relayReconcileExpired r z).

(** The record a first [enqueue] writes. *)
Definition created (q : request) (id : string) (r : relay) : Prop :=
  match q with
  | Enqueue id' source burn e now =>
      id' = id /\ exists conflicts,
        relayEnqueueDecision sha256 None conflicts id source burn e now = Ok (r, true)
  | _ => False
  end.

Lemma select_In keep cmp limit m r :
  r ∈ select keep cmp limit m -> keep r = true /\ exists id, m !! id = Some r.
Proof.
  unfold select. intros Hin%elem_of_take. destruct Hin as (i & Hi & _).
  apply list_elem_of_lookup_2 in Hi. rewrite merge_sort_Permutation in Hi.
  apply list_elem_of_filter in Hi as [Hk Hi]. split; [by apply Is_true_true|].
  apply list_elem_of_fmap in Hi as ([id r'] & -> & Hi).
  exists id. by apply elem_of_map_to_list in Hi.
Qed.

Lemma reconcile_all_lookup now m l id :
  Forall (fun r => m !! execId (ident r) = Some r) l ->
  reconcile_all now m l !! id = m !! id
  \/ exists r, r ∈ l /\ m !! id = Some r
      /\ reconcile_all now m l !! id = Some (relayReconcileExpired r now).
Proof.
  unfold reconcile_all. induction l as [|r l IH] using rev_ind; intros HF; [by left|].
  apply Forall_app in HF as [HF Hr]. rewrite Forall_singleton in Hr. rewrite foldl_app. cbn.
  destruct (decide (execId (ident r) = id)) as [<-|Hid].
  - right. exists r. rewrite lookup_insert_eq. set_solver.
  - rewrite lookup_insert_ne by done. destruct (IH HF) as [H|(r0 & ? & ? & ?)]; [by left|].
    right. exists r0. split; [apply elem_of_app; by left|done].
Qed.

Lemma reconcile_all_In now m l r :
  Forall (fun r => m !! execId (ident r) = Some r) l -> r ∈ l ->
  reconcile_all now m l !! execId (ident r) = Some (relayReconcileExpired r now).
Proof.
  unfold reconcile_all. induction l as [|r' l IH] using rev_ind; intros HF Hin; [by apply elem_of_nil in Hin|].
  apply Forall_app in HF as [HF Hr']. rewrite Forall_singleton in Hr'. rewrite foldl_app. cbn.
  apply elem_of_app in Hin as [Hin|Hin%list_elem_of_singleton]; [|subst; by rewrite lookup_insert_eq].
  destruct (decide (execId (ident r') = execId (ident r))) as [E|E].
  - rewrite E, lookup_insert_eq. rewrite Forall_forall in HF. specialize (HF r Hin). rewrite E in Hr'. congruence.
  - rewrite lookup_insert_ne by done. by apply IH.
Qed.

(** A row after a call: the same, touched by the call, or created by it. *)
Definition row_after (m m' : rows) (q : request) (id : string) : Prop :=
  m' !! id = m !! id
  \/ (exists r r', m !! id = Some r /\ m' !! id = Some r' /\ touched q r r')
  \/ (exists r, m !! id = None /\ m' !! id = Some r /\ created q id r).

Lemma write_row m id0 r r' q id :
  m !! id0 = Some r -> touched q r r' -> row_after m (<[id0 := r']> m) q id.
Proof.
  intros Hr Ht. destruct (decide (id0 = id)) as [<-|Hid].
  - right; left. exists r, r'. by rewrite lookup_insert_eq.
  - left. by rewrite lookup_insert_ne.
Qed.

(** No transition but the first [enqueue] starts without a record. *)
Lemma put_row m id0 m' p q id :
  put m id0 m' = Ok p ->
  (m !! id0 = None -> forall r', m' <> Ok r') ->
  (forall r r', m !! id0 = Some r -> m' = Ok r' -> touched q r r') ->
  row_after m p.2 q id.
Proof.
  unfold put. intros H Hn Ht. apply bind_Ok in H as (r' & H & [= <-]). cbn [snd].
  destruct (m !! id0) as [r|] eqn:E; [eapply write_row; eauto|]. by destruct (Hn eq_refl r').
Qed.

Ltac put_case E id0 :=
  let p := fresh "p" in
  apply bind_Ok in E as (p & E & [= <- <-]);
  eapply (put_row _ id0); [exact E|..];
  [ let N := fresh in let H := fresh in intros N ? H; rewrite N in H;
    unfold relayRenew, relayMarkMintSubmitting, relayMarkMintSubmitted, relayFinishMinted,
      relayFinishBlocked, relayFinishUncertain, relayRelease, conflict, invalid in H;
    invert_ok H; try done
  | let S := fresh in let H := fresh in intros ? ? S H; rewrite S in H; by econstructor ].

Lemma enqueue_existing r conflicts id s b e now d :
  relayEnqueueDecision sha256 (Some r) conflicts id s b e now = Ok d -> d = (r, false).
Proof. unfold relayEnqueueDecision. intros H. invert_ok H; done. Qed.

Lemma after_row m q id : keyed m -> row_after m (after sha256 m q) q id.
Proof.
  intros Hk. unfold after. destruct (perform sha256 m q) as [[out m']|] eqn:E; [|by left].
  cbn [snd]. destruct q as [id0 s b e now|id0 now ms t|id0 t now ms|id0 t ms n a now|id0 t now
    |id0 t mint now|id0 t mint now|id0 t re now|id0 t mint re now|id0 t now|now limit|id0 now];
    cbn [perform] in E; unfold one, at_most_one in E.
  - apply bind_Ok in E as (p & E & [= <- <-]). unfold enqueue in E.
    apply bind_Ok in E as ([r c] & E & [= <-]). cbn [fst snd] in *.
    destruct c; [|by left]. destruct (m !! id0) as [r0|] eqn:Er.
    { apply enqueue_existing in E. naive_solver. }
    destruct (decide (id0 = id)) as [<-|Hid]; [|left; by rewrite lookup_insert_ne].
    right; right. exists r. rewrite lookup_insert_eq. cbn. eauto.
  - apply bind_Ok in E as (p & E & [= <- <-]). unfold claim in E.
    apply bind_Ok in E as (o & E & H). destruct o as [r'|]; injection H as <-; [|by left].
    destruct (m !! id0) as [r|] eqn:Er.
    + eapply write_row; [done|by econstructor].
    + unfold relayClaim in E. invert_ok E.
  - put_case E id0.
  - apply bind_Ok in E as (p & E & [= <- <-]). unfold recordAttested in E.
    apply bind_Ok in E as (o & E & H).
    destruct (m !! id0) as [r|] eqn:Er.
    + destruct o; injection H as <-; [|by left]. eapply write_row; [done|by econstructor].
    + unfold relayRecordAttested in E. invert_ok E; done.
  - put_case E id0.
  - put_case E id0.
  - put_case E id0.
  - put_case E id0.
  - put_case E id0.
  - put_case E id0.
  - unfold reconcileExpired in E. invert_ok E.
    rename x into z. match goal with H : requireNow _ = _ |- _ => rename H into Hz end.
    destruct (reconcile_all_lookup z m (select (lease_expired z) by_expiry x0 m) id)
      as [?|(r & Hr & Hm & Ha)]; [|by left|].
    + apply Forall_forall. intros r (_ & id' & Hid)%select_In. by rewrite (Hk _ _ Hid).
    + right; left. exists r, (relayReconcileExpired r z). apply select_In in Hr as [Hr _].
      split_and!; try done. by econstructor.
  - unfold reconcileOne in E. apply bind_Ok in E as (p & E & [= <- <-]).
    apply bind_Ok in E as (z & Hz & E).
    destruct (m !! id0) as [r|] eqn:Er; [|injection E as <-; by left].
    destruct (terminal _ || _ || _) eqn:Eg; injection E as <-; [by left|].
    zbool. eapply write_row; [done|]. by econstructor.
Qed.

(** ** What a record keeps *)
Definition rank (s : state) : nat :=
  match s with
  | attestation_pending => 0 | attested => 1 | mint_submitting => 2 | mint_submitted => 3
  | minted | blocked | uncertain => 4
  end.

(** The message of the evidence: everything but the attestation, which may be replaced. *)
Definition message_of (e : evidence) := (messageHex e, nonceHex e, messageDigest e).

Record evolves (r r' : relay) : Prop := {
  ev_ident : ident r' = ident r;
  ev_rank : (rank (status r) <= rank (status r'))%nat;
  ev_terminal : terminal (status r) = true -> r' = r;
  ev_message : status r <> attestation_pending -> message_of (ev r') = message_of (ev r);
  ev_frozen : (2 <= rank (status r))%nat ->
    ev r' = ev r /\ evidenceVersion r' = evidenceVersion r;
  ev_mint : status r = mint_submitted ->
    mintTxHash r' = mintTxHash r \/ status r' = uncertain;
  ev_minted : status r' = minted -> status r = mint_submitted -> mintTxHash r' = mintTxHash r;
  ev_attempts : attempts r <= attempts r';
}.

Lemma terminal_rank s : terminal s = true <-> rank s = 4%nat.
Proof. destruct s; cbn; split; intros; discriminate || done. Qed.

Lemma evolves_refl r : evolves r r.
Proof. split; auto; lia. Qed.

Lemma evolves_trans r1 r2 r3 : evolves r1 r2 -> evolves r2 r3 -> evolves r1 r3.
Proof.
  intros [i1 k1 t1 m1 f1 h1 n1 a1] [i2 k2 t2 m2 f2 h2 n2 a2]. split.
  - congruence.
  - lia.
  - intros Ht. rewrite t2; [by apply t1|]. by rewrite t1.
  - intros Hs. rewrite m2, m1; try done. intros Hp. rewrite Hp in k1. cbn in k1.
    destruct (status r1); done || (cbn in k1; lia).
  - intros Hr. destruct (f1 Hr) as [<- <-]. apply f2. lia.
  - intros Hs. destruct (decide (terminal (status r2) = true)) as [Ht|Ht].
    + rewrite (t2 Ht) in *. auto.
    + assert (status r2 = mint_submitted) as Hs2.
      { rewrite Hs in k1. rewrite terminal_rank in Ht. destruct (status r2); cbn in *; lia || done. }
      destruct (h2 Hs2) as [->|]; [|by right]. destruct (h1 Hs) as [|Hu]; [by left|congruence].
  - intros Hm Hs. destruct (decide (terminal (status r2) = true)) as [Ht|Ht].
    + rewrite (t2 Ht) in *. auto.
    + assert (status r2 = mint_submitted) as Hs2.
      { rewrite Hs in k1. rewrite terminal_rank in Ht. destruct (status r2); cbn in *; lia || done. }
      rewrite (n2 Hm Hs2). destruct (h1 Hs) as [|Hu]; [done|congruence].
  - lia.
Qed.

Lemma assertLease_Ok r token now r' :
  assertLease (Some r) token now = Ok r' ->
  r' = r /\ token <> EmptyString /\ leaseToken r = Some token
  /\ exists e, leaseExpiresAt r = Some e /\ isSafeInteger (Num e) = true /\ now < e.
Proof.
  unfold assertLease, conflict. intros H. invert_ok H. zbool.
  repeat match goal with H : bool_decide _ = _ |- _ => apply bool_decide_eq_true in H || apply bool_decide_eq_false in H end.
  eauto 10.
Qed.

End Steps.

Create HintDb relay_ops discriminated.
#[export] Hint Unfold Relay.relayClaim Relay.relayRenew Relay.relayRecordAttested
  Relay.relayMarkMintSubmitting Relay.relayMarkMintSubmitted Relay.relayFinishMinted
  Relay.relayFinishBlocked Relay.relayFinishUncertain Relay.relayRelease Relay.conflict
  Relay.invalid : relay_ops.

(** The facts of a transition: the lease it shows, the tests it passed. *)
Ltac touch_cases H :=
  destruct H;
  repeat match goal with
    | H : _ = Ok _ |- _ => progress autounfold with relay_ops in H; invert_ok H
    | H : Relay.assertLease (Some _) _ _ = Ok _ |- _ =>
        apply assertLease_Ok in H as (-> & ? & ? & ? & ? & ? & ?)
    end;
  zbool;
  repeat match goal with
    | H : bool_decide _ = true |- _ => apply bool_decide_eq_true in H
    | H : bool_decide _ = false |- _ => apply bool_decide_eq_false in H
    end.

Section History.
Import Relay Ledger.
Context (sha256 : chars -> chars).
Notation touched := (touched sha256).
Notation after_row := (after_row sha256).

Lemma touched_evolves q r r' : touched q r r' -> evolves r r'.
Proof.
  intros H. touch_cases H.
  all: unfold lease_expired in *; zbool.
  all: try unfold relayReconcileExpired; try destruct (decide _).
  all: split; cbn; try done; try lia.
  all: destruct (status r); cbn in *; try discriminate; try congruence; try lia; auto.
  all: by intros [=].
Qed.

Lemma after_keyed m q : keyed m -> keyed (after sha256 m q).
Proof.
  intros Hk id r Hr. destruct (after_row m q id Hk) as [H|[(r0 & r' & H0 & H1 & Ht)|(r' & H0 & H1 & Hc)]].
  - rewrite H in Hr. by apply Hk.
  - rewrite H1 in Hr. injection Hr as <-. rewrite (ev_ident _ _ (touched_evolves _ _ _ Ht)). by apply Hk.
  - rewrite H1 in Hr. injection Hr as <-. destruct q; try done. destruct Hc as (-> & c & Hc).
    unfold relayEnqueueDecision, relayNewPendingRecord in Hc. invert_ok Hc.
    match goal with H : requireNow now ≫= _ = _ |- _ => by invert_ok H end.
Qed.

Lemma after_evolves m q id r :
  keyed m -> m !! id = Some r -> exists r', after sha256 m q !! id = Some r' /\ evolves r r'.
Proof.
  intros Hk Hr. destruct (after_row m q id Hk) as [H|[(r0 & r' & H0 & H1 & Ht)|(r' & H0 & _)]].
  - exists r. split; [congruence|apply evolves_refl].
  - simplify_eq. eauto using touched_evolves.
  - congruence.
Qed.

Lemma run_keyed m qs : keyed m -> keyed (run sha256 m qs).
Proof. revert m. induction qs; cbn; eauto using after_keyed. Qed.

(** C17. Whatever calls follow, an execution keeps its identity, burn and expectation, its state
    only moves forward, a final record never changes again, the message is fixed once attested,
    all the evidence once the submission fence is crossed, and a record is only confirmed with
    the mint hash that was written before. *)
Theorem relay_history m qs id r :
  keyed m -> m !! id = Some r ->
  exists r', run sha256 m qs !! id = Some r' /\ evolves r r'.
Proof.
  revert m r. induction qs as [|q qs IH]; intros m r Hk Hr; [eauto using evolves_refl|].
  destruct (after_evolves m q id r Hk Hr) as (r1 & H1 & E1).
  destruct (IH _ r1 (after_keyed _ q Hk) H1) as (r2 & H2 & E2). eauto using evolves_trans.
Qed.

(** ** The lease *)
Definition time_of (q : request) : num :=
  match q with
  | Enqueue _ _ _ _ now | Claim _ now _ _ | Renew _ _ now _ | RecordAttested _ _ _ _ _ now
  | MarkMintSubmitting _ _ now | MarkMintSubmitted _ _ _ now | FinishMinted _ _ _ now
  | FinishBlocked _ _ _ now | FinishUncertain _ _ _ _ now | Release _ _ now
  | ReconcileExpired now _ | ReconcileOne _ now => now
  end.

(** The lease token a call presents. *)
Definition token_of (q : request) : option string :=
  match q with
  | Renew _ t _ _ | RecordAttested _ t _ _ _ _ | MarkMintSubmitting _ t _ | MarkMintSubmitted _ t _ _
  | FinishMinted _ t _ _ | FinishBlocked _ t _ _ | FinishUncertain _ t _ _ _ | Release _ t _ => Some t
  | Enqueue _ _ _ _ _ | Claim _ _ _ _ | ReconcileExpired _ _ | ReconcileOne _ _ => None
  end.

(** The call comes before the lease runs out and does not show its token. *)
Definition excluded (token : string) (expires : Z) (q : request) : Prop :=
  token_of q <> Some token /\ forall z, time_of q = Num z -> z < expires.

Lemma requireNow_Ok now z : requireNow now = Ok z -> now = Num z /\ isSafeInteger (Num z) = true.
Proof. unfold requireNow, invalid. intros H. invert_ok H. done. Qed.

Lemma held_touched q r r' token expires :
  leaseToken r = Some token -> leaseExpiresAt r = Some expires -> excluded token expires q ->
  ~ touched q r r'.
Proof.
  intros Ht He [Hq Hz] H. touch_cases H; cbn in Hq; try congruence.
  - apply requireNow_Ok in H as [-> _]. unfold lease_expired in *. zbool.
    rewrite He in *. zbool. specialize (Hz _ eq_refl). lia.
  - apply requireNow_Ok in H as [-> _]. rewrite He in *. cbn in *. specialize (Hz _ eq_refl). lia.
Qed.

(** While the lease of a record runs, no sequence of calls that come before its end and do
    not show its token changes the record: another worker cannot claim it, checkpoint,
    finish, release or reconcile it. *)
Theorem held_lease_exclusive m qs id r token expires :
  keyed m -> m !! id = Some r -> leaseToken r = Some token -> leaseExpiresAt r = Some expires ->
  Forall (excluded token expires) qs -> run sha256 m qs !! id = Some r.
Proof.
  intros Hk Hr Ht He HF. revert m Hk Hr. induction HF as [|q qs Hq HF IH]; intros m Hk Hr; [done|].
  cbn. apply IH; [by apply after_keyed|].
  destruct (after_row m q id Hk) as [->|[(r0 & r' & H0 & H1 & Htc)|(r' & H0 & _)]]; [done| |congruence].
  simplify_eq. by edestruct held_touched.
Qed.
End History.

(** ** A concrete execution *)
Module RelaySample.
Import Relay Ledger.
Local Open Scope string_scope.
Local Open Scope list_scope.

(** A stand-in for SHA-256: the length of its input, in decimal. *)
Definition sha (l : chars) : chars := to_digits (Z.of_nat (length l)).
Definition bytes32 (c : ascii) : string := string_of ("0" :: "x" :: replicate 64 c)%char.
Definition hex64 (c : ascii) : string := string_of (replicate 64 c).

Definition expectation : val :=
  Obj [("version", number 1); ("direction", Str "stellar-to-base"); ("sourceDomain", number 27);
       ("destinationDomain", number 6); ("sender", Str (bytes32 "1")); ("recipient", Str (bytes32 "2"));
       ("destinationCaller", Str (bytes32 "0")); ("burnToken", Str (bytes32 "3"));
       ("mintRecipient", Str (bytes32 "4")); ("messageSender", Str (bytes32 "5"));
       ("amount", Str "1"); ("burnUnits7", Str "10"); ("maxFee", Str "0");
       ("minFinalityThreshold", number 2000); ("hookData", Str "0x")].

Definition enqueued : request :=
  Enqueue "e" (number 27) (Str (hex64 "a")) expectation (Num 1).
(** A worker takes the record through attestation, submission and confirmation. *)
Definition worker : list request :=
  [Claim "e" (Num 2) (Num 100) "t";
   RecordAttested "e" "t" (Str "0xAB") (Str (bytes32 "7")) (Str "0xcd") (Num 3);
   MarkMintSubmitting "e" "t" (Num 4);
   MarkMintSubmitted "e" "t" (Str (bytes32 "8")) (Num 5);
   FinishMinted "e" "t" (Str (bytes32 "8")) (Num 6)].

Definition start : rows := after sha ∅ enqueued.
Definition held : rows := run sha start (take 4 worker).
Definition others : list request :=
  [Claim "e" (Num 7) (Num 100) "u"; FinishBlocked "e" "u" "message_mismatch" (Num 8);
   ReconcileExpired (Num 9) (Num 10); ReconcileOne "e" (Num 10); enqueued].
End RelaySample.

Import Relay Ledger.

Lemma sample_start_keyed : keyed RelaySample.start.
Proof. unfold RelaySample.start. apply after_keyed, map_Forall_empty. Qed.

Lemma sample_held_keyed : keyed RelaySample.held.
Proof. unfold RelaySample.held. apply run_keyed, sample_start_keyed. Qed.

Lemma relay_history_witness :
  exists r r', RelaySample.start !! "e"%string = Some r
    /\ run RelaySample.sha RelaySample.start RelaySample.worker !! "e"%string = Some r'
    /\ evolves r r' /\ status r' = minted.
Proof.
  assert (exists r, RelaySample.start !! "e"%string = Some r) as [r Hr]
    by (eexists; vm_compute; reflexivity).
  destruct (relay_history RelaySample.sha RelaySample.start RelaySample.worker "e" r) as (r' & Hr' & He).
  - exact sample_start_keyed.
  - exact Hr.
  - exists r, r'. refine (conj Hr (conj Hr' (conj He _))).
    assert (status <$> run RelaySample.sha RelaySample.start RelaySample.worker !! "e"%string
            = Some minted) as Hm by (vm_compute; reflexivity).
    rewrite Hr' in Hm. by injection Hm.
Defined.

Lemma held_lease_exclusive_witness :
  exists r, RelaySample.held !! "e"%string = Some r
    /\ run RelaySample.sha RelaySample.held RelaySample.others !! "e"%string = Some r.
Proof.
  assert (exists r, RelaySample.held !! "e"%string = Some r
            /\ leaseToken r = Some "t"%string /\ leaseExpiresAt r = Some 102) as (r & Hr & Ht & He)
    by (eexists; vm_compute; split_and!; reflexivity).
  exists r. refine (conj Hr _).
  apply (held_lease_exclusive RelaySample.sha RelaySample.held RelaySample.others "e" r "t" 102);
    [|exact Hr|exact Ht|exact He|].
  - exact sample_held_keyed.
  - clear. unfold RelaySample.others, RelaySample.enqueued.
    repeat apply Forall_cons_2; [..|apply Forall_nil_2];
      (split; [discriminate|intros z [= <-]; lia]).
Defined.
