(* ===== verification/RelayCanonical.v ===== *)
(** * Persisted relay records

    The canonical form of [relayer/src/store.mjs]: what the store writes passes the check that
    a reopened record must pass, and the opening of the file store turns every other record
    into a final one. *)
From S2P Require Export RelayLedger.

Module RelayFile.
Import Relay.

Section Open.
Context (sha256 : chars -> chars).

Definition isCurrentRelayRecord (row : val) : bool :=
  match assertCanonicalRelayRecord sha256 row with Ok _ => true | Throw _ => false end.

Local Open Scope string_scope.
Local Open Scope list_scope.

(** The tombstone of a record that cannot be resumed. *)
Definition legacyConversion (execId : string) (legacy : val) (now : Z) : val :=
  Obj [("execId", Str execId);
       ("sourceDomain",
        if strict_eq legacy#"sourceDomain" (number STELLAR_DOMAIN)
           || strict_eq legacy#"sourceDomain" (number BASE_DOMAIN)
        then legacy#"sourceDomain" else Null);
       ("burnTxHash", if is_string legacy#"burnTxHash" then legacy#"burnTxHash" else Null);
       ("expectation", Null); ("expectationDigest", Null); ("state", Str "blocked");
       ("messageHex", Null); ("nonceHex", Null); ("messageDigest", Null);
       ("attestationHex", Null); ("attestationDigest", Null); ("evidenceVersion", number 0);
       ("mintTxHash", Null); ("reasonCode", Str "legacy_record_unrecoverable");
       ("attempts", number 0); ("leaseToken", Null); ("leaseExpiresAt", Null);
       ("createdAt", number now); ("updatedAt", number now)].

(** The row as the opened store holds it. *)
Definition open_row (now : Z) (execId : string) (row : val) : val :=
  let current := isCurrentRelayRecord row in
  let unsupportedReverse :=
    current && strict_eq row#"sourceDomain" (number BASE_DOMAIN)
    && negb (existsb (in_state row) RELAY_TERMINAL_STATES) in
  if negb current || unsupportedReverse then legacyConversion execId row now else row.

(** The loop of [createFileStore] over the entries of the file; the clock is read per row. *)
Definition open_file (clock : string -> Z) (file : list (string * val)) : list (string * val) :=
  map (fun f => (f.1, open_row (clock f.1) f.1 f.2)) file.
End Open.
End RelayFile.

Section Persisted.
Import Relay Ledger RelayFile.
Context (sha256 : chars -> chars).

(** ** Normal forms *)
Lemma lower_idemp c : lower (lower c) = lower c.
Proof. destruct c as [[] [] [] [] [] [] [] []]; reflexivity. Qed.

Lemma toLowerCase_idemp l : toLowerCase (toLowerCase l) = toLowerCase l.
Proof. unfold toLowerCase. rewrite <- list_fmap_compose. apply list_fmap_ext. intros. apply lower_idemp. Qed.

Lemma HEX64_lower l : HEX64_CI_RE (toLowerCase l) = HEX64_CI_RE l.
Proof. unfold HEX64_CI_RE, is_hex_ci. fold (toLowerCase (toLowerCase l)). by rewrite toLowerCase_idemp. Qed.

Lemma after_0x_lower l l' : Hex.after_0x l = Some l' -> Hex.after_0x (toLowerCase l) = Some (toLowerCase l').
Proof.
  destruct l as [|a [|b l]]; try done. cbn. destruct (Ascii.eqb_spec a "0") as [->|]; [|done].
  destruct (Ascii.eqb_spec b "x") as [->|]; [|done]. by intros [= ->].
Qed.

Lemma coerce_text l : coerce (text l) = l.
Proof. apply chars_of_string_of. Qed.

Lemma forallb_toLowerCase (f : ascii -> bool) l :
  forallb (fun c => f (lower c)) (toLowerCase l) = forallb (fun c => f (lower c)) l.
Proof. induction l as [|c l IH]; cbn; [done|]. by rewrite lower_idemp, <- IH. Qed.

Lemma EVEN_HEX_lower l : EVEN_HEX_RE (toLowerCase l) = EVEN_HEX_RE l \/ Hex.after_0x l = None.
Proof.
  unfold EVEN_HEX_RE. destruct (Hex.after_0x l) as [l'|] eqn:E; [left|by right].
  rewrite (after_0x_lower _ _ E). unfold even_hex. rewrite forallb_toLowerCase.
  unfold toLowerCase. rewrite length_fmap. by destruct l'.
Qed.

Lemma stellar_hash_idem v h : stellar_hash v = Ok h -> stellar_hash (text h) = Ok h.
Proof.
  unfold stellar_hash, string_matches, test. intros H. invert_ok H. zbool.
  rewrite coerce_text, HEX64_lower, toLowerCase_idemp. cbn.
  by match goal with H : HEX64_CI_RE _ = true |- _ => rewrite H end.
Qed.

Lemma base_hash_idem v h : base_hash v = Ok h -> base_hash (text h) = Ok h.
Proof.
  unfold base_hash. intros H. invert_ok H. cbn [text]. rewrite chars_of_string_of.
  match goal with H : Hex.after_0x _ = _ |- _ => rewrite (after_0x_lower _ _ H) end.
  rewrite HEX64_lower, toLowerCase_idemp.
  by match goal with H : HEX64_CI_RE _ = true |- _ => rewrite H end.
Qed.

Lemma even_hex_idem v h : even_hex_value v = Ok h -> even_hex_value (text h) = Ok h.
Proof.
  unfold even_hex_value, string_matches, test. intros H. invert_ok H. zbool.
  rewrite coerce_text, toLowerCase_idemp. destruct (EVEN_HEX_lower (coerce v)) as [->|Hn].
  - by match goal with H : EVEN_HEX_RE _ = true |- _ => rewrite H end.
  - unfold EVEN_HEX_RE in *. by rewrite Hn in *.
Qed.

Lemma normalizeBurnTxHash_idem d v h : normalizeBurnTxHash d v = Ok h -> normalizeBurnTxHash d (text h) = Ok h.
Proof. unfold normalizeBurnTxHash. destruct (_ =? _); eauto using stellar_hash_idem, base_hash_idem. Qed.

Lemma normalizeMintTxHash_idem d v h : normalizeMintTxHash d v = Ok h -> normalizeMintTxHash d (text h) = Ok h.
Proof. unfold normalizeMintTxHash. destruct (_ =? _); eauto using stellar_hash_idem, base_hash_idem. Qed.

Lemma get_canonical e k :
  k ∈ EXPECTATION_KEY_ORDER -> get (Obj ((fun k => (k, get e k)) <$> EXPECTATION_KEY_ORDER)) k = get e k.
Proof.
  intros Hk. cbn [get]. erewrite In_assoc; [done| |].
  - by apply (bool_decide_unpack _); vm_compute.
  - apply list_elem_of_fmap. eauto.
Qed.

(** Canonicalizing an expectation gives the object itself once it is canonical. *)
Lemma canonicalizeExpectation_idem e c :
  canonicalizeExpectation e = Ok c -> canonicalizeExpectation c = Ok c.
Proof.
  intros H. assert (c = Obj ((fun k => (k, get e k)) <$> EXPECTATION_KEY_ORDER)) as ->.
  { unfold canonicalizeExpectation in H. by invert_ok H. }
  etransitivity; [|exact H]. unfold canonicalizeExpectation at 2.
  destruct (is_object e) eqn:Eo; [|unfold canonicalizeExpectation in H; rewrite Eo in H; discriminate H].
  destruct (negb (length (keys e) =? _)%nat || negb (forallb (has_own e) _)) eqn:E.
  { unfold canonicalizeExpectation in H. rewrite Eo, E in H. discriminate H. }
  reflexivity.
Qed.

(** ** The records the store keeps, by state *)
Definition safe (lo z : Z) : Prop := isSafeInteger (Num z) = true /\ lo <= z.

Definition shape_sound (r : relay) : Prop :=
  execId (ident r) <> EmptyString /\ safe 0 (attempts r) /\ safe 0 (createdAt (ident r))
  /\ safe (createdAt (ident r)) (updatedAt r).

Definition lease_sound (r : relay) : Prop :=
  (leaseToken r = None /\ leaseExpiresAt r = None)
  \/ exists t e, leaseToken r = Some t /\ leaseExpiresAt r = Some e /\ t <> EmptyString /\ safe 0 e.

(** Evidence in normal form, its digests those of its bytes. *)
Definition full (e : evidence) : Prop :=
  exists m n a,
    e = {| messageHex := Some m; nonceHex := Some n;
           messageDigest := Some (sha256Bytes sha256 (drop 2 m));
           attestationHex := Some a; attestationDigest := Some (sha256Bytes sha256 (drop 2 a)) |}
    /\ even_hex_value (text m) = Ok m /\ base_hash (text n) = Ok n /\ even_hex_value (text a) = Ok a.

Definition attested_evidence (r : relay) : Prop := full (ev r) /\ safe 1 (evidenceVersion r).
Definition no_evidence_yet (r : relay) : Prop := ev r = no_evidence /\ evidenceVersion r = 0.

Definition mint_sound (source : Z) (r : relay) : Prop :=
  exists h, mintTxHash r = Some h /\ normalizeMintTxHash source (text h) = Ok h.

Definition legacy : string := "legacy_record_unrecoverable".
Definition reverted : string := "destination_reverted".

Definition tombstone (r : relay) : Prop :=
  reasonCode r = Some legacy /\ status r = blocked /\ mintTxHash r = None.

Definition state_sound (source : Z) (r : relay) : Prop :=
  match status r with
  | attestation_pending => no_evidence_yet r /\ mintTxHash r = None /\ reasonCode r = None
  | attested => attested_evidence r /\ mintTxHash r = None /\ reasonCode r = None
  | mint_submitting =>
      attested_evidence r /\ mintTxHash r = None /\ reasonCode r = None /\ leaseToken r <> None
  | mint_submitted | minted => attested_evidence r /\ mint_sound source r /\ reasonCode r = None
  | blocked =>
      (no_evidence_yet r \/ attested_evidence r)
      /\ (if decide (reasonCode r = Some reverted) then mint_sound source r else mintTxHash r = None)
      /\ reasonCode r <> Some legacy
      /\ exists reason, reasonCode r = Some reason /\ reason ∈ RELAY_BLOCKED_REASONS
  | uncertain =>
      attested_evidence r /\ (mintTxHash r = None \/ mint_sound source r)
      /\ exists reason, reasonCode r = Some reason /\ reason ∈ RELAY_UNCERTAIN_REASONS
  end.

(** An identity whose burn, expectation and digest belong together; the expectation is
    written as its canonical form is. *)
Definition bound (i : intent) (source : Z) : Prop :=
  exists burn e c digest t,
    i = {| execId := execId i; sourceDomain := Some source; burnTxHash := Some burn;
           expectation := Some e; expectationDigest_ := Some digest; createdAt := createdAt i |}
    /\ normalizeSourceDomain (number source) = Ok source
    /\ normalizeBurnTxHash source (text burn) = Ok burn
    /\ canonicalizeExpectation e = Ok c /\ c#"sourceDomain" = number source
    /\ JSON.stringify e = Ok (Some t) /\ JSON.stringify c = Ok (Some t)
    /\ expectationDigest sha256 c = Ok digest.

Definition sound (r : relay) : Prop :=
  shape_sound r /\ lease_sound r /\ (terminal (status r) = true -> leaseToken r = None)
  /\ (tombstone r \/ exists source, bound (ident r) source /\ state_sound source r).

Definition canonical (r : relay) : Prop :=
  assertCanonicalRelayRecord sha256 (record_val r) = Ok (record_val r).

Lemma valid_Ok b u : valid b = Ok u <-> b = true.
Proof. apply guard_throw_Ok. Qed.

Lemma safe_at_least_number z lo : safe_at_least (number z) lo = true <-> safe lo z.
Proof. unfold safe_at_least, safe. cbn [is_safe_integer number integer_of]. rewrite andb_true_iff, Z.leb_le. done. Qed.

Lemma in_state_record r s : in_state (record_val r) s = bool_decide (status r = s).
Proof. unfold in_state. change ((record_val r)#"state") with (Str (state_name (status r))).
  destruct (status r), s; reflexivity. Qed.

Lemma check_shape_record r : check_shape (record_val r) = true <-> shape_sound r.
Proof.
  transitivity (negb (strict_eq (Str (execId (ident r))) (Str EmptyString))
    && one_of (map state_name RELAY_ALL_STATES) (Str (state_name (status r)))
    && safe_at_least (number (attempts r)) 0 && safe_at_least (number (createdAt (ident r))) 0
    && safe_at_least (number (updatedAt r)) (createdAt (ident r)) = true); [done|].
  assert (one_of (map state_name RELAY_ALL_STATES) (Str (state_name (status r))) = true) as ->
    by (by destruct (status r)).
  rewrite !andb_true_iff, !safe_at_least_number, negb_true_iff. cbn [strict_eq].
  rewrite bool_decide_eq_false. unfold shape_sound. tauto.
Qed.

Lemma strict_eq_or_null {A} (f : A -> val) o :
  (forall a, f a <> Null) -> strict_eq (or_null f o) Null = bool_decide (o = None).
Proof.
  intros Hf. destruct o as [a|]; [|done]. cbn. specialize (Hf a). by destruct (f a) as [| | |[]| | | | |].
Qed.

Lemma leaseAbsent_record r :
  leaseAbsent (record_val r) = true <-> leaseToken r = None /\ leaseExpiresAt r = None.
Proof.
  transitivity (strict_eq (or_null Str (leaseToken r)) Null
                && strict_eq (or_null number (leaseExpiresAt r)) Null = true); [done|].
  rewrite !strict_eq_or_null by done. by rewrite andb_true_iff, !bool_decide_eq_true.
Qed.

Lemma leasePresent_record r :
  leasePresent (record_val r) = true <->
  exists t e, leaseToken r = Some t /\ leaseExpiresAt r = Some e /\ t <> EmptyString /\ safe 0 e.
Proof.
  transitivity (is_string (or_null Str (leaseToken r))
    && negb (strict_eq (or_null Str (leaseToken r)) (Str EmptyString))
    && safe_at_least (or_null number (leaseExpiresAt r)) 0 = true); [done|].
  destruct (leaseToken r) as [t|]; cbn [or_null is_string]; [|naive_solver].
  destruct (leaseExpiresAt r) as [e|]; cbn [or_null].
  - rewrite !andb_true_iff, negb_true_iff, safe_at_least_number. cbn [strict_eq].
    rewrite bool_decide_eq_false. naive_solver.
  - split; [|naive_solver]. rewrite andb_true_iff. by intros [_ ?].
Qed.
Lemma is_text_text (l : chars) t : is_text (text l) (Some t) = true <-> t = l.
Proof.
  cbn [is_text text strict_eq]. rewrite bool_decide_eq_true. split; [|by intros ->].
  intros H. apply (f_equal chars_of) in H. by rewrite !chars_of_string_of in H.
Qed.

Lemma is_text_or_null o t : is_text (or_null text o) (Some t) = true <-> o = Some t.
Proof.
  destruct o as [l|]; [|by split]. cbn [or_null]. rewrite is_text_text. naive_solver.
Qed.

Lemma even_hex_null : even_hex_value Null = Throw RELAY_VALIDATION.
Proof. reflexivity. Qed.

Lemma normalizeEvidence_Ok vm vn va e :
  normalizeEvidence sha256 vm vn va = Ok e ->
  exists m n a, even_hex_value vm = Ok m /\ base_hash vn = Ok n /\ even_hex_value va = Ok a
    /\ e = {| messageHex := Some m; nonceHex := Some n;
              messageDigest := Some (sha256Bytes sha256 (drop 2 m));
              attestationHex := Some a; attestationDigest := Some (sha256Bytes sha256 (drop 2 a)) |}.
Proof. unfold normalizeEvidence. intros H. invert_ok H. eauto 10. Qed.

Lemma normalizeEvidence_full vm vn va e : normalizeEvidence sha256 vm vn va = Ok e -> full e.
Proof.
  intros (m & n & a & Hm & Hn & Ha & ->)%normalizeEvidence_Ok.
  exists m, n, a. split_and!; eauto using even_hex_idem, base_hash_idem.
Qed.

Lemma hasEvidence_record r :
  hasEvidence (record_val r)
  = negb (bool_decide (messageHex (ev r) = None)) && (negb (bool_decide (nonceHex (ev r) = None))
    && (negb (bool_decide (messageDigest (ev r) = None))
    && (negb (bool_decide (attestationHex (ev r) = None))
    && (negb (bool_decide (attestationDigest (ev r) = None)) && true)))).
Proof.
  transitivity (forallb (fun o => negb (strict_eq (or_null text o) Null))
    [messageHex (ev r); nonceHex (ev r); messageDigest (ev r); attestationHex (ev r);
     attestationDigest (ev r)]); [reflexivity|].
  cbn [forallb]. by rewrite !strict_eq_or_null by done.
Qed.

Lemma hasEvidence_full r : full (ev r) -> hasEvidence (record_val r) = true.
Proof. intros (m & n & a & E & _). by rewrite hasEvidence_record, E. Qed.

Lemma hasEvidence_none r : ev r = no_evidence -> hasEvidence (record_val r) = false.
Proof. intros E. by rewrite hasEvidence_record, E. Qed.

Lemma check_evidence_record r :
  check_evidence sha256 (record_val r) = Ok tt <-> no_evidence_yet r \/ attested_evidence r.
Proof.
  unfold check_evidence. split.
  - intros H. destruct (hasEvidence (record_val r)) eqn:Eh.
    + apply bind_Ok in H as (e & He & H%valid_Ok). right.
      pose proof (normalizeEvidence_full _ _ _ _ He) as Hf.
      apply normalizeEvidence_Ok in He as (m & n & a & _ & _ & _ & ->).
      cbn [messageHex nonceHex messageDigest attestationHex attestationDigest] in H.
      rewrite !andb_true_iff in H. destruct H as [[[[[H1 H2] H3] H4] H5] H6].
      apply is_text_or_null in H1, H2, H3, H4, H5. apply safe_at_least_number in H6.
      split; [|done]. destruct (ev r). cbn in *. by subst.
    + apply bind_Ok in H as (u & Hn%valid_Ok & H%valid_Ok). left. split.
      * assert (forallb (fun o => strict_eq (or_null text o) Null)
          [messageHex (ev r); nonceHex (ev r); messageDigest (ev r); attestationHex (ev r);
           attestationDigest (ev r)] = true) as Hn' by exact Hn.
        cbn [forallb] in Hn'. rewrite !strict_eq_or_null in Hn' by done.
        rewrite !andb_true_iff, !bool_decide_eq_true in Hn'.
        destruct (ev r). cbn in *. destruct Hn' as (-> & -> & -> & -> & -> & _). done.
      * apply strict_eq_eq in H. by injection H.
  - intros [[E V]|[F V]].
    + rewrite hasEvidence_none by done.
      assert (forallb (fun k => strict_eq (get (record_val r) k) Null) evidence_keys = true) as ->.
      { change (forallb (fun o => strict_eq (or_null text o) Null)
          [messageHex (ev r); nonceHex (ev r); messageDigest (ev r); attestationHex (ev r);
           attestationDigest (ev r)] = true). by rewrite E. }
      cbn [valid guard_throw mbind result_bind].
      change ((record_val r)#"evidenceVersion") with (number (evidenceVersion r)). by rewrite V.
    + rewrite hasEvidence_full by done. destruct F as (m & n & a & E & Hm & Hn & Ha).
      change ((record_val r)#"evidenceVersion") with (number (evidenceVersion r)).
      change ((record_val r)#"messageHex") with (or_null text (messageHex (ev r))).
      change ((record_val r)#"nonceHex") with (or_null text (nonceHex (ev r))).
      change ((record_val r)#"messageDigest") with (or_null text (messageDigest (ev r))).
      change ((record_val r)#"attestationHex") with (or_null text (attestationHex (ev r))).
      change ((record_val r)#"attestationDigest") with (or_null text (attestationDigest (ev r))).
      rewrite E. cbn [or_null messageHex nonceHex messageDigest attestationHex attestationDigest].
      unfold normalizeEvidence. rewrite Hm, Hn, Ha. cbn [mbind result_bind].
      apply valid_Ok. rewrite !andb_true_iff. split_and!; try by apply is_text_text.
      by apply safe_at_least_number.
Qed.

Lemma check_mint_record source r :
  check_mint source (record_val r) = Ok tt <->
  let needs := bool_decide (status r ∈ [mint_submitted; minted])
    || bool_decide (status r = blocked) && bool_decide (reasonCode r = Some reverted) in
  (mintTxHash r = None /\ needs = false)
  \/ (mint_sound source r /\ (needs = true \/ status r = uncertain)).
Proof.
  unfold check_mint. cbn [existsb]. rewrite !in_state_record.
  change ((record_val r)#"mintTxHash") with (or_null text (mintTxHash r)).
  change ((record_val r)#"reasonCode") with (or_null Str (reasonCode r)).
  rewrite strict_eq_or_null by done.
  assert (strict_eq (or_null Str (reasonCode r)) (Str "destination_reverted")
          = bool_decide (reasonCode r = Some reverted)) as ->.
  { destruct (reasonCode r) as [c|]; [|done]. cbn [or_null strict_eq]. apply bool_decide_ext.
    unfold reverted. naive_solver. }
  assert ((bool_decide (status r = mint_submitted) || (bool_decide (status r = minted) || false))
          = bool_decide (status r ∈ [mint_submitted; minted])) as -> by (by destruct (status r)).
  cbn zeta. generalize (bool_decide (status r ∈ [mint_submitted; minted])
    || bool_decide (status r = blocked) && bool_decide (reasonCode r = Some reverted)).
  intros needs. unfold mint_sound.
  destruct (mintTxHash r) as [h|] eqn:E; cbn [or_null bool_decide].
  - rewrite (bool_decide_eq_false_2 (Some h = None)) by done. cbn [negb orb].
    rewrite orb_false_r, bind_Ok. split.
    + intros (u & H & H2%valid_Ok). apply bind_Ok in H as (h' & Hh & H%valid_Ok).
      apply is_text_text in H as ->. right. split; [eauto|].
      apply orb_true_iff in H2 as [?|?%bool_decide_eq_true]; auto.
    + intros [[? _]|[(h' & [= <-] & Hh) Hn]]; [done|]. exists tt. split.
      * rewrite Hh. cbn. apply valid_Ok. by apply is_text_text.
      * apply valid_Ok. apply orb_true_iff. rewrite bool_decide_eq_true. tauto.
  - rewrite (bool_decide_eq_true_2 (None = None)) by done. cbn [negb]. rewrite bind_Ok. split.
    + intros (u & H%valid_Ok & _). apply negb_true_iff in H. auto.
    + intros [[_ ->]|[(h & ? & _) _]]; [|done]. exists tt. split; [done|]. apply valid_Ok. by rewrite orb_true_r.
Qed.
Lemma normalizeSourceDomain_Ok v d :
  normalizeSourceDomain v = Ok d -> v = number d /\ normalizeSourceDomain (number d) = Ok d.
Proof.
  unfold normalizeSourceDomain, invalid. intros H. invert_ok H;
    by match goal with H : strict_eq _ _ = true |- _ => apply strict_eq_eq in H as -> end.
Qed.

Lemma expectationDigest_Ok c d :
  expectationDigest sha256 c = Ok d -> exists t, JSON.stringify c = Ok (Some t).
Proof. unfold expectationDigest. intros H. invert_ok H; eauto. Qed.

Lemma or_null_number o z : or_null number o = number z -> o = Some z.
Proof. destruct o; [|done]. cbn. unfold number. by intros [= ->]. Qed.

Lemma check_binding_record r source :
  check_binding sha256 (record_val r) = Ok source <-> bound (ident r) source.
Proof.
  unfold check_binding, bound.
  change ((record_val r)#"sourceDomain") with (or_null number (sourceDomain (ident r))).
  change ((record_val r)#"burnTxHash") with (or_null text (burnTxHash (ident r))).
  change ((record_val r)#"expectation") with (or_null id (expectation (ident r))).
  change ((record_val r)#"expectationDigest") with (or_null text (expectationDigest_ (ident r))).
  split.
  - intros H.
    apply bind_Ok in H as (d & Hd & H). apply bind_Ok in H as (burn & Hb & H).
    apply bind_Ok in H as (u1 & H1%valid_Ok & H). apply bind_Ok in H as (c & Hc & H).
    apply bind_Ok in H as (u2 & H2%valid_Ok & H).
    destruct (JSON.stringify c) as [t|] eqn:Ht; [|discriminate H].
    destruct (JSON.stringify (or_null id _)) as [t'|] eqn:Ht'; [|discriminate H].
    apply bind_Ok in H as (u3 & H3%valid_Ok & H). apply bind_Ok in H as (g & Hg & H).
    apply bind_Ok in H as (u4 & H4%valid_Ok & [= <-]).
    apply normalizeSourceDomain_Ok in Hd as [Hd%or_null_number Hd'].
    apply is_text_or_null in H1, H4. apply strict_eq_eq in H2. apply bool_decide_eq_true in H3 as <-.
    destruct (expectationDigest_Ok _ _ Hg) as [t' Hs]. rewrite Ht in Hs. injection Hs as ->.
    destruct (ident r) as [i sd bt ex dg cr]. cbn in *. subst.
    destruct ex as [e|]; [|discriminate Hc]. cbn in *. eauto 20.
  - intros (burn & e & c & g & t & -> & Hd & Hb & Hc & Hs & Ht & Ht' & Hg). cbn [or_null
      sourceDomain burnTxHash expectation expectationDigest_].
    rewrite Hd. cbn [mbind result_bind]. rewrite Hb. cbn [mbind result_bind].
    rewrite (proj2 (is_text_text _ _)) by done. cbn [valid guard_throw mbind result_bind id].
    rewrite Hc. cbn [mbind result_bind]. rewrite Hs. unfold number at 2. cbn [strict_eq number].
    rewrite bool_decide_eq_true_2 by done. cbn [valid guard_throw mbind result_bind].
    rewrite Ht', Ht, bool_decide_eq_true_2 by done. cbn [valid guard_throw mbind result_bind].
    rewrite Hg. cbn [mbind result_bind]. by rewrite (proj2 (is_text_text _ _)).
Qed.

Lemma one_of_Some names o :
  one_of names (or_null Str o) = true <-> exists c, o = Some c /\ c ∈ names.
Proof.
  unfold one_of. destruct o as [c|]; cbn [or_null].
  - rewrite existsb_exists. split.
    + intros (s & Hs & H%strict_eq_eq). injection H as ->. exists s. split; [done|]. by apply list_elem_of_In.
    + intros (c' & [= <-] & Hc%list_elem_of_In). exists c. split; [done|]. cbn. by apply bool_decide_eq_true.
  - split; [|naive_solver]. induction names as [|s names IH]; [done|]. intros H. by destruct (IH H) as (c & ? & _).
Qed.

Lemma check_reason_record r :
  check_reason (record_val r) = true <->
  match status r with
  | blocked => exists c, reasonCode r = Some c /\ c ∈ RELAY_BLOCKED_REASONS
  | uncertain => exists c, reasonCode r = Some c /\ c ∈ RELAY_UNCERTAIN_REASONS
  | _ => reasonCode r = None
  end.
Proof.
  unfold check_reason. rewrite !in_state_record.
  change ((record_val r)#"reasonCode") with (or_null Str (reasonCode r)).
  rewrite (strict_eq_or_null Str) by done.
  destruct (status r); cbn [bool_decide decide_rel];
    first [apply one_of_Some | apply bool_decide_eq_true].
Qed.

Lemma check_mint_by_state source r :
  check_mint source (record_val r) = Ok tt <->
  match status r with
  | mint_submitted | minted => mint_sound source r
  | uncertain => mintTxHash r = None \/ mint_sound source r
  | blocked => if decide (reasonCode r = Some reverted) then mint_sound source r else mintTxHash r = None
  | _ => mintTxHash r = None
  end.
Proof.
  rewrite check_mint_record. destruct (status r); cbn; try naive_solver.
  destruct (decide (reasonCode r = Some reverted)) as [E|E];
    rewrite ?(bool_decide_eq_true_2 _ E), ?(bool_decide_eq_false_2 _ E); naive_solver.
Qed.

Lemma check_agreement_record r :
  check_agreement (record_val r) =
  match status r with
  | attestation_pending => negb (hasEvidence (record_val r))
  | mint_submitting => hasEvidence (record_val r) && leasePresent (record_val r)
  | blocked => true
  | _ => hasEvidence (record_val r)
  end.
Proof.
  unfold check_agreement. cbn [existsb]. rewrite !in_state_record.
  destruct (status r), (hasEvidence _); cbn; try done. by destruct (leasePresent _).
Qed.

Lemma evidence_cases r (P : Prop) :
  (no_evidence_yet r \/ attested_evidence r) /\ P <->
  no_evidence_yet r /\ hasEvidence (record_val r) = false /\ P
  \/ attested_evidence r /\ hasEvidence (record_val r) = true /\ P.
Proof.
  split.
  - intros [[H|H] HP]; [left|right]; split_and!; try done;
      [by apply hasEvidence_none, H|by apply hasEvidence_full, H].
  - tauto.
Qed.

Lemma body_sound source r :
  lease_sound r -> reasonCode r <> Some legacy ->
  check_evidence sha256 (record_val r) = Ok tt /\ check_agreement (record_val r) = true
  /\ check_mint source (record_val r) = Ok tt /\ check_reason (record_val r) = true
  <-> state_sound source r.
Proof.
  intros Hl Hr. rewrite check_evidence_record, check_mint_by_state, check_reason_record,
    check_agreement_record, evidence_cases. unfold state_sound.
  pose proof (hasEvidence_full r) as Ha. pose proof (hasEvidence_none r) as Hn.
  assert (leasePresent (record_val r) = true <-> leaseToken r <> None) as Hp.
  { rewrite leasePresent_record. destruct Hl as [[-> _]|(t & e & -> & ?)]; naive_solver. }
  unfold attested_evidence, no_evidence_yet in *.
  destruct (status r); destruct (hasEvidence (record_val r)); cbn [negb andb]; rewrite ?Hp;
    (split; [intuition congruence|]); intuition (try congruence).
Qed.

Lemma valid_bind {A} b (k : unit -> result relay_error A) x :
  valid b ≫= k = Ok x <-> b = true /\ k tt = Ok x.
Proof. destruct b; cbn; naive_solver. Qed.

Lemma is_reason_record r c :
  strict_eq (record_val r)#"reasonCode" (Str c) = bool_decide (reasonCode r = Some c).
Proof.
  change ((record_val r)#"reasonCode") with (or_null Str (reasonCode r)).
  destruct (reasonCode r); [|done]. cbn. apply bool_decide_ext. naive_solver.
Qed.

Lemma checks_record r x :
  assertCanonicalRelayRecord sha256 (record_val r) = Ok x <->
  x = record_val r /\ shape_sound r /\ lease_sound r
  /\ (terminal (status r) = true -> leaseToken r = None /\ leaseExpiresAt r = None)
  /\ if decide (reasonCode r = Some legacy)
     then status r = blocked /\ (leaseToken r = None /\ leaseExpiresAt r = None) /\ mintTxHash r = None
     else exists source, bound (ident r) source
            /\ (check_evidence sha256 (record_val r) = Ok tt /\ check_agreement (record_val r) = true
                /\ check_mint source (record_val r) = Ok tt /\ check_reason (record_val r) = true).
Proof.
  unfold assertCanonicalRelayRecord. rewrite !valid_bind, is_reason_record.
  assert (existsb (in_state (record_val r)) RELAY_TERMINAL_STATES = terminal (status r)) as ->.
  { cbn [existsb RELAY_TERMINAL_STATES]. rewrite !in_state_record. by destruct (status r). }
  rewrite check_shape_record, !orb_true_iff, negb_true_iff, leaseAbsent_record, leasePresent_record.
  assert (forall P : Prop, terminal (status r) = false \/ P <-> (terminal (status r) = true -> P)) as ->.
  { intros P. destruct (terminal (status r)); intuition congruence. }
  fold (lease_sound r). unfold legacy. destruct (decide _) as [E|E].
  - rewrite bool_decide_eq_true_2 by done. rewrite valid_bind.
    change ((record_val r)#"mintTxHash") with (or_null text (mintTxHash r)).
    rewrite in_state_record, strict_eq_or_null by done.
    rewrite !andb_true_iff, !bool_decide_eq_true, leaseAbsent_record. naive_solver.
  - rewrite bool_decide_eq_false_2 by done. setoid_rewrite <- check_binding_record. split.
    + intros (Hs & Hl & Ht & H). apply bind_Ok in H as (source & Hb & H).
      apply bind_Ok in H as ([] & He & H). apply valid_bind in H as [Ha H].
      apply bind_Ok in H as ([] & Hm & H). apply valid_bind in H as [Hr [= <-]]. eauto 15.
    + intros (-> & Hs & Hl & Ht & source & Hb & He & Ha & Hm & Hr).
      rewrite Hb. cbn [mbind result_bind]. rewrite He. cbn [mbind result_bind].
      rewrite Ha. cbn [valid guard_throw mbind result_bind]. rewrite Hm. cbn [mbind result_bind].
      by rewrite Hr.
Qed.

Lemma lease_sound_absent r : lease_sound r -> leaseToken r = None <-> leaseToken r = None /\ leaseExpiresAt r = None.
Proof. intros [[-> ->]|(t & e & -> & _)]; naive_solver. Qed.

(** A persisted record passes the check on reopening exactly when it is sound: its identity
    bound to its digest, its evidence to its bytes, its mint hash and reason to its state. *)
Lemma canonical_sound r : canonical r <-> sound r.
Proof.
  unfold canonical, sound, tombstone. rewrite checks_record. split.
  - intros (_ & Hs & Hl & Ht & H). split_and!; try done; [naive_solver|].
    destruct (decide _) as [E|E]; [naive_solver|]. right. destruct H as (source & Hb & H).
    exists source. split; [done|]. by apply body_sound.
  - intros (Hs & Hl & Ht & H). rewrite <- lease_sound_absent by done. split_and!; try done.
    destruct (decide _) as [E|E].
    + destruct H as [(_ & Hb & Hm)|(source & _ & H)].
      * split; [done|]. split; [|done]. apply lease_sound_absent; [done|]. apply Ht. by rewrite Hb.
      * exfalso. unfold state_sound in H. rewrite E in H. unfold legacy in H.
        destruct (status r); try naive_solver. destruct H as (_ & _ & c & [= <-] & Hc).
        by apply (bool_decide_eq_true_2 (_ ∈ _)) in Hc; vm_compute in Hc.
    + destruct H as [(? & _)|(source & Hb & H)]; [done|]. exists source. split; [done|].
      by apply body_sound.
Qed.

(** ** Every call writes sound records *)

(** How the relayer calls the store: the clock does not go back behind the creation of a
    record, leases end at a time that can be compared, counters stay exact, and a record is
    blocked as reverted exactly when its submission is known. *)
Definition proper (q : request) (r : relay) : Prop :=
  (forall now, time_of q = Num now -> createdAt (ident r) <= now)
  /\ match q with
     | Claim _ (Num now) (Num ms) token =>
         token <> EmptyString /\ isSafeInteger (Num (now + ms)) = true
         /\ isSafeInteger (Num (attempts r + 1)) = true
     | Renew _ _ (Num now) (Num ms) => isSafeInteger (Num (now + ms)) = true
     | RecordAttested _ _ _ _ _ _ => isSafeInteger (Num (evidenceVersion r + 1)) = true
     | FinishBlocked _ _ reason _ => reason = reverted <-> status r = mint_submitted
     | _ => True
     end.

Lemma requireLeaseArgs_Ok now ms p :
  requireLeaseArgs now ms = Ok p ->
  now = Num p.1 /\ ms = Num p.2 /\ isSafeInteger (Num p.1) = true /\ 0 < p.2.
Proof.
  unfold requireLeaseArgs, invalid. intros H. apply bind_Ok in H as (z & Hz & H).
  apply requireNow_Ok in Hz as [-> Hz]. invert_ok H. zbool. done.
Qed.

Lemma touched_open q r r' : touched sha256 q r r' -> terminal (status r) = false.
Proof.
  intros H. touch_cases H; unfold lease_expired in *; zbool; try done;
    destruct (status r); first [reflexivity|congruence|discriminate].
Qed.

Lemma sound_next r r' source now :
  shape_sound r -> bound (ident r) source ->
  ident r' = ident r -> safe 0 (attempts r') -> updatedAt r' = now ->
  isSafeInteger (Num now) = true -> createdAt (ident r) <= now ->
  lease_sound r' -> (terminal (status r') = true -> leaseToken r' = None) ->
  tombstone r' \/ state_sound source r' -> sound r'.
Proof.
  intros (Hi & Ha & Hc & Hu) Hb Ei Ha' Eu Hn Hle Hl Ht Hst.
  unfold sound, shape_sound. rewrite Ei, Eu. split_and!; try done; try by apply Hc.
  destruct Hst; [by left|right; eauto].
Qed.

Lemma lease_sound_set r t e : leaseToken r = Some t -> leaseExpiresAt r = Some e ->
  t <> EmptyString -> isSafeInteger (Num e) = true -> 0 <= e -> lease_sound r.
Proof. intros. right. exists t, e. unfold safe. eauto 10. Qed.

Lemma replaced_full e e' :
  full e -> full e' ->
  full {| messageHex := messageHex e; nonceHex := nonceHex e; messageDigest := messageDigest e;
          attestationHex := attestationHex e'; attestationDigest := attestationDigest e' |}.
Proof.
  intros (m & n & a & -> & ? & ? & ?) (m' & n' & a' & -> & ? & ? & ?). exists m, n, a'. eauto.
Qed.

Lemma record_mint_hash_sound r v h source :
  bound (ident r) source -> record_mint_hash r v = Ok h ->
  normalizeMintTxHash source (text h) = Ok h.
Proof.
  intros (b & e & c & g & t & E & Hd & _) H. unfold record_mint_hash in H. rewrite E in H.
  cbn [sourceDomain] in H. rewrite Hd in H. by eapply normalizeMintTxHash_idem.
Qed.

Lemma reconciled_sound r source z :
  shape_sound r -> bound (ident r) source -> state_sound source r ->
  terminal (status r) = false -> isSafeInteger (Num z) = true -> createdAt (ident r) <= z ->
  sound (relayReconcileExpired r z).
Proof.
  intros Hs Hb Hst Ho Hz Hle. pose proof (proj1 (proj2 Hs)) as Ha. unfold relayReconcileExpired.
  destruct (decide _) as [E|E];
    (apply sound_next with (r := r) (source := source) (now := z); try done; [by left|right]);
    unfold state_sound in *; cbn.
  - rewrite E in Hst. destruct Hst as (? & ? & ? & ?). split_and!; [done|by left|].
    eexists. split; [done|]. set_solver.
  - destruct (status r); done.
Qed.

Lemma state_sound_lease r t e now source :
  state_sound source r -> (status r = mint_submitting -> t <> None) ->
  state_sound source (set_lease r t e now).
Proof. unfold state_sound. cbn. destruct (status r); naive_solver. Qed.

Lemma claimable_not_submitting r : claimable (status r) = true -> status r <> mint_submitting.
Proof. intros H E. by rewrite E in H. Qed.

Lemma blocked_sound r source reason now :
  state_sound source r -> terminal (status r) = false -> reason ∈ RELAY_BLOCKED_REASONS ->
  (reason = reverted <-> status r = mint_submitted) ->
  let r' := set_final r blocked (mintTxHash r) (Some reason) now in
  tombstone r' \/ state_sound source r'.
Proof.
  intros Hst Ho Hr Hq r'. unfold r', tombstone, state_sound, no_evidence_yet, attested_evidence, mint_sound in *. cbn.
  destruct (decide (reason = legacy)) as [->|Hl].
  - left. split_and!; try done. assert (status r <> mint_submitted) as Hn.
    { intros E. by apply Hq in E. }
    destruct (status r); first [discriminate Ho|naive_solver].
  - right. split_and!; [| |congruence|eauto].
    + destruct (status r); first [discriminate Ho|naive_solver].
    + destruct (decide (Some reason = Some reverted)) as [Hd|Hd].
      * assert (status r = mint_submitted) as E by (apply Hq; by injection Hd).
        rewrite E in Hst. by destruct Hst as (_ & ? & _).
      * assert (status r <> mint_submitted) as Hn by (intros E; apply Hd; f_equal; by apply Hq).
        destruct (status r); first [discriminate Ho|naive_solver].
Qed.

Lemma touched_sound q r r' : touched sha256 q r r' -> proper q r -> sound r -> sound r'.
Proof.
  intros H [Hn Hq] (Hs & Hl & Ht & Hb). pose proof (touched_open _ _ _ H) as Ho.
  destruct Hb as [(_ & Hb & _)|(source & Hb & Hst)]; [by rewrite Hb in Ho|].
  pose proof (proj1 (proj2 Hs)) as Ha. pose proof (proj1 (proj2 (proj2 Hs))) as Hc.
  touch_cases H; cbn [time_of] in Hn;
    repeat match goal with
      | H : requireNow _ = Ok _ |- _ => apply requireNow_Ok in H as [-> ?]; specialize (Hn _ eq_refl)
      | H : requireLeaseArgs _ _ = Ok _ |- _ =>
          apply requireLeaseArgs_Ok in H as (-> & -> & ? & ?); specialize (Hn _ eq_refl)
      end;
    try (eapply reconciled_sound; eauto; fail).
  all: eapply sound_next with (r := r) (source := source); try done; try (by left).
  - destruct Hq as (_ & _ & Hq). unfold safe in *. cbn. split; [done|lia].
  - destruct Hq as (? & ? & _), Hc. eapply lease_sound_set; cbn; try done. lia.
  - cbn. congruence.
  - right. apply state_sound_lease; [done|]. by intros ?%claimable_not_submitting.
  - destruct Hc. eapply lease_sound_set; cbn; try done. lia.
  - right. apply state_sound_lease; [done|]. congruence.
  - right. unfold state_sound in *. cbn. match goal with H : status r = attestation_pending |- _ => rewrite H in * end.
    destruct Hst as (_ & ? & ?). split_and!; try done. split; [by eapply normalizeEvidence_full|done].
  - right. unfold state_sound in *. cbn. match goal with H : status r = attested |- _ => rewrite H in * end.
    destruct Hst as ([Hf Hv] & ? & ?). split_and!; try done. split; cbn.
    + apply replaced_full; [done|]. by eapply normalizeEvidence_full.
    + split; [done|]. destruct Hv. lia.
  - right. unfold state_sound in *. cbn. match goal with H : status r = attested |- _ => rewrite H in * end.
    naive_solver.
  - right. unfold state_sound in *. cbn. match goal with H : status r = mint_submitting |- _ => rewrite H in * end.
    destruct Hst as (? & ? & ? & ?). split_and!; try done. eexists. split; [done|].
    by eapply record_mint_hash_sound.
  - right. unfold state_sound in *. cbn. by match goal with H : status r = mint_submitted |- _ => rewrite H in * end.
  - apply blocked_sound; naive_solver.
  - right. unfold state_sound in *. cbn. split_and!; [destruct (status r); naive_solver| |eauto].
    destruct x0 as [h|].
    + right. exists h. split; [done|]. eapply record_mint_hash_sound; [done|].
      destruct mint; try discriminate; by match goal with H : _ ≫= _ = Ok _ |- _ => invert_ok H end.
    + destruct (status r); first [discriminate|naive_solver].
  - right. apply state_sound_lease; [done|]. by intros ?%claimable_not_submitting.
Qed.

(** The record a first [enqueue] writes is sound. *)
Lemma created_sound q id r :
  created sha256 q id r -> (forall now, time_of q = Num now -> 0 <= now) -> sound r.
Proof.
  destruct q as [id' s b e now| | | | | | | | | | |]; try done. intros (-> & c & H) Hn.
  unfold relayEnqueueDecision, relayNewPendingRecord in H. invert_ok H.
  match goal with H : requireNow now ≫= _ = _ |- _ => invert_ok H end.
  match goal with H : requireNow now = _ |- _ => apply requireNow_Ok in H as [-> Hz] end.
  specialize (Hn _ eq_refl). rename x into source, x0 into c0.
  match goal with H : normalizeSourceDomain s = _ |- _ => apply normalizeSourceDomain_Ok in H as [-> Hd] end.
  match goal with H : negb _ = false |- _ => apply negb_false_iff, strict_eq_eq in H end.
  match goal with H : expectationDigest _ _ = _ |- _ => destruct (expectationDigest_Ok _ _ H) as [t Ht] end.
  unfold sound, shape_sound, safe. cbn. split_and!; try done; try lia; [by left|].
  right. exists source. split; [|done].
  exists x2, c0, c0, x1, t. split_and!; eauto using normalizeBurnTxHash_idem, canonicalizeExpectation_idem.
Qed.

(** C36. Every call writes records that pass the check on reopening, when it is made properly for
    the records it changes. *)
Theorem store_writes_canonical m q :
  keyed m -> map_Forall (fun _ => canonical) m ->
  (forall now, time_of q = Num now -> 0 <= now) ->
  (forall id r r', m !! id = Some r -> touched sha256 q r r' -> proper q r) ->
  map_Forall (fun _ => canonical) (after sha256 m q).
Proof.
  intros Hk Hc Hn Hp id r Hr. apply canonical_sound.
  destruct (after_row sha256 m q id Hk) as [H|[(r0 & r' & H0 & H1 & Ht)|(r' & H0 & H1 & Hnew)]].
  - apply canonical_sound, (Hc id). by rewrite <- H.
  - rewrite H1 in Hr. injection Hr as <-. eapply touched_sound; [done|eauto|].
    apply canonical_sound. by apply (Hc id).
  - rewrite H1 in Hr. injection Hr as <-. by eapply created_sound.
Qed.

(** ** Opening the file *)
Lemma tombstone_current id v now :
  id <> EmptyString -> isSafeInteger (Num now) = true -> 0 <= now ->
  isCurrentRelayRecord sha256 (legacyConversion id v now) = true.
Proof.
  intros Hid Hz Hn. unfold isCurrentRelayRecord, assertCanonicalRelayRecord.
  assert (check_shape (legacyConversion id v now) = true) as ->; [|reflexivity].
  transitivity (negb (strict_eq (Str id) (Str EmptyString))
    && true && true && safe_at_least (number now) 0 && safe_at_least (number now) now); [done|].
  cbn [strict_eq]. rewrite bool_decide_eq_false_2 by done.
  rewrite (proj2 (safe_at_least_number now 0) (conj Hz Hn)).
  by rewrite (proj2 (safe_at_least_number now now) (conj Hz (Z.le_refl _))).
Qed.

(** After the file is opened every row is a current record and none is Base work that could
    still be driven; a row that was already so is untouched, and opening again changes
    nothing. *)
Theorem open_file_settled clock clock' file :
  Forall (fun f => f.1 <> EmptyString /\ isSafeInteger (Num (clock f.1)) = true /\ 0 <= clock f.1) file ->
  let opened := open_file sha256 clock file in
  Forall (fun f => isCurrentRelayRecord sha256 f.2 = true
            /\ (f.2#"sourceDomain" = number BASE_DOMAIN ->
                existsb (in_state f.2) RELAY_TERMINAL_STATES = true)) opened
  /\ open_file sha256 clock' opened = opened.
Proof.
  intros HF opened. assert (Forall (fun f => isCurrentRelayRecord sha256 f.2 = true
            /\ (f.2#"sourceDomain" = number BASE_DOMAIN ->
                existsb (in_state f.2) RELAY_TERMINAL_STATES = true)) opened) as Ho.
  { unfold opened, open_file. rewrite Forall_map. eapply Forall_impl; [exact HF|].
    intros [id v] (Hid & Hz & Hn). cbn [fst snd] in *. unfold open_row.
    destruct (isCurrentRelayRecord sha256 v) eqn:E; cbn [negb orb andb];
      [|split; [by apply tombstone_current|done]].
    destruct (strict_eq v#"sourceDomain" (number BASE_DOMAIN)) eqn:Ed; cbn [andb].
    - destruct (existsb (in_state v) _) eqn:Et; cbn [negb]; [done|].
      split; [by apply tombstone_current|done].
    - split; [done|]. intros Hd. rewrite Hd in Ed. discriminate Ed. }
  split; [done|]. unfold open_file at 1. rewrite <- (map_id opened) at 2. apply map_ext_Forall.
  eapply Forall_impl; [exact Ho|]. intros [id v] [Hc Hb]. cbn [fst snd] in *. unfold open_row.
  rewrite Hc. cbn [negb orb andb].
  destruct (strict_eq v#"sourceDomain" (number BASE_DOMAIN)) eqn:Ed; [|done].
  apply strict_eq_eq in Ed. by rewrite (Hb Ed).
Qed.
End Persisted.

(** ** Concrete rows and files *)
Section Samples.
Import Relay Ledger RelayFile.
Local Open Scope string_scope.
Local Open Scope list_scope.

Lemma isCurrent_record sha r : isCurrentRelayRecord sha (record_val r) = true <-> canonical sha r.
Proof.
  unfold isCurrentRelayRecord, canonical. destruct (assertCanonicalRelayRecord _ _) as [x|] eqn:E; [|done].
  apply checks_record in E as [-> _]. done.
Qed.

Definition submitting : rows := run RelaySample.sha RelaySample.start (take 3 RelaySample.worker).
Definition submitted : request := MarkMintSubmitted "e" "t" (Str (RelaySample.bytes32 "8")) (Num 5).

Lemma submitting_rows :
  bool_decide (map_Forall (fun _ r => isCurrentRelayRecord RelaySample.sha (record_val r) = true
                             /\ createdAt (ident r) <= 5) submitting) = true.
Proof. vm_compute. reflexivity. Qed.

Lemma store_writes_canonical_witness :
  map_Forall (fun _ => canonical RelaySample.sha) (after RelaySample.sha submitting submitted).
Proof.
  pose proof (bool_decide_eq_true_1 _ submitting_rows) as H.
  apply store_writes_canonical.
  - unfold submitting. apply run_keyed, sample_start_keyed.
  - intros id r Hr. apply isCurrent_record. by apply (H id r).
  - intros now [= <-]. lia.
  - intros id r r' Hr _. split; [|exact I]. intros now [= <-]. by apply (H id r).
Defined.

(** A row of an old version, Base work, and a record of this version. *)
Definition old_file : list (string * val) :=
  [("old", Obj [("status", Str "minted"); ("burnTxHash", Str "ab")]);
   ("e", or_null record_val (submitting !! "e"))].

Lemma open_file_settled_witness :
  open_file RelaySample.sha (fun _ => 9) old_file <> old_file
  /\ open_file RelaySample.sha (fun _ => 10) (open_file RelaySample.sha (fun _ => 9) old_file)
     = open_file RelaySample.sha (fun _ => 9) old_file.
Proof.
  split; [intros H; apply (f_equal (fun l => length (keys (or_null snd (head l))))) in H;
          vm_compute in H; discriminate H|].
  apply open_file_settled. repeat apply Forall_cons_2; [..|apply Forall_nil_2];
    (split; [discriminate|split; [reflexivity|cbn; lia]]).
Defined.
End Samples.
