(* ===== verification/UnwindStore.v ===== *)
(** * The store of unwind jobs

    Models [relayer/src/unwindStore.mjs]: a job that is reserved, whose burn is proved and
    which then follows the relay work of that burn, in the same database.  This file holds the
    rows, the constraints of their table, the canonical proof and the integrity check of a row;
    UnwindOps.v the operations.  SHA-256, the job commitment ([keccak256] of [concatHex]) and
    the address check of the Stellar SDK are parameters.  Columns that a constraint makes null
    together are one optional record; [cctp_relay_work] is the table of RelayStore.v, its text
    column the text of the expectation. *)
From S2P Require Export RelayLedger.

Module Unwind.
Import Relay Ledger.

Inductive unwind_state :=
| awaiting_burn | relay_pending | relay_running | done | blocked | uncertain | expired.

#[global] Instance unwind_state_eq_dec : EqDecision unwind_state.
Proof. solve_decision. Defined.

(** [Integrity]: a plain error of the integrity check; [Constraint]: one of the database. *)
Inductive unwind_error :=
| UNWIND_VALIDATION | UNWIND_CONFLICT | UNWIND_UNAUTHORIZED | UNWIND_CAS_CONFLICT
| Integrity | Constraint | Fault | RelayError (e : relay_error).

Section Strings.
Local Open Scope string_scope.
Local Open Scope list_scope.

Definition JOB_ID_RE : chars -> bool := is_hex 32.
Definition DIGEST_RE : chars -> bool := is_hex 64.
(** [/^0x[0-9a-fA-F]{n}$/] *)
Definition is_0x_hex_ci (n : nat) (l : chars) : bool :=
  match Hex.after_0x l with Some l => is_hex_ci n l | None => false end.
Definition ADDRESS_RE : chars -> bool := is_0x_hex_ci 40.
Definition HASH_RE : chars -> bool := is_0x_hex_ci 64.
Definition LOWER_HASH_RE : chars -> bool := is_0x_hex 64.
Definition DECIMAL_RE : chars -> bool := is_decimal.
(** [/^0x(?:[0-9a-f]{2})*$/] *)
Definition EVEN_HEX_RE : chars -> bool := HOOK_DATA_RE.
Definition ZERO_ADDRESS : string := string_of (Hex.prefix ++ replicate 40 "0"%char).
Definition LOG_NAMES : list string := ["messageSent"; "depositForBurn"; "swept"; "userOperationEvent"].
Definition PROOF_KEYS : list string :=
  ["version"; "chainId"; "userOpHash"; "jobCommitment"; "unwindTxHash"; "entryPointAddress";
   "kernelAddress"; "blockNumber"; "blockHash"; "userOpNonce"; "burned"; "exited"; "skipped";
   "maxFee"; "hookData"; "sourceMessageHex"; "sourceMessageDigest"; "logIndices"; "logDigests"].
Definition PROOF_DIGEST_DOMAIN : chars := chars_of "vf-unwind-proof-v1".
Definition UNWIND_JOB_DOMAIN : string := "0x76662d756e77696e642d6a6f622d7631".
Definition UNWIND_PUBLIC_REASON_CODES : list string :=
  ["attested_evidence_changed"; "destination_reverted"; "legacy_record_unrecoverable";
   "message_ambiguous"; "message_mismatch"; "submission_lease_expired"; "submission_unknown";
   "submitted_checkpoint_failed"].
Definition UNWIND_STATES : list unwind_state :=
  [awaiting_burn; relay_pending; relay_running; done; blocked; uncertain; expired].

(** ** Rows *)

(** The columns that never change. *)
Record reservation := {
  job_id : string;
  capability_hash : string;
  kernel_address : string;
  recipient_hint : string;
  request_digest : string;
  reserve_json : string;
  expires_at : Z;
  capability_expires_at : Z;
  created_at : Z;
}.

(** The candidate columns. *)
Record candidate := {
  candidate_user_op_hash : string;
  candidate_unwind_tx_hash : string;
  evidence_retry_until : Z;
}.

(** The columns of the proof; [evidence_columns] holds those from [chain_id] to
    [source_message_digest] under their names. *)
Record proof_row := {
  user_op_hash : string;
  unwind_tx_hash : string;
  evidence_columns : list (string * val);
  proof_json : string;
  proof_digest : string;
  expectation_json : string;
  expectation_digest : string;
  relay_exec_id : string;
}.

Record job := {
  reserved : reservation;
  jstate : unwind_state;
  cand : option candidate;
  proof : option proof_row;
  mint_tx_hash : option string;
  reason_code : option string;
  jattempts : Z;
  lease : option (string * Z);
  updated_at : Z;
}.

(** The database. *)
Record db := { jobs : gmap string job; work : rows }.

(** ** The constraints of the table *)
Definition lower_hex (n : nat) (s : string) : bool := is_hex n (chars_of s).
Definition lower_0x_hex (n : nat) (s : string) : bool := is_0x_hex n (chars_of s).
Definition text_check (p : chars -> bool) (v : val) : bool := string_matches p v.
Definition integer_check (v : val) : bool := is_integer v && (0 <=? integer_of v)%Z.
Definition address_check (v : val) : bool :=
  string_matches (is_0x_hex 40) v && negb (strict_eq v (Str ZERO_ADDRESS)).

(** [length(source_message_hex) > 2] and the form of [hook_data] *)
Definition message_check (l : chars) : bool :=
  HOOK_DATA_RE l && (2 <? Z.of_nat (length l))%Z.

Definition evidence_checks : list (string * (val -> bool)) :=
  [("chain_id", fun v => strict_eq v (number 84532)); ("entry_point", address_check);
   ("sweeper_address", address_check); ("block_number", text_check is_decimal);
   ("block_hash", text_check (is_0x_hex 64));
   ("user_operation_log_index", integer_check); ("user_operation_log_digest", text_check (is_hex 64));
   ("swept_log_index", integer_check); ("swept_log_digest", text_check (is_hex 64));
   ("deposit_log_index", integer_check); ("deposit_log_digest", text_check (is_hex 64));
   ("message_sent_log_index", integer_check); ("message_sent_log_digest", text_check (is_hex 64));
   ("burned", text_check is_decimal); ("exited", text_check is_decimal);
   ("skipped", text_check is_decimal); ("max_fee", text_check is_decimal);
   ("hook_data", text_check HOOK_DATA_RE); ("source_message_hex", text_check message_check);
   ("source_message_digest", text_check (is_hex 64))].

Definition reservation_checks (r : reservation) : bool :=
  lower_hex 32 (job_id r) && lower_hex 64 (capability_hash r)
  && lower_0x_hex 40 (kernel_address r) && negb (bool_decide (kernel_address r = ZERO_ADDRESS))
  && is_strkey (chars_of (recipient_hint r)) && lower_hex 64 (request_digest r)
  && (0 <=? expires_at r)%Z && (expires_at r <? capability_expires_at r)%Z && (0 <=? created_at r)%Z.

Definition candidate_checks (r : reservation) (c : candidate) : bool :=
  lower_0x_hex 64 (candidate_user_op_hash c) && lower_0x_hex 64 (candidate_unwind_tx_hash c)
  && (expires_at r <? evidence_retry_until c)%Z
  && (evidence_retry_until c <=? capability_expires_at r)%Z.

Definition unwind_exec_id (job : string) : string := "unwind:" +:+ job.

Definition proof_checks (r : reservation) (c : option candidate) (p : proof_row) : bool :=
  lower_0x_hex 64 (user_op_hash p) && lower_0x_hex 64 (unwind_tx_hash p)
  && forallb (fun k => (k.2 : val -> bool) (get (Obj (evidence_columns p)) k.1)) evidence_checks
  && lower_hex 64 (proof_digest p) && lower_hex 64 (expectation_digest p)
  && bool_decide (relay_exec_id p = unwind_exec_id (job_id r))
  && match c with
     | Some c => bool_decide (candidate_user_op_hash c = user_op_hash p)
                 && bool_decide (candidate_unwind_tx_hash c = unwind_tx_hash p)
     | None => true
     end.

Definition is_some {A} (o : option A) : bool := match o with Some _ => true | None => false end.
Definition in_states (s : unwind_state) (l : list unwind_state) : bool := bool_decide (s ∈ l).

Definition row_checks (j : job) : bool :=
  reservation_checks (reserved j)
  && match cand j with
     | Some c => candidate_checks (reserved j) c && negb (bool_decide (jstate j = expired))
     | None => true
     end
  && match proof j with
     | Some p => proof_checks (reserved j) (cand j) p
     | None => negb (is_some (mint_tx_hash j))
     end
  && match mint_tx_hash j with Some h => lower_hex 64 h | None => true end
  && match reason_code j with Some c => bool_decide (c ∈ UNWIND_PUBLIC_REASON_CODES) | None => true end
  && (0 <=? jattempts j)%Z && (created_at (reserved j) <=? updated_at j)%Z
  && match lease j with
     | Some (t, e) =>
         negb (bool_decide (t = EmptyString)) && (0 <=? e)%Z
         && bool_decide (jstate j = awaiting_burn) && negb (is_some (proof j))
     | None => true
     end
  && implb (in_states (jstate j) [relay_pending; relay_running; done]) (is_some (proof j))
  && implb (in_states (jstate j) [awaiting_burn; expired]) (negb (is_some (proof j)))
  && Bool.eqb (in_states (jstate j) [blocked; uncertain]) (is_some (reason_code j))
  && implb (bool_decide (jstate j = done)) (is_some (mint_tx_hash j)).

(** ** Canonical inputs *)
Definition invalid {A} : result unwind_error A := Throw UNWIND_VALIDATION.
Definition conflict {A} : result unwind_error A := Throw UNWIND_CONFLICT.

(** [typeof value === 'string' && re.test(value)], and the text. *)
Definition matching (re : chars -> bool) (v : val) : result unwind_error string :=
  match v with Str s => if re (chars_of s) then Ok s else invalid | _ => invalid end.

Definition canonicalJobId : val -> result unwind_error string := matching JOB_ID_RE.
Definition canonicalDigest : val -> result unwind_error string := matching DIGEST_RE.
Definition lower_string (s : string) : string := string_of (toLowerCase (chars_of s)).
Definition canonicalAddress (v : val) : result unwind_error string :=
  s ← matching ADDRESS_RE v;
  if decide (lower_string s = ZERO_ADDRESS) then invalid else Ok (lower_string s).
Definition canonicalHash (v : val) : result unwind_error string :=
  s ← matching HASH_RE v; Ok (lower_string s).
Definition canonicalDecimal : val -> result unwind_error string := matching DECIMAL_RE.
Definition canonicalEvenHex : val -> result unwind_error string := matching EVEN_HEX_RE.

Definition requireTime (now : num) : result unwind_error Z :=
  match now with
  | Num z => if isSafeInteger now && (0 <=? z)%Z then Ok z else invalid
  | _ => invalid
  end.

(** [Number.isSafeInteger(v) && v > 0] *)
Definition require_positive (n : num) : result unwind_error Z :=
  match n with
  | Num z => if isSafeInteger n && (0 <? z)%Z then Ok z else invalid
  | _ => invalid
  end.

Definition exactKeys (v : val) (ks : list string) : bool :=
  is_object v && (length (keys v) =? length ks)%nat && forallb (has_own v) ks.

Section Parameters.
Context (sha256 : chars -> chars).
(** [keccak256(concatHex(parts))] *)
Context (commitment : list string -> string).
(** [StrKey.isValidEd25519PublicKey(v) || StrKey.isValidContract(v)] *)
Context (isStrKey : string -> bool).

Definition canonicalRecipient (v : val) : result unwind_error string :=
  match v with Str s => if isStrKey s then Ok s else invalid | _ => invalid end.

(** ** The proof *)
Definition str (m : result unwind_error string) : result unwind_error val := Str <$> m.

Definition log_index (proof : val) (name : string) : result unwind_error (string * val) :=
  let v := get proof#"logIndices" name in
  if is_safe_integer v && (0 <=? integer_of v)%Z then Ok (name, v) else invalid.

Definition log_digest (proof : val) (name : string) : result unwind_error (string * val) :=
  d ← canonicalDigest (get proof#"logDigests" name); Ok (name, Str d).

Definition canonical_fields (p : val) (logIndices logDigests : list (string * val))
    : result unwind_error val :=
  object
    ["version" ↦ Ok (number 1); "chainId" ↦ Ok (number 84532);
     "userOpHash" ↦ str (canonicalHash p#"userOpHash");
     "jobCommitment" ↦ str (canonicalHash p#"jobCommitment");
     "unwindTxHash" ↦ str (canonicalHash p#"unwindTxHash");
     "entryPointAddress" ↦ str (canonicalAddress p#"entryPointAddress");
     "kernelAddress" ↦ str (canonicalAddress p#"kernelAddress");
     "blockNumber" ↦ str (canonicalDecimal p#"blockNumber");
     "blockHash" ↦ str (canonicalHash p#"blockHash");
     "userOpNonce" ↦ str (canonicalDecimal p#"userOpNonce");
     "burned" ↦ str (canonicalDecimal p#"burned");
     "exited" ↦ str (canonicalDecimal p#"exited");
     "skipped" ↦ str (canonicalDecimal p#"skipped");
     "maxFee" ↦ str (canonicalDecimal p#"maxFee");
     "hookData" ↦ str (canonicalEvenHex p#"hookData");
     "sourceMessageHex" ↦ str (canonicalEvenHex p#"sourceMessageHex");
     "sourceMessageDigest" ↦ str (canonicalDigest p#"sourceMessageDigest");
     "logIndices" ↦ Ok (Obj logIndices); "logDigests" ↦ Ok (Obj logDigests)].

(** The proof speaks of this job, of its kernel and of the expected burn. *)
Definition proof_binds (c e : val) (kernel expectedJobCommitment : string) : bool :=
  strict_eq c#"kernelAddress" (Str kernel) && strict_eq c#"jobCommitment" (Str expectedJobCommitment)
  && negb (strict_eq c#"burned" (Str "0")) && strict_eq c#"burned" e#"amount"
  && strict_eq c#"maxFee" e#"maxFee" && strict_eq c#"hookData" e#"hookData".

Definition canonicalProof (proof e : val) (job kernel : string) : result unwind_error val :=
  if negb (exactKeys proof PROOF_KEYS) || negb (strict_eq proof#"version" (number 1))
     || negb (strict_eq proof#"chainId" (number 84532)) then invalid
  else if negb (exactKeys proof#"logIndices" LOG_NAMES) || negb (exactKeys proof#"logDigests" LOG_NAMES)
  then invalid
  else
    logIndices ← map_throw (log_index proof) LOG_NAMES;
    logDigests ← map_throw (log_digest proof) LOG_NAMES;
    canonical ← canonical_fields proof logIndices logDigests;
    id ← canonicalJobId (Str job);
    if proof_binds canonical e kernel (commitment [UNWIND_JOB_DOMAIN; "0x" +:+ id])
    then Ok canonical else conflict.

(** [JSON.stringify(v)] *)
Definition json (v : val) : result unwind_error string :=
  match JSON.stringify v with
  | Ok (Some t) => Ok (string_of t)
  | _ => Throw (RelayError TypeError)
  end.

(** [sha256(`${domain}\0${text}`)] *)
Definition tagged_digest (domain : chars) (text : string) : string :=
  string_of (sha256 (domain ++ "000"%char :: chars_of text)).

Definition proofDigest (proof : val) : result unwind_error string :=
  t ← json proof; Ok (tagged_digest PROOF_DIGEST_DOMAIN t).

Definition reserveJson (job kernel recipient : string) : result unwind_error string :=
  json (Obj [("jobId", Str job); ("kernelAddress", Str kernel); ("recipientHint", Str recipient)]).
Definition reserveDigest (text : string) : string :=
  tagged_digest (chars_of "vf-unwind-reserve-v1") text.

(** ** What the caller sees *)
Record public_reserve := {
  pr_jobId : string; pr_status : unwind_state; pr_createdAt : Z; pr_updatedAt : Z;
  pr_expiresAt : Z; pr_capabilityExpiresAt : Z;
}.

Definition publicReserve (j : job) : public_reserve := {|
  pr_jobId := job_id (reserved j); pr_status := jstate j; pr_createdAt := created_at (reserved j);
  pr_updatedAt := updated_at j; pr_expiresAt := expires_at (reserved j);
  pr_capabilityExpiresAt := capability_expires_at (reserved j) |}.

Record public_status := {
  ps_jobId : string; ps_status : unwind_state; ps_unwindTxHash : option string;
  ps_mintTxHash : option string; ps_reasonCode : option string;
}.

Definition publicStatus (j : job) : public_status := {|
  ps_jobId := job_id (reserved j); ps_status := jstate j;
  ps_unwindTxHash :=
    if in_states (jstate j) [relay_pending; relay_running; done; blocked; uncertain]
    then unwind_tx_hash <$> proof j else None;
  ps_mintTxHash :=
    if in_states (jstate j) [relay_running; done; uncertain] then mint_tx_hash j else None;
  ps_reasonCode := if in_states (jstate j) [blocked; uncertain] then reason_code j else None |}.

(** ** The relay work of a job *)
Record projection := {
  pj_state : unwind_state; pj_mintTxHash : option string; pj_reasonCode : option string;
}.

Definition relayProjection (r : relay) : projection :=
  let hash := string_of <$> mintTxHash r in
  match status r with
  | attestation_pending => {| pj_state := relay_pending; pj_mintTxHash := None; pj_reasonCode := None |}
  | attested | mint_submitting =>
      {| pj_state := relay_running; pj_mintTxHash := None; pj_reasonCode := None |}
  | mint_submitted => {| pj_state := relay_running; pj_mintTxHash := hash; pj_reasonCode := None |}
  | minted => {| pj_state := done; pj_mintTxHash := hash; pj_reasonCode := None |}
  | Relay.blocked => {| pj_state := blocked; pj_mintTxHash := hash; pj_reasonCode := reasonCode r |}
  | Relay.uncertain => {| pj_state := uncertain; pj_mintTxHash := hash; pj_reasonCode := reasonCode r |}
  end.

(** The text column of a relay row, as [cctpBind] writes it. *)
Definition relay_expectation_json (r : relay) : result unwind_error string :=
  json (or_null id (expectation (ident r))).

Definition validatedCctpRow (r : option relay) : result unwind_error (option relay) :=
  match r with
  | None => Ok None
  | Some r =>
      match assertCanonicalRelayRecord sha256 (record_val r) with
      | Ok _ => Ok (Some r)
      | Throw _ => Throw Integrity
      end
  end.

(** ** The integrity of a row *)

(** [`0x${text.slice(-40)}`] *)
Definition last_address (v : val) : string :=
  let l := coerce v in string_of (Hex.prefix ++ drop (length l - 40) l).

(** The columns that the proof and the expectation determine. *)
Definition expectedStored (c e : val) : list (string * val) :=
  [("chain_id", c#"chainId"); ("entry_point", c#"entryPointAddress");
   ("sweeper_address", Str (last_address e#"messageSender"));
   ("block_number", c#"blockNumber"); ("block_hash", c#"blockHash");
   ("user_operation_log_index", c#"logIndices"#"userOperationEvent");
   ("user_operation_log_digest", c#"logDigests"#"userOperationEvent");
   ("swept_log_index", c#"logIndices"#"swept"); ("swept_log_digest", c#"logDigests"#"swept");
   ("deposit_log_index", c#"logIndices"#"depositForBurn");
   ("deposit_log_digest", c#"logDigests"#"depositForBurn");
   ("message_sent_log_index", c#"logIndices"#"messageSent");
   ("message_sent_log_digest", c#"logDigests"#"messageSent");
   ("burned", c#"burned"); ("exited", c#"exited"); ("skipped", c#"skipped");
   ("max_fee", c#"maxFee"); ("hook_data", c#"hookData");
   ("source_message_hex", c#"sourceMessageHex"); ("source_message_digest", c#"sourceMessageDigest")].

Definition integrity (b : bool) : result unwind_error unit := guard_throw b Integrity.
(** [catch { throw new Error(…) }] *)
Definition or_integrity {E A} (m : result E A) : result unwind_error A :=
  match m with Ok a => Ok a | Throw _ => Throw Integrity end.

(** An error of the relay store passes through. *)
Definition from_relay {A} (m : result relay_error A) : result unwind_error A :=
  match m with Ok a => Ok a | Throw e => Throw (RelayError e) end.

Definition check_reservation (r : reservation) : result unwind_error unit :=
  _ ← or_integrity (canonicalRecipient (Str (recipient_hint r)));
  t ← reserveJson (job_id r) (kernel_address r) (recipient_hint r);
  integrity (bool_decide (reserve_json r = t) && bool_decide (request_digest r = reserveDigest t)).

Definition check_proof (r : reservation) (p : proof_row) : result unwind_error unit :=
  e ← or_integrity (v ← or_integrity (JSON.parse (chars_of (expectation_json p)));
                    or_integrity (canonicalizeExpectation v));
  parsed ← or_integrity (JSON.parse (chars_of (proof_json p)));
  c ← or_integrity (canonicalProof parsed e (job_id r) (kernel_address r));
  expectationText ← json e;
  digest ← from_relay (expectationDigest sha256 e);
  proofText ← json c;
  d ← proofDigest c;
  _ ← integrity (bool_decide (expectation_json p = expectationText)
        && bool_decide (expectation_digest p = string_of digest)
        && bool_decide (proof_json p = proofText) && bool_decide (proof_digest p = d)
        && strict_eq (Str (user_op_hash p)) c#"userOpHash"
        && strict_eq (Str (unwind_tx_hash p)) c#"unwindTxHash"
        && forallb (fun f => strict_eq (get (Obj (evidence_columns p)) f.1) f.2) (expectedStored c e));
  integrity (strict_eq c#"sourceMessageDigest"
               (Str (string_of (sha256 (Hex.from_hex (drop 2 (coerce c#"sourceMessageHex"))))))).

Definition agrees (j : job) (pj : projection) : bool :=
  bool_decide (jstate j = pj_state pj) && bool_decide (mint_tx_hash j = pj_mintTxHash pj)
  && bool_decide (reason_code j = pj_reasonCode pj).

Definition check_relay (j : job) (p : proof_row) (r : option relay) : result unwind_error unit :=
  r ← validatedCctpRow r;
  match r with
  | None => Throw Integrity
  | Some r =>
      t ← relay_expectation_json r;
      _ ← integrity (bool_decide (sourceDomain (ident r) = Some BASE_DOMAIN)
            && bool_decide (burnTxHash (ident r) = Some (chars_of (unwind_tx_hash p)))
            && bool_decide (expectationDigest_ (ident r) = Some (chars_of (expectation_digest p)))
            && bool_decide (t = expectation_json p));
      let pj := relayProjection r in
      _ ← integrity (negb (in_states (jstate j) [done; blocked; uncertain]) || agrees j pj);
      integrity (negb (bool_decide (jstate j = relay_running)
                       && bool_decide (pj_state pj = relay_pending)))
  end.

Definition validateUnwindRow (relays : rows) (j : job) : result unwind_error job :=
  _ ← check_reservation (reserved j);
  match proof j with
  | None => Ok j
  | Some p =>
      _ ← check_proof (reserved j) p;
      _ ← check_relay j p (relays !! relay_exec_id p);
      Ok j
  end.
End Parameters.
End Strings.
End Unwind.
