(* ===== verification/UnwindOps.v ===== *)
(** * The operations of the store of unwind jobs

    Models [createUnwindStore] of [relayer/src/unwindStore.mjs].  An operation gives its result
    and the database after it; a transaction that throws leaves the database as it was.  An
    update is a condition and an assignment; it is refused when the row breaks a constraint of
    the table, its unique index on the user operation included. *)
From S2P Require Export UnwindStore.

Module UnwindOps.
Import Relay Ledger Unwind.

Section Strings.
Local Open Scope string_scope.
Local Open Scope list_scope.

Section Store.
Context (sha256 : chars -> chars) (commitment : list string -> string) (isStrKey : string -> bool).
(** [attachFault(point)]: whether it throws. *)
Context (attachFault : string -> bool).
Notation validateUnwindRow := (validateUnwindRow sha256 commitment isStrKey).

Definition outcome (A : Type) : Type := result unwind_error A * db.

(** [transaction(action)] *)
Definition transaction {A} (d : db) (action : result unwind_error (A * db)) : outcome A :=
  match action with Ok p => (Ok p.1, p.2) | Throw e => (Throw e, d) end.

(** [select().get(jobId)] *)
Definition select (d : db) (id : string) : result unwind_error (option job) :=
  match jobs d !! id with
  | None => Ok None
  | Some j => Some <$> validateUnwindRow (work d) j
  end.

(** The row that was just written. *)
Definition selected (d : db) (id : string) : result unwind_error job :=
  r ← select d id;
  match r with Some j => Ok j | None => Throw (RelayError TypeError) end.

(** The unique index on [user_op_hash]. *)
Definition same_user_op (h : string) (j : job) : bool :=
  match proof j with Some p => bool_decide (user_op_hash p = h) | None => false end.
Definition unique_user_op (d : db) (j : job) : bool :=
  match proof j with
  | None => true
  | Some p =>
      negb (existsb (fun k => negb (bool_decide (job_id (reserved k) = job_id (reserved j)))
                              && same_user_op (user_op_hash p) k)
              (map snd (map_to_list (jobs d))))
  end.

Definition write (d : db) (j : job) : result unwind_error db :=
  if row_checks j && unique_user_op d j
  then Ok {| jobs := <[job_id (reserved j) := j]> (jobs d); work := work d |}
  else Throw Constraint.

(** [UPDATE … WHERE job_id=? AND cond]: whether a row changed. *)
Definition update (d : db) (id : string) (cond : job -> bool) (f : job -> job)
    : result unwind_error (bool * db) :=
  match jobs d !! id with
  | Some j => if cond j then d ← write d (f j); Ok (true, d) else Ok (false, d)
  | None => Ok (false, d)
  end.

(** ** Assignments *)
Definition set_lease (j : job) (l : option (string * Z)) (at_ : Z) : job := {|
  reserved := reserved j; jstate := jstate j; cand := cand j; proof := proof j;
  mint_tx_hash := mint_tx_hash j; reason_code := reason_code j; jattempts := jattempts j;
  lease := l; updated_at := at_ |}.

Definition set_state (j : job) (s : unwind_state) (reason : option string) (at_ : Z) : job := {|
  reserved := reserved j; jstate := s; cand := cand j; proof := proof j;
  mint_tx_hash := mint_tx_hash j; reason_code := reason; jattempts := jattempts j;
  lease := None; updated_at := at_ |}.

Definition set_candidate (j : job) (c : candidate) (at_ : Z) : job := {|
  reserved := reserved j; jstate := jstate j; cand := Some c; proof := proof j;
  mint_tx_hash := mint_tx_hash j; reason_code := reason_code j; jattempts := jattempts j;
  lease := lease j; updated_at := at_ |}.

Definition set_proof (j : job) (p : proof_row) (at_ : Z) : job := {|
  reserved := reserved j; jstate := relay_pending; cand := cand j; proof := Some p;
  mint_tx_hash := mint_tx_hash j; reason_code := reason_code j; jattempts := jattempts j;
  lease := None; updated_at := at_ |}.

Definition set_projection (j : job) (pj : projection) (at_ : Z) : job := {|
  reserved := reserved j; jstate := pj_state pj; cand := cand j; proof := proof j;
  mint_tx_hash := pj_mintTxHash pj; reason_code := pj_reasonCode pj; jattempts := jattempts j;
  lease := lease j; updated_at := at_ |}.

Definition count_attempt (j : job) : job := {|
  reserved := reserved j; jstate := jstate j; cand := cand j; proof := proof j;
  mint_tx_hash := mint_tx_hash j; reason_code := reason_code j; jattempts := jattempts j + 1;
  lease := lease j; updated_at := updated_at j |}.

(** [state='awaiting_burn' AND proof_digest IS NULL] *)
Definition awaiting (j : job) : bool :=
  bool_decide (jstate j = awaiting_burn) && negb (is_some (proof j)).
(** [lease_token=? AND lease_expires_at>?] *)
Definition leased (j : job) (token : string) (at_ : Z) : bool :=
  match lease j with Some (t, e) => bool_decide (t = token) && (at_ <? e)%Z | None => false end.
Definition candidate_is (j : job) (userOp tx : string) : bool :=
  match cand j with
  | Some c => bool_decide (candidate_user_op_hash c = userOp) && bool_decide (candidate_unwind_tx_hash c = tx)
  | None => false
  end.

(** ** Reservation *)
Record reserve_input := {
  ri_jobId : val; ri_capabilityHash : val; ri_kernelAddress : val; ri_recipientHint : val;
  ri_requestDigest : val; ri_expiresAt : num; ri_capabilityExpiresAt : num;
}.

Definition new_job (r : reservation) : job := {|
  reserved := r; jstate := awaiting_burn; cand := None; proof := None; mint_tx_hash := None;
  reason_code := None; jattempts := 0; lease := None; updated_at := created_at r |}.

Definition canonical_reservation (i : reserve_input) (now : num) : result unwind_error reservation :=
  jobId ← canonicalJobId (ri_jobId i);
  capabilityHash ← canonicalDigest (ri_capabilityHash i);
  kernelAddress ← canonicalAddress (ri_kernelAddress i);
  recipientHint ← canonicalRecipient isStrKey (ri_recipientHint i);
  requestDigest ← canonicalDigest (ri_requestDigest i);
  expiresAt ← requireTime (ri_expiresAt i);
  capabilityExpiresAt ← requireTime (ri_capabilityExpiresAt i);
  now ← requireTime now;
  if (expiresAt <=? now)%Z || (capabilityExpiresAt <=? expiresAt)%Z then invalid
  else
    text ← reserveJson jobId kernelAddress recipientHint;
    if negb (bool_decide (requestDigest = reserveDigest sha256 text)) then invalid
    else Ok {| job_id := jobId; capability_hash := capabilityHash; kernel_address := kernelAddress;
               recipient_hint := recipientHint; request_digest := requestDigest; reserve_json := text;
               expires_at := expiresAt; capability_expires_at := capabilityExpiresAt;
               created_at := now |}.

Definition reserve (d : db) (i : reserve_input) (now : num) : outcome public_reserve :=
  transaction d (
    r ← canonical_reservation i now;
    existing ← select d (job_id r);
    match existing with
    | Some j =>
        if negb (bool_decide (capability_hash (reserved j) = capability_hash r))
        then Throw UNWIND_UNAUTHORIZED
        else if negb (bool_decide (kernel_address (reserved j) = kernel_address r))
             || negb (bool_decide (recipient_hint (reserved j) = recipient_hint r))
             || negb (bool_decide (request_digest (reserved j) = request_digest r))
             || negb (bool_decide (reserve_json (reserved j) = reserve_json r))
        then conflict
        else if negb (bool_decide (jstate j = awaiting_burn)) || is_some (proof j)
             || (expires_at (reserved j) <=? created_at r)%Z || is_some (cand j) || is_some (lease j)
        then conflict
        else Ok (publicReserve j, d)
    | None =>
        d ← write d (new_job r);
        j ← selected d (job_id r);
        Ok (publicReserve j, d)
    end).

(** ** Reading *)
Record authority := {
  au_jobId : string; au_kernelAddress : string; au_recipientHint : string; au_expiresAt : Z;
  au_capabilityExpiresAt : Z; au_state : unwind_state; au_capabilityHash : string;
  au_userOpHash : option string; au_unwindTxHash : option string; au_relayExecId : option string;
  au_candidateUserOpHash : option string; au_candidateUnwindTxHash : option string;
  au_evidenceRetryUntil : option Z;
}.

Definition authorityFromRow (j : job) : authority := {|
  au_jobId := job_id (reserved j); au_kernelAddress := kernel_address (reserved j);
  au_recipientHint := recipient_hint (reserved j); au_expiresAt := expires_at (reserved j);
  au_capabilityExpiresAt := capability_expires_at (reserved j); au_state := jstate j;
  au_capabilityHash := capability_hash (reserved j);
  au_userOpHash := user_op_hash <$> proof j; au_unwindTxHash := unwind_tx_hash <$> proof j;
  au_relayExecId := relay_exec_id <$> proof j;
  au_candidateUserOpHash := candidate_user_op_hash <$> cand j;
  au_candidateUnwindTxHash := candidate_unwind_tx_hash <$> cand j;
  au_evidenceRetryUntil := evidence_retry_until <$> cand j |}.

Definition getAuthority (d : db) (jobId : val) : result unwind_error (option authority) :=
  id ← canonicalJobId jobId; j ← select d id; Ok (option_map authorityFromRow j).

Definition status (d : db) (jobId : val) : result unwind_error (option public_status) :=
  id ← canonicalJobId jobId; j ← select d id; Ok (option_map publicStatus j).

(** ** The lease of the evidence *)

(** A token, or [null]. *)
Definition optional_token (v : val) : result unwind_error (option string) :=
  match v with Str s => Ok (Some s) | Undefined | Null => Ok None | _ => invalid end.
Definition required_token (v : val) : result unwind_error string :=
  match v with Str s => if decide (s = EmptyString) then invalid else Ok s | _ => invalid end.

Definition leaseTokenValue (token : val) : result unwind_error string :=
  match token with
  | Str s => if decide (s = EmptyString) then Throw UNWIND_CAS_CONFLICT else Ok s
  | _ => Throw UNWIND_CAS_CONFLICT
  end.

Record evidence_claim := {
  ec_jobId : string; ec_kernelAddress : string; ec_recipientHint : string;
  ec_lease : option (string * Z);
}.

Definition claim_of (j : job) : evidence_claim := {|
  ec_jobId := job_id (reserved j); ec_kernelAddress := kernel_address (reserved j);
  ec_recipientHint := recipient_hint (reserved j); ec_lease := lease j |}.

(** The lease that a claim takes out until [retryUntil], by [assign] under [cond]. *)
Definition take_lease (d : db) (id token : string) (at_ leaseMs retryUntil : Z) (cond : job -> bool)
    (assign : job -> job) : result unwind_error (option evidence_claim * db) :=
  if negb (isSafeInteger (Num retryUntil)) || (retryUntil <=? at_)%Z then Ok (None, d)
  else
    let leaseExpiresAt := Z.min (at_ + leaseMs) retryUntil in
    if negb (isSafeInteger (Num leaseExpiresAt)) || (leaseExpiresAt <=? at_)%Z then Ok (None, d)
    else
      p ← update d id cond
            (fun j => set_lease (count_attempt (assign j)) (Some (token, leaseExpiresAt)) at_);
      if negb p.1 then Throw UNWIND_CAS_CONFLICT
      else j ← selected p.2 id; Ok (Some (claim_of j), p.2).

Definition claimEvidence (d : db) (jobId userOpHash unwindTxHash : val) (now leaseMs retryMs : num)
    (token : val) : outcome (option evidence_claim) :=
  transaction d (
    id ← canonicalJobId jobId;
    userOp ← canonicalHash userOpHash;
    tx ← canonicalHash unwindTxHash;
    at_ ← requireTime now;
    leaseMs ← require_positive leaseMs;
    retryMs ← require_positive retryMs;
    token ← leaseTokenValue token;
    existing ← select d id;
    match existing with
    | None => Ok (None, d)
    | Some j =>
        if negb (awaiting j) || is_some (lease j) then Ok (None, d)
        else
          match cand j with
          | None =>
              if (expires_at (reserved j) <=? at_)%Z then Ok (None, d)
              else
                let retryUntil :=
                  Z.min (capability_expires_at (reserved j)) (expires_at (reserved j) + retryMs) in
                take_lease d id token at_ leaseMs retryUntil
                  (fun j => awaiting j && negb (is_some (cand j)) && (at_ <? expires_at (reserved j))%Z
                            && negb (is_some (lease j)))
                  (fun j => set_candidate j {| candidate_user_op_hash := userOp;
                              candidate_unwind_tx_hash := tx; evidence_retry_until := retryUntil |} at_)
          | Some c =>
              if negb (candidate_is j userOp tx) then conflict
              else
                take_lease d id token at_ leaseMs (evidence_retry_until c)
                  (fun j => awaiting j && candidate_is j userOp tx
                            && match cand j with Some c => (at_ <? evidence_retry_until c)%Z | None => false end
                            && negb (is_some (lease j)))
                  (fun j => j)
          end
    end).

(** A single statement: the row is not validated. *)
Definition renewEvidence (d : db) (jobId leaseToken : val) (now leaseMs : num)
    : outcome (string * option (string * Z)) :=
  transaction d (
    id ← canonicalJobId jobId;
    at_ ← requireTime now;
    token ← required_token leaseToken;
    leaseMs ← require_positive leaseMs;
    p ← update d id
          (fun j => awaiting j && leased j token at_
                    && match cand j with Some c => (at_ <? evidence_retry_until c)%Z | None => false end)
          (fun j => set_lease j
             ((fun l => (l.1, match cand j with
                              | Some c => Z.min (at_ + leaseMs) (evidence_retry_until c)
                              | None => l.2 end)) <$> lease j) at_);
    match p.1 : bool, jobs p.2 !! id with
    | true, Some j => Ok ((job_id (reserved j), lease j), p.2)
    | _, _ => Throw UNWIND_CAS_CONFLICT
    end).

(** Not a transaction: the update stays although the row that is read back may be refused. *)
Definition releaseEvidence (d : db) (jobId leaseToken : val) (now : num) : outcome public_status :=
  match (id ← canonicalJobId jobId;
         at_ ← requireTime now;
         token ← required_token leaseToken;
         p ← update d id (fun j => awaiting j && leased j token at_) (fun j => set_lease j None at_);
         if negb p.1 then Throw UNWIND_CAS_CONFLICT else Ok (id, p.2)) with
  | Throw e => (Throw e, d)
  | Ok (id, d) => (publicStatus <$> selected d id, d)
  end.

(** ** Ends without a proof *)
Definition finishTerminal (d : db) (jobId leaseToken reasonCode : val) (now : num)
    (s : unwind_state) (reasons : list string) : outcome public_status :=
  transaction d (
    id ← canonicalJobId jobId;
    at_ ← requireTime now;
    token ← optional_token leaseToken;
    reason ← match reasonCode with
             | Str c => if bool_decide (c ∈ reasons) then Ok c else invalid
             | _ => invalid
             end;
    existing ← select d id;
    match existing with
    | None => Throw UNWIND_UNAUTHORIZED
    | Some j =>
        if bool_decide (jstate j = s) && bool_decide (reason_code j = Some reason)
        then Ok (publicStatus j, d)
        else if negb (awaiting j) then conflict
        else
          p ← update d id
                (fun j => awaiting j
                   && match lease j, token with
                      | None, None => (at_ <? expires_at (reserved j))%Z
                      | Some _, Some token => leased j token at_
                      | _, _ => false
                      end)
                (fun j => set_state j s (Some reason) at_);
          if negb p.1 then Throw UNWIND_CAS_CONFLICT
          else j ← selected p.2 id; Ok (publicStatus j, p.2)
    end).

Definition finishBlocked (d : db) (jobId leaseToken reasonCode : val) (now : num) :=
  finishTerminal d jobId leaseToken reasonCode now blocked RELAY_BLOCKED_REASONS.
Definition finishUncertain (d : db) (jobId leaseToken reasonCode : val) (now : num) :=
  finishTerminal d jobId leaseToken reasonCode now uncertain RELAY_UNCERTAIN_REASONS.

(** ** The proof of the burn *)

(** The columns that [attachAndEnqueue] writes, in its order. *)
Definition attached_columns (c : val) (sweeperAddress : string) : list (string * val) :=
  [("chain_id", c#"chainId"); ("entry_point", c#"entryPointAddress");
   ("sweeper_address", Str sweeperAddress); ("block_number", c#"blockNumber");
   ("block_hash", c#"blockHash");
   ("user_operation_log_index", c#"logIndices"#"userOperationEvent");
   ("user_operation_log_digest", c#"logDigests"#"userOperationEvent");
   ("swept_log_index", c#"logIndices"#"swept"); ("swept_log_digest", c#"logDigests"#"swept");
   ("deposit_log_index", c#"logIndices"#"depositForBurn");
   ("deposit_log_digest", c#"logDigests"#"depositForBurn");
   ("message_sent_log_index", c#"logIndices"#"messageSent");
   ("message_sent_log_digest", c#"logDigests"#"messageSent");
   ("burned", c#"burned"); ("exited", c#"exited"); ("skipped", c#"skipped");
   ("max_fee", c#"maxFee"); ("hook_data", c#"hookData");
   ("source_message_hex", c#"sourceMessageHex"); ("source_message_digest", c#"sourceMessageDigest")].

(** [cctpRecord]: a row that is not canonical is a conflict. *)
Definition cctpRecord (r : option relay) : result unwind_error (option relay) :=
  match validatedCctpRow sha256 r with Ok r => Ok r | Throw _ => conflict end.

Definition or_conflict {A} (m : result relay_error A) : result unwind_error A :=
  match m with
  | Ok a => Ok a
  | Throw RELAY_ENQUEUE_CONFLICT => conflict
  | Throw e => Throw (RelayError e)
  end.

(** The callback of the enqueue decision; a row that is not canonical makes it throw the error
    that a conflict becomes. *)
Definition hasIdentityConflict (d : db) (execId_ : string) (source : Z) (burn digest : chars) : bool :=
  existsb (fun r =>
      bool_decide (sourceDomain (ident r) = Some source) && bool_decide (burnTxHash (ident r) = Some burn)
      && negb (bool_decide (execId (ident r) = execId_))
      && match cctpRecord (Some r) with
         | Ok _ => relayIdentityConflicts r source burn digest
         | Throw _ => true
         end)
    (map snd (map_to_list (work d))).

(** The candidate of the row, bound now when there is none. *)
Definition bind_candidate (d : db) (j : job) (token : option string) (userOp tx : string) (at_ : Z)
    : result unwind_error (job * db) :=
  match cand j with
  | None =>
      if is_some (lease j) || is_some token || (expires_at (reserved j) <=? at_)%Z then conflict
      else
        let retryUntil :=
          Z.min (capability_expires_at (reserved j)) (Z.max (expires_at (reserved j) + 1) (at_ + 1)) in
        p ← update d (job_id (reserved j))
              (fun j => awaiting j && negb (is_some (cand j)) && (at_ <? expires_at (reserved j))%Z)
              (fun j => set_candidate j {| candidate_user_op_hash := userOp;
                          candidate_unwind_tx_hash := tx; evidence_retry_until := retryUntil |} at_);
        if negb p.1 then conflict
        else j ← selected p.2 (job_id (reserved j)); Ok (j, p.2)
  | Some _ => if negb (candidate_is j userOp tx) then conflict else Ok (j, d)
  end.

Definition check_lease (j : job) (token : option string) (at_ : Z) : result unwind_error unit :=
  if is_some (lease j) || is_some token then
    match token with
    | Some token => if leased j token at_ then Ok tt else Throw UNWIND_CAS_CONFLICT
    | None => Throw UNWIND_CAS_CONFLICT
    end
  else if (expires_at (reserved j) <=? at_)%Z then conflict else Ok tt.

Definition fault (point : string) : result unwind_error unit :=
  if attachFault point then Throw Fault else Ok tt.

(** The two texts that a proof must hold. *)
Definition text_field (c : val) (k : string) : string := string_of (coerce (get c k)).

Definition proof_row_of (c e : val) (proofText proofHash expectationText expectationHash execId_ : string)
    : proof_row := {|
  user_op_hash := text_field c "userOpHash"; unwind_tx_hash := text_field c "unwindTxHash";
  evidence_columns := attached_columns c (last_address e#"messageSender");
  proof_json := proofText; proof_digest := proofHash; expectation_json := expectationText;
  expectation_digest := expectationHash; relay_exec_id := execId_ |}.

Record attach_input := {
  ai_jobId : val; ai_proof : val; ai_expectation : val; ai_relayExecId : val; ai_leaseToken : val;
}.

(** A token of another type than a string is stale, not invalid. *)
Definition attach_token (v : val) : option string :=
  match v with Str s => Some s | Undefined | Null => None | _ => Some EmptyString end.

Definition attachAndEnqueue (d : db) (i : attach_input) (now : num)
    : outcome (bool * public_status) :=
  transaction d (
    id ← canonicalJobId (ai_jobId i);
    at_ ← requireTime now;
    let execId_ := unwind_exec_id id in
    if negb (strict_eq (ai_relayExecId i) (Str execId_)) then invalid
    else
      e ← from_relay (canonicalizeExpectation (ai_expectation i));
      if negb (strict_eq e#"direction" (Str "base-to-stellar"))
         || negb (strict_eq e#"sourceDomain" (number 6)) then invalid
      else
        digest ← from_relay (expectationDigest sha256 e);
        row ← select d id;
        match row with
        | None => Throw UNWIND_UNAUTHORIZED
        | Some j =>
            c ← canonicalProof commitment (ai_proof i) e (job_id (reserved j)) (kernel_address (reserved j));
            proofText ← json c;
            proofHash ← proofDigest sha256 c;
            let userOp := text_field c "userOpHash" in
            let tx := text_field c "unwindTxHash" in
            match proof j with
            | Some p =>
                if negb (bool_decide (user_op_hash p = userOp)) || negb (bool_decide (unwind_tx_hash p = tx))
                   || negb (bool_decide (proof_digest p = proofHash))
                   || negb (bool_decide (expectation_digest p = string_of digest))
                   || negb (bool_decide (relay_exec_id p = execId_))
                then conflict else Ok ((true, publicStatus j), d)
            | None =>
                if negb (bool_decide (jstate j = awaiting_burn)) then conflict
                else
                  let token := attach_token (ai_leaseToken i) in
                  b ← bind_candidate d j token userOp tx at_;
                  let '(j, d) := b in
                  _ ← check_lease j token at_;
                  if existsb (fun k => same_user_op userOp k && negb (bool_decide (job_id (reserved k) = id)))
                       (map snd (map_to_list (jobs d)))
                  then conflict
                  else
                    existing ← cctpRecord (work d !! execId_);
                    decision ← or_conflict (relayEnqueueDecision sha256 existing
                      (hasIdentityConflict d execId_) execId_ (number 6) (Str tx) e now);
                    if negb decision.2 then conflict
                    else
                      let d := {| jobs := jobs d; work := <[execId_ := decision.1]> (work d) |} in
                      _ ← fault "relay_insert";
                      expectationText ← json e;
                      p ← update d id (fun j => awaiting j && candidate_is j userOp tx)
                            (fun j => set_proof j (proof_row_of c e proofText proofHash expectationText
                                                     (string_of digest) execId_) at_);
                      if negb p.1 then Throw UNWIND_CAS_CONFLICT
                      else
                        _ ← fault "unwind_update";
                        j ← selected p.2 id;
                        Ok ((false, publicStatus j), p.2)
            end
        end).

(** ** Reconciliation *)

(** [(candidate_user_op_hash IS NULL AND expires_at<=?) OR (candidate_user_op_hash IS NOT NULL AND
    evidence_retry_until<=?)] *)
Definition overdue (j : job) (at_ : Z) : bool :=
  match cand j with
  | None => (expires_at (reserved j) <=? at_)%Z
  | Some c => (evidence_retry_until c <=? at_)%Z
  end.
(** [lease_token IS NULL OR lease_expires_at<=?] *)
Definition free (j : job) (at_ : Z) : bool :=
  match lease j with None => true | Some (_, e) => (e <=? at_)%Z end.
Definition lapsed (j : job) (at_ : Z) : bool :=
  match lease j with None => false | Some (_, e) => (e <=? at_)%Z end.

(** [state='awaiting_burn'] in the queries of the reconciliation. *)
Definition is_awaiting (j : job) : bool := bool_decide (jstate j = awaiting_burn).

Definition actionable (at_ : Z) (j : job) : bool :=
  (is_awaiting j || is_some (lease j))
  && ((is_awaiting j && overdue j at_ && free j at_) || lapsed j at_).

(** The assignment of both reconciliations. *)
Definition expire (at_ : Z) (j : job) : job :=
  if is_awaiting j && overdue j at_ then
    match cand j with
    | None => set_state j expired (reason_code j) at_
    | Some _ => set_state j uncertain (Some "submission_unknown") at_
    end
  else set_lease j None at_.

Definition by_created (a b : job) : bool :=
  (created_at (reserved a) <? created_at (reserved b))%Z
  || (created_at (reserved a) =? created_at (reserved b))%Z
     && String.leb (job_id (reserved a)) (job_id (reserved b)).
Definition by_updated (a b : job) : bool :=
  (updated_at a <? updated_at b)%Z || (updated_at a =? updated_at b)%Z && by_created a b.

(** [SELECT … WHERE keep ORDER BY … LIMIT ?] *)
Definition query (keep : job -> bool) (cmp : job -> job -> bool) (limit : Z) (d : db) : list job :=
  take (Z.to_nat limit)
    (merge_sort (fun a b => Is_true (cmp a b))
       (filter (fun j => Is_true (keep j)) (map snd (map_to_list (jobs d))))).

(** The loop over the rows found: each is updated by its id. *)
Fixpoint expire_all (at_ : Z) (ids : list string) (d : db) : result unwind_error db :=
  match ids with
  | [] => Ok d
  | id :: ids => p ← update d id (fun _ => true) (expire at_); expire_all at_ ids p.2
  end.

Definition reconcileExpired (d : db) (now limit : num) : outcome (list public_status) :=
  transaction d (
    at_ ← requireTime now;
    limit ← require_positive limit;
    let ids := map (fun j => job_id (reserved j)) (query (actionable at_) by_created limit d) in
    d ← expire_all at_ ids d;
    statuses ← map_throw (fun id => publicStatus <$> selected d id) ids;
    Ok (statuses, d)).

Record resume_entry := { re_jobId : string; re_relayExecId : string; re_state : unwind_state }.

(** The join with the relay work. *)
Definition resumable (d : db) (at_ : Z) (j : job) : bool :=
  in_states (jstate j) [relay_pending; relay_running]
  && match proof j with
     | None => false
     | Some p =>
         match work d !! relay_exec_id p with
         | None => false
         | Some r =>
             bool_decide (burnTxHash (ident r) = Some (chars_of (unwind_tx_hash p)))
             && bool_decide (expectationDigest_ (ident r) = Some (chars_of (expectation_digest p)))
             && match relay_expectation_json r with Ok t => bool_decide (t = expectation_json p) | Throw _ => false end
             && bool_decide (sourceDomain (ident r) = Some BASE_DOMAIN)
             && match leaseToken r with
                | None => true
                | Some _ => match leaseExpiresAt r with Some x => (x <=? at_)%Z | None => false end
                end
         end
     end.

Definition listForResume (d : db) (now limit : num) : result unwind_error (list resume_entry) :=
  at_ ← requireTime now;
  limit ← require_positive limit;
  map_throw (fun j =>
      j ← validateUnwindRow (work d) j;
      match proof j with
      | Some p => Ok {| re_jobId := job_id (reserved j); re_relayExecId := relay_exec_id p;
                        re_state := jstate j |}
      | None => Throw (RelayError TypeError)
      end)
    (query (resumable d at_) by_updated limit d).

(** [rank[state]] of the states a job can be in here. *)
Definition rank_of (s : unwind_state) : option Z :=
  match s with relay_pending => Some 0 | relay_running => Some 1 | _ => None end%Z.
(** [rank[a] > rank[b]]: a comparison with [undefined] is false. *)
Definition regresses (a b : unwind_state) : bool :=
  match rank_of a, rank_of b with Some x, Some y => (y <? x)%Z | _, _ => false end.

(** [expired] or [uncertain], when the time of the job is over. *)
Definition settle_overdue (d : db) (j : job) (at_ : Z) : result unwind_error (job * db) :=
  if is_awaiting j && overdue j at_ && free j at_ then
    p ← update d (job_id (reserved j)) (fun j => is_awaiting j && overdue j at_ && free j at_)
          (fun j => match cand j with
                    | None => set_state j expired None at_
                    | Some _ => set_state j uncertain (Some "submission_unknown") at_
                    end);
    j ← selected p.2 (job_id (reserved j)); Ok (j, p.2)
  else Ok (j, d).

Definition reconcileFromCctp (d : db) (jobId : val) (now : num) : outcome (option public_status) :=
  transaction d (
    id ← canonicalJobId jobId;
    at_ ← requireTime now;
    row ← match select d id with Ok r => Ok r | Throw _ => conflict end;
    match row with
    | None => Ok (None, d)
    | Some j =>
        s ← settle_overdue d j at_;
        let '(j, d) := s in
        match proof j with
        | None => Ok (Some (publicStatus j), d)
        | Some p =>
            if bool_decide (jstate j = expired) then Ok (Some (publicStatus j), d)
            else
              r ← cctpRecord (work d !! relay_exec_id p);
              match r with
              | None => conflict
              | Some r =>
                  if negb (bool_decide (burnTxHash (ident r) = Some (chars_of (unwind_tx_hash p))))
                     || negb (bool_decide (expectationDigest_ (ident r) = Some (chars_of (expectation_digest p))))
                  then conflict
                  else
                    let pj := relayProjection r in
                    if in_states (jstate j) [done; blocked; uncertain] then
                      if negb (agrees j pj) then conflict else Ok (Some (publicStatus j), d)
                    else if regresses (jstate j) (pj_state pj) then conflict
                    else
                      p ← update d id (fun j => in_states (jstate j) [relay_pending; relay_running])
                            (fun k => set_projection k pj (Z.max at_ (updated_at j)));
                      j ← selected p.2 id;
                      Ok (Some (publicStatus j), p.2)
              end
        end
    end).

(** ** One interface *)
Inductive request :=
| Reserve (i : reserve_input) (now : num)
| Attach (i : attach_input) (now : num)
| ClaimEvidence (jobId userOpHash unwindTxHash : val) (now leaseMs retryMs : num) (token : val)
| RenewEvidence (jobId leaseToken : val) (now leaseMs : num)
| ReleaseEvidence (jobId leaseToken : val) (now : num)
| FinishBlocked (jobId leaseToken reasonCode : val) (now : num)
| FinishUncertain (jobId leaseToken reasonCode : val) (now : num)
| ReconcileExpired (now limit : num)
| ReconcileFromCctp (jobId : val) (now : num).

(** The error of a call, if any, and the database after it. *)
Definition error_of {A} (o : outcome A) : option unwind_error * db :=
  (match o.1 with Ok _ => None | Throw e => Some e end, o.2).

Definition perform (d : db) (q : request) : option unwind_error * db :=
  match q with
  | Reserve i now => error_of (reserve d i now)
  | Attach i now => error_of (attachAndEnqueue d i now)
  | ClaimEvidence jobId userOp tx now leaseMs retryMs token =>
      error_of (claimEvidence d jobId userOp tx now leaseMs retryMs token)
  | RenewEvidence jobId token now leaseMs => error_of (renewEvidence d jobId token now leaseMs)
  | ReleaseEvidence jobId token now => error_of (releaseEvidence d jobId token now)
  | FinishBlocked jobId token reason now => error_of (finishBlocked d jobId token reason now)
  | FinishUncertain jobId token reason now => error_of (finishUncertain d jobId token reason now)
  | ReconcileExpired now limit => error_of (reconcileExpired d now limit)
  | ReconcileFromCctp jobId now => error_of (reconcileFromCctp d jobId now)
  end.
End Store.
End Strings.
End UnwindOps.
