(* ===== verification/UnwindRows.v ===== *)
(** * What the operations on unwind jobs do to one row

    Each call changes a row in one of four ways, or creates it; what follows is the history of
    a job and the exclusivity of the lease of its evidence. *)
From S2P Require Export UnwindOps.

Section Rows.
Import Relay Ledger Unwind UnwindOps.
Context (sha256 : chars -> chars) (commitment : list string -> string) (isStrKey : string -> bool).
Context (attachFault : string -> bool).
Notation perform := (perform sha256 commitment isStrKey attachFault).
Notation select := (select sha256 commitment isStrKey).
Notation selected := (selected sha256 commitment isStrKey).

(** Each job is stored under its own id. *)
Definition jkeyed (d : db) : Prop := map_Forall (fun id j => job_id (reserved j) = id) (jobs d).

(** The database with one row replaced. *)
Definition put_job (d : db) (id : string) (j : job) : db :=
  {| jobs := <[id := j]> (jobs d); work := work d |}.

Definition admitted (d : db) (j : job) : Prop := row_checks j = true /\ unique_user_op d j = true.

Lemma write_Ok d j d' : write d j = Ok d' -> d' = put_job d (job_id (reserved j)) j /\ admitted d j.
Proof. unfold write. destruct (_ && _) eqn:H; [|done]. intros [= <-]. by apply andb_prop in H. Qed.

Lemma update_Ok d id cond f p : jkeyed d -> (forall j, reserved (f j) = reserved j) ->
  update d id cond f = Ok p ->
  p = (false, d) \/
  exists j, jobs d !! id = Some j /\ cond j = true /\ p = (true, put_job d id (f j)) /\ admitted d (f j).
Proof.
  intros Hk Hf. unfold update. destruct (jobs d !! id) as [j|] eqn:Hj; [|intros [= <-]; by left].
  destruct (cond j) eqn:Hc; [|intros [= <-]; by left]. intros H. apply bind_Ok in H as (d' & Hw & [= <-]).
  apply write_Ok in Hw as [-> Ha]. right. exists j. rewrite Hf, (Hk _ _ Hj). done.
Qed.

(** A call that must change the row. *)
Lemma update_must {A} d id cond f e (k : db -> result unwind_error A) x :
  jkeyed d -> (forall j, reserved (f j) = reserved j) ->
  (p ← update d id cond f; if negb p.1 then Throw e else k p.2) = Ok x ->
  exists j, jobs d !! id = Some j /\ cond j = true /\ admitted d (f j) /\ k (put_job d id (f j)) = Ok x.
Proof.
  intros Hk Hf H. apply bind_Ok in H as (p & Hp & H).
  destruct (update_Ok d id cond f p Hk Hf Hp) as [->|(j & ? & ? & -> & ?)]; [done|]. eauto 10.
Qed.

Lemma select_Some d id j : select d id = Ok (Some j) ->
  jobs d !! id = Some j /\ validateUnwindRow sha256 commitment isStrKey (work d) j = Ok j.
Proof.
  unfold UnwindOps.select. destruct (jobs d !! id) as [j'|]; [|done].
  destruct (validateUnwindRow _ _ _ _ j') as [j''|] eqn:Hv; [|done]. cbn. intros [= <-].
  assert (j'' = j') as ->; [|done]. unfold validateUnwindRow in Hv. by invert_ok Hv.
Qed.

Lemma select_None d id : select d id = Ok None -> jobs d !! id = None.
Proof. unfold UnwindOps.select. destruct (jobs d !! id); [|done]. by destruct (validateUnwindRow _ _ _ _ _). Qed.

Lemma selected_Ok d id j : selected d id = Ok j -> select d id = Ok (Some j).
Proof. unfold UnwindOps.selected. intros H. by invert_ok H. Qed.

(** ** The ways to change a row *)

(** The evidence of a job that awaits its burn: its lease and its candidate. *)
Record collecting (j j' : job) : Prop := {
  co_awaiting : awaiting j = true;
  co_awaiting' : awaiting j' = true;
  co_reserved : reserved j' = reserved j;
  co_cand : cand j' = cand j \/ cand j = None;
  co_mint : mint_tx_hash j' = mint_tx_hash j;
}.

Inductive changed (d : db) (id : string) (w : rows) : job -> job -> Prop :=
| ch_collect j j' : collecting j j' -> changed d id w j j'
| ch_unlease j at_ : lease j <> None -> changed d id w j (set_lease j None at_)
| ch_end j s reason at_ :
    is_awaiting j = true -> s ∈ [expired; blocked; uncertain] -> changed d id w j (set_state j s reason at_)
| ch_attach j0 j p at_ :
    awaiting j0 = true -> collecting j0 j \/ j = j0 ->
    candidate_is j (user_op_hash p) (unwind_tx_hash p) = true ->
    (forall id' k, jobs d !! id' = Some k -> id' <> id -> same_user_op (user_op_hash p) k = false) ->
    work d !! unwind_exec_id id = None -> is_Some (w !! unwind_exec_id id) ->
    validateUnwindRow sha256 commitment isStrKey w (set_proof j p at_) = Ok (set_proof j p at_) ->
    changed d id w j0 (set_proof j p at_)
| ch_project j p r at_ :
    proof j = Some p -> in_states (jstate j) [relay_pending; relay_running] = true ->
    w !! relay_exec_id p = Some r -> regresses (jstate j) (pj_state (relayProjection r)) = false ->
    changed d id w j (set_projection j (relayProjection r) at_).

(** The time of a call and the lease token it shows. *)
Definition time_of (q : request) : num :=
  match q with
  | Reserve _ now | Attach _ now | ClaimEvidence _ _ _ now _ _ _ | RenewEvidence _ _ now _
  | ReleaseEvidence _ _ now | FinishBlocked _ _ _ now | FinishUncertain _ _ _ now
  | ReconcileExpired now _ | ReconcileFromCctp _ now => now
  end.

Definition token_of (q : request) : val :=
  match q with
  | Attach i _ => ai_leaseToken i
  | RenewEvidence _ t _ _ | ReleaseEvidence _ t _ | FinishBlocked _ t _ _ | FinishUncertain _ t _ _ => t
  | Reserve _ _ | ClaimEvidence _ _ _ _ _ _ _ | ReconcileExpired _ _ | ReconcileFromCctp _ _ => Undefined
  end.

(** The row has no lease, or the call shows its token, or the lease has run out. *)
Definition may_touch (q : request) (j : job) : Prop :=
  match lease j with
  | None => True
  | Some (t, e) => token_of q = Str t \/ exists z, time_of q = Num z /\ e <= z
  end.

Definition row_after (d d' : db) (q : request) (id : string) : Prop :=
  jobs d' !! id = jobs d !! id
  \/ (exists j j', jobs d !! id = Some j /\ jobs d' !! id = Some j' /\ changed d id (work d') j j' /\ may_touch q j /\
        row_checks j' = true)
  \/ (exists r, jobs d !! id = None /\ jobs d' !! id = Some (new_job r) /\ job_id r = id /\
        row_checks (new_job r) = true /\
        validateUnwindRow sha256 commitment isStrKey (work d') (new_job r) = Ok (new_job r)).

Lemma row_same d q id : row_after d d q id.
Proof. by left. Qed.

Lemma row_put d d' q id0 j j' id :
  jobs d !! id0 = Some j -> changed d id0 (work d') j j' -> may_touch q j -> row_checks j' = true ->
  jobs d' = <[id0 := j']> (jobs d) -> row_after d d' q id.
Proof.
  intros Hj Hc Hm Hk Hd. unfold row_after. rewrite Hd. destruct (decide (id = id0)) as [->|Hn].
  - right; left. exists j, j'. by rewrite lookup_insert_eq.
  - left. by rewrite lookup_insert_ne.
Qed.

Lemma requireTime_Ok now z : requireTime now = Ok z -> now = Num z /\ isSafeInteger (Num z) = true /\ 0 <= z.
Proof. unfold requireTime, Unwind.invalid. intros H. invert_ok H. by zbool. Qed.

Lemma leased_token j t z : leased j t z = true -> exists e, lease j = Some (t, e) /\ z < e.
Proof.
  unfold leased. destruct (lease j) as [[t' e]|]; [|done]. intros [H1 H2]%andb_prop.
  apply bool_decide_eq_true in H1 as <-. zbool. eauto.
Qed.

Lemma unleased_touch q j : is_some (lease j) = false -> may_touch q j.
Proof. unfold may_touch. by destruct (lease j). Qed.

Lemma awaiting_set_lease j l at_ : awaiting (set_lease j l at_) = awaiting j.
Proof. done. Qed.

Lemma collecting_set_lease j l at_ : awaiting j = true -> collecting j (set_lease j l at_).
Proof. intros. split; try done. by left. Qed.

Lemma collecting_claim j c l at_ : awaiting j = true -> cand j = None ->
  collecting j (set_lease (count_attempt (set_candidate j c at_)) l at_).
Proof. intros. split; try done. by right. Qed.

(** *** Reservation, claim, renewal, release *)
Definition kept_work (d d' : db) : Prop := work d' = work d.

Lemma transaction_cases {A} d (m : result unwind_error (A * db)) (P : db -> Prop) :
  P d -> (forall x, m = Ok x -> P x.2) -> P (error_of (transaction d m)).2.
Proof. intros Hd Hm. destruct m as [x|e]; [by apply (Hm x)|done]. Qed.

Definition stepped (d d' : db) (q : request) : Prop :=
  work d' = work d /\ forall id, row_after d d' q id.

Lemma stepped_same d q : stepped d d q.
Proof. split; [done|intros; apply row_same]. Qed.

Lemma stepped_put d q id j j' :
  jobs d !! id = Some j -> changed d id (work d) j j' -> may_touch q j -> row_checks j' = true -> stepped d (put_job d id j') q.
Proof. intros. split; [done|]. intros id'. by apply (row_put _ _ _ id j j'). Qed.

Lemma reserve_stepped d i now : jkeyed d -> stepped d (perform d (Reserve i now)).2 (Reserve i now).
Proof.
  intros Hk. cbn [UnwindOps.perform]. unfold reserve. apply transaction_cases; [apply stepped_same|]. intros x H.
  apply bind_Ok in H as (r & _ & H). apply bind_Ok in H as ([j|] & Hs & H).
  - invert_ok H. apply stepped_same.
  - apply select_None in Hs. apply bind_Ok in H as (d' & Hw & H). apply write_Ok in Hw as [-> [Hck _]].
    apply bind_Ok in H as (k & [Hk' Hv]%selected_Ok%select_Some & [= <-]). cbn [put_job jobs new_job reserved] in Hk'.
    rewrite lookup_insert_eq in Hk'. injection Hk' as <-. split; [done|]. intros id. unfold row_after. cbn [put_job jobs snd reserved new_job].
    destruct (decide (id = job_id r)) as [->|Hn].
    + right; right. exists r. by rewrite lookup_insert_eq.
    + left. by rewrite lookup_insert_ne.
Qed.

Lemma take_lease_stepped d id token at_ ms retry cond f x q :
  jkeyed d -> (forall j, reserved (f j) = reserved j) ->
  (forall j, cond j = true -> is_some (lease j) = false) ->
  (forall j l, cond j = true -> collecting j (set_lease (count_attempt (f j)) l at_)) ->
  take_lease sha256 commitment isStrKey d id token at_ ms retry cond f = Ok x -> stepped d x.2 q.
Proof.
  intros Hk Hf Hl Hc H. unfold take_lease in H.
  destruct (_ || _) in H; [injection H as <-; apply stepped_same|].
  destruct (_ || _) in H; [injection H as <-; apply stepped_same|].
  apply update_must with (k := fun d' => j ← selected d' id; Ok (Some (claim_of j), d')) in H
    as (j & Hj & Hcj & [Hck _] & H); [|done|intros; apply Hf].
  invert_ok H. apply (stepped_put _ _ _ j); [done| |by apply unleased_touch, Hl|done]. by apply ch_collect, Hc.
Qed.

Lemma claim_stepped d id u t now ms retry tok q : jkeyed d -> 
  stepped d (perform d (ClaimEvidence id u t now ms retry tok)).2 q.
Proof.
  intros Hk. cbn [UnwindOps.perform]. unfold claimEvidence. apply transaction_cases; [apply stepped_same|]. intros x H.
  do 7 apply bind_Ok in H as (? & _ & H). apply bind_Ok in H as ([j|] & _ & H); [|injection H as <-; apply stepped_same].
  destruct (_ || _) in H; [injection H as <-; apply stepped_same|]. destruct (cand j) as [c|].
  - destruct (negb _) in H; [done|]. apply (take_lease_stepped _ _ _ _ _ _ _ _ _ q) in H; try done.
    + intros k Hc. apply andb_prop in Hc as [_ Hc]. by apply negb_true_iff.
    + intros k l Hc. zbool. split; try done. by left.
  - destruct (_ <=? _) in H; [injection H as <-; apply stepped_same|].
    apply (take_lease_stepped _ _ _ _ _ _ _ _ _ q) in H; try done.
    + intros k Hc. apply andb_prop in Hc as [_ Hc]. by apply negb_true_iff.
    + intros k l Hc. zbool. apply collecting_claim; [done|]. by destruct (cand k).
Qed.

Lemma required_token_Ok v t : required_token v = Ok t -> v = Str t.
Proof. unfold required_token, Unwind.invalid. intros H. by invert_ok H. Qed.

Lemma renew_stepped d id t now ms : jkeyed d ->
  stepped d (perform d (RenewEvidence id t now ms)).2 (RenewEvidence id t now ms).
Proof.
  intros Hk. cbn [UnwindOps.perform]. unfold renewEvidence. apply transaction_cases; [apply stepped_same|]. intros x H.
  apply bind_Ok in H as (id' & _ & H). apply bind_Ok in H as (at_ & _ & H).
  apply bind_Ok in H as (token & Ht%required_token_Ok & H). apply bind_Ok in H as (ms' & _ & H).
  apply bind_Ok in H as (p & Hp & H). apply update_Ok in Hp as [->|(j & Hj & Hc & -> & [Hck _])]; [done| |done|done].
  cbn [fst snd] in H. invert_ok H. zbool.
  eapply stepped_put; [done|by apply ch_collect, collecting_set_lease| |done].
  unfold may_touch. match goal with H : leased _ _ _ = true |- _ => apply leased_token in H as (e & -> & _) end.
  left. done.
Qed.

Lemma release_stepped d id t now : jkeyed d ->
  stepped d (perform d (ReleaseEvidence id t now)).2 (ReleaseEvidence id t now).
Proof.
  intros Hk. cbn [UnwindOps.perform]. unfold releaseEvidence.
  destruct (canonicalJobId id ≫= _) as [[id' d']|e] eqn:H; [|apply stepped_same]. cbn [error_of snd].
  apply bind_Ok in H as (? & _ & H). apply bind_Ok in H as (at_ & _ & H).
  apply bind_Ok in H as (token & ->%required_token_Ok & H).
  apply update_must with (k := fun d' => Ok (_, d')) in H as (j & Hj & Hc & [Hck _] & [= <- <-]); [|done|done].
  zbool. eapply stepped_put; [done|by apply ch_collect, collecting_set_lease| |done].
  unfold may_touch. match goal with H : leased _ _ _ = true |- _ => apply leased_token in H as (e & -> & _) end.
  by left.
Qed.

Lemma optional_token_Some v t : optional_token v = Ok (Some t) -> v = Str t.
Proof. unfold optional_token, Unwind.invalid. intros H. by invert_ok H. Qed.

Lemma finish_stepped d id t re now s reasons q : jkeyed d -> token_of q = t -> s ∈ [expired; blocked; uncertain] ->
  stepped d (error_of (finishTerminal sha256 commitment isStrKey d id t re now s reasons)).2 q.
Proof.
  intros Hk Hq Hs. unfold finishTerminal. apply transaction_cases; [apply stepped_same|]. intros x H.
  apply bind_Ok in H as (id' & _ & H). apply bind_Ok in H as (at_ & _ & H).
  apply bind_Ok in H as (token & Ht & H). apply bind_Ok in H as (reason & _ & H).
  apply bind_Ok in H as ([j0|] & _ & H); [|done].
  destruct (_ && _) in H; [injection H as <-; apply stepped_same|]. destruct (negb _) in H; [done|].
  apply update_must with (k := fun d' => j ← selected d' id'; Ok (publicStatus j, d')) in H
    as (j & Hj & Hc & [Hck _] & H); [|done|done]. invert_ok H.
  apply andb_prop in Hc as [Ha Hl]. eapply stepped_put; [done| | |done].
  - apply ch_end; [|done]. unfold awaiting in Ha. by apply andb_prop in Ha as [? _].
  - unfold may_touch. destruct (lease j) as [[t' e]|] eqn:El; [|done]. destruct token as [token|]; [|done].
    apply optional_token_Some in Ht. apply leased_token in Hl as (e' & El' & _). left. congruence.
Qed.

(** *** Reconciliation *)
Lemma expire_idemp at_ j : expire at_ (expire at_ j) = expire at_ j.
Proof.
  unfold expire at 2 3. destruct (is_awaiting j && overdue j at_) eqn:H.
  - destruct (cand j); reflexivity.
  - unfold expire. cbn. destruct (is_awaiting _ && _) eqn:H'; [|done].
    change (is_awaiting (set_lease j None at_)) with (is_awaiting j) in H'.
    change (overdue (set_lease j None at_) at_) with (overdue j at_) in H'. congruence.
Qed.

Lemma reserved_expire at_ j : reserved (expire at_ j) = reserved j.
Proof. unfold expire. by destruct (_ && _), (cand j). Qed.

Lemma jkeyed_put d id j : jkeyed d -> job_id (reserved j) = id -> jkeyed (put_job d id j).
Proof. intros Hk Hj. by apply map_Forall_insert_2. Qed.

Lemma expire_all_rows at_ ids d d' : jkeyed d -> expire_all at_ ids d = Ok d' ->
  work d' = work d /\ forall id, jobs d' !! id = jobs d !! id \/
    id ∈ ids /\ exists j, jobs d !! id = Some j /\ jobs d' !! id = Some (expire at_ j) /\ row_checks (expire at_ j) = true.
Proof.
  revert d. induction ids as [|i ids IH]; intros d Hk H; cbn in H.
  - injection H as <-. split; [done|]. by left.
  - apply bind_Ok in H as (p & Hp & H).
    destruct (update_Ok d i _ _ p Hk (reserved_expire at_) Hp) as [->|(j & Hj & _ & -> & [Hck _])].
    + destruct (IH d Hk H) as [Hw Hr]. split; [done|]. intros id. destruct (Hr id) as [?|[? ?]]; [by left|].
      right. split; [by right|done].
    + cbn [snd] in H. destruct (IH (put_job d i (expire at_ j))) as [Hw Hr]; [|done|].
      { apply jkeyed_put; [done|]. rewrite reserved_expire. by apply Hk. }
      split; [done|]. intros id. specialize (Hr id). cbn [put_job jobs] in Hr.
      destruct (decide (id = i)) as [->|Hn].
      * rewrite lookup_insert_eq in Hr. right. split; [left|]. exists j. split; [done|].
        destruct Hr as [Hr|(_ & j' & [= <-] & Hr & _)]; [done|]. by rewrite expire_idemp in Hr.
      * rewrite lookup_insert_ne in Hr by done. destruct Hr as [?|[? ?]]; [by left|]. right. split; [by right|done].
Qed.

Lemma query_In keep cmp limit d j : j ∈ query keep cmp limit d -> keep j = true /\ exists id, jobs d !! id = Some j.
Proof.
  unfold query. intros Hin%elem_of_take. destruct Hin as (i & Hi & _).
  apply list_elem_of_lookup_2 in Hi. rewrite merge_sort_Permutation in Hi.
  apply list_elem_of_filter in Hi as [Hk Hin]. split; [by apply Is_true_true|].
  apply list_elem_of_fmap in Hin as ([id j'] & -> & Hin). exists id. by apply elem_of_map_to_list in Hin.
Qed.

Lemma actionable_changed d id w at_ j : actionable at_ j = true -> changed d id w j (expire at_ j).
Proof.
  unfold actionable, expire. intros H. apply andb_prop in H as [_ H].
  destruct (is_awaiting j && overdue j at_) eqn:Ho.
  - apply andb_prop in Ho as [Ha Ho]. destruct (cand j); (apply ch_end; [done|set_solver]).
  - cbn in H. apply ch_unlease. unfold lapsed in H. by destruct (lease j).
Qed.

Lemma actionable_touch q at_ j : time_of q = Num at_ -> actionable at_ j = true -> may_touch q j.
Proof.
  unfold actionable, may_touch, free, lapsed. intros Hq H. apply andb_prop in H as [_ H].
  destruct (lease j) as [[t e]|]; [|done]. right. exists at_. split; [done|]. apply orb_prop in H. destruct H; zbool; lia.
Qed.

Lemma reconcile_stepped d now limit : jkeyed d ->
  stepped d (perform d (ReconcileExpired now limit)).2 (ReconcileExpired now limit).
Proof.
  intros Hk. cbn [UnwindOps.perform]. unfold reconcileExpired. apply transaction_cases; [apply stepped_same|]. intros x H.
  apply bind_Ok in H as (at_ & (-> & _)%requireTime_Ok & H). apply bind_Ok in H as (lim & _ & H).
  apply bind_Ok in H as (d' & Hd & H). invert_ok H. destruct (expire_all_rows _ _ _ _ Hk Hd) as [Hw Hr].
  split; [done|]. intros id. destruct (Hr id) as [?|(Hin & j & Hj & Hj' & Hck)]; [by left|]. right; left.
  exists j, (expire at_ j). split_and!; try done.
  1,2: apply list_elem_of_fmap in Hin as (j' & -> & (Ha & id' & Hj'')%query_In).
  1,2: assert (j' = j) as -> by (rewrite (Hk _ _ Hj'') in Hj; congruence).
  - by apply actionable_changed.
  - by eapply actionable_touch.
Qed.

Lemma settle_overdue_row d id j at_ s : jkeyed d -> jobs d !! id = Some j ->
  settle_overdue sha256 commitment isStrKey d j at_ = Ok s ->
  s = (j, d) \/ exists st re, is_awaiting j = true /\ free j at_ = true /\ st ∈ [expired; blocked; uncertain] /\
    s = (set_state j st re at_, put_job d id (set_state j st re at_)) /\ row_checks (set_state j st re at_) = true.
Proof.
  intros Hk Hj H. unfold settle_overdue in H. destruct (_ && _) eqn:Hc in H; [|injection H as <-; by left].
  apply bind_Ok in H as (p & Hp & H). rewrite (Hk _ _ Hj) in *.
  apply update_Ok in Hp as [->|(j' & Hj' & _ & -> & [Hck _])]; [| |done|by intros k; destruct (cand k)].
  - cbn [snd] in H. apply bind_Ok in H as (k & (Hk' & _)%selected_Ok%select_Some & [= <-]). left. congruence.
  - cbn [snd] in H. apply bind_Ok in H as (k & (Hk' & _)%selected_Ok%select_Some & [= <-]).
    assert (j' = j) as -> by congruence. cbn [put_job jobs] in Hk'. rewrite lookup_insert_eq in Hk'. injection Hk' as <-.
    apply andb_prop in Hc as [[Ha _]%andb_prop Hf]. right.
    destruct (cand j); eexists _, _; split_and!; try done; try set_solver.
Qed.

(** What the constraints say of the state, the proof and the lease. *)
Lemma checked_lease j t e : row_checks j = true -> lease j = Some (t, e) ->
  t <> EmptyString /\ 0 <= e /\ jstate j = awaiting_burn /\ proof j = None.
Proof.
  unfold row_checks. intros H Hl. rewrite Hl in H. zbool.
  repeat match goal with H : bool_decide _ = _ |- _ => apply bool_decide_eq_true in H || apply bool_decide_eq_false in H end.
  by destruct (proof j).
Qed.

Lemma checked_state j : row_checks j = true ->
  match jstate j with
  | awaiting_burn | expired => proof j = None
  | relay_pending | relay_running => proof j <> None
  | done => proof j <> None /\ mint_tx_hash j <> None
  | _ => reason_code j <> None
  end.
Proof.
  unfold row_checks. intros H. zbool. unfold in_states in *.
  destruct (jstate j), (proof j), (reason_code j), (mint_tx_hash j); try discriminate; try done.
Qed.

Lemma checked_awaiting j : row_checks j = true -> is_awaiting j = true -> proof j = None.
Proof. intros H%checked_state Ha%bool_decide_eq_true. by rewrite Ha in H. Qed.

(** The table as the database keeps it. *)
Record table (d : db) : Prop := {
  t_keyed : jkeyed d;
  t_checked : map_Forall (fun _ j => row_checks j = true) (jobs d);
}.

Lemma cctp_stepped d id now : table d ->
  stepped d (perform d (ReconcileFromCctp id now)).2 (ReconcileFromCctp id now).
Proof.
  intros [Hk Hck]. cbn [UnwindOps.perform]. unfold reconcileFromCctp. apply transaction_cases; [apply stepped_same|]. intros x H.
  apply bind_Ok in H as (id' & _ & H). apply bind_Ok in H as (at_ & (-> & _)%requireTime_Ok & H).
  apply bind_Ok in H as ([j|] & Hr & H); [|injection H as <-; apply stepped_same].
  destruct (select d id') as [r|] eqn:Hs in Hr; [|done]. injection Hr as ->. apply select_Some in Hs as [Hj _].
  apply bind_Ok in H as (s & Hs & H). apply (settle_overdue_row d id') in Hs; try done.
  destruct Hs as [->|(st & re & Ha & Hf & Hst & -> & Hck')].
  - destruct (proof j) as [p|] eqn:Hp; [|injection H as <-; apply stepped_same].
    destruct (bool_decide _) in H; [injection H as <-; apply stepped_same|].
    apply bind_Ok in H as ([r|] & Hr & H); [|done]. destruct (_ || _) in H; [done|].
    destruct (in_states (jstate j) [done; blocked; uncertain]) eqn:Hd.
    { destruct (negb _) in H; [done|]. injection H as <-. apply stepped_same. }
    destruct (regresses _ _) eqn:Hrg; [done|]. apply bind_Ok in H as (u & Hu & H).
    assert (work d !! relay_exec_id p = Some r) as Hw.
    { unfold cctpRecord, validatedCctpRow in Hr. destruct (work d !! relay_exec_id p); [|done].
      destruct (assertCanonicalRelayRecord _ _); [|done]. congruence. }
    apply update_Ok in Hu as [->|(j' & Hj' & Hc & -> & [Hck' _])]; [| |done|done].
    { invert_ok H. apply stepped_same. }
    assert (j' = j) as -> by congruence. cbn [snd] in H. invert_ok H. eapply stepped_put; [done|by eapply ch_project| |done].
    apply unleased_touch. destruct (lease j) as [[t e]|] eqn:El; [|done].
    destruct (checked_lease _ _ _ (Hck _ _ Hj) El) as (_ & _ & _ & ?). congruence.
  - assert (proof j = None) as Hp by (apply checked_awaiting; [by eapply Hck|done]).
    change (proof (set_state j st re at_)) with (proof j) in H. rewrite Hp in H. injection H as <-.
    eapply stepped_put; [done|by apply ch_end| |done]. unfold may_touch, free in *. destruct (lease j) as [[t e]|]; [|done].
    right. exists at_. split; [done|]. by zbool.
Qed.

(** *** The proof of the burn *)

(** What an [attachAndEnqueue] that changed the database did: the job before, the job with its
    candidate, the expectation, the proof, the row written and the relay work created. *)
Inductive attaches (d : db) (i : attach_input) (at_ : Z) : db -> Prop :=
| attaches_intro id j0 j e digest c p r conflicts :
    0 <= at_ -> jobs d !! id = Some j0 -> awaiting j0 = true -> collecting j0 j \/ j = j0 -> may_touch (Attach i (Num at_)) j0 ->
    canonicalizeExpectation (ai_expectation i) = Ok e -> e#"sourceDomain" = number 6 ->
    expectationDigest sha256 e = Ok digest ->
    canonicalProof commitment (ai_proof i) e id (kernel_address (reserved j0)) = Ok c ->
    p = proof_row_of c e (proof_json p) (proof_digest p) (expectation_json p) (string_of digest) (unwind_exec_id id) ->
    json c = Ok (proof_json p) -> proofDigest sha256 c = Ok (proof_digest p) -> json e = Ok (expectation_json p) ->
    candidate_is j (user_op_hash p) (unwind_tx_hash p) = true ->
    (forall id' k, jobs d !! id' = Some k -> id' <> id -> same_user_op (user_op_hash p) k = false) ->
    row_checks (set_proof j p at_) = true -> work d !! unwind_exec_id id = None ->
    relayEnqueueDecision sha256 None conflicts (unwind_exec_id id) (number 6) (Str (unwind_tx_hash p)) e (Num at_)
      = Ok (r, true) ->
    validateUnwindRow sha256 commitment isStrKey (<[unwind_exec_id id := r]> (work d)) (set_proof j p at_)
      = Ok (set_proof j p at_) ->
    attaches d i at_ {| jobs := <[id := set_proof j p at_]> (jobs d);
                        work := <[unwind_exec_id id := r]> (work d) |}.

Lemma bind_candidate_row d id j0 token userOp tx at_ b : jkeyed d -> jobs d !! id = Some j0 -> awaiting j0 = true ->
  bind_candidate sha256 commitment isStrKey d j0 token userOp tx at_ = Ok b ->
  (b = (j0, d) \/ collecting j0 b.1 /\ b.2 = put_job d id b.1 /\ is_some (lease j0) = false) /\
  candidate_is b.1 userOp tx = true.
Proof.
  intros Hk Hj Ha H. unfold bind_candidate in H. destruct (cand j0) as [c|] eqn:Hc.
  - destruct (negb _) eqn:Hn in H; [done|]. injection H as <-. apply negb_false_iff in Hn. split; [by left|done].
  - destruct (_ || _) eqn:Hl in H; [done|]. rewrite (Hk _ _ Hj) in H.
    apply update_must with (k := fun d' => j ← selected d' id; Ok (j, d')) in H
      as (j & Hj' & _ & _ & H); [|done|done].
    apply bind_Ok in H as (k & (Hk' & _)%selected_Ok%select_Some & [= <-]). assert (j = j0) as -> by congruence.
    cbn [put_job jobs] in Hk'. rewrite lookup_insert_eq in Hk'. injection Hk' as <-. cbn [fst snd].
    zbool. split; [right; split; [|done]|].
    + split; try done. by right.
    + unfold candidate_is. cbn. by rewrite !bool_decide_eq_true_2.
Qed.

Lemma attach_token_str v t e j z : attach_token v = Some t -> leased j t z = true -> row_checks j = true ->
  lease j = Some (t, e) -> v = Str t.
Proof.
  intros Hv Hl Hc He. destruct (checked_lease _ _ _ Hc He) as [Hn _]. destruct v; cbn in Hv; congruence.
Qed.

Lemma from_relay_Ok {A} (m : result relay_error A) a : from_relay m = Ok a -> m = Ok a.
Proof. unfold from_relay. destruct m; congruence. Qed.

Lemma or_conflict_Ok {A} (m : result relay_error A) a : or_conflict m = Ok a -> m = Ok a.
Proof. unfold or_conflict. destruct m as [|[]]; try discriminate. by intros [= ->]. Qed.

Lemma attach_attaches d i now : table d ->
  let d' := (perform d (Attach i now)).2 in d' = d \/ exists at_, now = Num at_ /\ attaches d i at_ d'.
Proof.
  intros [Hk Hck]. cbn [UnwindOps.perform]. unfold attachAndEnqueue.
  apply (transaction_cases d _ (fun d' => d' = d \/ exists at_, now = Num at_ /\ attaches d i at_ d')); [by left|]. intros x H.
  apply bind_Ok in H as (id & _ & H). apply bind_Ok in H as (at_ & (-> & _ & H0)%requireTime_Ok & H).
  destruct (negb _) in H; [done|]. apply bind_Ok in H as (e & He & H).
  destruct (_ || _) eqn:Hd in H; [done|]. apply orb_false_elim in Hd as [_ Hd%negb_false_iff%strict_eq_eq].
  apply bind_Ok in H as (digest & Hdg & H). apply bind_Ok in H as ([j0|] & Hj & H); [|done].
  apply select_Some in Hj as [Hj _].
  apply bind_Ok in H as (c & Hc & H). apply bind_Ok in H as (pt & Hpt & H). apply bind_Ok in H as (ph & Hph & H).
  destruct (proof j0) as [p|] eqn:Hp; [destruct (_ || _) in H; [done|]; injection H as <-; by left|].
  destruct (negb _) eqn:Hst in H; [done|]. apply negb_false_iff in Hst.
  assert (awaiting j0 = true) as Ha by (unfold awaiting; by rewrite Hst, Hp).
  apply bind_Ok in H as ([j d1] & Hb & H). apply (bind_candidate_row d id) in Hb as [Hb Hcand]; [|done..]. cbn [fst snd] in *.
  apply bind_Ok in H as ([] & Hl & H). destruct (existsb _ _) eqn:Hu in H; [done|].
  apply bind_Ok in H as (existing & Hex & H). apply bind_Ok in H as ([r b] & Hr & H).
  destruct (negb _) eqn:Hb2 in H; [done|]. cbn [fst snd] in *. destruct b; [|done]. clear Hb2.
  assert (existing = None /\ work d1 !! unwind_exec_id id = None) as [-> Hw].
  { destruct existing as [r0|]; [|split; [done|]].
    - exfalso. destruct (relayEnqueueDecision _ _ _ _ _ _ _ _) eqn:Hq in Hr; [|by destruct e0]. injection Hr as ->.
      by apply enqueue_existing in Hq.
    - unfold cctpRecord, validatedCctpRow in Hex. destruct (work d1 !! _); [|done].
      by destruct (assertCanonicalRelayRecord _ _). }
  apply bind_Ok in H as ([] & _ & H). apply bind_Ok in H as (et & Het & H). apply bind_Ok in H as (u & Hup & H).
  set (d2 := {| jobs := jobs d1; work := _ |}) in Hup.
  assert (jkeyed d2 /\ jobs d2 !! id = Some j /\ work d1 = work d /\
    <[id := set_proof j (proof_row_of c e pt ph et (string_of digest) (unwind_exec_id id)) at_]> (jobs d1)
    = <[id := set_proof j (proof_row_of c e pt ph et (string_of digest) (unwind_exec_id id)) at_]> (jobs d)
    /\ forall id' k, id' <> id -> jobs d !! id' = Some k -> jobs d1 !! id' = Some k) as (Hk2 & Hj2 & Hw1 & Hi & Hrest).
  { destruct Hb as [[= -> ->]|([] & -> & _)]; [done|]. unfold d2. cbn [put_job jobs work].
    split; [|split_and!; [by rewrite lookup_insert_eq|done|by rewrite insert_insert_eq|]].
    - apply map_Forall_insert_2; [|done]. rewrite co_reserved0. by apply Hk.
    - intros id' k Hn Hk'. by rewrite lookup_insert_ne. }
  apply update_Ok in Hup as [->|(j' & Hj' & _ & -> & [Hck' _])]; [done| |done|done].
  assert (j' = j) as -> by congruence. cbn [snd] in H. destruct (fault _ _) in H; [|done]. cbn [mbind result_bind] in H.
  apply bind_Ok in H as (k & [Hk' Hv]%selected_Ok%select_Some & [= <-]). unfold put_job in Hk', Hv. cbn [jobs work d2] in Hk', Hv.
  rewrite lookup_insert_eq in Hk'. injection Hk' as <-. right. exists at_. split; [done|]. unfold put_job. cbn [snd jobs work d2].
  rewrite Hw1 in Hv. rewrite Hi, Hw1. rewrite Hw1 in Hw.
  apply (attaches_intro d i at_ id j0 j e digest c _ r (hasIdentityConflict sha256 d1 (unwind_exec_id id)));
    cbn [proof_row_of proof_json proof_digest expectation_json user_op_hash unwind_tx_hash]; try done.
  - destruct Hb as [[= -> ->]|[? _]]; [by right|by left].
  - destruct Hb as [[= -> ->]|(_ & _ & ?)]; [|by apply unleased_touch]. unfold may_touch, check_lease in *.
    destruct (lease j0) as [[t x]|] eqn:El; [|done]. cbn in Hl. destruct (attach_token _) as [tk|] eqn:Etk; [|done].
    destruct (leased j0 tk at_) eqn:Eld; [|done]. left. cbn [token_of].
    assert (tk = t) as -> by (apply leased_token in Eld as (? & ? & _); congruence).
    by eapply attach_token_str; [..|exact (Hck _ _ Hj)|exact El].
  - by apply from_relay_Ok.
  - by apply from_relay_Ok.
  - by rewrite (Hk _ _ Hj) in Hc.
  - intros id' k Hk' Hn. apply not_true_is_false. intros Hs. apply not_true_iff_false in Hu. apply Hu.
    apply existsb_exists. exists k. split.
    + apply list_elem_of_In, list_elem_of_fmap. exists (id', k). split; [done|]. by apply elem_of_map_to_list, Hrest.
    + rewrite (Hk _ _ Hk'). by rewrite Hs, bool_decide_eq_false_2.
  - by apply or_conflict_Ok in Hr.
Qed.

(** *** Every call *)
Lemma perform_rows d q : table d -> forall id, row_after d (perform d q).2 q id.
Proof.
  intros Hd. pose proof (t_keyed _ Hd) as Hk. destruct q as [i now|i now| | | | | | |].
  - by apply reserve_stepped.
  - destruct (attach_attaches d i now Hd) as [->|(at_ & -> & Ha)]; [intros; apply row_same|]. intros id'.
    destruct Ha as [id j0 j e digest c p r conflicts Hat Hj0 Ha Hjj Ht He Hs Hdg Hc Hp Hpt Hph Het Hcand Hno Hck Hn Hr Hv].
    apply (row_put _ _ _ id j0 (set_proof j p at_)); [done| |done|done|done].
    apply ch_attach; try done. cbn [work]. by rewrite lookup_insert_eq.
  - by apply claim_stepped.
  - by apply renew_stepped.
  - by apply release_stepped.
  - apply finish_stepped; [done|done|set_solver].
  - apply finish_stepped; [done|done|set_solver].
  - by apply reconcile_stepped.
  - by apply cctp_stepped.
Qed.

Lemma perform_work d q : table d -> 
  work (perform d q).2 = work d \/ exists i at_, q = Attach i (Num at_) /\ attaches d i at_ (perform d q).2.
Proof.
  intros Hd. pose proof (t_keyed _ Hd) as Hk. destruct q as [i now|i now|id u t now ms re tk|id t now ms|id t now|id t re now|id t re now|now lim|id now].
  2: { destruct (attach_attaches d i now Hd) as [->|(at_ & -> & Ha)]; [by left|]. right. eauto. }
  all: left.
  - by apply reserve_stepped.
  - by apply (claim_stepped _ _ _ _ _ _ _ _ (ReconcileExpired now ms)).
  - by apply renew_stepped.
  - by apply release_stepped.
  - by eapply (finish_stepped _ _ _ _ _ _ _ (FinishBlocked id t re now)); [done|done|set_solver].
  - by eapply (finish_stepped _ _ _ _ _ _ _ (FinishUncertain id t re now)); [done|done|set_solver].
  - by apply reconcile_stepped.
  - by apply cctp_stepped.
Qed.

Lemma reserved_changed d id w j j' : changed d id w j j' -> reserved j' = reserved j.
Proof. intros [? ? []| | |? ? ? ? _ [[]| ->]|]; done. Qed.

Lemma perform_table d q : table d -> table (perform d q).2.
Proof.
  intros Hd. split; intros id j Hj;
    destruct (perform_rows d q Hd id) as [H|[(j0 & j' & H0 & H1 & Hc & _ & Hck)|(r & H0 & H1 & Hid & Hck & _)]].
  - rewrite H in Hj. by eapply t_keyed.
  - rewrite H1 in Hj. injection Hj as <-. rewrite (reserved_changed _ _ _ _ _ Hc). by eapply t_keyed.
  - rewrite H1 in Hj. by injection Hj as <-.
  - rewrite H in Hj. by eapply t_checked.
  - congruence.
  - congruence.
Qed.

(** ** The two stores on one database *)
Inductive action := UnwindCall (q : request) | RelayCall (q : Ledger.request).

Definition act (d : db) (a : action) : db :=
  match a with
  | UnwindCall q => (perform d q).2
  | RelayCall q => {| jobs := jobs d; work := Ledger.after sha256 (work d) q |}
  end.

Definition acts (d : db) (l : list action) : db := foldl act d l.

Lemma act_table d a : table d -> table (act d a).
Proof. destruct a; [by apply perform_table|]. by intros [? ?]. Qed.

(** ** The history of a job *)
Definition final (s : unwind_state) : bool := in_states s [done; blocked; uncertain; expired].
Definition urank (s : unwind_state) : nat :=
  match s with awaiting_burn => 0 | relay_pending => 1 | relay_running => 2 | _ => 3 end.

Record advances (j j' : job) : Prop := {
  adv_reserved : reserved j' = reserved j;
  adv_cand : forall c, cand j = Some c -> cand j' = Some c;
  adv_proof : forall p, proof j = Some p -> proof j' = Some p;
  adv_rank : (urank (jstate j) <= urank (jstate j'))%nat;
  adv_final : final (jstate j) = true -> j' = j;
}.

Lemma advances_refl j : advances j j.
Proof. by split. Qed.

Lemma advances_trans j1 j2 j3 : advances j1 j2 -> advances j2 j3 -> advances j1 j3.
Proof.
  intros [] []. split; eauto; [congruence|lia|]. intros Hf. pose proof (adv_final0 Hf) as ->. by apply adv_final1.
Qed.

Lemma changed_advances d id w j j' : row_checks j = true -> changed d id w j j' -> advances j j'.
Proof.
  intros Hck. destruct 1 as [j j' []|j at_ Hl|j s re at_ Ha Hs|j0 j p at_ Ha Hj Hc _ _ _ _|j p r at_ Hp Hs Hr Hrg].
  - unfold awaiting in *. zbool. apply bool_decide_eq_true in H, H1. split; rewrite ?H, ?H1; try done.
    + intros c Hc. destruct co_cand0; congruence.
    + intros p Hp. by rewrite Hp in *.
  - destruct (lease j) as [[t e]|] eqn:El; [|done]. destruct (checked_lease _ _ _ Hck El) as (_ & _ & Hst & _).
    split; cbn; rewrite ?Hst; done.
  - apply bool_decide_eq_true in Ha. split; cbn; rewrite ?Ha; try done. cbn. lia.
  - assert (jstate j0 = awaiting_burn /\ proof j0 = None) as [Hst Hp0].
    { unfold awaiting in Ha. zbool. apply bool_decide_eq_true in H. split; [done|]. by destruct (proof j0). }
    split; cbn; rewrite ?Hst; try done.
    + destruct Hj as [[]| ->]; done.
    + intros c Hc0. destruct Hj as [[]| ->]; [|done]. destruct co_cand0; congruence.
    + congruence.
    + cbn. lia.
  - apply bool_decide_eq_true in Hs.
    assert (jstate j = relay_pending \/ jstate j = relay_running) as Hst by set_solver. clear Hs.
    unfold regresses, relayProjection in *.
    destruct Hst as [Hst|Hst]; rewrite Hst in Hrg; (split; cbn; rewrite ?Hst; try done);
      destruct (Relay.status r); cbn in *; first [discriminate|lia].
Qed.

Lemma act_advances d a id j : table d -> jobs d !! id = Some j ->
  exists j', jobs (act d a) !! id = Some j' /\ advances j j'.
Proof.
  intros Hd Hj. destruct a as [q|q]; [|eauto using advances_refl].
  destruct (perform_rows d q Hd id) as [H|[(j0 & j' & H0 & H1 & Hc & _)|(r & H0 & _)]]; cbn [act].
  - rewrite H. eauto using advances_refl.
  - assert (j0 = j) as -> by congruence. exists j'. split; [done|].
    eapply changed_advances; [|done]. by eapply t_checked.
  - congruence.
Qed.

(** C14. Whatever calls of either store follow, in any order, a job keeps its reservation, its
    candidate once bound and its proof once attached, its state only moves forward, and a job
    that is done, blocked, uncertain or expired never changes again. *)
Theorem unwind_history d l id j :
  table d -> jobs d !! id = Some j -> exists j', jobs (acts d l) !! id = Some j' /\ advances j j'.
Proof.
  revert d j. induction l as [|a l IH]; intros d j Hd Hj; [eauto using advances_refl|].
  destruct (act_advances d a id j Hd Hj) as (j1 & H1 & A1).
  destruct (IH _ j1 (act_table _ a Hd) H1) as (j2 & H2 & A2). eauto using advances_trans.
Qed.

(** ** The lease of the evidence *)

(** The call comes before the lease runs out and does not show its token. *)
Definition kept_out (token : string) (expires : Z) (a : action) : Prop :=
  match a with
  | UnwindCall q => token_of q <> Str token /\ forall z, time_of q = Num z -> z < expires
  | RelayCall _ => True
  end.

(** While the lease on the evidence of a job runs, no sequence of calls that come before its end
    and do not show its token changes the job: another worker cannot claim it, attach a proof,
    release it, end it or let it expire. *)
Theorem evidence_lease_exclusive d l id j token expires :
  table d -> jobs d !! id = Some j -> lease j = Some (token, expires) ->
  Forall (kept_out token expires) l -> jobs (acts d l) !! id = Some j.
Proof.
  intros Hd Hj Hl HF. revert d Hd Hj. induction HF as [|a l Ha HF IH]; intros d Hd Hj; [done|].
  cbn. apply IH; [by apply act_table|]. destruct a as [q|q]; [|done]. cbn [act].
  destruct (perform_rows d q Hd id) as [->|[(j0 & j' & H0 & H1 & _ & Hm & _)|(r & H0 & _)]]; [done| |congruence].
  assert (j0 = j) as -> by congruence. unfold may_touch in Hm. rewrite Hl in Hm. destruct Ha as [Hn Hz].
  destruct Hm as [Ht|(z & Hz' & Hle)]; [done|]. specialize (Hz _ Hz'). lia.
Qed.
End Rows.

(** ** A concrete job *)
Module UnwindSample.
Import Relay Ledger Unwind UnwindOps.
Local Open Scope string_scope.
Local Open Scope list_scope.

(** A stand-in for SHA-256 and for the commitment: the length of the input, padded to their form. *)
Definition sha (l : chars) : chars := padStart (to_digits (Z.of_nat (length l))) 64 "0"%char.
Definition commitment (parts : list string) : string := string_of (Hex.prefix ++ sha (List.concat (map chars_of parts))).
Definition hexs (n : nat) (c : ascii) : string := string_of (replicate n c).
Definition hex0x (n : nat) (c : ascii) : string := string_of (Hex.prefix ++ replicate n c).
Definition id : string := hexs 32 "a".
Definition kernel : string := hex0x 40 "1".
Definition recipient : string := string_of ("G"%char :: replicate 55 "A"%char).
Definition isStrKey (s : string) : bool := bool_decide (s = recipient).
Definition reserveText : string :=
  match reserveJson id kernel recipient with Ok t => t | Throw _ => EmptyString end.
Definition reserve_input : reserve_input := {|
  ri_jobId := Str id; ri_capabilityHash := Str (hexs 64 "c"); ri_kernelAddress := Str kernel;
  ri_recipientHint := Str recipient; ri_requestDigest := Str (reserveDigest sha reserveText);
  ri_expiresAt := Num 100; ri_capabilityExpiresAt := Num 200 |}.

Definition expectation : val :=
  Obj [("version", number 1); ("direction", Str "base-to-stellar"); ("sourceDomain", number 6);
       ("destinationDomain", number 27); ("sender", Str (RelaySample.bytes32 "1")); ("recipient", Str (RelaySample.bytes32 "2"));
       ("destinationCaller", Str (RelaySample.bytes32 "0")); ("burnToken", Str (RelaySample.bytes32 "3"));
       ("mintRecipient", Str (RelaySample.bytes32 "4")); ("messageSender", Str (RelaySample.bytes32 "5"));
       ("amount", Str "7"); ("burnUnits7", Null); ("maxFee", Str "0");
       ("minFinalityThreshold", number 2000); ("hookData", Str "0x")].
Definition indices : val := Obj [("messageSent", number 3); ("depositForBurn", number 2); ("swept", number 1); ("userOperationEvent", number 0)].
Definition digests : val := Obj (map (fun k => (k, Str (hexs 64 "d"))) LOG_NAMES).
Definition userOp : string := hex0x 64 "6".
Definition burnTx : string := hex0x 64 "7".
Definition proof : val :=
  Obj [("version", number 1); ("chainId", number 84532); ("userOpHash", Str userOp);
       ("jobCommitment", Str (commitment [UNWIND_JOB_DOMAIN; "0x" +:+ id]));
       ("unwindTxHash", Str burnTx); ("entryPointAddress", Str (hex0x 40 "8"));
       ("kernelAddress", Str kernel); ("blockNumber", Str "12"); ("blockHash", Str (hex0x 64 "9"));
       ("userOpNonce", Str "1"); ("burned", Str "7"); ("exited", Str "7"); ("skipped", Str "0");
       ("maxFee", Str "0"); ("hookData", Str "0x"); ("sourceMessageHex", Str "0xab");
       ("sourceMessageDigest", Str (string_of (sha (Hex.from_hex (chars_of "ab")))));
       ("logIndices", indices); ("logDigests", digests)].
Definition attach_input : attach_input := {|
  ai_jobId := Str id; ai_proof := proof; ai_expectation := expectation;
  ai_relayExecId := Str (unwind_exec_id id); ai_leaseToken := Str "t" |}.


Definition d0 : db := {| jobs := ∅; work := ∅ |}.
Notation acts := (acts sha commitment isStrKey (fun _ => false)).

Definition exec : string := unwind_exec_id id.
Definition reserving : list action := [UnwindCall (Reserve reserve_input (Num 10))].
Definition claiming : list action :=
  [UnwindCall (ClaimEvidence (Str id) (Str userOp) (Str burnTx) (Num 20) (Num 30) (Num 40) (Str "t"))].
Definition attaching : list action := [UnwindCall (Attach attach_input (Num 30))].
(** The relay work of the job is attested, submitted and confirmed. *)
Definition relaying : list action :=
  RelayCall <$>
  [Claim exec (Num 40) (Num 100) "t";
   RecordAttested exec "t" (Str "0xAB") (Str (RelaySample.bytes32 "7")) (Str "0xcd") (Num 41);
   MarkMintSubmitting exec "t" (Num 42);
   MarkMintSubmitted exec "t" (Str (RelaySample.hex64 "8")) (Num 43);
   FinishMinted exec "t" (Str (RelaySample.hex64 "8")) (Num 44)].
Definition reconciling : list action := [UnwindCall (ReconcileFromCctp (Str id) (Num 50))].

Definition reserved_db : db := acts d0 reserving.
Definition claimed_db : db := acts reserved_db claiming.
Definition rest : list action := claiming ++ attaching ++ relaying ++ reconciling.

(** Calls of another worker while the evidence is leased. *)
Definition others : list action :=
  [UnwindCall (ClaimEvidence (Str id) (Str userOp) (Str burnTx) (Num 21) (Num 30) (Num 40) (Str "u"));
   UnwindCall (ReleaseEvidence (Str id) (Str "u") (Num 22));
   UnwindCall (FinishBlocked (Str id) Undefined (Str "message_mismatch") (Num 23));
   UnwindCall (ReconcileExpired (Num 49) (Num 10))].
End UnwindSample.

Import UnwindOps Unwind.

Lemma table_empty : table UnwindSample.d0.
Proof. split; apply map_Forall_empty. Qed.

Lemma sample_reserved_table : table UnwindSample.reserved_db.
Proof. apply act_table, table_empty. Qed.

Lemma sample_claimed_table : table UnwindSample.claimed_db.
Proof. apply act_table, sample_reserved_table. Qed.

Lemma unwind_history_witness :
  exists j j', jobs UnwindSample.reserved_db !! UnwindSample.id = Some j /\
    jobs (UnwindSample.acts UnwindSample.reserved_db UnwindSample.rest) !! UnwindSample.id = Some j' /\
    advances j j' /\ jstate j' = Unwind.done.
Proof.
  assert (exists j, jobs UnwindSample.reserved_db !! UnwindSample.id = Some j) as [j Hj]
    by (eexists; vm_compute; reflexivity).
  destruct (unwind_history UnwindSample.sha UnwindSample.commitment UnwindSample.isStrKey (fun _ => false)
              UnwindSample.reserved_db UnwindSample.rest UnwindSample.id j) as (j' & Hj' & Ha).
  - exact sample_reserved_table.
  - exact Hj.
  - exists j, j'. refine (conj Hj (conj Hj' (conj Ha _))).
    assert (jstate <$> jobs (UnwindSample.acts UnwindSample.reserved_db UnwindSample.rest) !! UnwindSample.id
            = Some Unwind.done) as Hm by (vm_compute; reflexivity).
    rewrite Hj' in Hm. by injection Hm.
Defined.

Lemma evidence_lease_exclusive_witness :
  exists j, jobs UnwindSample.claimed_db !! UnwindSample.id = Some j /\
    jobs (UnwindSample.acts UnwindSample.claimed_db UnwindSample.others) !! UnwindSample.id = Some j.
Proof.
  assert (exists j, jobs UnwindSample.claimed_db !! UnwindSample.id = Some j
            /\ lease j = Some ("t"%string, 50)) as (j & Hj & Hl)
    by (eexists; vm_compute; split; reflexivity).
  exists j. split; [exact Hj|].
  refine (evidence_lease_exclusive UnwindSample.sha UnwindSample.commitment UnwindSample.isStrKey (fun _ => false)
            UnwindSample.claimed_db UnwindSample.others UnwindSample.id j "t" 50 sample_claimed_table Hj Hl _).
  repeat apply Forall_cons_2; [..|apply Forall_nil_2];
    (split; [cbn; congruence|intros z [= <-]; cbn; lia]).
Defined.
