(* ===== verification/UnwindSafety.v ===== *)
(** * Unwind jobs and their relay work stay in step

    The two stores share a database and are called independently.  Whatever the interleaving,
    the integrity check of every job passes, and what a job says of its mint is what its relay
    work says. *)
From S2P Require Export UnwindRows.
From S2P Require Import RelayCanonical.

Section Safety.
Import Relay Ledger Unwind UnwindOps.
Context (sha256 : chars -> chars) (commitment : list string -> string) (isStrKey : string -> bool).
Context (attachFault : string -> bool).
Notation perform := (perform sha256 commitment isStrKey attachFault).
Notation act := (act sha256 commitment isStrKey attachFault).
Notation acts := (acts sha256 commitment isStrKey attachFault).
Notation validateUnwindRow := (validateUnwindRow sha256 commitment isStrKey).
Notation check_reservation := (check_reservation sha256 isStrKey).
Notation check_proof := (check_proof sha256 commitment).
Notation check_relay := (check_relay sha256).
Notation canonical := (canonical sha256).

(** ** What the integrity check says *)
Lemma integrity_Ok b u : integrity b = Ok u <-> b = true.
Proof. apply guard_throw_Ok. Qed.

Lemma validate_Ok w j : validateUnwindRow w j = Ok j <->
  check_reservation (reserved j) = Ok tt /\
  forall p, proof j = Some p ->
    check_proof (reserved j) p = Ok tt /\ check_relay j p (w !! relay_exec_id p) = Ok tt.
Proof.
  unfold Unwind.validateUnwindRow. split.
  - intros H. apply bind_Ok in H as ([] & Hr & H). split; [done|]. intros p Hp. rewrite Hp in H.
    apply bind_Ok in H as ([] & Hc & H). by apply bind_Ok in H as ([] & Hl & _).
  - intros [-> H]. cbn. destruct (proof j) as [p|]; [|done]. destruct (H p eq_refl) as [-> Hr]. cbn. by rewrite Hr.
Qed.

(** The relay work of a job with a proof: bound to its burn, and not behind it. *)
Record follows (j : job) (p : proof_row) (r : relay) : Prop := {
  fo_canonical : canonical r;
  fo_source : sourceDomain (ident r) = Some BASE_DOMAIN;
  fo_burn : burnTxHash (ident r) = Some (chars_of (unwind_tx_hash p));
  fo_digest : expectationDigest_ (ident r) = Some (chars_of (expectation_digest p));
  fo_text : relay_expectation_json r = Ok (expectation_json p);
  fo_final : in_states (jstate j) [done; blocked; uncertain] = true -> agrees j (relayProjection r) = true;
  fo_running : jstate j = relay_running -> pj_state (relayProjection r) <> relay_pending;
}.

Lemma check_relay_Ok j p r : check_relay j p r = Ok tt <-> exists r', r = Some r' /\ follows j p r'.
Proof.
  unfold Unwind.check_relay, validatedCctpRow. split.
  - intros H. destruct r as [r|]; [|done]. exists r. split; [done|].
    destruct (assertCanonicalRelayRecord _ _) as [v|] eqn:Hc; [|done]. cbn in H.
    assert (canonical r) as Hcan by by apply isCurrent_record; unfold RelayFile.isCurrentRelayRecord; rewrite Hc.
    apply bind_Ok in H as (t & Ht & H). apply bind_Ok in H as ([] & H1%integrity_Ok & H).
    apply bind_Ok in H as ([] & H2%integrity_Ok & H3%integrity_Ok). zbool.
    repeat match goal with H : bool_decide _ = true |- _ => apply bool_decide_eq_true in H end.
    split; try done; try congruence.
    + intros Hf. rewrite Hf in H2. done.
    + intros Hs Hp. by rewrite Hs, Hp in H3.
  - intros (r' & -> & []). rewrite fo_canonical0. cbn. rewrite fo_text0. cbn.
    apply bind_Ok. exists tt. split; [apply integrity_Ok; by rewrite !andb_true_iff, !bool_decide_eq_true|].
    apply bind_Ok. exists tt. split; apply integrity_Ok.
    + destruct (in_states _ _) eqn:Hf; [|done]. by rewrite fo_final0.
    + apply negb_true_iff, not_true_iff_false. rewrite andb_true_iff, !bool_decide_eq_true. naive_solver.
Qed.

(** ** The invariant *)
Record intact (d : db) : Prop := {
  in_table : table d;
  in_keyed : keyed (work d);
  in_work : map_Forall (fun _ => canonical) (work d);
  in_rows : map_Forall (fun _ j => validateUnwindRow (work d) j = Ok j) (jobs d);
  in_unique : forall id1 id2 j1 j2 p1 p2, jobs d !! id1 = Some j1 -> jobs d !! id2 = Some j2 ->
    proof j1 = Some p1 -> proof j2 = Some p2 -> user_op_hash p1 = user_op_hash p2 -> id1 = id2;
}.

Lemma intact_empty : intact {| jobs := ∅; work := ∅ |}.
Proof. split; try apply map_Forall_empty; [split; apply map_Forall_empty|]. cbn. intros ? ? ? ? ? ? H. by apply lookup_empty_Some in H. Qed.

Lemma final_projection r : final (pj_state (relayProjection r)) = Relay.terminal (Relay.status r).
Proof. unfold relayProjection. by destruct (Relay.status r). Qed.

Lemma settled_final s : in_states s [done; blocked; uncertain] = true -> final s = true.
Proof. by destruct s. Qed.

(** The relay work moves on: the job still follows it. *)
Lemma follows_evolves j p r r' : follows j p r -> evolves r r' -> canonical r' -> follows j p r'.
Proof.
  intros [] He Hc. pose proof (ev_ident _ _ He) as Hi. split; try done; rewrite ?Hi; try done.
  - unfold relay_expectation_json in *. by rewrite Hi.
  - intros Hf. specialize (fo_final0 Hf). assert (Relay.terminal (Relay.status r) = true) as Ht.
    { rewrite <- final_projection. unfold agrees in fo_final0. zbool.
      repeat match goal with H : bool_decide _ = true |- _ => apply bool_decide_eq_true in H end.
      rewrite <- H. by apply settled_final. }
    by rewrite (ev_terminal _ _ He Ht).
  - intros Hs Hp. apply (fo_running0 Hs). pose proof (ev_rank _ _ He) as Hr. unfold relayProjection in *.
    destruct (Relay.status r), (Relay.status r'); cbn in *; try done; lia.
Qed.

(** A call of the relay store made as the relayer makes it. *)
Definition proper_relay (w : rows) (q : Ledger.request) : Prop :=
  (forall now, RelayLedger.time_of q = Num now -> 0 <= now) /\
  forall id r r', w !! id = Some r -> touched sha256 q r r' -> proper q r.

Lemma canonical_after w q : keyed w -> map_Forall (fun _ => canonical) w -> proper_relay w q ->
  map_Forall (fun _ => canonical) (Ledger.after sha256 w q).
Proof.
  intros Hk Hc [Hn Hp] id r Hr. apply canonical_sound.
  destruct (after_row sha256 w q id Hk) as [H|[(r0 & r' & H0 & H1 & Ht)|(r' & H0 & H1 & Hnew)]].
  - apply canonical_sound, (Hc id). by rewrite <- H.
  - rewrite H1 in Hr. injection Hr as <-. eapply touched_sound; [done|eauto|].
    apply canonical_sound. by apply (Hc id).
  - rewrite H1 in Hr. injection Hr as <-. by eapply created_sound.
Qed.

Lemma relay_intact d q : intact d -> proper_relay (work d) q -> intact (act d (RelayCall q)).
Proof.
  intros [Ht Hk Hw Hr Hu] Hp. cbn [UnwindRows.act]. pose proof (canonical_after _ _ Hk Hw Hp) as Hw'.
  split; cbn [jobs work]; [by apply (act_table sha256 commitment isStrKey attachFault d (RelayCall q))|by apply after_keyed|done| |done].
  intros id j Hj. specialize (Hr id j Hj). apply validate_Ok in Hr as [Hres Hproof]. apply validate_Ok.
  split; [done|]. intros p Hpf. destruct (Hproof p Hpf) as [Hcp Hcr]. split; [done|].
  apply check_relay_Ok in Hcr as (r & Hr & Hf).
  destruct (after_evolves sha256 (work d) q _ r Hk Hr) as (r' & Hr' & He).
  apply check_relay_Ok. exists r'. split; [done|]. eapply follows_evolves; [done|done|]. by eapply Hw'.
Qed.

(** ** Every call keeps it *)
Lemma created_key conflicts id s b e now r :
  relayEnqueueDecision sha256 None conflicts id s b e now = Ok (r, true) -> execId (ident r) = id.
Proof.
  unfold relayEnqueueDecision, relayNewPendingRecord. intros H. invert_ok H.
  by match goal with H : requireNow now ≫= _ = _ |- _ => invert_ok H end.
Qed.

Lemma perform_work_intact d q : intact d ->
  keyed (work (perform d q).2) /\ map_Forall (fun _ => canonical) (work (perform d q).2).
Proof.
  intros [Ht Hk Hw _ _]. destruct (perform_work sha256 commitment isStrKey attachFault d q Ht) as [->|(i & at_ & -> & Ha)]; [done|].
  destruct Ha as [id j0 j e digest c p r conflicts Hat Hj0 Ha Hjj Hm He Hs Hdg Hc Hp Hpt Hph Het Hcand Hno Hck Hn Hr Hv].
  cbn [work]. split; (apply map_Forall_insert_2; [|done]).
  - by eapply created_key.
  - apply canonical_sound. apply (created_sound _ (Ledger.Enqueue (unwind_exec_id id) (number 6) (Str (unwind_tx_hash p)) e (Num at_)) (unwind_exec_id id)).
    + split; [done|]. by exists conflicts.
    + by intros z [= <-].
Qed.

(** A proof that is there after a call was there, or it is of a user operation no other job has. *)
Lemma proof_origin d q id j p : intact d -> jobs (perform d q).2 !! id = Some j -> proof j = Some p ->
  (exists j0, jobs d !! id = Some j0 /\ proof j0 = Some p) \/
  (forall id' k, jobs d !! id' = Some k -> id' <> id -> same_user_op (user_op_hash p) k = false) /\
  work d !! unwind_exec_id id = None /\ is_Some (work (perform d q).2 !! unwind_exec_id id).
Proof.
  intros Hd Hj Hp. pose proof (in_table _ Hd) as Ht.
  destruct (perform_rows sha256 commitment isStrKey attachFault d q Ht id) as [H|[(j0 & j' & H0 & H1 & Hc & _)|(r & H0 & H1 & _)]].
  - left. exists j. by rewrite <- H.
  - assert (j' = j) as -> by congruence. assert (row_checks j0 = true) as Hck by by eapply t_checked.
    destruct Hc as [j0 j [Ha Ha' _ _ _]|j0 z Hl|j0 s re z Ha Hs|j0 j p' z Ha Hjj Hcand Hno Hnw Hw Hv|j0 p' r z Hp' Hs Hr Hrg].
    + unfold awaiting in Ha'. rewrite Hp, andb_false_r in Ha'. done.
    + left. by exists j0.
    + left. by exists j0.
    + right. cbn in Hp. by injection Hp as <-.
    + left. by exists j0.
  - assert (j = new_job r) as -> by congruence. done.
Qed.

Lemma exec_id_inj a b : unwind_exec_id a = unwind_exec_id b -> a = b.
Proof. unfold unwind_exec_id. intros H. by simplify_eq. Qed.

Lemma perform_unique d q id1 id2 j1 j2 p1 p2 : intact d ->
  jobs (perform d q).2 !! id1 = Some j1 -> jobs (perform d q).2 !! id2 = Some j2 ->
  proof j1 = Some p1 -> proof j2 = Some p2 -> user_op_hash p1 = user_op_hash p2 -> id1 = id2.
Proof.
  intros Hd H1 H2 Hp1 Hp2 Hu. destruct (decide (id1 = id2)) as [|Hn]; [done|exfalso].
  destruct (proof_origin d q id1 j1 p1 Hd H1 Hp1) as [(k1 & Hk1 & Hq1)|(Hno1 & Hn1 & Hw1)];
    destruct (proof_origin d q id2 j2 p2 Hd H2 Hp2) as [(k2 & Hk2 & Hq2)|(Hno2 & Hn2 & Hw2)].
  - apply Hn. by eapply (in_unique d Hd).
  - specialize (Hno2 id1 k1 Hk1 Hn). unfold same_user_op in Hno2. rewrite Hq1, Hu, bool_decide_eq_true_2 in Hno2; done.
  - specialize (Hno1 id2 k2 Hk2 (not_eq_sym Hn)). unfold same_user_op in Hno1.
    rewrite Hq2, Hu, bool_decide_eq_true_2 in Hno1; done.
  - destruct (perform_work sha256 commitment isStrKey attachFault d q (in_table _ Hd)) as [Hw|(i & at_ & _ & Ha)].
    + rewrite Hw, Hn1 in Hw1. by destruct Hw1.
    + destruct Ha as [id]. cbn [work] in Hw1, Hw2.
      assert (forall id', work d !! unwind_exec_id id' = None ->
        is_Some (<[unwind_exec_id id := r]> (work d) !! unwind_exec_id id') -> id' = id) as Hid.
      { intros id' Hnone [x Hx]. destruct (decide (unwind_exec_id id = unwind_exec_id id')) as [He|He].
        - by apply exec_id_inj in He.
        - rewrite lookup_insert_ne in Hx by done. congruence. }
      apply Hn. rewrite (Hid id1), (Hid id2); done.
Qed.

Lemma work_kept d q k r : intact d -> work d !! k = Some r -> work (perform d q).2 !! k = Some r.
Proof.
  intros Hd Hk. destruct (perform_work sha256 commitment isStrKey attachFault d q (in_table _ Hd)) as [->|(i & at_ & _ & Ha)]; [done|].
  destruct Ha. cbn [work]. rewrite lookup_insert_ne; [done|congruence].
Qed.

Lemma validate_kept d q j : intact d -> validateUnwindRow (work d) j = Ok j ->
  validateUnwindRow (work (perform d q).2) j = Ok j.
Proof.
  intros Hd [Hr Hp]%validate_Ok. apply validate_Ok. split; [done|]. intros p Hpf. destruct (Hp p Hpf) as [Hc Hf].
  split; [done|]. apply check_relay_Ok in Hf as (r & Hr' & Hf). apply check_relay_Ok. exists r.
  split; [by apply work_kept|done].
Qed.

(** A row without a proof is valid when its reservation is. *)
Lemma validate_unproved w w' j j' : proof j' = None -> reserved j' = reserved j ->
  validateUnwindRow w j = Ok j -> validateUnwindRow w' j' = Ok j'.
Proof. intros Hp Hr [H _]%validate_Ok. apply validate_Ok. rewrite Hr, Hp. done. Qed.

Lemma awaiting_unproved j : awaiting j = true -> proof j = None.
Proof. unfold awaiting. destruct (proof j); [by rewrite andb_false_r|done]. Qed.

Lemma projected_valid w j p r z : proof j = Some p -> w !! relay_exec_id p = Some r ->
  validateUnwindRow w j = Ok j ->
  validateUnwindRow w (set_projection j (relayProjection r) z) = Ok (set_projection j (relayProjection r) z).
Proof.
  intros Hp Hw [Hr Hv]%validate_Ok. apply validate_Ok. split; [done|]. cbn [proof set_projection].
  intros p' Hp'. assert (p' = p) as -> by congruence. destruct (Hv p Hp) as [Hc Hf]. split; [done|].
  apply check_relay_Ok in Hf as (r' & Hw' & []). assert (r' = r) as -> by congruence.
  apply check_relay_Ok. exists r. split; [done|]. split; try done; cbn.
  - intros _. unfold agrees. cbn. by rewrite !bool_decide_eq_true_2.
  - intros -> [=].
Qed.

Lemma perform_valid d q : intact d ->
  map_Forall (fun _ j => validateUnwindRow (work (perform d q).2) j = Ok j) (jobs (perform d q).2).
Proof.
  intros Hd id j Hj. pose proof (in_table _ Hd) as Ht.
  destruct (perform_rows sha256 commitment isStrKey attachFault d q Ht id) as [H|[(j0 & j' & H0 & H1 & Hc & _)|(r & H0 & H1 & _ & _ & Hv)]].
  - apply validate_kept; [done|]. rewrite H in Hj. by eapply in_rows.
  - assert (j' = j) as -> by congruence. pose proof (in_rows _ Hd _ _ H0) as Hv0. pose proof (t_checked _ Ht _ _ H0) as Hck.
    destruct Hc as [j0 j [_ Ha' Hr _ _]|j0 z Hl|j0 s re z Ha Hs|j0 j p' z Ha Hjj Hcand Hno Hnw Hw Hv|j0 p' r z Hp' Hs Hr Hrg].
    + eapply (validate_unproved _ _ j0); [by apply awaiting_unproved|done|done].
    + destruct (lease j0) as [[t e]|] eqn:El; [|done]. destruct (checked_lease _ _ _ Hck El) as (_ & _ & _ & Hp).
      by eapply (validate_unproved _ _ j0).
    + eapply (validate_unproved _ _ j0); [exact (checked_awaiting _ Hck Ha)|done|done].
    + done.
    + eapply projected_valid; [done|done|]. by apply validate_kept.
  - assert (j = new_job r) as -> by congruence. done.
Qed.

Lemma perform_intact d q : intact d -> intact (act d (UnwindCall q)).
Proof.
  intros Hd. destruct (perform_work_intact d q Hd). split; try done.
  - apply perform_table, Hd.
  - by apply perform_valid.
  - intros. by eapply (perform_unique d q).
Qed.

(** ** Reachable databases *)
Fixpoint proper_acts (d : db) (l : list action) : Prop :=
  match l with
  | [] => True
  | a :: l =>
      match a with RelayCall q => proper_relay (work d) q | UnwindCall _ => True end
      /\ proper_acts (act d a) l
  end.

Lemma acts_intact d l : intact d -> proper_acts d l -> intact (acts d l).
Proof.
  revert d. induction l as [|a l IH]; intros d Hd Hp; [done|]. destruct Hp as [Ha Hp]. cbn. apply IH; [|done].
  destruct a as [q|q]; [by apply perform_intact|by apply relay_intact].
Qed.

Lemma status_valid d id j : intact d -> jobs d !! id = Some j ->
  status sha256 commitment isStrKey d (Str id) = Ok (Some (publicStatus j)).
Proof.
  intros Hd Hj. pose proof (in_table _ Hd) as [Hk Hck].
  assert (is_hex 32 (chars_of id) = true) as Hid.
  { rewrite <- (Hk _ _ Hj). specialize (Hck _ _ Hj). cbn in Hck. unfold row_checks, reservation_checks in Hck. by zbool. }
  unfold status, canonicalJobId, matching, JOB_ID_RE. rewrite Hid. cbn. unfold UnwindOps.select. rewrite Hj.
  by rewrite (in_rows _ Hd _ _ Hj).
Qed.

(** What a job with a proof says of its relay work. *)
Lemma follows_outcome j p r : row_checks j = true -> proof j = Some p -> follows j p r ->
  match jstate j with
  | relay_running => Relay.status r <> attestation_pending
  | done => Relay.status r = minted /\ mint_tx_hash j = string_of <$> mintTxHash r
  | blocked => Relay.status r = Relay.blocked /\ reason_code j = reasonCode r
  | uncertain => Relay.status r = Relay.uncertain /\ reason_code j = reasonCode r
  | _ => True
  end.
Proof.
  intros Hck Hp [_ _ _ _ _ Hf Hrun]. destruct (jstate j) eqn:Hs; try done;
    [unfold relayProjection in Hrun; destruct (Relay.status r); try done; by specialize (Hrun eq_refl)|..].
  all: specialize (Hf eq_refl); unfold agrees, relayProjection in Hf; rewrite Hs in Hf.
  all: destruct (Relay.status r); cbn in Hf; zbool; try discriminate.
  all: repeat match goal with H : bool_decide _ = true |- _ => apply bool_decide_eq_true in H end; done.
Qed.

Lemma intact_follows d id j p : intact d -> jobs d !! id = Some j -> proof j = Some p ->
  exists r, work d !! unwind_exec_id id = Some r /\ follows j p r.
Proof.
  intros Hd Hj Hp. pose proof (in_table _ Hd) as [Hk Hck].
  pose proof (in_rows _ Hd _ _ Hj) as [_ Hv]%validate_Ok. destruct (Hv p Hp) as [_ (r & Hr & Hf)%check_relay_Ok].
  exists r. split; [|done]. rewrite <- Hr. f_equal. specialize (Hck _ _ Hj). cbn in Hck.
  unfold row_checks, proof_checks in Hck. rewrite Hp in Hck. zbool.
  match goal with H : bool_decide (relay_exec_id p = _) = true |- _ => apply bool_decide_eq_true in H as -> end.
  by rewrite (Hk _ _ Hj).
Qed.


(** Whatever calls of the two stores follow each other on a new database, a user operation
    pays for at most one job: two jobs whose proofs name the same one are the same job. *)
Theorem user_operation_once l id1 id2 j1 j2 p1 p2 :
  let d := acts {| jobs := ∅; work := ∅ |} l in
  proper_acts {| jobs := ∅; work := ∅ |} l -> jobs d !! id1 = Some j1 -> jobs d !! id2 = Some j2 ->
  proof j1 = Some p1 -> proof j2 = Some p2 -> user_op_hash p1 = user_op_hash p2 -> id1 = id2.
Proof. intros d Hp. apply in_unique. by apply acts_intact, Hp; apply intact_empty. Qed.
End Safety.

(** ** A concrete run *)
Section Sample.
Import Relay Ledger Unwind UnwindOps.

(** Relay calls that are proper for a table, decided. *)
Definition proper_time (now : num) (m : rows) : bool :=
  match now with
  | Num z => (0 <=? z) && forallb (fun r => createdAt (ident r) <=? z) (map snd (map_to_list m))
  | _ => false
  end.

Definition properb (m : rows) (q : Ledger.request) : bool :=
  proper_time (RelayLedger.time_of q) m &&
  forallb (fun r =>
    match q with
    | Claim _ (Num now) (Num ms) token =>
        negb (bool_decide (token = EmptyString)) && isSafeInteger (Num (now + ms))
        && isSafeInteger (Num (attempts r + 1))
    | Renew _ _ (Num now) (Num ms) => isSafeInteger (Num (now + ms))
    | RecordAttested _ _ _ _ _ _ => isSafeInteger (Num (evidenceVersion r + 1))
    | Ledger.FinishBlocked _ _ _ _ => false
    | _ => true
    end) (map snd (map_to_list m)).

Lemma properb_proper sha m q : properb m q = true -> proper_relay sha m q.
Proof.
  unfold properb, proper_time. intros [Ht Hq]%andb_prop. destruct (RelayLedger.time_of q) as [z| | |] eqn:Ez; try done.
  apply andb_prop in Ht as [Hz Ht]. split; [intros now Hnow; rewrite Ez in Hnow; injection Hnow as <-; by zbool|]. intros id r r' Hr _.
  assert (r ∈ map snd (map_to_list m)) as Hin.
  { apply list_elem_of_fmap. exists (id, r). split; [done|]. by apply elem_of_map_to_list. }
  apply forallb_Forall in Ht, Hq. rewrite Forall_forall in Ht, Hq. specialize (Ht r Hin). specialize (Hq r Hin). cbn in Ht, Hq.
  split; [intros now Hnow; rewrite Ez in Hnow; injection Hnow as <-; by zbool|].
  destruct q as [|? [] [] ?|? ? [] []| | | | | | | | |]; try done.
  apply andb_prop in Hq as [[Hn%negb_true_iff%bool_decide_eq_false Hs]%andb_prop Hc]. done.
Qed.

Fixpoint properb_acts sha commitment isStrKey fault (d : db) (l : list action) : bool :=
  match l with
  | [] => true
  | a :: l =>
      match a with RelayCall q => properb (work d) q | UnwindCall _ => true end
      && properb_acts sha commitment isStrKey fault (act sha commitment isStrKey fault d a) l
  end.

Lemma properb_acts_proper sha commitment isStrKey fault d l :
  properb_acts sha commitment isStrKey fault d l = true -> proper_acts sha commitment isStrKey fault d l.
Proof.
  revert d. induction l as [|a l IH]; intros d H; [done|]. cbn in *. apply andb_prop in H as [Ha H].
  split; [|by apply IH]. destruct a; [done|]. by apply properb_proper.
Qed.

Definition whole : list action := UnwindSample.reserving ++ UnwindSample.rest.

Lemma whole_proper :
  proper_acts UnwindSample.sha UnwindSample.commitment UnwindSample.isStrKey (fun _ => false)
    {| jobs := ∅; work := ∅ |} whole.
Proof. apply properb_acts_proper. vm_compute. reflexivity. Qed.

Definition ended_db : db := UnwindSample.acts {| jobs := ∅; work := ∅ |} whole.

Lemma ended_job : exists j p, jobs ended_db !! UnwindSample.id = Some j /\ jstate j = done /\ proof j = Some p.
Proof.
  assert ((fun j => (jstate j, is_some (proof j))) <$> jobs ended_db !! UnwindSample.id = Some (done, true)) as H
    by (vm_compute; reflexivity).
  destruct (jobs ended_db !! UnwindSample.id) as [j|]; [|discriminate H].
  injection H as Hs Hp. destruct (proof j) as [p|] eqn:E; [|discriminate Hp]. by exists j, p.
Qed.


Lemma user_operation_once_witness :
  exists j p, jobs ended_db !! UnwindSample.id = Some j /\ proof j = Some p /\
    forall id k q, jobs ended_db !! id = Some k -> proof k = Some q -> user_op_hash p = user_op_hash q ->
      UnwindSample.id = id.
Proof.
  destruct ended_job as (j & p & Hj & _ & Hp). exists j, p. refine (conj Hj (conj Hp _)).
  intros id k q Hk Hq He.
  exact (user_operation_once UnwindSample.sha UnwindSample.commitment UnwindSample.isStrKey (fun _ => false)
           whole UnwindSample.id id j k p q whole_proper Hj Hk Hp Hq He).
Defined.
End Sample.
