(* ===== verification/UnwindErrors.v ===== *)
(** * The store of unwind jobs never defeats itself

    A call ends in one of the documented errors: on a database that the calls built, no
    constraint of the table is broken and no integrity check fails, so that the checks of the
    code and the constraints of its schema agree. *)
From S2P Require Export UnwindSafety.
From S2P Require Import RelayCanonical.

Section RowChecks.
Import Unwind UnwindOps.

(** The constraints of a row, one by one. *)
Record row_ok (j : job) : Prop := {
  ro_reserved : reservation_checks (reserved j) = true;
  ro_cand : forall c, cand j = Some c -> candidate_checks (reserved j) c = true /\ jstate j <> expired;
  ro_proof : forall p, proof j = Some p -> proof_checks (reserved j) (cand j) p = true;
  ro_unproved : proof j = None -> mint_tx_hash j = None;
  ro_mint : forall h, mint_tx_hash j = Some h -> lower_hex 64 h = true;
  ro_reason : forall c, reason_code j = Some c -> c ∈ UNWIND_PUBLIC_REASON_CODES;
  ro_attempts : 0 <= jattempts j;
  ro_updated : created_at (reserved j) <= updated_at j;
  ro_lease : forall t e, lease j = Some (t, e) ->
    t <> EmptyString /\ 0 <= e /\ jstate j = awaiting_burn /\ proof j = None;
  ro_state :
    match jstate j with
    | awaiting_burn | expired => proof j = None /\ reason_code j = None
    | relay_pending | relay_running => proof j <> None /\ reason_code j = None
    | done => proof j <> None /\ reason_code j = None /\ mint_tx_hash j <> None
    | _ => reason_code j <> None
    end;
}.

Lemma row_checks_ok j : row_checks j = true <-> row_ok j.
Proof.
  unfold row_checks. rewrite !andb_true_iff, !Z.leb_le. split.
  - intros (((((((((((H1 & H2) & H3) & H4) & H5) & H6) & H7) & H8) & H9) & H10) & H11) & H12). split; try done.
    + intros c Hc. rewrite Hc in H2. apply andb_prop in H2 as [? H2%negb_true_iff%bool_decide_eq_false]. done.
    + intros p Hp. by rewrite Hp in H3.
    + intros Hp. rewrite Hp in H3. by destruct (mint_tx_hash j).
    + intros h Hh. by rewrite Hh in H4.
    + intros c Hc. rewrite Hc in H5. by apply bool_decide_eq_true in H5.
    + intros t e Hl. rewrite Hl in H8. zbool.
      repeat match goal with H : bool_decide _ = _ |- _ => apply bool_decide_eq_true in H || apply bool_decide_eq_false in H end.
      by destruct (proof j).
    + unfold in_states in *. destruct (jstate j), (proof j), (reason_code j), (mint_tx_hash j); try discriminate; done.
  - intros []. split_and!; try done.
    + destruct (cand j) as [c|]; [|done]. destruct (ro_cand0 c eq_refl) as [-> Hs]. by rewrite bool_decide_eq_false_2.
    + destruct (proof j) as [p|]; [by apply ro_proof0|]. by rewrite ro_unproved0.
    + destruct (mint_tx_hash j); [by apply ro_mint0|done].
    + destruct (reason_code j); [by apply bool_decide_eq_true, ro_reason0|done].
    + destruct (lease j) as [[t e]|]; [|done]. destruct (ro_lease0 t e eq_refl) as (Ht & He & -> & ->).
      rewrite bool_decide_eq_false_2 by done. by rewrite (proj2 (Z.leb_le _ _) He).
    + unfold in_states. destruct (jstate j), (proof j); try done; naive_solver.
    + unfold in_states. destruct (jstate j), (proof j); try done; naive_solver.
    + unfold in_states. destruct (jstate j), (reason_code j); try done; naive_solver.
    + destruct (jstate j); try done. destruct (mint_tx_hash j); [done|naive_solver].
Qed.

(** ** The assignments keep the constraints *)
Lemma row_lease_ok j l z : row_ok j -> created_at (reserved j) <= z ->
  (forall t e, l = Some (t, e) -> t <> EmptyString /\ 0 <= e /\ awaiting j = true) ->
  row_ok (set_lease j l z).
Proof.
  intros [] Hz Hl. split; try done. cbn. intros t e Hle. destruct (Hl t e Hle) as (? & ? & Ha).
  split_and!; try done; [|by apply awaiting_unproved]. unfold awaiting in Ha. apply andb_prop in Ha as [Ha _].
  by apply bool_decide_eq_true in Ha.
Qed.

Lemma attempt_ok j : row_ok j -> row_ok (count_attempt j).
Proof. intros []. split; try done. cbn. lia. Qed.

Lemma candidate_ok j c z : row_ok j -> created_at (reserved j) <= z -> awaiting j = true ->
  candidate_checks (reserved j) c = true -> row_ok (set_candidate j c z).
Proof.
  intros [] Hz Ha Hc. pose proof (awaiting_unproved j Ha) as Hp. split; try done; cbn.
  - intros c' [= <-]. split; [done|]. unfold awaiting in Ha. apply andb_prop in Ha as [Ha%bool_decide_eq_true _]. congruence.
  - intros p. congruence.
Qed.

Lemma ended_ok j s re z : row_ok j -> created_at (reserved j) <= z -> is_awaiting j = true ->
  match s with
  | expired => cand j = None /\ re = None
  | blocked | uncertain => exists c, re = Some c /\ c ∈ UNWIND_PUBLIC_REASON_CODES
  | _ => False
  end -> row_ok (set_state j s re z).
Proof.
  intros [] Hz Ha%bool_decide_eq_true Hs. rewrite Ha in ro_state0. destruct ro_state0 as [Hp Hr].
  split; try done; cbn.
  - intros c Hc. destruct (ro_cand0 c Hc). split; [done|]. intros ->. destruct Hs. congruence.
  - intros c Hc. destruct s; try done; [destruct Hs as (c' & ? & ?); congruence..|]. destruct Hs. congruence.
  - destruct s; try done; [naive_solver..|]. by destruct Hs.
Qed.
End RowChecks.

(** ** Canonical texts have the form of their columns *)
Section Forms.
Import Relay Unwind UnwindOps.

Lemma matching_Ok re v s : matching re v = Ok s <-> v = Str s /\ re (chars_of s) = true.
Proof.
  unfold matching, Unwind.invalid. split; [intros H; by invert_ok H|]. by intros [-> ->].
Qed.

Lemma chars_lower_string s : chars_of (lower_string s) = toLowerCase (chars_of s).
Proof. apply chars_of_string_of. Qed.

Lemma ci_lower n l : is_0x_hex_ci n l = true -> is_0x_hex n (toLowerCase l) = true.
Proof.
  unfold is_0x_hex_ci. destruct (Hex.after_0x l) as [t|] eqn:E; [|done]. apply Hex.after_0x_Some in E as ->.
  intros H. exact H.
Qed.

Lemma lower_hex_id c : is_lower_hex c = true -> lower c = c.
Proof. destruct c as [[] [] [] [] [] [] [] []]; intros H; first [discriminate H|reflexivity]. Qed.

Lemma lower_ci n l : is_0x_hex n l = true -> is_0x_hex_ci n l = true.
Proof.
  unfold is_0x_hex_ci. destruct l as [|a [|b l]]; try done. cbn.
  destruct (Ascii.eqb a "0"), (Ascii.eqb b "x"); try done. cbn. unfold is_hex_ci, is_hex.
  intros [Hl Hx]%andb_prop. rewrite length_fmap, Hl. cbn. rewrite forallb_Forall in *.
  rewrite Forall_fmap. eapply Forall_impl; [exact Hx|]. intros c Hc. cbn. by rewrite lower_hex_id.
Qed.

Lemma canonicalHash_form v s : canonicalHash v = Ok s -> lower_0x_hex 64 s = true.
Proof.
  unfold canonicalHash. intros H. apply bind_Ok in H as (t & [-> Ht]%matching_Ok & [= <-]).
  unfold lower_0x_hex. rewrite chars_lower_string. by apply ci_lower.
Qed.

Lemma canonicalAddress_form v s : canonicalAddress v = Ok s ->
  lower_0x_hex 40 s = true /\ s <> ZERO_ADDRESS.
Proof.
  unfold canonicalAddress. intros H. apply bind_Ok in H as (t & [-> Ht]%matching_Ok & H).
  destruct (decide _) in H; [done|]. injection H as <-. split; [|done].
  unfold lower_0x_hex. rewrite chars_lower_string. by apply ci_lower.
Qed.

Lemma lower_string_id s n : lower_0x_hex n s = true -> lower_string s = s.
Proof.
  unfold lower_0x_hex, lower_string. intros H. apply chars_of_inj. rewrite chars_of_string_of.
  destruct (chars_of s) as [|a [|b l]]; try done. cbn in H. apply andb_prop in H as [Hab H].
  unfold is_hex in H. apply andb_prop in H as [_ H]. rewrite forallb_Forall in H.
  destruct (Ascii.eqb_spec a "0") as [->|], (Ascii.eqb_spec b "x") as [->|]; try done.
  unfold toLowerCase. cbn. f_equal. f_equal. transitivity (id <$> l); [|by rewrite list_fmap_id].
  apply Forall_fmap_ext. eapply Forall_impl; [exact H|]. intros c. by apply lower_hex_id.
Qed.

Lemma canonicalHash_idem v s : canonicalHash v = Ok s -> canonicalHash (Str s) = Ok s.
Proof.
  intros H%canonicalHash_form. unfold canonicalHash. apply bind_Ok. exists s.
  split; [apply matching_Ok; split; [done|by apply lower_ci]|]. by rewrite (lower_string_id s 64).
Qed.

Lemma canonicalAddress_idem v s : canonicalAddress v = Ok s -> canonicalAddress (Str s) = Ok s.
Proof.
  intros [H Hz]%canonicalAddress_form. unfold canonicalAddress. apply bind_Ok. exists s.
  split; [apply matching_Ok; split; [done|by apply lower_ci]|].
  rewrite (lower_string_id s 40) by done. by rewrite decide_False.
Qed.

Lemma matching_idem re v s : matching re v = Ok s -> matching re (Str s) = Ok s.
Proof. intros [_ H]%matching_Ok. by apply matching_Ok. Qed.

Lemma str_Ok m v : str m = Ok v <-> exists s, m = Ok s /\ v = Str s.
Proof. unfold str. destruct m; cbn; naive_solver. Qed.

Lemma log_index_Ok p name f : log_index p name = Ok f <->
  f = (name, get p#"logIndices" name) /\ is_safe_integer (get p#"logIndices" name) = true /\
  0 <= integer_of (get p#"logIndices" name).
Proof.
  unfold log_index, Unwind.invalid. destruct (_ && _) eqn:H.
  - zbool. split; [by intros [= <-]|]. by intros (-> & _).
  - split; [done|]. intros (-> & Hs & Hi%Z.leb_le). by rewrite Hs, Hi in H.
Qed.

Lemma log_digest_Ok p name f : log_digest p name = Ok f <->
  exists s, f = (name, Str s) /\ canonicalDigest (get p#"logDigests" name) = Ok s.
Proof.
  unfold log_digest. destruct (canonicalDigest _) as [d|]; cbn; [|naive_solver].
  split; [intros [= <-]; eauto|]. by intros (s & -> & [= ->]).
Qed.
End Forms.

Section Proofs.
Import Relay Unwind UnwindOps.
Context (sha256 : chars -> chars) (commitment : list string -> string).
Local Open Scope string_scope.
Local Open Scope list_scope.

Definition index_vals (a b c d : Z) : list (string * val) :=
  [("messageSent", number a); ("depositForBurn", number b); ("swept", number c);
   ("userOperationEvent", number d)].
Definition digest_vals (a b c d : string) : list (string * val) :=
  [("messageSent", Str a); ("depositForBurn", Str b); ("swept", Str c); ("userOperationEvent", Str d)].

Definition index (z : Z) : Prop := isSafeInteger (Num z) = true /\ 0 <= z.
Definition digest (s : string) : Prop := canonicalDigest (Str s) = Ok s.

Lemma safe_number v : is_safe_integer v = true -> 0 <= integer_of v -> exists z, v = number z /\ index z.
Proof.
  destruct v as [| | |[z| | |]| | | | |]; try done. intros H Hz. exists z. by split.
Qed.

Lemma log_indices_Ok p li : map_throw (log_index p) LOG_NAMES = Ok li ->
  exists a b c d, li = index_vals a b c d /\ index a /\ index b /\ index c /\ index d.
Proof.
  intros H%map_throw_Forall2. unfold LOG_NAMES in H.
  repeat match goal with
    | H : Forall2 _ (_ :: _) _ |- _ => inversion_clear H
    | H : Forall2 _ [] _ |- _ => inversion_clear H
    | H : log_index _ _ = Ok _ |- _ => apply log_index_Ok in H as (-> & ? & ?)
    end.
  repeat match goal with H : is_safe_integer _ = true |- _ =>
    apply safe_number in H as (? & -> & ?); [|assumption] end.
  by do 4 eexists.
Qed.

Lemma log_digests_Ok p ld : map_throw (log_digest p) LOG_NAMES = Ok ld ->
  exists a b c d, ld = digest_vals a b c d /\ digest a /\ digest b /\ digest c /\ digest d.
Proof.
  intros H%map_throw_Forall2. unfold LOG_NAMES in H.
  repeat match goal with
    | H : Forall2 _ (_ :: _) _ |- _ => inversion_clear H
    | H : Forall2 _ [] _ |- _ => inversion_clear H
    | H : log_digest _ _ = Ok _ |- _ => apply log_digest_Ok in H as (? & -> & ?)
    end.
  do 4 eexists. split; [reflexivity|]. split_and!; by eapply matching_idem.
Qed.

(** A canonical proof, by its fields. *)
Definition proof_val (u jc tx ep k bn bh n bu ex sk mf hd sm sd : string) (li ld : list (string * val)) : val :=
  Obj [("version", number 1); ("chainId", number 84532); ("userOpHash", Str u); ("jobCommitment", Str jc);
       ("unwindTxHash", Str tx); ("entryPointAddress", Str ep); ("kernelAddress", Str k);
       ("blockNumber", Str bn); ("blockHash", Str bh); ("userOpNonce", Str n); ("burned", Str bu);
       ("exited", Str ex); ("skipped", Str sk); ("maxFee", Str mf); ("hookData", Str hd);
       ("sourceMessageHex", Str sm); ("sourceMessageDigest", Str sd); ("logIndices", Obj li);
       ("logDigests", Obj ld)].

Record fields_ok (u jc tx ep k bn bh n bu ex sk mf hd sm sd : string) : Prop := {
  fk_u : canonicalHash (Str u) = Ok u; fk_jc : canonicalHash (Str jc) = Ok jc;
  fk_tx : canonicalHash (Str tx) = Ok tx; fk_ep : canonicalAddress (Str ep) = Ok ep;
  fk_k : canonicalAddress (Str k) = Ok k; fk_bn : canonicalDecimal (Str bn) = Ok bn;
  fk_bh : canonicalHash (Str bh) = Ok bh; fk_n : canonicalDecimal (Str n) = Ok n;
  fk_bu : canonicalDecimal (Str bu) = Ok bu; fk_ex : canonicalDecimal (Str ex) = Ok ex;
  fk_sk : canonicalDecimal (Str sk) = Ok sk; fk_mf : canonicalDecimal (Str mf) = Ok mf;
  fk_hd : canonicalEvenHex (Str hd) = Ok hd; fk_sm : canonicalEvenHex (Str sm) = Ok sm;
  fk_sd : canonicalDigest (Str sd) = Ok sd;
}.

Lemma proof_fields_Ok p li ld c : canonical_fields p li ld = Ok c ->
  exists u jc tx ep k bn bh n bu ex sk mf hd sm sd,
    c = proof_val u jc tx ep k bn bh n bu ex sk mf hd sm sd li ld /\
    fields_ok u jc tx ep k bn bh n bu ex sk mf hd sm sd.
Proof.
  unfold canonical_fields, object. destruct (fields _) as [fs|] eqn:H; [|done]. intros [= <-].
  cbn [fields] in H.
  repeat match type of H with
    | _ ≫= _ = Ok _ => apply bind_Ok in H as (? & ?E & H)
    end.
  repeat match goal with E : _ ≫= _ = Ok _ |- _ => apply bind_Ok in E as (? & ? & E) end.
  repeat match goal with
    | E : Ok _ = Ok _ |- _ => injection E as <-
    | E : str _ = Ok _ |- _ => apply str_Ok in E as (? & ? & ->)
    end.
  do 15 eexists. split; [reflexivity|].
  split; eauto using canonicalHash_idem, canonicalAddress_idem, matching_idem.
Qed.

Definition canonical_proof (c : val) : Prop :=
  exists u jc tx ep k bn bh n bu ex sk mf hd sm sd i1 i2 i3 i4 d1 d2 d3 d4,
    c = proof_val u jc tx ep k bn bh n bu ex sk mf hd sm sd (index_vals i1 i2 i3 i4) (digest_vals d1 d2 d3 d4) /\
    fields_ok u jc tx ep k bn bh n bu ex sk mf hd sm sd /\
    (index i1 /\ index i2 /\ index i3 /\ index i4) /\ digest d1 /\ digest d2 /\ digest d3 /\ digest d4.

Lemma canonicalProof_Ok p e id k c : canonicalProof commitment p e id k = Ok c ->
  canonical_proof c /\ canonicalJobId (Str id) = Ok id /\
  proof_binds c e k (commitment [UNWIND_JOB_DOMAIN; "0x" +:+ id]) = true.
Proof.
  unfold canonicalProof. intros H. destruct (_ || _) in H; [done|]. destruct (_ || _) in H; [done|].
  apply bind_Ok in H as (li & (i1 & i2 & i3 & i4 & -> & Hi)%log_indices_Ok & H).
  apply bind_Ok in H as (ld & (d1 & d2 & d3 & d4 & -> & Hd)%log_digests_Ok & H).
  apply bind_Ok in H as (c' & Hc & H). apply bind_Ok in H as (id' & Hid & H).
  assert (id' = id) as -> by (apply matching_Ok in Hid as [[= ->] _]; done).
  destruct (proof_binds _ _ _ _) eqn:Hb; [|done]. injection H as ->. split; [|done].
  apply proof_fields_Ok in Hc as (u & jc & tx & ep & k' & bn & bh & n & bu & ex & sk & mf & hd & sm & sd & -> & Hf).
  do 23 eexists. eauto.
Qed.

(** The canonical form of a canonical proof is the proof itself. *)
Lemma canonicalProof_fixed c e id k : canonical_proof c -> canonicalJobId (Str id) = Ok id ->
  proof_binds c e k (commitment [UNWIND_JOB_DOMAIN; "0x" +:+ id]) = true ->
  canonicalProof commitment c e id k = Ok c.
Proof.
  intros (u & jc & tx & ep & k' & bn & bh & n & bu & ex & sk & mf & hd & sm & sd & i1 & i2 & i3 & i4 &
    d1 & d2 & d3 & d4 & -> & [] & (Hi1 & Hi2 & Hi3 & Hi4) & Hd1 & Hd2 & Hd3 & Hd4) Hid Hb.
  set (c := proof_val _ _ _ _ _ _ _ _ _ _ _ _ _ _ _ _ _) in *.
  unfold canonicalProof.
  assert (negb (exactKeys c PROOF_KEYS) || negb (strict_eq c#"version" (number 1))
     || negb (strict_eq c#"chainId" (number 84532)) = false) as -> by reflexivity.
  assert (negb (exactKeys c#"logIndices" LOG_NAMES) || negb (exactKeys c#"logDigests" LOG_NAMES) = false)
    as -> by reflexivity.
  assert (map_throw (log_index c) LOG_NAMES = Ok (index_vals i1 i2 i3 i4)) as ->.
  { apply map_throw_Forall2. repeat (apply Forall2_cons; split);
      [..|constructor]; apply log_index_Ok; (split; [reflexivity|]); by destruct Hi1, Hi2, Hi3, Hi4. }
  assert (map_throw (log_digest c) LOG_NAMES = Ok (digest_vals d1 d2 d3 d4)) as ->.
  { apply map_throw_Forall2. repeat (apply Forall2_cons; split);
      [..|constructor]; apply log_digest_Ok; (eexists; split; [reflexivity|]); assumption. }
  cbn [mbind result_bind].
  assert (canonical_fields c (index_vals i1 i2 i3 i4) (digest_vals d1 d2 d3 d4) = Ok c) as ->.
  { unfold canonical_fields, object.
    change (c#"userOpHash") with (Str u). change (c#"jobCommitment") with (Str jc).
    change (c#"unwindTxHash") with (Str tx). change (c#"entryPointAddress") with (Str ep).
    change (c#"kernelAddress") with (Str k'). change (c#"blockNumber") with (Str bn).
    change (c#"blockHash") with (Str bh). change (c#"userOpNonce") with (Str n).
    change (c#"burned") with (Str bu). change (c#"exited") with (Str ex).
    change (c#"skipped") with (Str sk). change (c#"maxFee") with (Str mf).
    change (c#"hookData") with (Str hd). change (c#"sourceMessageHex") with (Str sm).
    change (c#"sourceMessageDigest") with (Str sd).
    rewrite fk_u0, fk_jc0, fk_tx0, fk_ep0, fk_k0, fk_bn0, fk_bh0, fk_n0, fk_bu0, fk_ex0, fk_sk0, fk_mf0,
      fk_hd0, fk_sm0, fk_sd0. reflexivity. }
  cbn [mbind result_bind]. rewrite Hid. cbn [mbind result_bind]. by rewrite Hb.
Qed.

Lemma canonical_proof_wire c : canonical_proof c -> wire c.
Proof.
  intros (u & jc & tx & ep & k' & bn & bh & n & bu & ex & sk & mf & hd & sm & sd & i1 & i2 & i3 & i4 &
    d1 & d2 & d3 & d4 & -> & _ & (Hi1 & Hi2 & Hi3 & Hi4) & _).
  apply wire_obj; [reflexivity|]. repeat (apply Forall_cons_2; [cbn [snd]|]); try apply Forall_nil_2; try constructor;
    try reflexivity; repeat (apply Forall_cons_2; [cbn [snd]; constructor|]); try apply Forall_nil_2;
    first [apply Hi1|apply Hi2|apply Hi3|apply Hi4|idtac].
Qed.
End Proofs.

(** ** Expectations and texts *)
Lemma bind_Throw {E A B} (k : A -> result E B) m e :
  m ≫= k = Throw e <-> m = Throw e \/ exists a, m = Ok a /\ k a = Throw e.
Proof. destruct m; cbn; naive_solver. Qed.

(** Walk back through a computation that threw. *)
Ltac invert_throw H :=
  repeat first
    [ discriminate H
    | match type of H with
      | _ ≫= _ = Throw _ => apply bind_Throw in H as [H|(? & ? & H)]
      | (if ?b then _ else _) = Throw _ => destruct b eqn:?
      | match ?x with _ => _ end = Throw _ => destruct x eqn:?
      | Throw _ = Throw _ => injection H as H
      end ].

Section Texts.
Import Relay Unwind UnwindOps.
Context (sha256 : chars -> chars) (commitment : list string -> string).
Local Open Scope string_scope.
Local Open Scope list_scope.

Lemma json_wire v : wire v -> json v = Ok (string_of (print v)).
Proof. intros H. unfold json. by rewrite stringify_wire. Qed.

Lemma json_parse v t : wire v -> json v = Ok t -> JSON.parse (chars_of t) = Ok v.
Proof. intros H. rewrite json_wire by done. intros [= <-]. rewrite chars_of_string_of. by apply parse_print. Qed.

Lemma string_matches_Str re v : string_matches re v = true -> exists s, v = Str s /\ re (chars_of s) = true.
Proof. unfold string_matches. destruct v; try done. intros H. by exists s. Qed.

Lemma canonicalizeExpectation_error x e : canonicalizeExpectation x = Throw e -> e = RELAY_VALIDATION.
Proof.
  unfold canonicalizeExpectation, check_burnUnits7, expectDecimalString, Relay.invalid. intros H.
  by invert_throw H.
Qed.

(** A canonical expectation of a burn on Base can be carried by JSON. *)
Lemma expectation_wire x e : canonicalizeExpectation x = Ok e -> e#"direction" = Str "base-to-stellar" -> wire e.
Proof.
  intros H Hd. assert (e = Obj ((fun k => (k, get x k)) <$> EXPECTATION_KEY_ORDER)) as He.
  { unfold canonicalizeExpectation in H. by invert_ok H. }
  rewrite He in Hd. rewrite get_canonical in Hd by set_solver. unfold canonicalizeExpectation in H. rewrite Hd in H.
  invert_ok H. zbool. clear He.
  repeat match goal with
    | H : strict_eq _ _ = true |- _ => apply strict_eq_eq in H
    | H : string_matches _ _ = true |- _ => apply string_matches_Str in H as (? & H & _)
    | H : forallb _ bytes32_fields = true |- _ =>
        apply forallb_Forall in H; unfold bytes32_fields in H;
        repeat (apply Forall_cons in H as [(? & ? & _)%string_matches_Str H])
    | H : expectDecimalString _ = Ok _ |- _ => unfold expectDecimalString, Relay.invalid in H; invert_ok H
    end.
  cbn in Heqo. injection Heqo as <- <-.
  assert (x#"burnUnits7" = Null) as Hnull.
  { unfold check_burnUnits7, Relay.invalid in *. rewrite Hd in H2. cbn [strict_eq] in H2.
    rewrite bool_decide_eq_false_2 in H2 by done. destruct (negb _) eqn:E in H2; [done|].
    by apply negb_false_iff, strict_eq_eq in E. }
  assert (exists z, x#"minFinalityThreshold" = number z /\ isSafeInteger (Num z) = true) as (z & Hz & Hs).
  { apply andb_false_iff in Heqb4 as [E|E]; apply negb_false_iff, strict_eq_eq in E; rewrite E; by eexists. }
  rewrite Heqb1, Hd, H6, H7, H8, H9, H10, H11, Heqb2, Hnull, Heqb0, Hz, Heqb5.
  apply wire_obj; [reflexivity|]. repeat apply Forall_cons_2; try apply Forall_nil_2; cbn [snd]; by constructor.
Qed.

Lemma same_text s : forall v w, v = Str s -> w = Str s -> strict_eq v w = true.
Proof. intros v w -> ->. by apply strict_eq_Str. Qed.
Lemma same_number z : forall v w, v = number z -> w = number z -> strict_eq v w = true.
Proof. intros v w -> ->. cbn. by apply bool_decide_eq_true_2. Qed.

(** The row that [attachAndEnqueue] writes passes the integrity check. *)
Lemma attached_check (r : reservation) x e digest proof c pt ph et execId_ :
  canonicalizeExpectation x = Ok e -> e#"direction" = Str "base-to-stellar" ->
  expectationDigest sha256 e = Ok digest ->
  canonicalProof commitment proof e (job_id r) (kernel_address r) = Ok c ->
  json c = Ok pt -> proofDigest sha256 c = Ok ph -> json e = Ok et ->
  c#"sourceMessageDigest" = Str (string_of (sha256 (Hex.from_hex (drop 2 (coerce c#"sourceMessageHex"))))) ->
  check_proof sha256 commitment r (proof_row_of c e pt ph et (string_of digest) execId_) = Ok tt.
Proof.
  intros Hx Hd Hdg Hc Hpt Hph Het Hm. pose proof (expectation_wire _ _ Hx Hd) as Hw.
  destruct (canonicalProof_Ok _ _ _ _ _ _ Hc) as (Hcan & Hid & Hb).
  unfold check_proof. cbn [proof_row_of expectation_json proof_json].
  rewrite (json_parse _ _ Hw Het). cbn [or_integrity mbind result_bind].
  rewrite (canonicalizeExpectation_idem _ _ Hx). cbn [or_integrity mbind result_bind].
  rewrite (json_parse _ _ (canonical_proof_wire _ Hcan) Hpt). cbn [or_integrity mbind result_bind].
  rewrite (canonicalProof_fixed commitment c e _ _ Hcan Hid Hb). cbn [or_integrity mbind result_bind].
  rewrite Het, Hdg. cbn [from_relay mbind result_bind]. rewrite Hpt. cbn [mbind result_bind]. rewrite Hph.
  cbn [mbind result_bind]. apply bind_Ok. exists tt. split; [|rewrite Hm; apply integrity_Ok, strict_eq_Str; done].
  apply integrity_Ok. cbn [expectation_digest proof_digest user_op_hash unwind_tx_hash proof_row_of evidence_columns].
  rewrite !bool_decide_eq_true_2 by done.
  destruct Hcan as (u & jc & tx & ep & k' & bn & bh & n & bu & ex & sk & mf & hd & sm & sd & i1 & i2 & i3 & i4 &
    d1 & d2 & d3 & d4 & -> & _).
  set (C := proof_val _ _ _ _ _ _ _ _ _ _ _ _ _ _ _ _ _).
  rewrite !andb_true_iff. split_and!; try done.
  - apply strict_eq_Str. change (C#"userOpHash") with (Str u). unfold text_field.
    change (C#"userOpHash") with (Str u). cbn [coerce]. by rewrite string_of_chars_of.
  - apply strict_eq_Str. change (C#"unwindTxHash") with (Str tx). unfold text_field.
    change (C#"unwindTxHash") with (Str tx). cbn [coerce]. by rewrite string_of_chars_of.
  - apply forallb_Forall. unfold expectedStored. repeat apply Forall_cons_2; try apply Forall_nil_2; cbn [fst snd];
      first [eapply same_text; reflexivity|eapply same_number; reflexivity].
Qed.
End Texts.

(** ** The constraints on the written rows *)
Section Written.
Import Relay Unwind UnwindOps.
Context (sha256 : chars -> chars) (commitment : list string -> string) (isStrKey : string -> bool).
(** A digest is 64 lowercase hexadecimal digits; a Stellar address has the form of the column. *)
Context (Hsha : forall l, is_hex 64 (sha256 l) = true).
Context (Hkey : forall s, isStrKey s = true -> is_strkey (chars_of s) = true).
Local Open Scope string_scope.
Local Open Scope list_scope.

Lemma text_check_matching (re : chars -> bool) s : matching re (Str s) = Ok s -> text_check re (Str s) = true.
Proof. intros [_ H]%matching_Ok. exact H. Qed.

Lemma address_check_canonical s : canonicalAddress (Str s) = Ok s -> address_check (Str s) = true.
Proof.
  intros [H Hz]%canonicalAddress_form. unfold address_check, string_matches, test. cbn.
  unfold lower_0x_hex in H. rewrite H. cbn. by rewrite bool_decide_eq_false_2.
Qed.

Lemma hash_check_canonical s : canonicalHash (Str s) = Ok s -> text_check (is_0x_hex 64) (Str s) = true.
Proof. intros H%canonicalHash_form. exact H. Qed.

Lemma index_check z : index z -> integer_check (number z) = true.
Proof. intros [_ H]. unfold integer_check. cbn. by apply Z.leb_le. Qed.

Lemma is_0x_hex_prefix n l : is_0x_hex n l = true -> exists t, l = Hex.prefix ++ t /\ is_hex n t = true.
Proof.
  destruct l as [|a [|b l]]; try done. cbn. intros [Hab H]%andb_prop. exists l.
  apply andb_prop in Hab as [->%Ascii.eqb_eq ->%Ascii.eqb_eq]. done.
Qed.

Lemma last_address_form v : string_matches BYTES32_STRICT_RE v = true -> lower_0x_hex 40 (last_address v) = true.
Proof.
  intros (s & -> & H)%string_matches_Str. apply is_0x_hex_prefix in H as (t & Hs & Ht).
  unfold lower_0x_hex, last_address. rewrite chars_of_string_of. cbn [coerce]. rewrite Hs.
  unfold is_hex in Ht. apply andb_prop in Ht as [Hl Hx]. apply Nat.eqb_eq in Hl.
  rewrite length_app, Hl. change (drop _ (Hex.prefix ++ t)) with (drop 24 t). cbn. unfold is_hex.
  rewrite length_drop, Hl. cbn. rewrite forallb_Forall in *. by apply Forall_drop.
Qed.

Lemma evidence_checked c sw : canonical_proof c -> c#"sourceMessageHex" <> Str "0x" ->
  lower_0x_hex 40 sw = true -> sw <> ZERO_ADDRESS ->
  forallb (fun k => (k.2 : val -> bool) (get (Obj (attached_columns c sw)) k.1)) evidence_checks = true.
Proof.
  intros (u & jc & tx & ep & k' & bn & bh & n & bu & ex & sk & mf & hd & sm & sd & i1 & i2 & i3 & i4 &
    d1 & d2 & d3 & d4 & -> & [] & (Hi1 & Hi2 & Hi3 & Hi4) & Hd1 & Hd2 & Hd3 & Hd4) Hm Hsw Hz.
  set (C := proof_val _ _ _ _ _ _ _ _ _ _ _ _ _ _ _ _ _) in *.
  assert (address_check (Str sw) = true) as Ha.
  { unfold address_check, string_matches, test. cbn. unfold lower_0x_hex in Hsw. rewrite Hsw. cbn.
    by rewrite bool_decide_eq_false_2. }
  assert (text_check message_check (Str sm) = true) as Hms.
  { unfold text_check, string_matches, test. cbn. apply matching_Ok in fk_sm0 as [_ Hre].
    unfold message_check. unfold Unwind.EVEN_HEX_RE in Hre. rewrite Hre. cbn. apply Z.ltb_lt.
    unfold HOOK_DATA_RE in Hre. destruct (Hex.after_0x (chars_of sm)) as [t|] eqn:E; [|done].
    apply Hex.after_0x_Some in E. rewrite E, length_app. destruct t as [|a t]; [|cbn; lia].
    exfalso. apply Hm. change (C#"sourceMessageHex") with (Str sm). f_equal. by apply chars_of_inj. }
  apply forallb_Forall. unfold evidence_checks. repeat apply Forall_cons_2; try apply Forall_nil_2; cbn [fst snd];
    first [ reflexivity | exact (address_check_canonical _ fk_ep0) | exact Ha | exact Hms
          | by apply text_check_matching | by apply hash_check_canonical | by apply index_check ].
Qed.

Lemma digest_form d : lower_hex 64 (string_of (sha256 d)) = true.
Proof. unfold lower_hex. rewrite chars_of_string_of. apply Hsha. Qed.

Lemma expectationDigest_form e g : expectationDigest sha256 e = Ok g -> is_hex 64 g = true.
Proof. unfold expectationDigest. intros H. invert_ok H. apply Hsha. Qed.

Lemma expectation_sender x e : canonicalizeExpectation x = Ok e ->
  string_matches BYTES32_STRICT_RE e#"messageSender" = true.
Proof.
  intros H. assert (e = Obj ((fun k => (k, get x k)) <$> EXPECTATION_KEY_ORDER)) as ->.
  { unfold canonicalizeExpectation in H. by invert_ok H. }
  rewrite get_canonical by set_solver. unfold canonicalizeExpectation in H. invert_ok H. zbool.
  match goal with H : forallb _ bytes32_fields = true |- _ => apply forallb_Forall in H as Hf end.
  rewrite Forall_forall in Hf. apply Hf. set_solver.
Qed.

Lemma text_field_form c k s : get c k = Str s -> text_field c k = s.
Proof. unfold text_field. intros ->. cbn. apply string_of_chars_of. Qed.

Lemma attached_ok j x e digest proof c pt ph et z :
  row_ok j -> awaiting j = true -> created_at (reserved j) <= z ->
  canonicalizeExpectation x = Ok e -> expectationDigest sha256 e = Ok digest ->
  canonicalProof commitment proof e (job_id (reserved j)) (kernel_address (reserved j)) = Ok c ->
  proofDigest sha256 c = Ok ph ->
  candidate_is j (text_field c "userOpHash") (text_field c "unwindTxHash") = true ->
  c#"sourceMessageHex" <> Str "0x" -> last_address e#"messageSender" <> ZERO_ADDRESS ->
  row_ok (set_proof j (proof_row_of c e pt ph et (string_of digest) (unwind_exec_id (job_id (reserved j)))) z).
Proof.
  intros Hj Ha Hz Hx Hdg Hc Hph Hcand Hm Hsw. pose proof (awaiting_unproved j Ha) as Hp.
  destruct (canonicalProof_Ok _ _ _ _ _ _ Hc) as (Hcan & _ & _).
  assert (lower_0x_hex 40 (last_address e#"messageSender") = true) as Hform.
  { by eapply last_address_form, expectation_sender. }
  pose proof (evidence_checked c _ Hcan Hm Hform Hsw) as Hev.
  destruct Hj. unfold awaiting in Ha. apply andb_prop in Ha as [Ha%bool_decide_eq_true _]. rewrite Ha in ro_state0.
  split; try done; cbn.
  - intros c' Hc'. by destruct (ro_cand0 c' Hc').
  - intros p [= <-]. unfold proof_checks. cbn [proof_row_of user_op_hash unwind_tx_hash evidence_columns
      proof_digest expectation_digest relay_exec_id]. rewrite Hev.
    destruct Hcan as (u & jc & tx & ep & k' & bn & bh & n & bu & ex & sk & mf & hd & sm & sd & i1 & i2 & i3 & i4 &
      d1 & d2 & d3 & d4 & -> & [] & _).
    rewrite (text_field_form _ "userOpHash" u), (text_field_form _ "unwindTxHash" tx) in * by reflexivity.
    apply canonicalHash_form in fk_u0, fk_tx0. rewrite fk_u0, fk_tx0. cbn [andb].
    unfold proofDigest in Hph. apply bind_Ok in Hph as (t & _ & [= <-]). unfold tagged_digest. rewrite digest_form.
    unfold lower_hex at 1. rewrite chars_of_string_of, (expectationDigest_form _ _ Hdg).
    rewrite bool_decide_eq_true_2 by done. cbn [andb]. unfold candidate_is in Hcand. by destruct (cand j).
  - split; [done|]. apply ro_state0.
Qed.

Lemma stellar_form h : normalizeMintTxHash BASE_DOMAIN (text h) = Ok h -> lower_hex 64 (string_of h) = true.
Proof.
  unfold normalizeMintTxHash. cbn [Z.eqb BASE_DOMAIN STELLAR_DOMAIN]. unfold lower_hex. rewrite chars_of_string_of.
  intros H. change (stellar_hash (text h) = Ok h) in H. unfold stellar_hash in H. invert_ok H.
  match goal with H : string_matches _ _ = true |- _ => unfold string_matches, test in H end. zbool.
  rewrite coerce_text in *. unfold HEX64_CI_RE, is_hex_ci, toLowerCase in *. rewrite chars_of_string_of in H. congruence.
Qed.

Lemma blocked_public c : c ∈ RELAY_BLOCKED_REASONS -> c ∈ UNWIND_PUBLIC_REASON_CODES.
Proof. revert c. apply Forall_forall. apply (bool_decide_unpack _). vm_compute. exact I. Qed.
Lemma uncertain_public c : c ∈ RELAY_UNCERTAIN_REASONS -> c ∈ UNWIND_PUBLIC_REASON_CODES.
Proof. revert c. apply Forall_forall. apply (bool_decide_unpack _). vm_compute. exact I. Qed.

Lemma projection_ok j p r z : row_ok j -> proof j = Some p -> canonical sha256 r ->
  sourceDomain (ident r) = Some BASE_DOMAIN ->
  created_at (reserved j) <= z -> row_ok (set_projection j (relayProjection r) z).
Proof.
  intros [] Hp Hc Hs Hz. apply canonical_sound in Hc as (_ & _ & _ & Hst).
  assert (match Relay.status r with
    | minted => exists h, mintTxHash r = Some h
    | Relay.blocked | Relay.uncertain => exists c, reasonCode r = Some c /\ c ∈ UNWIND_PUBLIC_REASON_CODES
    | _ => True end /\ forall h, mintTxHash r = Some h -> lower_hex 64 (string_of h) = true) as [Hst' Hmint].
  { destruct Hst as [(Hre & -> & ->)|(source & Hb & Hst)]; [split; [exists legacy; split; [done|set_solver]|done]|].
    assert (source = BASE_DOMAIN) as ->.
    { destruct Hb as (? & ? & ? & ? & ? & Hi & _). rewrite Hi in Hs. by injection Hs. }
    assert (forall h, mint_sound BASE_DOMAIN r -> mintTxHash r = Some h -> lower_hex 64 (string_of h) = true) as Hms.
    { intros h (h' & Hh & Hn) Hh'. assert (h' = h) as -> by congruence. by apply stellar_form. }
    unfold state_sound in Hst. destruct (Relay.status r).
    - split; [done|]. intros h. naive_solver.
    - split; [done|]. intros h. naive_solver.
    - split; [done|]. intros h. naive_solver.
    - split; [done|]. intros h. naive_solver.
    - destruct Hst as (_ & Hm & _). split; [destruct Hm as (h & ? & _); by exists h|]. intros h. by apply Hms.
    - destruct Hst as (_ & Hm & _ & c & Hc & Hin). split; [exists c; split; [done|]; by apply blocked_public|].
      intros h Hh. destruct (decide _); [by apply Hms|congruence].
    - destruct Hst as (_ & Hm & c & Hc & Hin). split; [exists c; split; [done|]; by apply uncertain_public|].
      intros h Hh. destruct Hm; [congruence|by apply Hms]. }
  assert (cand j = cand (set_projection j (relayProjection r) z) /\ lease j = None) as [_ Hl].
  { split; [done|]. destruct (lease j) as [[t e]|]; [|done]. destruct (ro_lease0 t e eq_refl) as (_ & _ & _ & ?). congruence. }
  split; try done; cbn.
  - intros c Hc. destruct (ro_cand0 c Hc). split; [done|]. unfold relayProjection. by destruct (Relay.status r).
  - congruence.
  - intros h Hh. unfold relayProjection in Hh. destruct (Relay.status r); cbn in Hh; try done;
      apply fmap_Some in Hh as (h' & Hh & ->); by apply Hmint.
  - intros c Hc. unfold relayProjection in Hc. destruct (Relay.status r); cbn in Hc; try done;
      destruct Hst' as (c' & ? & ?); congruence.
  - intros t e. congruence.
  - unfold relayProjection. destruct (Relay.status r); cbn; rewrite ?Hp; try done.
    + destruct Hst' as [h ->]. done.
    + destruct Hst' as (c & -> & _). done.
    + destruct Hst' as (c & -> & _). done.
Qed.

Lemma reservation_form i now r : canonical_reservation sha256 isStrKey i now = Ok r ->
  reservation_checks r = true /\ check_reservation sha256 isStrKey r = Ok tt.
Proof.
  unfold canonical_reservation. intros H.
  apply bind_Ok in H as (id & [_ Hid]%matching_Ok & H). apply bind_Ok in H as (cap & [_ Hcap]%matching_Ok & H).
  apply bind_Ok in H as (k & Hk & H). apply bind_Ok in H as (rec & Hrec & H).
  apply bind_Ok in H as (dg & [_ Hdg]%matching_Ok & H). apply bind_Ok in H as (ex & (_ & _ & Hex)%requireTime_Ok & H).
  apply bind_Ok in H as (cx & _ & H). apply bind_Ok in H as (at_ & (_ & _ & Hat)%requireTime_Ok & H).
  destruct (_ || _) eqn:Ht in H; [done|]. apply bind_Ok in H as (t & Htext & H).
  destruct (negb _) eqn:Hd in H; [done|]. injection H as <-. apply negb_false_iff, bool_decide_eq_true in Hd.
  assert (isStrKey rec = true) as Hr.
  { unfold canonicalRecipient, Unwind.invalid in Hrec. destruct (ri_recipientHint i); try done.
    destruct (isStrKey s) eqn:E; [|done]. congruence. }
  apply canonicalAddress_form in Hk as [Hk Hz]. zbool. split.
  - unfold reservation_checks. rewrite !andb_true_iff, !Z.leb_le, Z.ltb_lt, negb_true_iff, bool_decide_eq_false.
    split_and!; try done. by apply Hkey.
  - unfold check_reservation, canonicalRecipient. cbn [recipient_hint job_id kernel_address request_digest reserve_json].
    rewrite Hr. cbn [or_integrity mbind result_bind]. rewrite Htext. cbn [mbind result_bind].
    apply integrity_Ok. by rewrite !bool_decide_eq_true_2.
Qed.

Lemma new_job_ok r : reservation_checks r = true -> row_ok (new_job r).
Proof.
  intros H. split; try done; cbn; lia.
Qed.
End Written.

(** ** Only documented errors *)
Definition documented (e : Unwind.unwind_error) : Prop :=
  match e with
  | Unwind.UNWIND_VALIDATION | Unwind.UNWIND_CONFLICT | Unwind.UNWIND_UNAUTHORIZED
  | Unwind.UNWIND_CAS_CONFLICT | Unwind.RelayError Relay.RELAY_VALIDATION => True
  | _ => False
  end.

(** The computation ends in [Q] or in a documented error. *)
Definition safe {A} (m : result Unwind.unwind_error A) (Q : A -> Prop) : Prop :=
  match m with Ok a => Q a | Throw e => documented e end.

Lemma safe_bind {A B} (k : A -> result Unwind.unwind_error B) m P Q :
  safe m P -> (forall a, m = Ok a -> P a -> safe (k a) Q) -> safe (m ≫= k) Q.
Proof. destruct m; cbn; auto. Qed.

Lemma safe_if {A} (b : bool) (m1 m2 : result Unwind.unwind_error A) Q :
  (b = true -> safe m1 Q) -> (b = false -> safe m2 Q) -> safe (if b then m1 else m2) Q.
Proof. destruct b; auto. Qed.

Section Safe.
Import Relay Ledger Unwind UnwindOps.
Context (sha256 : chars -> chars) (commitment : list string -> string) (isStrKey : string -> bool).
Context (attachFault : string -> bool).
Context (Hsha : forall l, is_hex 64 (sha256 l) = true).
Context (Hkey : forall s, isStrKey s = true -> is_strkey (chars_of s) = true).
Notation perform := (perform sha256 commitment isStrKey attachFault).
Notation select := (select sha256 commitment isStrKey).
Notation selected := (selected sha256 commitment isStrKey).
Notation validateUnwindRow := (validateUnwindRow sha256 commitment isStrKey).
Notation intact := (intact sha256 commitment isStrKey).

(** The clock has not gone back behind the creation of a job. *)
Definition timely (d : db) (now : num) : Prop :=
  forall id j z, jobs d !! id = Some j -> now = Num z -> created_at (reserved j) <= z.

Lemma matching_safe re v : safe (matching re v) (fun s => v = Str s /\ re (chars_of s) = true).
Proof. unfold matching, Unwind.invalid. destruct v; try done. by case_match. Qed.

Lemma canonicalHash_safe v : safe (canonicalHash v) (fun s => lower_0x_hex 64 s = true).
Proof.
  destruct (canonicalHash v) as [s|e] eqn:H; [by eapply canonicalHash_form|]. unfold canonicalHash in H.
  apply bind_Throw in H as [H|(? & _ & H)]; [|done]. pose proof (matching_safe HASH_RE v) as Hs. by rewrite H in Hs.
Qed.

Lemma canonicalAddress_safe v : safe (canonicalAddress v) (fun _ => True).
Proof.
  unfold canonicalAddress. eapply safe_bind; [apply matching_safe|]. intros s _ _. by case_decide.
Qed.

Lemma requireTime_safe now : safe (requireTime now) (fun z => now = Num z /\ 0 <= z).
Proof. unfold requireTime, Unwind.invalid. destruct now; try done. case_match; [|done]. by zbool. Qed.

Lemma require_positive_safe n : safe (require_positive n) (fun z => 0 < z).
Proof. unfold require_positive, Unwind.invalid. destruct n; try done. case_match; [|done]. by zbool. Qed.

Lemma required_token_safe v : safe (required_token v) (fun t => t <> EmptyString).
Proof. unfold required_token, Unwind.invalid. destruct v; try done. by case_decide. Qed.

Lemma optional_token_safe v : safe (optional_token v) (fun _ => True).
Proof. unfold optional_token, Unwind.invalid. by destruct v. Qed.

Lemma leaseTokenValue_safe v : safe (leaseTokenValue v) (fun t => t <> EmptyString).
Proof. unfold leaseTokenValue. destruct v; try done. by case_decide. Qed.

Lemma select_safe d id : intact d -> safe (select d id) (fun o => o = jobs d !! id).
Proof.
  intros Hd. unfold UnwindOps.select. destruct (jobs d !! id) as [j|] eqn:Hj; [|done].
  by rewrite (in_rows _ _ _ _ Hd _ _ Hj).
Qed.

Lemma selected_safe d id j : jobs d !! id = Some j -> validateUnwindRow (work d) j = Ok j ->
  safe (selected d id) (fun j' => j' = j).
Proof. intros Hj Hv. unfold UnwindOps.selected, UnwindOps.select. by rewrite Hj, Hv. Qed.

Lemma unique_kept d id j j' : intact d -> jobs d !! id = Some j -> proof j' = proof j -> reserved j' = reserved j ->
  unique_user_op d j' = true.
Proof.
  intros Hd Hj Hp Hr. unfold unique_user_op. rewrite Hp, Hr. destruct (proof j) as [p|] eqn:Hpj; [|done].
  apply negb_true_iff, not_true_iff_false. intros (k & Hin & Hk)%existsb_exists.
  apply list_elem_of_In, list_elem_of_fmap in Hin as ([id' k'] & -> & Hin). apply elem_of_map_to_list in Hin. cbn in Hk.
  apply andb_prop in Hk as [Hn Hs]. apply negb_true_iff, bool_decide_eq_false in Hn. apply Hn.
  pose proof (t_keyed _ (in_table _ _ _ _ Hd)) as Hkd. rewrite (Hkd _ _ Hin), (Hkd _ _ Hj).
  unfold same_user_op in Hs. destruct (proof k') as [p'|] eqn:Hp'; [|done]. apply bool_decide_eq_true in Hs.
  by eapply (in_unique _ _ _ _ Hd).
Qed.

Lemma write_safe d j : row_ok j -> unique_user_op d j = true ->
  safe (write d j) (fun d' => d' = put_job d (job_id (reserved j)) j).
Proof. intros Hr%row_checks_ok Hu. unfold write. by rewrite Hr, Hu. Qed.

Lemma update_safe d id cond f : table d -> (forall j, reserved (f j) = reserved j) ->
  (forall j, jobs d !! id = Some j -> cond j = true -> row_ok (f j) /\ unique_user_op d (f j) = true) ->
  safe (update d id cond f) (fun p => p = (false, d) \/
    exists j, jobs d !! id = Some j /\ cond j = true /\ p = (true, put_job d id (f j))).
Proof.
  intros [Hk _] Hf Hok. unfold update. destruct (jobs d !! id) as [j|] eqn:Hj; [|by left].
  destruct (cond j) eqn:Hc; [|by left]. destruct (Hok j eq_refl Hc) as [Hr Hu].
  eapply safe_bind; [by apply write_safe|]. intros d' _ ->. cbn. right. exists j. by rewrite Hf, (Hk _ _ Hj).
Qed.

(** The row of an intact database meets its constraints. *)
Lemma intact_row d id j : intact d -> jobs d !! id = Some j -> row_ok j.
Proof. intros Hd Hj. apply row_checks_ok. exact (t_checked _ (in_table _ _ _ _ Hd) _ _ Hj). Qed.

(** An update that keeps the proof absent, and reads the row back. *)
Lemma update_select_safe {A} d id cond f (k : job -> db -> A) e :
  intact d -> (forall j, reserved (f j) = reserved j) -> documented e ->
  (forall j, jobs d !! id = Some j -> cond j = true -> row_ok (f j) /\ proof (f j) = None /\ proof j = None) ->
  safe (p ← update d id cond f; if negb p.1 then Throw e else j ← selected p.2 id; Ok (k j p.2)) (fun _ => True).
Proof.
  intros Hd Hf He Hok. eapply safe_bind.
  - apply update_safe; [apply Hd|done|]. intros j Hj Hc. destruct (Hok j Hj Hc) as (Hr & Hp & Hp0). split; [done|].
    eapply unique_kept; [done|done|congruence|done].
  - intros p _ [->|(j & Hj & Hc & ->)]; [done|]. cbn [fst snd negb]. destruct (Hok j Hj Hc) as (Hr & Hp & Hp0).
    eapply safe_bind; [|by intros]. apply (selected_safe _ _ (f j)); [cbn; by rewrite lookup_insert_eq|].
    eapply (validate_unproved sha256 commitment isStrKey _ _ j); [done|done|]. by eapply in_rows.
Qed.

(** The error of a call, if any, is documented. *)
Definition fine (r : option unwind_error * db) : Prop :=
  match r.1 with Some e => documented e | None => True end.

Lemma transaction_fine {A} d (m : result unwind_error (A * db)) :
  safe m (fun _ => True) -> fine (error_of (transaction d m)).
Proof. unfold fine. by destruct m. Qed.

Lemma json_reserve_safe a b c : safe (reserveJson a b c) (fun _ => True).
Proof.
  unfold reserveJson. rewrite json_wire; [done|]. apply wire_obj; [reflexivity|].
  repeat apply Forall_cons_2; try apply Forall_nil_2; constructor.
Qed.

Lemma canonical_reservation_safe i now : safe (canonical_reservation sha256 isStrKey i now) (fun _ => True).
Proof.
  unfold canonical_reservation, canonicalJobId, canonicalDigest.
  eapply safe_bind; [apply matching_safe|intros id _ _]. eapply safe_bind; [apply matching_safe|intros cap _ _].
  eapply safe_bind; [apply canonicalAddress_safe|intros k _ _].
  eapply (safe_bind _ _ (fun _ => True)); [unfold canonicalRecipient, Unwind.invalid; destruct (ri_recipientHint i); try done; by case_match|].
  intros rec _ _. eapply safe_bind; [apply matching_safe|intros dg _ _].
  do 3 (eapply safe_bind; [apply requireTime_safe|intros ? _ _]). apply safe_if; [done|intros _].
  eapply safe_bind; [apply json_reserve_safe|intros t _ _]. by apply safe_if.
Qed.

Lemma reserve_fine d i now : intact d -> fine (perform d (Reserve i now)).
Proof.
  intros Hd. apply transaction_fine. eapply safe_bind; [apply canonical_reservation_safe|].
  intros r Hr _. destruct (reservation_form _ _ Hkey _ _ _ Hr) as [Hc Hv].
  eapply safe_bind; [by apply select_safe|]. intros [j|] _ Ho.
  - repeat (apply safe_if; intros); done.
  - eapply safe_bind; [by apply write_safe; [apply new_job_ok|]|]. intros d' _ ->.
    eapply safe_bind; [|by intros]. apply (selected_safe _ _ (new_job r)).
    + cbn. by rewrite lookup_insert_eq.
    + apply validate_Ok. split; [exact Hv|done].
Qed.

Lemma awaiting_state j : awaiting j = true -> is_awaiting j = true /\ proof j = None.
Proof. intros H. split; [|by apply awaiting_unproved]. unfold awaiting in H. by apply andb_prop in H as [? _]. Qed.

Lemma take_lease_fine d id token z ms retry cond f :
  intact d -> timely d (Num z) -> token <> EmptyString -> 0 <= z ->
  (forall j, reserved (f j) = reserved j) ->
  (forall j, jobs d !! id = Some j -> cond j = true -> awaiting j = true /\ row_ok (f j) /\ awaiting (f j) = true) ->
  safe (take_lease sha256 commitment isStrKey d id token z ms retry cond f) (fun _ => True).
Proof.
  intros Hd Ht Htok Hz Hf Hc. unfold take_lease. apply safe_if; [done|intros _]. apply safe_if; [done|intros Hle].
  apply (update_select_safe d id cond _ (fun j d => (Some (claim_of j), d)) UNWIND_CAS_CONFLICT); [done|done|done|].
  intros j Hj Hcj. destruct (Hc j Hj Hcj) as (Ha & Hr & Ha'). split_and!; [|by apply awaiting_unproved|by apply awaiting_unproved].
  apply row_lease_ok; [by apply attempt_ok|cbn; rewrite Hf; by eapply Ht|].
  intros t e [= <- <-]. zbool. split_and!; [done|lia|done].
Qed.

Lemma claim_fine d id u t now ms retry tok : intact d -> timely d now ->
  fine (perform d (ClaimEvidence id u t now ms retry tok)).
Proof.
  intros Hd Ht. apply transaction_fine. unfold canonicalJobId.
  eapply safe_bind; [apply matching_safe|intros id' _ _]. eapply safe_bind; [apply canonicalHash_safe|intros userOp _ Hu].
  eapply safe_bind; [apply canonicalHash_safe|intros tx _ Hx]. eapply safe_bind; [apply requireTime_safe|intros z _ [-> Hz]].
  eapply safe_bind; [apply require_positive_safe|intros ms' _ Hms]. eapply safe_bind; [apply require_positive_safe|intros re _ Hre].
  eapply safe_bind; [apply leaseTokenValue_safe|intros token _ Htok]. eapply safe_bind; [by apply select_safe|].
  intros [j|] _ Hj; [|done]. symmetry in Hj. apply safe_if; [done|intros _]. destruct (cand j) as [c|] eqn:Hc.
  - apply safe_if; [done|intros _]. apply take_lease_fine; try done.
    intros k Hk Hck. zbool. split_and!; try done. by eapply intact_row.
  - apply safe_if; [done|intros Hexp]. apply take_lease_fine; try done.
    intros k Hk Hck. zbool. assert (k = j) as -> by congruence. pose proof (intact_row _ _ _ Hd Hj) as Hrow.
    split_and!; [done| |done]. apply candidate_ok; [done|by eapply Ht|done|].
    pose proof (ro_reserved _ Hrow) as Hres. unfold reservation_checks in Hres. zbool.
    unfold candidate_checks. cbn. rewrite Hu, Hx. cbn. rewrite andb_true_iff, Z.leb_le, Z.ltb_lt. cbv beta in *. lia.
Qed.

Lemma renew_fine d id t now ms : intact d -> timely d now -> fine (perform d (RenewEvidence id t now ms)).
Proof.
  intros Hd Ht. apply transaction_fine. unfold canonicalJobId.
  eapply safe_bind; [apply matching_safe|intros id' _ _]. eapply safe_bind; [apply requireTime_safe|intros z _ [-> Hz]].
  eapply safe_bind; [apply required_token_safe|intros token _ Htok]. eapply safe_bind; [apply require_positive_safe|intros ms' _ Hms].
  eapply safe_bind; [apply update_safe; [apply Hd|done|]|].
  - intros j Hj Hc. zbool. pose proof (intact_row _ _ _ Hd Hj) as Hrow. split.
    + apply row_lease_ok; [done|by eapply Ht|]. intros t' e He.
      match goal with H : leased _ _ _ = true |- _ => apply leased_token in H as (e0 & Hl & _) end.
      rewrite Hl in He. cbn in He. destruct (cand j) as [c|]; [|done]. injection He as <- <-.
      cbv beta in *. zbool. split_and!; [done|lia|done].
    + by eapply unique_kept.
  - intros p _ [->|(j & Hj & _ & ->)]; cbn; [done|]. by rewrite lookup_insert_eq.
Qed.

Lemma release_fine d id t now : intact d -> timely d now -> fine (perform d (ReleaseEvidence id t now)).
Proof.
  intros Hd Ht. cbn [UnwindOps.perform]. unfold releaseEvidence.
  set (m := canonicalJobId id ≫= _).
  assert (safe m (fun x => exists j, jobs x.2 !! x.1 = Some j /\ validateUnwindRow (work x.2) j = Ok j)) as Hm.
  { subst m. unfold canonicalJobId. eapply safe_bind; [apply matching_safe|intros id' _ _].
    eapply safe_bind; [apply requireTime_safe|intros z _ [-> Hz]]. eapply safe_bind; [apply required_token_safe|intros token _ _].
    eapply safe_bind; [apply update_safe; [apply Hd|done|]|].
    - intros j Hj Hc. zbool. split; [|by eapply unique_kept]. apply row_lease_ok; [by eapply intact_row|by eapply Ht|done].
    - intros p _ [->|(j & Hj & Hc & ->)]; cbn; [done|]. zbool. exists (set_lease j None z).
      split; [by rewrite lookup_insert_eq|].
      eapply (validate_unproved sha256 commitment isStrKey _ _ j); [by apply (awaiting_unproved j)|done|]. by eapply in_rows. }
  destruct m as [[id' d']|e]; [|done]. destruct Hm as (j & Hj & Hv). cbn in *.
  pose proof (selected_safe _ _ _ Hj Hv) as Hs. unfold fine. cbn. by destruct (selected d' id').
Qed.

Lemma finish_fine d id t re now s reasons : intact d -> timely d now -> s = blocked \/ s = uncertain ->
  (forall c, c ∈ reasons -> c ∈ UNWIND_PUBLIC_REASON_CODES) ->
  fine (error_of (finishTerminal sha256 commitment isStrKey d id t re now s reasons)).
Proof.
  intros Hd Ht Hs Hre. apply transaction_fine. unfold canonicalJobId.
  eapply safe_bind; [apply matching_safe|intros id' _ _]. eapply safe_bind; [apply requireTime_safe|intros z _ [-> Hz]].
  eapply safe_bind; [apply optional_token_safe|intros token _ _].
  eapply (safe_bind _ _ (fun c => c ∈ reasons)); [destruct re; try done; case_match eqn:E; [by apply bool_decide_eq_true in E|done]|].
  intros reason _ Hin. eapply safe_bind; [by apply select_safe|]. intros [j|] _ Hj; [|done].
  apply safe_if; [done|intros _]. apply safe_if; [done|intros _].
  apply (update_select_safe d id' _ _ (fun j d => (publicStatus j, d)) UNWIND_CAS_CONFLICT); [done|done|done|].
  intros k Hk Hc. apply andb_prop in Hc as [[Ha Hp]%awaiting_state _]. split_and!; [|done|done].
  apply ended_ok; [by eapply intact_row|by eapply Ht|done|]. destruct Hs as [-> | ->]; eauto.
Qed.

(** *** Reconciliation *)
Lemma validate_same w j j' : reserved j' = reserved j -> proof j' = proof j -> jstate j' = jstate j ->
  mint_tx_hash j' = mint_tx_hash j -> reason_code j' = reason_code j ->
  validateUnwindRow w j = Ok j -> validateUnwindRow w j' = Ok j'.
Proof.
  intros Hr Hp Hs Hm Hre [H1 H2]%validate_Ok. apply validate_Ok. rewrite Hr, Hp. split; [done|].
  intros p Hpp. destruct (H2 p Hpp) as [Hc (r & Hr' & [])%check_relay_Ok]. split; [done|].
  apply check_relay_Ok. exists r. split; [done|]. split; rewrite ?Hs; try done.
  unfold agrees. rewrite Hs, Hm, Hre. done.
Qed.

Lemma intact_put d id j j' : intact d -> jobs d !! id = Some j -> reserved j' = reserved j -> proof j' = proof j ->
  row_ok j' -> validateUnwindRow (work d) j' = Ok j' -> intact (put_job d id j').
Proof.
  intros [[Hk Hc] Hw Hcan Hr Hu] Hj Hres Hp Hok Hv. split; cbn [put_job jobs work]; try done.
  - split; (apply map_Forall_insert_2; [|done]); [rewrite Hres; by apply Hk|by apply row_checks_ok].
  - by apply map_Forall_insert_2.
  - intros id1 id2 j1 j2 p1 p2 H1 H2 Hp1 Hp2 He.
    assert (forall i k q, <[id:=j']> (jobs d) !! i = Some k -> proof k = Some q -> exists k', jobs d !! i = Some k' /\ proof k' = Some q) as Hback.
    { intros i k q Hi Hq. destruct (decide (i = id)) as [->|Hn].
      - rewrite lookup_insert_eq in Hi. injection Hi as <-. exists j. split; [done|congruence].
      - rewrite lookup_insert_ne in Hi by done. by exists k. }
    destruct (Hback _ _ _ H1 Hp1) as (k1 & ? & ?), (Hback _ _ _ H2 Hp2) as (k2 & ? & ?). by eapply Hu.
Qed.

Lemma timely_put d id j j' now : timely d now -> jobs d !! id = Some j -> reserved j' = reserved j ->
  timely (put_job d id j') now.
Proof.
  intros Ht Hj Hr i k z Hk Hz. cbn in Hk. destruct (decide (i = id)) as [->|Hn].
  - rewrite lookup_insert_eq in Hk. injection Hk as <-. rewrite Hr. by eapply Ht.
  - rewrite lookup_insert_ne in Hk by done. by eapply Ht.
Qed.

Lemma expire_ok d id j z : intact d -> timely d (Num z) -> jobs d !! id = Some j ->
  row_ok (expire z j) /\ validateUnwindRow (work d) (expire z j) = Ok (expire z j) /\ proof (expire z j) = proof j.
Proof.
  intros Hd Ht Hj. pose proof (intact_row _ _ _ Hd Hj) as Hrow. pose proof (in_rows _ _ _ _ Hd _ _ Hj) as Hv. cbn in Hv.
  unfold expire. destruct (is_awaiting j && overdue j z) eqn:Ho.
  - apply andb_prop in Ho as [Ha Ho].
    assert (jstate j = awaiting_burn /\ proof j = None /\ reason_code j = None) as (Hs & Hp & Hre).
    { apply bool_decide_eq_true in Ha. pose proof (ro_state _ Hrow) as Hst. rewrite Ha in Hst. done. }
    destruct (cand j) as [c|] eqn:Hc; (split; [|split; [by eapply (validate_unproved sha256 commitment isStrKey _ _ j)|done]]);
      (apply ended_ok; [done|by eapply Ht|done|]); [exists "submission_unknown"; split; [done|set_solver]|done].
  - split; [|split; [by apply (validate_same _ j)|done]]. apply row_lease_ok; [done|by eapply Ht|done].
Qed.

Lemma expire_all_safe z ids d : intact d -> timely d (Num z) ->
  safe (expire_all z ids d) (fun d' => intact d' /\ forall id, is_Some (jobs d !! id) -> is_Some (jobs d' !! id)).
Proof.
  revert d. induction ids as [|i ids IH]; intros d Hd Ht; cbn [expire_all]; [done|].
  eapply safe_bind; [apply update_safe; [apply Hd|apply reserved_expire|]|].
  - intros j Hj _. destruct (expire_ok d i j z Hd Ht Hj) as (Hr & _ & Hp). split; [done|].
    eapply unique_kept; [done|done|done|apply reserved_expire].
  - intros p _ [->|(j & Hj & _ & ->)]; [by apply IH|]. cbn [snd]. destruct (expire_ok d i j z Hd Ht Hj) as (Hr & Hv & Hp).
    assert (intact (put_job d i (expire z j))) as Hd' by (eapply intact_put; [done|done|apply reserved_expire|done..]).
    pose proof (IH _ Hd' (timely_put _ _ _ _ _ Ht Hj (reserved_expire z j))) as HI.
    destruct (expire_all z ids _) as [d'|]; [|done]. destruct HI as [Hi Hk]. split; [done|]. intros id Hid. apply Hk. cbn.
    destruct (decide (id = i)) as [->|Hn]; [by rewrite lookup_insert_eq|by rewrite lookup_insert_ne].
Qed.

Lemma map_throw_safe {A B} (f : A -> result unwind_error B) l :
  (forall x, x ∈ l -> safe (f x) (fun _ => True)) -> safe (map_throw f l) (fun _ => True).
Proof.
  induction l as [|x l IH]; intros Hl; [done|]. cbn. eapply safe_bind; [apply Hl; left|intros y _ _].
  eapply safe_bind; [apply IH; intros; apply Hl; by right|by intros].
Qed.

Lemma reconcile_fine d now limit : intact d -> timely d now -> fine (perform d (ReconcileExpired now limit)).
Proof.
  intros Hd Ht. apply transaction_fine. eapply safe_bind; [apply requireTime_safe|intros z _ [-> Hz]].
  eapply safe_bind; [apply require_positive_safe|intros l _ Hl]. eapply safe_bind; [by apply expire_all_safe|].
  intros d' _ [Hd' Hk]. eapply safe_bind; [|by intros]. apply map_throw_safe. intros id Hin.
  apply list_elem_of_fmap in Hin as (j & -> & (_ & id & Hj)%query_In).
  rewrite (t_keyed _ (in_table _ _ _ _ Hd) _ _ Hj). destruct (Hk id) as [j' Hj']; [by exists j|].
  pose proof (selected_safe d' id j' Hj' (in_rows _ _ _ _ Hd' _ _ Hj')) as Hs. by destruct (selected d' id).
Qed.

Lemma settle_overdue_safe d id j z : intact d -> timely d (Num z) -> jobs d !! id = Some j ->
  safe (settle_overdue sha256 commitment isStrKey d j z) (fun s => s = (j, d) \/ proof s.1 = None).
Proof.
  intros Hd Ht Hj. unfold settle_overdue. apply safe_if; [intros Hc|by left].
  rewrite (t_keyed _ (in_table _ _ _ _ Hd) _ _ Hj). zbool.
  eapply safe_bind; [apply update_safe; [apply Hd|by intros k; destruct (cand k)|]|].
  - intros k Hk Hck. assert (k = j) as -> by congruence. zbool. split.
    + pose proof (intact_row _ _ _ Hd Hj) as Hrow.
      destruct (cand j) eqn:E; (apply ended_ok; [done|by eapply Ht|done|]); [eexists; split; [done|set_solver]|done].
    + eapply unique_kept; [done|done| |]; by destruct (cand j).
  - assert (proof j = None) as Hp.
    { apply checked_awaiting; [exact (t_checked _ (in_table _ _ _ _ Hd) _ _ Hj)|done]. }
    intros p _ [->|(k & Hk & _ & ->)]; cbn [snd].
    + eapply safe_bind; [by eapply selected_safe; [|by eapply in_rows]|]. intros j' _ ->. by left.
    + assert (k = j) as -> by congruence. eapply safe_bind.
      * eapply selected_safe; [cbn; by rewrite lookup_insert_eq|].
        eapply (validate_unproved sha256 commitment isStrKey _ _ j); [by destruct (cand j)|by destruct (cand j)|by eapply in_rows].
      * intros j' _ ->. right. cbn. by destruct (cand j).
Qed.

Lemma cctpRecord_safe r : safe (cctpRecord sha256 r) (fun r' => r' = r /\ forall x, r = Some x -> canonical sha256 x).
Proof.
  unfold cctpRecord, validatedCctpRow. destruct r as [r|]; [|done].
  destruct (assertCanonicalRelayRecord _ _) as [x|] eqn:E; [|done]. split; [done|]. intros y [= <-].
  unfold canonical. by apply checks_record in E as E'; destruct E' as [-> _].
Qed.

Lemma cctp_fine d id now : intact d -> timely d now -> fine (perform d (ReconcileFromCctp id now)).
Proof.
  intros Hd Ht. apply transaction_fine. unfold canonicalJobId.
  eapply safe_bind; [apply matching_safe|intros id' _ _]. eapply safe_bind; [apply requireTime_safe|intros z _ [-> Hz]].
  eapply (safe_bind _ _ (fun o => o = jobs d !! id')).
  { pose proof (select_safe d id' Hd) as Hs. by destruct (select d id'). }
  intros [j|] _ Hj; [|done]. symmetry in Hj. eapply safe_bind; [by eapply settle_overdue_safe|].
  intros [j' d'] _ [[= -> ->]|Hp]; [|cbn in Hp; by rewrite Hp].
  destruct (proof j) as [p|] eqn:Hp; [|done]. apply safe_if; [done|intros _].
  eapply safe_bind; [apply cctpRecord_safe|]. intros r _ [-> Hcan]. destruct (work d !! relay_exec_id p) as [r|] eqn:Hw; [|done].
  apply safe_if; [done|intros _]. apply safe_if; [intros _; by apply safe_if|intros Hs].
  apply safe_if; [done|intros Hrg].
  assert (row_ok (set_projection j (relayProjection r) (Z.max z (updated_at j)))) as Hrow.
  { pose proof (in_rows _ _ _ _ Hd _ _ Hj) as Hv. cbn in Hv. apply validate_Ok in Hv as [_ Hv].
    destruct (Hv p Hp) as [_ (r' & Hr' & Hf)%check_relay_Ok]. assert (r' = r) as -> by congruence.
    pose proof (intact_row _ _ _ Hd Hj) as Hrow. eapply (projection_ok sha256 isStrKey Hsha Hkey); [done|exact Hp|by apply Hcan|apply Hf|].
    pose proof (ro_updated _ Hrow). lia. }
  eapply safe_bind; [apply update_safe; [apply Hd|done|]|].
  - intros k Hk _. assert (k = j) as -> by congruence. split; [done|]. by eapply unique_kept.
  - intros u _ Hu. eapply (safe_bind _ _ (fun _ => True)); [|by intros].
    destruct Hu as [->|(k & Hk & _ & ->)]; cbn [snd].
    + pose proof (selected_safe d id' j Hj (in_rows _ _ _ _ Hd _ _ Hj)) as Hsel. by destruct (selected d id').
    + assert (k = j) as -> by congruence.
      pose proof (selected_safe (put_job d id' (set_projection j (relayProjection r) (Z.max z (updated_at j)))) id' _
        (lookup_insert_eq _ _ _)) as Hsel.
      specialize (Hsel (projected_valid _ _ _ _ _ _ _ _ Hp Hw (in_rows _ _ _ _ Hd _ _ Hj))). by destruct (selected _ id').
Qed.
End Safe.
