(* ===== verification/UnwindAttach.v ===== *)
(** * Attaching the proof of the burn

    Which errors [attachAndEnqueue] can end in, and the theorem that a reachable store fails no
    integrity check and breaks no constraint of its table. *)
From S2P Require Import Prelude JsString JsValue Json Hex RelayStore RelayLedger RelayCanonical.
From S2P Require Import UnwindStore UnwindOps UnwindRows UnwindSafety UnwindErrors.
Local Open Scope Z_scope.

Section Attach.
Import Relay Ledger Unwind UnwindOps.
Context (sha256 : chars -> chars) (commitment : list string -> string) (isStrKey : string -> bool).
Context (attachFault : string -> bool).
Context (Hsha : forall l, is_hex 64 (sha256 l) = true).
Context (Hkey : forall s, isStrKey s = true -> is_strkey (chars_of s) = true).
Notation perform := (perform sha256 commitment isStrKey attachFault).
Notation select := (select sha256 commitment isStrKey).
Notation selected := (selected sha256 commitment isStrKey).
Notation validateUnwindRow := (validateUnwindRow sha256 commitment isStrKey).
Notation intact := (intact sha256 commitment isStrKey).
Local Open Scope string_scope.
Local Open Scope list_scope.

(** ** The proof *)

(** What the evidence of the caller is: a message, its digest, and a sender that is an address. *)
Definition sound_evidence (i : attach_input) : Prop :=
  (ai_proof i)#"sourceMessageHex" <> Str "0x" /\
  (ai_proof i)#"sourceMessageDigest"
    = Str (string_of (sha256 (Hex.from_hex (drop 2 (coerce (ai_proof i)#"sourceMessageHex"))))) /\
  last_address (ai_expectation i)#"messageSender" <> ZERO_ADDRESS.

Lemma canonical_message p e id k c : canonicalProof commitment p e id k = Ok c ->
  c#"sourceMessageHex" = p#"sourceMessageHex" /\ c#"sourceMessageDigest" = p#"sourceMessageDigest".
Proof.
  unfold canonicalProof. intros H. destruct (_ || _) in H; [done|]. destruct (_ || _) in H; [done|].
  apply bind_Ok in H as (li & _ & H). apply bind_Ok in H as (ld & _ & H).
  apply bind_Ok in H as (c' & Hc & H). apply bind_Ok in H as (id' & _ & H).
  destruct (proof_binds _ _ _ _); [|done]. injection H as ->.
  unfold canonical_fields, object in Hc. destruct (fields _) as [fs|] eqn:Hf; [|done]. injection Hc as <-.
  cbn [fields] in Hf.
  repeat match type of Hf with
    | _ ≫= _ = Ok _ => apply bind_Ok in Hf as (? & ?E & Hf)
    end.
  repeat match goal with E : _ ≫= _ = Ok _ |- _ => apply bind_Ok in E as (? & ? & E) end.
  repeat match goal with
    | E : Ok _ = Ok _ |- _ => injection E as <-
    | E : str _ = Ok _ |- _ => apply str_Ok in E as (? & ?Hs & ->)
    end.
  repeat match goal with Hm : canonicalEvenHex _ = Ok _ |- _ => apply matching_Ok in Hm as [? _] end.
  repeat match goal with Hm : canonicalDigest _ = Ok _ |- _ => apply matching_Ok in Hm as [? _] end.
  match goal with
  | Hm : p#"sourceMessageHex" = _, Hd : p#"sourceMessageDigest" = _ |- _ => rewrite Hm, Hd
  end. split; reflexivity.
Qed.

Lemma canonical_sender x e : canonicalizeExpectation x = Ok e -> e#"messageSender" = x#"messageSender".
Proof.
  intros H. assert (e = Obj ((fun k => (k, get x k)) <$> EXPECTATION_KEY_ORDER)) as ->.
  { unfold canonicalizeExpectation in H. by invert_ok H. }
  apply get_canonical. unfold EXPECTATION_KEY_ORDER. set_solver.
Qed.

Lemma map_safe {A B} (f : A -> result unwind_error B) l :
  (forall x, safe (f x) (fun _ => True)) -> safe (map_throw f l) (fun _ => True).
Proof. intros H. by apply map_throw_safe. Qed.

Lemma str_safe m : safe m (fun _ => True) -> safe (str m) (fun _ => True).
Proof. by destruct m. Qed.

Lemma object_safe (l : list (string * result unwind_error val)) :
  Forall (fun f => safe f.2 (fun _ => True)) l -> safe (object l) (fun _ => True).
Proof.
  intros H. unfold object. assert (safe (fields l) (fun _ => True)) as Hf; [|by destruct (fields l)].
  induction H as [|[k m] l Hm H IH]; [done|]. cbn [fields]. cbn in Hm.
  eapply safe_bind; [exact Hm|intros v _ _]. eapply safe_bind; [exact IH|by intros].
Qed.

Lemma canonicalProof_safe p e id k : safe (canonicalProof commitment p e id k) (fun _ => True).
Proof.
  assert (forall re v, safe (matching re v) (fun _ => True)) as Hm.
  { intros re v. pose proof (matching_safe re v). by destruct (matching re v). }
  assert (forall v, safe (canonicalHash v) (fun _ => True)) as Hh.
  { intros v. pose proof (canonicalHash_safe v). by destruct (canonicalHash v). }
  unfold canonicalProof. apply safe_if; [done|intros _]. apply safe_if; [done|intros _].
  eapply safe_bind; [apply map_safe; intros n; unfold log_index; by apply safe_if|intros li _ _].
  eapply safe_bind; [apply map_safe; intros n; unfold log_digest; eapply safe_bind; [apply Hm|by intros]|intros ld _ _].
  eapply safe_bind; [|intros c _ _; eapply safe_bind; [apply Hm|intros; by apply safe_if]].
  unfold canonical_fields. apply object_safe.
  repeat apply Forall_cons_2; try apply Forall_nil_2; cbn [snd]; try exact I;
    first [apply str_safe, Hh | apply str_safe, Hm | apply str_safe, canonicalAddress_safe].
Qed.

(** ** The relay work *)
Lemma stringify_expectation x e : canonicalizeExpectation x = Ok e -> e#"direction" = Str "base-to-stellar" ->
  JSON.stringify e = Ok (Some (print e)).
Proof. intros Hx Hd. apply stringify_wire. by eapply expectation_wire. Qed.

Lemma or_conflict_safe {A} (m : result relay_error A) Q :
  match m with Ok a => Q a | Throw e => e = RELAY_VALIDATION \/ e = RELAY_ENQUEUE_CONFLICT end ->
  safe (or_conflict m) Q.
Proof. destruct m as [a|e]; cbn; [done|]. by intros [-> | ->]. Qed.

(** A hash in canonical form is the hash of a burn on Base. *)
Lemma hash_burn tx : canonicalHash (Str tx) = Ok tx -> base_hash (Str tx) = Ok (chars_of tx).
Proof.
  unfold canonicalHash. intros H. apply bind_Ok in H as (s & [Hs Hre]%matching_Ok & [= Hl]). injection Hs as <-.
  unfold HASH_RE, is_0x_hex_ci in Hre. unfold base_hash.
  destruct (Hex.after_0x (chars_of tx)) as [l|]; [|done]. unfold HEX64_CI_RE. rewrite Hre.
  by rewrite <- chars_lower_string, Hl.
Qed.

Lemma enqueue_safe x e digest existing conflicts id tx z :
  canonicalizeExpectation x = Ok e -> e#"direction" = Str "base-to-stellar" -> e#"sourceDomain" = number 6 ->
  expectationDigest sha256 e = Ok digest -> canonicalHash (Str tx) = Ok tx -> id <> EmptyString -> 0 <= z ->
  safe (or_conflict (relayEnqueueDecision sha256 existing conflicts id (number 6) (Str tx) e (Num z)))
    (fun q => q.2 = true -> existing = None /\
       relayEnqueueDecision sha256 None conflicts id (number 6) (Str tx) e (Num z) = Ok q /\
       ident q.1 = {| execId := id; sourceDomain := Some 6; burnTxHash := Some (chars_of tx);
                      expectation := Some e; expectationDigest_ := Some digest; createdAt := z |} /\
       Relay.status q.1 = attestation_pending).
Proof.
  intros Hx Hd Hs Hdg Htx Hid Hz. apply or_conflict_safe. unfold relayEnqueueDecision.
  rewrite decide_False by done. cbn [normalizeSourceDomain strict_eq].
  change (normalizeSourceDomain (number 6)) with (Ok 6 : result relay_error Z). cbn [mbind result_bind].
  rewrite (canonicalizeExpectation_idem _ _ Hx). cbn [mbind result_bind]. rewrite Hdg. cbn [mbind result_bind].
  destruct existing as [r|].
  - destruct (_ || _); [by right|done].
  - rewrite Hs. change (negb (strict_eq (number 6) (number 6))) with false. cbn match.
    change (normalizeBurnTxHash 6 (Str tx)) with (base_hash (Str tx)). rewrite (hash_burn _ Htx).
    cbn [mbind result_bind]. destruct (conflicts _ _ _); [by right|].
    unfold relayNewPendingRecord, requireNow. destruct (isSafeInteger (Num z)); cbn; [by rewrite decide_False|by left].
Qed.

(** *** The candidate of the row and its lease *)
Lemma bind_candidate_safe d j token u tx z : intact d -> timely d (Num z) ->
  jobs d !! job_id (reserved j) = Some j -> awaiting j = true -> 0 <= z ->
  lower_0x_hex 64 u = true -> lower_0x_hex 64 tx = true ->
  safe (bind_candidate sha256 commitment isStrKey d j token u tx z) (fun b =>
    intact b.2 /\ timely b.2 (Num z) /\ reserved b.1 = reserved j /\
    jobs b.2 !! job_id (reserved j) = Some b.1 /\ awaiting b.1 = true /\ candidate_is b.1 u tx = true).
Proof.
  intros Hd Ht Hj Ha Hz Hu Hx. unfold bind_candidate. destruct (cand j) as [c|] eqn:Hc.
  - destruct (candidate_is j u tx) eqn:E; cbn; [|done]. done.
  - apply safe_if; [done|intros Hl]. set (c := {| candidate_user_op_hash := u |}).
    assert (row_ok (set_candidate j c z)) as Hok.
    { zbool. apply candidate_ok; [by eapply intact_row|by eapply Ht|done|]. unfold candidate_checks. subst c. cbn.
      pose proof (ro_reserved _ (intact_row _ _ _ _ _ _ Hd Hj)) as Hres. unfold reservation_checks in Hres. zbool.
      rewrite Hu, Hx. cbn. rewrite andb_true_iff, Z.leb_le, Z.ltb_lt. cbv beta in *. lia. }
    eapply safe_bind; [apply update_safe; [apply Hd|done|]|].
    + intros k Hk _. assert (k = j) as -> by congruence. split; [done|]. by eapply unique_kept.
    + intros p _ [->|(k & Hk & _ & ->)]; [done|]. assert (k = j) as -> by congruence. cbn [fst snd negb].
      assert (validateUnwindRow (work d) (set_candidate j c z) = Ok (set_candidate j c z)) as Hv.
      { eapply (validate_unproved sha256 commitment isStrKey _ _ j); [by apply (awaiting_unproved j)|done|].
        by eapply in_rows. }
      eapply safe_bind; [eapply selected_safe; [cbn; by rewrite lookup_insert_eq|exact Hv]|].
      intros j' _ ->. cbn [fst snd]. split_and!; try done.
      * by eapply intact_put.
      * by eapply timely_put.
      * cbn. by rewrite lookup_insert_eq.
      * unfold candidate_is, set_candidate, c. cbn. by rewrite !bool_decide_eq_true_2.
Qed.

Lemma check_lease_safe j token z : safe (check_lease j token z) (fun _ => True).
Proof.
  unfold check_lease. apply safe_if; intros _; [destruct token; [by apply safe_if|done]|by apply safe_if].
Qed.

(** *** The whole call *)
Lemma attach_unique d id j u p : intact d -> jobs d !! id = Some j ->
  existsb (fun k => same_user_op (user_op_hash p) k && negb (bool_decide (job_id (reserved k) = id)))
    (map snd (map_to_list (jobs d))) = false ->
  unique_user_op d (set_proof j p u) = true.
Proof.
  intros Hd Hj Hu. unfold unique_user_op. cbn [set_proof Unwind.proof]. apply negb_true_iff.
  cbn [set_proof reserved]. rewrite (t_keyed _ (in_table _ _ _ _ Hd) _ _ Hj). revert Hu.
  induction (map snd (map_to_list (jobs d))) as [|k l IH]; [done|]. cbn [existsb].
  rewrite (andb_comm (negb _)). intros [-> H]%orb_false_elim. by apply IH.
Qed.

Lemma attach_follows j p r z e x id tx :
  canonicalizeExpectation x = Ok e -> e#"direction" = Str "base-to-stellar" -> canonical sha256 r ->
  Relay.status r = attestation_pending -> json e = Ok (expectation_json p) ->
  ident r = {| execId := id; sourceDomain := Some 6; burnTxHash := Some (chars_of tx); expectation := Some e;
    expectationDigest_ := Some (chars_of (expectation_digest p)); createdAt := z |} ->
  unwind_tx_hash p = tx -> jstate j = relay_pending -> follows sha256 j p r.
Proof.
  intros Hx Hd Hc Hs Hj Hi Ht Hst. split; rewrite ?Hi; cbn; try done.
  - by rewrite Ht.
  - unfold relay_expectation_json. rewrite Hi. exact Hj.
  - by rewrite Hst.
  - by rewrite Hst.
Qed.

Lemma canonical_hashes c : canonical_proof c ->
  lower_0x_hex 64 (text_field c "userOpHash") = true /\ lower_0x_hex 64 (text_field c "unwindTxHash") = true /\
  canonicalHash (Str (text_field c "unwindTxHash")) = Ok (text_field c "unwindTxHash").
Proof.
  intros (u & jc & tx & ep & k' & bn & bh & n & bu & ex & sk & mf & hd & sm & sd & i1 & i2 & i3 & i4 &
    d1 & d2 & d3 & d4 & -> & [] & _).
  rewrite (text_field_form _ "userOpHash" u), (text_field_form _ "unwindTxHash" tx) by reflexivity.
  split_and!; [by eapply canonicalHash_form|by eapply canonicalHash_form|done].
Qed.

(** The row with its proof, once the relay work is there. *)
Lemma attached_valid w j x e digest proof c pt ph et z r :
  row_ok j -> validateUnwindRow w j = Ok j ->
  canonicalizeExpectation x = Ok e -> e#"direction" = Str "base-to-stellar" -> expectationDigest sha256 e = Ok digest ->
  canonicalProof commitment proof e (job_id (reserved j)) (kernel_address (reserved j)) = Ok c ->
  json c = Ok pt -> proofDigest sha256 c = Ok ph -> json e = Ok et ->
  proof#"sourceMessageDigest" = Str (string_of (sha256 (Hex.from_hex (drop 2 (coerce proof#"sourceMessageHex"))))) ->
  canonical sha256 r -> Relay.status r = attestation_pending ->
  ident r = {| execId := unwind_exec_id (job_id (reserved j)); sourceDomain := Some 6;
    burnTxHash := Some (chars_of (text_field c "unwindTxHash")); expectation := Some e;
    expectationDigest_ := Some digest; createdAt := z |} ->
  let j' := set_proof j (proof_row_of c e pt ph et (string_of digest) (unwind_exec_id (job_id (reserved j)))) z in
  validateUnwindRow (<[unwind_exec_id (job_id (reserved j)) := r]> w) j' = Ok j'.
Proof.
  intros Hj [Hr _]%validate_Ok Hx Hd Hdg Hc Hpt Hph Het Hm Hcan Hs Hi j'. apply validate_Ok.
  split; [exact Hr|]. intros p [= <-]. destruct (canonical_message _ _ _ _ _ Hc) as [Hh Hg]. split.
  - eapply attached_check; try done. by rewrite Hh, Hg.
  - apply check_relay_Ok. exists r. split; [apply lookup_insert_eq|].
    eapply attach_follows; try done. rewrite Hi. cbn. by rewrite chars_of_string_of.
Qed.

Hypothesis Hfault : forall point, attachFault point = false.

Lemma fault_safe point : safe (fault attachFault point) (fun _ => True).
Proof. unfold fault. by rewrite Hfault. Qed.

Lemma from_relay_safe {A} (m : result relay_error A) Q :
  match m with Ok a => Q a | Throw e => e = RELAY_VALIDATION end -> safe (from_relay m) Q.
Proof. destruct m; cbn; [done|]. by intros ->. Qed.

Lemma cctp_existing (w : rows) k : map_Forall (fun _ => canonical sha256) w ->
  safe (cctpRecord sha256 (w !! k)) (fun r => r = w !! k).
Proof.
  intros Hw. pose proof (cctpRecord_safe sha256 (w !! k)) as H. destruct (cctpRecord sha256 (w !! k)); [|done]. apply H.
Qed.

Lemma attach_fine d i now : intact d -> timely d now -> sound_evidence i -> fine (perform d (Attach i now)).
Proof.
  intros Hd Ht (Hm1 & Hm2 & Hsw). apply transaction_fine. unfold canonicalJobId.
  eapply safe_bind; [apply matching_safe|intros id _ _]. eapply safe_bind; [apply requireTime_safe|intros z _ [-> Hz]].
  apply safe_if; [done|intros _]. eapply (safe_bind _ _ (fun _ => True)).
  { apply from_relay_safe. destruct (canonicalizeExpectation _) eqn:E; [done|]. by eapply canonicalizeExpectation_error. }
  intros e He%from_relay_Ok _. apply safe_if; [done|]. intros [Hdir Hsrc]%orb_false_elim.
  apply negb_false_iff, strict_eq_eq in Hdir, Hsrc. eapply (safe_bind _ _ (fun _ => True)).
  { apply from_relay_safe. unfold expectationDigest. by rewrite (stringify_expectation _ _ He Hdir). }
  intros digest Hdg%from_relay_Ok _. eapply safe_bind; [by apply select_safe|]. intros [j0|] _ Hj; [|done].
  symmetry in Hj. assert (job_id (reserved j0) = id) as Hid by (by apply (t_keyed _ (in_table _ _ _ _ Hd))).
  eapply safe_bind; [apply canonicalProof_safe|]. intros c Hc _.
  destruct (canonicalProof_Ok _ _ _ _ _ _ Hc) as (Hcan & _ & _).
  pose proof (json_wire _ (canonical_proof_wire _ Hcan)) as Hpt.
  pose proof (json_wire _ (expectation_wire _ _ He Hdir)) as Het.
  rewrite Hpt. cbn [mbind result_bind]. unfold proofDigest at 1. rewrite Hpt. cbn [mbind result_bind].
  destruct (proof j0) as [p0|] eqn:Hp0; [by apply safe_if|]. apply safe_if; [done|intros Hst].
  assert (awaiting j0 = true) as Ha by (unfold awaiting; rewrite Hp0; by destruct (bool_decide _)).
  destruct (canonical_hashes _ Hcan) as (Hu & Hx & Htx). rewrite <- Hid in Hj.
  eapply safe_bind; [by apply bind_candidate_safe|]. intros [j d1] _ (Hd1 & Ht1 & Hres & Hj1 & Ha1 & Hcand). cbn [fst snd] in *.
  eapply safe_bind; [apply check_lease_safe|intros _ _ _]. apply safe_if; [done|intros Huniq].
  eapply safe_bind; [apply cctp_existing, Hd1|]. intros existing _ ->.
  eapply safe_bind; [by eapply enqueue_safe|]. intros [r b] _ Hr. cbn [fst snd] in *. destruct b; [|done]. cbn [negb].
  destruct (Hr eq_refl) as (Hnone & Hen & Hri & Hrs).
  assert (canonical sha256 r) as Hrc.
  { apply canonical_sound. apply (created_sound sha256 (Ledger.Enqueue (unwind_exec_id id) (number 6)
      (Str (text_field c "unwindTxHash")) e (Num z)) (unwind_exec_id id)); [split; [done|]; by eexists|]. by intros ? [= <-]. }
  eapply safe_bind; [apply fault_safe|intros _ _ _]. rewrite Het. cbn [mbind result_bind].
  rewrite <- Hid in *. rewrite <- Hres in *.
  eapply safe_bind; [apply update_safe; [destruct (in_table _ _ _ _ Hd1); by split|done|]|].
  - intros k Hk Hck. assert (k = j) as -> by (cbn in Hk; congruence). split.
    + eapply attached_ok; try done; [by eapply intact_row|by eapply Ht1|unfold proofDigest; by rewrite Hpt| |].
      * by rewrite (proj1 (canonical_message _ _ _ _ _ Hc)).
      * by rewrite (canonical_sender _ _ He).
    + by apply (attach_unique d1 (job_id (reserved j))).
  - intros q _ [->|(k & Hk & _ & ->)]; [done|]. assert (k = j) as -> by (cbn in Hk; congruence). cbn [fst snd negb].
    eapply safe_bind; [apply fault_safe|intros _ _ _]. eapply safe_bind; [|by intros].
    eapply selected_safe; [cbn; by rewrite lookup_insert_eq|]. cbn [put_job work jobs].
    eapply attached_valid; try done; [by eapply intact_row|by eapply in_rows|unfold proofDigest; by rewrite Hpt].
Qed.

Lemma perform_fine d q : intact d -> timely d (time_of q) ->
  (forall i now, q = Attach i now -> sound_evidence i) -> fine (perform d q).
Proof.
  intros Hd Ht Ha. destruct q; cbn [time_of] in Ht.
  - by eapply reserve_fine.
  - apply attach_fine; [done|done|by eapply Ha].
  - by eapply claim_fine.
  - by eapply renew_fine.
  - by eapply release_fine.
  - eapply finish_fine; [done|done|by left|]. by apply blocked_public.
  - eapply finish_fine; [done|done|by right|]. by apply uncertain_public.
  - by eapply reconcile_fine.
  - by eapply cctp_fine.
Qed.

End Attach.

(** ** A concrete run *)
Module AttachSample.
Import Relay Ledger Unwind UnwindOps.
(** A stand-in for SHA-256 whose digests always have their form. *)
Definition sha (l : chars) : chars :=
  padStart (to_digits (Z.of_nat (length l) mod 1000)) 64 "0"%char.

Definition claimed : list action := UnwindSample.reserving ++ UnwindSample.claiming.
Definition d0 : db := {| jobs := ∅; work := ∅ |}.
Definition claimed_db : db := acts sha UnwindSample.commitment UnwindSample.isStrKey (fun _ => false) d0 claimed.

Lemma sha_hex l : is_hex 64 (sha l) = true.
Proof.
  assert (forallb (fun n => is_hex 64 (padStart (to_digits (Z.of_nat n)) 64 "0"%char)) (seq 0 1000) = true) as H
    by (vm_compute; reflexivity).
  apply forallb_Forall in H. rewrite Forall_forall in H. unfold sha.
  pose proof (Z.mod_pos_bound (Z.of_nat (length l)) 1000 eq_refl) as Hb.
  specialize (H (Z.to_nat (Z.of_nat (length l) mod 1000))). cbv beta in H. rewrite Z2Nat.id in H by lia.
  apply H, elem_of_seq. lia.
Qed.

Lemma strkey_form s : UnwindSample.isStrKey s = true -> is_strkey (chars_of s) = true.
Proof. intros H. apply bool_decide_eq_true in H as ->. vm_compute. reflexivity. Qed.
End AttachSample.

Section Sample.
Import Relay Ledger Unwind UnwindOps.

End Sample.
