(* ===== verification/EvidenceSchema.v ===== *)
(** * What evidence the relayer stores

    Models [relayer/src/baseEvidenceValidation.mjs]: the fields that the evidence of a phase in a
    state must and may carry and the form of each, and the handle with which a deposit can
    be found again without a second operation. *)
From S2P Require Export BaseEvidence.

Module EvidenceSchema.
Import Canonical.

Inductive phase := cctp_burn | cctp_attestation | cctp_mint | base_deposit.
Inductive state := submitting | submitted | confirmed | failed | unknown | blocked.

#[global] Instance phase_eq_dec : EqDecision phase.
Proof. solve_decision. Defined.
#[global] Instance state_eq_dec : EqDecision state.
Proof. solve_decision. Defined.

Section Strings.
Local Open Scope string_scope.
Local Open Scope list_scope.

Definition phase_name (p : phase) : string :=
  match p with
  | cctp_burn => "cctp_burn" | cctp_attestation => "cctp_attestation"
  | cctp_mint => "cctp_mint" | base_deposit => "base_deposit"
  end.
Definition state_name (s : state) : string :=
  match s with
  | submitting => "submitting" | submitted => "submitted" | confirmed => "confirmed"
  | failed => "failed" | unknown => "unknown" | blocked => "blocked"
  end.

Definition BASE_EVIDENCE_PHASES : list phase := [cctp_burn; cctp_attestation; cctp_mint; base_deposit].
Definition BASE_EVIDENCE_STATES : list state := [submitting; submitted; confirmed; failed; unknown; blocked].

(** [SET.has(value)], and which member it is. *)
Definition member_named {A} (name : A -> string) (l : list A) (v : val) : option A :=
  match v with Str s => head (filter (fun a => name a = s) l) | _ => None end.

(** ** The fields of each phase and state *)
Definition DEPOSIT_EVENT_FIELDS : list string :=
  ["address"; "topic0"; "logIndex"; "caller"; "poolAddress"; "assets"; "shares"].
Definition PINNED_ENTRY_POINT : string := "0x0000000071727de22e5e9d8baf0edac6f37da032".
Definition RECONCILE_HANDLE_FIELDS : list string := ["entryPoint"; "sender"; "nonce"; "startBlock"].
Definition UNSIGNED_FIELDS : list string :=
  ["burnUnits7"; "evidenceVersion"; "chainId"; "assets"; "minShares"; "shares"; "logIndex"].
Definition BASE_COMMON_FIELDS : list string :=
  ["chainId"; "yieldRouterAddress"; "caller"; "poolAddress"; "assets"; "minShares"].
Definition CCTP_BURN_IMMUTABLE_FIELDS : list string := ["burnTxHash"; "expectationDigest"].
Definition CCTP_ATTESTATION_IMMUTABLE_FIELDS : list string :=
  CCTP_BURN_IMMUTABLE_FIELDS ++ ["messageDigest"; "nonce"].
Definition CCTP_MINT_IMMUTABLE_FIELDS : list string :=
  CCTP_ATTESTATION_IMMUTABLE_FIELDS ++ ["attestationDigest"].

(** [None]: no schema for this phase and state. *)
Definition BASE_EVIDENCE_SCHEMAS (p : phase) (s : state) : option (list string) :=
  match p, s with
  | cctp_burn, (submitted | confirmed) => Some (CCTP_BURN_IMMUTABLE_FIELDS ++ ["burnUnits7"])
  | cctp_burn, unknown => Some (CCTP_BURN_IMMUTABLE_FIELDS ++ ["burnUnits7"; "reasonCode"])
  | cctp_burn, (failed | blocked) => Some ["reasonCode"]
  | cctp_burn, submitting => None
  | cctp_attestation, confirmed =>
      Some (CCTP_BURN_IMMUTABLE_FIELDS ++ ["messageDigest"; "attestationDigest"; "evidenceVersion"])
  | cctp_attestation, (submitting | submitted | unknown) => Some CCTP_ATTESTATION_IMMUTABLE_FIELDS
  | cctp_attestation, (failed | blocked) => Some (CCTP_ATTESTATION_IMMUTABLE_FIELDS ++ ["reasonCode"])
  | cctp_mint, confirmed =>
      Some (CCTP_BURN_IMMUTABLE_FIELDS ++ ["messageDigest"; "attestationDigest"; "evidenceVersion"; "mintTxHash"])
  | cctp_mint, submitted => Some (CCTP_MINT_IMMUTABLE_FIELDS ++ ["evidenceVersion"])
  | cctp_mint, (submitting | unknown) => Some CCTP_MINT_IMMUTABLE_FIELDS
  | cctp_mint, (failed | blocked) => Some (CCTP_MINT_IMMUTABLE_FIELDS ++ ["reasonCode"])
  | base_deposit, (submitting | unknown) => Some BASE_COMMON_FIELDS
  | base_deposit, submitted => Some (BASE_COMMON_FIELDS ++ ["userOpHash"])
  | base_deposit, confirmed => Some (BASE_COMMON_FIELDS ++ ["shares"; "userOpHash"; "transactionHash"; "event"])
  | base_deposit, failed => Some (BASE_COMMON_FIELDS ++ ["userOpHash"; "transactionHash"; "reasonCode"])
  | base_deposit, blocked => Some (BASE_COMMON_FIELDS ++ ["reasonCode"])
  end.
Definition BASE_EVIDENCE_OPTIONAL_FIELDS (p : phase) (s : state) : list string :=
  match p, s with
  | cctp_burn, confirmed => ["messageDigest"; "nonce"]
  | cctp_attestation, confirmed => ["nonce"]
  | cctp_mint, (submitted | unknown) => ["mintTxHash"]
  | cctp_mint, confirmed => ["nonce"]
  | base_deposit, failed => ["custodyLocation"; "kernelCustodyConfirmed"; "custody"]
  | base_deposit, unknown => ["userOpHash"; "transactionHash"; "reasonCode"]
  | base_deposit, blocked =>
      ["userOpHash"; "transactionHash"; "kernelCustodyConfirmed"; "custodyLocation"; "custody"]
  | _, _ => []
  end.

Definition LOWER_ADDRESS_RE : chars -> bool := is_0x_hex 40.
Definition LOWER_EVM_HASH_RE : chars -> bool := is_0x_hex 64.
Definition LOWER_DIGEST_RE : chars -> bool := is_hex 64.
Definition LOWER_CCTP_DIGEST_RE : chars -> bool := is_0x_hex 64.
Definition UNSIGNED_DECIMAL_RE : chars -> bool := is_decimal.

(** ** The handle of a deposit *)
Definition canonicalHandleAddress (value : val) (label : string) : result index_error string :=
  match value with
  | Str s =>
      if LOWER_ADDRESS_RE (chars_of s) then Ok s
      else fails ("reconcileHandle." +:+ label +:+ " must be a canonical address")
  | _ => fails ("reconcileHandle." +:+ label +:+ " must be a canonical address")
  end.

Definition decimal_field (value : val) (field : string) : result index_error string :=
  match value with
  | Str s =>
      if UNSIGNED_DECIMAL_RE (chars_of s) then Ok s
      else fails ("reconcileHandle." +:+ field +:+ " must be a canonical unsigned decimal string")
  | _ => fails ("reconcileHandle." +:+ field +:+ " must be a canonical unsigned decimal string")
  end.

Definition ZERO_ADDRESS : string := "0x0000000000000000000000000000000000000000".

Definition normalizeReconcileHandle (value sender : val) : result index_error val :=
  if negb (is_object value) then fails "reconcileHandle must be an object"
  else if negb ((length (keys value) =? length RECONCILE_HANDLE_FIELDS)%nat
                && forallb (fun k => bool_decide (k ∈ RECONCILE_HANDLE_FIELDS)) (keys value))
  then fails "reconcileHandle must contain exactly entryPoint, sender, nonce, and startBlock"
  else
    entryPoint ← canonicalHandleAddress value#"entryPoint" "entryPoint";
    if negb (bool_decide (entryPoint = PINNED_ENTRY_POINT))
    then fails "reconcileHandle.entryPoint is not the pinned EntryPoint"
    else
      handleSender ← canonicalHandleAddress value#"sender" "sender";
      if bool_decide (handleSender = ZERO_ADDRESS)
      then fails "reconcileHandle.sender must not be the zero address"
      else
        _ ← match sender with
            | Null => Ok tt
            | _ => s ← canonicalHandleAddress sender "expected sender";
                   if bool_decide (s = handleSender) then Ok tt
                   else fails "reconcileHandle.sender disagrees with the Kernel caller"
            end;
        nonce ← decimal_field value#"nonce" "nonce";
        startBlock ← decimal_field value#"startBlock" "startBlock";
        Ok (Obj [("entryPoint", Str entryPoint); ("sender", Str handleSender); ("nonce", Str nonce);
                 ("startBlock", Str startBlock)]).

(** ** Objects of evidence *)
(** A property with an empty name counts as none: [if (unexpected)]. *)
Definition exactObject (value : val) (allowed : list string) (label : string) (required : list string)
    : result index_error unit :=
  if negb (is_object value) then fails (label +:+ " must be an object")
  else
    let missing :=
      match filter (fun k => has_own value k = false) required with
      | missing :: _ => fails (path_key label missing +:+ " is required")
      | [] => Ok tt
      end in
    match filter (fun k => k ∉ allowed) (keys value) with
    | unexpected :: _ =>
        if decide (unexpected = EmptyString) then missing
        else fails (path_key label unexpected +:+ " is not allowlisted")
    | [] => missing
    end.

Definition custody_valid (entry : val) : bool :=
  is_object entry
  && forallb (fun k => bool_decide (k ∈ ["location"; "confirmed"])) (keys entry)
  && is_string entry#"location" && is_boolean entry#"confirmed".

(** One property; [nested] validates the event of a deposit. *)
Definition check_entry (nested : result index_error unit) (label : string) (value : val) (key : string)
    (entry : val) : result index_error unit :=
  if decide (key = "event") then nested
  else if decide (key = "custody") then
    if custody_valid entry then Ok tt
    else fails (path_key label key +:+ " must contain only location and confirmed")
  else if decide (key = "reconcileHandle") then
    _ ← normalizeReconcileHandle entry (coalesce value#"caller" Null); Ok tt
  else if decide (key = "nonce") then
    if is_string entry && (test UNSIGNED_DECIMAL_RE entry || test LOWER_CCTP_DIGEST_RE entry) then Ok tt
    else fails (path_key label key +:+ " must be a canonical decimal or bytes32 nonce")
  else if decide (key ∈ UNSIGNED_FIELDS) then
    if is_string entry && test is_decimal entry then Ok tt
    else fails (path_key label key +:+ " must be an unsigned decimal string")
  else
    match entry with
    | Null | Str _ | Bool _ => Ok tt
    | _ => fails (path_key label key +:+ " must be a bounded scalar")
    end.

Fixpoint validateEvidenceObject (value : val) (fields : list string) (label : string)
    (optionalFields : list string) : result index_error unit :=
  _ ← exactObject value (fields ++ optionalFields) label fields;
  match value with
  | Obj fs =>
      (fix go (l : list (string * val)) : result index_error unit :=
         match l with
         | [] => Ok tt
         | (key, entry) :: l =>
             _ ← check_entry (validateEvidenceObject entry DEPOSIT_EVENT_FIELDS "deposit event" [])
                   label value key entry;
             go l
         end) fs
  | _ => Ok tt
  end.

(** [for (const field of fields) if (bad) throw] *)
Fixpoint each (fields : list string) (ok : string -> bool) (error : string -> string)
    : result index_error unit :=
  match fields with
  | [] => Ok tt
  | f :: fields => if ok f then each fields ok error else fails (error f)
  end.
Definition if_present (re : chars -> bool) (evidence : val) (field : string) : bool :=
  negb (has_own evidence field) || test re (get evidence field).

Definition validateBaseEvidence (p : phase) (s : state) (evidence : val) : result index_error val :=
  match BASE_EVIDENCE_SCHEMAS p s with
  | None => fails "Base evidence phase/state schema is invalid"
  | Some fields =>
      _ ← validateEvidenceObject evidence fields "evidence"
            (BASE_EVIDENCE_OPTIONAL_FIELDS p s
             ++ (if decide (p = base_deposit) then ["kernelAddress"; "reconcileHandle"] else []));
      _ ← each ["yieldRouterAddress"; "caller"; "poolAddress"; "kernelAddress"]
            (if_present LOWER_ADDRESS_RE evidence)
            (fun f => "evidence." +:+ f +:+ " must be a canonical address");
      _ ← each ["userOpHash"; "transactionHash"; "mintTxHash"]
            (fun f => strict_eq (get evidence f) Null || if_present LOWER_EVM_HASH_RE evidence f)
            (fun f => "evidence." +:+ f +:+ " must be a canonical hash");
      _ ← each ["burnTxHash"; "expectationDigest"] (if_present LOWER_DIGEST_RE evidence)
            (fun f => "evidence." +:+ f +:+ " must be a canonical digest");
      _ ← each ["messageDigest"; "attestationDigest"] (if_present LOWER_CCTP_DIGEST_RE evidence)
            (fun f => "evidence." +:+ f +:+ " must be a canonical 0x-prefixed digest");
      let event := evidence#"event" in
      _ ← (if truthy event then
             _ ← each ["address"; "caller"; "poolAddress"] (fun f => test LOWER_ADDRESS_RE (get event f))
                   (fun f => "deposit event." +:+ f +:+ " must be a canonical address");
             if test LOWER_EVM_HASH_RE event#"topic0" then Ok tt
             else fails "deposit event.topic0 must be a canonical hash"
           else Ok tt);
      Ok evidence
  end.
End Strings.
End EvidenceSchema.
