(* ===== verification/EvidenceOutbox.v ===== *)
(** * The outbox of Base evidence

    Models [createBaseEvidenceOutbox] and its worker, [relayer/src/baseEvidenceOutbox.mjs]: per
    child one head, which numbers the child's checkpoints, and the rows that wait to be reported
    to the agent index.  The database is two tables with the constraints of
    [relayer/src/sqliteStores.mjs]; a transaction that throws leaves it as it was.  SHA-256, the
    tokens and the times are arguments. *)
From S2P Require Export EvidenceSchema.

Module Outbox.
Import Canonical EvidenceSchema.

Section Strings.
Local Open Scope string_scope.
Local Open Scope list_scope.

(** ** Canonical text *)
Fixpoint texts (l : list (string * result index_error chars)) : result index_error (list chars) :=
  match l with
  | [] => Ok []
  | (k, m) :: l => t ← m; ts ← texts l; Ok (JSON.entry k t :: ts)
  end.

Fixpoint canonicalJson (value : val) : result index_error chars :=
  match value with
  | Arr l =>
      let fix elements l :=
        match l with [] => Ok [] | v :: l => t ← canonicalJson v; ts ← elements l; Ok (t :: ts) end in
      ts ← elements l; Ok (JSON.brackets (join JSON.comma ts))
  | Obj fs =>
      let fix members fs :=
        match fs with [] => [] | (k, v) :: fs => (k, canonicalJson v) :: members fs end in
      let ms := members fs in
      ts ← texts ((fun k => (k, default (fails "Base evidence contains an unsupported value") (assoc ms k)))
                    <$> sort_keys ms.*1);
      Ok (JSON.braces (join JSON.comma ts))
  | _ =>
      match JSON.stringify value with
      | Ok (Some t) => Ok t
      | Ok None => fails "Base evidence contains an unsupported value"
      | Throw _ => Throw TypeError
      end
  end.

(** [canonicalJson(a) === canonicalJson(b)] *)
Definition same_json (a b : val) : result index_error bool :=
  ta ← canonicalJson a; tb ← canonicalJson b; Ok (bool_decide (ta = tb)).

(** ** Identity of a child *)
Record identity := {
  networkId : string; bindingId : string; executionId : string; allocationId : string; childId : string;
}.
#[global] Instance identity_eq_dec : EqDecision identity.
Proof. solve_decision. Defined.

Definition IDENTITY_FIELDS : list string := ["networkId"; "bindingId"; "executionId"; "allocationId"; "childId"].
Definition identityValues (i : identity) : list string :=
  [networkId i; bindingId i; executionId i; allocationId i; childId i].
Definition identity_val (i : identity) : val := Obj [
  ("networkId", Str (networkId i)); ("bindingId", Str (bindingId i)); ("executionId", Str (executionId i));
  ("allocationId", Str (allocationId i)); ("childId", Str (childId i))].

(** [text.indexOf(needle)] *)
Fixpoint index_of (needle text : chars) : option nat :=
  if startsWith needle text then Some 0%nat
  else match text with [] => None | _ :: text => S <$> index_of needle text end.

Definition identity_field (value : val) (field : string) : result index_error string :=
  match get value field with
  | Str s => if decide (s = EmptyString) then fails ("identity." +:+ field +:+ " is required") else Ok s
  | _ => fails ("identity." +:+ field +:+ " is required")
  end.

Definition exactIdentity (value : val) : result index_error identity :=
  if negb (is_object value) then fails "complete Base evidence identity is required"
  else if negb ((length (keys value) =? length IDENTITY_FIELDS)%nat
                && forallb (fun k => bool_decide (k ∈ IDENTITY_FIELDS)) (keys value))
  then fails "complete five-field Base evidence identity is required"
  else
    networkId ← identity_field value "networkId";
    bindingId ← identity_field value "bindingId";
    executionId ← identity_field value "executionId";
    allocationId ← identity_field value "allocationId";
    childId ← identity_field value "childId";
    let marker := chars_of ":exec:" in
    match index_of marker (chars_of executionId) with
    | Some (S n) =>
        if bool_decide (drop (S n + length marker) (chars_of executionId) = chars_of allocationId)
        then Ok {| networkId := networkId; bindingId := bindingId; executionId := executionId;
                   allocationId := allocationId; childId := childId |}
        else fails "executionId must match allocationId"
    | _ => fails "executionId must match allocationId"
    end.

(** ** Checkpoints *)
Definition sensitive_terms : list string :=
  ["secret"; "private"; "sessionkey"; "serializedapproval"; "capability"; "bearer"; "leasetoken";
   "authorization"; "wallet"; "passkey"; "diagnostic"; "endpoint"; "rawerror"; "receipt"].
Definition rejectSensitive (value : val) : result index_error unit :=
  walk (fun path key _ =>
          if existsb (fun term => includes (chars_of term) (normalized key)) sensitive_terms
          then fails ("sensitive Base evidence property rejected at " +:+ path_key path key) else Ok tt)
    "$" value.

Record checkpoint := {
  given : val; (* [{ ...input, identity }] *)
  owner : identity; cphase : phase; status_ : state; evidence : val; observedAt : Z;
}.

Definition validateCheckpoint (input : val) : result index_error checkpoint :=
  if negb (is_object input) then fails "Base evidence checkpoint must be an object"
  else if negb (forallb (fun k => bool_decide (k ∈ ["identity"; "phase"; "status"; "evidence"; "observedAt"]))
                  (keys input))
  then fails "Base evidence checkpoint contains an unexpected field"
  else
    id ← exactIdentity input#"identity";
    match member_named phase_name BASE_EVIDENCE_PHASES input#"phase",
          member_named state_name BASE_EVIDENCE_STATES input#"status" with
    | Some p, Some s =>
        if negb (is_object input#"evidence") then fails "Base evidence payload must be an object"
        else
          _ ← validateBaseEvidence p s input#"evidence";
          match input#"observedAt" with
          | Number (Num at_) =>
              if negb (isSafeInteger (Num at_) && (0 <=? at_)%Z)
              then fails "Base evidence observedAt must be a non-negative safe integer"
              else
                _ ← rejectSensitive input;
                _ ← canonicalJson input;
                Ok {| given := Obj (set_property (entries input) "identity" (identity_val id));
                      owner := id; cphase := p; status_ := s; evidence := input#"evidence";
                      observedAt := at_ |}
          | _ => fails "Base evidence observedAt must be a non-negative safe integer"
          end
    | _, _ => fails "Base evidence phase/state is invalid"
    end.

Definition checkpoint_val (i : identity) (p : phase) (s : state) (evidence : val) : val := Obj [
  ("identity", identity_val i); ("phase", Str (phase_name p)); ("status", Str (state_name s));
  ("evidence", evidence)].

(** ** Tables *)
Inductive delivery := pending | leased | delivered | dead | conflict.
#[global] Instance delivery_eq_dec : EqDecision delivery.
Proof. solve_decision. Defined.

Record row := {
  id : Z; event_id : chars; child : identity; expected : Z; rphase : phase; rstate : state;
  evidence_digest : chars; report_json : chars;
  delivery_status : delivery; attempts : Z; available_at : Z;
  lease : option (string * Z); (* the token and the end; both columns change together *)
  last_error_code : option string; created_at : Z; updated_at : Z; delivered_at : option Z;
}.
Definition resulting (r : row) : Z := expected r + 1.

Record head_row := {
  job_id : option string; next_version : Z; latest : option (phase * state);
  submission_owner : option string; head_updated : Z;
}.

(** Heads by the five columns of their key; rows by ascending [id], none is ever deleted. *)
Record db := { heads : gmap (list string) head_row; outbox : list row }.

Definition head_of (d : db) (i : identity) : option head_row := heads d !! identityValues i.
Definition put_head (d : db) (i : identity) (h : head_row) : db :=
  {| heads := <[identityValues i := h]> (heads d); outbox := outbox d |}.
Definition put_outbox (d : db) (l : list row) : db := {| heads := heads d; outbox := l |}.

Definition of_child (i : identity) (r : row) : bool := bool_decide (identityValues (child r) = identityValues i).

(** [ORDER BY expected_recovery_version DESC LIMIT 1] *)
Fixpoint newest (l : list row) : option row :=
  match l with
  | [] => None
  | r :: l => match newest l with
              | Some r' => if (expected r' <? expected r)%Z then Some r else Some r'
              | None => Some r
              end
  end.
Definition rows_of (d : db) (i : identity) : list row := filter (fun r => of_child i r = true) (outbox d).

(** [JSON.parse(row.report_json)] *)
Definition report_of (r : row) : result index_error val :=
  match JSON.parse (report_json r) with Ok v => Ok v | Throw _ => Throw SyntaxError end.
(** The row and its parsed report. *)
Definition rowRecord (r : row) : result index_error (row * val) := v ← report_of r; Ok (r, v).

Definition transaction {A} (d : db) (m : result index_error (A * db)) : result index_error A * db :=
  match m with Ok (a, d') => (Ok a, d') | Throw e => (Throw e, d) end.

(** ** Order of checkpoints *)
Definition position (p : phase) : Z :=
  match p with cctp_burn => 0 | cctp_attestation => 1 | cctp_mint => 2 | base_deposit => 3 end.

Definition transitions (s : state) : list state :=
  match s with
  | submitting => [submitted; confirmed; failed; unknown; blocked]
  | submitted => [confirmed; failed; unknown; blocked]
  | unknown => [confirmed]
  | _ => []
  end.

Definition allowedTransition (latest : option (phase * state)) (p : phase) (s : state) : bool :=
  match latest with
  | None => true
  | Some (latestPhase, latestState) =>
      if negb (bool_decide (p = latestPhase)) then
        (position p =? position latestPhase + 1)%Z && bool_decide (latestState = confirmed)
      else if bool_decide (p = cctp_attestation) && bool_decide (latestState = failed)
              && bool_decide (s = confirmed) then true
      else bool_decide (s ∈ transitions latestState)
  end.

Section Parameters.
Context (sha256 : chars -> chars) (maxAttempts : Z).

(** ** Heads *)
Definition seed (d : db) (identityInput : val) (recoveryVersion : num) (jobId : option string) (now : Z)
    : result index_error (bool * Z) * db :=
  match exactIdentity identityInput with
  | Throw e => (Throw e, d)
  | Ok i =>
      match recoveryVersion with
      | Num v =>
          if negb (isSafeInteger (Num v)) || (v <? 0)%Z then (fails "starting recovery version is invalid", d)
          else
            match head_of d i with
            | Some h =>
                if negb (next_version h =? v)%Z || negb (bool_decide (job_id h = jobId))
                then (fails "immutable Base evidence head conflict", d)
                else (Ok (true, next_version h), d)
            | None =>
                (Ok (false, v),
                 put_head d i {| job_id := jobId; next_version := v; latest := None;
                                 submission_owner := None; head_updated := now |})
            end
      | _ => (fails "starting recovery version is invalid", d)
      end
  end.

(** ** Enqueueing *)

(** [known[field] != null && evidence[field] != null && canonicalJson differ], for one of the fields *)
Fixpoint message_conflict (known evidence : val) (fields : list string) : result index_error bool :=
  match fields with
  | [] => Ok false
  | f :: fields =>
      if nullish (get known f) || nullish (get evidence f) then message_conflict known evidence fields
      else same ← same_json (get known f) (get evidence f);
           if same : bool then message_conflict known evidence fields else Ok true
  end.

(** [known[field]] is there and [evidence[field]] is missing or another, for one of the fields *)
Fixpoint known_conflict (known evidence : val) (fields : list string) : result index_error bool :=
  match fields with
  | [] => Ok false
  | f :: fields =>
      if nullish (get known f) then known_conflict known evidence fields
      else if strict_eq (get evidence f) Undefined then Ok true
      else same ← same_json (get evidence f) (get known f);
           if same : bool then known_conflict known evidence fields else Ok true
  end.

(** The evidence of the child's newest row. *)
Definition known_evidence (d : db) (i : identity) : result index_error val :=
  match newest (rows_of d i) with
  | Some r => v ← report_of r; Ok v#"event"#"evidence"
  | None => Ok (Obj [])
  end.

Definition handle_conflict (known evidence : val) : result index_error bool :=
  let knownHandle := coalesce known#"reconcileHandle" Null in
  let checkpointHandle := coalesce evidence#"reconcileHandle" Null in
  match knownHandle, checkpointHandle with
  | Null, Null => Ok false
  | Null, _ | _, Null => Ok true
  | _, _ => same ← same_json checkpointHandle knownHandle; Ok (negb same)
  end.

Definition immutableKnown : list string :=
  ["chainId"; "yieldRouterAddress"; "caller"; "poolAddress"; "assets"; "minShares"; "userOpHash";
   "transactionHash"; "reconcileHandle"].

(** The evidence may not contradict what is known of the same phase. *)
Definition check_known (d : db) (h : head_row) (c : checkpoint) : result index_error unit :=
  match latest h with
  | Some (p, s) =>
      if negb (bool_decide (p = cphase c)) then Ok tt
      else
        match p with
        | cctp_attestation | cctp_mint =>
            known ← known_evidence d (owner c);
            bad ← message_conflict known (evidence c)
                    ["burnTxHash"; "expectationDigest"; "messageDigest"; "attestationDigest"; "nonce"];
            if bad : bool then fails "CCTP immutable message evidence conflicts with prior checkpoint" else Ok tt
        | base_deposit =>
            known ← known_evidence d (owner c);
            bad ← handle_conflict known (evidence c);
            if bad : bool then fails "reconcile handle is immutable across Base deposit checkpoints"
            else if bool_decide (s = unknown) && bool_decide (status_ c = confirmed) then
              bad ← known_conflict known (evidence c) immutableKnown;
              if bad : bool then fails "unknown reconciliation conflicts with known hash or intent evidence"
              else Ok tt
            else Ok tt
        | cctp_burn => Ok tt
        end
  | None => Ok tt
  end.

Definition eventId (c : checkpoint) (version : Z) : result index_error chars :=
  t ← canonicalJson (Arr [identity_val (owner c); Number (Num version); Str (phase_name (cphase c));
                          Str (state_name (status_ c))]);
  Ok (sha256 t).

Definition report_val (c : checkpoint) (version : Z) (event_id : chars) : val := Obj [
  ("schemaVersion", Number (Num 1)); ("identity", identity_val (owner c));
  ("expectedRecoveryVersion", Number (Num version));
  ("event", Obj [("eventId", Str (string_of event_id)); ("phase", Str (phase_name (cphase c)));
                 ("state", Str (state_name (status_ c))); ("evidence", evidence c);
                 ("observedAt", Number (Num (observedAt c)))])].

Definition constraint {A} : result index_error A := fails "constraint failed".

(** [INSERT INTO base_evidence_outbox]: the identifiers and the versions of a child are unique. *)
Definition insert_row (d : db) (r : row) : result index_error db :=
  if existsb (fun q => bool_decide (event_id q = event_id r)
                       || (of_child (child r) q && (expected q =? expected r)%Z)) (outbox d)
     || (expected r <? 0)%Z
  then constraint
  else Ok (put_outbox d (outbox d ++ [r])).

Definition advance (h : head_row) (c : checkpoint) (now : Z) : head_row := {|
  job_id := job_id h; next_version := next_version h + 1; latest := Some (cphase c, status_ c);
  submission_owner := submission_owner h; head_updated := now |}.

(** The row of a checkpoint the child has in this phase and state. *)
Definition semantic_row (d : db) (c : checkpoint) : option row :=
  newest (filter (fun r => rphase r = cphase c /\ rstate r = status_ c) (rows_of d (owner c))).

(** The event, whether it was there before, and the database; inside a transaction. *)
Definition enqueueInternal (d : db) (input : val) (now : Z) : result index_error (row * val * bool * db) :=
  c ← validateCheckpoint input;
  match head_of d (owner c) with
  | None => fails "Base evidence identity has not been seeded"
  | Some h =>
      match semantic_row d c with
      | Some r =>
          original ← rowRecord r;
          same ← same_json
                   (checkpoint_val (child r) (rphase r) (rstate r) (original.2)#"event"#"evidence")
                   (checkpoint_val (owner c) (cphase c) (status_ c) (evidence c));
          if same : bool then Ok (original, true, d)
          else fails "immutable Base evidence checkpoint conflict"
      | None =>
          if negb (allowedTransition (latest h) (cphase c) (status_ c))
          then fails "Base evidence phase/state transition is out of order"
          else
            _ ← check_known d h c;
            let version := next_version h in
            eid ← eventId c version;
            digest ← canonicalJson (evidence c);
            report ← canonicalJson (report_val c version eid);
            let r := {|
              id := Z.of_nat (length (outbox d)) + 1; event_id := eid; child := owner c;
              expected := version; rphase := cphase c; rstate := status_ c;
              evidence_digest := sha256 digest; report_json := report; delivery_status := pending;
              attempts := 0; available_at := now; lease := None; last_error_code := None;
              created_at := now; updated_at := now; delivered_at := None |} in
            d ← insert_row d r;
            let d := put_head d (owner c) (advance h c now) in
            record ← rowRecord r;
            Ok (record, false, d)
      end
  end.

Definition enqueue (d : db) (input : val) (now : Z) : result index_error (row * val * bool) * db :=
  transaction d (enqueueInternal d input now).

(** ** Who submits the deposit *)
Definition set_owner (h : head_row) (o : option string) : head_row := {|
  job_id := job_id h; next_version := next_version h; latest := latest h; submission_owner := o;
  head_updated := head_updated h |}.

(** [None]: somebody else has it.  [Some (token, event)]: claimed. *)
Definition claimSubmissionInternal (d : db) (input : val) (token : string) (now : Z)
    : result index_error (option (string * (row * val * bool)) * db) :=
  c ← validateCheckpoint input;
  if negb (bool_decide (cphase c = base_deposit) && bool_decide (status_ c = submitting))
  then fails "Base submission claim requires a submitting checkpoint"
  else
    match head_of d (owner c) with
    | None => fails "Base evidence identity has not been seeded"
    | Some h =>
        if bool_decide (latest h = Some (base_deposit, submitting)) then
          match head (filter (fun r => rphase r = base_deposit /\ rstate r = submitting) (rows_of d (owner c))) with
          | None => fails "immutable Base evidence checkpoint conflict"
          | Some r =>
              original ← report_of r;
              let event := original#"event" in
              same ← same_json
                       (Obj [("identity", identity_val (owner c)); ("phase", event#"phase");
                             ("status", event#"state"); ("evidence", event#"evidence")])
                       (checkpoint_val (owner c) (cphase c) (status_ c) (evidence c));
              if same : bool then Ok (None, d) else fails "immutable Base evidence checkpoint conflict"
          end
        else
          e ← enqueueInternal d (given c) now;
          let '(event, d) := e in
          match head_of d (owner c) with
          | Some h =>
              if bool_decide (latest h = Some (base_deposit, submitting))
                 && bool_decide (submission_owner h = None)
              then Ok (Some (token, event), put_head d (owner c) (set_owner h (Some token)))
              else fails "Base submission owner claim conflict"
          | None => fails "Base submission owner claim conflict"
          end
    end.

Definition claimSubmission (d : db) (input : val) (token : string) (now : Z)
    : result index_error (option (string * (row * val * bool))) * db :=
  transaction d (claimSubmissionInternal d input token now).

Definition enqueueOwned (d : db) (input : val) (ownerToken : string) (now : Z)
    : result index_error (row * val * bool) * db :=
  match validateCheckpoint input with
  | Throw e => (Throw e, d)
  | Ok c =>
      if negb (bool_decide (cphase c = base_deposit)) || bool_decide (status_ c = submitting)
      then (fails "owned Base submission transition is invalid", d)
      else
        transaction d (
          if bool_decide (ownerToken = EmptyString)
             || negb (bool_decide ((head_of d (owner c)) ≫= submission_owner = Some ownerToken))
          then fails "Base submission owner claim is stale"
          else
            e ← enqueueInternal d (given c) now;
            let '(event, d) := e in
            match head_of d (owner c) with
            | Some h =>
                if bool_decide (submission_owner h = Some ownerToken)
                then Ok (event, put_head d (owner c) (set_owner h None))
                else fails "Base submission owner claim is stale"
            | None => fails "Base submission owner claim is stale"
            end)
  end.

(** ** Delivery *)
Definition set_delivery (r : row) (s : delivery) (tries : Z) (available : Z) (l : option (string * Z))
    (code : option string) (at_ : Z) (at_delivery : option Z) : row := {|
  id := id r; event_id := event_id r; child := child r; expected := expected r; rphase := rphase r;
  rstate := rstate r; evidence_digest := evidence_digest r; report_json := report_json r;
  delivery_status := s; attempts := tries; available_at := available; lease := l;
  last_error_code := code; created_at := created_at r; updated_at := at_; delivered_at := at_delivery |}.

(** [lease_expires_at<=?] *)
Definition lapsed (r : row) (at_ : Z) : bool :=
  match lease r with Some (_, e) => (e <=? at_)%Z | None => false end.

Definition bury (at_ : Z) (r : row) : row :=
  if bool_decide (delivery_status r = leased) && lapsed r at_ && (maxAttempts <=? attempts r)%Z
  then set_delivery r dead (attempts r) (available_at r) None (Some "attempt_limit") at_ (delivered_at r)
  else r.

(** An earlier checkpoint of the same child that is not delivered. *)
Definition held_back (l : list row) (r : row) : bool :=
  existsb (fun prior => of_child (child r) prior && (expected prior <? expected r)%Z
                        && negb (bool_decide (delivery_status prior = delivered))) l.

Definition deliverable (l : list row) (at_ : Z) (r : row) : bool :=
  ((bool_decide (delivery_status r = pending) && (available_at r <=? at_)%Z)
   || (bool_decide (delivery_status r = leased) && lapsed r at_))
  && (attempts r <? maxAttempts)%Z && negb (held_back l r).

(** [ORDER BY created_at,id LIMIT 1], the rows being in the order of their [id]. *)
Fixpoint oldest (l : list row) : option row :=
  match l with
  | [] => None
  | r :: l => match oldest l with
              | Some r' => if (created_at r' <? created_at r)%Z then Some r' else Some r
              | None => Some r
              end
  end.

Definition update_row (l : list row) (i : Z) (f : row -> row) : list row :=
  (fun r => if (id r =? i)%Z then f r else r) <$> l.

Definition leaseNext (d : db) (token : string) (at_ leaseMs : Z) : result index_error (option (row * val)) * db :=
  let l := bury at_ <$> outbox d in
  match oldest (filter (fun r => deliverable l at_ r = true) l) with
  | None => (Ok None, put_outbox d l)
  | Some r =>
      let r' := set_delivery r leased (attempts r + 1) (available_at r) (Some (token, at_ + leaseMs)%Z)
                  (last_error_code r) at_ (delivered_at r) in
      (Some <$> rowRecord r', put_outbox d (update_row l (id r) (fun _ => r')))
  end.

(** [WHERE id=? AND delivery_status='leased' AND lease_token=?] *)
Definition held (l : list row) (i : Z) (token : string) : option row :=
  head (filter (fun r => id r = i /\ delivery_status r = leased /\ fst <$> lease r = Some token) l).

Definition transition (d : db) (i : Z) (token : string) (s : delivery) (at_ : Z) (retryAt : option Z)
    (reasonCode : option string) : result index_error (row * val) * db :=
  match held (outbox d) i token with
  | None => (fails "Base evidence lease is stale or uncertain", d)
  | Some r =>
      let r' := set_delivery r s (attempts r) (default (available_at r) retryAt) None reasonCode at_
                  (if bool_decide (s = delivered) then Some at_ else delivered_at r) in
      (rowRecord r', put_outbox d (update_row (outbox d) i (fun _ => r')))
  end.

Definition markDelivered (d : db) (i : Z) (token : string) (at_ : Z) : result index_error (row * val) * db :=
  transition d i token delivered at_ None None.
Definition markRetry (d : db) (i : Z) (token : string) (at_ retryAt : Z) (reasonCode : string)
    : result index_error (row * val) * db :=
  match held (outbox d) i token with
  | None => (fails "Base evidence lease is stale or uncertain", d)
  | Some r =>
      let over := (maxAttempts <=? attempts r)%Z in
      transition d i token (if over then dead else pending) at_ (if over then None else Some retryAt)
        (Some reasonCode)
  end.
Definition markDead (d : db) (i : Z) (token : string) (at_ : Z) (reasonCode : string)
    : result index_error (row * val) * db :=
  transition d i token dead at_ None (Some reasonCode).
(** [block]: what else the transaction does, and whether it throws. *)
Definition markConflict (d : db) (i : Z) (token : string) (at_ : Z) (block : result index_error unit)
    : result index_error (row * val) * db :=
  transaction d (
    match transition d i token conflict at_ None (Some "immutable_conflict") with
    | (Ok r, d) => _ ← block; Ok (r, d)
    | (Throw e, _) => Throw e
    end).

(** ** Reading *)
Definition terminal (s : state) : bool := bool_decide (s ∈ [confirmed; failed; blocked]).

Record status_view := {
  complete : bool; is_blocked : bool; recoveryVersion : option Z; latest_ : option (phase * state);
  events : list row;
}.

Fixpoint insert_by_version (r : row) (l : list row) : list row :=
  match l with
  | [] => [r]
  | q :: l' => if (expected r <=? expected q)%Z then r :: l else q :: insert_by_version r l'
  end.
Definition by_version (l : list row) : list row := foldr insert_by_version [] l.

Definition status (d : db) (identityInput : val) : result index_error status_view :=
  i ← exactIdentity identityInput;
  match head_of d i with
  | None => Ok {| complete := false; is_blocked := false; recoveryVersion := None; latest_ := None; events := [] |}
  | Some h =>
      let rows := by_version (rows_of d i) in
      let conflicted := existsb (fun r => bool_decide (delivery_status r = conflict)) rows in
      Ok {| complete :=
              negb conflicted
              && match latest h with Some (p, s) => bool_decide (p = base_deposit) && terminal s | None => false end
              && negb (bool_decide (rows = []))
              && forallb (fun r => bool_decide (delivery_status r = delivered)) rows;
            is_blocked := conflicted; recoveryVersion := Some (next_version h); latest_ := latest h;
            events := rows |}
  end.

Record recovery_state := {
  rs_identity : identity; rs_recoveryVersion : Z; rs_phase : phase; rs_state : state; rs_evidence : val;
}.

Definition recoveryState (d : db) (identityInput : val) : result index_error (option recovery_state) :=
  i ← exactIdentity identityInput;
  match head_of d i with
  | None => Ok None
  | Some h =>
      match latest h with
      | None => Ok None
      | Some (p, s) =>
          match newest (rows_of d i) with
          | None => fails "Base evidence head has no durable checkpoint"
          | Some r =>
              report ← report_of r;
              let e := report#"event"#"evidence" in
              e ← (if truthy e#"reconcileHandle" then
                     h ← normalizeReconcileHandle e#"reconcileHandle" (coalesce e#"caller" Null);
                     Ok (Obj (set_property (entries e) "reconcileHandle" h))
                   else Ok e);
              Ok (Some {| rs_identity := i; rs_recoveryVersion := next_version h; rs_phase := p;
                          rs_state := s; rs_evidence := e |})
          end
      end
  end.

(** ** The worker *)
Inductive reply := reported | conflicting | retryable | other.

(** One report: the token and the times read, the reporter's reply, and whether the block of a
    conflict throws. *)
Record round := {
  r_token : string; r_leased : Z; r_reply : reply; r_settled : Z; r_retry_from : Z;
  r_block : result index_error unit;
}.

(** [Math.min(60_000, 1_000 * (2 ** Math.max(0, attempts - 1)))] *)
Definition retry_delay (tries : Z) : Z := Z.min 60000 (1000 * 2 ^ Z.max 0 (tries - 1)).

(** Errors of the settlement are ignored: the lease lapses or belongs to another. *)
Definition settle (d : db) (r : row) (q : round) : db :=
  let token := match lease r with Some (t, _) => t | None => EmptyString end in
  match r_reply q with
  | reported => (markDelivered d (id r) token (r_settled q)).2
  | conflicting => (markConflict d (id r) token (r_settled q) (r_block q)).2
  | retryable =>
      (markRetry d (id r) token (r_settled q) (r_retry_from q + retry_delay (attempts r))
         "temporary_failure").2
  | other => (markDead d (id r) token (r_settled q) "permanent_failure").2
  end.

(** How many were handled, and the database; the list ends where the reporter is awaited. *)
Fixpoint drain (d : db) (leaseMs batchSize handled : Z) (rounds : list round) : Z * db :=
  match rounds with
  | [] => (handled, d)
  | q :: rounds =>
      if (handled <? batchSize)%Z then
        match leaseNext d (r_token q) (r_leased q) leaseMs with
        | (Ok (Some (r, _)), d) => drain (settle d r q) leaseMs batchSize (handled + 1) rounds
        | (_, d) => (handled, d)
        end
      else (handled, d)
  end.

(** ** One interface *)
Inductive call :=
| Seed (identity : val) (version : num) (job : option string)
| Enqueue (input : val)
| ClaimSubmission (input : val) (token : string)
| EnqueueOwned (input : val) (token : string)
| LeaseNext (token : string) (leaseMs : Z)
| MarkDelivered (i : Z) (token : string)
| MarkRetry (i : Z) (token : string) (retryAt : Z) (code : string)
| MarkDead (i : Z) (token : string) (code : string)
| MarkConflict (i : Z) (token : string) (block : result index_error unit).

Definition after (d : db) (c : call * Z) : db :=
  let now := c.2 in
  match c.1 with
  | Seed i v j => (seed d i v j now).2
  | Enqueue input => (enqueue d input now).2
  | ClaimSubmission input token => (claimSubmission d input token now).2
  | EnqueueOwned input token => (enqueueOwned d input token now).2
  | LeaseNext token leaseMs => (leaseNext d token now leaseMs).2
  | MarkDelivered i token => (markDelivered d i token now).2
  | MarkRetry i token retryAt code => (markRetry d i token now retryAt code).2
  | MarkDead i token code => (markDead d i token now code).2
  | MarkConflict i token block => (markConflict d i token now block).2
  end.
Definition run (d : db) (l : list (call * Z)) : db := foldl after d l.
Definition empty : db := {| heads := ∅; outbox := [] |}.
End Parameters.
End Strings.
End Outbox.
