(* ===== verification/OutboxSteps.v ===== *)
(** * What the operations of the evidence outbox do

    Every operation is a sequence of four kinds of change: a child is seeded, an event is
    appended, the owner of a submission is set or cleared, rows move between the stages of their
    delivery.  What each change keeps, every run keeps. *)
From S2P Require Export EvidenceOutbox.

Section Steps.
Import Canonical EvidenceSchema Outbox.
Local Open Scope string_scope.
Local Open Scope list_scope.
Local Open Scope Z_scope.
Context (sha256 : chars -> chars) (maxAttempts : Z).

(** ** Changes *)

(** The columns of an event, which no trigger lets an update change. *)
Definition event_of (r : row) : Z * chars * identity * Z * phase * state * chars * chars * Z :=
  (id r, event_id r, child r, expected r, rphase r, rstate r, evidence_digest r, report_json r, created_at r).

Inductive moved (l : list row) (r r' : row) : Prop :=
| mv_bury : delivery_status r = leased -> maxAttempts <= attempts r ->
    delivery_status r' = dead -> attempts r' = attempts r -> lease r' = None -> moved l r r'
| mv_lease t e : delivery_status r = pending \/ delivery_status r = leased -> attempts r < maxAttempts ->
    held_back l r = false -> delivery_status r' = leased -> attempts r' = attempts r + 1 ->
    lease r' = Some (t, e) -> moved l r r'
| mv_settle : delivery_status r = leased -> delivery_status r' <> leased ->
    (delivery_status r' = pending -> attempts r < maxAttempts) -> attempts r' = attempts r -> lease r' = None ->
    moved l r r'.

Definition updated (l : list row) (r r' : row) : Prop :=
  event_of r' = event_of r /\ (r' = r \/ moved l r r').

Record new_event (d : db) (c : checkpoint) (h : head_row) (r : row) : Prop := {
  ne_allowed : allowedTransition (latest h) (cphase c) (status_ c) = true;
  ne_new : forall q, q ∈ rows_of d (owner c) -> ~ (rphase q = cphase c /\ rstate q = status_ c);
  ne_unique : forall q, q ∈ outbox d -> event_id q <> event_id r;
  ne_row : child r = owner c /\ expected r = next_version h /\ rphase r = cphase c /\ rstate r = status_ c /\
    id r = Z.of_nat (length (outbox d)) + 1;
  ne_fresh : delivery_status r = pending /\ attempts r = 0 /\ lease r = None;
}.

Inductive step (d d' : db) : Prop :=
| step_seed i h : head_of d i = None -> latest h = None -> submission_owner h = None -> 0 <= next_version h ->
    d' = put_head d i h -> step d d'
| step_event c h r now : head_of d (owner c) = Some h -> new_event d c h r ->
    d' = put_head (put_outbox d (outbox d ++ [r])) (owner c) (advance h c now) -> step d d'
| step_owner i h o : head_of d i = Some h ->
    o = None \/ (submission_owner h = None /\ latest h = Some (base_deposit, submitting)) ->
    d' = put_head d i (set_owner h o) -> step d d'
| step_rows l : Forall2 (updated (outbox d)) (outbox d) l -> d' = put_outbox d l -> step d d'.

(** ** Enqueueing *)
Lemma of_child_eq i r : of_child i r = true <-> identityValues (child r) = identityValues i.
Proof. apply bool_decide_eq_true. Qed.

Lemma identityValues_inj i j : identityValues i = identityValues j -> i = j.
Proof. destruct i, j. unfold identityValues. cbn. by intros [= -> -> -> -> ->]. Qed.

Lemma rows_of_spec d i r : r ∈ rows_of d i <-> child r = i /\ r ∈ outbox d.
Proof.
  unfold rows_of. rewrite list_elem_of_filter, of_child_eq. split.
  - intros [H%identityValues_inj ?]. done.
  - by intros [-> ?].
Qed.

Lemma newest_None l : newest l = None -> l = [].
Proof. destruct l as [|r l]; [done|]. cbn. destruct (newest l); [by case_match|done]. Qed.

Lemma newest_in l r : newest l = Some r -> r ∈ l.
Proof.
  revert r. induction l as [|q l IH]; [done|]. intros r. cbn. destruct (newest l) as [r'|] eqn:E.
  - destruct (_ <? _); intros [= ->]; [left|right; by apply IH].
  - intros [= ->]. left.
Qed.

Lemma semantic_row_Some d c r : semantic_row d c = Some r ->
  r ∈ rows_of d (owner c) /\ rphase r = cphase c /\ rstate r = status_ c.
Proof. intros H%newest_in%list_elem_of_filter. tauto. Qed.

Lemma semantic_row_None d c q : semantic_row d c = None -> q ∈ rows_of d (owner c) ->
  ~ (rphase q = cphase c /\ rstate q = status_ c).
Proof.
  intros H%newest_None Hq Hc.
  assert (q ∈ filter (fun r => rphase r = cphase c /\ rstate r = status_ c) (rows_of d (owner c))) as Hin
    by (by apply list_elem_of_filter). rewrite H in Hin. by apply not_elem_of_nil in Hin.
Qed.

(** A duplicate changes nothing; another event is appended. *)
Lemma enqueueInternal_Ok d input now e b d' : enqueueInternal sha256 d input now = Ok (e, b, d') ->
  exists c h, validateCheckpoint input = Ok c /\ head_of d (owner c) = Some h /\
    ((b = true /\ d' = d /\ semantic_row d c = Some e.1) \/
     (b = false /\ exists r, e.1 = r /\ new_event d c h r /\
        d' = put_head (put_outbox d (outbox d ++ [r])) (owner c) (advance h c now))).
Proof.
  unfold enqueueInternal. intros (c & Hc & H)%bind_Ok. destruct (head_of d (owner c)) as [h|] eqn:Hh; [|done].
  exists c, h. split_and!; [done..|]. destruct (semantic_row d c) as [r|] eqn:Hs.
  - left. apply bind_Ok in H as (o & Ho & H). apply bind_Ok in H as (same & _ & H). destruct same; [|done].
    injection H as <- <- <-. unfold rowRecord in Ho. apply bind_Ok in Ho as (v & _ & [= <-]). done.
  - right. destruct (negb _) eqn:Ha; [done|]. apply negb_false_iff in Ha.
    apply bind_Ok in H as ([] & _ & H). apply bind_Ok in H as (eid & _ & H). apply bind_Ok in H as (digest & _ & H).
    apply bind_Ok in H as (report & _ & H). apply bind_Ok in H as (d1 & Hi & H).
    apply bind_Ok in H as (o & Ho & [= <- <- <-]). split; [done|]. unfold rowRecord in Ho.
    apply bind_Ok in Ho as (v & _ & [= <-]). eexists. split; [reflexivity|].
    unfold insert_row in Hi. destruct (_ || _) eqn:Hu in Hi; [done|]. injection Hi as <-.
    apply orb_false_iff in Hu as [Hu _]. split; [|done]. split; cbn; try done.
    + intros q Hq. by apply (semantic_row_None d).
    + intros q Hq Heq. apply not_true_iff_false in Hu. apply Hu. apply existsb_exists. exists q.
      split; [by apply list_elem_of_In|]. cbn. by rewrite Heq, bool_decide_eq_true_2.
Qed.

Lemma enqueueInternal_step d input now e b d' : enqueueInternal sha256 d input now = Ok (e, b, d') -> rtc step d d'.
Proof.
  intros (c & h & _ & Hh & [(_ & -> & _)|(_ & r & _ & Hn & ->)])%enqueueInternal_Ok; [done|].
  apply rtc_once. by eapply step_event.
Qed.

Lemma transaction_step {A} d (m : result index_error (A * db)) :
  (forall a d', m = Ok (a, d') -> rtc step d d') -> rtc step d (transaction d m).2.
Proof. destruct m as [[a d']|e]; cbn; intros H; [by eapply H|done]. Qed.

Lemma claim_step d input token now a d' : claimSubmissionInternal sha256 d input token now = Ok (a, d') -> rtc step d d'.
Proof.
  unfold claimSubmissionInternal. intros (c & _ & H)%bind_Ok. destruct (negb _); [done|].
  destruct (head_of d (owner c)) as [h|]; [|done]. destruct (bool_decide _).
  - destruct (head _) as [r|]; [|done]. apply bind_Ok in H as (o & _ & H). apply bind_Ok in H as (same & _ & H).
    destruct same; [|done]. by injection H as _ <-.
  - apply bind_Ok in H as ([[e b] d1] & He & H). apply enqueueInternal_step in He.
    destruct (head_of d1 (owner c)) as [h'|] eqn:Hh'; [|done]. destruct (_ && _) eqn:Hc; [|done].
    injection H as _ <-. apply andb_true_iff in Hc as [H1%bool_decide_eq_true H2%bool_decide_eq_true].
    etransitivity; [done|]. apply rtc_once. eapply step_owner; [done|by right|done].
Qed.

Lemma owned_step d input token now : rtc step d (enqueueOwned sha256 d input token now).2.
Proof.
  unfold enqueueOwned. destruct (validateCheckpoint input) as [c|e]; [|done]. destruct (_ || _); [done|].
  apply transaction_step. intros a d'. destruct (_ || _); [done|]. intros ([[e b] d1] & He & H)%bind_Ok.
  apply enqueueInternal_step in He. destruct (head_of d1 (owner c)) as [h'|] eqn:Hh'; [|done].
  destruct (bool_decide _); [|done]. injection H as _ <-.
  etransitivity; [done|]. apply rtc_once. eapply step_owner; [done|by left|done].
Qed.
(** ** Delivery *)

(** The identifier of a row is its place. *)
Definition numbered (d : db) : Prop := forall k r, outbox d !! k = Some r -> id r = Z.of_nat k + 1.

Lemma event_of_id r r' : event_of r' = event_of r -> id r' = id r.
Proof. unfold event_of. congruence. Qed.

Lemma updated_refl l r : updated l r r.
Proof. by split; [|left]. Qed.

Lemma rows_numbered d l : numbered d -> Forall2 (updated (outbox d)) (outbox d) l -> numbered (put_outbox d l).
Proof.
  intros Hn Hf k r Hk. cbn in Hk. destruct (Forall2_lookup_r _ _ _ _ _ Hf Hk) as (q & Hq & He & _).
  rewrite (event_of_id _ _ He). by apply Hn.
Qed.

Lemma step_numbered d d' : numbered d -> step d d' -> numbered d'.
Proof.
  intros Hn [i h _ _ _ _ ->|c h r now _ [_ _ _ Hr _] ->|i h o _ _ ->|l Hf ->]; try done.
  - intros k q Hq. cbn in Hq. apply lookup_app_Some in Hq as [Hq|[Hle Hq]]; [by apply Hn|].
    apply list_lookup_singleton_Some in Hq as [Hk <-]. replace k with (length (outbox d)) by lia. apply Hr.
  - by apply rows_numbered.
Qed.

Lemma update_row_updated l i r r' : (forall k q, l !! k = Some q -> id q = Z.of_nat k + 1) ->
  r ∈ l -> id r = i -> updated l r r' -> Forall2 (updated l) l (update_row l i (fun _ => r')).
Proof.
  intros Hn Hr Hi Hu. unfold update_row. apply Forall2_fmap_r, Forall2_same_length_lookup_2; [done|].
  intros k q q' Hq Hq'. rewrite Hq in Hq'. injection Hq' as <-.
  cbn. destruct (id q =? i) eqn:E; [|apply updated_refl]. apply Z.eqb_eq in E.
  apply list_elem_of_lookup in Hr as (k' & Hk'). pose proof (Hn _ _ Hk'). pose proof (Hn _ _ Hq).
  assert (k' = k) as -> by lia. rewrite Hk' in Hq. by injection Hq as ->.
Qed.

Lemma put_outbox_twice d l l' : put_outbox (put_outbox d l) l' = put_outbox d l'.
Proof. done. Qed.

Lemma bury_updated l at_ : Forall2 (updated l) l (bury maxAttempts at_ <$> l).
Proof.
  apply Forall2_fmap_r, Forall_Forall2_diag, Forall_forall. intros r _. cbn. unfold bury.
  destruct (_ && _ && _) eqn:E; [|apply updated_refl].
  apply andb_true_iff in E as [[E _]%andb_true_iff Ha%Z.leb_le]. apply bool_decide_eq_true in E.
  split; [done|]. right. by apply mv_bury.
Qed.

Lemma oldest_in l r : oldest l = Some r -> r ∈ l.
Proof.
  revert r. induction l as [|q l IH]; [done|]. intros r. cbn. destruct (oldest l) as [r'|] eqn:E.
  - destruct (_ <? _); intros [= ->]; [right; by apply IH|left].
  - intros [= ->]. left.
Qed.

Lemma deliverable_moves l at_ r : deliverable maxAttempts l at_ r = true ->
  (delivery_status r = pending \/ delivery_status r = leased) /\ attempts r < maxAttempts /\ held_back l r = false.
Proof.
  unfold deliverable. intros [[Hs Ha]%andb_true_iff Hh]%andb_true_iff.
  apply Z.ltb_lt in Ha. apply negb_true_iff in Hh. split_and!; try done.
  apply orb_true_iff in Hs as [[Hs _]%andb_true_iff|[Hs _]%andb_true_iff]; apply bool_decide_eq_true in Hs; auto.
Qed.

(** The row that is leased, in the table after the lapsed ones have been given up. *)
Lemma lease_step d token at_ leaseMs : numbered d -> rtc step d (leaseNext maxAttempts d token at_ leaseMs).2.
Proof.
  intros Hn. unfold leaseNext. set (l := bury maxAttempts at_ <$> outbox d).
  pose proof (bury_updated (outbox d) at_) as Hb. change (bury _ _ <$> outbox d) with l in Hb.
  assert (step d (put_outbox d l)) as H1 by by apply step_rows with l.
  destruct (oldest _) as [r|] eqn:Hr; cbn [snd]; [|by apply rtc_once].
  etransitivity; [by apply rtc_once|]. apply rtc_once.
  apply oldest_in, list_elem_of_filter in Hr as [(Hs & Ha & Hh)%deliverable_moves Hr].
  eapply step_rows; [|reflexivity]. cbn [outbox put_outbox].
  eapply update_row_updated; [by apply (rows_numbered d)|done|done|]. split; [done|]. right.
  by eapply mv_lease.
Qed.

Lemma held_Some l i token r : held l i token = Some r ->
  r ∈ l /\ id r = i /\ delivery_status r = leased /\ exists e, lease r = Some (token, e).
Proof.
  unfold held. intros H. assert (r ∈ filter (fun r => id r = i /\ delivery_status r = leased /\ fst <$> lease r = Some token) l) as Hin.
  { destruct (filter _ l); [done|]. injection H as ->. left. }
  apply list_elem_of_filter in Hin as ((? & ? & Ht) & ?). split_and!; try done.
  destruct (lease r) as [[t e]|]; [|done]. injection Ht as ->. by exists e.
Qed.

Lemma transition_step d i token s at_ retryAt reason : numbered d -> s <> leased ->
  (s = pending -> forall r, held (outbox d) i token = Some r -> attempts r < maxAttempts) ->
  rtc step d (transition d i token s at_ retryAt reason).2.
Proof.
  intros Hn Hs Hp. unfold transition. destruct (held _ _ _) as [r|] eqn:Hr; [|done]. cbn [snd].
  specialize (fun H => Hp H r eq_refl). apply held_Some in Hr as (Hr & Hi & Hl & _).
  apply rtc_once. eapply step_rows; [|reflexivity]. eapply update_row_updated; [done..|]. split; [done|].
  right. by apply mv_settle.
Qed.

Lemma seed_step d v n j now : rtc step d (seed d v n j now).2.
Proof.
  unfold seed. destruct (exactIdentity v) as [i|e]; [|done]. destruct n as [z| | |]; try done.
  destruct (_ || _) eqn:E; [done|]. destruct (head_of d i) as [h|] eqn:Hh; [destruct (negb (next_version h =? z) || _); apply rtc_refl|].
  apply orb_false_iff in E as [_ E%Z.ltb_ge]. apply rtc_once. eapply step_seed; [exact Hh| | | |reflexivity]; try done; cbn; lia.
Qed.

(** ** Runs *)
Lemma outbox_after_steps d c : numbered d -> rtc step d (after sha256 maxAttempts d c).
Proof.
  intros Hn. destruct c as [[v n j|input|input token|input token|token leaseMs|i token|i token retryAt code|i token code|i token block] now];
    unfold after; cbn [fst snd].
  - apply seed_step.
  - apply transaction_step. intros [e b] d'. apply enqueueInternal_step.
  - apply transaction_step. intros a d'. apply claim_step.
  - apply owned_step.
  - by apply lease_step.
  - by apply transition_step.
  - unfold markRetry. destruct (held (outbox d) i token) as [r|] eqn:Hr; [|done].
    destruct (maxAttempts <=? attempts r) eqn:E; apply transition_step; try done.
    intros _ q Hq. rewrite Hr in Hq. injection Hq as <-. by apply Z.leb_gt.
  - by apply transition_step.
  - unfold markConflict. apply transaction_step.
    pose proof (transition_step d i token conflict now None (Some "immutable_conflict") Hn) as Ht.
    destruct (transition _ _ _ _ _ _ _) as [[e|e] d1]; [|done]. intros a d' H.
    apply bind_Ok in H as ([] & _ & [= <- <-]). by apply Ht.
Qed.

(** What every change keeps, every run keeps. *)
Lemma outbox_run_ind (P : db -> Prop) d l :
  (forall d1 d2, P d1 -> step d1 d2 -> P d2) -> numbered d -> P d ->
  numbered (run sha256 maxAttempts d l) /\ P (run sha256 maxAttempts d l).
Proof.
  intros Hstep. revert d. induction l as [|c l IH]; intros d Hn HP; [done|]. cbn.
  assert (numbered (after sha256 maxAttempts d c) /\ P (after sha256 maxAttempts d c)) as [Hn' HP']; [|by apply IH].
  pose proof (outbox_after_steps d c Hn) as Hs. induction Hs as [d|d1 d2 d3 H1 _ IHs]; [done|].
  apply IHs; [by eapply step_numbered|by eapply Hstep].
Qed.

Lemma numbered_empty : numbered empty.
Proof. by intros [|k] r H. Qed.
End Steps.
