(* ===== verification/OutboxSafety.v ===== *)
(** * What holds of every run of the evidence outbox

    The events of a child form one numbered path through the phases; they are delivered in
    this order, each is tried a bounded number of times; one process owns the submission of the
    deposit, once; a history that was reported complete stays complete. *)
From stdpp Require Import list_numbers.
From S2P Require Export OutboxSteps.

Section Safety.
Import Canonical EvidenceSchema Outbox.
Local Open Scope string_scope.
Local Open Scope list_scope.
Local Open Scope Z_scope.
Context (sha256 : chars -> chars) (maxAttempts : Z).
Notation run := (run sha256 maxAttempts).
Notation after := (after sha256 maxAttempts).
Notation step := (step maxAttempts).
Notation updated := (updated maxAttempts).
Notation moved := (moved maxAttempts).

(** ** The history of a child *)

(** A path of allowed transitions, one per row. *)
Inductive path : option (phase * state) -> list row -> option (phase * state) -> Prop :=
| path_nil s : path s [] s
| path_snoc s l r s' : path s l s' -> allowedTransition s' (rphase r) (rstate r) = true ->
    path s (l ++ [r]) (Some (rphase r, rstate r)).

Record child_history (d : db) (i : identity) (h : head_row) : Prop := {
  ch_path : path None (rows_of d i) (latest h);
  ch_versions : exists start, 0 <= start /\
    expected <$> rows_of d i = seqZ start (Z.of_nat (length (rows_of d i))) /\
    next_version h = start + Z.of_nat (length (rows_of d i));
  ch_distinct : NoDup ((fun r => (rphase r, rstate r)) <$> rows_of d i);
}.

(** The columns of a row that its delivery changes. *)
Definition delivery_sound (r : row) : Prop :=
  0 <= attempts r <= Z.max 0 maxAttempts /\
  (delivery_status r = leased <-> is_Some (lease r)) /\
  (delivery_status r <> pending -> 0 < attempts r) /\
  (delivery_status r = pending -> attempts r < maxAttempts \/ attempts r = 0).

Record sound (d : db) : Prop := {
  so_heads : forall r, r ∈ outbox d -> is_Some (head_of d (child r));
  so_child : forall i h, head_of d i = Some h -> child_history d i h;
  so_unseeded : forall i, head_of d i = None -> rows_of d i = [];
  so_events : NoDup (event_id <$> outbox d);
  so_delivery : forall r, r ∈ outbox d -> delivery_sound r;
  so_order : forall r1 r2, r1 ∈ outbox d -> r2 ∈ outbox d -> child r1 = child r2 -> expected r1 < expected r2 ->
    0 < attempts r2 -> delivery_status r1 = delivered;
}.

(** ** Changes of the rows keep the events *)
Lemma updated_events l l1 l2 : Forall2 (updated l) l1 l2 -> event_of <$> l2 = event_of <$> l1.
Proof. induction 1 as [|r r' l1 l2 [H _] _ IH]; [done|]. cbn. by rewrite H, IH. Qed.

Lemma events_map {A} (f : row -> A) (g : Z * chars * identity * Z * phase * state * chars * chars * Z -> A) (l1 l2 : list row) :
  (forall r, f r = g (event_of r)) -> event_of <$> l2 = event_of <$> l1 -> f <$> l2 = f <$> l1.
Proof.
  intros Hf He. rewrite (list_fmap_ext f (g ∘ event_of)) by (intros; apply Hf).
  rewrite (list_fmap_ext f (g ∘ event_of) l1) by (intros; apply Hf). by rewrite !list_fmap_compose, He.
Qed.

Lemma cons_inv {A} (x y : A) l k : x :: l = y :: k -> x = y /\ l = k.
Proof. by injection 1. Qed.

Lemma event_of_row r r' : event_of r' = event_of r ->
  child r' = child r /\ expected r' = expected r /\ rphase r' = rphase r /\ rstate r' = rstate r /\ event_id r' = event_id r.
Proof. unfold event_of. by intros [=]. Qed.

Lemma rows_events (l1 l2 : list row) i : event_of <$> l2 = event_of <$> l1 ->
  event_of <$> filter (fun r => of_child i r = true) l2 = event_of <$> filter (fun r => of_child i r = true) l1.
Proof.
  revert l2. induction l1 as [|r l1 IH]; intros [|r2 l2] H; try done. rewrite !fmap_cons in H. apply cons_inv in H as [Hr H].
  rewrite !filter_cons. pose proof (event_of_row _ _ Hr) as (Hc & _).
  assert (of_child i r2 = of_child i r) as -> by (unfold of_child; by rewrite Hc).
  specialize (IH _ H). case_decide; [|done]. by rewrite !fmap_cons, Hr, IH.
Qed.

Lemma path_events (l1 l2 : list row) s s' : event_of <$> l2 = event_of <$> l1 -> path s l1 s' -> path s l2 s'.
Proof.
  intros He Hp. revert l2 He. induction Hp as [s|s l r s' Hp IH Ha]; intros l2 He.
  - apply fmap_nil_inv in He as ->. constructor.
  - rewrite fmap_app in He. apply fmap_app_inv in He as (l3 & l4 & H3 & H4 & ->).
    destruct l4 as [|r' [|]]; try done. cbn [fmap list_fmap] in H4.
    apply cons_inv in H4 as [H4 _]. apply event_of_row in H4 as (_ & _ & H5 & H6 & _).
    rewrite H5, H6 in Ha. rewrite H5, H6. apply path_snoc with s'; [by apply IH|done].
Qed.

(** A history depends on the events only. *)
Lemma child_history_events d d' i h : rows_of d' i = rows_of d i \/ event_of <$> rows_of d' i = event_of <$> rows_of d i ->
  child_history d i h -> child_history d' i h.
Proof.
  intros He [Hp (start & H0 & Hv & Hn) Hd].
  assert (event_of <$> rows_of d' i = event_of <$> rows_of d i) as He' by (destruct He as [-> |]; done).
  assert (length (rows_of d' i) = length (rows_of d i)) as Hl
    by (by rewrite <- (length_fmap event_of), He', length_fmap).
  split.
  - by eapply path_events.
  - exists start. rewrite Hl. split_and!; [done| |done]. rewrite <- Hv.
    by apply (events_map expected (fun e => e.1.1.1.1.1.2)).
  - rewrite (events_map (fun r => (rphase r, rstate r)) (fun e => (e.1.1.1.1.2, e.1.1.1.2)) (rows_of d i) (rows_of d' i)); done.
Qed.

Lemma head_of_put d i j h : head_of (put_head d i h) j = if decide (j = i) then Some h else head_of d j.
Proof.
  unfold head_of. cbn. case_decide as Hij; [subst; apply lookup_insert_eq|]. apply lookup_insert_ne.
  by intros H%identityValues_inj.
Qed.

Lemma rows_of_app d r i : rows_of (put_outbox d (outbox d ++ [r])) i =
  rows_of d i ++ (if of_child i r then [r] else []).
Proof. unfold rows_of. cbn. rewrite filter_app, filter_cons, filter_nil. by destruct (of_child i r). Qed.

Lemma path_in s l s' : path s l s' -> l <> [] -> exists r, r ∈ l /\ s' = Some (rphase r, rstate r).
Proof.
  destruct 1 as [|s l r s' Hp Ha]; [done|]. intros _. exists r. split; [set_solver|done].
Qed.

Lemma sound_seed d i h : sound d -> head_of d i = None -> latest h = None -> 0 <= next_version h ->
  sound (put_head d i h).
Proof.
  intros [H1 H2 H3 H4 H5 H6] Hi Hl Hn. split; try done.
  - intros r Hr. rewrite head_of_put. case_decide; [done|by apply H1].
  - intros j h'. rewrite head_of_put. case_decide as Hj.
    + intros [= <-]. subst. pose proof (H3 _ Hi) as Hr. split; change (rows_of (put_head d i h) i) with (rows_of d i);
        rewrite Hr; rewrite ?Hl; [constructor|exists (next_version h); cbn; split_and!; [done..|lia]|constructor].
    + intros Hj'. by apply (child_history_events d); [left|apply H2].
  - intros j. rewrite head_of_put. case_decide; [done|]. apply H3.
Qed.

Lemma sound_owner d i h o : sound d -> head_of d i = Some h -> sound (put_head d i (set_owner h o)).
Proof.
  intros [H1 H2 H3 H4 H5 H6] Hi. split; try done.
  - intros r Hr. rewrite head_of_put. case_decide; [done|by apply H1].
  - intros j h'. rewrite head_of_put. case_decide as Hj; [|intros Hj'; by apply (child_history_events d); [left|apply H2]].
    intros [= <-]. subst. destruct (H2 _ _ Hi) as [Hp Hv Hd]. by split.
  - intros j. rewrite head_of_put. case_decide; [done|]. apply H3.
Qed.

Lemma seqZ_snoc start n : seqZ start (Z.of_nat (S n)) = seqZ start (Z.of_nat n) ++ [start + Z.of_nat n].
Proof. rewrite Nat2Z.inj_succ, <- Z.add_1_r, seqZ_app by lia. done. Qed.

Lemma sound_event d c h r now : sound d -> head_of d (owner c) = Some h -> new_event d c h r ->
  sound (put_head (put_outbox d (outbox d ++ [r])) (owner c) (advance h c now)).
Proof.
  intros [H1 H2 H3 H4 H5 H6] Hh [Ha Hn Hu (Hc & He & Hp & Hs & _) (Hd & Ht & Hl)].
  destruct (H2 _ _ Hh) as [Hpath (start & H0 & Hv & Hnext) Hdist].
  assert (forall q, q ∈ outbox d -> child q = owner c -> expected q < expected r) as Hlast.
  { intros q Hq Hqc. assert (q ∈ rows_of d (owner c)) as Hin by by apply rows_of_spec.
    apply (list_elem_of_fmap_2 expected) in Hin. rewrite Hv in Hin. apply elem_of_seqZ in Hin. lia. }
  split.
  - intros q Hq. rewrite head_of_put. case_decide as Hqc; [done|]. cbn in Hq.
    apply elem_of_app in Hq as [Hq|Hq%list_elem_of_singleton]; [by apply H1|]. by subst.
  - intros j h'. rewrite head_of_put. case_decide as Hj.
    + intros [= <-]. subst j.
      assert (rows_of (put_head (put_outbox d (outbox d ++ [r])) (owner c) (advance h c now)) (owner c)
        = rows_of d (owner c) ++ [r]) as Hrows.
      { change (rows_of (put_outbox d (outbox d ++ [r])) (owner c) = rows_of d (owner c) ++ [r]).
        rewrite rows_of_app. by rewrite (proj2 (of_child_eq (owner c) r)) by by rewrite Hc. }
      split; rewrite Hrows.
      * cbn. rewrite <- Hp, <- Hs. apply path_snoc with (latest h); [done|]. by rewrite Hp, Hs.
      * exists start. rewrite length_app, fmap_app, Hv. cbn [length]. rewrite Nat.add_1_r, seqZ_snoc. cbn.
        rewrite He, Hnext. split_and!; [done..|lia].
      * rewrite fmap_app. apply NoDup_app. split_and!; [done| |apply NoDup_singleton].
        intros x Hx Hx'%list_elem_of_singleton. apply list_elem_of_fmap in Hx as (q & -> & Hq).
        apply (Hn q Hq). rewrite Hp, Hs in Hx'. by injection Hx' as -> ->.
    + intros Hj'. apply (child_history_events d); [|by apply H2]. left.
      change (rows_of (put_outbox d (outbox d ++ [r])) j = rows_of d j). rewrite rows_of_app.
      assert (of_child j r = false) as ->; [|by rewrite app_nil_r].
      apply not_true_iff_false. rewrite of_child_eq. rewrite Hc. intros ->%eq_sym%identityValues_inj. done.
  - intros j. rewrite head_of_put. case_decide as Hj; [done|]. intros Hj'.
    change (rows_of (put_outbox d (outbox d ++ [r])) j = []). rewrite rows_of_app, H3 by done.
    assert (of_child j r = false) as ->; [|done].
    apply not_true_iff_false. rewrite of_child_eq. rewrite Hc. intros ->%eq_sym%identityValues_inj. done.
  - cbn. rewrite fmap_app. apply NoDup_app. split_and!; [done| |apply NoDup_singleton].
    intros x Hx Hx'%list_elem_of_singleton. apply list_elem_of_fmap in Hx as (q & -> & Hq). by apply (Hu q Hq).
  - intros q [Hq|Hq%list_elem_of_singleton]%elem_of_app; [by apply H5|]. subst q. unfold delivery_sound.
    rewrite Hd, Ht, Hl. split_and!; try done; lia.
  - intros r1 r2 Hr1 Hr2 Hc12 Hlt Ha2. cbn in Hr1, Hr2.
    apply elem_of_app in Hr2 as [Hr2|Hr2%list_elem_of_singleton]; [|subst; lia].
    apply elem_of_app in Hr1 as [Hr1|Hr1%list_elem_of_singleton]; [by apply (H6 r1 r2)|]. subst r1.
    assert (expected r2 < expected r) by (apply Hlast; congruence). lia.
Qed.
Lemma held_back_false l r q : held_back l r = false -> q ∈ l -> child q = child r -> expected q < expected r ->
  delivery_status q = delivered.
Proof.
  intros H Hq Hc Hlt. destruct (decide (delivery_status q = delivered)) as [|Hd]; [done|].
  apply not_true_iff_false in H. exfalso. apply H. apply existsb_exists. exists q.
  split; [by apply list_elem_of_In|]. apply andb_true_iff. split; [apply andb_true_iff; split|].
  - by apply of_child_eq; rewrite Hc.
  - by apply Z.ltb_lt.
  - by rewrite bool_decide_eq_false_2.
Qed.

(** Delivered rows stay as they are. *)
Lemma delivered_stays l r r' : updated l r r' -> delivery_status r = delivered -> r' = r.
Proof. intros [_ [->|[H|t e [H|H] _ _ _ _ _|H]]] Hd; congruence. Qed.

Lemma delivery_sound_moved l r r' : delivery_sound r -> updated l r r' -> delivery_sound r'.
Proof.
  intros (Ha & Hl & Hp & Hm) [_ [->|[Hs Hmax Hs' Ha' Hl'|t e Hs Hlt _ Hs' Ha' Hl'|Hs Hs' Hp' Ha' Hl']]]; [done|..];
    unfold delivery_sound; rewrite Ha', Hl'.
  - assert (0 < attempts r) by (apply Hp; congruence). rewrite Hs'. split_and!; try done; lia.
  - rewrite Hs'. split_and!; try done; lia.
  - assert (0 < attempts r) by (apply Hp; congruence). split_and!; try done; try lia. intros Hpend. left. by apply Hp'.
Qed.

Lemma sound_rows d l : sound d -> Forall2 (updated (outbox d)) (outbox d) l -> sound (put_outbox d l).
Proof.
  intros [H1 H2 H3 H4 H5 H6] Hf. pose proof (updated_events _ _ _ Hf) as He.
  assert (forall r', r' ∈ l -> exists r, r ∈ outbox d /\ updated (outbox d) r r') as Hback.
  { intros r' (k & Hk)%list_elem_of_lookup. destruct (Forall2_lookup_r _ _ _ _ _ Hf Hk) as (r & Hr & Hu).
    exists r. split; [by eapply list_elem_of_lookup_2|done]. }
  split; cbn [outbox put_outbox].
  - intros r' (r & Hr & Hu)%Hback. pose proof (event_of_row _ _ (proj1 Hu)) as (-> & _). by apply H1.
  - intros i h Hh. apply (child_history_events d); [|by apply H2]. right. by apply rows_events.
  - intros i Hi. apply (fmap_nil_inv event_of). change (event_of <$> filter (fun r => of_child i r = true) l = []).
    rewrite (rows_events (outbox d)) by done. change (event_of <$> rows_of d i = []). by rewrite H3.
  - by rewrite (events_map event_id (fun e => e.1.1.1.1.1.1.1.2) (outbox d)).
  - intros r' (r & Hr & Hu)%Hback. eapply delivery_sound_moved; [by apply H5|done].
  - intros r1' r2' (r1 & Hr1 & Hu1)%Hback (r2 & Hr2 & Hu2)%Hback.
    pose proof (event_of_row _ _ (proj1 Hu1)) as (-> & -> & _). pose proof (event_of_row _ _ (proj1 Hu2)) as (-> & -> & _).
    intros Hc Hlt Ha. enough (delivery_status r1 = delivered) as Hd by (by rewrite (delivered_stays _ _ _ Hu1 Hd)).
    destruct Hu2 as [_ [->|Hm]]; [by apply (H6 r1 r2)|]. destruct (H5 _ Hr2) as (_ & _ & Hp & _).
    destruct Hm as [Hs|t e _ _ Hh _ _ _|Hs]; [apply (H6 r1 r2); try done|by eapply held_back_false|apply (H6 r1 r2); try done];
      apply Hp; congruence.
Qed.

Lemma outbox_sound_step d d' : sound d -> step d d' -> sound d'.
Proof.
  intros Hs [i h Hi Hl _ Hn ->|c h r now Hh Hn ->|i h o Hi _ ->|l Hf ->].
  - by apply sound_seed.
  - by apply sound_event.
  - by apply sound_owner.
  - by apply sound_rows.
Qed.

Lemma outbox_sound_empty : sound empty.
Proof.
  split; try done; try (by intros ? ?%not_elem_of_nil).
  - constructor.
  - by intros ? ? ?%not_elem_of_nil.
Qed.

Lemma run_sound l : numbered (run empty l) /\ sound (run empty l).
Proof. apply outbox_run_ind; [intros d1 d2; apply outbox_sound_step|apply numbered_empty|apply outbox_sound_empty]. Qed.


(** C32. The events of a child reach the agent index in the order of their versions: an event that was
    ever given to the reporter has only delivered events before it.  One that could not be delivered
    holds back all that follow. *)
Theorem delivered_in_order l r1 r2 :
  r1 ∈ outbox (run empty l) -> r2 ∈ outbox (run empty l) -> child r1 = child r2 ->
  expected r1 < expected r2 -> 0 < attempts r2 \/ delivery_status r2 <> pending ->
  delivery_status r1 = delivered.
Proof.
  intros Hr1 Hr2 Hc Hlt Ha. destruct (run_sound l) as [_ Hs]. apply (so_order _ Hs r1 r2); try done.
  destruct Ha as [|Ha]; [done|]. by apply (so_delivery _ Hs r2).
Qed.
(** ** A complete history *)
Lemma by_version_perm l : by_version l ≡ₚ l.
Proof.
  assert (forall r l, insert_by_version r l ≡ₚ r :: l) as Hi.
  { intros r l'. induction l' as [|q l' IH]; [done|]. cbn. destruct (_ <=? _); [done|]. rewrite IH. by constructor. }
  unfold by_version. induction l as [|r l IH]; [done|]. cbn. by rewrite Hi, IH.
Qed.

Definition finished (d : db) (i : identity) (h : head_row) : Prop :=
  (exists s, latest h = Some (base_deposit, s) /\ terminal s = true) /\
  forall r, r ∈ rows_of d i -> delivery_status r = delivered.

Lemma terminal_stuck s p s' : terminal s = true -> allowedTransition (Some (base_deposit, s)) p s' = false.
Proof.
  intros Hs%bool_decide_eq_true. cbn. destruct (decide (p = base_deposit)) as [->|Hp].
  - rewrite bool_decide_eq_true_2 by done. cbn. apply bool_decide_eq_false. destruct s; set_solver.
  - rewrite bool_decide_eq_false_2 by done. cbn. by destruct p.
Qed.

(** The version and the state of a head. *)
Definition head_view (h : head_row) : Z * option (phase * state) := (next_version h, latest h).

Lemma finished_step d d' i h : head_of d i = Some h -> finished d i h -> step d d' ->
  rows_of d' i = rows_of d i /\ exists h', head_of d' i = Some h' /\ head_view h' = head_view h.
Proof.
  intros Hh [(s & Hl & Hs) Hd] [j g Hj _ _ _ ->|c g r now Hg Hn ->|j g o Hj _ ->|l Hf ->].
  - split; [done|]. rewrite head_of_put. case_decide; [subst; congruence|by exists h].
  - assert (owner c <> i) as Hi.
    { intros <-. rewrite Hh in Hg. injection Hg as <-. pose proof (ne_allowed _ _ _ _ Hn) as Ha.
      by rewrite Hl, terminal_stuck in Ha. }
    split.
    + change (rows_of (put_outbox d (outbox d ++ [r])) i = rows_of d i). rewrite rows_of_app.
      assert (of_child i r = false) as ->; [|by rewrite app_nil_r]. apply not_true_iff_false. rewrite of_child_eq.
      destruct (ne_row _ _ _ _ Hn) as (-> & _). by intros ?%identityValues_inj.
    + rewrite head_of_put. case_decide; [congruence|by exists h].
  - split; [done|]. rewrite head_of_put. case_decide; [|by exists h]. subst. rewrite Hh in Hj. injection Hj as <-.
    by eexists.
  - split; [|by exists h]. unfold rows_of in *. cbn [outbox put_outbox]. clear Hh. revert Hf Hd. generalize (outbox d) at 1 as l0.
    intros l0 Hf. induction Hf as [|r r' l1 l2 Hu _ IH]; [done|]. intros Hd. rewrite !filter_cons in *.
    assert (of_child i r' = of_child i r) as ->.
    { unfold of_child. by rewrite (proj1 (event_of_row _ _ (proj1 Hu))). }
    case_decide as Hc; [|by apply IH]. rewrite IH by (intros; apply Hd; by right). f_equal.
    eapply delivered_stays; [done|]. apply Hd. left.
Qed.

(** A history that the outbox once reported complete stays complete: no later call of any
    process adds to it, changes its rows or its version, or makes its status differ. *)
Theorem complete_forever l1 l2 v view :
  status (run empty l1) v = Ok view -> complete view = true ->
  status (run (run empty l1) l2) v = Ok view.
Proof.
  intros Hv Hc. unfold status in *. apply bind_Ok in Hv as (i & Hi & Hv). rewrite Hi. cbn [mbind result_bind].
  set (d := run empty l1) in *. destruct (head_of d i) as [h|] eqn:Hh; [|by injection Hv as <-].
  injection Hv as <-. cbn [complete] in Hc.
  apply andb_true_iff in Hc as [[[_ Hl]%andb_true_iff _]%andb_true_iff Hall].
  assert (finished d i h) as Hfin.
  { split.
    - destruct (latest h) as [[p s]|]; [|done]. apply andb_true_iff in Hl as [Hp%bool_decide_eq_true Hs]. subst.
      by exists s.
    - intros r Hr. assert (r ∈ by_version (rows_of d i)) as Hin by (by rewrite by_version_perm).
      apply forallb_forall with (x := r) in Hall; [by apply bool_decide_eq_true in Hall|by apply list_elem_of_In]. }
  assert (rows_of (run d l2) i = rows_of d i /\ exists h', head_of (run d l2) i = Some h' /\ head_view h' = head_view h)
    as (Hrows & h' & -> & Hview).
  { apply (outbox_run_ind sha256 maxAttempts (fun d' => rows_of d' i = rows_of d i /\
      exists h', head_of d' i = Some h' /\ head_view h' = head_view h) d l2).
    - intros d1 d2 (Hr & h1 & Hh1 & Hv1) Hst. rewrite <- Hr, <- Hv1. apply finished_step; [done| |done].
      unfold finished in *. rewrite Hr. unfold head_view in Hv1. injection Hv1 as _ ->. done.
    - apply run_sound.
    - split; [done|by exists h]. }
  rewrite Hrows. unfold head_view in Hview. injection Hview as -> ->. done.
Qed.
(** ** How often an event is tried *)

(** How often the calls give row [i] to a reporter. *)
Fixpoint leases (i : Z) (d : db) (l : list (call * Z)) : nat :=
  match l with
  | [] => 0%nat
  | (c, now) :: l =>
      ((match c with
        | LeaseNext token leaseMs =>
            match (leaseNext maxAttempts d token now leaseMs).1 with
            | Ok (Some (r, _)) => if decide (id r = i) then 1 else 0
            | _ => 0
            end
        | _ => 0
        end) + leases i (after d (c, now)) l)%nat
  end.

(** The attempts of the row at a place. *)
Definition tries (d : db) (k : nat) : Z := match outbox d !! k with Some r => attempts r | None => 0 end.

Lemma updated_tries l r r' : updated l r r' -> attempts r <= attempts r'.
Proof. intros [_ [->|[_ _ _ -> _|t e _ _ _ _ -> _|_ _ _ -> _]]]; lia. Qed.

Lemma step_tries d d' k : step d d' -> tries d k <= tries d' k.
Proof.
  unfold tries. intros [i h _ _ _ _ ->|c h r now _ [_ _ _ _ (_ & Ht & _)] ->|i h o _ _ ->|l Hf ->]; cbn; try lia.
  - destruct (outbox d !! k) as [q|] eqn:Hq; [by rewrite (lookup_app_l_Some _ _ _ _ Hq)|].
    destruct ((outbox d ++ [r]) !! k) as [q|] eqn:Hq'; [|lia]. rewrite lookup_app_r in Hq' by (by apply lookup_ge_None).
    apply list_lookup_singleton_Some in Hq' as [_ <-]. lia.
  - destruct (outbox d !! k) as [q|] eqn:Hq.
    + destruct (Forall2_lookup_l _ _ _ _ _ Hf Hq) as (q' & -> & Hu). by eapply updated_tries.
    + assert (l !! k = None) as ->; [|lia]. apply lookup_ge_None in Hq. apply lookup_ge_None.
      by rewrite <- (Forall2_length _ _ _ Hf).
Qed.

Lemma steps_tries d d' k : rtc step d d' -> tries d k <= tries d' k.
Proof. induction 1 as [|d d1 d2 H _ IH]; [lia|]. pose proof (step_tries _ _ k H). lia. Qed.

Lemma lease_tries d token at_ leaseMs r v k : numbered d ->
  (leaseNext maxAttempts d token at_ leaseMs).1 = Ok (Some (r, v)) -> id r = Z.of_nat k + 1 ->
  tries d k + 1 <= tries (leaseNext maxAttempts d token at_ leaseMs).2 k.
Proof.
  intros Hn. unfold leaseNext. set (l := bury maxAttempts at_ <$> outbox d).
  pose proof (bury_updated maxAttempts (outbox d) at_) as Hb. change (bury _ _ <$> outbox d) with l in Hb.
  assert (tries d k <= tries (put_outbox d l) k) as H1 by (by eapply step_tries, step_rows).
  pose proof (rows_numbered maxAttempts d l Hn Hb) as Hn'.
  destruct (oldest _) as [q|] eqn:Hq; cbn [fst snd]; [|done]. intros Hr Hk.
  apply oldest_in, list_elem_of_filter in Hq as [_ (j & Hj)%list_elem_of_lookup].
  pose proof (Hn' _ _ Hj) as Hid. unfold rowRecord in Hr.
  destruct (report_of _) as [w|] in Hr; [|done]. injection Hr as <- _. cbn in Hk. assert (j = k) as -> by lia.
  unfold tries in *. cbn [outbox put_outbox] in *. rewrite Hj in H1. unfold update_row. rewrite list_lookup_fmap, Hj. cbn.
  rewrite Z.eqb_refl. cbn. lia.
Qed.

Lemma leases_tries d l k : numbered d ->
  Z.of_nat (leases (Z.of_nat k + 1) d l) + tries d k <= tries (run d l) k.
Proof.
  revert d. induction l as [|[c now] l IH]; intros d Hn; [cbn; lia|].
  pose proof (outbox_after_steps sha256 maxAttempts d (c, now) Hn) as Hs. cbn [leases].
  assert (numbered (after d (c, now))) as Hn'.
  { clear IH. induction Hs as [|d1 d2 d3 H _ IHs]; [done|]. by apply IHs, (step_numbered maxAttempts d1). }
  specialize (IH _ Hn'). cbn [Outbox.run foldl]. unfold Outbox.run in IH. pose proof (steps_tries _ _ k Hs) as Ht.
  destruct c as [| | | |token leaseMs| | | |]; cbn in *; try lia.
  pose proof (lease_tries d token now leaseMs) as Hl. unfold Outbox.after in *. cbn [fst snd] in *.
  destruct (leaseNext maxAttempts d token now leaseMs).1 as [[[r v]|]|]; try lia.
  destruct (decide _) as [Hid|]; [|lia]. specialize (Hl r v k Hn eq_refl Hid). lia.
Qed.

(** C34. An event is given to the reporter at most [maxAttempts] times in all, however often its
    lease lapses or its report fails, and the counter of its row says at least how often. *)
Theorem attempts_bounded l r : r ∈ outbox (run empty l) ->
  Z.of_nat (leases (id r) empty l) <= attempts r <= Z.max 0 maxAttempts.
Proof.
  intros Hr. destruct (run_sound l) as [Hn Hs]. destruct (so_delivery _ Hs r Hr) as ([_ Ha] & _).
  apply list_elem_of_lookup in Hr as (k & Hk). rewrite (Hn _ _ Hk).
  pose proof (leases_tries empty l k numbered_empty) as H. unfold tries at 2 in H. rewrite Hk in H.
  unfold tries in H. cbn in H. destruct ([] !! k) eqn:E; [by destruct k|]. lia.
Qed.
(** ** One owner of the submission *)

(** Whether a call claims the submission of a child's deposit, and whether it records the
    outcome as its owner. *)
Definition for_child (i : identity) (input : val) : bool :=
  match validateCheckpoint input with Ok c => bool_decide (owner c = i) | Throw _ => false end.
Definition claims (i : identity) (d : db) (c : call) (now : Z) : nat :=
  match c with
  | ClaimSubmission input token =>
      match (claimSubmission sha256 d input token now).1 with
      | Ok (Some _) => if for_child i input then 1 else 0
      | _ => 0
      end
  | _ => 0
  end%nat.
Definition settles (i : identity) (d : db) (c : call) (now : Z) : nat :=
  match c with
  | EnqueueOwned input token =>
      match (enqueueOwned sha256 d input token now).1 with
      | Ok _ => if for_child i input then 1 else 0
      | Throw _ => 0
      end
  | _ => 0
  end%nat.
Fixpoint total (f : db -> call -> Z -> nat) (d : db) (l : list (call * Z)) : nat :=
  match l with [] => 0 | (c, now) :: l => f d c now + total f (after d (c, now)) l end%nat.

Definition owner_of (d : db) (i : identity) : option string := head_of d i ≫= submission_owner.
Definition owned (d : db) (i : identity) : nat := match owner_of d i with Some _ => 1 | None => 0 end.
(** The child has an event of the submission. *)
Definition crossed (d : db) (i : identity) : Prop :=
  exists r, r ∈ rows_of d i /\ rphase r = base_deposit /\ rstate r = submitting.

(** Validating a validated checkpoint again gives the same child and state. *)
Lemma identity_field_Ok v f s : identity_field v f = Ok s -> get v f = Str s.
Proof. unfold identity_field. destruct (get v f); try done. case_decide; [done|]. by intros [= ->]. Qed.

Lemma exactIdentity_val i j : exactIdentity (identity_val i) = Ok j -> j = i.
Proof.
  unfold exactIdentity. destruct (negb (is_object _)); [done|]. destruct (negb _); [done|].
  intros (a & Ha & H)%bind_Ok. apply bind_Ok in H as (b & Hb & H). apply bind_Ok in H as (c & Hc & H).
  apply bind_Ok in H as (e & He & H). apply bind_Ok in H as (f & Hf & H).
  apply identity_field_Ok in Ha, Hb, Hc, He, Hf.
  change (Str (networkId i) = Str a) in Ha. change (Str (bindingId i) = Str b) in Hb.
  change (Str (executionId i) = Str c) in Hc. change (Str (allocationId i) = Str e) in He.
  change (Str (childId i) = Str f) in Hf. injection Ha as <-. injection Hb as <-. injection Hc as <-.
  injection He as <-. injection Hf as <-.
  destruct (index_of _ _) as [[|n]|]; try done. destruct (bool_decide _); [|done].
  injection H as <-. by destruct i.
Qed.

Lemma get_given input i k : is_object input = true -> k <> "identity" ->
  get (Obj (set_property (entries input) "identity" (identity_val i))) k = get input k.
Proof.
  intros (fs & ->)%is_object_inv Hk. cbn [entries]. rewrite get_set_property. by case_decide.
Qed.

Lemma validate_given input c c' : validateCheckpoint input = Ok c -> validateCheckpoint (given c) = Ok c' ->
  owner c' = owner c /\ cphase c' = cphase c /\ status_ c' = status_ c.
Proof.
  unfold validateCheckpoint at 1. destruct (is_object input) eqn:Ho; [|done]. cbn [negb].
  destruct (negb (forallb _ _)); [done|]. intros (i & Hi & H)%bind_Ok.
  destruct (member_named phase_name _ _) as [p|] eqn:Hp; [|done].
  destruct (member_named state_name _ _) as [s|] eqn:Hs; [|done]. destruct (negb _); [done|].
  apply bind_Ok in H as (e & _ & H). destruct (input#"observedAt") as [| | |[z| | |]| | | | |]; try done.
  destruct (negb _); [done|]. apply bind_Ok in H as ([] & _ & H). apply bind_Ok in H as (t & _ & [= <-]). cbn [given owner cphase status_].
  unfold validateCheckpoint. rewrite !get_given by done. rewrite Hp, Hs. cbn [is_object negb].
  destruct (negb (forallb _ _)); [done|]. rewrite get_set_property. rewrite decide_True by done.
  intros (j & Hj%exactIdentity_val & H)%bind_Ok. subst j. destruct (negb _); [done|].
  apply bind_Ok in H as (e' & _ & H). destruct (input#"observedAt") as [| | |[z'| | |]| | | | |]; try done.
  destruct (negb _); [done|]. apply bind_Ok in H as ([] & _ & H). apply bind_Ok in H as (t' & _ & [= <-]). done.
Qed.
Lemma owner_of_put d i h j : owner_of (put_head d i h) j = if decide (j = i) then submission_owner h else owner_of d j.
Proof. unfold owner_of. rewrite head_of_put. by case_decide. Qed.

Lemma enqueue_owner d input now e b d' j : enqueueInternal sha256 d input now = Ok (e, b, d') ->
  owner_of d' j = owner_of d j.
Proof.
  intros (c & h & _ & Hh & [(_ & -> & _)|(_ & r & _ & _ & ->)])%enqueueInternal_Ok; [done|].
  rewrite owner_of_put. case_decide as Hj; [|done]. subst. unfold owner_of. by rewrite Hh.
Qed.

Lemma claim_Ok d input token now x d' : claimSubmissionInternal sha256 d input token now = Ok (Some x, d') ->
  exists c, validateCheckpoint input = Ok c /\ ~ crossed d (owner c) /\ crossed d' (owner c) /\
    owner_of d (owner c) = None /\ owner_of d' (owner c) = Some token /\
    forall j, j <> owner c -> owner_of d' j = owner_of d j.
Proof.
  unfold claimSubmissionInternal. intros (c & Hc & H)%bind_Ok. exists c. destruct (negb _) eqn:Hps; [done|].
  apply negb_false_iff, andb_true_iff in Hps as [Hp%bool_decide_eq_true Hs%bool_decide_eq_true].
  destruct (head_of d (owner c)) as [h|] eqn:Hh; [|done]. destruct (bool_decide (latest h = _)) eqn:Hl.
  { destruct (head _) as [r|]; [|done]. apply bind_Ok in H as (o & _ & H). apply bind_Ok in H as (same & _ & H).
    by destruct same. }
  apply bool_decide_eq_false in Hl. apply bind_Ok in H as ([[e b] d1] & He & H).
  pose proof (fun j => enqueue_owner _ _ _ _ _ _ j He) as Ho.
  destruct (head_of d1 (owner c)) as [h'|] eqn:Hh'; [|done]. destruct (_ && _) eqn:Hw; [|done].
  apply andb_true_iff in Hw as [Hl'%bool_decide_eq_true Hn%bool_decide_eq_true]. injection H as _ <-.
  assert (owner_of d (owner c) = None) as Hnone by (rewrite <- Ho; unfold owner_of; by rewrite Hh').
  apply enqueueInternal_Ok in He as (c' & g & Hc' & Hg & Hcases).
  destruct (validate_given _ _ _ Hc Hc') as (Ho' & Hp' & Hs'). rewrite Ho' in *.
  rewrite Hh in Hg. injection Hg as <-.
  destruct Hcases as [(_ & -> & _)|(_ & r & _ & [_ Hnew _ (Hrc & _ & Hrp & Hrs & _) _] & ->)].
  { rewrite Hh in Hh'. injection Hh' as <-. done. }
  rewrite Hp', Hs', Hp, Hs, Ho' in *. split_and!.
  - done.
  - intros (q & Hq & Hqp & Hqs). by apply (Hnew q Hq).
  - exists r. split; [|done]. apply rows_of_spec. split; [done|]. cbn. set_solver.
  - done.
  - by rewrite owner_of_put, decide_True.
  - intros j Hj. rewrite owner_of_put, decide_False by done. apply Ho.
Qed.

Lemma claim_other d input token now d' : claimSubmissionInternal sha256 d input token now = Ok (None, d') -> d' = d.
Proof.
  unfold claimSubmissionInternal. intros (c & Hc & H)%bind_Ok. destruct (negb _); [done|].
  destruct (head_of d (owner c)) as [h|]; [|done]. destruct (bool_decide _).
  - destruct (head _) as [r|]; [|done]. apply bind_Ok in H as (o & _ & H). apply bind_Ok in H as (same & _ & H).
    destruct same; [|done]. by injection H as <-.
  - apply bind_Ok in H as ([[e b] d1] & _ & H). destruct (head_of d1 (owner c)); [|done]. by destruct (_ && _).
Qed.

Lemma owned_Ok d input token now x : (enqueueOwned sha256 d input token now).1 = Ok x ->
  exists c, validateCheckpoint input = Ok c /\
    let d' := (enqueueOwned sha256 d input token now).2 in
    owner_of d (owner c) = Some token /\ owner_of d' (owner c) = None /\
    forall j, j <> owner c -> owner_of d' j = owner_of d j.
Proof.
  unfold enqueueOwned. destruct (validateCheckpoint input) as [c|e] eqn:Hc; [|done]. intros H. exists c. split; [done|].
  destruct (_ || _); [done|]. destruct (bool_decide (token = _) || _) eqn:Ht; [done|].
  apply orb_false_iff in Ht as [_ Ht%negb_false_iff%bool_decide_eq_true]. unfold transaction in *.
  destruct (_ ≫= _) as [[y d']|e] eqn:E in H; [|done]. rewrite E. cbn [fst snd]. clear H.
  apply bind_Ok in E as ([[e b] d1] & He & E). pose proof (fun j => enqueue_owner _ _ _ _ _ _ j He) as Ho.
  destruct (head_of d1 (owner c)) as [h'|] eqn:Hh'; [|done]. destruct (bool_decide _); [|done]. injection E as _ <-.
  split_and!; [done|by rewrite owner_of_put, decide_True|].
  intros j Hj. rewrite owner_of_put, decide_False by done. apply Ho.
Qed.

Lemma owned_other d input token now e : (enqueueOwned sha256 d input token now).1 = Throw e ->
  (enqueueOwned sha256 d input token now).2 = d.
Proof.
  unfold enqueueOwned. destruct (validateCheckpoint input) as [c|]; [|done]. destruct (_ || _); [done|].
  unfold transaction. by destruct (if _ : bool then _ else _) as [[y d']|].
Qed.
(** The heads of deliveries and seeds keep their owner. *)
Lemma heads_owner d d' j : heads d' = heads d -> owner_of d' j = owner_of d j.
Proof. unfold owner_of, head_of. by intros ->. Qed.

Lemma seed_owner d v n job now j : owner_of (seed d v n job now).2 j = owner_of d j.
Proof.
  unfold seed. destruct (exactIdentity v) as [i|e]; [|done]. destruct n as [z| | |]; try done.
  destruct (_ || _); [done|]. destruct (head_of d i) as [h|] eqn:Hh; [by destruct (negb (next_version h =? z) || _)|].
  cbn [snd]. rewrite owner_of_put. case_decide; [|done]. subst. unfold owner_of. by rewrite Hh.
Qed.

Lemma lease_heads d token at_ leaseMs : heads (leaseNext maxAttempts d token at_ leaseMs).2 = heads d.
Proof. unfold leaseNext. by destruct (oldest _). Qed.

Lemma transition_heads d i token s at_ retryAt reason : heads (transition d i token s at_ retryAt reason).2 = heads d.
Proof. unfold transition. by destruct (held _ _ _). Qed.

(** Who has an owner, is claimed and is settled: an account. *)
Lemma owner_account d c now i :
  (owned (after d (c, now)) i + settles i d c now = owned d i + claims i d c now)%nat.
Proof.
  assert (forall d', owner_of d' i = owner_of d i -> owned d' i = owned d i) as Heq by (unfold owned; by intros d' ->).
  destruct c as [v n j|input|input token|input token|token leaseMs|k token|k token retryAt code|k token code|k token block];
    unfold Outbox.after; cbn [fst snd settles claims]; rewrite ?Nat.add_0_r.
  - apply Heq, seed_owner.
  - apply Heq. unfold enqueue, transaction. destruct (enqueueInternal _ _ _ _) as [[[e b] d']|] eqn:E; [|done].
    by eapply enqueue_owner.
  - unfold claimSubmission, transaction, for_child.
    destruct (claimSubmissionInternal _ _ _ _ _) as [[[x|] d']|] eqn:E; cbn [fst snd].
    + apply claim_Ok in E as (c & -> & _ & _ & Hn & Hs & Hj). destruct (bool_decide_reflect (owner c = i)) as [<-|Hne].
      * unfold owned. by rewrite Hn, Hs.
      * rewrite Nat.add_0_r. by apply Heq, Hj.
    + apply claim_other in E as ->. lia.
    + lia.
  - unfold for_child. destruct (enqueueOwned sha256 d input token now).1 as [x|e] eqn:E.
    + apply owned_Ok in E as (c & -> & Hs & Hn & Hj). destruct (bool_decide_reflect (owner c = i)) as [<-|Hne].
      * unfold owned. by rewrite Hn, Hs.
      * rewrite Nat.add_0_r. by apply Heq, Hj.
    + by rewrite (owned_other _ _ _ _ _ E), Nat.add_0_r.
  - apply Heq, heads_owner, lease_heads.
  - apply Heq, heads_owner, transition_heads.
  - apply Heq, heads_owner. unfold markRetry. destruct (held _ _ _); [|done]. apply transition_heads.
  - apply Heq, heads_owner, transition_heads.
  - apply Heq, heads_owner. unfold markConflict, transaction.
    pose proof (transition_heads d k token conflict now None (Some "immutable_conflict")) as Ht.
    destruct (transition _ _ _ _ _ _ _) as [[e|e] d1]; [|done]. destruct block; [|done]. exact Ht.
Qed.

Lemma submission_step d d' i : crossed d i -> step d d' -> crossed d' i.
Proof.
  intros (r & [Hc Hr]%rows_of_spec & Hp & Hs) [j h _ _ _ _ ->|c h q now _ _ ->|j h o _ _ ->|l Hf ->];
    try (exists r; by rewrite rows_of_spec).
  - exists r. rewrite rows_of_spec. split_and!; try done. cbn. set_solver.
  - apply list_elem_of_lookup in Hr as (k & Hk). destruct (Forall2_lookup_l _ _ _ _ _ Hf Hk) as (r' & Hk' & Hu).
    pose proof (event_of_row _ _ (proj1 Hu)) as (Hc' & _ & Hp' & Hs' & _). exists r'. rewrite rows_of_spec.
    split_and!; try congruence. by eapply list_elem_of_lookup_2.
Qed.

Lemma after_numbered d c : numbered d -> numbered (after d c).
Proof.
  intros Hn. pose proof (outbox_after_steps sha256 maxAttempts d c Hn) as Hs.
  induction Hs as [|d1 d2 d3 H _ IHs]; [done|]. by apply IHs, (step_numbered maxAttempts d1).
Qed.

Lemma submission_after d c i : numbered d -> crossed d i -> crossed (after d c) i.
Proof.
  intros Hn Hc. pose proof (outbox_after_steps sha256 maxAttempts d c Hn) as Hs. clear Hn.
  induction Hs as [|d1 d2 d3 H _ IHs]; [done|]. by eapply IHs, submission_step.
Qed.

Lemma claims_crossed i d c now : claims i d c now <> 0%nat ->
  claims i d c now = 1%nat /\ ~ crossed d i /\ crossed (after d (c, now)) i.
Proof.
  destruct c; try done. unfold claims, claimSubmission, transaction, for_child, Outbox.after. cbn [fst snd].
  unfold claimSubmission, transaction.
  destruct (claimSubmissionInternal _ _ _ _ _) as [[[x|] d']|] eqn:E; cbn [fst snd]; try done.
  apply claim_Ok in E as (c & -> & Hn & Hy & _). by destruct (bool_decide_reflect (owner c = i)) as [<-|].
Qed.

Lemma total_claims_crossed i d l : numbered d -> crossed d i -> total (claims i) d l = 0%nat.
Proof.
  revert d. induction l as [|[c now] l IH]; intros d Hn Hc; [done|]. cbn [total].
  rewrite IH by (by apply after_numbered || by apply submission_after).
  destruct (decide (claims i d c now = 0%nat)) as [->|Hne]; [done|]. by apply claims_crossed in Hne as (_ & ? & _).
Qed.

(** C30. The submission of a child's deposit is claimed at most once, in all runs of all processes;
    and the outcome is recorded as the owner's at most as often as it was claimed.  No second
    process ever submits the deposit of a child that was claimed, even after a crash. *)
Theorem deposit_claimed_once i l :
  (total (claims i) empty l <= 1)%nat /\ (total (settles i) empty l <= total (claims i) empty l)%nat.
Proof.
  split.
  - generalize numbered_empty. generalize empty. induction l as [|[c now] l IH]; intros d Hn; cbn [total]; [lia|].
    destruct (decide (claims i d c now = 0%nat)) as [->|Hne]; [by apply IH, after_numbered|].
    apply claims_crossed in Hne as (-> & _ & Hc). rewrite total_claims_crossed; [lia|by apply after_numbered|done].
  - assert (forall d, total (settles i) d l <= total (claims i) d l + owned d i)%nat as H.
    2:{ specialize (H empty). assert (owned empty i = 0%nat) by (unfold owned, owner_of, head_of; cbn; by rewrite lookup_empty). lia. }
    induction l as [|[c now] l IH]; intros d; cbn [total]; [lia|].
    pose proof (owner_account d c now i). specialize (IH (after d (c, now))). lia.
Qed.
End Safety.

Module OutboxSample.
Import Canonical EvidenceSchema Outbox.
Local Open Scope string_scope.
Local Open Scope list_scope.

(** A digest that tells texts apart. *)
Definition sha (text : chars) : chars := text.

Definition kid : identity := {|
  networkId := "testnet"; bindingId := "b"; executionId := "run:exec:a"; allocationId := "a"; childId := "c" |}.
Definition address : string := "0x00000000000000000000000000000000000000aa".
Definition hash : string := "0x00000000000000000000000000000000000000000000000000000000000000bb".
Definition common : list (string * val) := [
  ("chainId", Str "84532"); ("yieldRouterAddress", Str address); ("caller", Str address);
  ("poolAddress", Str address); ("assets", Str "5"); ("minShares", Str "4")].
Definition submitting_input : val := Obj [
  ("identity", identity_val kid); ("phase", Str "base_deposit"); ("status", Str "submitting");
  ("evidence", Obj common); ("observedAt", Number (Num 1))].
Definition confirmed_input : val := Obj [
  ("identity", identity_val kid); ("phase", Str "base_deposit"); ("status", Str "confirmed");
  ("evidence", Obj (common ++ [("shares", Str "5"); ("userOpHash", Str hash); ("transactionHash", Str hash);
    ("event", Obj [("address", Str address); ("topic0", Str hash); ("logIndex", Str "0"); ("caller", Str address);
       ("poolAddress", Str address); ("assets", Str "5"); ("shares", Str "5")])]));
  ("observedAt", Number (Num 2))].

(** Claimed, confirmed by its owner, then reported; the first report fails once. *)
Definition story : list (call * Z) := [
  (Seed (identity_val kid) (Num 3) None, 0%Z); (ClaimSubmission submitting_input "mine", 1%Z);
  (EnqueueOwned confirmed_input "mine", 2%Z);
  (LeaseNext "t1" 30, 3%Z); (MarkRetry 1 "t1" 5 "temporary_failure", 4%Z);
  (LeaseNext "t2" 30, 5%Z); (MarkDelivered 1 "t2", 6%Z);
  (LeaseNext "t3" 30, 7%Z); (MarkDelivered 2 "t3", 8%Z)].
(** The claim is tried again, and so is the delivery. *)
Definition sequel : list (call * Z) := [
  (ClaimSubmission submitting_input "other", 9%Z); (Enqueue confirmed_input, 10%Z); (LeaseNext "t4" 30, 11%Z)].

Definition db_ : db := run sha 5 empty story.
Definition told : status_view :=
  match status db_ (identity_val kid) with Ok v => v | Throw _ =>
    {| complete := false; is_blocked := false; recoveryVersion := None; latest_ := None; events := [] |} end.
Definition tried_row (k : nat) : row :=
  match outbox db_ !! k with Some r => r | None =>
    {| id := 0; event_id := []; child := kid; expected := 0; rphase := cctp_burn; rstate := unknown;
       evidence_digest := []; report_json := []; delivery_status := dead; attempts := 0; available_at := 0;
       lease := None; last_error_code := None; created_at := 0; updated_at := 0; delivered_at := None |} end.

Example story_complete : complete told = true /\ recoveryVersion told = Some 5%Z.
Proof. vm_compute. done. Qed.
Example story_claims :
  (total sha 5 (claims sha kid) empty (story ++ sequel), total sha 5 (settles sha kid) empty (story ++ sequel)) = (1, 1)%nat.
Proof. vm_compute. reflexivity. Qed.
Example story_leases : leases sha 5 1 empty story = 2%nat.
Proof. vm_compute. reflexivity. Qed.
End OutboxSample.

Section Witnesses.
Import Canonical EvidenceSchema Outbox OutboxSample.
Local Open Scope string_scope.
Local Open Scope list_scope.
Local Open Scope Z_scope.


Lemma place_in {A} (l : list A) k x : (k < length l)%nat -> match l !! k with Some r => r | None => x end ∈ l.
Proof.
  intros Hk. destruct (lookup_lt_is_Some_2 l k Hk) as [r Hr]. rewrite Hr. by eapply list_elem_of_lookup_2.
Qed.

Lemma story_rows : length (outbox (run sha 5 empty story)) = 2%nat.
Proof. vm_compute. reflexivity. Qed.

Lemma row_there (k : nat) : (k < 2)%nat -> tried_row k ∈ outbox (run sha 5 empty story).
Proof. intros Hk. unfold tried_row, db_. apply place_in. rewrite story_rows. exact Hk. Qed.

Lemma delivered_in_order_witness :
  expected (tried_row 0) < expected (tried_row 1) /\ delivery_status (tried_row 0) = delivered.
Proof.
  assert (expected (tried_row 0) < expected (tried_row 1)) as Hlt by (vm_compute; reflexivity).
  refine (conj Hlt (delivered_in_order sha 5 story (tried_row 0) (tried_row 1) _ _ _ Hlt (or_introl _))).
  - apply row_there. lia.
  - apply row_there. lia.
  - vm_compute. reflexivity.
  - vm_compute. reflexivity.
Defined.

Lemma attempts_bounded_witness :
  leases sha 5 1 empty story = 2%nat /\ Z.of_nat (leases sha 5 (id (tried_row 0)) empty story) <= 5.
Proof.
  refine (conj _ (Z.le_trans _ _ _ (proj1 (attempts_bounded sha 5 story (tried_row 0) _)) _)).
  - vm_compute. reflexivity.
  - apply row_there. lia.
  - vm_compute. discriminate.
Defined.

Lemma complete_forever_witness :
  status db_ (identity_val kid) = Ok told /\ complete told = true /\
  status (run sha 5 (run sha 5 empty story) sequel) (identity_val kid) = Ok told.
Proof.
  unfold db_. assert (status (run sha 5 empty story) (identity_val kid) = Ok told) as H.
  { unfold told, db_. destruct (status (run sha 5 empty story) (identity_val kid)) eqn:E; [reflexivity|].
    vm_compute in E. discriminate E. }
  assert (complete told = true) as Hc by (vm_compute; reflexivity).
  exact (conj H (conj Hc (complete_forever sha 5 story sequel (identity_val kid) told H Hc))).
Defined.
End Witnesses.
