(* ===== verification/BaseDeposit.v ===== *)
(** * What a deposit on Base is, and what proves it

    The first part of [relayer/src/base/orchestrator.mjs] with
    [relayer/src/base/userOpReceipt.mjs]: the normal form of an allocation, the canonical forms
    of addresses, hashes and counters, and the reading of a receipt: which event of the router
    proves the deposit of an allocation. *)
From S2P Require Export EvidenceOutbox Hex.

Module BaseDeposit.
Export Canonical EvidenceSchema.

Section BaseDeposit.
Local Open Scope string_scope.
Local Open Scope list_scope.

Definition DEPOSITED_TOPIC0 : string :=
  "0xf5681f9d0db1b911ac18ee83d515a1cf1051853a9eae418316a2fdf7dea427c5".
Definition USER_OPERATION_EVENT_TOPIC0 : string :=
  "0x49628fd1471006c1482da88028e9ce4dbb080b815c9b0344d39e5a8e6ec1419f".
Definition DEFAULT_RECONCILE_MAX_BLOCKS : Z := 256%Z.
Definition ADDRESS_RE : chars -> bool := is_0x_hex 40.
Definition HASH_RE : chars -> bool := is_0x_hex 64.

(** ** Errors

    An [Error] by its message, the two classes of the file, what a call rejected with, the
    error that ends a batch because its operation is uncertain, and a [TypeError]. *)
Inductive error :=
| Error (message : string)
| DepositObservationError (reasonCode message : string) (transactionHash : option string)
    (definitive : bool)
| BaseDepositReconciliationError (code message : string)
| Rejection (reason : val)
| Uncertain (userOpHash : string)
| TypeError.

Definition throws {A} (message : string) : result error A := Throw (Error message).
Definition observed {A} (reasonCode message : string) (transactionHash : option string)
    : result error A := Throw (DepositObservationError reasonCode message transactionHash false).
Definition mismatch {A} (message : string) : result error A :=
  Throw (BaseDepositReconciliationError "BASE_DEPOSIT_RECONCILE_MISMATCH" message).

(** An error of the validation of evidence. *)
Definition from_index {A} (m : result index_error A) : result error A :=
  match m with
  | Ok a => Ok a
  | Throw (Canonical.Error message | ValidationError message) => throws message
  | Throw _ => Throw TypeError
  end.

(** [String(v)] *)
Definition to_String (v : val) : result error chars :=
  if stringable v then Ok (coerce v) else Throw TypeError.

(** [String(v || '')] *)
Definition text_or_empty (v : val) : result error chars :=
  if truthy v then to_String v else Ok [].

Definition lower_case (t : chars) : string := string_of (toLowerCase t).

(** [typeof v === 'string' ? v.toLowerCase() : ''] *)
Definition lower_text (v : val) : string :=
  match v with Str s => lower_case (chars_of s) | _ => EmptyString end.

(** ** Canonical forms *)
Definition canonicalAddress (value : val) (label : string) : result error string :=
  let normalized := lower_text value in
  if ADDRESS_RE (chars_of normalized) then Ok normalized
  else throws (label +:+ " must be a canonical EVM address").

Definition canonicalHash (value : val) (label : string) : result error string :=
  let normalized := lower_text value in
  if HASH_RE (chars_of normalized) then Ok normalized
  else Throw (BaseDepositReconciliationError "BASE_DEPOSIT_RECONCILE_VALIDATION"
                (label +:+ " must be a canonical hash")).

Definition decimal (z : Z) : string := string_of (BigInt_toString z).

Definition canonicalUnsigned (value : val) (label : string) : result error string :=
  let bad := mismatch (label +:+ " is not a canonical unsigned decimal") in
  match value with
  | BigInt z => if (0 <=? z)%Z then Ok (decimal z) else bad
  | Number (Num z) => if isSafeInteger (Num z) && (0 <=? z)%Z then Ok (decimal z) else bad
  | Str s => if is_decimal (chars_of s) then Ok s else bad
  | _ => bad
  end.

(** [/^0x[0-9a-fA-F]+$/] *)
Definition hex_quantity (t : chars) : bool :=
  match Hex.after_0x t with
  | Some ((_ :: _) as l) => forallb Hex.is_hex_digit l
  | _ => false
  end.

Definition rpcUnsigned (value : val) (label : string) : result error string :=
  match value with
  | Str s =>
      if hex_quantity (chars_of s) then
        match StringToBigInt (chars_of s) with
        | Some z => Ok (decimal z)
        | None => canonicalUnsigned value label
        end
      else canonicalUnsigned value label
  | _ => canonicalUnsigned value label
  end.

(** ** Allocations *)
Record allocation := {
  given : val; (* the other properties, kept by the spread *)
  identity : Outbox.identity;
  caller : string;
  pool : string;
  amount : Z;
  minShares : Z }.

(** [unexpected || missing]: a property with an empty name is not reported. *)
Definition exactObject (value : val) (fields : list string) (label : string) : result error unit :=
  if negb (is_object value) then throws (label +:+ " must be an object")
  else
    let unexpected := head (filter (fun k => k ∉ fields) (keys value)) in
    let missing := head (filter (fun k => has_own value k = false) fields) in
    let reported o := match o with Some k => negb (bool_decide (k = EmptyString)) | None => false end in
    if reported unexpected || reported missing then throws (label +:+ " has invalid fields")
    else Ok tt.

Definition requireText (value : val) (label : string) : result error string :=
  match value with
  | Str s => if decide (s = EmptyString) then throws (label +:+ " is required") else Ok s
  | _ => throws (label +:+ " is required")
  end.

(** The five fields, in their order. *)
Definition identity_of (value : val) : result error Outbox.identity :=
  let field f := requireText (get value f) ("identity." +:+ f) in
  networkId ← field "networkId";
  bindingId ← field "bindingId";
  executionId ← field "executionId";
  allocationId ← field "allocationId";
  childId ← field "childId";
  Ok {| Outbox.networkId := networkId; Outbox.bindingId := bindingId;
        Outbox.executionId := executionId; Outbox.allocationId := allocationId;
        Outbox.childId := childId |}.

(** The execution is [run:exec:allocation] with a run that is not empty. *)
Definition execution_matches (i : Outbox.identity) : bool :=
  let marker := chars_of ":exec:" in
  match Outbox.index_of marker (chars_of (Outbox.executionId i)) with
  | Some (S n) =>
      bool_decide (drop (S n + length marker) (chars_of (Outbox.executionId i))
                   = chars_of (Outbox.allocationId i))
  | _ => false
  end.

Definition positive_bigint (v : val) : option Z :=
  match v with BigInt z => if (0 <? z)%Z then Some z else None | _ => None end.
Definition nonnegative_bigint (v : val) : option Z :=
  match v with BigInt z => if (0 <=? z)%Z then Some z else None | _ => None end.

Definition normalizeAllocation (input : val) : result error allocation :=
  if negb (is_object input) then throws "allocation must be an object"
  else
    _ ← exactObject input#"identity" Outbox.IDENTITY_FIELDS "allocation identity";
    i ← identity_of input#"identity";
    if negb (execution_matches i) then throws "executionId must match runId and allocationId"
    else
      match positive_bigint input#"amount", nonnegative_bigint input#"minShares" with
      | None, _ => throws "allocation amount must be a positive bigint"
      | _, None => throws "allocation minShares must be a non-negative bigint"
      | Some amount, Some minShares =>
          caller ← canonicalAddress input#"caller" "allocation caller";
          pool ← canonicalAddress input#"pool" "allocation pool";
          Ok {| given := input; identity := i; caller := caller; pool := pool; amount := amount;
                minShares := minShares |}
      end.

(** ** The event of the router *)
Record deposit_event := {
  address : string;
  logIndex : string;
  event_caller : string;
  poolAddress : string;
  assets : Z;
  shares : Z }.

Definition event_val (e : deposit_event) : val := Obj [
  ("address", Str (address e)); ("topic0", Str DEPOSITED_TOPIC0); ("logIndex", Str (logIndex e));
  ("caller", Str (event_caller e)); ("poolAddress", Str (poolAddress e));
  ("assets", Str (decimal (assets e))); ("shares", Str (decimal (shares e)))].

Definition decimalLogIndex (value : val) : result error string :=
  match to_BigInt value with
  | Some parsed =>
      if (parsed <? 0)%Z then observed "deposit_event_malformed" "deposit event log index is malformed" None
      else Ok (decimal parsed)
  | None => observed "deposit_event_malformed" "deposit event log index is malformed" None
  end.

(** [/^0x0{24}[0-9a-fA-F]{40}$/], and the address in the word. *)
Definition topicAddress (value : val) : result error string :=
  let bad := observed "deposit_event_malformed" "deposit event indexed address is malformed" None in
  match value with
  | Str s =>
      match Hex.after_0x (chars_of s) with
      | Some l =>
          if (length l =? 64)%nat && forallb (fun c => Ascii.eqb c "0") (take 24 l)
             && forallb Hex.is_hex_digit (drop 24 l)
          then Ok ("0x" +:+ lower_case (drop 24 l)) else bad
      | None => bad
      end
  | _ => bad
  end.

(** [/^0x[0-9a-fA-F]{128}$/], the two words of the data. *)
Definition event_words (data : val) : option (Z * Z) :=
  match data with
  | Str s =>
      match Hex.after_0x (chars_of s) with
      | Some l =>
          if (length l =? 128)%nat && forallb Hex.is_hex_digit l
          then Some (Hex.be_value (Hex.from_hex (take 64 l)), Hex.be_value (Hex.from_hex (drop 64 l)))
          else None
      | None => None
      end
  | _ => None
  end.

Record metadata := {
  transactionHash : string;
  blockHash : val;
  blockNumber : val }.

(** [log[field] !== undefined && String(log[field]).toLowerCase() !== expected] *)
Definition disagrees (v : val) (expected : string) : result error bool :=
  if strict_eq v Undefined then Ok false
  else t ← to_String v; Ok (negb (bool_decide (lower_case t = expected))).

Definition check_block_hash (log : val) (m : metadata) : result error bool :=
  if strict_eq log#"blockHash" Undefined then Ok false
  else
    match blockHash m with
    | Str h => disagrees log#"blockHash" (lower_case (chars_of h))
    | _ => Ok true
    end.

Definition check_block_number (log : val) (m : metadata) : bool :=
  negb (strict_eq log#"blockNumber" Undefined)
  && (strict_eq (blockNumber m) Undefined
      || match to_BigInt log#"blockNumber", to_BigInt (blockNumber m) with
         | Some a, Some b => negb (a =? b)%Z
         | _, _ => true
         end).

(** The three topics and the words of the data. *)
Definition event_encoding (log : val) (tx : string) : result error (val * val * (Z * Z)) :=
  let bad := observed "deposit_event_malformed" "deposit event encoding is malformed" (Some tx) in
  match log#"topics" with
  | Arr [t0; t1; t2] =>
      t ← to_String t0;
      if negb (bool_decide (lower_case t = DEPOSITED_TOPIC0)) then bad
      else match event_words log#"data" with Some w => Ok (t1, t2, w) | None => bad end
  | _ => bad
  end.

Definition ambiguous_unless {A} (bad : bool) (message tx : string) (k : result error A)
    : result error A :=
  if bad then observed "receipt_ambiguous" message (Some tx) else k.

Definition parseDepositEvent (log : val) (a : allocation) (routerAddress : string) (m : metadata)
    (userOpHash : string) : result error deposit_event :=
  let tx := transactionHash m in
  encoding ← event_encoding log tx;
  let '(t1, t2, (assets, shares)) := encoding in
  txDiffers ← disagrees log#"transactionHash" tx;
  ambiguous_unless txDiffers "deposit event metadata disagrees with receipt" tx (
  opDiffers ← disagrees log#"userOpHash" userOpHash;
  ambiguous_unless opDiffers "deposit event metadata disagrees with receipt" tx (
  blockDiffers ← check_block_hash log m;
  ambiguous_unless blockDiffers "deposit event block hash disagrees with receipt" tx (
  ambiguous_unless (check_block_number log m) "deposit event block number disagrees with receipt" tx (
  caller_ ← topicAddress t1;
  poolAddress ← topicAddress t2;
  if negb (bool_decide (caller_ = caller a)) || negb (bool_decide (poolAddress = pool a))
     || negb (assets =? amount a)%Z || (shares <=? 0)%Z || (shares <? minShares a)%Z
  then observed "deposit_event_mismatch" "deposit event disagrees with immutable intent" (Some tx)
  else
    index ← decimalLogIndex log#"logIndex";
    Ok {| address := routerAddress; logIndex := index; event_caller := caller_;
          poolAddress := poolAddress; assets := assets; shares := shares |})))).

(** ** The receipt *)

(** [log?.topics?.[0]] *)
Definition first_topic (log : val) : val :=
  match log#"topics" with
  | Arr (t :: _) => t
  | Obj _ as topics => topics#"0"
  | _ => Undefined
  end.

(** The logs of the router whose first topic is that of a deposit. *)
Definition is_deposit_log (routerAddress : string) (log : val) : result error bool :=
  match log#"address" with
  | Str s =>
      if bool_decide (lower_case (chars_of s) = routerAddress) then
        t ← text_or_empty (first_topic log);
        Ok (bool_decide (lower_case t = DEPOSITED_TOPIC0))
      else Ok false
  | _ => Ok false
  end.

Record proof := { proof_tx : string; event : deposit_event }.

(** [transactionHash && HASH_RE.test(transactionHash) ? transactionHash : null] *)
Definition tx_candidate (receipt : val) : option string :=
  match receipt#"receipt"#"transactionHash" with
  | Str s =>
      let t := lower_case (chars_of s) in
      if HASH_RE (chars_of t) then Some t else None
  | _ => None
  end.

Definition proveDepositReceipt (receipt : val) (a : allocation) (routerAddress userOpHash : string)
    : result error proof :=
  let op := lower_text receipt#"userOpHash" in
  if negb (is_object receipt) || negb (HASH_RE (chars_of op)) || negb (bool_decide (op = userOpHash))
  then observed "receipt_ambiguous" "user operation receipt is ambiguous" None
  else
    let sender := lower_text receipt#"sender" in
    if negb (ADDRESS_RE (chars_of sender)) || negb (bool_decide (sender = caller a))
    then observed "deposit_event_mismatch" "receipt sender disagrees with immutable caller" None
    else if negb (strict_eq receipt#"success" (Bool true))
            || negb (strict_eq receipt#"receipt"#"status" (Str "success"))
    then Throw (DepositObservationError "userop_reverted" "deposit user operation reverted"
                  (tx_candidate receipt) true)
    else
      match tx_candidate receipt with
      | None => observed "receipt_ambiguous" "receipt transaction hash is ambiguous" None
      | Some tx =>
          match receipt#"logs" with
          | Arr logs =>
              candidates ← filter_throw (is_deposit_log routerAddress) logs;
              match candidates with
              | [] => observed "deposit_event_missing" "canonical deposit event is missing" (Some tx)
              | [log] =>
                  e ← parseDepositEvent log a routerAddress
                        {| transactionHash := tx; blockHash := receipt#"receipt"#"blockHash";
                           blockNumber := receipt#"receipt"#"blockNumber" |} userOpHash;
                  Ok {| proof_tx := tx; event := e |}
              | _ => observed "deposit_event_ambiguous" "canonical deposit event is ambiguous" (Some tx)
              end
          | _ =>
              observed "deposit_event_missing" "user-operation-scoped logs are missing" (Some tx)
          end
      end.

(** ** [userOpReceipt.mjs] *)

(** [/^0x[0-9a-fA-F]{64}$/] *)
Definition TX_HASH (t : chars) : bool :=
  match Hex.after_0x t with
  | Some l => (length l =? 64)%nat && forallb Hex.is_hex_digit l
  | None => false
  end.

Definition requireCanonicalUserOperationHash (userOpHash : val) (label : string) : result error val :=
  t ← text_or_empty userOpHash;
  if TX_HASH t then Ok userOpHash else throws (label +:+ " has no canonical user operation hash").

Definition requireSuccessfulUserOperation (receipt : val) (label : string) : result error val :=
  if negb (strict_eq receipt#"success" (Bool true))
  then throws (label +:+ " outer result was not successful")
  else if negb (strict_eq receipt#"receipt"#"status" (Str "success"))
  then throws (label +:+ " transaction reverted")
  else
    let txHash := receipt#"receipt"#"transactionHash" in
    t ← text_or_empty txHash;
    if TX_HASH t then Ok txHash else throws (label +:+ " has no canonical transaction hash").

End BaseDeposit.

(** ** What an accepted receipt proves *)

(** The event is the router's, for the intent of the allocation. *)
Definition event_proves (a : allocation) (routerAddress : string) (e : deposit_event) : Prop :=
  address e = routerAddress /\ event_caller e = caller a /\ poolAddress e = pool a
  /\ assets e = amount a /\ 0 < shares e /\ minShares a <= shares e.

Lemma ambiguous_Ok {A} bad message tx (k : result error A) x :
  ambiguous_unless bad message tx k = Ok x -> bad = false /\ k = Ok x.
Proof. by destruct bad. Qed.

Lemma parse_event_inv log a router m op e :
  parseDepositEvent log a router m op = Ok e ->
  event_proves a router e /\ strict_eq log#"topics" Undefined = false.
Proof.
  unfold parseDepositEvent. intros H.
  apply bind_Ok in H as ([[t1 t2] [assets_ shares_]] & He & H).
  apply bind_Ok in H as (? & _ & H). apply ambiguous_Ok in H as [_ H].
  apply bind_Ok in H as (? & _ & H). apply ambiguous_Ok in H as [_ H].
  apply bind_Ok in H as (? & _ & H). apply ambiguous_Ok in H as [_ H].
  apply ambiguous_Ok in H as [_ H].
  apply bind_Ok in H as (c & _ & H). apply bind_Ok in H as (p & _ & H).
  destruct (_ || _) eqn:Hb in H; [done|]. zbool.
  apply bind_Ok in H as (i & _ & [= <-]).
  repeat match goal with H : bool_decide _ = true |- _ => apply bool_decide_eq_true in H end.
  split; [split_and!; cbn; (done || lia)|].
  unfold event_encoding in He. by destruct (log#"topics").
Qed.

(** The receipt is of the operation, sent by the caller and successful, and exactly one of its
    logs is a deposit event of the router. *)
Lemma prove_receipt_inv receipt a router op p :
  proveDepositReceipt receipt a router op = Ok p ->
  event_proves a router (event p)
  /\ lower_text receipt#"userOpHash" = op /\ lower_text receipt#"sender" = caller a
  /\ receipt#"success" = Bool true /\ receipt#"receipt"#"status" = Str "success"
  /\ tx_candidate receipt = Some (proof_tx p)
  /\ exists logs log, receipt#"logs" = Arr logs
      /\ filter_throw (is_deposit_log router) logs = Ok [log].
Proof.
  unfold proveDepositReceipt. intros H.
  destruct (negb (is_object receipt) || _ || _) eqn:Hg1; [done|]. zbool.
  destruct (negb (ADDRESS_RE _) || _) eqn:Hg2; [done|]. zbool.
  destruct (negb (strict_eq receipt#"success" _) || _) eqn:Hg3; [done|]. zbool.
  destruct (tx_candidate receipt) as [tx|] eqn:Ht; [|done].
  destruct (receipt#"logs") as [| | | | | | |logs|] eqn:Hl; try done.
  apply bind_Ok in H as (candidates & Hf & H). destruct candidates as [|log [|]]; [done| |done].
  apply bind_Ok in H as (e & He & [= <-]). apply parse_event_inv in He as [He _].
  repeat match goal with H : bool_decide _ = true |- _ => apply bool_decide_eq_true in H end.
  split_and!; try done.
  - by destruct (receipt#"success") as [| |[]|[]| | | | |].
  - by apply strict_eq_Str.
  - by exists logs, log.
Qed.

End BaseDeposit.
