(* ===== verification/DepositDispatch.v ===== *)
(** * The dispatch of deposits

    Models [createOrchestrator] of [relayer/src/base/orchestrator.mjs]: the activation of a
    mandate and [dispatchDeposits], which sends one user operation per allocation and writes a
    checkpoint before and after each step.  A program is the calls it makes to the session
    client and to the callbacks of its caller, and what it does with each answer.  Any list of
    answers is a run; a run that ends before the program does is a crash, or a call that never
    answers. *)
From S2P Require Export BaseDeposit PolicyEngine CanonicalMandate.

Module Dispatch.
Export BaseDeposit.

(** ** Programs *)

(** One call of a batch, with the function and the arguments its data encodes. *)
Record batch_call := {
  to : val;
  value : Z;
  function : string;
  arguments : list val;
  data : val }.

(** The calls to the outside.  The allocation a call is made for is there for the sake of the
    statements; the callee does not see it. *)
Inductive call :=
| Reconstruct
| CaptureHandle (a : allocation) (entryPoint sender : string)
| GetNonce
| GetBlockNumber
| Clock
| BeforeClaim (a : allocation)
| Claim (a : allocation) (evidence observedAt : val) (authoritySnapshot : option val)
| Checkpoint (a : allocation) (status : state) (evidence observedAt : val) (ownerToken : option string)
| EncodeCalls (a : option allocation) (batch : list batch_call)
| BeforeSend (a : allocation) (evidence reconcileHandle callData : val)
| Send (a : option allocation) (callData : val) (nonce : option Z)
| OnSubmitted (userOpHash : val)
| WaitForReceipt (userOpHash : val).

(** A call returns a value or rejects with one. *)
Inductive answer := Returned (v : val) | Rejected (reason : val).

Inductive prog (A : Type) :=
| Ret (a : A)
| Fail (e : error)
| Ask (c : call) (k : answer -> prog A).
Arguments Ret {A} a.
Arguments Fail {A} e.
Arguments Ask {A} c k.

Fixpoint andThen {A B} (p : prog A) (f : A -> prog B) : prog B :=
  match p with
  | Ret a => f a
  | Fail e => Fail e
  | Ask c k => Ask c (fun r => andThen (k r) f)
  end.

#[global] Instance prog_ret : MRet prog := @Ret.
#[global] Instance prog_bind : MBind prog := fun A B f p => andThen p f.

(** [try { p } catch (reason) { ... }]: the result or the reason. *)
Fixpoint attempt {A} (p : prog A) : prog (A + error) :=
  match p with
  | Ret a => Ret (inl a)
  | Fail e => Ret (inr e)
  | Ask c k => Ask c (fun r => attempt (k r))
  end.

Definition ask (c : call) : prog val :=
  Ask c (fun r => match r with Returned v => Ret v | Rejected e => Fail (Rejection e) end).
Definition lift {A} (m : result error A) : prog A :=
  match m with Ok a => Ret a | Throw e => Fail e end.
Definition lift_option {A} (m : option A) : prog A :=
  match m with Some a => Ret a | None => Fail TypeError end.

(** *** Runs *)
Inductive outcome (A : Type) :=
| Done (a : A)
| Raised (e : error)
| Waiting (c : call).
Arguments Done {A} a.
Arguments Raised {A} e.
Arguments Waiting {A} c.

(** The calls that were answered, with their answers, and how the run ends. *)
Fixpoint run {A} (p : prog A) (answers : list answer) : list (call * answer) * outcome A :=
  match p with
  | Ret a => ([], Done a)
  | Fail e => ([], Raised e)
  | Ask c k =>
      match answers with
      | [] => ([], Waiting c)
      | r :: answers => let '(log, o) := run (k r) answers in ((c, r) :: log, o)
      end
  end.

(** Every call that was made, the last one perhaps without an answer. *)
Definition calls {A} (x : list (call * answer) * outcome A) : list call :=
  x.1.*1 ++ match x.2 with Waiting c => [c] | _ => [] end.

(** ** What the results say *)
Inductive entry_status := fulfilled | rejected | held | uncertain | owner_action_required.
Inductive execution_status := exec_deposited | exec_held | exec_confirming | exec_unknown | exec_failed.
Inductive custody := in_agent | in_base_proxy | in_base_kernel.

(** [None] in the optional fields stands for [null] and for a field that is not there. *)
Record entry := {
  of_identity : option Outbox.identity;
  of_allocation : val;
  of_pool : val;
  status : entry_status;
  reasonCode : option string;
  reason : option error;
  executionStatus : execution_status;
  custody_ : custody;
  entry_userOpHash : option val;
  entry_txHash : option val;
  entry_event : option deposit_event }.

Section Dispatch.
Local Open Scope string_scope.
Local Open Scope list_scope.

(** The configuration: the chain, the contracts, the address of the SDK's entry point, the
    encoder of function calls ([None] where it throws), and which of the optional readers and
    callbacks are there. *)
Record config := {
  chain_id : val;
  yieldRouterAddress : val;
  usdcAddress : val;
  ENTRY_POINT_address : val;
  encodeFunctionData : string -> list val -> option val;
  baseCrossChainAvailable : bool;
  has_captureReconcileHandleFn : bool;
  has_nonceReader : bool;
  has_blockReader : bool }.

Record options := {
  has_onCheckpoint : bool;
  has_onClaimSubmitting : bool;
  has_onBeforeClaimSubmitting : bool;
  has_onBeforeSend : bool }.

Context (cfg : config) (opts : options).

Definition requireBaseExecution : prog unit :=
  if baseCrossChainAvailable cfg then Ret tt
  else Fail (Error "Base cross-chain execution is unavailable").

(** ** The handle *)
Definition captureReconcileHandle (kernelClient : val) (a : allocation) : prog val :=
  sender ← lift (canonicalAddress kernelClient#"account"#"address" "reconstructed Kernel address");
  entryPoint ← lift (canonicalAddress (ENTRY_POINT_address cfg) "pinned EntryPoint");
  if negb (bool_decide (entryPoint = PINNED_ENTRY_POINT))
  then Fail (Error "configured EntryPoint disagrees with the pinned EntryPoint")
  else if has_captureReconcileHandleFn cfg then
    handle ← ask (CaptureHandle a entryPoint sender);
    lift (from_index (normalizeReconcileHandle handle (Str sender)))
  else if negb (has_nonceReader cfg) || negb (has_blockReader cfg)
  then Fail (Error "Base reconcile handle requires nonce and startBlock reads")
  else
    (* both reads are started before either is awaited *)
    Ask GetNonce (fun n => Ask GetBlockNumber (fun b =>
      match n, b with
      | Returned n, Returned b =>
          nonce ← lift (canonicalUnsigned n "reconcile nonce");
          startBlock ← lift (canonicalUnsigned b "reconcile startBlock");
          lift (from_index (normalizeReconcileHandle
            (Obj [("entryPoint", Str entryPoint); ("sender", Str sender); ("nonce", Str nonce);
                  ("startBlock", Str startBlock)]) (Str sender)))
      | Rejected e, _ | _, Rejected e => Fail (Rejection e)
      end)).

(** ** The calls of a deposit *)

(** [{ to, value: 0n, data: encodeFunctionData(...) }] *)
Definition encoded (to : val) (function : string) (arguments : list val) : prog batch_call :=
  data ← lift_option (encodeFunctionData cfg function arguments);
  Ret {| to := to; value := 0; function := function; arguments := arguments; data := data |}.

Definition deposit_batch (pool : val) (amount minShares : Z) : prog (list batch_call) :=
  approve ← encoded (usdcAddress cfg) "approve" [yieldRouterAddress cfg; BigInt amount];
  deposit ← encoded (yieldRouterAddress cfg) "deposit" [pool; BigInt amount; BigInt minShares];
  Ret [approve; deposit].

(** ** The evidence of a checkpoint *)
Definition nullable (o : option string) : val := match o with Some s => Str s | None => Null end.

Definition plainEvidence (a : allocation) (router : string) : list (string * val) :=
  [("chainId", Str (string_of (coerce (chain_id cfg)))); ("yieldRouterAddress", Str router);
   ("caller", Str (caller a)); ("poolAddress", Str (pool a));
   ("assets", Str (decimal (amount a))); ("minShares", Str (decimal (minShares a)))].

Definition commonEvidence (a : allocation) (router : string) (handle : val)
    : list (string * val) :=
  plainEvidence a router ++ [("reconcileHandle", handle)].

Definition hashes (userOpHash transactionHash : option string) : list (string * val) :=
  [("userOpHash", nullable userOpHash); ("transactionHash", nullable transactionHash)].
Definition because (reasonCode : string) : list (string * val) := [("reasonCode", Str reasonCode)].

Definition confirmedEvidence (common : list (string * val)) (userOpHash : string) (p : proof)
    : list (string * val) :=
  common ++ [("shares", Str (decimal (shares (event p)))); ("userOpHash", Str userOpHash);
             ("transactionHash", Str (proof_tx p)); ("event", event_val (event p))].

Definition custodyEvidence : list (string * val) :=
  [("custodyLocation", Str "base-kernel"); ("kernelCustodyConfirmed", Bool true);
   ("custody", Obj [("location", Str "base-kernel"); ("confirmed", Bool true)])].

(** [checkpoint(status, evidence)]; an empty token is none. *)
Definition owner_option (owner : option string) : option string :=
  match owner with Some EmptyString => None | o => o end.
Definition checkpoint (a : allocation) (owner : option string) (s : state)
    (evidence : list (string * val)) : prog val :=
  observedAt ← ask Clock;
  ask (Checkpoint a s (Obj evidence) observedAt (owner_option owner)).

(** ** The entries *)
Definition entry_of (a : allocation) (s : entry_status) (code : option string) (why : option error)
    (x : execution_status) (c : custody) (userOpHash transactionHash : option string)
    (e : option deposit_event) : entry := {|
  of_identity := Some (identity a); of_allocation := Str (Outbox.allocationId (identity a));
  of_pool := Str (pool a); status := s; reasonCode := code; reason := why; executionStatus := x;
  custody_ := c; entry_userOpHash := Str <$> userOpHash; entry_txHash := Str <$> transactionHash;
  entry_event := e |}.

Definition held_entry (a : allocation) (code : string) (why : option error) : entry :=
  entry_of a held (Some code) why exec_held in_agent None None None.
Definition uncertain_entry (a : allocation) (code : string) (why : error)
    (userOpHash transactionHash : option string) (e : option deposit_event) : entry :=
  entry_of a uncertain (Some code) (Some why) exec_unknown in_agent userOpHash transactionHash e.

(** An entry and whether the batch stops after it. *)
Definition stop (e : entry) : prog (entry * bool) := Ret (e, true).
Definition go_on (e : entry) : prog (entry * bool) := Ret (e, false).

(** [reason?.code], [reason?.checkpointOutcome] and the like *)
Definition reason_field (e : error) (k : string) : val :=
  match e with Rejection v => get v k | _ => Undefined end.

(** ** The steps of one deposit, last first *)
Section One.
Context (a : allocation) (router : string) (handle : val).

Definition common : list (string * val) := commonEvidence a router handle.

(** The outer [catch], with the variables as they are when the error is thrown. *)
Definition on_error (owner userOpHash transactionHash : option string) (why : error)
    : prog (entry * bool) :=
  if match why with
     | Uncertain _ => true
     | _ => strict_eq (reason_field why "code") (Str "BASE_DEPOSIT_UNCERTAIN")
     end
  then Fail why
  else
    let '(code, tx, definitive) :=
      match why with
      | DepositObservationError code _ tx definitive => (code, tx, definitive)
      | _ => ("receipt_ambiguous", transactionHash, false)
      end in
    _ ← checkpoint a owner (if definitive then failed else unknown)
          (common ++ hashes userOpHash tx ++ because code
           ++ (if definitive then custodyEvidence else []));
    if definitive
    then go_on (entry_of a owner_action_required (Some code) (Some why) exec_failed in_base_kernel
                  userOpHash tx None)
    else stop (uncertain_entry a code why userOpHash tx None).

(** A step inside the outer [try]. *)
Definition guarded {A} (owner userOpHash transactionHash : option string) (p : prog A)
    (k : A -> prog (entry * bool)) : prog (entry * bool) :=
  r ← attempt p;
  match r with inl x => k x | inr why => on_error owner userOpHash transactionHash why end.

(** The receipt has come. *)
Definition on_receipt (userOpHash : string) (receipt : val) : prog (entry * bool) :=
  guarded None (Some userOpHash) None (lift (proveDepositReceipt receipt a router userOpHash))
    (fun p =>
      let tx := Some (proof_tx p) in
      let evidence := confirmedEvidence common userOpHash p in
      r ← attempt (checkpoint a None confirmed evidence);
      match r with
      | inl _ =>
          go_on (entry_of a fulfilled None None exec_deposited in_base_proxy (Some userOpHash) tx
                   (Some (event p)))
      | inr why =>
          guarded None (Some userOpHash) tx
            (checkpoint a None unknown (evidence ++ because "confirmed_checkpoint_failed"))
            (fun _ => stop (uncertain_entry a "confirmed_checkpoint_failed" why (Some userOpHash) tx
                              (Some (event p))))
      end).

Definition wait_for_receipt (userOpHash : string) : prog (entry * bool) :=
  r ← attempt (ask (WaitForReceipt (Str userOpHash)));
  match r with
  | inl receipt => on_receipt userOpHash receipt
  | inr why =>
      stop (entry_of a held (Some "submitted_receipt_pending") (Some why) exec_confirming in_agent
              (Some userOpHash) None None)
  end.

(** An object takes the properties [code] and [userOpHash]; a primitive refuses them. *)
Definition mark_uncertain (why : error) (userOpHash : string) : error :=
  match why with
  | Rejection (Obj _ | Arr _) | Error _ | DepositObservationError _ _ _ _
  | BaseDepositReconciliationError _ _ | TypeError => Uncertain userOpHash
  | Rejection _ => TypeError
  | Uncertain h => Uncertain h
  end.

(** The operation was sent: the hash is written down before its receipt is awaited. *)
Definition on_sent (owner : option string) (userOpHash : string) : prog (entry * bool) :=
  r ← attempt (checkpoint a owner submitted (common ++ [("userOpHash", Str userOpHash)]));
  match r with
  | inl _ => wait_for_receipt userOpHash
  | inr why =>
      r' ← attempt (checkpoint a owner unknown
             (common ++ hashes (Some userOpHash) None ++ because "submitted_checkpoint_failed"));
      match r' with
      | inl _ => stop (uncertain_entry a "submitted_checkpoint_failed" why (Some userOpHash) None None)
      | inr fallback => on_error owner (Some userOpHash) None (mark_uncertain fallback userOpHash)
      end
  end.

(** [BigInt(reconcileHandle.nonce)] *)
Definition handle_nonce : option Z := to_BigInt handle#"nonce".

(** The hash the client answers, in lower case. *)
Definition sent_hash (answered : val) (label : string) : result error string :=
  h ← requireCanonicalUserOperationHash answered label;
  match h with Str s => Ok (lower_case (chars_of s)) | _ => Throw TypeError end.

Definition send_operation (owner : option string) (callData : val) : prog (entry * bool) :=
  r ← attempt (
    nonce ← lift_option handle_nonce;
    answered ← ask (Send (Some a) callData (Some nonce));
    lift (sent_hash answered ("deposit into " +:+ pool a)));
  match r with
  | inl userOpHash => on_sent owner userOpHash
  | inr why =>
      guarded owner None None
        (checkpoint a owner unknown (common ++ hashes None None ++ because "send_result_unknown"))
        (fun _ => stop (uncertain_entry a "send_result_unknown" why None None None))
  end.

(** [beforeSendResult === true || beforeSendResult?.allowed === true] *)
Definition send_allowed (v : val) : bool :=
  strict_eq v (Bool true) || strict_eq v#"allowed" (Bool true).

(** The fence was lost: the checkpoint is written unless the callback did. *)
Definition on_fence_lost (owner : option string) (checkpointed : bool) (why : error)
    : prog (entry * bool) :=
  let lost := stop (uncertain_entry a "pre_submit_fence_lost" why None None None) in
  if checkpointed then lost
  else
    r ← attempt (checkpoint a owner unknown
          (common ++ hashes None None ++ because "pre_submit_fence_lost"));
    match r with
    | inl _ => lost
    | inr (Rejection (Obj _ | Arr _) as e) =>
        stop (held_entry a "pre_submit_fence_checkpoint_failed" (Some e))
    | inr (Rejection _) => on_error owner None None TypeError (* [checkpointError.cause = reason] *)
    | inr e => stop (held_entry a "pre_submit_fence_checkpoint_failed" (Some e))
    end.

Definition before_send (owner : option string) (callData : val) : prog (entry * bool) :=
  if has_onBeforeSend opts then
    Ask (BeforeSend a (Obj common) handle callData) (fun r =>
      match r with
      | Returned v =>
          if send_allowed v then send_operation owner callData
          else on_fence_lost owner (strict_eq v#"checkpointed" (Bool true))
                 (if nullish v#"reason" then Error "Base send fence was lost"
                  else Rejection v#"reason")
      | Rejected e =>
          on_fence_lost owner false
            (if nullish e then Error "Base send fence was lost" else Rejection e)
      end)
  else send_operation owner callData.

(** The deposit is claimed: its calls are encoded. *)
Definition on_claimed (owner : option string) : prog (entry * bool) :=
  r ← attempt (
    batch ← deposit_batch (Str (pool a)) (amount a) (minShares a);
    ask (EncodeCalls (Some a) batch));
  match r with
  | inl callData => before_send owner callData
  | inr why =>
      guarded owner None None
        (checkpoint a owner failed (common ++ hashes None None ++ because "pre_submit_validation"))
        (fun _ => go_on (entry_of a rejected (Some "pre_submit_validation") (Some why) exec_held
                           in_agent None None None))
  end.

(** *** The claim *)

(** What [onBeforeClaimSubmitting] grants: nothing, or the snapshot to claim with if any. *)
Definition authority_of (fresh : val) : option (option val) :=
  let snapshot :=
    if strict_eq fresh#"authorized" (Bool true)
       && (is_object fresh#"authoritySnapshot" || is_array fresh#"authoritySnapshot")
    then Some fresh#"authoritySnapshot" else None in
  match snapshot with
  | Some s => Some (Some s)
  | None => if strict_eq fresh (Bool true) then Some None else None
  end.

Definition claimed_owner (claim : val) : option string :=
  if strict_eq claim#"claimed" (Bool true) then
    match claim#"ownerToken" with
    | Str s => if decide (s = EmptyString) then None else Some s
    | _ => None
    end
  else None.

(** The inner [catch]: a claim or checkpoint that failed. *)
Definition on_claim_error (why : error) : prog (entry * bool) :=
  if strict_eq (reason_field why "checkpointOutcome") (Str "not_committed")
  then go_on (entry_of a rejected (Some "pre_submit_validation") (Some why) exec_held in_agent None
                None None)
  else stop (uncertain_entry a "submitting_checkpoint_ambiguous" why None None None).

Definition claim_with (snapshot : option val) : prog (entry * bool) :=
  r ← attempt (observedAt ← ask Clock; ask (Claim a (Obj common) observedAt snapshot));
  match r with
  | inl claim =>
      match claimed_owner claim with
      | Some owner => on_claimed (Some owner)
      | None =>
          stop (held_entry a
            (if strict_eq claim#"reasonCode" (Str "mandate_authority_changed")
             then "authority_changed_before_submission" else "submission_claim_held") None)
      end
  | inr why => on_claim_error why
  end.

Definition claim_deposit : prog (entry * bool) :=
  if has_onClaimSubmitting opts then
    if has_onBeforeClaimSubmitting opts then
      Ask (BeforeClaim a) (fun r =>
        match match r with Returned v => authority_of v | Rejected _ => None end with
        | Some snapshot => claim_with snapshot
        | None => stop (held_entry a "authority_changed_before_submission" None)
        end)
    else claim_with None
  else
    r ← attempt (checkpoint a None submitting common);
    match r with inl _ => on_claimed None | inr why => on_claim_error why end.

End One.

Definition deposit_one (kernelClient : val) (a : allocation) : prog (entry * bool) :=
  r ← attempt (captureReconcileHandle kernelClient a);
  match r with
  | inr why => stop (held_entry a "reconcile_handle_unavailable" (Some why))
  | inl handle =>
      router ← lift (canonicalAddress (yieldRouterAddress cfg) "YieldRouter address");
      claim_deposit a router handle
  end.

(** The loop: once an entry stops the batch, the rest is not dispatched. *)
Fixpoint dispatch_loop (kernelClient : val) (allocations : list allocation) (stopped : bool)
    : prog (list entry) :=
  match allocations with
  | [] => Ret []
  | a :: allocations =>
      if stopped then
        rest ← dispatch_loop kernelClient allocations true;
        Ret (held_entry a "not_dispatched_after_unknown" None :: rest)
      else
        r ← deposit_one kernelClient a;
        rest ← dispatch_loop kernelClient allocations r.2;
        Ret (r.1 :: rest)
  end.

(** ** The batch *)
Definition same_context (first a : allocation) : bool :=
  bool_decide (Outbox.networkId (identity a) = Outbox.networkId (identity first))
  && bool_decide (Outbox.bindingId (identity a) = Outbox.bindingId (identity first))
  && bool_decide (Outbox.childId (identity a) = Outbox.childId (identity first))
  && bool_decide (caller a = caller first).

Definition within_cap (amount : Z) : bool := (amount <=? CanonicalMandate.MAX_CALL_CAP_UNITS)%Z.

Definition over_cap_message (pool : string) : string :=
  "allocation for " +:+ pool +:+ " exceeds the "
  +:+ decimal CanonicalMandate.MAX_CALL_CAP_UNITS +:+ " per-call cap".

Definition check_caps (allocations : list (string * Z)) : result error unit :=
  match filter (fun x => within_cap x.2 = false) allocations with
  | (pool, _) :: _ => throws (over_cap_message pool)
  | [] => Ok tt
  end.

(** With [onCheckpoint]: every allocation in its normal form, one context, one caller. *)
Definition dispatch_durable (inputs : list val) : prog (list entry) :=
  allocations ← lift (map_throw normalizeAllocation inputs);
  if match allocations with
     | first :: rest => negb (forallb (same_context first) rest)
     | [] => false
     end
  then Fail (Error "deposit batch has mixed immutable context")
  else
    _ ← lift (check_caps ((fun a => (pool a, amount a)) <$> allocations));
    kernelClient ← ask Reconstruct;
    _ ← match allocations with
        | first :: _ =>
            kernel ← lift (canonicalAddress kernelClient#"account"#"address"
                             "reconstructed Kernel address");
            if bool_decide (kernel = caller first) then Ret tt
            else Fail (Error "reconstructed Kernel address disagrees with immutable caller")
        | [] => Ret tt
        end;
    dispatch_loop kernelClient allocations false.

(** *** Without [onCheckpoint] the allocations are taken as they are. *)
Record plain_allocation := {
  plain_id : val;
  plain_pool : string;
  plain_amount : Z;
  plain_minShares : Z }.

Definition plain_entry (a : plain_allocation) (r : (val * val) + error) : entry := {|
  of_identity := None; of_allocation := plain_id a; of_pool := Str (plain_pool a);
  status := match r with inl _ => fulfilled | inr _ => rejected end;
  reasonCode := None;
  reason := match r with inl _ => None | inr why => Some why end;
  executionStatus := match r with inl _ => exec_deposited | inr _ => exec_held end;
  custody_ := match r with inl _ => in_base_proxy | inr _ => in_agent end;
  entry_userOpHash := match r with inl (h, _) => Some h | inr _ => None end;
  entry_txHash := match r with inl (_, tx) => Some tx | inr _ => None end;
  entry_event := None |}.

Definition deposit_plain (a : plain_allocation) : prog entry :=
  let label := "deposit into " +:+ plain_pool a in
  r ← attempt (
    batch ← deposit_batch (Str (plain_pool a)) (plain_amount a) (plain_minShares a);
    callData ← ask (EncodeCalls None batch);
    answered ← ask (Send None callData None);
    userOpHash ← lift (requireCanonicalUserOperationHash answered label);
    receipt ← ask (WaitForReceipt userOpHash);
    txHash ← lift (requireSuccessfulUserOperation receipt label);
    Ret (userOpHash, txHash));
  Ret (plain_entry a r).

Fixpoint plain_loop (allocations : list plain_allocation) : prog (list entry) :=
  match allocations with
  | [] => Ret []
  | a :: allocations => e ← deposit_plain a; rest ← plain_loop allocations; Ret (e :: rest)
  end.

Definition dispatch_plain (allocations : list plain_allocation) : prog (list entry) :=
  _ ← lift (check_caps ((fun a => (plain_pool a, plain_amount a)) <$> allocations));
  _ ← ask Reconstruct;
  plain_loop allocations.

Definition dispatchDeposits (inputs : list val + list plain_allocation) : prog (list entry) :=
  _ ← requireBaseExecution;
  match inputs with
  | inl inputs => dispatch_durable inputs
  | inr allocations => dispatch_plain allocations
  end.

(** ** The activation of a mandate: the router's allowance is set to zero *)
Definition activateMandate (has_onSubmitted : bool) : prog (val * val) :=
  let label := "mandate activation" in
  _ ← requireBaseExecution;
  _ ← ask Reconstruct;
  approve ← encoded (usdcAddress cfg) "approve" [yieldRouterAddress cfg; BigInt 0];
  callData ← ask (EncodeCalls None [approve]);
  answered ← ask (Send None callData None);
  userOpHash ← lift (requireCanonicalUserOperationHash answered label);
  _ ← (if has_onSubmitted then ask (OnSubmitted userOpHash) else Ret Undefined);
  receipt ← ask (WaitForReceipt userOpHash);
  txHash ← lift (requireSuccessfulUserOperation receipt label);
  Ret (userOpHash, txHash).

End Dispatch.
End Dispatch.
