(* ===== verification/DepositProtocol.v ===== *)
(** * The protocol of a dispatch

    The abstract specification of [dispatchDeposits]: at most one operation is outstanding, it
    is claimed before it is sent and settled before the next is claimed, and after an outcome
    that is not known nothing is called any more.  Every run of the program is a run of the
    protocol, whatever the calls answer and wherever it stops. *)
From S2P Require Export DepositDispatch.

Module Protocol.
Export Dispatch.

(** The calls of a run with their answers, the last one perhaps without. *)
Definition events {A} (x : list (call * answer) * outcome A) : list (call * option answer) :=
  ((fun e => (e.1, Some e.2)) <$> x.1) ++ match x.2 with Waiting c => [(c, None)] | _ => [] end.

(** ** Programs and the transitions of an observer

    An observer has a state and a relation that says how each call, with its answer if it came,
    moves it.  A program follows the observer when every call it can make is allowed. *)
Section Logic.
Context {S : Type} (step : S -> call -> option answer -> S -> Prop).

Fixpoint obeys {A} (m : S) (p : prog A) (Q : S -> A -> Prop) : Prop :=
  match p with
  | Ret a => Q m a
  | Fail _ => True
  | Ask c k =>
      (exists m', step m c None m')
      /\ forall r, exists m', step m c (Some r) m' /\ obeys m' (k r) Q
  end.

(** Inside [try], an error goes on from the state it is thrown in. *)
Fixpoint attempts {A} (m : S) (p : prog A) (Q : S -> A -> Prop) (E : S -> error -> Prop) : Prop :=
  match p with
  | Ret a => Q m a
  | Fail e => E m e
  | Ask c k =>
      (exists m', step m c None m')
      /\ forall r, exists m', step m c (Some r) m' /\ attempts m' (k r) Q E
  end.

Ltac calls_tac :=
  intros [Hnone Hsome]; split; [done|]; intros r; destruct (Hsome r) as (m' & Hm & Hk); eauto 8.

Lemma follows_mono {A} m (p : prog A) (Q Q' : S -> A -> Prop) :
  (forall m a, Q m a -> Q' m a) -> obeys m p Q -> obeys m p Q'.
Proof. intros HQ. revert m. induction p; intros m; cbn; [auto|auto|calls_tac]. Qed.

Lemma tries_mono {A} m (p : prog A) (Q Q' : S -> A -> Prop) (E E' : S -> error -> Prop) :
  (forall m a, Q m a -> Q' m a) -> (forall m e, E m e -> E' m e) -> attempts m p Q E -> attempts m p Q' E'.
Proof. intros HQ HE. revert m. induction p; intros m; cbn; [auto|auto|calls_tac]. Qed.

Lemma tries_follows {A} m (p : prog A) (Q : S -> A -> Prop) E : attempts m p Q E -> obeys m p Q.
Proof. revert m. induction p; intros m; cbn; [auto|auto|calls_tac]. Qed.

Lemma follows_bind {A B} m (p : prog A) (f : A -> prog B) Q :
  obeys m p (fun m a => obeys m (f a) Q) -> obeys m (p ≫= f) Q.
Proof.
  revert m. induction p as [a|e|c k IH]; intros m; cbn; [auto|auto|].
  intros [Hn H]. split; [done|]. intros r. destruct (H r) as (m' & Hm & Hk). exists m'. split; [done|].
  by apply IH.
Qed.

Lemma tries_bind {A B} m (p : prog A) (f : A -> prog B) Q E :
  attempts m p (fun m a => attempts m (f a) Q E) E -> attempts m (p ≫= f) Q E.
Proof.
  revert m. induction p as [a|e|c k IH]; intros m; cbn; [auto|auto|].
  intros [Hn H]. split; [done|]. intros r. destruct (H r) as (m' & Hm & Hk). exists m'. split; [done|].
  by apply IH.
Qed.

Lemma tries_attempt {A} m (p : prog A) Q E :
  attempts m p Q E ->
  obeys m (attempt p) (fun m r => match r with inl a => Q m a | inr e => E m e end).
Proof. revert m. induction p; intros m; cbn; [auto|auto|calls_tac]. Qed.

Lemma follows_attempt {A B} m (p : prog A) (f : A + error -> prog B) Q :
  attempts m p (fun m a => obeys m (f (inl a)) Q) (fun m e => obeys m (f (inr e)) Q) ->
  obeys m (r ← attempt p; f r) Q.
Proof.
  intros H. apply follows_bind. eapply follows_mono; [|by apply tries_attempt]. by intros ? [].
Qed.

Lemma follows_ask {A} m m' c (k : answer -> prog A) Q :
  (forall r, step m c r m') -> (forall r, obeys m' (k r) Q) -> obeys m (Ask c k) Q.
Proof. intros Hn Hk. cbn. split; [eauto|]. intros r. eauto. Qed.

Lemma tries_lift {A} m (x : result error A) (Q : S -> A -> Prop) (E : S -> error -> Prop) :
  (forall a, x = Ok a -> Q m a) -> (forall e, x = Throw e -> E m e) -> attempts m (lift x) Q E.
Proof. destruct x; cbn; auto. Qed.

Lemma follows_lift {A} m (x : result error A) (Q : S -> A -> Prop) :
  (forall a, x = Ok a -> Q m a) -> obeys m (lift x) Q.
Proof. destruct x; cbn; auto. Qed.

(** The observer's path along a run. *)
Inductive path : S -> list (call * option answer) -> S -> Prop :=
| path_nil m : path m [] m
| path_cons m c r m' l m'' : step m c r m' -> path m' l m'' -> path m ((c, r) :: l) m''.

Lemma follows_run {A} m (p : prog A) Q answers :
  obeys m p Q ->
  exists m', path m (events (run p answers)) m'
    /\ forall a, (run p answers).2 = Done a -> Q m' a.
Proof.
  revert m answers. induction p as [a|e|c k IH]; intros m answers; cbn.
  - intros HQ. exists m. split; [constructor|]. by intros ? [= <-].
  - intros _. exists m. by split; [constructor|].
  - intros [[m0 Hn] H]. destruct answers as [|r answers]; cbn.
    + exists m0. split; [|done]. econstructor; [exact Hn|constructor].
    + destruct (H r) as (m' & Hm & Hk). destruct (IH r m' answers Hk) as (m'' & Hc & Hq).
      destruct (run (k r) answers) as [log o]. cbn in *. exists m''. split; [|done].
      by econstructor.
Qed.
End Logic.

(** ** The protocol *)
Inductive mode :=
| Idle
| Claimed (a : allocation)
| Outstanding (a : allocation)
| Stopped.

Definition same_child (a b : allocation) : bool := bool_decide (identity a = identity b).

(** The evidence names the event of the router for this deposit: the caller, the pool, the
    whole amount, and shares that are positive and at least the minimum. *)
Definition proves (a : allocation) (evidence : val) : bool :=
  let e := evidence#"event" in
  strict_eq e#"caller" (Str (caller a)) && strict_eq e#"poolAddress" (Str (pool a))
  && strict_eq e#"assets" (Str (decimal (amount a)))
  && match to_BigInt e#"shares" with
     | Some shares => (0 <? shares) && (minShares a <=? shares)
     | None => false
     end.

(** The event of an accepted receipt proves the deposit. *)
Lemma event_val_proves a router e evidence :
  event_proves a router e -> evidence#"event" = event_val e -> proves a evidence = true.
Proof.
  intros (_ & Hc & Hp & Ha & Hpos & Hmin) He. unfold proves. rewrite He.
  change (get (event_val e) "caller") with (Str (event_caller e)).
  change (get (event_val e) "poolAddress") with (Str (poolAddress e)).
  change (get (event_val e) "assets") with (Str (decimal (assets e))).
  change (get (event_val e) "shares") with (Str (decimal (shares e))).
  rewrite Hc, Hp, Ha. cbn [strict_eq to_BigInt]. rewrite !bool_decide_true by done.
  unfold decimal. rewrite chars_of_string_of, StringToBigInt_toString by lia. cbn.
  apply andb_true_iff. split; [by apply Z.ltb_lt|by apply Z.leb_le].
Qed.

(** The submission is granted, not granted but certainly not made, or neither. *)
Definition granted (c : call) (r : answer) : bool :=
  match c, r with
  | Claim _ _ _ _, Returned v => match claimed_owner v with Some _ => true | None => false end
  | Checkpoint _ submitting _ _ _, Returned _ => true
  | _, _ => false
  end.
Definition not_committed (r : answer) : bool :=
  match r with
  | Rejected e => strict_eq e#"checkpointOutcome" (Str "not_committed")
  | Returned _ => false
  end.

Definition claim_next (a : allocation) (c : call) (r : option answer) : mode :=
  match r with
  | Some r => if granted c r then Claimed a else if not_committed r then Idle else Stopped
  | None => Stopped
  end.

(** The mode after a call and its answer, if any; [None] where the call is not allowed. *)
Definition next (m : mode) (c : call) (r : option answer) : option mode :=
  match m, c with
  | Idle, (Reconstruct | CaptureHandle _ _ _ | GetNonce | GetBlockNumber | Clock | BeforeClaim _) =>
      Some Idle
  | Idle, Claim a _ _ _ => Some (claim_next a c r)
  | Idle, Checkpoint a submitting _ _ None => Some (claim_next a c r)
  | Claimed a, Clock => Some (Claimed a)
  | Claimed a, (EncodeCalls (Some b) _ | BeforeSend b _ _ _) =>
      if same_child a b then Some (Claimed a) else None
  | Claimed a, Send (Some b) _ (Some _) => if same_child a b then Some (Outstanding b) else None
  | Claimed a, Checkpoint b failed _ _ _ =>
      if same_child a b then Some (match r with Some (Returned _) => Idle | _ => m end) else None
  | Claimed a, Checkpoint b unknown _ _ _ =>
      if same_child a b then Some (match r with Some (Returned _) => Stopped | _ => m end) else None
  | Outstanding a, (Clock | WaitForReceipt _) => Some m
  | Outstanding a, Checkpoint b submitted _ _ _ => if same_child a b then Some m else None
  | Outstanding a, Checkpoint b confirmed evidence _ _ =>
      if same_child a b && proves a evidence
      then Some (match r with Some (Returned _) => Idle | _ => m end) else None
  | Outstanding a, Checkpoint b failed evidence _ _ =>
      if same_child a b && strict_eq evidence#"custodyLocation" (Str "base-kernel")
      then Some (match r with Some (Returned _) => Idle | _ => m end) else None
  | Outstanding a, Checkpoint b unknown _ _ _ =>
      if same_child a b then Some (match r with Some (Returned _) => Stopped | _ => m end) else None
  | _, _ => None
  end.

Fixpoint conforms (m : mode) (events : list (call * option answer)) : option mode :=
  match events with
  | [] => Some m
  | (c, r) :: events => m' ← next m c r; conforms m' events
  end.

Notation allowed := (fun m c r m' => next m c r = Some m').
Notation follows := (obeys allowed).
Notation tries := (attempts allowed).

Lemma path_conforms m l m' : path allowed m l m' -> conforms m l = Some m'.
Proof. induction 1 as [|m c r m' l m'' Hs _ IH]; [done|]. cbn. by rewrite Hs. Qed.

(** ** The steps of a deposit *)
Section Steps.
Context (cfg : config) (opts : options) (a : allocation) (router : string) (handle : val).

(** What a step leaves: if the batch goes on, nothing is outstanding. *)
Definition settles (m : mode) (r : entry * bool) : Prop := r.2 = false -> m = Idle.

Definition busy (m : mode) : Prop := m = Claimed a \/ m = Outstanding a.

Lemma same_child_refl : same_child a a = true.
Proof. unfold same_child. by rewrite bool_decide_true. Qed.

Lemma next_clock m r : busy m \/ m = Idle -> next m Clock r = Some m.
Proof. by intros [[->| ->]| ->]. Qed.

(** A checkpoint that is answered leads on, and otherwise leaves the mode as it is. *)
Lemma tries_checkpoint m m' owner s ev Q E :
  busy m ->
  (forall t r, next m (Checkpoint a s (Obj ev) t (owner_option owner)) r
               = Some (match r with Some (Returned _) => m' | _ => m end)) ->
  (forall v, Q m' v) -> (forall e, E m (Rejection e)) ->
  tries m (checkpoint a owner s ev) Q E.
Proof.
  intros Hm Hn HQ HE. cbn. split; [exists m; apply next_clock; by left|].
  intros [t|e]; exists m; (split; [apply next_clock; by left|]); cbn; [|apply HE].
  split; [by rewrite Hn; eauto|]. intros [v|e]; rewrite Hn; eexists; (split; [reflexivity|]); cbn; auto.
Qed.

Lemma follows_checkpoint {B} m m' owner s ev (k : val -> prog B) Q :
  busy m ->
  (forall t r, next m (Checkpoint a s (Obj ev) t (owner_option owner)) r
               = Some (match r with Some (Returned _) => m' | _ => m end)) ->
  (forall v, follows m' (k v) Q) ->
  follows m (v ← checkpoint a owner s ev; k v) Q.
Proof.
  intros Hm Hn HQ. cbn. split; [exists m; apply next_clock; by left|].
  intros [t|e]; exists m; (split; [apply next_clock; by left|]); cbn; [|done].
  split; [by rewrite Hn; eauto|]. intros [v|e]; rewrite Hn; eexists; (split; [reflexivity|]); cbn; auto.
Qed.

(** What the protocol makes of each checkpoint. *)
Lemma next_unknown m ev t o r :
  busy m ->
  next m (Checkpoint a unknown ev t o) r = Some (match r with Some (Returned _) => Stopped | _ => m end).
Proof. intros [->| ->]; cbn; by rewrite same_child_refl. Qed.

Lemma next_failed m ev t o r :
  busy m -> (m = Outstanding a -> strict_eq ev#"custodyLocation" (Str "base-kernel") = true) ->
  next m (Checkpoint a failed ev t o) r = Some (match r with Some (Returned _) => Idle | _ => m end).
Proof. intros [->| ->] H; cbn; rewrite same_child_refl; [done|]. by rewrite H. Qed.

Lemma on_error_follows m owner h tx why :
  busy m -> follows m (on_error cfg a router handle owner h tx why) settles.
Proof.
  intros Hm. unfold on_error. destruct (match why with Uncertain _ => true | _ => _ end); [done|].
  destruct (match why with DepositObservationError code _ tx d => (code, tx, d) | _ => _ end)
    as [[code tx'] []].
  - eapply follows_checkpoint; [done| |done]. intros t r. by apply next_failed.
  - eapply follows_checkpoint; [done| |done]. intros t r. by apply next_unknown.
Qed.

Lemma guarded_follows {A} m owner h tx (p : prog A) k (Q : mode -> A -> Prop) :
  busy m -> tries m p Q (fun m' _ => busy m') -> (forall m' x, Q m' x -> follows m' (k x) settles) ->
  follows m (guarded cfg a router handle owner h tx p k) settles.
Proof.
  intros Hm Hp Hk. unfold guarded. apply follows_attempt.
  eapply tries_mono; [| |exact Hp]; cbn; [by auto|]. intros. by apply on_error_follows.
Qed.

(** An unknown outcome is written down and ends the batch. *)
Lemma guarded_unknown m owner h tx ev e :
  busy m ->
  follows m (guarded cfg a router handle owner h tx (checkpoint a owner unknown ev)
               (fun _ => stop e)) settles.
Proof.
  intros Hm. eapply (guarded_follows _ _ _ _ _ _ (fun _ _ => True)); [done| |done].
  eapply tries_checkpoint; [done|intros; by apply next_unknown|done|done].
Qed.

(** A proof that was accepted is what the confirmed checkpoint carries. *)
Lemma proof_proves op receipt p :
  proveDepositReceipt receipt a router op = Ok p ->
  proves a (Obj (confirmedEvidence (common cfg a router handle) op p)) = true.
Proof. intros [H _]%prove_receipt_inv. by apply (event_val_proves a router (event p)). Qed.

Lemma on_receipt_follows op receipt :
  follows (Outstanding a) (on_receipt cfg a router handle op receipt) settles.
Proof.
  assert (busy (Outstanding a)) as Hb by by right.
  unfold on_receipt. eapply (guarded_follows _ _ _ _ _ _ (fun m p => m = Outstanding a
    /\ proveDepositReceipt receipt a router op = Ok p)); [done|by apply tries_lift|].
  intros ? p [-> Hp]. apply follows_attempt. eapply tries_checkpoint; [done| |done|].
  - intros t r. cbn [next]. rewrite same_child_refl, (proof_proves op receipt p); done.
  - intros e. by apply guarded_unknown.
Qed.

Lemma on_sent_follows owner op :
  follows (Outstanding a) (on_sent cfg a router handle owner op) settles.
Proof.
  assert (busy (Outstanding a)) as Hb by by right.
  unfold on_sent. apply follows_attempt. eapply tries_checkpoint; [done| | |].
  - intros t r. cbn [next]. rewrite same_child_refl. by destruct r as [[]|].
  - intros v. unfold wait_for_receipt. cbn. split; [eauto|].
    intros [receipt|e]; eexists; (split; [reflexivity|]); cbn; [apply on_receipt_follows|done].
  - intros e. apply follows_attempt.
    eapply tries_checkpoint; [done|intros; by apply next_unknown|done|].
    intros e'. by apply on_error_follows.
Qed.

Lemma send_follows owner cd :
  follows (Claimed a) (send_operation cfg a router handle owner cd) settles.
Proof.
  assert (busy (Claimed a)) as Hb by by left. assert (busy (Outstanding a)) as Hb' by by right.
  unfold send_operation. apply follows_attempt.
  eapply (tries_mono _ _ _ (fun m _ => m = Outstanding a) _ (fun m _ => busy m));
    [intros ? h ->; apply on_sent_follows|intros; by apply guarded_unknown|].
  apply tries_bind. destruct (handle_nonce handle) as [n|]; [|done]. cbn.
  rewrite same_child_refl. split; [eauto|].
  intros [v|e]; eexists; (split; [reflexivity|]); [|done]. by apply tries_lift.
Qed.

Lemma fence_lost_follows owner done_ why :
  follows (Claimed a) (on_fence_lost cfg a router handle owner done_ why) settles.
Proof.
  assert (busy (Claimed a)) as Hb by by left. unfold on_fence_lost. destruct done_; [done|].
  apply follows_attempt. eapply tries_checkpoint; [done|intros; by apply next_unknown|done|].
  intros []; try done; by apply on_error_follows.
Qed.

Lemma before_send_follows owner cd :
  follows (Claimed a) (before_send cfg opts a router handle owner cd) settles.
Proof.
  unfold before_send. destruct (has_onBeforeSend opts); [|apply send_follows].
  apply (follows_ask _ _ (Claimed a)); [intros r; cbn; by rewrite same_child_refl|].
  intros [v|e]; [|apply fence_lost_follows].
  destruct (send_allowed v); [apply send_follows|apply fence_lost_follows].
Qed.

Lemma encoded_tries m to_ f args Q (E : mode -> error -> Prop) :
  (forall b, Q m b) -> (forall e, E m e) -> tries m (encoded cfg to_ f args) Q E.
Proof. intros HQ HE. unfold encoded. destruct (encodeFunctionData cfg f args); cbn; auto. Qed.

Lemma on_claimed_follows owner :
  follows (Claimed a) (on_claimed cfg opts a router handle owner) settles.
Proof.
  assert (busy (Claimed a)) as Hb by by left. unfold on_claimed. apply follows_attempt.
  eapply (tries_mono _ _ _ (fun m _ => m = Claimed a) _ (fun m _ => m = Claimed a));
    [intros ? cd ->; apply before_send_follows| |].
  - intros ? e ->. eapply (guarded_follows _ _ _ _ _ _ (fun m _ => m = Idle)); [done| |].
    + eapply tries_checkpoint; [done|intros; by apply next_failed|done|done].
    + by intros m' x ->.
  - apply tries_bind. unfold deposit_batch. apply tries_bind, encoded_tries; [|done]. intros b.
    apply tries_bind, encoded_tries; [|done]. intros b'. cbn. rewrite same_child_refl.
    split; [eauto|]. by intros [v|e]; eexists.
Qed.

(** *** The claim *)
Lemma claim_error_follows m r why :
  why = Rejection r -> m = (if not_committed (Rejected r) then Idle else Stopped) ->
  follows m (on_claim_error a why) settles.
Proof.
  intros -> ->. unfold on_claim_error, not_committed. cbn [reason_field]. by destruct (strict_eq (get r "checkpointOutcome") _).
Qed.

Lemma claim_with_follows snapshot :
  follows Idle (claim_with cfg opts a router handle snapshot) settles.
Proof.
  unfold claim_with. apply follows_attempt. apply tries_bind. cbn.
  split; [eauto|]. intros [t|e]; (eexists; split; [reflexivity|]).
  2: { cbn. unfold on_claim_error. cbn [reason_field]. by destruct (strict_eq (get e "checkpointOutcome") _). }
  cbn. split; [eauto|]. intros [v|e]; (eexists; split; [reflexivity|]).
  - cbn. destruct (claimed_owner v); [apply on_claimed_follows|done].
  - by eapply claim_error_follows.
Qed.

Lemma claim_follows : follows Idle (claim_deposit cfg opts a router handle) settles.
Proof.
  unfold claim_deposit. destruct (has_onClaimSubmitting opts).
  - destruct (has_onBeforeClaimSubmitting opts); [|apply claim_with_follows].
    apply (follows_ask _ _ Idle); [done|].
    intros [v|e]; [|done]. destruct (authority_of v); [apply claim_with_follows|done].
  - apply follows_attempt. cbn. split; [eauto|]. intros [t|e]; (eexists; split; [reflexivity|]).
    2: { cbn. unfold on_claim_error. cbn [reason_field]. by destruct (strict_eq (get e "checkpointOutcome") _). }
    cbn. split; [eauto|]. intros [v|e]; (eexists; split; [reflexivity|]).
    + apply on_claimed_follows.
    + by eapply claim_error_follows.
Qed.

(** *** The handle, and the batch *)
Lemma capture_tries kernel :
  tries Idle (captureReconcileHandle cfg kernel a) (fun m _ => m = Idle) (fun m _ => m = Idle).
Proof.
  unfold captureReconcileHandle. apply tries_bind, tries_lift; [|done]. intros sender _.
  apply tries_bind, tries_lift; [|done]. intros entryPoint _.
  destruct (negb _); [done|]. destruct (has_captureReconcileHandleFn cfg).
  - apply tries_bind. cbn. split; [eauto|]. intros [v|e]; (eexists; split; [reflexivity|]); [|done].
    by apply tries_lift.
  - destruct (_ || _); [done|]. cbn. split; [eauto|]. intros n. eexists. split; [reflexivity|].
    split; [eauto|]. intros b. eexists. split; [reflexivity|].
    destruct n as [n|e], b as [b|e']; try done.
    apply tries_bind, tries_lift; [|done]. intros nonce _.
    apply tries_bind, tries_lift; [|done]. intros startBlock _. by apply tries_lift.
Qed.

End Steps.

Section Batch.
Context (cfg : config) (opts : options).

Lemma deposit_one_follows kernel a : follows Idle (deposit_one cfg opts kernel a) settles.
Proof.
  unfold deposit_one. apply follows_attempt. eapply tries_mono; [| |apply capture_tries]; cbn beta.
  - intros ? handle ->. apply follows_bind, follows_lift. intros router _. apply claim_follows.
  - intros ? e ->. done.
Qed.

Lemma stopped_follows m kernel l : follows m (dispatch_loop cfg opts kernel l true) (fun _ _ => True).
Proof.
  induction l as [|a l IH]; [done|]. cbn [dispatch_loop]. apply follows_bind.
  eapply follows_mono; [|exact IH]. done.
Qed.

Lemma loop_follows kernel l : follows Idle (dispatch_loop cfg opts kernel l false) (fun _ _ => True).
Proof.
  induction l as [|a l IH]; [done|]. cbn [dispatch_loop]. apply follows_bind.
  eapply follows_mono; [|apply deposit_one_follows]. intros m [e []] Hm; apply follows_bind.
  - eapply follows_mono; [|apply stopped_follows]. done.
  - rewrite Hm by done. eapply follows_mono; [|exact IH]. done.
Qed.

Lemma durable_follows inputs : follows Idle (dispatch_durable cfg opts inputs) (fun _ _ => True).
Proof.
  unfold dispatch_durable. apply follows_bind, follows_lift. intros l _.
  destruct (match l with first :: rest => _ | [] => false end); [done|].
  apply follows_bind, follows_lift. intros _ _.
  apply follows_bind. cbn. split; [eauto|]. intros [kernel|e]; exists Idle; (split; [done|]); [|done].
  apply follows_bind. destruct l as [|first rest]; [by apply (loop_follows kernel [])|].
  apply follows_bind, follows_lift. intros k _. destruct (bool_decide _); [|done].
  apply (loop_follows kernel (first :: rest)).
Qed.

End Batch.

Lemma dispatch_follows cfg opts inputs :
  follows Idle (dispatchDeposits cfg opts (inl inputs)) (fun _ _ => True).
Proof.
  unfold dispatchDeposits, requireBaseExecution. destruct (baseCrossChainAvailable cfg); [|done].
  apply (durable_follows cfg opts inputs).
Qed.


(** ** What the protocol rules out *)
Lemma conforms_cons m c r l : conforms m ((c, r) :: l) = next m c r ≫= fun m' => conforms m' l.
Proof. done. Qed.

Lemma conforms_app m l1 l2 : conforms m (l1 ++ l2) = conforms m l1 ≫= fun m' => conforms m' l2.
Proof.
  revert m. induction l1 as [|[c r] l1 IH]; intros m; [done|]. cbn.
  destruct (next m c r) as [m'|]; [apply IH|done].
Qed.

(** The checkpoint settles the operation of [a]. *)
Definition settled_by (a : allocation) (c : call) : bool :=
  match c with
  | Checkpoint b confirmed evidence _ _ => same_child a b && proves a evidence
  | Checkpoint b failed evidence _ _ =>
      same_child a b && strict_eq evidence#"custodyLocation" (Str "base-kernel")
  | _ => false
  end.

(** The call asks for the submission of [a]'s deposit. *)
Definition asks_for (a : allocation) (c : call) : bool :=
  match c with
  | Claim b _ _ _ | Checkpoint b submitting _ _ _ => same_child b a
  | _ => false
  end.

Lemma same_child_trans a b c : same_child a b = true -> same_child b c = true -> same_child a c = true.
Proof. unfold same_child. rewrite !bool_decide_eq_true. congruence. Qed.

(** The send is of a claimed deposit, and it is outstanding afterwards. *)
Lemma next_send m b cd n r m' :
  next m (Send (Some b) cd n) r = Some m' ->
  m' = Outstanding b /\ exists a, m = Claimed a /\ same_child a b = true.
Proof.
  destruct m as [|a|a|]; try done. cbn. destruct n; [|done].
  destruct (same_child a b) eqn:E; [|done]. intros [= <-]. eauto.
Qed.

Lemma claimed_next m c r a :
  next m c r = Some (Claimed a) ->
  m = Claimed a \/ exists g, r = Some g /\ granted c g = true /\ asks_for a c = true.
Proof.
  assert (forall a', claim_next a' c r = Claimed a ->
    a' = a /\ exists g, r = Some g /\ granted c g = true) as Hclaim.
  { unfold claim_next. intros a'. destruct r as [g|]; [|done]. destruct (granted c g) eqn:E; [|by destruct (not_committed g)].
    intros [= ->]. eauto. }
  destruct m as [|b|b|].
  - destruct c; cbn; try done.
    + intros [= H]. right. destruct (Hclaim _ H) as (-> & g & -> & Hg). exists g. by rewrite same_child_refl.
    + destruct status0, ownerToken; try done. intros [= H]. right.
      destruct (Hclaim _ H) as (-> & g & -> & Hg). exists g. by rewrite same_child_refl.
  - destruct c; cbn; try done; repeat case_match; naive_solver.
  - destruct c; cbn; try done; repeat case_match; naive_solver.
  - by destruct c.
Qed.

Lemma conforms_claimed m l a :
  conforms m l = Some (Claimed a) ->
  m = Claimed a \/ exists l1 c g l2, l = l1 ++ (c, Some g) :: l2 /\ granted c g = true /\ asks_for a c = true.
Proof.
  revert m. induction l as [|[c r] l IH]; intros m; cbn; [intros [= ->]; by left|].
  destruct (next m c r) as [m'|] eqn:E; [|done]. cbn. intros H.
  destruct (IH _ H) as [->|(l1 & c' & g & l2 & -> & ?)].
  - apply claimed_next in E as [->|(g & -> & ?)]; [by left|]. right. by exists [], c, g, l.
  - right. by exists ((c, r) :: l1), c', g, l2.
Qed.

Lemma outstanding_next a c r m :
  next (Outstanding a) c r = Some m ->
  m = Outstanding a \/ m = Stopped
  \/ (m = Idle /\ exists v, r = Some (Returned v) /\ settled_by a c = true).
Proof.
  destruct c as [| | | | | | |b s ev t o| | | | |]; cbn; try done; try (intros [= <-]; by left).
  destruct s; cbn; try done; destruct (same_child a b) eqn:E; cbn; try done.
  - intros [= <-]. by left.
  - destruct (proves a ev) eqn:Ep; [|done]. intros [= <-].
    destruct r as [[v|]|]; [right; right|by left|by left]. eauto.
  - destruct (strict_eq _ _) eqn:Ec; [|done]. intros [= <-].
    destruct r as [[v|]|]; [right; right|by left|by left]. eauto.
  - intros [= <-]. destruct r as [[v|]|]; [right; by left|by left|by left].
Qed.

Lemma stopped_conforms l m : conforms Stopped l = Some m -> l = [] /\ m = Stopped.
Proof. destruct l as [|[c r] l]; cbn; [by intros [= ->]|by destruct c]. Qed.

Lemma outstanding_settled a l m :
  conforms (Outstanding a) l = Some (Claimed m) ->
  exists l1 c v l2, l = l1 ++ (c, Some (Returned v)) :: l2 /\ settled_by a c = true
    /\ conforms Idle l2 = Some (Claimed m).
Proof.
  induction l as [|[c r] l IH]; [done|]. rewrite conforms_cons.
  destruct (next (Outstanding a) c r) as [m'|] eqn:E; [|done]. cbn [mbind option_bind]. intros H.
  apply outstanding_next in E as [->|[->|(-> & v & -> & Hs)]].
  - destruct (IH H) as (l1 & c' & v & l2 & -> & ?). by exists ((c, r) :: l1), c', v, l2.
  - by apply stopped_conforms in H as [_ ?].
  - by exists [], c, v, l.
Qed.

(** C7. No money is sent twice on a guess: between any two operations that a dispatch sends, in
    whatever run, the first was settled by a checkpoint that was written, either confirmed
    with the router's event for exactly this deposit or failed with the money in the kernel
    account, and after that the submission of the second was granted. *)
Theorem sends_settled cfg opts inputs answers l1 a cd n r l2 b cd' n' r' l3 :
  events (run (dispatchDeposits cfg opts (inl inputs)) answers)
  = l1 ++ (Send (Some a) cd n, r) :: l2 ++ (Send (Some b) cd' n', r') :: l3 ->
  exists l4 c v l5 c' g l6,
    l2 = l4 ++ (c, Some (Returned v)) :: l5 ++ (c', Some g) :: l6
    /\ settled_by a c = true /\ granted c' g = true /\ asks_for b c' = true.
Proof.
  intros He.
  destruct (follows_run allowed Idle (dispatchDeposits cfg opts (inl inputs)) (fun _ _ => True) answers)
    as (m & Hm%path_conforms & _); [apply dispatch_follows|].
  rewrite He, conforms_app in Hm. destruct (conforms Idle l1) as [m1|]; [|done]. cbn in Hm.
  destruct (next m1 _ r) as [m2|] eqn:E2; [|done]. cbn in Hm. apply next_send in E2 as [-> _].
  rewrite conforms_app in Hm. destruct (conforms (Outstanding a) l2) as [m3|] eqn:E3; [|done].
  cbn in Hm. destruct (next m3 _ r') as [m4|] eqn:E4; [|done].
  apply next_send in E4 as (_ & b' & -> & Hb).
  destruct (outstanding_settled _ _ _ E3) as (l4 & c & v & l5 & -> & Hc & H5).
  destruct (conforms_claimed _ _ _ H5) as [?|(l6 & c' & g & l7 & -> & Hg & Ha)]; [done|].
  exists l4, c, v, l6, c', g, l7. split_and!; try done.
  destruct c'; try done; cbn in *; [by eapply same_child_trans|].
  destruct status0; try done. by eapply same_child_trans.
Qed.

End Protocol.
