(* ===== verification/DepositFacts.v ===== *)
(** * What the entries of a dispatch say

    The history of a run is an observer of [DepositProtocol]: its state is the calls answered
    so far.  With it, each entry that [dispatchDeposits] returns is accounted for by the calls
    of its allocation: what was sent, what was proved and what was written down. *)
From S2P Require Export DepositProtocol.

Module Facts.
Export Protocol.

(** ** The history as an observer *)
Definition history := list (call * answer).

Definition extend (m : history) (c : call) (r : option answer) (m' : history) : Prop :=
  m' = match r with Some r => m ++ [(c, r)] | None => m end.

Notation sees := (obeys extend).
Notation tries := (attempts extend).

Definition answered (l : list (call * option answer)) : history :=
  omap (fun x => pair x.1 <$> x.2) l.

Lemma path_answered m l m' : path extend m l m' -> m' = m ++ answered l.
Proof.
  induction 1 as [m|m c [r|] m' l m'' Hs _ ->]; [by rewrite app_nil_r| |]; unfold extend in Hs; subst; [|done].
  by rewrite <-app_assoc.
Qed.

Lemma answered_events {A} (x : history * outcome A) : answered (events x) = x.1.
Proof.
  destruct x as [l o]. unfold events, answered. rewrite omap_app. cbn.
  assert (omap (fun x : call * option answer => pair x.1 <$> x.2) ((fun e : call * answer => (e.1, Some e.2)) <$> l) = l) as ->.
  { induction l as [|[c r] l IH]; [done|]. cbn. by f_equal. }
  destruct o; cbn; by rewrite app_nil_r.
Qed.

(** What holds of the history where the program returns holds of the log of its runs. *)
Lemma sees_run {A} (p : prog A) Q answers a :
  sees [] p Q -> (run p answers).2 = Done a -> Q (run p answers).1 a.
Proof.
  intros Hp Ha. destruct (follows_run extend [] p Q answers Hp) as (m & Hm & HQ).
  apply path_answered in Hm as ->. cbn in HQ. rewrite answered_events in HQ. auto.
Qed.

Lemma sees_ask {A} m c (k : answer -> prog A) Q :
  (forall r, sees (m ++ [(c, r)]) (k r) Q) -> sees m (Ask c k) Q.
Proof. intros H. cbn. split; [by eexists|]. intros r. eexists. split; [reflexivity|]. apply H. Qed.

Lemma tries_ask {A} m c (k : answer -> prog A) Q E :
  (forall r, tries (m ++ [(c, r)]) (k r) Q E) -> tries m (Ask c k) Q E.
Proof. intros H. cbn. split; [by eexists|]. intros r. eexists. split; [reflexivity|]. apply H. Qed.

(** A program does not see what came before it. *)
Lemma sees_after {A} m (p : prog A) Q l :
  sees l p (fun l' a => Q (m ++ l') a) -> sees (m ++ l) p Q.
Proof.
  revert l. induction p as [a|e|c k IH]; intros l; [done|done|].
  intros [_ H]. apply sees_ask. intros r. destruct (H r) as (l' & -> & Hk).
  rewrite <-app_assoc. by apply IH.
Qed.

(** ** What an entry stands for *)
Definition is_send (c : call) : bool := match c with Send _ _ _ => true | _ => false end.
Definition sends_nothing (l : history) : Prop := Forall (fun x => is_send x.1 = false) l.

(** A checkpoint of the allocation was written, with this evidence. *)
Definition written (a : allocation) (s : state) (P : val -> Prop) (l : history) : Prop :=
  exists evidence t o v, (Checkpoint a s evidence t o, Returned v) ∈ l /\ P evidence.

(** The client answered the operation of the allocation with this hash. *)
Definition sent_with (a : allocation) (userOpHash : string) (l : history) : Prop :=
  exists cd n v label, (Send (Some a) cd n, Returned v) ∈ l /\ sent_hash v label = Ok userOpHash.

Section Accounts.
Context (cfg : config).

(** - deposited: the confirmed checkpoint with the router's event for this deposit is written;
    - failed: the checkpoint that puts the money in the kernel account is written;
    - confirming: the operation was sent, and its hash is written;
    - held: nothing was sent;
    - unknown: this is written, or nothing was sent. *)
Definition accounts (a : allocation) (l : history) (e : entry) : Prop :=
  of_identity e = Some (identity a) /\ of_pool e = Str (pool a) /\
  match executionStatus e with
  | exec_deposited =>
      status e = fulfilled /\ custody_ e = in_base_proxy /\
      exists router event, canonicalAddress (yieldRouterAddress cfg) "YieldRouter address" = Ok router
        /\ entry_event e = Some event /\ event_proves a router event
        /\ written a confirmed (fun d => d#"event" = event_val event) l
  | exec_failed =>
      status e = owner_action_required /\ custody_ e = in_base_kernel
      /\ written a failed (fun d => d#"custodyLocation" = Str "base-kernel") l
  | exec_confirming =>
      status e = held /\ custody_ e = in_agent /\
      exists op, entry_userOpHash e = Some (Str op) /\ sent_with a op l
        /\ written a submitted (fun d => d#"userOpHash" = Str op) l
  | exec_held => (status e = held \/ status e = rejected) /\ custody_ e = in_agent /\ sends_nothing l
  | exec_unknown =>
      status e = uncertain /\ custody_ e = in_agent
      /\ (written a unknown (fun _ => True) l \/ sends_nothing l)
  end.

End Accounts.

Ltac account :=
  cbn; unfold accounts, held_entry, uncertain_entry, entry_of; cbn; split_and!; try done.

Section Steps.
Context (cfg : config) (opts : options) (a : allocation) (router : string) (handle : val).
Context (Hrouter : canonicalAddress (yieldRouterAddress cfg) "YieldRouter address" = Ok router).

Notation done_right := (fun (l : history) (x : entry * bool) => accounts cfg a l x.1).

Lemma sends_nothing_app l l' : sends_nothing l -> sends_nothing l' -> sends_nothing (l ++ l').
Proof. intros. by apply Forall_app. Qed.

(** A checkpoint is written, or the error leaves nothing sent. *)
Lemma tries_written l owner s ev (Q : history -> val -> Prop) (E : history -> error -> Prop) :
  (forall l' v, sends_nothing l' -> written a s (fun d => d = Obj ev) l' -> Q (l ++ l') v) ->
  (forall l' e, sends_nothing l' -> E (l ++ l') (Rejection e)) ->
  tries l (checkpoint a owner s ev) Q E.
Proof.
  intros HQ HE. unfold checkpoint. apply tries_bind. apply tries_ask. intros [t|e]; cbn.
  2: { apply HE. by repeat constructor. }
  split; [by eexists|]. intros [v|e]; eexists; (split; [reflexivity|]); rewrite <-app_assoc.
  - apply HQ; [by repeat constructor|]. do 4 eexists. split; [|reflexivity].
    by apply list_elem_of_further, list_elem_of_here.
  - apply HE. by repeat constructor.
Qed.

Lemma written_app_r s P (l l' : history) : written a s P l' -> written a s P (l ++ l').
Proof. intros (ev & t & o & v & Hin & HP). exists ev, t, o, v. split; [|done]. set_solver. Qed.

Lemma written_app_l s P (l l' : history) : written a s P l -> written a s P (l ++ l').
Proof. intros (ev & t & o & v & Hin & HP). exists ev, t, o, v. split; [|done]. set_solver. Qed.

Lemma written_mono s (P P' : val -> Prop) l : (forall d, P d -> P' d) -> written a s P l -> written a s P' l.
Proof. intros HP (ev & t & o & v & Hin & H). exists ev, t, o, v. auto. Qed.

Lemma on_error_sees l owner h tx why :
  sees l (on_error cfg a router handle owner h tx why) done_right.
Proof.
  unfold on_error. destruct (match why with Uncertain _ => true | _ => _ end); [done|].
  destruct (match why with DepositObservationError code _ tx d => (code, tx, d) | _ => _ end)
    as [[code tx'] []].
  all: apply follows_bind; eapply (tries_follows _ _ _ _ (fun _ _ => True));
       apply tries_written; [|done]; intros l' v _ Hw; account.
  - eapply written_app_r, written_mono; [|exact Hw]. by intros d ->.
  - left. eapply written_app_r, written_mono; [|exact Hw]. done.
Qed.

Lemma guarded_sees {A} l owner h tx (p : prog A) k Q :
  tries l p Q (fun _ _ => True) -> (forall l' x, Q l' x -> sees l' (k x) done_right) ->
  sees l (guarded cfg a router handle owner h tx p k) done_right.
Proof.
  intros Hp Hk. unfold guarded. apply follows_attempt.
  eapply tries_mono; [| |exact Hp]; cbn; [by auto|]. intros. apply on_error_sees.
Qed.

(** An unknown outcome, written down. *)
Lemma guarded_unknown_sees l owner h tx ev code why h' tx' e :
  sees l (guarded cfg a router handle owner h tx (checkpoint a owner unknown ev)
            (fun _ => stop (uncertain_entry a code why h' tx' e))) done_right.
Proof.
  eapply (guarded_sees _ _ _ _ _ _ (fun l' _ => written a unknown (fun _ => True) l')).
  - apply tries_written; [|done]. intros l' v _ Hw. eapply written_app_r, written_mono; [|exact Hw]. done.
  - intros l' _ Hw. account. by left.
Qed.

Lemma on_receipt_sees l op receipt : sees l (on_receipt cfg a router handle op receipt) done_right.
Proof.
  unfold on_receipt. eapply (guarded_sees _ _ _ _ _ _ (fun _ p => event_proves a router (event p))).
  - apply tries_lift; [|done]. by intros p [? _]%prove_receipt_inv.
  - intros l' p Hp. apply follows_attempt, tries_written; [|intros; apply guarded_unknown_sees].
    intros l'' v _ Hw. account. exists router, (event p). split_and!; try done.
    eapply written_app_r, written_mono; [|exact Hw]. by intros d ->.
Qed.

Lemma on_sent_sees l owner op : sent_with a op l -> sees l (on_sent cfg a router handle owner op) done_right.
Proof.
  intros Hs. unfold on_sent. apply follows_attempt, tries_written.
  - intros l' v _ Hw. unfold wait_for_receipt. apply follows_attempt. apply tries_ask.
    intros [receipt|e]; [apply on_receipt_sees|]. account.
    exists op. split_and!; [done| |].
    + destruct Hs as (cd & n & u & label & Hin & Hh). exists cd, n, u, label. split; [set_solver|done].
    + apply written_app_l, written_app_r. eapply written_mono; [|exact Hw]. by intros d ->.
  - intros l' e _. apply follows_attempt, tries_written; [|intros; apply on_error_sees].
    intros l'' v _ Hw. account. left. eapply written_app_r, written_mono; [|exact Hw]. done.
Qed.

Lemma send_sees l owner cd : sees l (send_operation cfg a router handle owner cd) done_right.
Proof.
  unfold send_operation. apply follows_attempt.
  eapply (tries_mono _ _ _ (fun l op => sent_with a op l) _ (fun _ _ => True));
    [intros ? op; apply on_sent_sees|intros; apply guarded_unknown_sees|].
  apply tries_bind. destruct (handle_nonce handle) as [n|]; [|done]. cbn [lift_option attempts].
  apply tries_bind. apply tries_ask. intros [v|e]; [|done]. apply tries_lift; [|done]. intros op Hop.
  exists cd, (Some n), v, ("deposit into " +:+ pool a). split; [set_solver|done].
Qed.

(** *** Before the operation is sent *)
Lemma fence_lost_sees l owner done_ why :
  sends_nothing l -> sees l (on_fence_lost cfg a router handle owner done_ why) done_right.
Proof.
  intros Hl. unfold on_fence_lost. destruct done_; [account; by right|].
  apply follows_attempt, tries_written.
  - intros l' v Hl' Hw. account. left. eapply written_app_r, written_mono; [|exact Hw]. done.
  - intros l' e Hl'.
    assert (sends_nothing (l ++ l')) by by apply sends_nothing_app.
    destruct e; try apply on_error_sees; account; by left.
Qed.

Lemma before_send_sees l owner cd :
  sends_nothing l -> sees l (before_send cfg opts a router handle owner cd) done_right.
Proof.
  intros Hl. unfold before_send. destruct (has_onBeforeSend opts); [|apply send_sees].
  apply sees_ask. intros r. assert (sends_nothing (l ++ [(BeforeSend a (Obj (common cfg a router handle)) handle cd, r)])).
  { apply sends_nothing_app; [done|by repeat constructor]. }
  destruct r as [v|e]; [|by apply fence_lost_sees].
  destruct (send_allowed v); [apply send_sees|by apply fence_lost_sees].
Qed.

Lemma encoded_sees l to_ f args Q (E : history -> error -> Prop) :
  (forall b, Q l b) -> (forall e, E l e) -> tries l (encoded cfg to_ f args) Q E.
Proof. intros HQ HE. unfold encoded. destruct (encodeFunctionData cfg f args); cbn; auto. Qed.

Lemma on_claimed_sees l owner :
  sends_nothing l -> sees l (on_claimed cfg opts a router handle owner) done_right.
Proof.
  intros Hl. unfold on_claimed. apply follows_attempt.
  eapply (tries_mono _ _ _ (fun l _ => sends_nothing l) _ (fun l _ => sends_nothing l));
    [intros; by apply before_send_sees| |].
  - intros l' e Hl'. eapply (guarded_sees _ _ _ _ _ _ (fun l _ => sends_nothing l)).
    + apply tries_written; [|done]. intros. by apply sends_nothing_app.
    + intros l'' _ Hl''. account. by right.
  - apply tries_bind. unfold deposit_batch. apply tries_bind, encoded_sees; [|done]. intros b.
    apply tries_bind, encoded_sees; [|done]. intros b'. cbn [attempts]. apply tries_ask.
    intros [v|e]; cbn; (apply sends_nothing_app; [done|by repeat constructor]).
Qed.

Lemma claim_error_sees l why : sends_nothing l -> sees l (on_claim_error a why) done_right.
Proof.
  intros Hl. unfold on_claim_error.
  destruct (strict_eq (reason_field why "checkpointOutcome") (Str "not_committed")); account; by right.
Qed.

Lemma claim_with_sees l snapshot :
  sends_nothing l -> sees l (claim_with cfg opts a router handle snapshot) done_right.
Proof.
  intros Hl. unfold claim_with. apply follows_attempt, tries_bind, tries_ask.
  intros [t|e]; [|apply claim_error_sees, sends_nothing_app; [done|by repeat constructor]].
  apply tries_ask. intros r. rewrite <-app_assoc.
  match goal with |- attempts _ ?m _ _ _ => assert (sends_nothing m) as Hm end.
  { apply sends_nothing_app; [done|by repeat constructor]. }
  destruct r as [v|e]; [|by apply claim_error_sees]. cbn.
  destruct (claimed_owner v); [by apply on_claimed_sees|]. account. by left.
Qed.

Lemma claim_sees l : sends_nothing l -> sees l (claim_deposit cfg opts a router handle) done_right.
Proof.
  intros Hl. unfold claim_deposit. destruct (has_onClaimSubmitting opts).
  - destruct (has_onBeforeClaimSubmitting opts); [|by apply claim_with_sees].
    apply sees_ask. intros r.
    assert (sends_nothing (l ++ [(BeforeClaim a, r)])) by (apply sends_nothing_app; [done|by repeat constructor]).
    destruct (match r with Returned v => authority_of v | Rejected _ => None end);
      [by apply claim_with_sees|]. account. by left.
  - apply follows_attempt, tries_written; intros l' x Hl'; [intros _|].
    + by apply on_claimed_sees, sends_nothing_app.
    + by apply claim_error_sees, sends_nothing_app.
Qed.

End Steps.

(** ** The batch *)
Section Batch.
Context (cfg : config) (opts : options).

Lemma capture_sends_nothing kernel a l :
  sends_nothing l ->
  tries l (captureReconcileHandle cfg kernel a) (fun l _ => sends_nothing l) (fun l _ => sends_nothing l).
Proof.
  intros Hl. unfold captureReconcileHandle. apply tries_bind, tries_lift; [|done]. intros sender _.
  apply tries_bind, tries_lift; [|done]. intros entryPoint _.
  destruct (negb _); [done|]. destruct (has_captureReconcileHandleFn cfg).
  - apply tries_bind, tries_ask. intros r.
    assert (sends_nothing (l ++ [(CaptureHandle a entryPoint sender, r)]))
      by (apply sends_nothing_app; [done|by repeat constructor]).
    destruct r as [v|e]; [|done]. by apply tries_lift.
  - destruct (_ || _); [done|]. apply tries_ask. intros n. apply tries_ask. intros b.
    assert (sends_nothing ((l ++ [(GetNonce, n)]) ++ [(GetBlockNumber, b)]))
      by (repeat apply sends_nothing_app; [done|by repeat constructor..]).
    destruct n as [n|e], b as [b|e']; try done.
    apply tries_bind, tries_lift; [|done]. intros nonce _.
    apply tries_bind, tries_lift; [|done]. intros startBlock _. by apply tries_lift.
Qed.

Lemma deposit_one_sees kernel a :
  sees [] (deposit_one cfg opts kernel a) (fun l x => accounts cfg a l x.1).
Proof.
  unfold deposit_one. apply follows_attempt.
  eapply tries_mono; [| |apply capture_sends_nothing; constructor]; cbn beta.
  - intros l handle Hl. apply follows_bind, follows_lift. intros router Hr. by apply claim_sees.
  - intros l e Hl. account. by left.
Qed.

(** One part of the history for each allocation, in order. *)
Definition accounted (allocations : list allocation) (l : history) (entries : list entry) : Prop :=
  exists parts, l = concat parts /\ Forall3 (accounts cfg) allocations parts entries.

Lemma stopped_sees kernel allocations :
  sees [] (dispatch_loop cfg opts kernel allocations true) (fun l entries => accounted allocations l entries).
Proof.
  induction allocations as [|a allocations IH]; [by exists []; split; [|constructor]|].
  cbn [dispatch_loop]. apply follows_bind. eapply follows_mono; [|exact IH].
  intros l entries (parts & -> & H). exists ([] :: parts). split; [done|]. constructor; [|done].
  account; [by left|constructor].
Qed.

Lemma loop_sees kernel allocations :
  sees [] (dispatch_loop cfg opts kernel allocations false) (fun l entries => accounted allocations l entries).
Proof.
  induction allocations as [|a allocations IH]; [by exists []; split; [|constructor]|].
  cbn [dispatch_loop]. apply follows_bind. eapply follows_mono; [|apply deposit_one_sees].
  intros l [e b] He. apply follows_bind. rewrite <-(app_nil_r l). apply sees_after.
  assert (sees [] (dispatch_loop cfg opts kernel allocations b)
            (fun l entries => accounted allocations l entries)) as Hb
    by (destruct b; [apply stopped_sees|apply IH]).
  eapply follows_mono; [|exact Hb]. intros l' entries (parts & -> & H). exists (l :: parts).
  split; [done|]. by constructor.
Qed.

(** What a finished dispatch comes to. *)
Definition reported (inputs : list val) (l : history) (entries : list entry) : Prop :=
  exists allocations kernel rest,
    map_throw normalizeAllocation inputs = Ok allocations
    /\ Forall (fun a => amount a <= CanonicalMandate.MAX_CALL_CAP_UNITS) allocations
    /\ l = (Reconstruct, Returned kernel) :: rest
    /\ accounted allocations rest entries.

Lemma caps_checked l :
  check_caps l = Ok tt -> Forall (fun x => x.2 <= CanonicalMandate.MAX_CALL_CAP_UNITS) l.
Proof.
  unfold check_caps. intros H. destruct (filter _ l) as [|[p z] ?] eqn:Hf; [|done].
  apply Forall_forall. intros x Hx. destruct (within_cap x.2) eqn:Hc; [by apply Z.leb_le|].
  exfalso. assert (x ∈ filter (fun x => within_cap x.2 = false) l) as Hin
    by by apply list_elem_of_filter. rewrite Hf in Hin. by apply elem_of_nil in Hin.
Qed.

Lemma durable_sees inputs : sees [] (dispatch_durable cfg opts inputs) (reported inputs).
Proof.
  unfold dispatch_durable. apply follows_bind, follows_lift. intros allocations Ha.
  destruct (match allocations with first :: rest => _ | [] => false end); [done|].
  apply follows_bind, follows_lift. intros [] Hcaps%caps_checked.
  rewrite (Forall_fmap (fun a => (pool a, amount a))) in Hcaps.
  apply follows_bind, sees_ask. intros [kernel|e]; [|done].
  assert (sees [(Reconstruct, Returned kernel)] (dispatch_loop cfg opts kernel allocations false)
            (reported inputs)) as Hloop.
  { change [(Reconstruct, Returned kernel)] with ([(Reconstruct, Returned kernel)] ++ [] : history).
    apply sees_after. eapply follows_mono; [|apply loop_sees]. intros l entries H.
    exists allocations, kernel, l. split_and!; [done|exact Hcaps|done|exact H]. }
  apply follows_bind. destruct allocations as [|first rest]; [exact Hloop|].
  apply follows_bind, follows_lift. intros k _.
  destruct (bool_decide _); [exact Hloop|done].
Qed.

(** C8. The entries of a finished dispatch say what happened, one for each allocation in order:
    the calls after the session client was reconstructed fall into one part per allocation,
    and an entry is [deposited] only with the confirmed checkpoint written and the router's
    event for exactly this deposit in it, [failed] only with the money written down in the
    kernel account, [confirming] only with the operation sent and its hash written down,
    [held] only if nothing was sent, and [unknown] only if that is written down or nothing was
    sent; and no amount is above the cap of a call. *)
Theorem entries_account inputs answers entries :
  (run (dispatchDeposits cfg opts (inl inputs)) answers).2 = Done entries ->
  reported inputs (run (dispatchDeposits cfg opts (inl inputs)) answers).1 entries.
Proof.
  apply (sees_run _ (reported inputs)). unfold dispatchDeposits, requireBaseExecution.
  destruct (baseCrossChainAvailable cfg); [apply durable_sees|done].
Qed.

End Batch.
End Facts.
