(* ===== verification/DepositEvidence.v ===== *)
(** * What a dispatch asks for and what it writes down

    An observer of [DepositProtocol] that looks at the calls alone: the calls of a batch are
    the approval and the deposit of the allocation and nothing else, and the evidence of a
    checkpoint is what the store of the relayer accepts ([EvidenceSchema]). *)
From S2P Require Export DepositFacts.

Module Evidence.
Export Facts.

(** ** Evidence the store accepts *)
Section Fields.
Local Open Scope string_scope.
Local Open Scope list_scope.

Definition address_like (s : string) : Prop := LOWER_ADDRESS_RE (chars_of s) = true.
Definition hash_like (s : string) : Prop := LOWER_EVM_HASH_RE (chars_of s) = true.
Definition unsigned_like (s : string) : Prop := UNSIGNED_DECIMAL_RE (chars_of s) = true.

(** Every property of an object passes. *)
Definition entries_pass (label : string) (fs : list (string * val)) : Prop :=
  Forall (fun x => check_entry (validateEvidenceObject x.2 DEPOSIT_EVENT_FIELDS "deposit event" [])
                     label (Obj fs) x.1 x.2 = Ok tt) fs.

Lemma validate_fields fs fields label optional :
  EvidenceSchema.exactObject (Obj fs) (fields ++ optional) label fields = Ok tt ->
  entries_pass label fs ->
  validateEvidenceObject (Obj fs) fields label optional = Ok tt.
Proof.
  intros He Hf. cbn [validateEvidenceObject]. rewrite He. cbn [mbind result_bind].
  clear He. unfold entries_pass in Hf. revert Hf. generalize (Obj fs) as v. intros v.
  induction fs as [|[k e] l IH]; [done|]. intros Hf. apply Forall_cons in Hf as [Hx Hl].
  cbn [fst snd] in Hx. rewrite Hx. cbn [mbind result_bind]. by apply IH.
Qed.

Lemma each_passes fields ok error : Forall (fun f => ok f = true) fields -> each fields ok error = Ok tt.
Proof. induction 1 as [|f fields Hf _ IH]; [done|]. cbn. by rewrite Hf. Qed.

(** How a property is read, by its name. *)
Definition plain_key (k : string) : bool :=
  negb (bool_decide (k ∈ ["event"; "custody"; "reconcileHandle"; "nonce"])).

Lemma check_plain nested label v k e :
  plain_key k = true ->
  check_entry nested label v k e =
    if decide (k ∈ UNSIGNED_FIELDS) then
      if is_string e && test is_decimal e then Ok tt
      else fails (path_key label k +:+ " must be an unsigned decimal string")
    else match e with Null | Str _ | Bool _ => Ok tt | _ => fails (path_key label k +:+ " must be a bounded scalar") end.
Proof.
  intros Hk%negb_true_iff%bool_decide_eq_false. unfold check_entry.
  repeat (rewrite decide_False by (intros ->; apply Hk; set_solver)). done.
Qed.

Lemma check_unsigned nested label v k s :
  plain_key k && bool_decide (k ∈ UNSIGNED_FIELDS) = true -> unsigned_like s ->
  check_entry nested label v k (Str s) = Ok tt.
Proof.
  intros [Hk Hu%bool_decide_eq_true]%andb_true_iff Hs. rewrite check_plain, decide_True by done.
  change (test is_decimal (Str s)) with (UNSIGNED_DECIMAL_RE (chars_of s)). by rewrite Hs.
Qed.

Lemma check_scalar nested label v k e :
  plain_key k && negb (bool_decide (k ∈ UNSIGNED_FIELDS)) = true ->
  match e with Null | Str _ | Bool _ => True | _ => False end ->
  check_entry nested label v k e = Ok tt.
Proof.
  intros [Hk Hu%negb_true_iff%bool_decide_eq_false]%andb_true_iff Hs.
  rewrite check_plain, decide_False by done. by destruct e.
Qed.

Lemma base_deposit_accepted s fs fields :
  BASE_EVIDENCE_SCHEMAS base_deposit s = Some fields ->
  EvidenceSchema.exactObject (Obj fs)
    (fields ++ BASE_EVIDENCE_OPTIONAL_FIELDS base_deposit s ++ ["kernelAddress"; "reconcileHandle"])
    "evidence" fields = Ok tt ->
  entries_pass "evidence" fs ->
  Forall (fun f => if_present LOWER_ADDRESS_RE (Obj fs) f = true)
    ["yieldRouterAddress"; "caller"; "poolAddress"; "kernelAddress"] ->
  Forall (fun f => strict_eq (get (Obj fs) f) Null || if_present LOWER_EVM_HASH_RE (Obj fs) f = true)
    ["userOpHash"; "transactionHash"; "mintTxHash"] ->
  Forall (fun f => has_own (Obj fs) f = false)
    ["burnTxHash"; "expectationDigest"; "messageDigest"; "attestationDigest"] ->
  (let event := get (Obj fs) "event" in
   truthy event = false
   \/ Forall (fun f => test LOWER_ADDRESS_RE (get event f) = true) ["address"; "caller"; "poolAddress"]
      /\ test LOWER_EVM_HASH_RE event#"topic0" = true) ->
  validateBaseEvidence base_deposit s (Obj fs) = Ok (Obj fs).
Proof.
  intros Hs He Hf Ha Hh Hd Hev. unfold validateBaseEvidence. rewrite Hs, decide_True by done.
  rewrite (validate_fields fs) by done. cbn [mbind result_bind].
  rewrite (each_passes _ _ _ Ha), (each_passes _ _ _ Hh). cbn [mbind result_bind].
  assert (forall re fields error, Forall (fun f => has_own (Obj fs) f = false) fields ->
    each fields (if_present re (Obj fs)) error = Ok tt) as Habsent.
  { intros re l error Hl. apply each_passes. eapply Forall_impl; [exact Hl|]. intros f Hn.
    unfold if_present. by rewrite Hn. }
  repeat (apply Forall_cons in Hd as [? Hd]).
  rewrite !Habsent by (by repeat constructor). cbn [mbind result_bind].
  cbn zeta in Hev. destruct Hev as [->|[Hev Ht]]; [done|].
  rewrite (each_passes _ _ _ Hev), Ht. by destruct (truthy _).
Qed.
End Fields.

(** ** The evidence of each checkpoint *)
Section Shapes.
Local Open Scope string_scope.
Local Open Scope list_scope.
Context (cfg : config) (a : allocation) (router : string) (handle : val).

(** What the evidence is made of is in its canonical form. *)
Record canonical_parts : Prop := {
  wf_chain : unsigned_like (string_of (coerce (chain_id cfg)));
  wf_router : address_like router;
  wf_caller : address_like (caller a);
  wf_pool : address_like (pool a);
  wf_amount : 0 < amount a;
  wf_minShares : 0 <= minShares a }.
Definition handle_normal : Prop := exists h, normalizeReconcileHandle handle (Str (caller a)) = Ok h.
Definition well_formed : Prop := canonical_parts /\ handle_normal.

Definition option_hash (o : option string) : Prop := match o with Some h => hash_like h | None => True end.

Lemma decimal_unsigned z : 0 <= z -> unsigned_like (decimal z).
Proof.
  intros Hz. unfold unsigned_like, decimal. rewrite chars_of_string_of.
  unfold BigInt_toString. destruct (Z.ltb_spec z 0); [lia|]. by apply is_decimal_to_digits.
Qed.

Lemma check_handle nested label fs :
  handle_normal ->
  get (Obj fs) "caller" = Str (caller a) ->
  check_entry nested label (Obj fs) "reconcileHandle" handle = Ok tt.
Proof.
  intros [h Hh] Hc. unfold check_entry. rewrite decide_False by done. rewrite decide_False by done.
  rewrite decide_True by done. rewrite Hc.
  change (coalesce (Str (caller a)) Null) with (Str (caller a)). by rewrite Hh.
Qed.

Ltac field :=
  first [ eapply check_handle; [assumption|reflexivity]
        | apply check_unsigned; [reflexivity|first [assumption|apply decimal_unsigned; lia]]
        | apply check_scalar; [reflexivity|exact I]
        | match goal with H : validateEvidenceObject _ _ _ _ = _ |- _ => exact H end
        | reflexivity ].
Ltac shape :=
  match goal with H : well_formed |- _ => destruct H as [[? ? ? ? ? ?] ?] | H : canonical_parts |- _ => destruct H end;
  eapply base_deposit_accepted;
  [ reflexivity | reflexivity | repeat apply List.Forall_cons; try apply List.Forall_nil; field
  | repeat apply List.Forall_cons; try apply List.Forall_nil; first [assumption|reflexivity]
  | repeat apply List.Forall_cons; try apply List.Forall_nil; first [assumption|reflexivity]
  | repeat constructor | ].

Notation common := (commonEvidence cfg a router handle).

Lemma submitting_accepted (Hwf : well_formed) : validateBaseEvidence base_deposit submitting (Obj common) = Ok (Obj common).
Proof. shape. by left. Qed.

Lemma submitted_accepted (Hwf : well_formed) op :
  hash_like op ->
  let ev := Obj (common ++ [("userOpHash", Str op)]) in
  validateBaseEvidence base_deposit submitted ev = Ok ev.
Proof. intros Hop ev. shape. by left. Qed.

Lemma unknown_accepted (Hwf : well_formed) op tx code :
  option_hash op -> option_hash tx ->
  let ev := Obj (common ++ hashes op tx ++ because code) in
  validateBaseEvidence base_deposit unknown ev = Ok ev.
Proof. intros Hop Htx ev. destruct op, tx; shape; by left. Qed.

Lemma failed_accepted (Hwf : well_formed) op tx code :
  option_hash op -> option_hash tx ->
  let ev := Obj (common ++ hashes op tx ++ because code) in
  validateBaseEvidence base_deposit failed ev = Ok ev.
Proof. intros Hop Htx ev. destruct op, tx; shape; by left. Qed.

Lemma custody_accepted (Hwf : well_formed) op tx code :
  option_hash op -> option_hash tx ->
  let ev := Obj (common ++ hashes op tx ++ because code ++ custodyEvidence) in
  validateBaseEvidence base_deposit failed ev = Ok ev.
Proof. intros Hop Htx ev. destruct op, tx; shape; by left. Qed.

(** The event that proves the deposit, as the evidence has it. *)
Lemma event_entries (Hparts : canonical_parts) e :
  event_proves a router e -> unsigned_like (logIndex e) ->
  validateEvidenceObject (event_val e) DEPOSIT_EVENT_FIELDS "deposit event" [] = Ok tt.
Proof.
  intros (Ha & Hc & Hp & Has & Hs & Hm) Hi. pose proof (wf_amount Hparts).
  apply validate_fields; [reflexivity|]. rewrite Has.
  repeat apply List.Forall_cons; try apply List.Forall_nil; field.
Qed.

Lemma event_hashes e :
  canonical_parts -> event_proves a router e ->
  Forall (fun f => test LOWER_ADDRESS_RE (get (event_val e) f) = true) ["address"; "caller"; "poolAddress"]
  /\ test LOWER_EVM_HASH_RE (get (event_val e) "topic0") = true.
Proof.
  intros Hparts (Ha & Hc & Hp & _). split; [|reflexivity].
  repeat apply List.Forall_cons; try apply List.Forall_nil.
  - change (address_like (address e)). rewrite Ha. by apply wf_router.
  - change (address_like (event_caller e)). rewrite Hc. by apply wf_caller.
  - change (address_like (poolAddress e)). rewrite Hp. by apply wf_pool.
Qed.

(** A confirmed deposit: of a dispatch, of a reconciliation and of a row without handle. *)
Section Confirmed.
Context (op : string) (p : proof).
Context (Hop : hash_like op) (Htx : hash_like (proof_tx p)).
Context (Hp : event_proves a router (event p)) (Hi : unsigned_like (logIndex (event p))).

Ltac confirmed_shape Hparts :=
  let Hevent := fresh "Hevent" in let Hhashes := fresh "Hhashes" in
  pose proof (event_entries Hparts _ Hp Hi) as Hevent; pose proof (event_hashes _ Hparts Hp) as Hhashes;
  destruct Hp as (_ & _ & _ & _ & ? & _); shape; right; exact Hhashes.

Lemma confirmed_accepted (Hwf : well_formed) :
  let ev := Obj (confirmedEvidence common op p) in
  validateBaseEvidence base_deposit confirmed ev = Ok ev.
Proof. intros ev. confirmed_shape (proj1 Hwf). Qed.

Lemma reconciled_accepted (Hwf : well_formed) :
  let ev := Obj (plainEvidence cfg a router
    ++ [("shares", Str (decimal (shares (event p)))); ("reconcileHandle", handle);
        ("userOpHash", Str op); ("transactionHash", Str (proof_tx p)); ("event", event_val (event p))]) in
  validateBaseEvidence base_deposit confirmed ev = Ok ev.
Proof. intros ev. confirmed_shape (proj1 Hwf). Qed.

Lemma by_hash_accepted (Hparts : canonical_parts) :
  let ev := Obj (plainEvidence cfg a router
    ++ [("shares", Str (decimal (shares (event p)))); ("userOpHash", Str op);
        ("transactionHash", Str (proof_tx p)); ("event", event_val (event p))]) in
  validateBaseEvidence base_deposit confirmed ev = Ok ev.
Proof. intros ev. confirmed_shape Hparts. Qed.
End Confirmed.

Lemma reconciled_failed_accepted (Hwf : well_formed) op tx code :
  option_hash op -> option_hash tx ->
  let ev := Obj (plainEvidence cfg a router ++ hashes op tx ++ because code ++ custodyEvidence
                 ++ [("reconcileHandle", handle)]) in
  validateBaseEvidence base_deposit failed ev = Ok ev.
Proof. intros Hop Htx ev. destruct op, tx; shape; by left. Qed.

(** With its shares and its event, an unknown outcome is not in the schema. *)
Lemma shares_refused op p code :
  validateBaseEvidence base_deposit unknown (Obj (confirmedEvidence common op p ++ because code))
  = Throw (Canonical.Error "evidence.shares is not allowlisted").
Proof. reflexivity. Qed.
End Shapes.

(** ** What a receipt gives *)
Definition error_tx (e : error) : option string :=
  match e with DepositObservationError _ _ tx _ => tx | _ => None end.

(** An error carries the hash of a transaction or none. *)
Definition good_error (e : error) : Prop := option_hash (error_tx e).
Definition fails_well {A} (m : result error A) : Prop := forall e, m = Throw e -> good_error e.

Lemma fails_well_bind {A B} (m : result error A) (k : A -> result error B) :
  fails_well m -> (forall a, fails_well (k a)) -> fails_well (m ≫= k).
Proof. intros Hm Hk. destruct m as [a|e']; [apply Hk|]. intros e [= <-]. by apply Hm. Qed.

Lemma fails_well_Ok {A} (a : A) : fails_well (Ok a).
Proof. done. Qed.
Lemma fails_well_TypeError {A} : fails_well (Throw TypeError : result error A).
Proof. by intros ? [= <-]. Qed.
Lemma fails_well_observed {A} code message tx d :
  option_hash tx -> fails_well (Throw (DepositObservationError code message tx d) : result error A).
Proof. by intros Ht ? [= <-]. Qed.
Lemma fails_well_if {A} (b : bool) (m1 m2 : result error A) :
  fails_well m1 -> fails_well m2 -> fails_well (if b then m1 else m2).
Proof. by destruct b. Qed.
Create HintDb errors.
#[local] Hint Resolve fails_well_bind fails_well_Ok fails_well_TypeError fails_well_observed
  fails_well_if : errors.

Lemma to_String_well v : fails_well (to_String v).
Proof. unfold to_String. auto with errors. Qed.
Lemma text_or_empty_well v : fails_well (text_or_empty v).
Proof. unfold text_or_empty. auto using to_String_well with errors. Qed.
Lemma disagrees_well v s : fails_well (disagrees v s).
Proof. unfold disagrees. auto using to_String_well with errors. Qed.
#[local] Hint Resolve to_String_well text_or_empty_well disagrees_well : errors.

Lemma filter_well {A} (f : A -> result error bool) l :
  (forall a, fails_well (f a)) -> fails_well (filter_throw f l).
Proof. intros Hf. induction l; cbn; auto with errors. Qed.

Lemma parse_well log a router m op :
  hash_like (transactionHash m) -> fails_well (parseDepositEvent log a router m op).
Proof.
  intros Ht. assert (option_hash (Some (transactionHash m))) as Hs by done.
  assert (forall A (b : bool) message (k : result error A), fails_well k ->
    fails_well (ambiguous_unless b message (transactionHash m) k)) as Hamb.
  { intros A [] message k Hk; [by apply fails_well_observed|done]. }
  assert (forall v, fails_well (topicAddress v)) as Htopic.
  { intros v e. unfold topicAddress, observed. repeat case_match; intros [= <-]; done. }
  unfold parseDepositEvent. apply fails_well_bind.
  { unfold event_encoding, observed.
    destruct (log#"topics") as [| | | | | | |[|t0 [|t1 [|t2 []]]]|]; auto with errors.
    apply fails_well_bind; [auto with errors|]. intros t. apply fails_well_if; [auto with errors|].
    destruct (event_words _); auto with errors. }
  intros [[t1 t2] [assets_ shares_]].
  apply fails_well_bind; [auto with errors|intros d1]. apply Hamb.
  apply fails_well_bind; [auto with errors|intros d2]. apply Hamb.
  apply fails_well_bind; [|intros d3; apply Hamb, Hamb].
  { unfold check_block_hash. apply fails_well_if; [done|]. destruct (blockHash m); auto with errors. }
  apply fails_well_bind; [done|intros c]. apply fails_well_bind; [done|intros p].
  apply fails_well_if; [by apply fails_well_observed|].
  apply fails_well_bind; [|done]. unfold decimalLogIndex, observed.
  destruct (to_BigInt _); [apply fails_well_if; [by apply fails_well_observed|done]|by apply fails_well_observed].
Qed.

Lemma tx_candidate_hash receipt tx : tx_candidate receipt = Some tx -> hash_like tx.
Proof.
  unfold tx_candidate. destruct (receipt#"receipt"#"transactionHash"); try done.
  destruct (HASH_RE _) eqn:E; [|done]. by intros [= <-].
Qed.

Lemma prove_well receipt a router op : fails_well (proveDepositReceipt receipt a router op).
Proof.
  unfold proveDepositReceipt, observed.
  apply fails_well_if; [by apply fails_well_observed|]. apply fails_well_if; [by apply fails_well_observed|].
  apply fails_well_if.
  { apply fails_well_observed. destruct (tx_candidate receipt) eqn:E; [|done]. by eapply tx_candidate_hash. }
  destruct (tx_candidate receipt) as [tx|] eqn:E; [|by apply fails_well_observed].
  apply tx_candidate_hash in E. assert (option_hash (Some tx)) as Ho by done.
  destruct (receipt#"logs"); auto with errors.
  apply fails_well_bind.
  { apply filter_well. intros v. unfold is_deposit_log. destruct (v#"address"); auto with errors. }
  intros [|log [|]]; auto with errors. apply fails_well_bind; [by apply parse_well|done].
Qed.

(** The proof that is read from a receipt is in canonical form. *)
Lemma parse_event_index log a router m op e :
  parseDepositEvent log a router m op = Ok e -> unsigned_like (logIndex e).
Proof.
  unfold parseDepositEvent. intros H.
  apply bind_Ok in H as ([[t1 t2] [assets_ shares_]] & _ & H).
  apply bind_Ok in H as (? & _ & H). apply ambiguous_Ok in H as [_ H].
  apply bind_Ok in H as (? & _ & H). apply ambiguous_Ok in H as [_ H].
  apply bind_Ok in H as (? & _ & H). apply ambiguous_Ok in H as [_ H].
  apply ambiguous_Ok in H as [_ H].
  apply bind_Ok in H as (c & _ & H). apply bind_Ok in H as (p & _ & H).
  destruct (_ || _) in H; [done|]. apply bind_Ok in H as (i & Hi & [= <-]).
  unfold decimalLogIndex in Hi. destruct (to_BigInt _) as [z|]; [|done].
  destruct (z <? 0)%Z eqn:Hz; [done|]. injection Hi as <-. apply decimal_unsigned. zbool. lia.
Qed.

Lemma prove_canonical receipt a router op p :
  proveDepositReceipt receipt a router op = Ok p ->
  event_proves a router (event p) /\ unsigned_like (logIndex (event p)) /\ hash_like (proof_tx p).
Proof.
  intros H. pose proof (prove_receipt_inv _ _ _ _ _ H) as (He & _ & _ & _ & _ & Ht & _).
  split_and!; [done| |by eapply tx_candidate_hash].
  unfold proveDepositReceipt in H. repeat (destruct (_ || _) in H; [done|]).
  destruct (tx_candidate receipt) as [tx|]; [|done]. destruct (receipt#"logs"); try done.
  apply bind_Ok in H as ([|log [|]] & _ & H); [done| |done].
  apply bind_Ok in H as (e & Hp & [= <-]). by eapply parse_event_index.
Qed.

(** ** The calls of a dispatch *)
Section Calls.
Local Open Scope string_scope.
Local Open Scope list_scope.
Context (cfg : config) (opts : options).

(** The batch of an allocation: the approval of the router and the deposit. *)
Definition intended (a : allocation) (batch : list batch_call) : Prop :=
  exists approve deposit,
    batch = [{| to := usdcAddress cfg; value := 0; function := "approve";
                arguments := [yieldRouterAddress cfg; BigInt (amount a)]; data := approve |};
             {| to := yieldRouterAddress cfg; value := 0; function := "deposit";
                arguments := [Str (pool a); BigInt (amount a); BigInt (minShares a)]; data := deposit |}]
    /\ encodeFunctionData cfg "approve" [yieldRouterAddress cfg; BigInt (amount a)] = Some approve
    /\ encodeFunctionData cfg "deposit" [Str (pool a); BigInt (amount a); BigInt (minShares a)] = Some deposit.

(** The identifier of the chain is a number. *)
Definition chain_known : Prop := unsigned_like (string_of (coerce (chain_id cfg))).

(** The evidence is of this deposit, and the store takes it. *)
Definition concerns (a : allocation) (ev : val) : Prop :=
  ev#"caller" = Str (caller a) /\ ev#"poolAddress" = Str (pool a)
  /\ ev#"assets" = Str (decimal (amount a)) /\ ev#"minShares" = Str (decimal (minShares a)).
Definition acceptable (a : allocation) (s : state) (ev : val) : Prop :=
  concerns a ev /\ (chain_known -> validateBaseEvidence base_deposit s ev = Ok ev).

(** The one checkpoint that the store refuses. *)
Definition refused (a : allocation) (s : state) (ev : val) : Prop :=
  concerns a ev /\ s = unknown /\ ev#"reasonCode" = Str "confirmed_checkpoint_failed"
  /\ validateBaseEvidence base_deposit s ev
     = Throw (Canonical.Error "evidence.shares is not allowlisted").

Definition sound (c : call) : Prop :=
  match c with
  | EncodeCalls (Some a) batch => intended a batch /\ amount a <= CanonicalMandate.MAX_CALL_CAP_UNITS
  | Claim a ev _ _ => acceptable a submitting ev
  | Checkpoint a s ev _ _ => acceptable a s ev \/ refused a s ev
  | EncodeCalls None _ | Send None _ _ | OnSubmitted _ => False
  | _ => True
  end.

Definition only_sound (_ : unit) (c : call) (_ : option answer) (_ : unit) : Prop := sound c.
Notation calls_sound m p Q := (obeys only_sound m p (fun _ x => Q x)).
Notation tries_sound m p Q E := (attempts only_sound m p (fun _ x => Q x) (fun _ e => E e)).

Lemma path_sound m l m' : path only_sound m l m' -> Forall (fun x => sound x.1) l.
Proof. by induction 1; constructor. Qed.

Lemma sound_ask {A} m c (k : answer -> prog A) (Q : unit -> A -> Prop) :
  sound c -> (forall r m', obeys only_sound m' (k r) Q) -> obeys only_sound m (Ask c k) Q.
Proof. intros Hc Hk. apply (follows_ask _ _ tt); [done|auto]. Qed.

Lemma tries_sound_ask {A} m c (k : answer -> prog A) (Q : unit -> A -> Prop) E :
  sound c -> (forall r m', attempts only_sound m' (k r) Q E) -> attempts only_sound m (Ask c k) Q E.
Proof. intros Hc Hk. cbn. split; [by exists tt|]. intros r. exists tt. split; [done|apply Hk]. Qed.

Section One.
Context (a : allocation) (router : string) (handle : val).
Context (Hwf : chain_known -> well_formed cfg a router handle).
Context (Hcap : amount a <= CanonicalMandate.MAX_CALL_CAP_UNITS).

Notation anything := (fun _ => True).

Lemma sound_checkpoint m owner s ev :
  acceptable a s (Obj ev) \/ refused a s (Obj ev) ->
  tries_sound m (checkpoint a owner s ev) anything good_error.
Proof.
  intros Hev. unfold checkpoint. apply tries_bind, tries_sound_ask; [done|]. intros [t|e] m'; [|done].
  apply tries_sound_ask; [done|]. by intros [].
Qed.

Lemma unknown_sound op tx code :
  option_hash op -> option_hash tx ->
  acceptable a unknown (Obj (common cfg a router handle ++ hashes op tx ++ because code)).
Proof. intros. split; [done|]. intros Hc%Hwf. by apply unknown_accepted. Qed.

Lemma on_error_sound m owner op tx why :
  option_hash op -> option_hash tx -> good_error why ->
  calls_sound m (on_error cfg a router handle owner op tx why) anything.
Proof.
  intros Hop Htx Hwhy. unfold on_error. destruct (match why with Uncertain _ => true | _ => _ end); [done|].
  assert (option_hash (match why with DepositObservationError code _ tx d => (code, tx, d)
    | _ => ("receipt_ambiguous", tx, false) end).1.2) as Htx' by by destruct why.
  destruct (match why with DepositObservationError code _ tx d => (code, tx, d) | _ => _ end)
    as [[code tx'] []]; cbn [fst snd] in Htx';
    (apply follows_bind, (tries_follows _ _ _ _ (fun _ _ => True));
     eapply tries_mono; [| |apply sound_checkpoint]; try done; left).
  - split; [done|]. intros Hc%Hwf. by apply (custody_accepted cfg a router handle Hc op tx' code).
  - rewrite app_nil_r. by apply unknown_sound.
Qed.

Lemma guarded_sound {A} m owner op tx (p : prog A) k (Q : A -> Prop) :
  option_hash op -> option_hash tx ->
  tries_sound m p Q good_error -> (forall m' x, Q x -> calls_sound m' (k x) anything) ->
  calls_sound m (guarded cfg a router handle owner op tx p k) anything.
Proof.
  intros Hop Htx Hp Hk. unfold guarded. apply follows_attempt.
  eapply tries_mono; [| |exact Hp]; cbn; intros m'; [auto|]. intros. by apply on_error_sound.
Qed.

Lemma on_receipt_sound m op receipt :
  hash_like op -> calls_sound m (on_receipt cfg a router handle op receipt) anything.
Proof.
  intros Hop. unfold on_receipt.
  eapply (guarded_sound _ _ _ _ _ _ (fun p => event_proves a router (event p)
    /\ unsigned_like (logIndex (event p)) /\ hash_like (proof_tx p))); [done|done| |].
  { apply tries_lift; [apply prove_canonical|apply prove_well]. }
  intros m' p (Hp & Hi & Htx). apply follows_attempt. eapply tries_mono; [| |apply sound_checkpoint].
  - done.
  - intros m'' e _. eapply (guarded_sound _ _ _ _ _ _ anything); [done|done| |done].
    apply sound_checkpoint. right.
    split; [done|]. split; [done|]. split; [done|apply shares_refused].
  - left. split; [done|]. intros Hc%Hwf. by apply confirmed_accepted.
Qed.

Lemma on_sent_sound m owner op :
  hash_like op -> calls_sound m (on_sent cfg a router handle owner op) anything.
Proof.
  intros Hop. unfold on_sent. apply follows_attempt. eapply tries_mono; [| |apply sound_checkpoint].
  - intros m' v _. unfold wait_for_receipt. apply follows_attempt, tries_sound_ask; [done|].
    intros [receipt|e] m''; [by apply on_receipt_sound|done].
  - intros m' e He. apply follows_attempt. eapply tries_mono; [| |apply sound_checkpoint].
    + done.
    + intros m'' e' He'. apply on_error_sound; [done|done|].
      destruct e' as [| | |[]| |]; try done.
    + left. by apply (unknown_sound (Some op) None).
  - left. split; [done|]. intros Hc%Hwf. by apply submitted_accepted.
Qed.

Lemma TX_HASH_lower t : TX_HASH t = true -> hash_like (lower_case t).
Proof.
  unfold TX_HASH, hash_like, lower_case. rewrite chars_of_string_of.
  destruct (Hex.after_0x t) as [l|] eqn:E; [|done]. apply Hex.after_0x_Some in E as ->.
  intros [Hl Hx]%andb_true_iff. change (is_hex 64 (toLowerCase l) = true).
  apply andb_true_iff. unfold toLowerCase. rewrite length_fmap. split; [done|].
  rewrite forallb_Forall in *. by rewrite Forall_fmap.
Qed.

Lemma sent_hash_like v label op : sent_hash v label = Ok op -> hash_like op.
Proof.
  unfold sent_hash. intros H. apply bind_Ok in H as (h & H & Hop).
  unfold requireCanonicalUserOperationHash in H. apply bind_Ok in H as (t & Ht & H).
  destruct (TX_HASH t) eqn:E; [|done]. injection H as ->. destruct h; try done. injection Hop as <-.
  unfold text_or_empty in Ht. destruct (truthy _); [|by injection Ht as <-].
  cbn in Ht. injection Ht as <-. by apply TX_HASH_lower.
Qed.

Lemma requireCanonicalUserOperationHash_well v label :
  fails_well (requireCanonicalUserOperationHash v label).
Proof.
  unfold requireCanonicalUserOperationHash. apply fails_well_bind; [apply text_or_empty_well|].
  intros t. by destruct (TX_HASH t); [|intros ? [= <-]].
Qed.

Lemma send_sound m owner cd :
  calls_sound m (send_operation cfg a router handle owner cd) anything.
Proof.
  unfold send_operation. apply follows_attempt.
  eapply (tries_mono _ _ _ (fun _ op => hash_like op) _ (fun _ e => good_error e));
    [intros ? op; apply on_sent_sound| |].
  - intros m' e He. eapply (guarded_sound _ _ _ _ _ _ anything); [done|done| |done].
    apply sound_checkpoint. left. by apply (unknown_sound None None).
  - apply tries_bind. destruct (handle_nonce handle) as [n|]; [|done]. cbn [lift_option attempts].
    apply tries_bind, tries_sound_ask; [done|]. intros [v|e] m'; [|done].
    apply tries_lift; [by apply sent_hash_like|]. intros e. unfold sent_hash.
    apply fails_well_bind; [apply requireCanonicalUserOperationHash_well|].
    by intros []; try (by intros ? [= <-]).
Qed.

Lemma fence_lost_sound m owner done_ why :
  calls_sound m (on_fence_lost cfg a router handle owner done_ why) anything.
Proof.
  unfold on_fence_lost. destruct done_; [done|]. apply follows_attempt.
  eapply tries_mono; [| |apply sound_checkpoint].
  - done.
  - intros m' [| | |v| |] He; try done. destruct v; try done; by apply on_error_sound.
  - left. by apply (unknown_sound None None).
Qed.

Lemma before_send_sound m owner cd :
  calls_sound m (before_send cfg opts a router handle owner cd) anything.
Proof.
  unfold before_send. destruct (has_onBeforeSend opts); [|apply send_sound].
  apply sound_ask; [done|]. intros [v|e] m'; [|apply fence_lost_sound].
  destruct (send_allowed v); [apply send_sound|apply fence_lost_sound].
Qed.

Lemma on_claimed_sound m owner :
  calls_sound m (on_claimed cfg opts a router handle owner) anything.
Proof.
  unfold on_claimed. apply follows_attempt.
  eapply (tries_mono _ _ _ (fun _ _ => True) _ (fun _ e => good_error e));
    [intros; apply before_send_sound| |].
  - intros m' e He. eapply (guarded_sound _ _ _ _ _ _ anything); [done|done| |done].
    apply sound_checkpoint. left. split; [done|].
    intros Hc%Hwf. by apply (failed_accepted cfg a router handle Hc None None).
  - unfold deposit_batch, encoded. apply tries_bind, tries_bind, tries_bind.
    destruct (encodeFunctionData cfg "approve" _) as [approve|] eqn:Ea; [|done].
    cbn [lift_option attempts]. apply tries_bind, tries_bind.
    destruct (encodeFunctionData cfg "deposit" _) as [deposit|] eqn:Ed; [|done].
    cbn [lift_option attempts]. apply tries_sound_ask; [|by intros []].
    split; [|done]. by exists approve, deposit.
Qed.

Lemma claim_error_sound m why : calls_sound m (on_claim_error a why) anything.
Proof. unfold on_claim_error. by destruct (strict_eq _ _). Qed.

Lemma submitting_sound : acceptable a submitting (Obj (common cfg a router handle)).
Proof. split; [done|]. intros Hc%Hwf. by apply submitting_accepted. Qed.

Lemma claim_with_sound m snapshot :
  calls_sound m (claim_with cfg opts a router handle snapshot) anything.
Proof.
  unfold claim_with. apply follows_attempt, tries_bind, tries_sound_ask; [done|].
  intros [t|e] m'; [|apply claim_error_sound]. apply tries_sound_ask; [apply submitting_sound|].
  intros [v|e] m''; [|apply claim_error_sound]. cbn.
  destruct (claimed_owner v); [apply on_claimed_sound|done].
Qed.

Lemma claim_sound m : calls_sound m (claim_deposit cfg opts a router handle) anything.
Proof.
  unfold claim_deposit. destruct (has_onClaimSubmitting opts).
  - destruct (has_onBeforeClaimSubmitting opts); [|apply claim_with_sound].
    apply sound_ask; [done|]. intros r m'.
    destruct (match r with Returned v => authority_of v | Rejected _ => None end);
      [apply claim_with_sound|done].
  - apply follows_attempt. eapply tries_mono; [| |apply sound_checkpoint].
    + intros. apply on_claimed_sound.
    + intros. apply claim_error_sound.
    + left. apply submitting_sound.
Qed.

End One.
(** *** The batch *)

Lemma canonicalAddress_like v label s : canonicalAddress v label = Ok s -> address_like s.
Proof. unfold canonicalAddress. destruct (ADDRESS_RE _) eqn:E; [|done]. by intros [= <-]. Qed.

Lemma normalize_inv input a :
  normalizeAllocation input = Ok a ->
  address_like (caller a) /\ address_like (pool a) /\ 0 < amount a /\ 0 <= minShares a.
Proof.
  unfold normalizeAllocation. intros H. destruct (negb (is_object input)); [done|].
  apply bind_Ok in H as ([] & _ & H). apply bind_Ok in H as (i & _ & H).
  destruct (negb (execution_matches i)); [done|].
  destruct (positive_bigint input#"amount") as [z|] eqn:Hz; [|done].
  destruct (nonnegative_bigint input#"minShares") as [m|] eqn:Hm; [|done].
  apply bind_Ok in H as (c & Hc & H). apply bind_Ok in H as (p & Hp & [= <-]). cbn.
  assert (0 < z) as Hpos.
  { unfold positive_bigint in Hz. destruct (input#"amount"); try done. case_match; simplify_eq. by zbool. }
  assert (0 <= m) as Hnonneg.
  { unfold nonnegative_bigint in Hm. destruct (input#"minShares"); try done. case_match; simplify_eq. by zbool. }
  split_and!; [by eapply canonicalAddress_like|by eapply canonicalAddress_like|done|done].
Qed.

Lemma from_index_Ok {A} (m : result index_error A) a : from_index m = Ok a -> m = Ok a.
Proof. destruct m as [|[]]; [by intros [= ->]|done..]. Qed.
Lemma from_index_well {A} (m : result index_error A) : fails_well (from_index m).
Proof. destruct m as [|[]]; by try intros ? [= <-]. Qed.

(** The normal form of a handle is its own normal form. *)
Lemma normalizeReconcileHandle_idempotent v s h :
  normalizeReconcileHandle v s = Ok h -> normalizeReconcileHandle h s = Ok h.
Proof.
  unfold normalizeReconcileHandle. intros H.
  destruct (negb (is_object v)); [done|]. destruct (negb (_ && _)) in H; [done|].
  apply bind_Ok in H as (e & He & H).
  destruct (negb (bool_decide (e = _))) eqn:Hpin; [done|].
  apply bind_Ok in H as (hs & Hs & H). destruct (bool_decide (hs = ZERO_ADDRESS)) eqn:Hz; [done|].
  apply bind_Ok in H as ([] & Hexp & H). apply bind_Ok in H as (n & Hn & H).
  apply bind_Ok in H as (b & Hb & [= <-]).
  assert (forall v l t, canonicalHandleAddress v l = Ok t -> canonicalHandleAddress (Str t) l = Ok t) as Ha.
  { intros w l t. unfold canonicalHandleAddress. destruct w; try done.
    destruct (LOWER_ADDRESS_RE _) eqn:E; [|done]. intros [= <-]. by rewrite E. }
  assert (forall v l t, decimal_field v l = Ok t -> decimal_field (Str t) l = Ok t) as Hd.
  { intros w l t. unfold decimal_field. destruct w; try done.
    destruct (UNSIGNED_DECIMAL_RE _) eqn:E; [|done]. intros [= <-]. by rewrite E. }
  set (handle := Obj _).
  change (handle#"entryPoint") with (Str e). change (handle#"sender") with (Str hs).
  change (handle#"nonce") with (Str n). change (handle#"startBlock") with (Str b).
  change (negb (is_object handle)) with false.
  match goal with |- context [negb (?x && ?y)] => change (x && y) with true end.
  cbn [negb]. rewrite (Ha _ _ _ He). cbn [mbind result_bind]. rewrite Hpin, (Ha _ _ _ Hs).
  cbn [mbind result_bind]. rewrite Hz, Hexp. cbn [mbind result_bind].
  rewrite (Hd _ _ _ Hn). cbn [mbind result_bind]. by rewrite (Hd _ _ _ Hb).
Qed.

Section Loop.
Context (kernel : val).

Definition kernel_of : result error string :=
  canonicalAddress kernel#"account"#"address" "reconstructed Kernel address".

(** An allocation that the loop is given. *)
Definition ready (a : allocation) : Prop :=
  (exists input, normalizeAllocation input = Ok a) /\ amount a <= CanonicalMandate.MAX_CALL_CAP_UNITS
  /\ kernel_of = Ok (caller a).

Lemma capture_sound m a :
  kernel_of = Ok (caller a) ->
  tries_sound m (captureReconcileHandle cfg kernel a)
    (fun h => normalizeReconcileHandle h (Str (caller a)) = Ok h) (fun _ => True).
Proof.
  intros Hk. unfold captureReconcileHandle.
  change (canonicalAddress kernel#"account"#"address" "reconstructed Kernel address") with kernel_of.
  rewrite Hk. cbn [lift]. apply tries_bind. cbn [attempts].
  apply tries_bind, tries_lift; [|done]. intros e _. destruct (negb _); [done|].
  assert (forall m' v, tries_sound m' (lift (from_index (normalizeReconcileHandle v (Str (caller a)))))
    (fun h => normalizeReconcileHandle h (Str (caller a)) = Ok h) (fun _ => True)) as Hnorm.
  { intros m' v. apply tries_lift; [|done]. intros h Hh%from_index_Ok.
    by eapply normalizeReconcileHandle_idempotent. }
  destruct (has_captureReconcileHandleFn cfg).
  - apply tries_bind, tries_sound_ask; [done|]. intros [v|why] m'; [apply Hnorm|done].
  - destruct (_ || _); [done|]. apply tries_sound_ask; [done|]. intros n m'.
    apply tries_sound_ask; [done|]. intros b m''. destruct n as [n|], b as [b|]; try done.
    apply tries_bind, tries_lift; [|done]. intros nonce _.
    apply tries_bind, tries_lift; [|done]. intros start _. apply Hnorm.
Qed.

Lemma deposit_one_sound m a :
  ready a -> calls_sound m (deposit_one cfg opts kernel a) (fun _ => True).
Proof.
  intros ((input & (Hc & Hp & Ha & Hm)%normalize_inv) & Hcap & Hk). unfold deposit_one.
  apply follows_attempt. eapply tries_mono; [| |by apply capture_sound]; cbn beta; [|done].
  intros m' h Hh. apply follows_bind, follows_lift. intros router Hr. apply claim_sound; [|done].
  intros Hchain. split; [|by exists h]. split; try done. by eapply canonicalAddress_like.
Qed.

Lemma loop_sound m allocations stopped :
  Forall ready allocations ->
  calls_sound m (dispatch_loop cfg opts kernel allocations stopped) (fun _ => True).
Proof.
  intros H. revert m stopped. induction H as [|a allocations Ha H IH]; intros m stopped; [done|].
  cbn [dispatch_loop]. destruct stopped; apply follows_bind.
  - eapply follows_mono; [|apply IH]. done.
  - eapply follows_mono; [|by apply deposit_one_sound]. intros m' r _. apply follows_bind.
    eapply follows_mono; [|apply IH]. done.
Qed.
End Loop.

Lemma durable_sound inputs : calls_sound tt (dispatch_durable cfg opts inputs) (fun _ => True).
Proof.
  unfold dispatch_durable. apply follows_bind, follows_lift. intros l Hl.
  destruct (match l with first :: rest => _ | [] => false end) eqn:Hsame; [done|].
  apply follows_bind, follows_lift. intros [] Hcaps%caps_checked.
  rewrite (Forall_fmap (fun a => (pool a, amount a))) in Hcaps.
  apply follows_bind, sound_ask; [done|]. intros [kernel|e] m'; [|done]. cbn [obeys].
  apply follows_bind. destruct l as [|first rest]; [by apply (loop_sound kernel m' [])|].
  apply follows_bind, follows_lift. intros k Hk.
  destruct (bool_decide (k = caller first)) eqn:Hf; [|done]. apply bool_decide_eq_true in Hf as ->.
  cbn [obeys]. apply loop_sound. apply Forall_forall. intros a Ha. split_and!.
  - apply map_throw_Forall2 in Hl. apply list_elem_of_lookup in Ha as (j & Hj).
    destruct (Forall2_lookup_r _ _ _ _ _ Hl Hj) as (input & _ & Hi). eauto.
  - by apply (proj1 (Forall_forall _ _) Hcaps).
  - unfold kernel_of. rewrite Hk. f_equal. apply elem_of_cons in Ha as [->|Ha]; [done|].
    apply negb_false_iff, forallb_Forall in Hsame. apply (proj1 (Forall_forall _ _) Hsame) in Ha.
    unfold same_context in Ha. zbool. repeat match goal with H : bool_decide _ = true |- _ => apply bool_decide_eq_true in H end.
    congruence.
Qed.

Lemma all_sound inputs answers :
  Forall (fun x => sound x.1) (events (run (dispatchDeposits cfg opts (inl inputs)) answers)).
Proof.
  destruct (follows_run only_sound tt (dispatchDeposits cfg opts (inl inputs)) (fun _ _ => True) answers)
    as (m & Hm & _); [|by eapply path_sound].
  unfold dispatchDeposits, requireBaseExecution.
  destruct (baseCrossChainAvailable cfg); [apply durable_sound|done].
Qed.


End Calls.

(** ** The batch and the policy of the session *)

(** A call of the batch, as the policy sees it. *)
Definition policy_call (c : batch_call) : PolicyEngine.call := {|
  PolicyEngine.to := to c; PolicyEngine.value := BigInt (value c);
  PolicyEngine.functionName := Str (function c); PolicyEngine.args := Arr (arguments c) |}.

Lemma same_text_refl s : PolicyEngine.same_text (Str s) s.
Proof. done. Qed.

Lemma intended_farm_calls cfg a batch usdc router cap :
  intended cfg a batch -> usdcAddress cfg = Str usdc -> yieldRouterAddress cfg = Str router ->
  amount a <= cap ->
  Forall (fun c => PolicyEngine.farm_call usdc router cap (policy_call c)) batch.
Proof.
  intros (approve & deposit & -> & _ & _) Hu Hr Hcap. rewrite Hu, Hr.
  repeat apply List.Forall_cons; try apply List.Forall_nil; (split; [by exists 0|]).
  - exists [Str router; BigInt (amount a)]. split; [done|]. left. split_and!; try done.
    + by exists (Str router).
    + exists (BigInt (amount a)). split; [done|]. by exists (amount a).
  - exists [Str (pool a); BigInt (amount a); BigInt (minShares a)]. split; [done|]. right. split_and!; try done.
    exists (BigInt (amount a)). split; [done|]. by exists (amount a).
Qed.

(** C11. The policy of the session lets a dispatch through: with the permissions that are built
    for the same contracts and a cap that covers the allocation, every call of the batch that
    is encoded for it is allowed until the session expires, and its amount is never above the
    largest cap a mandate may have. *)
Theorem batches_within_policy EQUAL LESS_THAN_OR_EQUAL cfg opts inputs answers usdc router p cap
    clock now expiry a batch r :
  EQUAL <> LESS_THAN_OR_EQUAL ->
  usdcAddress cfg = Str usdc -> yieldRouterAddress cfg = Str router ->
  PolicyEngine.usdcAddress p = Str usdc -> PolicyEngine.yieldRouterAddress p = Str router ->
  amount a <= cap -> PolicyEngine.is_expired clock now expiry = false ->
  (EncodeCalls (Some a) batch, r) ∈ events (run (dispatchDeposits cfg opts (inl inputs)) answers) ->
  Forall (fun c => PolicyEngine.evaluateCall EQUAL LESS_THAN_OR_EQUAL clock
                     (PolicyEngine.farm_permissions EQUAL LESS_THAN_OR_EQUAL p cap)
                     (policy_call c) now expiry = PolicyEngine.allow) batch
  /\ amount a <= CanonicalMandate.MAX_CALL_CAP_UNITS.
Proof.
  intros Hne Hu Hr Hpu Hpr Hcap Hexp Hin.
  pose proof (all_sound cfg opts inputs answers) as H.
  apply (proj1 (Forall_forall _ _) H) in Hin as [Hb Hmax]. split; [|done].
  eapply Forall_impl; [by apply (intended_farm_calls cfg a batch usdc router cap)|].
  intros c Hc. by apply (PolicyEngine.evaluate_farm _ _ Hne usdc router cap);
    [apply PolicyEngine.farm_permissions_policy|].
Qed.

End Evidence.
