(* ===== verification/DepositRead.v ===== *)
(** * The reconciliation of deposits

    Models the reading side of [relayer/src/base/orchestrator.mjs]: [readBaseDepositEvidence],
    which looks for the one operation of a deposit in a bounded window of blocks, and
    [reconcileBaseDeposit] and [reconcileSubmittedDeposit], which write down what it finds.
    The clients are functions of what they are asked; each is asked at most once. *)
From S2P Require Export DepositEvidence.

Module Read.
Export Evidence.

Section Read.
Local Open Scope string_scope.
Local Open Scope list_scope.

(** ** Objects *)

(** The normal form of an allocation as an object. *)
Definition allocation_val (a : allocation) : val :=
  with_props (given a) [("identity", Outbox.identity_val (identity a)); ("caller", Str (caller a));
                        ("pool", Str (pool a))].

(** ** The clients *)
Record clients := {
  getBlockNumber : answer;
  getLogs : Z -> Z -> answer; (* the user operation events of the entry point in a range of blocks *)
  getUserOperation : string -> answer;
  getUserOperationReceipt : string -> answer }.

(** [decodeEventLog] of the library: the arguments, [None] where it throws. *)
Context (decodeEventLog : val -> val -> option val).

Definition reconcileReadError {A} (message : string) : result error A :=
  Throw (BaseDepositReconciliationError "BASE_DEPOSIT_RECONCILE_RETRYABLE" message).
Definition validation {A} (message : string) : result error A :=
  Throw (BaseDepositReconciliationError "BASE_DEPOSIT_RECONCILE_VALIDATION" message).

(** A read that rejects may be tried again. *)
Definition read (r : answer) (message : string) : result error val :=
  match r with Returned v => Ok v | Rejected _ => reconcileReadError message end.

Definition reconcilePending (reasonCode : string) (a : allocation) (userOpHash : option string) : entry :=
  entry_of a held (Some reasonCode) None exec_confirming in_agent userOpHash None None.

(** ** The operation in the window *)
Definition logAddress (log : val) (label : string) : result error string :=
  canonicalAddress log#"address" (label +:+ " address").

(** The filter: any error makes it false. *)
Definition is_operation_log (entryPoint : string) (log : val) : bool :=
  match (a ← logAddress log "EntryPoint";
         if bool_decide (a = entryPoint) then
           t ← text_or_empty (first_topic log);
           Ok (bool_decide (lower_case t = USER_OPERATION_EVENT_TOPIC0))
         else Ok false)
  with Ok b => b | Throw _ => false end.

Definition decodeUserOperationEvent (log : val) : result error (val * val) :=
  if truthy log#"args" && (is_object log#"args" || is_array log#"args") then Ok (log, log#"args")
  else
    match decodeEventLog log#"topics" log#"data" with
    | Some args => Ok (log, args)
    | None => mismatch "EntryPoint UserOperationEvent is malformed"
    end.

(** The sender, the nonce and, if it is known, the hash of the operation. *)
Definition is_operation (sender nonce : string) (userOpHash : option string) (e : val * val) : bool :=
  let args := e.2 in
  bool_decide (lower_text args#"sender" = sender)
  && match rpcUnsigned args#"nonce" "EntryPoint nonce" with
     | Ok n => bool_decide (n = nonce)
     | Throw _ => false
     end
  && match userOpHash with None => true | Some h => bool_decide (lower_text args#"userOpHash" = h) end.

(** The number a normal decimal denotes. *)
Definition number_of (s : string) : result error Z :=
  match to_BigInt (Str s) with Some z => Ok z | None => Throw TypeError end.

Definition optional (v : val) (f : val -> result error string) : result error (option string) :=
  if nullish v then Ok None else t ← f v; Ok (Some t).

(** The handle, field by field. *)
Record reconcile_handle := {
  handle_entryPoint : string;
  handle_sender : string;
  handle_nonce_text : string;
  fromBlock : Z }.
Definition handle_fields (h : val) : result error reconcile_handle :=
  match h#"entryPoint", h#"sender", h#"nonce", h#"startBlock" with
  | Str entryPoint, Str sender, Str nonce, Str startBlock =>
      from ← number_of startBlock;
      Ok {| handle_entryPoint := entryPoint; handle_sender := sender; handle_nonce_text := nonce;
            fromBlock := from |}
  | _, _, _, _ => Throw TypeError
  end.

(** ** The checks of what is found *)
Section Found.
Context (h : reconcile_handle) (toBlock : Z).

Definition in_window (block : string) : result error bool :=
  b ← number_of block; Ok ((fromBlock h <=? b)%Z && (b <=? toBlock)%Z).

(** The hash of the operation, and the transaction of the log if it is given. *)
Definition discovered (e : val * val) : result error (string * option string) :=
  op ← canonicalHash (e.2)#"userOpHash" "EntryPoint userOpHash";
  tx ← optional (e.1)#"transactionHash" (fun v => canonicalHash v "EntryPoint transactionHash");
  block ← optional (e.1)#"blockNumber" (fun v => rpcUnsigned v "EntryPoint block number");
  inside ← match block with Some b => in_window b | None => Ok true end;
  if (inside : bool) then Ok (op, tx)
  else mismatch "EntryPoint UserOperation is outside the reconcile window".

Definition full_operation (full : val) (logTx : option string) : result error string :=
  let signed := full#"userOperation" in
  if negb (is_object signed) then mismatch "full UserOperation is malformed"
  else
    entryPoint ← canonicalAddress full#"entryPoint" "full UserOperation EntryPoint";
    sender ← canonicalAddress signed#"sender" "full UserOperation sender";
    nonce ← rpcUnsigned signed#"nonce" "full UserOperation nonce";
    block ← rpcUnsigned full#"blockNumber" "full UserOperation block number";
    tx ← canonicalHash full#"transactionHash" "full UserOperation transactionHash";
    inside ← in_window block;
    if negb (bool_decide (entryPoint = PINNED_ENTRY_POINT))
       || negb (bool_decide (entryPoint = handle_entryPoint h))
       || negb (bool_decide (sender = handle_sender h))
       || negb (bool_decide (nonce = handle_nonce_text h))
       || negb inside
       || match logTx with Some t => negb (bool_decide (t = tx)) | None => false end
    then mismatch "full UserOperation disagrees with reconcile handle"
    else Ok tx.

(** The sender and the transaction of the receipt of the operation. *)
Definition operation_receipt (receipt : val) (op tx : string) (args : val) : result error (string * string) :=
  entryPoint ← canonicalAddress receipt#"entryPoint" "UserOperation receipt EntryPoint";
  sender ← canonicalAddress receipt#"sender" "UserOperation receipt sender";
  nonce ← rpcUnsigned receipt#"nonce" "UserOperation receipt nonce";
  hash ← canonicalHash receipt#"userOpHash" "UserOperation receipt hash";
  receiptTx ← canonicalHash receipt#"receipt"#"transactionHash" "receipt transactionHash";
  if negb (bool_decide (entryPoint = handle_entryPoint h))
     || negb (bool_decide (sender = handle_sender h))
     || negb (bool_decide (nonce = handle_nonce_text h))
     || negb (bool_decide (hash = op))
     || negb (bool_decide (receiptTx = tx))
  then mismatch "UserOperation receipt disagrees with canonical handle"
  else
    eventNonce ← rpcUnsigned args#"nonce" "EntryPoint event nonce";
    if bool_decide (eventNonce = nonce) then Ok (sender, receiptTx)
    else mismatch "EntryPoint UserOperation outcome is not successful".

Definition succeeded (args receipt : val) : bool :=
  strict_eq args#"success" (Bool true) && strict_eq receipt#"success" (Bool true)
  && strict_eq receipt#"receipt"#"status" (Str "success").

(** The receipt as it is proved: its hashes and its sender in normal form. *)
Definition normal_receipt (receipt : val) (op sender tx : string) : val :=
  with_props receipt [("userOpHash", Str op); ("sender", Str sender);
    ("receipt", with_props receipt#"receipt" [("transactionHash", Str tx); ("status", Str "success")])].

End Found.

(** ** [readBaseDepositEvidence] *)
Definition failed_read (a : allocation) (op tx : string) : entry :=
  entry_of a owner_action_required (Some "base-deposit-failed-kernel-custody") None exec_failed
    in_base_kernel (Some op) (Some tx) None.
Definition fulfilled_read (a : allocation) (op : string) (p : proof) : entry :=
  entry_of a fulfilled None None exec_deposited in_base_proxy (Some op) (Some (proof_tx p))
    (Some (event p)).

(** Exactly one operation was found. *)
Definition read_operation (c : clients) (a : allocation) (h : reconcile_handle) (router : string)
    (toBlock : Z) (e : val * val) : result error entry :=
  found ← discovered h toBlock e;
  let '(op, logTx) := found in
  full ← read (getUserOperation c op) "Base reconciliation UserOperation read is unavailable";
  if negb (truthy full) then Ok (reconcilePending "reconcile_userop_pending" a (Some op))
  else
    fullTx ← full_operation h toBlock full logTx;
    receipt ← read (getUserOperationReceipt c op)
                "Base reconciliation UserOperation receipt is unavailable";
    if negb (truthy receipt) then Ok (reconcilePending "reconcile_receipt_pending" a (Some op))
    else
      found ← operation_receipt h receipt op fullTx e.2;
      let '(sender, receiptTx) := found in
      if negb (succeeded e.2 receipt) then Ok (failed_read a op receiptTx)
      else
        p ← proveDepositReceipt (normal_receipt receipt op sender fullTx) a router op;
        Ok (fulfilled_read a op p).

Definition to_block (h : reconcile_handle) (latest maxBlocks : Z) : Z :=
  Z.min latest (fromBlock h + maxBlocks).

Definition read_window (c : clients) (a : allocation) (h : reconcile_handle)
    (userOpHash : option string) (router : string) (maxBlocks : Z) : result error entry :=
  let unread {A} := @reconcileReadError A "Base reconciliation block read is unavailable" in
  latest ← match getBlockNumber c with
           | Returned v => match to_BigInt v with Some z => Ok z | None => unread end
           | Rejected _ => unread
           end;
  if (latest <? fromBlock h)%Z
  then Ok (reconcilePending "reconcile_start_block_pending" a userOpHash)
  else
    let toBlock := to_block h latest maxBlocks in
    logs ← read (getLogs c (fromBlock h) toBlock)
             "Base reconciliation EntryPoint log read is unavailable";
    match logs with
    | Arr logs =>
        decoded ← map_throw decodeUserOperationEvent
                    (filter (fun l => is_operation_log (handle_entryPoint h) l = true) logs);
        match filter (fun e => is_operation (handle_sender h) (handle_nonce_text h) userOpHash e = true)
                decoded with
        | [] =>
            Ok (reconcilePending
                  (if (toBlock <? latest)%Z then "reconcile_window_exhausted"
                   else "reconcile_userop_pending") a userOpHash)
        | [e] => read_operation c a h router toBlock e
        | _ =>
            Throw (BaseDepositReconciliationError "BASE_DEPOSIT_RECONCILE_AMBIGUOUS"
                     "exactly one matching EntryPoint UserOperation is required")
        end
    | _ => mismatch "EntryPoint log result is malformed"
    end.

(** [None] for the clients: one of the four reads is missing. *)
Definition readBaseDepositEvidence (c : option clients) (allocationInput handleInput userOpHashInput
    yieldRouterAddress maxBlocks : val) : result error entry :=
  a ← normalizeAllocation allocationInput;
  handle ← from_index (normalizeReconcileHandle handleInput (Str (caller a)));
  userOpHash ← optional userOpHashInput (fun v => canonicalHash v "userOpHash");
  router ← canonicalAddress yieldRouterAddress "YieldRouter address";
  match c with
  | None => validation "read-only Base reconciliation clients are unavailable"
  | Some c =>
      match match maxBlocks with
            | Undefined => Some DEFAULT_RECONCILE_MAX_BLOCKS
            | Number (Num z) => if isSafeInteger (Num z) && (0 <=? z)%Z then Some z else None
            | _ => None
            end with
      | None => validation "reconciliation maxBlocks must be a non-negative safe integer"
      | Some maxBlocks =>
          h ← handle_fields handle;
          read_window c a h userOpHash router maxBlocks
      end
  end.

(** ** [reconcileBaseDeposit] *)
Record request := {
  r_allocation : val;
  r_reconcileHandle : val;
  r_userOpHash : val;
  r_maxBlocks : val;
  r_clients : option clients;
  r_onCheckpoint : bool }.

Context (cfg : config) (reconcileMaxBlocks : val).

(** [v ?? null] of a text or a value *)
Definition or_null (v : option val) (d : val) : val :=
  coalesce (default Null v) (coalesce d Null).

Definition retryable (e : error) : bool :=
  match e with
  | BaseDepositReconciliationError code _ => bool_decide (code = "BASE_DEPOSIT_RECONCILE_RETRYABLE")
  | _ => false
  end.

(** [result.userOpHash ?? request.userOpHash ?? null] for the hash of a pending entry *)
Definition pending_entry (a : allocation) (userOpHash : val) : entry := {|
  of_identity := Some (identity a); of_allocation := Str (Outbox.allocationId (identity a));
  of_pool := Str (pool a); status := held; reasonCode := Some "reconcile_read_pending";
  reason := None; executionStatus := exec_confirming; custody_ := in_agent;
  entry_userOpHash := if nullish userOpHash then None else Some userOpHash;
  entry_txHash := None; entry_event := None |}.

Definition reconcileBaseDeposit (r : request) : prog (entry * val) :=
  _ ← requireBaseExecution cfg;
  a ← lift (normalizeAllocation (r_allocation r));
  handle ← lift (from_index (normalizeReconcileHandle
             (coalesce (r_reconcileHandle r) (get (given a) "reconcileHandle")) (Str (caller a))));
  if negb (r_onCheckpoint r)
  then Fail (Error "Base reconciliation requires a durable checkpoint callback")
  else
    match (router ← canonicalAddress (yieldRouterAddress cfg) "YieldRouter address";
           readBaseDepositEvidence (r_clients r) (allocation_val a) handle
             (coalesce (r_userOpHash r) Null) (Str router)
             (coalesce (r_maxBlocks r) reconcileMaxBlocks)) with
    | Throw why =>
        if retryable why then Ret (pending_entry a (r_userOpHash r), handle) else Fail why
    | Ok result =>
        router ← lift (canonicalAddress (yieldRouterAddress cfg) "YieldRouter address");
        match status result with
        | fulfilled =>
            op ← lift (canonicalHash (default Undefined (entry_userOpHash result)) "reconciled userOpHash");
            tx ← lift (canonicalHash (default Undefined (entry_txHash result)) "reconciled transactionHash");
            e ← lift_option (entry_event result);
            _ ← checkpoint a None confirmed
                  (plainEvidence cfg a router ++ [("shares", Str (decimal (shares e))); ("reconcileHandle", handle);
                     ("userOpHash", Str op); ("transactionHash", Str tx); ("event", event_val e)]);
            Ret (result, handle)
        | owner_action_required =>
            _ ← checkpoint a None failed
                  (plainEvidence cfg a router
                   ++ [("userOpHash", or_null (entry_userOpHash result) (r_userOpHash r));
                       ("transactionHash", or_null (entry_txHash result) Null)]
                   ++ because (default "base-deposit-failed-kernel-custody" (reasonCode result))
                   ++ custodyEvidence ++ [("reconcileHandle", handle)]);
            Ret (result, handle)
        | _ => Ret (result, handle)
        end
    end.

(** ** [reconcileSubmittedDeposit] *)

(** The rows from before the handle: only the hash is known. *)
Definition reconcile_by_hash (onCheckpoint : bool) (allocationInput userOpHashInput : val) : prog entry :=
  if negb onCheckpoint
  then Fail (Error "submitted deposit reconciliation requires a durable checkpoint callback")
  else
    a ← lift (normalizeAllocation allocationInput);
    op ← lift (sent_hash userOpHashInput ("submitted deposit into " +:+ pool a));
    kernelClient ← ask Reconstruct;
    kernel ← lift (canonicalAddress kernelClient#"account"#"address" "reconstructed Kernel address");
    if negb (bool_decide (kernel = caller a))
    then Fail (Error "reconstructed Kernel address disagrees with immutable caller")
    else
      router ← lift (canonicalAddress (yieldRouterAddress cfg) "YieldRouter address");
      r ← attempt (ask (WaitForReceipt (Str op)));
      match r with
      | inr why =>
          Ret (entry_of a held (Some "submitted_receipt_pending") (Some why) exec_confirming in_agent
                 (Some op) None None)
      | inl receipt =>
          p ← lift (proveDepositReceipt receipt a router op);
          _ ← checkpoint a None confirmed
                (plainEvidence cfg a router ++ [("shares", Str (decimal (shares (event p)))); ("userOpHash", Str op);
                   ("transactionHash", Str (proof_tx p)); ("event", event_val (event p))]);
          Ret (fulfilled_read a op p)
      end.

Definition reconcileSubmittedDeposit (r : request) : prog (entry * val) :=
  _ ← requireBaseExecution cfg;
  let handle := coalesce (r_reconcileHandle r) (get (r_allocation r) "reconcileHandle") in
  if truthy handle
  then reconcileBaseDeposit {|
         r_allocation := r_allocation r; r_reconcileHandle := handle; r_userOpHash := r_userOpHash r;
         r_maxBlocks := Undefined; r_clients := r_clients r; r_onCheckpoint := r_onCheckpoint r |}
  else
    e ← reconcile_by_hash (r_onCheckpoint r) (r_allocation r) (r_userOpHash r);
    Ret (e, Undefined).

End Read.
End Read.
