(* ===== verification/DepositRecovery.v ===== *)
(** * What a reconciliation finds and writes

    The reading of [DepositRead] settles a deposit only with the one operation of its handle,
    and what the reconciliation writes is what the store of the relayer accepts; it never
    encodes or sends. *)
From S2P Require Export DepositRead.

Module Recovery.
Export Read.

(** ** Normal forms are their own *)
Lemma lower_hex_fixed c : is_lower_hex c = true -> lower c = c.
Proof. destruct c as [[] [] [] [] [] [] [] []]; intros H; first [discriminate H|reflexivity]. Qed.

Lemma is_0x_hex_lower n l : is_0x_hex n l = true -> toLowerCase l = l.
Proof.
  destruct l as [|x [|y l]]; try done. cbn [is_0x_hex]. intros [[Hx Hy]%andb_true_iff H]%andb_true_iff.
  apply Ascii.eqb_eq in Hx as ->. apply Ascii.eqb_eq in Hy as ->. unfold is_hex in H.
  apply andb_true_iff in H as [_ H]. apply forallb_Forall in H. cbn. do 2 f_equal.
  induction H as [|c l Hc _ IH]; [done|]. cbn. by rewrite lower_hex_fixed, IH.
Qed.

Lemma lower_text_fixed n s : is_0x_hex n (chars_of s) = true -> lower_text (Str s) = s.
Proof. intros H. cbn. unfold lower_case. rewrite (is_0x_hex_lower n) by done. apply string_of_chars_of. Qed.

Lemma canonicalAddress_fixed s label : address_like s -> canonicalAddress (Str s) label = Ok s.
Proof.
  intros H. unfold canonicalAddress. rewrite (lower_text_fixed 40) by done.
  unfold address_like in H. change LOWER_ADDRESS_RE with ADDRESS_RE in H. by rewrite H.
Qed.

Lemma canonicalHash_fixed s label : hash_like s -> canonicalHash (Str s) label = Ok s.
Proof.
  intros H. unfold canonicalHash. rewrite (lower_text_fixed 64) by done.
  unfold hash_like in H. change LOWER_EVM_HASH_RE with HASH_RE in H. by rewrite H.
Qed.

Lemma canonicalHash_like v label s : canonicalHash v label = Ok s -> hash_like s.
Proof. unfold canonicalHash. destruct (HASH_RE _) eqn:E; [|done]. by intros [= <-]. Qed.

Lemma get_with_props fs k v props k' :
  get (with_props (Obj fs) ((k, v) :: props)) k' = get (with_props (Obj (set_property fs k v)) props) k'.
Proof. done. Qed.

Lemma identity_again v i : identity_of v = Ok i -> identity_of (Outbox.identity_val i) = Ok i.
Proof.
  assert (forall w l t, requireText w l = Ok t -> requireText (Str t) l = Ok t) as Htext.
  { intros w l t. unfold requireText. destruct w; try done. case_decide; [done|].
    intros [= <-]. by rewrite decide_False. }
  unfold identity_of. intros H.
  apply bind_Ok in H as (n & Hn & H). apply bind_Ok in H as (b & Hb & H).
  apply bind_Ok in H as (x & Hx & H). apply bind_Ok in H as (l & Hl & H).
  apply bind_Ok in H as (c & Hc & [= <-]).
  set (i := {| Outbox.networkId := n |}).
  change (get (Outbox.identity_val i) "networkId"%string) with (Str n).
  change (get (Outbox.identity_val i) "bindingId"%string) with (Str b).
  change (get (Outbox.identity_val i) "executionId"%string) with (Str x).
  change (get (Outbox.identity_val i) "allocationId"%string) with (Str l).
  change (get (Outbox.identity_val i) "childId"%string) with (Str c).
  rewrite (Htext _ _ _ Hn), (Htext _ _ _ Hb), (Htext _ _ _ Hx), (Htext _ _ _ Hl), (Htext _ _ _ Hc). done.
Qed.

(** The allocation as an object has the normal form it came from. *)
Lemma normalize_again input a :
  normalizeAllocation input = Ok a ->
  normalizeAllocation (allocation_val a)
  = Ok {| given := allocation_val a; identity := identity a; caller := caller a; pool := pool a;
          amount := amount a; minShares := minShares a |}.
Proof.
  intros H. pose proof (normalize_inv _ _ H) as (Hc & Hp & _ & _).
  unfold normalizeAllocation in H. destruct (negb (is_object input)) eqn:Ho; [done|].
  apply bind_Ok in H as ([] & _ & H). apply bind_Ok in H as (i & Hi & H).
  destruct (negb (execution_matches i)) eqn:He; [done|].
  destruct (positive_bigint input#"amount") as [z|] eqn:Hz; [|done].
  destruct (nonnegative_bigint input#"minShares") as [m|] eqn:Hm; [|done].
  apply bind_Ok in H as (c & Hc' & H). apply bind_Ok in H as (p & Hp' & [= <-]).
  destruct input as [| | | | | | | |fs]; try done. cbn [caller pool] in Hc, Hp.
  set (a := {| given := _ |}).
  assert (forall k, get (allocation_val a) k =
    if decide (k = "pool"%string) then Str p else if decide (k = "caller"%string) then Str c
    else if decide (k = "identity"%string) then Outbox.identity_val i else get (Obj fs) k) as Hget.
  { intros k. unfold allocation_val, with_props. cbn [foldl given a fst snd].
    rewrite !get_set_property. done. }
  unfold normalizeAllocation. change (negb (is_object (allocation_val a))) with false.
  rewrite (Hget "identity"%string : _ = Outbox.identity_val i), (Hget "amount"%string : _ = get (Obj fs) "amount"),
    (Hget "minShares"%string : _ = get (Obj fs) "minShares"), (Hget "caller"%string : _ = Str c),
    (Hget "pool"%string : _ = Str p).
  change (exactObject (Outbox.identity_val i) Outbox.IDENTITY_FIELDS "allocation identity")
    with (Ok tt : result error unit). cbn [mbind result_bind].
  rewrite (identity_again _ _ Hi). cbn [mbind result_bind]. rewrite He, Hz, Hm.
  rewrite canonicalAddress_fixed by done. cbn [mbind result_bind].
  by rewrite canonicalAddress_fixed.
Qed.

(** ** What a read finds *)
Section Found.
Context (decodeEventLog : val -> val -> option val).

(** The operation of a handle in a window: exactly one decoded log of the entry point has its
    sender, its nonce and the hash that is known, and the operation and its receipt, as the
    bundler gives them, agree with it and lie in the window. *)
Record operation_of (c : clients) (h : reconcile_handle) (known : option string) (toBlock : Z)
    (op tx : string) (receipt args : val) : Prop := {
  op_log : exists logs decoded log,
    getLogs c (fromBlock h) toBlock = Returned (Arr logs)
    /\ map_throw (decodeUserOperationEvent decodeEventLog)
         (filter (fun l => is_operation_log (handle_entryPoint h) l = true) logs) = Ok decoded
    /\ filter (fun e => is_operation (handle_sender h) (handle_nonce_text h) known e = true) decoded
       = [(log, args)];
  op_sender : lower_text args#"sender" = handle_sender h;
  op_nonce : rpcUnsigned args#"nonce" "EntryPoint nonce" = Ok (handle_nonce_text h);
  op_hash : lower_text args#"userOpHash" = op;
  op_known : match known with Some k => k = op | None => True end;
  op_full : exists full text block,
    getUserOperation c op = Returned full
    /\ lower_text full#"entryPoint" = handle_entryPoint h
    /\ lower_text full#"userOperation"#"sender" = handle_sender h
    /\ rpcUnsigned full#"userOperation"#"nonce" "full UserOperation nonce" = Ok (handle_nonce_text h)
    /\ lower_text full#"transactionHash" = tx
    /\ rpcUnsigned full#"blockNumber" "full UserOperation block number" = Ok text
    /\ to_BigInt (Str text) = Some block /\ fromBlock h <= block <= toBlock;
  op_receipt :
    getUserOperationReceipt c op = Returned receipt
    /\ lower_text receipt#"entryPoint" = handle_entryPoint h
    /\ lower_text receipt#"sender" = handle_sender h
    /\ rpcUnsigned receipt#"nonce" "UserOperation receipt nonce" = Ok (handle_nonce_text h)
    /\ lower_text receipt#"userOpHash" = op
    /\ lower_text receipt#"receipt"#"transactionHash" = tx }.

Lemma canonicalAddress_inv v label s : canonicalAddress v label = Ok s -> lower_text v = s.
Proof. unfold canonicalAddress. destruct (ADDRESS_RE _); [|done]. by intros [= <-]. Qed.
Lemma canonicalHash_inv v label s : canonicalHash v label = Ok s -> lower_text v = s.
Proof. unfold canonicalHash. destruct (HASH_RE _); [|done]. by intros [= <-]. Qed.
Lemma read_inv r message v : read r message = Ok v -> r = Returned v.
Proof. destruct r; [by intros [= ->]|done]. Qed.

Ltac decided :=
  repeat match goal with
  | H : negb (bool_decide _) = false |- _ => apply negb_false_iff, bool_decide_eq_true in H
  | H : bool_decide _ = true |- _ => apply bool_decide_eq_true in H
  end.

Lemma full_operation_inv h toBlock full logTx tx :
  full_operation h toBlock full logTx = Ok tx ->
  exists text block,
    lower_text full#"entryPoint" = handle_entryPoint h
    /\ lower_text full#"userOperation"#"sender" = handle_sender h
    /\ rpcUnsigned full#"userOperation"#"nonce" "full UserOperation nonce" = Ok (handle_nonce_text h)
    /\ lower_text full#"transactionHash" = tx
    /\ rpcUnsigned full#"blockNumber" "full UserOperation block number" = Ok text
    /\ to_BigInt (Str text) = Some block /\ fromBlock h <= block <= toBlock.
Proof.
  unfold full_operation. intros H. destruct (negb (is_object _)); [done|].
  apply bind_Ok in H as (e & He%canonicalAddress_inv & H).
  apply bind_Ok in H as (s & Hs%canonicalAddress_inv & H). apply bind_Ok in H as (n & Hn & H).
  apply bind_Ok in H as (text & Ht & H). apply bind_Ok in H as (t & Htx%canonicalHash_inv & H).
  apply bind_Ok in H as (inside & Hin & H).
  match type of H with (if ?b then _ else _) = _ => destruct b eqn:Hb end; [done|]. injection H as ->.
  repeat (apply orb_false_iff in Hb as [Hb ?]). decided.
  unfold in_window in Hin. apply bind_Ok in Hin as (block & Hblock & [= Hin]).
  unfold number_of in Hblock. destruct (to_BigInt (Str text)) as [z|] eqn:Hz; [|done]. injection Hblock as ->.
  match goal with H : negb inside = false |- _ => apply negb_false_iff in H; rewrite H in Hin end.
  symmetry in Hin. zbool. exists text, block. subst. split_and!; try done; lia.
Qed.

Lemma operation_receipt_inv h receipt op tx args sender receiptTx :
  operation_receipt h receipt op tx args = Ok (sender, receiptTx) ->
  receiptTx = tx
  /\ lower_text receipt#"entryPoint" = handle_entryPoint h
  /\ lower_text receipt#"sender" = handle_sender h
  /\ rpcUnsigned receipt#"nonce" "UserOperation receipt nonce" = Ok (handle_nonce_text h)
  /\ lower_text receipt#"userOpHash" = op
  /\ lower_text receipt#"receipt"#"transactionHash" = tx.
Proof.
  unfold operation_receipt. intros H.
  apply bind_Ok in H as (e & He%canonicalAddress_inv & H).
  apply bind_Ok in H as (s & Hs%canonicalAddress_inv & H). apply bind_Ok in H as (n & Hn & H).
  apply bind_Ok in H as (o & Ho%canonicalHash_inv & H). apply bind_Ok in H as (t & Ht%canonicalHash_inv & H).
  match type of H with (if ?b then _ else _) = _ => destruct b eqn:Hb end; [done|].
  repeat (apply orb_false_iff in Hb as [Hb ?]). decided.
  apply bind_Ok in H as (m & Hm & H). destruct (bool_decide (m = n)); [|done].
  injection H as -> ->. subst. by split_and!.
Qed.

(** The three outcomes of a read; [held] claims none. *)
Definition read_says (c : clients) (a : allocation) (h : reconcile_handle) (known : option string)
    (router : string) (maxBlocks : Z) (e : entry) : Prop :=
  match status e with
  | held => executionStatus e = exec_confirming /\ custody_ e = in_agent
  | uncertain | rejected => False
  | _ =>
      exists latest op tx receipt args,
        (exists v, getBlockNumber c = Returned v /\ to_BigInt v = Some latest) /\ fromBlock h <= latest
        /\ operation_of c h known (Z.min latest (fromBlock h + maxBlocks)) op tx receipt args
        /\ hash_like op /\ hash_like tx
        /\ if succeeded args receipt
           then exists p, e = fulfilled_read a op p /\ event_proves a router (event p) /\ proof_tx p = tx
                          /\ unsigned_like (logIndex (event p))
           else e = failed_read a op tx
  end.

Lemma proof_tx_normal receipt a router op sender tx p :
  proveDepositReceipt (normal_receipt receipt op sender tx) a router op = Ok p ->
  hash_like tx -> proof_tx p = tx.
Proof.
  intros (_ & _ & _ & _ & _ & Ht & _)%prove_receipt_inv Hh. unfold tx_candidate in Ht.
  assert (get (get (normal_receipt receipt op sender tx) "receipt") "transactionHash" = Str tx) as Hget.
  { unfold normal_receipt. set (inner := with_props receipt#"receipt" _).
    assert (get inner "transactionHash" = Str tx) as <-.
    { unfold inner, with_props. cbn [foldl fst snd]. by rewrite !get_set_property. }
    f_equal. unfold with_props. cbn [foldl fst snd]. by rewrite get_set_property. }
  rewrite Hget in Ht. change (lower_case (chars_of tx)) with (lower_text (Str tx)) in Ht.
  rewrite (lower_text_fixed 64) in Ht by done.
  destruct (HASH_RE _); [congruence|done].
Qed.

Lemma read_operation_says c a h known router latest maxBlocks v logs decoded e r :
  getBlockNumber c = Returned v -> to_BigInt v = Some latest -> fromBlock h <= latest ->
  getLogs c (fromBlock h) (to_block h latest maxBlocks) = Returned (Arr logs) ->
  map_throw (decodeUserOperationEvent decodeEventLog)
    (filter (fun l => is_operation_log (handle_entryPoint h) l = true) logs) = Ok decoded ->
  filter (fun e => is_operation (handle_sender h) (handle_nonce_text h) known e = true) decoded = [e] ->
  read_operation c a h router (to_block h latest maxBlocks) e = Ok r ->
  read_says c a h known router maxBlocks r.
Proof.
  intros Hv Hlatest Hle Hlogs Hdec Hfilter H. destruct e as [log args].
  assert (is_operation (handle_sender h) (handle_nonce_text h) known (log, args) = true) as Hop.
  { apply (list_elem_of_filter (fun e => is_operation (handle_sender h) (handle_nonce_text h) known e = true)
      decoded (log, args)). rewrite Hfilter. apply list_elem_of_here. }
  unfold is_operation in Hop. apply andb_true_iff in Hop as [[Hs Hn]%andb_true_iff Hk]. cbn [snd] in *.
  destruct (rpcUnsigned args#"nonce" "EntryPoint nonce") as [n|] eqn:En; [|done]. decided. subst n.
  unfold read_operation in H. apply bind_Ok in H as ([op logTx] & Hd & H).
  unfold discovered in Hd. apply bind_Ok in Hd as (op' & Hh & Hd). apply bind_Ok in Hd as (? & _ & Hd).
  apply bind_Ok in Hd as (? & _ & Hd). apply bind_Ok in Hd as (inside & _ & Hd).
  destruct inside; [|done]. injection Hd as -> ->.
  pose proof (canonicalHash_like _ _ _ Hh) as Hoplike. apply canonicalHash_inv in Hh. cbn [snd] in Hh.
  apply bind_Ok in H as (full & Hfull%read_inv & H). destruct (negb (truthy full)); [by injection H as <-|].
  apply bind_Ok in H as (tx & Htx & H). apply bind_Ok in H as (receipt & Hr%read_inv & H).
  destruct (negb (truthy receipt)); [by injection H as <-|].
  apply bind_Ok in H as ([sender receiptTx] & Hrec & H).
  assert (hash_like tx) as Hlike.
  { unfold full_operation in Htx. destruct (negb (is_object _)); [done|].
    do 4 (apply bind_Ok in Htx as (? & _ & Htx)). apply bind_Ok in Htx as (t & Ht%canonicalHash_like & Htx).
    apply bind_Ok in Htx as (? & _ & Htx). destruct (_ || _); [done|]. by injection Htx as ->. }
  apply full_operation_inv in Htx as (text & block & Hfe).
  apply operation_receipt_inv in Hrec as (-> & Hre). cbn [snd] in H.
  assert (operation_of c h known (to_block h latest maxBlocks) op tx receipt args) as Hof.
  { split; try done.
    - by exists logs, decoded, log.
    - destruct known as [k|]; [|done]. decided. congruence.
    - by exists full, text, block. }
  destruct (succeeded args receipt) eqn:Hsucc; cbn [negb] in H.
  - apply bind_Ok in H as (p & Hp & [= <-]). cbn. exists latest, op, tx, receipt, args.
    split_and!; [by exists v|done..|]. rewrite Hsucc. exists p.
    pose proof (prove_canonical _ _ _ _ _ Hp) as (? & ? & _).
    split_and!; [done|done|by eapply proof_tx_normal|done].
  - injection H as <-. cbn. exists latest, op, tx, receipt, args.
    split_and!; [by exists v|done..|]. by rewrite Hsucc.
Qed.

Lemma read_window_says c a h known router maxBlocks e :
  read_window decodeEventLog c a h known router maxBlocks = Ok e -> read_says c a h known router maxBlocks e.
Proof.
  unfold read_window. intros H. apply bind_Ok in H as (latest & Hl & H).
  destruct (getBlockNumber c) as [v|] eqn:Hv; [|done].
  destruct (to_BigInt v) as [z|] eqn:Hz; [|done]. injection Hl as ->.
  destruct (latest <? fromBlock h)%Z eqn:Hlt; [by injection H as <-|]. zbool.
  apply bind_Ok in H as (logs & Hlogs%read_inv & H). destruct logs as [| | | | | | |logs|]; try done.
  apply bind_Ok in H as (decoded & Hd & H).
  destruct (filter (fun e => is_operation _ _ _ e = true) decoded) as [|e0 [|]] eqn:Hf; [|by eapply read_operation_says|done].
  injection H as <-. by destruct (_ <? _)%Z.
Qed.
End Found.

Lemma handle_fields_inv v sender handle h :
  normalizeReconcileHandle v (Str sender) = Ok handle -> handle_fields handle = Ok h ->
  handle_entryPoint h = PINNED_ENTRY_POINT /\ handle_sender h = sender.
Proof.
  unfold normalizeReconcileHandle. intros H Hf.
  destruct (negb (is_object v)); [done|]. destruct (negb (_ && _)) in H; [done|].
  apply bind_Ok in H as (e & _ & H). destruct (negb (bool_decide (e = _))) eqn:Hpin; [done|].
  apply bind_Ok in H as (hs & _ & H). destruct (bool_decide (hs = ZERO_ADDRESS)); [done|].
  apply bind_Ok in H as ([] & Hexp & H). apply bind_Ok in H as (n & _ & H).
  apply bind_Ok in H as (b & _ & [= <-]).
  apply negb_false_iff, bool_decide_eq_true in Hpin as ->.
  apply bind_Ok in Hexp as (s & Hs & Hexp). destruct (bool_decide (s = hs)) eqn:E; [|done].
  apply bool_decide_eq_true in E as ->. unfold canonicalHandleAddress in Hs.
  destruct (LOWER_ADDRESS_RE _); [|done]. injection Hs as ->.
  unfold handle_fields in Hf.
  apply bind_Ok in Hf as (z & _ & [= <-]). done.
Qed.

Section Theorems.
Context (decodeEventLog : val -> val -> option val).

Lemma read_evidence_says c alloc handle op router_ max_ e :
  readBaseDepositEvidence decodeEventLog c alloc handle op router_ max_ = Ok e ->
  exists reads a h known router maxBlocks,
    c = Some reads /\ normalizeAllocation alloc = Ok a
    /\ canonicalAddress router_ "YieldRouter address" = Ok router
    /\ handle_entryPoint h = PINNED_ENTRY_POINT /\ handle_sender h = caller a
    /\ (if nullish op then known = None else known = Some (lower_text op))
    /\ 0 <= maxBlocks /\ (max_ = Undefined -> maxBlocks = DEFAULT_RECONCILE_MAX_BLOCKS)
    /\ read_says decodeEventLog reads a h known router maxBlocks e.
Proof.
  unfold readBaseDepositEvidence. intros H. apply bind_Ok in H as (a & Ha & H).
  apply bind_Ok in H as (hd & Hhd%from_index_Ok & H). apply bind_Ok in H as (known & Hk & H).
  apply bind_Ok in H as (router & Hr & H). destruct c as [reads|]; [|done].
  match type of H with match ?x with _ => _ end = _ => destruct x as [max|] eqn:Hmax end; [|done].
  apply bind_Ok in H as (h & Hh & H). apply read_window_says in H.
  destruct (handle_fields_inv _ _ _ _ Hhd Hh) as [He Hs].
  exists reads, a, h, known, router, max. split_and!; try done.
  - unfold optional in Hk. destruct (nullish op); [congruence|].
    apply bind_Ok in Hk as (t & Ht%canonicalHash_inv & [= <-]). by rewrite Ht.
  - destruct max_ as [| | |[z| | |]| | | | |]; try done; [by injection Hmax as <-|].
    destruct (isSafeInteger (Num z)); [|done]. cbn in Hmax.
    destruct (0 <=? z)%Z eqn:?; [|done]. injection Hmax as <-. by zbool.
  - intros ->. by injection Hmax as <-.
Qed.


(** ** What a reconciliation calls *)
Context (cfg : config) (reconcileMaxBlocks : val).

(** A checkpoint of a reconciliation: it settles the deposit, with evidence of this deposit
    that the store takes. *)
Definition settling (c : call) : Prop :=
  match c with
  | Clock => True
  | Checkpoint a s ev _ o =>
      o = None /\ acceptable cfg a s ev
      /\ match s with
         | confirmed => proves a ev = true
         | failed => ev#"custodyLocation" = Str "base-kernel"
         | _ => False
         end
  | _ => False
  end.
Definition observing (c : call) : Prop :=
  match c with Reconstruct | WaitForReceipt _ => True | _ => settling c end.

Lemma settling_observing c : settling c -> observing c.
Proof. destruct c; intros H; first [exact H|exact I]. Qed.

Definition only (P : call -> Prop) (_ : unit) (c : call) (_ : option answer) (_ : unit) : Prop := P c.

Lemma only_ask (P : call -> Prop) {A} m c (k : answer -> prog A) (Q : unit -> A -> Prop) :
  P c -> (forall r m', obeys (only P) m' (k r) Q) -> obeys (only P) m (Ask c k) Q.
Proof. intros Hc Hk. apply (follows_ask _ _ tt); [done|auto]. Qed.

Lemma only_checkpoint (P : call -> Prop) {A} m a s ev (k : val -> prog A) :
  (forall c, settling c -> P c) -> acceptable cfg a s (Obj ev) ->
  match s with
  | confirmed => proves a (Obj ev) = true
  | failed => get (Obj ev) "custodyLocation" = Str "base-kernel"
  | _ => False
  end ->
  (forall v m', obeys (only P) m' (k v) (fun _ _ => True)) ->
  obeys (only P) m (v ← checkpoint a None s ev; k v) (fun _ _ => True).
Proof.
  intros HP Ha Hs Hk. apply (only_ask P); [by apply HP|]. intros [t|e] m'; [|done].
  apply (only_ask P); [by apply HP|]. intros [v|e] m''; [apply Hk|done].
Qed.

Lemma only_events (P : call -> Prop) {A} (p : prog A) answers :
  obeys (only P) tt p (fun _ _ => True) -> Forall (fun x => P x.1) (events (run p answers)).
Proof.
  intros H. destruct (follows_run (only P) tt p _ answers H) as (m & Hm & _).
  clear H. by induction Hm; constructor.
Qed.

Lemma base_settles (P : call -> Prop) m r :
  (forall c, settling c -> P c) ->
  obeys (only P) m (reconcileBaseDeposit decodeEventLog cfg reconcileMaxBlocks r) (fun _ _ => True).
Proof.
  intros HP. unfold reconcileBaseDeposit, requireBaseExecution.
  destruct (baseCrossChainAvailable cfg); [|done]. cbn [mbind prog_bind andThen].
  apply follows_bind, follows_lift. intros a Ha.
  apply follows_bind, follows_lift. intros handle Hh%from_index_Ok.
  apply normalizeReconcileHandle_idempotent in Hh.
  destruct (negb (r_onCheckpoint r)); [done|].
  destruct (canonicalAddress (yieldRouterAddress cfg) "YieldRouter address") as [router|why] eqn:Hr;
    cbn [mbind result_bind]; [|by destruct (retryable why)].
  destruct (readBaseDepositEvidence _ _ _ _ _ _ _) as [result|why] eqn:Hread; [|by destruct (retryable why)].
  apply read_evidence_says in Hread as (reads & a' & h & known & router' & max & _ & Ha' & Hr' & _ & _ & _ & _ & _ & Hsays).
  rewrite (normalize_again _ _ Ha) in Ha'. injection Ha' as <-.
  rewrite (canonicalAddress_fixed _ _ (canonicalAddress_like _ _ _ Hr)) in Hr'. injection Hr' as <-.
  apply normalize_inv in Ha as (Hc & Hp & Hamount & Hmin).
  assert (chain_known cfg -> well_formed cfg a router handle) as Hwf.
  { intros Hchain. split; [|by exists handle]. split; try done. by eapply canonicalAddress_like. }
  cbn [lift]. cbn [mbind prog_bind andThen]. unfold read_says in Hsays.
  destruct (status result) eqn:Hst; try done.
  - destruct Hsays as (latest & op & tx & receipt & args & _ & _ & _ & Hop & Htx & Hsays).
    destruct (succeeded args receipt); [|by subst].
    destruct Hsays as (p & -> & Hevent & Hptx & Hi).
    apply follows_bind, follows_lift. intros op' Hop'%canonicalHash_like.
    apply follows_bind, follows_lift. intros tx' Htx'%canonicalHash_like. cbn [entry_event fulfilled_read].
    set (p' := {| proof_tx := tx'; event := event p |}).
    apply (only_checkpoint P); [done| | |done].
    + split; [done|]. intros Hchain. by apply (reconciled_accepted cfg a router handle op' p' Hop' Htx' Hevent Hi), Hwf.
    + by apply (event_val_proves a router (event p)).
  - destruct Hsays as (latest & op & tx & receipt & args & _ & _ & _ & Hop & Htx & Hsays).
    destruct (succeeded args receipt); [by destruct Hsays as (p & -> & _)|]. subst result.
    apply (only_checkpoint P); [done| |done|done].
    split; [done|]. intros Hchain%Hwf.
    by apply (reconciled_failed_accepted cfg a router handle Hchain (Some op) (Some tx)).
Qed.

Lemma by_hash_observes m b alloc op_ :
  obeys (only observing) m (reconcile_by_hash cfg b alloc op_) (fun _ _ => True).
Proof.
  pose proof settling_observing as HP.
  unfold reconcile_by_hash. destruct (negb b); [done|].
  apply follows_bind, follows_lift. intros a (Hc & Hp & Hamount & Hmin)%normalize_inv.
  apply follows_bind, follows_lift. intros op Hop%sent_hash_like.
  apply follows_bind, (only_ask observing); [done|]. intros [kernel|e] m'; [|done].
  apply follows_bind, follows_lift. intros k _. destruct (negb _); [done|].
  apply follows_bind, follows_lift. intros router Hr.
  apply (only_ask observing); [done|]. intros [receipt|e] m''; [|done]. cbn [attempt andThen].
  apply follows_bind, follows_lift. intros p Hpr.
  apply prove_canonical in Hpr as (Hevent & Hi & Htx).
  apply (only_checkpoint observing); [done| | |done].
  - split; [done|]. intros Hchain. apply (by_hash_accepted cfg a router op p Hop Htx Hevent Hi).
    split; try done. by eapply canonicalAddress_like.
  - by apply (event_val_proves a router (event p)).
Qed.

End Theorems.

End Recovery.
