(* ===== verification/DepositSample.v ===== *)
(** * A run of a dispatch

    Two allocations of one run: the first deposit is proved by its receipt and confirmed, the
    second is sent and its receipt does not come; a later reading finds its operation.  They
    show that the hypotheses of the theorems about deposits can hold. *)
From S2P Require Export DepositRecovery.

Module Sample.
Export Recovery.
Local Open Scope string_scope.
Local Open Scope list_scope.

Definition kernel : string := "0x1111111111111111111111111111111111111111".
Definition pool_ : string := "0x2222222222222222222222222222222222222222".
Definition router : string := "0xf80aa8f5f80aa8f5f80aa8f5f80aa8f5f80aa8f5".
Definition usdc : string := "0x036cbd53036cbd53036cbd53036cbd53036cbd53".
Definition op : string := "0x" +:+ string_of (replicate 64 "a"%char).
Definition op' : string := "0x" +:+ string_of (replicate 64 "b"%char).
Definition tx : string := "0x" +:+ string_of (replicate 64 "c"%char).

Definition cfg : config := {|
  chain_id := Number (Num 84532); yieldRouterAddress := Str router; usdcAddress := Str usdc;
  ENTRY_POINT_address := Str PINNED_ENTRY_POINT;
  encodeFunctionData := fun f args => if decide (length args = 0)%nat then None else Some (Str f);
  baseCrossChainAvailable := true; has_captureReconcileHandleFn := false;
  has_nonceReader := true; has_blockReader := true |}.
Definition opts : options := {|
  has_onCheckpoint := true; has_onClaimSubmitting := false; has_onBeforeClaimSubmitting := false;
  has_onBeforeSend := false |}.

Definition input (allocationId : string) (amount : Z) : val := Obj [
  ("identity", Obj [("networkId", Str "testnet"); ("bindingId", Str "binding");
    ("executionId", Str ("run:exec:" +:+ allocationId)); ("allocationId", Str allocationId);
    ("childId", Str "child")]);
  ("caller", Str kernel); ("pool", Str pool_); ("amount", BigInt amount); ("minShares", BigInt 1)].
Definition inputs : list val := [input "a1" 5000000; input "a2" 7000000].

Definition word (z : Z) : chars := Hex.to_hex (Hex.be_bytes 32 z).
Definition padded (address : string) : val :=
  Str (string_of (Hex.prefix ++ replicate 24 "0"%char ++ drop 2 (chars_of address))).
Definition deposited (amount shares : Z) : val := Obj [
  ("address", Str router); ("topics", Arr [Str DEPOSITED_TOPIC0; padded kernel; padded pool_]);
  ("data", Str (string_of (Hex.prefix ++ word amount ++ word shares))); ("logIndex", Number (Num 4))].
Definition receipt : val := Obj [
  ("userOpHash", Str op); ("sender", Str kernel); ("success", Bool true);
  ("receipt", Obj [("status", Str "success"); ("transactionHash", Str tx)]);
  ("logs", Arr [deposited 5000000 4990000])].

Definition written_ : answer := Returned Undefined.
Definition now_ : answer := Returned (Number (Num 1)).
Definition answers : list answer := [
  Returned (Obj [("account", Obj [("address", Str kernel)])]);
  (* the first: the handle, the fence, the send, the receipt, the confirmation *)
  Returned (BigInt 0); Returned (BigInt 100); now_; written_; Returned (Str "calls1");
  Returned (Str op); now_; written_; Returned receipt; now_; written_;
  (* the second: its receipt does not come *)
  Returned (BigInt 1); Returned (BigInt 101); now_; written_; Returned (Str "calls2");
  Returned (Str op'); now_; written_; Rejected (Str "timeout")].

Definition the_run := run (dispatchDeposits cfg opts (inl inputs)) answers.

Example run_statuses :
  match (the_run).2 with
  | Done entries => (fun e => (status e, executionStatus e)) <$> entries
  | _ => [] end = [(fulfilled, exec_deposited); (held, exec_confirming)].
Proof. vm_compute. reflexivity. Qed.

(** The log of the run. *)
Definition log : list (call * option answer) := Eval vm_compute in events the_run.
Lemma log_run : events the_run = log.
Proof. vm_compute. reflexivity. Qed.

Definition entries : list entry := Eval vm_compute in
  match (the_run).2 with Done entries => entries | _ => [] end.
Lemma entries_run : (the_run).2 = Done entries.
Proof. vm_compute. reflexivity. Qed.

(** A farm on the same contracts whose only pool may be given ten dollars. *)
Definition farm : PolicyEngine.farm := {|
  PolicyEngine.pools := Arr [Obj [("pool", Str pool_); ("cap", BigInt 10000000)]];
  PolicyEngine.yieldRouterAbi := Null; PolicyEngine.usdcAbi := Null;
  PolicyEngine.yieldRouterAddress := Str router; PolicyEngine.usdcAddress := Str usdc |}.

(** The chain and the bundler when the second deposit is looked for. *)
Definition entry_log : val := Obj [
  ("address", Str PINNED_ENTRY_POINT); ("topics", Arr [Str USER_OPERATION_EVENT_TOPIC0]);
  ("args", Obj [("userOpHash", Str op'); ("sender", Str kernel); ("nonce", BigInt 1); ("success", Bool true)]);
  ("blockNumber", BigInt 103)].
Definition operation : val := Obj [
  ("entryPoint", Str PINNED_ENTRY_POINT); ("transactionHash", Str tx); ("blockNumber", Str "0x67");
  ("userOperation", Obj [("sender", Str kernel); ("nonce", Str "0x1")])].
Definition operation_receipt_ : val := Obj [
  ("userOpHash", Str op'); ("entryPoint", Str PINNED_ENTRY_POINT); ("sender", Str kernel);
  ("nonce", Str "0x1"); ("success", Bool true);
  ("receipt", Obj [("status", Str "success"); ("transactionHash", Str tx)]);
  ("logs", Arr [deposited 7000000 6990000])].
Definition reads : clients := {|
  getBlockNumber := Returned (BigInt 150);
  getLogs := fun from to => Returned (Arr [entry_log]);
  getUserOperation := fun h => if bool_decide (h = op') then Returned operation else Returned Null;
  getUserOperationReceipt := fun h =>
    if bool_decide (h = op') then Returned operation_receipt_ else Returned Null |}.
Definition handle' : val := Obj [
  ("entryPoint", Str PINNED_ENTRY_POINT); ("sender", Str kernel); ("nonce", Str "1");
  ("startBlock", Str "101")].
Definition found : entry := Eval vm_compute in
  match readBaseDepositEvidence (fun _ _ => None) (Some reads) (input "a2" 7000000) handle' Null
          (Str router) Undefined with
  | Ok e => e
  | Throw _ => pending_entry {| given := Null; identity := {| Outbox.networkId := ""; Outbox.bindingId := "";
      Outbox.executionId := ""; Outbox.allocationId := ""; Outbox.childId := "" |}; caller := "";
      pool := ""; amount := 0; minShares := 0 |} Null
  end.
Lemma found_read :
  readBaseDepositEvidence (fun _ _ => None) (Some reads) (input "a2" 7000000) handle' Null (Str router) Undefined
  = Ok found.
Proof. vm_compute. reflexivity. Qed.
Example found_fulfilled : (status found, executionStatus found) = (fulfilled, exec_deposited).
Proof. reflexivity. Qed.

(** ** The theorems at these samples *)
Lemma sends_settled_witness :
  exists l1 a cd n r l2 b cd' n' r' l3,
    log = l1 ++ (Send (Some a) cd n, r) :: l2 ++ (Send (Some b) cd' n', r') :: l3
    /\ exists l4 c v l5 c' g l6,
      l2 = l4 ++ (c, Some (Returned v)) :: l5 ++ (c', Some g) :: l6
      /\ settled_by a c = true /\ granted c' g = true /\ asks_for b c' = true.
Proof.
  eexists (take 6 log), _, _, _, _, (take 10 (drop 7 log)), _, _, _, _, _.
  split; [reflexivity|].
  eapply (sends_settled cfg opts inputs answers (take 6 log)).
  refine (eq_trans log_run _). reflexivity.
Defined.

Lemma entries_account_witness :
  reported cfg inputs (the_run).1 entries.
Proof.
  apply (entries_account cfg opts inputs answers).
  exact entries_run.
Defined.

Lemma batches_within_policy_witness :
  exists a batch r, (EncodeCalls (Some a) batch, r) ∈ log /\
  Forall (fun c => PolicyEngine.evaluateCall 0 4 1000
                     (PolicyEngine.farm_permissions 0 4 farm 10000000)
                     (policy_call c) None None = PolicyEngine.allow) batch
  /\ amount a <= CanonicalMandate.MAX_CALL_CAP_UNITS.
Proof.
  eexists _, _, _. split; [do 5 apply list_elem_of_further; apply list_elem_of_here|].
  eapply (batches_within_policy 0 4 cfg opts inputs answers
    usdc router farm 10000000 1000 None None).
  1-7: first [discriminate|reflexivity].
  change (events (run _ _)) with (events the_run). rewrite log_run.
  do 5 apply list_elem_of_further. apply list_elem_of_here.
Defined.


End Sample.
