(* ===== verification/BaseRecovery.v ===== *)
(** * What a recovery may do next

    Models the validation and the decision of [relayer/src/baseRecovery.mjs]: the closed bundle
    of evidence that the agent index gives for one child, every check of it, and
    [selectBaseChildRecoveryAction], which names the one safe step that is left. *)
From S2P Require Export EvidenceOutbox Hex.

Module Recover.
Export Canonical EvidenceSchema.

(** ** Phases and actions *)
Inductive recovery_phase := movement (p : phase) | base_position.
Inductive recovery_action :=
| no_movement | complete | owner_action | manual_review
| poll_attestation | submit_mint | poll_mint | submit_base_deposit | poll_base_deposit.

#[global] Instance recovery_phase_eq_dec : EqDecision recovery_phase.
Proof. solve_decision. Defined.
#[global] Instance recovery_action_eq_dec : EqDecision recovery_action.
Proof. solve_decision. Defined.

Section Recover.
Local Open Scope string_scope.
Local Open Scope list_scope.

Definition recovery_phase_name (p : recovery_phase) : string :=
  match p with movement p => phase_name p | base_position => "base_position" end.
Definition action_name (a : recovery_action) : string :=
  match a with
  | no_movement => "no-movement" | complete => "complete"
  | owner_action => "owner-action-required" | manual_review => "manual-review"
  | poll_attestation => "poll-attestation" | submit_mint => "submit-mint" | poll_mint => "poll-mint"
  | submit_base_deposit => "submit-base-deposit" | poll_base_deposit => "poll-base-deposit"
  end.

Definition BASE_RECOVERY_ACTIONS : list recovery_action :=
  [poll_attestation; submit_mint; poll_mint; submit_base_deposit; poll_base_deposit].
Definition BASE_RECOVERY_PHASES : list recovery_phase :=
  [movement cctp_burn; movement cctp_attestation; movement cctp_mint; movement base_deposit; base_position].
Definition ACTION_PHASE (a : recovery_action) : option phase :=
  match a with
  | poll_attestation => Some cctp_attestation
  | submit_mint | poll_mint => Some cctp_mint
  | submit_base_deposit | poll_base_deposit => Some base_deposit
  | _ => None
  end.

(** ** Fields and patterns *)
Definition IDENTITY_FIELDS : list string :=
  ["networkId"; "bindingId"; "executionId"; "allocationId"; "childId"].
Definition INTENT_FIELDS : list string :=
  ["runId"; "grantTxHash"; "bindingHash"; "baseJobId"; "kernelAddress"; "poolAddress"; "proxyTarget";
   "token"; "units"; "decimals"; "minShares"].
(** The fields of a projection and of an event are the same. *)
Definition EVENT_FIELDS : list string :=
  ["identity"; "owner"; "agent"; "phase"; "state"; "evidence"; "evidenceDigest"; "recoveryVersion";
   "eventId"; "observedAt"].
Definition EVIDENCE_FIELDS : list string :=
  ["burnTxHash"; "expectationDigest"; "burnUnits7"; "amount"; "token"; "units"; "decimals";
   "destinationDomain"; "messageDigest"; "messageHash"; "messageHex"; "mintRecipient";
   "nonce"; "nonceHex"; "attestationDigest"; "evidenceVersion"; "mintTxHash";
   "attestationHash"; "transactionHash"; "blockNumber"; "blockHash"; "chainId";
   "yieldRouterAddress"; "yieldRouter"; "caller"; "poolAddress"; "assets"; "minShares";
   "shares"; "userOpHash"; "reconcileHandle"; "reasonCode"; "custodyLocation";
   "kernelCustodyConfirmed"; "custody"; "event"].
Definition EVM_ADDRESS : chars -> bool := is_0x_hex 40.
Definition EVM_HASH : chars -> bool := is_0x_hex 64.
Definition DIGEST : chars -> bool := is_hex 64.
Definition BYTES32 : chars -> bool := is_0x_hex 64.
Definition DECIMAL : chars -> bool := is_decimal.
Definition LOWER_TOKEN : chars -> bool := is_hex 64.

Definition BURN_EVIDENCE : list string := ["burnTxHash"; "expectationDigest"; "burnUnits7"].
Definition ATTESTATION_EVIDENCE : list string :=
  ["burnTxHash"; "expectationDigest"; "messageDigest"; "nonce"].
Definition MINT_EVIDENCE : list string :=
  ["burnTxHash"; "expectationDigest"; "messageDigest"; "attestationDigest"; "nonce"].
Definition BASE_DEPOSIT_EVIDENCE : list string :=
  ["chainId"; "yieldRouterAddress"; "caller"; "poolAddress"; "assets"; "minShares"].

(** Required and optional fields, [None] where there is no grammar. *)
Definition PHASE_STATE_EVIDENCE (p : phase) (s : state) : option (list string * list string) :=
  match p, s with
  | cctp_burn, submitted => Some (BURN_EVIDENCE, [])
  | cctp_burn, confirmed => Some (BURN_EVIDENCE ++ ["messageDigest"; "nonce"], [])
  | cctp_burn, unknown => Some (BURN_EVIDENCE ++ ["reasonCode"], [])
  | cctp_burn, (failed | blocked) => Some (["reasonCode"], [])
  | cctp_burn, submitting => None
  | cctp_attestation, confirmed =>
      Some (ATTESTATION_EVIDENCE ++ ["attestationDigest"; "evidenceVersion"], [])
  | cctp_attestation, (submitting | submitted | unknown) => Some (ATTESTATION_EVIDENCE, [])
  | cctp_attestation, (failed | blocked) => Some (ATTESTATION_EVIDENCE ++ ["reasonCode"], [])
  | cctp_mint, confirmed => Some (MINT_EVIDENCE ++ ["evidenceVersion"; "mintTxHash"], [])
  | cctp_mint, submitted => Some (MINT_EVIDENCE ++ ["evidenceVersion"], ["mintTxHash"])
  | cctp_mint, submitting => Some (MINT_EVIDENCE, [])
  | cctp_mint, unknown => Some (MINT_EVIDENCE, ["mintTxHash"])
  | cctp_mint, (failed | blocked) => Some (MINT_EVIDENCE ++ ["reasonCode"], [])
  | base_deposit, submitting => Some (BASE_DEPOSIT_EVIDENCE ++ ["reconcileHandle"], ["kernelAddress"])
  | base_deposit, submitted =>
      Some (BASE_DEPOSIT_EVIDENCE ++ ["userOpHash"], ["kernelAddress"; "reconcileHandle"])
  | base_deposit, confirmed =>
      Some (BASE_DEPOSIT_EVIDENCE ++ ["shares"; "userOpHash"; "transactionHash"; "event"],
            ["kernelAddress"; "reconcileHandle"])
  | base_deposit, unknown =>
      Some (BASE_DEPOSIT_EVIDENCE,
            ["kernelAddress"; "reconcileHandle"; "userOpHash"; "transactionHash"; "reasonCode"])
  | base_deposit, failed =>
      Some (BASE_DEPOSIT_EVIDENCE ++ ["userOpHash"; "transactionHash"; "reasonCode"],
            ["kernelAddress"; "reconcileHandle"; "custodyLocation"; "kernelCustodyConfirmed"; "custody"])
  | base_deposit, blocked =>
      Some (BASE_DEPOSIT_EVIDENCE ++ ["reasonCode"],
            ["kernelAddress"; "reconcileHandle"; "userOpHash"; "transactionHash"; "custodyLocation";
             "kernelCustodyConfirmed"; "custody"])
  end.

(** ** Scalars *)

(** [if (bad) throw new Error(message)] *)
Definition refuse (bad : bool) (message : string) : result index_error unit :=
  if bad then fails message else Ok tt.

(** The checks of a loop, in order; the first that throws ends it. *)
Fixpoint all_of {A} (check : A -> result index_error unit) (l : list A) : result index_error unit :=
  match l with [] => Ok tt | x :: l => _ ← check x; all_of check l end.

(** A property with an empty name is not reported. *)
Definition exactObject (value : val) (allowed : list string) (label : string) : result index_error unit :=
  if negb (is_object value) then fails (label +:+ " must be an object")
  else
    match filter (fun k => k ∉ allowed) (keys value) with
    | unexpected :: _ =>
        refuse (negb (bool_decide (unexpected = EmptyString)))
          ("unexpected " +:+ label +:+ " field: " +:+ unexpected)
    | [] => Ok tt
    end.

Definition requireText (value : val) (label : string) : result index_error string :=
  match value with
  | Str s => if decide (s = EmptyString) then fails (label +:+ " is required") else Ok s
  | _ => fails (label +:+ " is required")
  end.

Definition requireSafeInteger (value : val) (label : string) : result index_error Z :=
  match value with
  | Number (Num z) => if isSafeInteger (Num z) && (0 <=? z)%Z then Ok z else fails (label +:+ " is invalid")
  | _ => fails (label +:+ " is invalid")
  end.

(** [re.test(v)] on any value *)
Definition tested (re : chars -> bool) (v : val) : result index_error bool :=
  if stringable v then Ok (test re v) else Throw TypeError.

Definition sensitive_terms : list string :=
  ["secret"; "private"; "sessionkey"; "serializedapproval"; "capability"; "bearer"; "leasetoken";
   "authorization"; "wallet"; "passkey"; "diagnostic"; "endpoint"].
(** The token of the lease may stand at the root. *)
Definition rejectSensitive (value : val) : result index_error unit :=
  walk (fun path key _ =>
          refuse (negb (bool_decide (path = "$") && bool_decide (key = "leaseToken"))
                  && (existsb (fun term => includes (chars_of term) (normalized key)) sensitive_terms
                      || bool_decide (normalized key = chars_of "approval")
                      || bool_decide (normalized key = chars_of "mandate")))
            ("sensitive Base recovery property rejected at " +:+ path_key path key))
    "$" value.

(** ** Identities *)
Definition validateIdentity (value : val) (label : string) : result index_error Outbox.identity :=
  _ ← exactObject value IDENTITY_FIELDS label;
  let field f := requireText (get value f) (path_key label f) in
  networkId ← field "networkId";
  bindingId ← field "bindingId";
  executionId ← field "executionId";
  allocationId ← field "allocationId";
  childId ← field "childId";
  Ok {| Outbox.networkId := networkId; Outbox.bindingId := bindingId;
        Outbox.executionId := executionId; Outbox.allocationId := allocationId;
        Outbox.childId := childId |}.

Definition sameIdentity (left right : Outbox.identity) : bool := bool_decide (left = right).

Definition marker : string := ":exec:".
Definition validateRecoveryIdentityMapping (i : Outbox.identity) : result index_error unit :=
  let l := chars_of (Outbox.executionId i) in
  refuse (match Outbox.index_of (chars_of marker) l with
          | Some (S n) =>
              negb (bool_decide (drop (S n + length (chars_of marker)) l = chars_of (Outbox.allocationId i)))
          | _ => true
          end) "executionId must match allocationId".

Definition validateExecutionMapping (i : Outbox.identity) (intent : val) : result index_error unit :=
  refuse (negb (bool_decide (chars_of (Outbox.executionId i)
                             = coerce intent#"runId" ++ chars_of marker ++ chars_of (Outbox.allocationId i))))
    "executionId does not match the immutable run/allocation mapping".

(** ** Evidence *)
Definition validateScalarEvidence (value : val) (label : string) : result index_error unit :=
  match value with
  | Undefined | Null | Str _ | Bool _ => Ok tt
  | _ => refuse (negb (is_safe_integer value)) (label +:+ " must be a bounded scalar")
  end.

(** [!Object.hasOwn(value, field) || value[field] == null || value[field] === ''] *)
Definition hasEvidenceValue (evidence : val) (key : string) : bool :=
  has_own evidence key && negb (nullish (get evidence key)) && negb (strict_eq (get evidence key) (Str "")).
Definition requireEvidenceKeys (evidence : val) (ks : list string) (label : string) : result index_error unit :=
  all_of (fun k => refuse (negb (hasEvidenceValue evidence k)) (path_key label k +:+ " is required")) ks.

Definition validatePhaseEvidenceGrammar (value : val) (p : recovery_phase) (s : state) (label : string)
    : result index_error phase :=
  match p with
  | movement p =>
      match PHASE_STATE_EVIDENCE p s with
      | Some (required, optional) =>
          _ ← exactObject value (required ++ optional) label;
          _ ← requireEvidenceKeys value required label;
          Ok p
      | None => fails (label +:+ " phase/state schema is invalid")
      end
  | base_position => fails (label +:+ " phase/state schema is invalid")
  end.

Definition check_event (entry : val) (label : string) : result index_error unit :=
  _ ← exactObject entry DEPOSIT_EVENT_FIELDS label;
  _ ← all_of (fun f => validateScalarEvidence f.2 (path_key label f.1)) (entries entry);
  refuse (negb (test EVM_ADDRESS entry#"address" && test EVM_HASH entry#"topic0"
                && test EVM_ADDRESS entry#"caller" && test EVM_ADDRESS entry#"poolAddress"
                && test DECIMAL entry#"assets" && test DECIMAL entry#"shares"
                && is_string entry#"logIndex" && test DECIMAL entry#"logIndex"))
    (label +:+ " contains a noncanonical deposit fact").

(** [a || b || ...] where each may throw *)
Fixpoint any_of (l : list (result index_error bool)) : result index_error bool :=
  match l with
  | [] => Ok false
  | m :: l => b ← m; if b : bool then Ok true else any_of l
  end.
Definition not_ (m : result index_error bool) : result index_error bool := negb <$> m.

Definition check_reconcile_handle (value entry : val) (label : string) : result index_error unit :=
  _ ← exactObject entry RECONCILE_HANDLE_FIELDS label;
  bad ← any_of [
    not_ (tested EVM_ADDRESS entry#"entryPoint");
    Ok (negb (strict_eq entry#"entryPoint" (Str PINNED_ENTRY_POINT)));
    not_ (tested EVM_ADDRESS entry#"sender");
    Ok (strict_eq entry#"sender" (Str ZERO_ADDRESS));
    Ok (negb (is_string entry#"nonce" && test DECIMAL entry#"nonce"));
    Ok (negb (is_string entry#"startBlock" && test DECIMAL entry#"startBlock"))];
  _ ← refuse bad (label +:+ " is not canonical");
  refuse (has_own value "caller" && negb (strict_eq value#"caller" entry#"sender"))
    (label +:+ ".sender disagrees with caller").

Definition check_custody (entry : val) (label : string) : result index_error unit :=
  _ ← exactObject entry ["location"; "confirmed"] label;
  _ ← requireText entry#"location" (label +:+ ".location");
  refuse (negb (is_boolean entry#"confirmed")) (label +:+ ".confirmed must be boolean").

Definition check_property (value : val) (label : string) (f : string * val) : result index_error unit :=
  let '(key, entry) := f in
  if decide (key = "event") then check_event entry (label +:+ ".event")
  else if decide (key = "reconcileHandle") then check_reconcile_handle value entry (label +:+ ".reconcileHandle")
  else if decide (key = "custody") then check_custody entry (label +:+ ".custody")
  else validateScalarEvidence entry (path_key label key).

(** [Object.hasOwn(value, key) && !re.test(String(value[key]))]; the values are scalars. *)
Definition mismatched (re : chars -> bool) (value : val) (key : string) : bool :=
  has_own value key && negb (test re (get value key)).
Definition mismatched_unless_null (re : chars -> bool) (value : val) (key : string) : bool :=
  negb (strict_eq (get value key) Null) && mismatched re value key.
Definition refuse_keys (bad : string -> bool) (label suffix : string) (ks : list string)
    : result index_error unit :=
  all_of (fun k => refuse (bad k) (path_key label k +:+ suffix)) ks.

Definition validateEvidence (value : val) (p : recovery_phase) (s : state) (label : string)
    : result index_error phase :=
  if negb (is_object value) then fails (label +:+ " must be an object")
  else
    p ← validatePhaseEvidenceGrammar value p s label;
    _ ← exactObject value EVIDENCE_FIELDS label;
    _ ← all_of (check_property value label) (entries value);
    _ ← refuse_keys (mismatched DECIMAL value) label " must be an unsigned decimal string"
          ["units"; "minShares"; "assets"; "shares"; "burnUnits7"; "amount"; "evidenceVersion"];
    _ ← refuse_keys (mismatched EVM_ADDRESS value) label " must be a lowercase EVM address"
          ["yieldRouterAddress"; "yieldRouter"; "caller"; "poolAddress"; "kernelAddress"];
    _ ← refuse_keys (mismatched_unless_null EVM_HASH value) label " must be a canonical EVM hash"
          ["userOpHash"; "transactionHash"; "mintTxHash"; "messageHash"; "attestationHash"; "blockHash"];
    _ ← refuse_keys (mismatched_unless_null DIGEST value) label " must be a lowercase digest"
          ["burnTxHash"; "expectationDigest"];
    _ ← refuse_keys (mismatched_unless_null BYTES32 value) label " must be a bytes32 digest"
          ["messageDigest"; "attestationDigest"];
    _ ← refuse_keys (fun k => has_own value k && negb (strict_eq (get value k) Null)
                              && negb (is_string (get value k))) label " must be a string"
          ["nonce"; "nonceHex"; "messageHex"];
    _ ← refuse (has_own value "nonce" && negb (strict_eq value#"nonce" Null)
                && negb (test BYTES32 value#"nonce") && negb (test DECIMAL value#"nonce"))
          (label +:+ ".nonce must be a bytes32 or unsigned decimal");
    _ ← refuse (has_own value "kernelCustodyConfirmed" && negb (is_boolean value#"kernelCustodyConfirmed"))
          (label +:+ ".kernelCustodyConfirmed must be boolean");
    _ ← refuse (mismatched DIGEST value "evidenceDigest") (label +:+ ".evidenceDigest must be a lowercase digest");
    _ ← (if bool_decide (p = base_deposit) && bool_decide (s = confirmed)
         then exactObject value#"event" DEPOSIT_EVENT_FIELDS (label +:+ ".event") else Ok tt);
    Ok p.

Definition validatePhaseEvidenceShape (evidence : val) (p : phase) (s : state) (label : string)
    : result index_error unit :=
  let need ks := requireEvidenceKeys evidence ks label in
  match p with
  | cctp_burn =>
      if bool_decide (s = confirmed)
      then need ["burnTxHash"; "expectationDigest"; "burnUnits7"; "messageDigest"; "nonce"] else Ok tt
  | cctp_attestation =>
      _ ← need ATTESTATION_EVIDENCE;
      if bool_decide (s = confirmed) then need ["attestationDigest"] else Ok tt
  | cctp_mint =>
      _ ← need MINT_EVIDENCE;
      if bool_decide (s = confirmed) then need ["mintTxHash"] else Ok tt
  | base_deposit =>
      _ ← need ["caller"; "poolAddress"; "assets"; "minShares"];
      match s with
      | submitting => need ["reconcileHandle"]
      | submitted => need ["userOpHash"]
      | unknown =>
          refuse (negb (hasEvidenceValue evidence "userOpHash" || hasEvidenceValue evidence "reconcileHandle"))
            (label +:+ " requires a Base deposit reconcile identity")
      | confirmed =>
          _ ← need ["userOpHash"; "transactionHash"; "shares"; "event"];
          refuse (negb (strict_eq evidence#"shares" evidence#"event"#"shares"))
            (label +:+ ".shares must match the canonical deposit event")
      | failed | blocked => Ok tt
      end
  end.

(** ** Events and projections *)
Record phase_entry := {
  e_given : val;
  e_identity : Outbox.identity;
  e_phase : phase;
  e_state : state;
  e_version : Z;
  e_observedAt : Z;
  e_eventId : string;
  e_evidence : val }.

Definition recovery_phase_of (v : val) : option recovery_phase :=
  member_named recovery_phase_name BASE_RECOVERY_PHASES v.

(** [expected]: the phase of the projection; an event has the phase it says. *)
Definition validatePhaseEntry (value : val) (expected : option recovery_phase) (identity : Outbox.identity)
    (label : string) : result index_error (option phase_entry) :=
  if nullish value then Ok None
  else
    _ ← exactObject value EVENT_FIELDS label;
    i ← validateIdentity value#"identity" (label +:+ ".identity");
    if negb (sameIdentity i identity) then fails (label +:+ ".identity mismatch")
    else
      match recovery_phase_of value#"phase" with
      | None => fails (label +:+ ".phase is invalid")
      | Some p =>
          if match expected with Some q => negb (bool_decide (q = p)) | None => false end
          then fails (label +:+ ".phase is invalid")
          else
            match member_named state_name BASE_EVIDENCE_STATES value#"state" with
            | None => fails (label +:+ ".state is invalid")
            | Some s =>
                version ← requireSafeInteger value#"recoveryVersion" (label +:+ ".recoveryVersion");
                observedAt ← requireSafeInteger value#"observedAt" (label +:+ ".observedAt");
                eventId ← (match value#"eventId" with
                           | Str t => if DIGEST (chars_of t) then Ok t
                                      else fails (label +:+ ".eventId must be a lowercase digest")
                           | _ => fails (label +:+ ".eventId must be a lowercase digest")
                           end);
                digest ← (if has_own value "evidenceDigest" then tested DIGEST value#"evidenceDigest" else Ok true);
                _ ← refuse (negb digest) (label +:+ ".evidenceDigest must be a lowercase digest");
                _ ← refuse (has_own value "owner" && negb (is_string value#"owner")) (label +:+ ".owner is invalid");
                _ ← refuse (has_own value "agent" && negb (is_string value#"agent")) (label +:+ ".agent is invalid");
                _ ← refuse (negb (Bool.eqb (has_own value "owner") (has_own value "agent")))
                      (label +:+ ".owner/agent must be paired");
                p ← validateEvidence value#"evidence" p s (label +:+ ".evidence");
                _ ← validatePhaseEvidenceShape value#"evidence" p s label;
                Ok (Some {| e_given := value; e_identity := i; e_phase := p; e_state := s;
                            e_version := version; e_observedAt := observedAt; e_eventId := eventId;
                            e_evidence := value#"evidence" |})
            end
      end.

(** *** The order of events *)

(** What the loop keeps: the last version, the last state of each phase, the highest phase. *)
Record scan := {
  previous : Z;
  phaseStates : phase -> option state;
  highestPhase : Z }.
Definition scan_start : scan := {| previous := 0; phaseStates := fun _ => None; highestPhase := -1 |}.

Definition predecessor (p : phase) : option phase :=
  match p with
  | cctp_burn => None | cctp_attestation => Some cctp_burn | cctp_mint => Some cctp_attestation
  | base_deposit => Some cctp_mint
  end.

(** The states that may follow a state of the same phase. *)
Definition next_states (p : phase) (s : state) : list state :=
  match s with
  | submitting => [submitted; confirmed; failed; unknown; blocked]
  | submitted => [confirmed; failed; unknown; blocked]
  | unknown => [confirmed]
  | failed => if bool_decide (p = cctp_attestation) then [confirmed] else []
  | _ => []
  end.

Definition is_confirmed_raw (p : phase) (candidate : val) : bool :=
  strict_eq candidate#"phase" (Str (phase_name p)) && strict_eq candidate#"state" (Str "confirmed").

(** One event after [seen]. *)
Definition scan_event (seen : list val) (st : scan) (e : phase_entry) : result index_error scan :=
  let p := e_phase e in
  if negb (e_version e =? previous st + 1)%Z then fails "recovery event versions must be contiguous"
  else if (Outbox.position p <? highestPhase st)%Z then fails "recovery phase order regressed"
  else
    _ ← match phaseStates st p with
        | Some confirmed => fails "confirmed recovery phase regressed"
        | Some s => refuse (negb (bool_decide (e_state e ∈ next_states p s)))
                      "recovery phase state transition is invalid"
        | None => Ok tt
        end;
    _ ← match predecessor p with
        | Some q => refuse (negb (existsb (is_confirmed_raw q) seen))
                      "recovery phase prerequisite is not confirmed"
        | None => Ok tt
        end;
    Ok {| previous := e_version e;
          phaseStates := fun q => if decide (q = p) then Some (e_state e) else phaseStates st q;
          highestPhase := Z.max (highestPhase st) (Outbox.position p) |}.

Fixpoint scan_events (identity : Outbox.identity) (seen : list val) (st : scan) (l : list val)
    : result index_error (list phase_entry) :=
  match l with
  | [] => Ok []
  | v :: l =>
      let label := "events[" +:+ index_key (length seen) +:+ "]" in
      m ← validatePhaseEntry v None identity label;
      match m with
      | None => fails "event phase is invalid"
      | Some e =>
          st ← scan_event seen st e;
          rest ← scan_events identity (seen ++ [v]) st l;
          Ok (e :: rest)
      end
  end.

Definition validateEvents (events : val) (identity : Outbox.identity) : result index_error (list phase_entry) :=
  match events with
  | Arr l => scan_events identity [] scan_start l
  | _ => fails "events must be an array"
  end.

(** *** The projections, at most one per phase *)
Definition projections := recovery_phase -> option phase_entry.
Definition no_projection : projections := fun _ => None.
Definition project (p : recovery_phase) (m : option phase_entry) (ps : projections) : projections :=
  fun q => if decide (q = p) then m else ps q.

Fixpoint phases_of_list (identity : Outbox.identity) (index : nat) (l : list val) (ps : projections)
    : result index_error projections :=
  match l with
  | [] => Ok ps
  | v :: l =>
      let label := "phases[" +:+ index_key index +:+ "]" in
      match recovery_phase_of v#"phase" with
      | Some (movement _ as p) =>
          if match ps p with Some _ => true | None => false end
          then fails ("duplicate " +:+ recovery_phase_name p +:+ " phase projection")
          else
            m ← validatePhaseEntry v (Some p) identity label;
            phases_of_list identity (S index) l (project p m ps)
      | _ => fails (label +:+ " is invalid")
      end
  end.

Fixpoint phases_of_object (value : val) (identity : Outbox.identity) (l : list recovery_phase) (ps : projections)
    : result index_error projections :=
  match l with
  | [] => Ok ps
  | p :: l =>
      m ← validatePhaseEntry (get value (recovery_phase_name p)) (Some p) identity
            (path_key "phases" (recovery_phase_name p));
      phases_of_object value identity l (project p m ps)
  end.

Definition normalizePhases (value : val) (identity : Outbox.identity) : result index_error projections :=
  match value with
  | Arr l => phases_of_list identity 0 l no_projection
  | _ =>
      _ ← exactObject value (recovery_phase_name <$> BASE_RECOVERY_PHASES) "phases";
      phases_of_object value identity BASE_RECOVERY_PHASES no_projection
  end.

(** ** The intent *)
Definition refuse_tested (re : chars -> bool) (v : val) (message : string) : result index_error unit :=
  ok ← tested re v; refuse (negb ok) message.

Definition validateIntent (value : val) (identity : Outbox.identity) : result index_error val :=
  _ ← exactObject value INTENT_FIELDS "intent";
  _ ← all_of (fun k => _ ← requireText (get value k) (path_key "intent" k); Ok tt) ["runId"; "proxyTarget"; "token"];
  _ ← refuse (negb (strict_eq value#"token" (Str "USDC"))) "intent.token is not supported";
  bad ← any_of [not_ (tested DIGEST value#"grantTxHash"); not_ (tested DIGEST value#"bindingHash")];
  _ ← refuse bad "intent grant/binding hash is invalid";
  _ ← all_of (fun k => refuse_tested EVM_ADDRESS (get value k) (path_key "intent" k +:+ " is invalid"))
        ["kernelAddress"; "poolAddress"];
  _ ← all_of (fun k => refuse_tested DECIMAL (get value k) (path_key "intent" k +:+ " is invalid"))
        ["units"; "minShares"];
  _ ← requireSafeInteger value#"decimals" "intent.decimals";
  _ ← refuse (negb (strict_eq value#"baseJobId" (Str (Outbox.childId identity))))
        "intent.baseJobId does not match childId";
  Ok value.

Definition deposit_facts (intent : val) (e : phase_entry) : result index_error unit :=
  if negb (bool_decide (e_phase e = base_deposit)) then Ok tt
  else
    let ev := e_evidence e in
    let differs a b := negb (strict_eq a b) in
    _ ← refuse (differs ev#"caller" intent#"kernelAddress")
          "base deposit caller disagrees with immutable Kernel intent";
    _ ← refuse (truthy ev#"reconcileHandle" && differs ev#"reconcileHandle"#"sender" intent#"kernelAddress")
          "base deposit reconcile sender disagrees with immutable Kernel intent";
    _ ← refuse (differs ev#"poolAddress" intent#"poolAddress") "base deposit pool disagrees with immutable intent";
    _ ← refuse (differs ev#"assets" intent#"units") "base deposit assets disagree with immutable intent";
    refuse (differs ev#"minShares" intent#"minShares") "base deposit minShares disagrees with immutable intent".
Definition validateBaseDepositIntentFacts (l : list phase_entry) (intent : val) : result index_error unit :=
  all_of (deposit_facts intent) l.

(** ** The bundle *)
Record bundle := {
  b_given : val;
  b_identity : Outbox.identity;
  b_owner : string;
  b_agent : string;
  b_version : Z;
  b_intent : val;
  b_phases : projections;
  b_events : list phase_entry }.

(** [JSON.stringify(a) === JSON.stringify(b)] *)
Definition same_text (a b : val) : result index_error bool :=
  match JSON.stringify a, JSON.stringify b with
  | Ok s, Ok t => Ok (bool_decide (s = t))
  | _, _ => Throw TypeError
  end.

Definition projectionEquivalent (p e : phase_entry) : result index_error bool :=
  if bool_decide (e_eventId p = e_eventId e) && bool_decide (e_phase p = e_phase e)
     && bool_decide (e_state p = e_state e) && (e_version p =? e_version e)%Z
     && (e_observedAt p =? e_observedAt e)%Z
     && strict_eq (e_given p)#"evidenceDigest" (e_given e)#"evidenceDigest"
  then same ← same_text (e_evidence p) (e_evidence e); Ok (same && sameIdentity (e_identity p) (e_identity e))
  else Ok false.

(** [[...events].reverse().find((event) => event.phase === phase)] *)
Definition latest_event (p : recovery_phase) (events : list phase_entry) : option phase_entry :=
  last (filter (fun e => movement (e_phase e) = p) events).

Definition check_projection (ps : projections) (events : list phase_entry) (p : recovery_phase)
    : result index_error unit :=
  match ps p, latest_event p events with
  | None, None => Ok tt
  | None, Some _ => fails ("phase projection " +:+ recovery_phase_name p +:+ " is missing")
  | Some _, None => fails ("phase projection " +:+ recovery_phase_name p +:+ " disagrees with event head")
  | Some e, Some l =>
      same ← projectionEquivalent e l;
      refuse (negb same) ("phase projection " +:+ recovery_phase_name p +:+ " disagrees with event head")
  end.

Definition check_owner (owner agent what : string) (e : phase_entry) : result index_error unit :=
  _ ← refuse (has_own (e_given e) "owner" && negb (strict_eq (e_given e)#"owner" (Str owner)))
        (what +:+ " owner mismatch");
  refuse (has_own (e_given e) "agent" && negb (strict_eq (e_given e)#"agent" (Str agent)))
    (what +:+ " agent mismatch").

Definition BUNDLE_FIELDS : list string :=
  ["schemaVersion"; "identity"; "owner"; "agent"; "recoverable"; "recoveryVersion"; "intent"; "phases"; "events"].

Definition projected (ps : projections) : list phase_entry := omap ps BASE_RECOVERY_PHASES.

Definition validateBaseRecoveryBundle (b : val) : result index_error bundle :=
  _ ← exactObject b BUNDLE_FIELDS "Base recovery bundle";
  _ ← refuse (negb (strict_eq b#"schemaVersion" (Number (Num 1)))) "Base recovery bundle schema mismatch";
  identity ← validateIdentity b#"identity" "identity";
  owner ← requireText b#"owner" "owner";
  agent ← requireText b#"agent" "agent";
  _ ← refuse (negb (strict_eq b#"recoverable" (Bool true))) "Base recovery bundle is not recoverable";
  version ← requireSafeInteger b#"recoveryVersion" "recoveryVersion";
  intent ← validateIntent b#"intent" identity;
  _ ← validateExecutionMapping identity intent;
  phases ← normalizePhases b#"phases" identity;
  events ← validateEvents b#"events" identity;
  _ ← validateBaseDepositIntentFacts (events ++ projected phases) intent;
  _ ← refuse (negb (Z.of_nat (length events) =? version)%Z) "recoveryVersion does not match event head";
  _ ← all_of (check_owner owner agent "event") events;
  _ ← all_of (check_owner owner agent "phase") (projected phases);
  _ ← all_of (check_projection phases events) BASE_RECOVERY_PHASES;
  _ ← rejectSensitive b;
  Ok {| b_given := b; b_identity := identity; b_owner := owner; b_agent := agent; b_version := version;
        b_intent := intent; b_phases := phases; b_events := events |}.

(** ** The selection *)
Record selection := {
  action : recovery_action;
  sel_phase : option phase;
  reasonCode : string }.

Definition manual : selection :=
  {| action := manual_review; sel_phase := None; reasonCode := "base-manual-review" |}.
Definition select (a : recovery_action) (code : string) : selection :=
  {| action := a; sel_phase := ACTION_PHASE a; reasonCode := code |}.

Definition hasEvidence (m : option phase_entry) (key : string) : bool :=
  match m with
  | Some e => has_own (e_evidence e) key && negb (strict_eq (get (e_evidence e) key) Null)
              && negb (strict_eq (get (e_evidence e) key) (Str ""))
  | None => false
  end.

(** The texts that the events and the projections have for a key. *)
Definition values_of (b : bundle) (key : string) : list chars :=
  (fun e => coerce (get (e_evidence e) key))
    <$> filter (fun e => hasEvidence (Some e) key = true) (b_events b ++ projected (b_phases b)).
Definition conflicting (b : bundle) (key : string) : bool :=
  match values_of b key with
  | [] => false
  | t :: l => negb (forallb (fun t' => bool_decide (t' = t)) l)
  end.
(** [valueOf(bundle, key).value] where there is no conflict *)
Definition has_value (b : bundle) (key : string) : bool :=
  match values_of b key with t :: _ => negb (bool_decide (t = [])) | [] => false end.

Definition phase_of (b : bundle) (p : phase) : option phase_entry := b_phases b (movement p).
Definition evidence_field (m : option phase_entry) (key : string) : val :=
  match m with Some e => get (e_evidence e) key | None => Undefined end.
Definition in_state (m : option phase_entry) (l : list state) : bool :=
  match m with Some e => bool_decide (e_state e ∈ l) | None => false end.
Definition confirmed_phase (b : bundle) (p : phase) : bool := in_state (phase_of b p) [confirmed].

Definition safeHandle (m : option phase_entry) : bool := hasEvidence m "userOpHash" || hasEvidence m "reconcileHandle".
Definition sameEvidenceFacts (l r : option phase_entry) (ks : list string) : bool :=
  forallb (fun k => strict_eq (evidence_field l k) (evidence_field r k)) ks.
Definition kernelCustody (m : option phase_entry) : bool :=
  strict_eq (evidence_field m "custodyLocation") (Str "base-kernel")
  || strict_eq (evidence_field m "kernelCustodyConfirmed") (Bool true)
  || (strict_eq (evidence_field m "custody")#"location" (Str "base-kernel")
      && strict_eq (evidence_field m "custody")#"confirmed" (Bool true)).

(** [re.test(v || '')] on a scalar *)
Definition tested_or_empty (re : chars -> bool) (v : val) : bool := re (if truthy v then coerce v else []).

Definition lower_of (v : val) : val := match v with Str s => Str (string_of (toLowerCase (chars_of s))) | _ => Undefined end.

Definition exactDeposit (b : bundle) (m : option phase_entry) : bool :=
  match m with
  | None => false
  | Some e =>
      let evidence := e_evidence e in
      let event := evidence#"event" in
      let router := coalesce evidence#"yieldRouterAddress" evidence#"yieldRouter" in
      let intent := b_intent b in
      truthy event && tested_or_empty EVM_HASH evidence#"userOpHash"
      && tested_or_empty EVM_HASH evidence#"transactionHash"
      && tested_or_empty EVM_ADDRESS router
      && strict_eq (lower_of router) (lower_of event#"address")
      && strict_eq evidence#"caller" intent#"kernelAddress"
      && strict_eq evidence#"poolAddress" intent#"poolAddress"
      && tested_or_empty DECIMAL evidence#"assets" && strict_eq evidence#"assets" intent#"units"
      && tested_or_empty DECIMAL evidence#"minShares" && strict_eq evidence#"minShares" intent#"minShares"
      && tested_or_empty DECIMAL event#"shares"
      && match to_BigInt event#"shares", to_BigInt intent#"minShares" with
         | Some shares, Some minShares => (0 <? shares)%Z && (minShares <=? shares)%Z
         | _, _ => false
         end
      && strict_eq event#"caller" evidence#"caller"
      && strict_eq event#"poolAddress" intent#"poolAddress"
      && strict_eq event#"assets" evidence#"assets"
      && strict_eq event#"shares" evidence#"shares"
      && tested_or_empty EVM_HASH event#"topic0"
      && is_string event#"logIndex" && test DECIMAL event#"logIndex"
  end.

Definition text_field (m : option phase_entry) (key : string) : chars :=
  toLowerCase (coerce (coalesce (evidence_field m key) (Str ""))).
(** [/revert/i] and [/mandate[_-]?inactive/i] *)
Definition says_revert (t : chars) : bool := includes (chars_of "revert") t.
Definition says_mandate_inactive (t : chars) : bool :=
  existsb (fun w => includes (chars_of w) t) ["mandateinactive"; "mandate_inactive"; "mandate-inactive"].

Definition select_deposit (b : bundle) : selection :=
  let deposit := phase_of b base_deposit in
  match deposit with
  | None => select submit_base_deposit "base-mint-confirmed"
  | Some e =>
      match e_state e with
      | submitting | submitted | unknown =>
          if safeHandle deposit then select poll_base_deposit "base-deposit-pending" else manual
      | failed | blocked =>
          let definitiveProof := hasEvidence deposit "transactionHash" || hasEvidence deposit "userOpHash" in
          if kernelCustody deposit
             && ((bool_decide (e_state e = failed) && definitiveProof)
                 || (bool_decide (e_state e = blocked) && says_mandate_inactive (text_field deposit "reasonCode")))
          then select owner_action "base-deposit-failed-kernel-custody"
          else manual
      | confirmed =>
          if exactDeposit b deposit then select complete "base-deposit-confirmed" else manual
      end
  end.

Definition select_mint (b : bundle) : selection :=
  let attestation := phase_of b cctp_attestation in
  let mint := phase_of b cctp_mint in
  match mint with
  | None => select submit_mint "base-attestation-confirmed"
  | Some e =>
      match e_state e with
      | submitting =>
          if negb (hasEvidence mint "nonce") && negb (hasEvidence mint "nonceHex")
             && negb (hasEvidence mint "reconcileHandle")
          then manual else select poll_mint "base-mint-submitting"
      | submitted | unknown => select poll_mint "base-mint-pending"
      | failed | blocked => manual
      | confirmed =>
          if negb (hasEvidence mint "mintTxHash") then manual
          else if sameEvidenceFacts attestation mint MINT_EVIDENCE then select_deposit b
          else manual
      end
  end.

Definition select_attestation (b : bundle) : selection :=
  let burn := phase_of b cctp_burn in
  let attestation := phase_of b cctp_attestation in
  if negb (in_state attestation [confirmed]) then select poll_attestation "base-attestation-pending"
  else if negb (hasEvidence attestation "messageDigest") || negb (hasEvidence attestation "attestationDigest")
  then manual
  else if sameEvidenceFacts burn attestation ATTESTATION_EVIDENCE then select_mint b
  else manual.

Definition CONFLICT_KEYS : list string :=
  ["burnTxHash"; "expectationDigest"; "burnUnits7"; "messageDigest"; "attestationDigest"; "mintTxHash";
   "userOpHash"; "transactionHash"; "nonce"; "nonceHex"].

Definition select_burn (b : bundle) : selection :=
  let burn := phase_of b cctp_burn in
  if in_state burn [failed; blocked] then
    if negb (existsb (has_value b) ["burnTxHash"; "messageDigest"; "nonce"; "nonceHex"])
       && says_revert (text_field burn "reasonCode")
    then select no_movement "base-burn-reverted" else manual
  else if confirmed_phase b cctp_burn then select_attestation b
  else manual.

Definition selectBaseChildRecoveryAction (input : val) : selection :=
  match validateBaseRecoveryBundle input with
  | Throw _ => manual
  | Ok b =>
      match b_events b with
      | [] => select no_movement "base-no-movement"
      | _ => if existsb (conflicting b) CONFLICT_KEYS then manual else select_burn b
      end
  end.

(** ** Work and requests *)
Definition member_action (v : val) : option recovery_action := member_named action_name BASE_RECOVERY_ACTIONS v.

(** The text whose digest identifies a piece of work. *)
Definition work_text (i : Outbox.identity) (version : Z) (a : recovery_action) : result index_error chars :=
  match JSON.stringify (Arr ((Str <$> Outbox.identityValues i) ++ [Number (Num version); Str (action_name a)])) with
  | Ok (Some t) => Ok (chars_of "vf-base-recovery-work/v1" ++ [ascii_of_nat 10] ++ t)
  | _ => Throw TypeError
  end.

Definition computeBaseRecoveryWorkId (sha256 : chars -> chars) (identity evidenceVersion action : val)
    : result index_error chars :=
  i ← validateIdentity identity "identity";
  _ ← validateRecoveryIdentityMapping i;
  version ← requireSafeInteger evidenceVersion "evidenceVersion";
  match member_action action with
  | Some a => t ← work_text i version a; Ok (sha256 t)
  | None => fails "Base recovery action is invalid"
  end.

Definition REQUEST_FIELDS : list string := ["mandateId"; "identity"; "action"; "evidenceVersion"; "leaseToken"].

Record recovery_request := {
  q_given : val;
  q_identity : Outbox.identity;
  q_action : recovery_action;
  q_version : Z }.

Definition validateBaseRecoveryRequest (request : val) : result index_error recovery_request :=
  _ ← exactObject request REQUEST_FIELDS "farm recovery";
  mandateId ← requireText request#"mandateId" "mandateId";
  _ ← refuse (negb (is_hex 32 (chars_of mandateId))) "mandateId is invalid";
  i ← validateIdentity request#"identity" "identity";
  _ ← validateRecoveryIdentityMapping i;
  match member_action request#"action" with
  | None => fails "Base recovery action is invalid"
  | Some a =>
      version ← requireSafeInteger request#"evidenceVersion" "evidenceVersion";
      ok ← tested LOWER_TOKEN (if truthy request#"leaseToken" then request#"leaseToken" else Str "");
      _ ← refuse (negb ok) "leaseToken is invalid";
      _ ← rejectSensitive request;
      Ok {| q_given := request; q_identity := i; q_action := a; q_version := version |}
  end.

End Recover.
End Recover.
