(* ===== verification/RecoverySafety.v ===== *)
(** * What a recovery decides

    The events of an accepted bundle are a history that the outbox of the relayer would have
    written, the projections are its heads, and every action that is selected is the one safe
    step that this history leaves. *)
From S2P Require Export BaseRecovery.

Module RecoverySafety.
Export Recover.

(** ** The order of events *)

(** The order of the outbox, from the first event of a burn. *)
Definition may_follow (latest : option (phase * state)) (p : phase) (s : state) : bool :=
  match latest with
  | None => bool_decide (p = cctp_burn)
  | Some _ => Outbox.allowedTransition latest p s
  end.
Fixpoint chain (latest : option (phase * state)) (l : list (phase * state)) : bool :=
  match l with
  | [] => true
  | (p, s) :: l => may_follow latest p s && chain (Some (p, s)) l
  end.

Definition kind_of (e : phase_entry) : phase * state := (e_phase e, e_state e).

(** What the scan keeps after a history that ends with [latest]. *)
Definition scan_inv (seen : list val) (st : scan) (latest : option (phase * state)) : Prop :=
  (forall q, existsb (is_confirmed_raw q) seen = true <-> phaseStates st q = Some confirmed) /\
  match latest with
  | None => highestPhase st = -1 /\ forall q, phaseStates st q = None
  | Some (p, s) =>
      highestPhase st = Outbox.position p /\ phaseStates st p = Some s
      /\ (forall q, Outbox.position q < Outbox.position p -> phaseStates st q = Some confirmed)
      /\ (forall q, Outbox.position p < Outbox.position q -> phaseStates st q = None)
  end.

Lemma next_states_allowed p s s' :
  s <> confirmed ->
  bool_decide (s' ∈ next_states p s) = Outbox.allowedTransition (Some (p, s)) p s'.
Proof. by destruct p, s, s'. Qed.

Lemma confirmed_allows_nothing p s : Outbox.allowedTransition (Some (p, confirmed)) p s = false.
Proof. by destruct p, s. Qed.

Lemma predecessor_position p q : predecessor p = Some q -> Outbox.position q + 1 = Outbox.position p.
Proof. by destruct p; intros [= <-]. Qed.

Lemma scan_inv_start : scan_inv [] scan_start None.
Proof. split; [done|]. by split. Qed.

Lemma position_inj p q : Outbox.position p = Outbox.position q -> p = q.
Proof. by destruct p, q. Qed.

Lemma allowed_forward p s q s' :
  p <> q -> Outbox.allowedTransition (Some (p, s)) q s'
  = (Outbox.position q =? Outbox.position p + 1)%Z && bool_decide (s = confirmed).
Proof. intros H. unfold Outbox.allowedTransition. by rewrite bool_decide_false. Qed.

(** The prerequisite of a phase is met. *)
Definition prerequisite (seen : list val) (p : phase) : bool :=
  match predecessor p with Some q => existsb (is_confirmed_raw q) seen | None => true end.

(** The order alone, as the scan checks it. *)
Definition scan_order (seen : list val) (st : scan) (p : phase) (s : state) : bool :=
  negb (Outbox.position p <? highestPhase st)%Z
  && match phaseStates st p with
     | Some confirmed => false
     | Some s0 => bool_decide (s ∈ next_states p s0)
     | None => true
     end
  && prerequisite seen p.

Lemma prerequisite_met seen st p0 s0 p :
  scan_inv seen st (Some (p0, s0)) ->
  prerequisite seen p = true <->
  Outbox.position p <= Outbox.position p0
  \/ (Outbox.position p = Outbox.position p0 + 1 /\ s0 = confirmed).
Proof.
  intros (Hseen & Hh & Hs & Hlow & Hhigh). unfold prerequisite.
  destruct (predecessor p) as [q|] eqn:Hq; [|destruct p; try done; split; [intros _; left; by destruct p0|done]].
  apply predecessor_position in Hq. rewrite Hseen.
  destruct (Z.lt_trichotomy (Outbox.position q) (Outbox.position p0)) as [Hlt|[Heq|Hgt]].
  - rewrite Hlow by done. split; [intros _; left; lia|done].
  - apply position_inj in Heq as ->. rewrite Hs. split; [intros [= ->]; right; split; [lia|done]|].
    intros [?|[_ ->]]; [lia|done].
  - rewrite Hhigh by done. split; [done|]. intros [?|[? _]]; lia.
Qed.

Lemma scan_order_exact seen st latest p s :
  scan_inv seen st latest -> scan_order seen st p s = may_follow latest p s.
Proof.
  intros Hinv. apply eq_bool_prop_intro. rewrite !Is_true_true.
  unfold scan_order. rewrite !andb_true_iff, negb_true_iff, Z.ltb_ge.
  destruct latest as [[p0 s0]|]; cbn [may_follow].
  - rewrite (prerequisite_met _ _ _ _ _ Hinv). destruct Hinv as (_ & Hh & Hs & Hlow & Hhigh).
    rewrite Hh. destruct (decide (p = p0)) as [->|Hne].
    + rewrite Hs. destruct (decide (s0 = confirmed)) as [->|Hc].
      * rewrite confirmed_allows_nothing. naive_solver.
      * rewrite <-next_states_allowed by done. destruct s0; try done; split; intros; try naive_solver lia.
        all: split_and!; try done; try lia; left; lia.
    + rewrite allowed_forward by congruence. rewrite andb_true_iff, Z.eqb_eq, bool_decide_eq_true.
      assert (Outbox.position p <> Outbox.position p0) by (intros ?%position_inj; congruence).
      split.
      * intros ([? _] & [?|[? ->]]); [lia|done].
      * intros [Hp ->]. rewrite Hhigh by lia. split_and!; [lia|done|by right].
  - destruct Hinv as (Hseen & Hh & Hnone). rewrite Hh, Hnone. unfold prerequisite. rewrite bool_decide_eq_true.
    destruct p; cbn [predecessor Outbox.position].
    + naive_solver lia.
    + rewrite Hseen, Hnone. naive_solver.
    + rewrite Hseen, Hnone. naive_solver.
    + rewrite Hseen, Hnone. naive_solver.
Qed.

Definition scan_step (st : scan) (e : phase_entry) : scan := {|
  previous := e_version e;
  phaseStates := fun q => if decide (q = e_phase e) then Some (e_state e) else phaseStates st q;
  highestPhase := Z.max (highestPhase st) (Outbox.position (e_phase e)) |}.

Lemma scan_event_Ok seen st e st' :
  scan_event seen st e = Ok st' <->
  e_version e = previous st + 1 /\ scan_order seen st (e_phase e) (e_state e) = true /\ st' = scan_step st e.
Proof.
  unfold scan_event, scan_order, prerequisite.
  destruct (Z.eqb_spec (e_version e) (previous st + 1)); cbn [negb]; [|naive_solver].
  destruct (Outbox.position (e_phase e) <? highestPhase st)%Z; cbn [negb]; [naive_solver|].
  destruct (phaseStates st (e_phase e)) as [s0|].
  - destruct s0; cbn [mbind result_bind refuse]; try (split; [done|naive_solver]);
      destruct (bool_decide _); cbn [negb refuse mbind result_bind andb]; try (split; [done|naive_solver]);
      destruct (predecessor _); cbn; try (destruct (existsb _ _); cbn); naive_solver.
  - cbn. destruct (predecessor _); cbn; try (destruct (existsb _ _); cbn); naive_solver.
Qed.

(** ** What an accepted entry is *)
Lemma refuse_Ok b m : refuse b m = Ok tt <-> b = false.
Proof. by destruct b. Qed.

Lemma validateEvidence_phase ev p s label q : validateEvidence ev p s label = Ok q -> p = movement q.
Proof.
  unfold validateEvidence. destruct (negb (is_object ev)); [done|]. intros H.
  apply bind_Ok in H as (q' & Hg & H).
  do 12 (apply bind_Ok in H as ([] & _ & H)). injection H as <-.
  unfold validatePhaseEvidenceGrammar in Hg. destruct p as [p|]; [|done].
  destruct (PHASE_STATE_EVIDENCE p s) as [[required optional]|]; [|done].
  apply bind_Ok in Hg as ([] & _ & Hg). by apply bind_Ok in Hg as ([] & _ & [= <-]).
Qed.

Lemma member_named_inv {A} (name : A -> string) l v a : member_named name l v = Some a -> v = Str (name a).
Proof.
  unfold member_named. destruct v; try done. intros H.
  assert (a ∈ filter (fun a => name a = s) l) as Hin
    by (destruct (filter _ _); [done|]; injection H as ->; apply list_elem_of_here).
  by apply list_elem_of_filter in Hin as [-> _].
Qed.

Lemma phase_entry_inv v expected identity label e :
  validatePhaseEntry v expected identity label = Ok (Some e) ->
  e_given e = v /\ e_identity e = identity
  /\ v#"phase" = Str (phase_name (e_phase e)) /\ v#"state" = Str (state_name (e_state e))
  /\ e_evidence e = v#"evidence"
  /\ validateEvidence (e_evidence e) (movement (e_phase e)) (e_state e) (label +:+ ".evidence"%string) = Ok (e_phase e)
  /\ validatePhaseEvidenceShape (e_evidence e) (e_phase e) (e_state e) label = Ok tt
  /\ match expected with Some q => q = movement (e_phase e) | None => True end.
Proof.
  unfold validatePhaseEntry. destruct (nullish v); [done|]. intros H.
  apply bind_Ok in H as ([] & _ & H). apply bind_Ok in H as (i & _ & H).
  destruct (sameIdentity i identity) eqn:Hi; [|done]. apply bool_decide_eq_true in Hi as ->.
  cbn [negb] in H.
  destruct (recovery_phase_of v#"phase") as [rp|] eqn:Hp; [|done].
  destruct (match expected with Some q => _ | None => false end) eqn:Hx; [done|].
  destruct (member_named state_name _ v#"state") as [st|] eqn:Hs; [|done].
  apply bind_Ok in H as (version & _ & H). apply bind_Ok in H as (at_ & _ & H).
  apply bind_Ok in H as (id & _ & H). apply bind_Ok in H as (digest & _ & H).
  do 4 (apply bind_Ok in H as ([] & _ & H)).
  apply bind_Ok in H as (p & Hev & H). apply bind_Ok in H as ([] & Hshape & [= <-]). cbn.
  pose proof (validateEvidence_phase _ _ _ _ _ Hev) as ->.
  apply member_named_inv in Hp, Hs. split_and!; try done.
  destruct expected as [q|]; [|done]. by apply negb_false_iff, bool_decide_eq_true in Hx as ->.
Qed.

Lemma confirmed_raw v e q :
  v#"phase" = Str (phase_name (e_phase e)) -> v#"state" = Str (state_name (e_state e)) ->
  is_confirmed_raw q v = true <-> q = e_phase e /\ e_state e = confirmed.
Proof.
  intros Hp Hs. unfold is_confirmed_raw. rewrite Hp, Hs. cbn [strict_eq].
  rewrite andb_true_iff, !bool_decide_eq_true.
  split; [|by intros [-> ->]]. by destruct q, (e_phase e), (e_state e); intros [[=] [=]].
Qed.

Lemma scan_inv_step seen st latest v e :
  scan_inv seen st latest -> scan_order seen st (e_phase e) (e_state e) = true ->
  v#"phase" = Str (phase_name (e_phase e)) -> v#"state" = Str (state_name (e_state e)) ->
  scan_inv (seen ++ [v]) (scan_step st e) (Some (kind_of e)).
Proof.
  intros Hinv Ho Hp Hs. rewrite (scan_order_exact _ _ latest) in Ho by done.
  assert (forall q, phaseStates st q = Some confirmed -> q = e_phase e -> False) as Hfresh.
  { intros q Hq ->. destruct Hinv as [_ Hinv]. destruct latest as [[p0 s0]|]; [|by rewrite (proj2 Hinv) in Hq].
    destruct Hinv as (_ & Hs0 & Hlow & Hhigh). cbn [may_follow] in Ho.
    destruct (decide (e_phase e = p0)) as [E|E].
    - rewrite E in *. rewrite Hs0 in Hq. injection Hq as ->. by rewrite confirmed_allows_nothing in Ho.
    - rewrite allowed_forward in Ho by congruence. zbool. rewrite Hhigh in Hq; [done|lia]. }
  split.
  - intros q. rewrite existsb_app, orb_true_iff. cbn [existsb]. rewrite orb_false_r, (confirmed_raw v e q) by done.
    rewrite (proj1 Hinv). cbn. case_decide as E.
    + subst q. split; [intros [?|[_ ->]]; [by exfalso; eapply Hfresh|done]|]. intros [= ->]. by right.
    + naive_solver.
  - unfold kind_of. cbn. rewrite decide_True by done. destruct latest as [[p0 s0]|].
    + destruct Hinv as (_ & Hh & Hs0 & Hlow & Hhigh). cbn [may_follow] in Ho. rewrite Hh.
      assert (Outbox.position p0 <= Outbox.position (e_phase e)
        /\ forall q, Outbox.position q < Outbox.position (e_phase e) -> phaseStates st q = Some confirmed) as [Hle Hbelow].
      { destruct (decide (e_phase e = p0)) as [->|E]; [split; [lia|done]|].
        rewrite allowed_forward in Ho by congruence. apply andb_true_iff in Ho as [Hpos Hc].
        apply Z.eqb_eq in Hpos. apply bool_decide_eq_true in Hc as ->. split; [lia|]. intros q Hq.
        destruct (Z.eq_dec (Outbox.position q) (Outbox.position p0)) as [Eq|Eq].
        - by apply position_inj in Eq as ->.
        - apply Hlow. lia. }
      split_and!; [lia|done| |].
      * intros q Hq. rewrite decide_False by (intros ->; lia). auto.
      * intros q Hq. rewrite decide_False by (intros ->; lia). apply Hhigh. lia.
    + destruct Hinv as (_ & Hh & Hnone). cbn [may_follow] in Ho. apply bool_decide_eq_true in Ho. rewrite Hh, Ho.
      split_and!; [done|done| |].
      * by intros [].
      * intros q Hq. rewrite decide_False by (intros ->; cbn in Hq; lia). done.
Qed.

(** ** The events of a bundle *)
Definition event_label (n : nat) : string := ("events[" +:+ index_key n +:+ "]")%string.

(** Every event is in its form, and they are numbered from [n]. *)
Fixpoint formed (identity : Outbox.identity) (n : nat) (l : list val) (es : list phase_entry) : Prop :=
  match l, es with
  | [], [] => True
  | v :: l, e :: es =>
      validatePhaseEntry v None identity (event_label n) = Ok (Some e)
      /\ e_version e = Z.of_nat n + 1 /\ formed identity (S n) l es
  | _, _ => False
  end.

Lemma scan_events_exact identity seen st latest l es :
  scan_inv seen st latest -> previous st = Z.of_nat (length seen) ->
  scan_events identity seen st l = Ok es <->
  formed identity (length seen) l es /\ chain latest (kind_of <$> es) = true.
Proof.
  revert seen st latest es. induction l as [|v l IH]; intros seen st latest es Hinv Hprev.
  - cbn. destruct es; naive_solver.
  - cbn [scan_events]. rewrite bind_Ok. split.
    + intros (m & Hm & H). destruct m as [e|]; [|done].
      apply bind_Ok in H as (st' & Hst & H). apply scan_event_Ok in Hst as (Hv & Ho & ->).
      apply bind_Ok in H as (rest & H & [= <-]).
      pose proof (phase_entry_inv _ _ _ _ _ Hm) as (_ & _ & Hp & Hs & _).
      apply (IH _ _ (Some (kind_of e))) in H as [Hf Hc].
      * rewrite length_app, Nat.add_1_r in Hf. split; [split_and!; [done|lia|done]|].
        change (may_follow latest (e_phase e) (e_state e) && chain (Some (kind_of e)) (kind_of <$> rest) = true).
        by rewrite <-(scan_order_exact seen st), Ho, Hc.
      * by eapply scan_inv_step.
      * cbn. rewrite length_app. cbn. lia.
    + intros [Hf Hc]. destruct es as [|e es]; [done|]. destruct Hf as (Hm & Hv & Hf).
      cbn in Hc. apply andb_true_iff in Hc as [Ho Hc].
      rewrite <-(scan_order_exact seen st) in Ho by done.
      pose proof (phase_entry_inv _ _ _ _ _ Hm) as (_ & _ & Hp & Hs & _).
      exists (Some e). split; [done|]. apply bind_Ok. exists (scan_step st e).
      split; [by apply scan_event_Ok; split_and!; [lia|done|done]|].
      apply bind_Ok. exists es. split; [|done]. apply (IH _ _ (Some (kind_of e))).
      * by eapply scan_inv_step.
      * cbn. rewrite length_app. cbn. lia.
      * rewrite length_app, Nat.add_1_r. done.
Qed.

Lemma events_exact identity l es :
  validateEvents (Arr l) identity = Ok es <->
  formed identity 0 l es /\ chain None (kind_of <$> es) = true.
Proof. apply (scan_events_exact identity [] scan_start None); [apply scan_inv_start|done]. Qed.

(** C5. The events of a bundle are accepted exactly if each is in its form, they are numbered
    from one without a gap, and their phases and states are a history that the outbox of the
    relayer allows, one transition after another, beginning with the burn: the order that the
    recovery checks against the whole history is the order that the outbox checks against its
    head. *)
Theorem events_are_outbox_history identity l es :
  validateEvents (Arr l) identity = Ok es <->
  formed identity 0 l es /\ chain None (kind_of <$> es) = true.
Proof. apply events_exact. Qed.

(** ** The heads of a history *)
Definition head_of (l : list (phase * state)) (p : phase) : option state :=
  snd <$> last (filter (fun k => k.1 = p) l).

Lemma head_of_snoc l p s q : head_of (l ++ [(p, s)]) q = if decide (q = p) then Some s else head_of l q.
Proof.
  unfold head_of. rewrite filter_app. case_decide as E.
  - subst q. rewrite filter_cons_True, filter_nil by done. by rewrite last_snoc.
  - rewrite filter_cons_False, filter_nil, app_nil_r by (cbn; congruence). done.
Qed.

Lemma head_of_elem l q s : head_of l q = Some s -> (q, s) ∈ l.
Proof.
  induction l as [|[p' s'] l IH] using rev_ind; [done|]. rewrite head_of_snoc, elem_of_app.
  case_decide as E; [intros [= ->]; subst; right; apply list_elem_of_here|left; auto].
Qed.
Lemma elem_head_of l q s : (q, s) ∈ l -> head_of l q <> None.
Proof.
  induction l as [|[p' s'] l IH] using rev_ind; [by intros ?%elem_of_nil|].
  rewrite head_of_snoc, elem_of_app, list_elem_of_singleton. case_decide; naive_solver.
Qed.

Lemma chain_snoc latest l p s :
  chain latest (l ++ [(p, s)])
  = chain latest l && may_follow (match last l with Some k => Some k | None => latest end) p s.
Proof.
  revert latest. induction l as [|[p' s'] l IH]; intros latest; cbn [app chain]; [by rewrite andb_true_r|].
  rewrite IH, andb_assoc, last_cons. by destruct (last l).
Qed.

(** The last event of a history stands for the whole of it: the phases before it are confirmed,
    those after it have not begun. *)
Lemma chain_heads l p s :
  chain None l = true -> last l = Some (p, s) ->
  forall q, head_of l q = if (Outbox.position q <? Outbox.position p)%Z then Some confirmed
                     else if (Outbox.position p <? Outbox.position q)%Z then None else Some s.
Proof.
  revert p s. induction l as [|[p' s'] l IH] using rev_ind; [done|]. intros p s Hc Hl q.
  rewrite last_snoc in Hl. injection Hl as -> ->. rewrite chain_snoc in Hc.
  apply andb_true_iff in Hc as [Hc Hf]. rewrite head_of_snoc. case_decide as E.
  { subst q. by rewrite Z.ltb_irrefl. }
  assert (Outbox.position q <> Outbox.position p) by (intros ?%position_inj; congruence).
  destruct (last l) as [[p0 s0]|] eqn:Hl.
  - rewrite (IH p0 s0) by done. cbn [may_follow] in Hf. destruct (decide (p = p0)) as [->|Hne].
    + destruct (Z.ltb_spec (Outbox.position q) (Outbox.position p0)); [done|].
      destruct (Z.ltb_spec (Outbox.position p0) (Outbox.position q)); [done|lia].
    + rewrite allowed_forward in Hf by congruence. apply andb_true_iff in Hf as [Hp Hs].
      apply Z.eqb_eq in Hp. apply bool_decide_eq_true in Hs as ->.
      repeat match goal with |- context [(?a <? ?b)%Z] => destruct (Z.ltb_spec a b) end; try done; lia.
  - apply last_None in Hl as ->. cbn [may_follow] in Hf. apply bool_decide_eq_true in Hf as ->.
    destruct q; try done; congruence.
Qed.

Lemma last_kind l : last (kind_of <$> l) = kind_of <$> last l.
Proof. apply fmap_last. Qed.

Lemma head_of_latest l p : e_state <$> latest_event (movement p) l = head_of (kind_of <$> l) p.
Proof.
  induction l as [|e l IH] using rev_ind; [done|].
  rewrite fmap_app. cbn [fmap list_fmap]. unfold kind_of at 2. rewrite head_of_snoc.
  unfold latest_event in *. rewrite filter_app. case_decide as E.
  - rewrite filter_cons_True, filter_nil by (by rewrite E). by rewrite last_snoc.
  - rewrite filter_cons_False, filter_nil, app_nil_r by (intros [=]; congruence). done.
Qed.

(** ** The bundle *)
Lemma bundle_inv v b :
  validateBaseRecoveryBundle v = Ok b ->
  validateEvents v#"events" (b_identity b) = Ok (b_events b)
  /\ forall p, p ∈ BASE_RECOVERY_PHASES -> check_projection (b_phases b) (b_events b) p = Ok tt.
Proof.
  unfold validateBaseRecoveryBundle. intros H.
  apply bind_Ok in H as ([] & _ & H). apply bind_Ok in H as ([] & _ & H).
  apply bind_Ok in H as (i & _ & H). apply bind_Ok in H as (owner & _ & H).
  apply bind_Ok in H as (agent & _ & H). apply bind_Ok in H as ([] & _ & H).
  apply bind_Ok in H as (version & _ & H). apply bind_Ok in H as (intent & _ & H).
  apply bind_Ok in H as ([] & _ & H). apply bind_Ok in H as (ps & _ & H).
  apply bind_Ok in H as (es & Hes & H). do 4 (apply bind_Ok in H as ([] & _ & H)).
  apply bind_Ok in H as ([] & Hps & H). apply bind_Ok in H as ([] & _ & [= <-]). cbn.
  split; [done|]. intros p Hp. revert Hps Hp. generalize BASE_RECOVERY_PHASES as l.
  induction l as [|q l IH]; intros Hps Hp; [by apply elem_of_nil in Hp|].
  apply bind_Ok in Hps as ([] & Hq & Hps). apply elem_of_cons in Hp as [->|Hp]; auto.
Qed.

(** The projections are the heads of the events. *)
Lemma phase_of_heads v b p :
  validateBaseRecoveryBundle v = Ok b -> e_state <$> phase_of b p = head_of (kind_of <$> b_events b) p.
Proof.
  intros [_ Hps]%bundle_inv. rewrite <-head_of_latest. unfold phase_of.
  assert (movement p ∈ BASE_RECOVERY_PHASES) as Hin by (destruct p; apply (bool_decide_eq_true _); reflexivity).
  apply Hps in Hin. unfold check_projection in Hin.
  destruct (b_phases b (movement p)) as [e|], (latest_event (movement p) (b_events b)) as [l|]; try done.
  apply bind_Ok in Hin as (same & Heq & Hin). apply refuse_Ok, negb_false_iff in Hin as ->.
  unfold projectionEquivalent in Heq. destruct (_ && _) eqn:Hb in Heq; [|done].
  rewrite !andb_true_iff, !bool_decide_eq_true in Hb. cbn. f_equal. tauto.
Qed.

Lemma events_chain v b : validateBaseRecoveryBundle v = Ok b -> chain None (kind_of <$> b_events b) = true.
Proof.
  intros [H _]%bundle_inv. destruct (v#"events"); try done. apply events_exact in H. tauto.
Qed.

(** ** The step that is left *)

(** What may be done next, told from the last event alone. *)
Definition step_at (h : option (phase * state)) : recovery_action :=
  match h with
  | None => no_movement
  | Some (cctp_burn, (failed | blocked)) => no_movement
  | Some (cctp_burn, confirmed) => poll_attestation
  | Some (cctp_burn, _) => manual_review
  | Some (cctp_attestation, confirmed) => submit_mint
  | Some (cctp_attestation, _) => poll_attestation
  | Some (cctp_mint, confirmed) => submit_base_deposit
  | Some (cctp_mint, (failed | blocked)) => manual_review
  | Some (cctp_mint, _) => poll_mint
  | Some (base_deposit, confirmed) => complete
  | Some (base_deposit, (failed | blocked)) => owner_action
  | Some (base_deposit, _) => poll_base_deposit
  end.

Lemma phase_of_head v b p s :
  validateBaseRecoveryBundle v = Ok b -> last (kind_of <$> b_events b) = Some (p, s) ->
  forall q, e_state <$> phase_of b q
       = if (Outbox.position q <? Outbox.position p)%Z then Some confirmed
         else if (Outbox.position p <? Outbox.position q)%Z then None else Some s.
Proof.
  intros Hb Hl q. rewrite (phase_of_heads v) by done. apply chain_heads; [by eapply events_chain|done].
Qed.

Lemma in_state_of m s l : e_state <$> m = Some s -> in_state m l = bool_decide (s ∈ l).
Proof. by destruct m; intros [= <-]. Qed.

Lemma select_cases v b h :
  validateBaseRecoveryBundle v = Ok b -> last (kind_of <$> b_events b) = Some h ->
  action (select_burn b) <> manual_review -> action (select_burn b) = step_at (Some h).
Proof.
  destruct h as [p s]. intros Hb Hl. pose proof (phase_of_head v b p s Hb Hl) as Hs.
  pose proof (Hs cctp_burn) as H1. pose proof (Hs cctp_attestation) as H2.
  pose proof (Hs cctp_mint) as H3. pose proof (Hs base_deposit) as H4. clear Hs Hl Hb.
  unfold select_burn, confirmed_phase, select_attestation, select_mint, select_deposit, select, manual.
  destruct (phase_of b cctp_burn) as [e1|], (phase_of b cctp_attestation) as [e2|],
    (phase_of b cctp_mint) as [e3|], (phase_of b base_deposit) as [e4|]; destruct p; try done;
    cbn in H1, H2, H3, H4; repeat match goal with H : Some _ = Some _ |- _ => injection H as H end;
    cbn [in_state]; rewrite ?H1, ?H2, ?H3, ?H4.
  all: destruct s; cbn; repeat case_match; done.
Qed.
Lemma select_inv v :
  action (selectBaseChildRecoveryAction v) <> manual_review ->
  exists b, validateBaseRecoveryBundle v = Ok b /\
    ((b_events b = [] /\ action (selectBaseChildRecoveryAction v) = no_movement)
     \/ (b_events b <> [] /\ selectBaseChildRecoveryAction v = select_burn b)).
Proof.
  unfold selectBaseChildRecoveryAction. destruct (validateBaseRecoveryBundle v) as [b|] eqn:Hb; [|done].
  intros Ha. exists b. split; [done|]. destruct (b_events b) as [|e l]; [by left|right].
  split; [done|]. by destruct (existsb _ _).
Qed.

(** Where the events agree on the message that is carried. *)
Definition burn_agrees (b : bundle) : Prop :=
  sameEvidenceFacts (phase_of b cctp_burn) (phase_of b cctp_attestation) ATTESTATION_EVIDENCE = true.
Definition mint_agrees (b : bundle) : Prop :=
  sameEvidenceFacts (phase_of b cctp_attestation) (phase_of b cctp_mint) MINT_EVIDENCE = true
  /\ hasEvidence (phase_of b cctp_mint) "mintTxHash" = true.

(** What the evidence shows where a step is selected. *)
Definition grounds (b : bundle) (a : recovery_action) : Prop :=
  match a with
  | submit_mint | poll_mint => burn_agrees b
  | submit_base_deposit => burn_agrees b /\ mint_agrees b
  | poll_base_deposit =>
      burn_agrees b /\ mint_agrees b /\ safeHandle (phase_of b base_deposit) = true
  | owner_action =>
      burn_agrees b /\ mint_agrees b /\ kernelCustody (phase_of b base_deposit) = true
  | complete => burn_agrees b /\ mint_agrees b /\ exactDeposit b (phase_of b base_deposit) = true
  | _ => True
  end.

Lemma select_grounds b a : action (select_burn b) = a -> a <> manual_review -> grounds b a.
Proof.
  intros <-. unfold select_burn, confirmed_phase, select_attestation, select_mint, select_deposit, select, manual,
    grounds, burn_agrees, mint_agrees.
  repeat first
    [ progress cbn [action]
    | match goal with
      | |- context [match phase_of b cctp_mint with Some _ => _ | None => _ end] => destruct (phase_of b cctp_mint) as [em|]
      | |- context [match phase_of b base_deposit with Some _ => _ | None => _ end] =>
          destruct (phase_of b base_deposit) as [ed|]
      | |- context [if ?c then _ else _] => let E := fresh "E" in destruct c eqn:E
      | |- context [match e_state ?e with _ => _ end] => destruct (e_state e)
      end ]; try done.
  all: zbool; by rewrite ?negb_false_iff in *.
Qed.
Lemma head_cases v b :
  validateBaseRecoveryBundle v = Ok b -> action (selectBaseChildRecoveryAction v) <> manual_review ->
  action (selectBaseChildRecoveryAction v) = step_at (last (kind_of <$> b_events b))
  /\ grounds b (action (selectBaseChildRecoveryAction v)).
Proof.
  intros Hb Ha. destruct (select_inv v Ha) as (b' & Hb' & Hc). assert (b' = b) as -> by congruence.
  destruct Hc as [[-> ->]|[Hne Hs]]; [done|]. rewrite Hs in *. split; [|by apply select_grounds].
  destruct (last (kind_of <$> b_events b)) as [h|] eqn:Hl; [by apply (select_cases v)|].
  apply last_None, fmap_nil_inv in Hl. done.
Qed.

(** C4. The selection implements the table [step_at]: whatever the bundle, if the decision is not
    left to a human, the bundle is valid and the action is the one that the last of its events
    determines, and the evidence it rests on is there: the phases of the message agree on it,
    a mint has its transaction, a pending deposit the handle by which it is polled, a failed
    one the custody of the owner's Kernel, a completed one an event that proves the intent. *)
Theorem selected_step_is_head_step v :
  action (selectBaseChildRecoveryAction v) <> manual_review ->
  exists b, validateBaseRecoveryBundle v = Ok b
    /\ action (selectBaseChildRecoveryAction v) = step_at (last (kind_of <$> b_events b))
    /\ grounds b (action (selectBaseChildRecoveryAction v)).
Proof.
  intros Ha. destruct (select_inv v Ha) as (b & Hb & _). exists b. split; [done|]. by apply head_cases.
Qed.

Lemma step_sends h a p :
  step_at h = a -> a ∈ [submit_mint; submit_base_deposit] -> ACTION_PHASE a = Some p ->
  exists q, h = Some (q, confirmed) /\ Outbox.position q + 1 = Outbox.position p.
Proof.
  intros <- Ha Hp. destruct h as [[q s]|]; [|by rewrite !elem_of_cons, elem_of_nil in Ha; naive_solver].
  exists q. destruct q, s; cbn in Ha, Hp; try (by rewrite !elem_of_cons, elem_of_nil in Ha; naive_solver);
    by injection Hp as <-.
Qed.

(** What a step that sends finds. *)
Lemma sends_first v p :
  action (selectBaseChildRecoveryAction v) ∈ [submit_mint; submit_base_deposit] ->
  ACTION_PHASE (action (selectBaseChildRecoveryAction v)) = Some p ->
  exists b, validateBaseRecoveryBundle v = Ok b
    /\ (forall e, e ∈ b_events b -> Outbox.position (e_phase e) < Outbox.position p)
    /\ (forall q, Outbox.position q < Outbox.position p ->
         exists e, e ∈ b_events b /\ e_phase e = q /\ e_state e = confirmed)
    /\ (forall q, Outbox.position p <= Outbox.position q -> phase_of b q = None).
Proof.
  intros Ha Hp. assert (action (selectBaseChildRecoveryAction v) <> manual_review) as Hm.
  { intros E. rewrite E, !elem_of_cons, elem_of_nil in Ha. naive_solver. }
  destruct (select_inv v Hm) as (b & Hb & _). destruct (head_cases v b Hb Hm) as [Hs _].
  destruct (step_sends _ _ p (eq_sym Hs) Ha Hp) as (q & Hl & Hq). exists b. split; [done|].
  pose proof (chain_heads _ _ _ (events_chain v b Hb) Hl) as Hheads. split_and!.
  - intros e He. assert ((e_phase e, e_state e) ∈ kind_of <$> b_events b) as Hin
      by (apply list_elem_of_fmap; eauto).
    apply elem_head_of in Hin. rewrite Hheads in Hin.
    repeat match type of Hin with context [(?a <? ?b)%Z] => destruct (Z.ltb_spec a b) end; try done; lia.
  - intros r Hr. assert (head_of (kind_of <$> b_events b) r = Some confirmed) as He.
    { rewrite Hheads. repeat match goal with |- context [(?a <? ?b)%Z] => destruct (Z.ltb_spec a b) end; try done; lia. }
    apply head_of_elem, list_elem_of_fmap in He as (e & [= -> ->] & He). eauto.
  - intros r Hr. pose proof (phase_of_head v b _ _ Hb Hl r) as He.
    repeat match type of He with context [(?a <? ?b)%Z] => destruct (Z.ltb_spec a b) end; try lia.
    by destruct (phase_of b r).
Qed.

(** A recovery sends nothing a second time: where it selects to submit the mint or the
    deposit, no event of the child, in any state, is of that phase or of a later one, no
    projection is either, and every earlier phase is confirmed. *)
Theorem recovery_sends_first v p :
  action (selectBaseChildRecoveryAction v) ∈ [submit_mint; submit_base_deposit] ->
  ACTION_PHASE (action (selectBaseChildRecoveryAction v)) = Some p ->
  exists b, validateBaseRecoveryBundle v = Ok b
    /\ (forall e, e ∈ b_events b -> Outbox.position (e_phase e) < Outbox.position p)
    /\ (forall q, Outbox.position q < Outbox.position p ->
         exists e, e ∈ b_events b /\ e_phase e = q /\ e_state e = confirmed)
    /\ (forall q, Outbox.position p <= Outbox.position q -> phase_of b q = None).
Proof. apply sends_first. Qed.

(** ** Evidence that is never accepted *)

(** The grammar of a deposit lets the evidence name the Kernel, and the list of all fields does
    not: evidence with that field is refused in every phase and state.  (A property with an empty name hides the
    others from the check.) *)
Theorem kernel_address_refused ev p s label q :
  has_own ev "kernelAddress" = true -> EmptyString ∉ keys ev -> validateEvidence ev p s label <> Ok q.
Proof.
  intros Hk Hempty H. unfold validateEvidence in H. destruct (negb (is_object ev)); [done|].
  apply bind_Ok in H as (? & _ & H). apply bind_Ok in H as ([] & Ho & _).
  unfold exactObject in Ho. destruct (negb (is_object ev)); [done|].
  assert ("kernelAddress"%string ∈ filter (fun k => k ∉ EVIDENCE_FIELDS) (keys ev)) as Hin.
  { apply list_elem_of_filter. split; [apply (bool_decide_eq_false _); reflexivity|]. by apply has_own_keys. }
  destruct (filter _ _) as [|k l] eqn:E; [by apply elem_of_nil in Hin|].
  apply refuse_Ok, negb_false_iff, bool_decide_eq_true in Ho as ->.
  assert (EmptyString ∈ filter (fun k => k ∉ EVIDENCE_FIELDS) (keys ev)) as Hin' by (rewrite E; apply list_elem_of_here).
  apply list_elem_of_filter in Hin' as [_ ?]. done.
Qed.
End RecoverySafety.
