(* ===== verification/RecoverySample.v ===== *)
(** * Recoveries of one child

    The bundles of a child as its evidence grows, from the confirmed burn to the confirmed
    deposit, and the step that each leaves.  They show that the hypotheses of the theorems
    about recoveries can hold. *)
From S2P Require Export RecoverySafety.

Module RecoverySample.
Export RecoverySafety.
Local Open Scope string_scope.
Local Open Scope list_scope.

Definition hex (n : nat) (c : ascii) : string := string_of (replicate n c).
Definition hash (c : ascii) : string := "0x" +:+ hex 64 c.
Definition kernel : string := "0x00000000000000000000000000000000000000aa".
Definition pool : string := "0x00000000000000000000000000000000000000b2".
Definition router : string := "0xf80aa8f5f80aa8f5f80aa8f5f80aa8f5f80aa8f5".
Definition binding : string := "0123456789abcdef0123456789abcdef".
Definition child : string := "abcdef0123456789abcdef0123456789".
Definition number (z : Z) : val := Number (Num z).

Definition identity : val := Obj [
  ("networkId", Str "stellar-testnet"); ("bindingId", Str binding);
  ("executionId", Str "run-42:exec:run-42:bridge:aave-v3");
  ("allocationId", Str "run-42:bridge:aave-v3"); ("childId", Str child)].
Definition intent : val := Obj [
  ("runId", Str "run-42"); ("grantTxHash", Str (hex 64 "6")); ("bindingHash", Str (hex 64 "d"));
  ("baseJobId", Str child); ("kernelAddress", Str kernel); ("poolAddress", Str pool);
  ("proxyTarget", Str "aave-v3"); ("token", Str "USDC"); ("units", Str "1000000");
  ("decimals", number 6); ("minShares", Str "900000")].

Definition event (p : phase) (s : state) (version : Z) (evidence : list (string * val)) : val := Obj [
  ("identity", identity); ("phase", Str (phase_name p)); ("state", Str (state_name s));
  ("evidence", Obj evidence); ("recoveryVersion", number version);
  ("eventId", Str (hex 64 "0")); ("observedAt", number (2000000000000 + version))].

Definition message : list (string * val) := [
  ("burnTxHash", Str (hex 64 "6")); ("expectationDigest", Str (hex 64 "7"));
  ("messageDigest", Str (hash "8")); ("nonce", Str (hash "7"))].
Definition attested : list (string * val) := message ++ [("attestationDigest", Str (hash "9"))].
Definition deposit : list (string * val) := [
  ("chainId", number 84532); ("yieldRouterAddress", Str router); ("caller", Str kernel);
  ("poolAddress", Str pool); ("assets", Str "1000000"); ("minShares", Str "900000")].
Definition handle : val := Obj [
  ("entryPoint", Str PINNED_ENTRY_POINT); ("sender", Str kernel); ("nonce", Str "3"); ("startBlock", Str "100")].

Definition burnt : val := event cctp_burn confirmed 1 (message ++ [("burnUnits7", Str "10000000")]).
Definition attestation : val :=
  event cctp_attestation confirmed 2 (attested ++ [("evidenceVersion", Str "1")]).
Definition minted : val :=
  event cctp_mint confirmed 3 (attested ++ [("evidenceVersion", Str "1"); ("mintTxHash", Str (hash "a"))]).
Definition fenced : val := event base_deposit submitting 4 (deposit ++ [("reconcileHandle", handle)]).
Definition deposited : val := event base_deposit confirmed 5 (deposit ++ [
  ("shares", Str "990000"); ("userOpHash", Str (hash "b")); ("transactionHash", Str (hash "c"));
  ("event", Obj [("address", Str router); ("topic0", Str (hash "e")); ("logIndex", Str "4");
                 ("caller", Str kernel); ("poolAddress", Str pool); ("assets", Str "1000000");
                 ("shares", Str "990000")])]).

(** The projections of a list of events: the last of each phase. *)
Definition bundle_of (events phases : list val) : val := Obj [
  ("schemaVersion", number 1); ("identity", identity); ("owner", Str "GOWNER"); ("agent", Str "CAGENT");
  ("recoverable", Bool true); ("recoveryVersion", number (Z.of_nat (length events)));
  ("intent", intent); ("phases", Arr phases); ("events", Arr events)].

Definition selected (events phases : list val) : recovery_action :=
  action (selectBaseChildRecoveryAction (bundle_of events phases)).

(** The whole way of one child. *)
Example steps_of_a_child :
  [selected [] []; selected [burnt] [burnt]; selected [burnt; attestation] [burnt; attestation];
   selected [burnt; attestation; minted] [burnt; attestation; minted];
   selected [burnt; attestation; minted; fenced] [burnt; attestation; minted; fenced];
   selected [burnt; attestation; minted; fenced; deposited] [burnt; attestation; minted; deposited]]
  = [no_movement; poll_attestation; submit_mint; submit_base_deposit; poll_base_deposit; complete].
Proof. vm_compute. reflexivity. Qed.

(** A projection that is not the last event of its phase leaves the decision to a human. *)
Example stale_projection :
  selected [burnt; attestation; minted; fenced; deposited] [burnt; attestation; minted; fenced] = manual_review.
Proof. vm_compute. reflexivity. Qed.

Definition before_mint : val := bundle_of [burnt; attestation] [burnt; attestation].
Definition before_deposit : val := bundle_of [burnt; attestation; minted] [burnt; attestation; minted].

Lemma selected_step_is_head_step_witness :
  exists b, validateBaseRecoveryBundle before_deposit = Ok b
    /\ action (selectBaseChildRecoveryAction before_deposit) = step_at (last (kind_of <$> b_events b))
    /\ grounds b (action (selectBaseChildRecoveryAction before_deposit)).
Proof. apply (selected_step_is_head_step before_deposit). vm_compute. discriminate. Defined.

Lemma recovery_sends_first_witness :
  exists b, validateBaseRecoveryBundle before_mint = Ok b
    /\ (forall e, e ∈ b_events b -> Outbox.position (e_phase e) < Outbox.position cctp_mint)
    /\ (forall q, Outbox.position q < Outbox.position cctp_mint ->
         exists e, e ∈ b_events b /\ e_phase e = q /\ e_state e = confirmed)
    /\ (forall q, Outbox.position cctp_mint <= Outbox.position q -> phase_of b q = None).
Proof.
  apply (recovery_sends_first before_mint cctp_mint).
  - replace (action _) with submit_mint by (vm_compute; reflexivity). apply list_elem_of_here.
  - vm_compute. reflexivity.
Defined.

End RecoverySample.
