(* ===== verification/RecoveryWork.v ===== *)
(** * The table of recoveries

    Models [baseRecoveryWorks] of [relayer/src/sqliteStores.mjs]: one row per piece of recovery
    work, its lease, and the tokens of the claims that the process keeps in memory.  A token
    is never written down; a row that lost it waits as [Held] until an owner proves a new claim.
    The token of a lease comes from a generator and is an argument, and so is what [now()]
    returns; SHA-256 is a parameter. *)
From stdpp Require Import sorting.
From S2P Require Export BaseRecovery.

Module Work.
Export Recover.

Inductive work_state := Pending | Running | Held | Done | Uncertain | Blocked | OwnerActionRequired.

#[global] Instance work_state_eq_dec : EqDecision work_state.
Proof. solve_decision. Defined.

Definition RECOVERY_TERMINAL_STATES : list work_state := [Done; Uncertain; Blocked; OwnerActionRequired].
Definition terminal (s : work_state) : bool := bool_decide (s ∈ RECOVERY_TERMINAL_STATES).

(** The columns that the trigger forbids to update. *)
Record facts := {
  workId : string;
  identity : Outbox.identity;
  evidenceVersion : Z;
  action_ : recovery_action;
  mandateId : string;
  farmJobId : option string;
  farmIntentDigest : option string;
  createdAt : Z }.

Record work := {
  about : facts;
  claimTokenDigest : option chars;
  state : work_state;
  attempts : Z;
  leaseOwner : option string;
  leaseToken : option string;
  leaseExpiresAt : option Z;
  checkpointRef : option string;
  reasonCode : option string;
  updatedAt : Z }.

(** The rows by their identifier, and [recoveryClaimTokens]. *)
Record store := {
  rows : gmap string work;
  tokens : gmap string (option string) }.
Definition empty : store := {| rows := ∅; tokens := ∅ |}.

Notation store_result := (result index_error).

Section Work.
Local Open Scope string_scope.
Local Open Scope list_scope.
Context (sha256 : chars -> chars).

(** ** Rows *)
Definition set_rows (s : store) (m : gmap string work) : store := {| rows := m; tokens := tokens s |}.
Definition forget_tokens (s : store) (ids : list string) : store :=
  {| rows := rows s; tokens := foldr delete (tokens s) ids |}.
Definition keep_token (s : store) (id : string) (t : option string) : store :=
  {| rows := rows s; tokens := <[id := t]> (tokens s) |}.

(** [lease_owner=NULL,lease_token=NULL,lease_expires_at=NULL] *)
Definition unleased (w : work) (st : work_state) (at_ : Z) : work := {|
  about := about w; claimTokenDigest := claimTokenDigest w; state := st; attempts := attempts w;
  leaseOwner := None; leaseToken := None; leaseExpiresAt := None;
  checkpointRef := checkpointRef w; reasonCode := reasonCode w; updatedAt := at_ |}.
Definition leased (w : work) (holder token : string) (until at_ : Z) : work := {|
  about := about w; claimTokenDigest := claimTokenDigest w; state := Running; attempts := attempts w + 1;
  leaseOwner := Some holder; leaseToken := Some token; leaseExpiresAt := Some until;
  checkpointRef := checkpointRef w; reasonCode := reasonCode w; updatedAt := at_ |}.
Definition extended (w : work) (until at_ : Z) : work := {|
  about := about w; claimTokenDigest := claimTokenDigest w; state := state w; attempts := attempts w;
  leaseOwner := leaseOwner w; leaseToken := leaseToken w; leaseExpiresAt := Some until;
  checkpointRef := checkpointRef w; reasonCode := reasonCode w; updatedAt := at_ |}.
Definition noted (w : work) (ref reason : option string) (at_ : Z) : work := {|
  about := about w; claimTokenDigest := claimTokenDigest w; state := state w; attempts := attempts w;
  leaseOwner := leaseOwner w; leaseToken := leaseToken w; leaseExpiresAt := leaseExpiresAt w;
  checkpointRef := ref; reasonCode := reason; updatedAt := at_ |}.
Definition granted (w : work) (digest : option chars) : work := {|
  about := about w; claimTokenDigest := digest; state := Pending; attempts := attempts w;
  leaseOwner := leaseOwner w; leaseToken := leaseToken w; leaseExpiresAt := leaseExpiresAt w;
  checkpointRef := checkpointRef w; reasonCode := reasonCode w; updatedAt := updatedAt w |}.
Definition touched (w : work) (at_ : Z) : work := noted w (checkpointRef w) (reasonCode w) at_.

(** The driver does not give an integer beyond 2^53: reading such a row throws. *)
Definition readable (w : work) : bool :=
  isSafeInteger (Num (attempts w)) && isSafeInteger (Num (evidenceVersion (about w)))
  && isSafeInteger (Num (createdAt (about w))) && isSafeInteger (Num (updatedAt w))
  && match leaseExpiresAt w with Some e => isSafeInteger (Num e) | None => true end.

(** [SELECT * FROM base_recovery_work WHERE work_id=?] *)
Definition row (s : store) (id : string) : store_result (option work) :=
  match rows s !! id with
  | Some w => if readable w then Ok (Some w) else Throw TypeError
  | None => Ok None
  end.

(** [CHECK (claim_token_digest IS NULL OR ...)] *)
Definition digest_fits (d : option chars) : bool := match d with Some d => is_hex 64 d | None => true end.

(** What the test of a row rejects: rows written from outside. *)
Definition well_formed (w : work) : bool :=
  let f := about w in
  is_hex 64 (chars_of (workId f)) && bool_decide (action_ f ∈ BASE_RECOVERY_ACTIONS)
  && (0 <=? evidenceVersion f)%Z && (0 <=? attempts w)%Z && (0 <=? createdAt f)%Z && (0 <=? updatedAt w)%Z
  && is_hex 32 (chars_of (mandateId f))
  && forallb (fun t => negb (bool_decide (t = EmptyString))) (Outbox.identityValues (identity f))
  && match farmIntentDigest f with Some d => is_hex 64 (chars_of d) | None => true end
  && digest_fits (claimTokenDigest w).

(** A record shows the columns but the digest of the token. *)
Definition recoveryRecord (m : option work) : store_result (option work) :=
  match m with
  | None => Ok None
  | Some w => if well_formed w then Ok (Some w) else fails "malformed Base recovery work row"
  end.
Definition record_of (s : store) (id : string) : store_result (option work) := w ← row s id; recoveryRecord w.

(** [now ?? now()] *)
Definition recoveryNow (clock value : val) : store_result Z :=
  match coalesce value clock with
  | Number (Num z) =>
      if isSafeInteger (Num z) && (0 <=? z)%Z then Ok z else fails "Base recovery time is invalid"
  | _ => fails "Base recovery time is invalid"
  end.

(** The length of a lease, half a minute where it is not given. *)
Definition lease_length (leaseMs : val) : store_result Z :=
  match leaseMs with
  | Undefined => Ok 30000
  | Number (Num z) => if isSafeInteger (Num z) && (0 <? z)%Z then Ok z else fails "Base recovery lease is invalid"
  | _ => fails "Base recovery lease is invalid"
  end.

Definition recoveryClaimDigest (value : val) : store_result (option chars) :=
  match value with
  | Undefined | Null => Ok None
  | Str t => if is_hex 64 (chars_of t) then Ok (Some (sha256 (chars_of t)))
             else fails "Base recovery claim token is invalid"
  | _ => fails "Base recovery claim token is invalid"
  end.

(** ** Enqueueing *)
Record enqueue_input := {
  i_workId : option string;
  i_identity : val;
  i_evidenceVersion : val;
  i_action : val;
  i_mandateId : val;
  i_farmJobId : option string;
  i_farmIntentDigest : option string;
  i_claimToken : val;
  i_leaseToken : val;
  i_now : val }.

Definition option_val (o : option string) : val := match o with Some t => Str t | None => Null end.

Definition recoveryImmutableMatches (w : work) (id : string) (q : enqueue_input) : bool :=
  let f := about w in
  let i := identity f in
  bool_decide (workId f = id)
  && strict_eq (Str (Outbox.networkId i)) (i_identity q)#"networkId"
  && strict_eq (Str (Outbox.bindingId i)) (i_identity q)#"bindingId"
  && strict_eq (Str (Outbox.executionId i)) (i_identity q)#"executionId"
  && strict_eq (Str (Outbox.allocationId i)) (i_identity q)#"allocationId"
  && strict_eq (Str (Outbox.childId i)) (i_identity q)#"childId"
  && strict_eq (Number (Num (evidenceVersion f))) (i_evidenceVersion q)
  && strict_eq (Str (action_name (action_ f))) (i_action q)
  && strict_eq (Str (mandateId f)) (i_mandateId q)
  && bool_decide (farmJobId f = i_farmJobId q) && bool_decide (farmIntentDigest f = i_farmIntentDigest q).

Definition work_id (q : enqueue_input) : store_result string :=
  string_of <$> computeBaseRecoveryWorkId sha256 (i_identity q) (i_evidenceVersion q) (i_action q).

(** [UNIQUE(network_id,...,evidence_version,action)] *)
Definition same_work (f g : facts) : bool :=
  bool_decide (identity f = identity g) && (evidenceVersion f =? evidenceVersion g)%Z
  && bool_decide (action_ f = action_ g).

(** The row of [INSERT]; the values have been validated for the identifier. *)
Definition new_work (id : string) (q : enqueue_input) (at_ : Z) : store_result work :=
  i ← validateIdentity (i_identity q) "identity";
  version ← requireSafeInteger (i_evidenceVersion q) "evidenceVersion";
  mandateId ← requireText (i_mandateId q) "mandateId";
  digest ← recoveryClaimDigest (coalesce (i_claimToken q) (i_leaseToken q));
  match member_action (i_action q) with
  | None => fails "Base recovery action is invalid"
  | Some a =>
      Ok {| about := {| workId := id; identity := i; evidenceVersion := version; action_ := a;
                        mandateId := mandateId; farmJobId := i_farmJobId q;
                        farmIntentDigest := i_farmIntentDigest q; createdAt := at_ |};
            claimTokenDigest := digest; state := Pending; attempts := 0; leaseOwner := None;
            leaseToken := None; leaseExpiresAt := None; checkpointRef := None; reasonCode := None;
            updatedAt := at_ |}
  end.

Definition insert_work (s : store) (w : work) : store_result store :=
  if negb (is_hex 64 (chars_of (workId (about w)))) || negb (digest_fits (claimTokenDigest w))
     || existsb (fun w' => same_work (about w') (about w)) (map_to_list (rows s)).*2
  then Outbox.constraint
  else Ok (set_rows s (<[workId (about w) := w]> (rows s))).

Definition transaction {A} (s : store) (m : store_result (A * store)) : store_result A * store :=
  match m with Ok (a, s') => (Ok a, s') | Throw e => (Throw e, s) end.

(** The body of the transaction.  What it reads last is the row it inserted, which can be read,
    so that no token is kept where it throws. *)
Definition enqueue_in (s : store) (id : string) (q : enqueue_input) (at_ : Z)
    : store_result (option work * store) :=
  existing ← row s id;
  match existing with
  | Some w =>
      if negb (recoveryImmutableMatches w id q) then fails "immutable Base recovery work conflict"
      else r ← recoveryRecord (Some w); Ok (r, s)
  | None =>
      computed ← work_id q;
      if negb (bool_decide (id = computed)) then fails "Base recovery work ID mismatch"
      else
        w ← new_work id q at_;
        s ← insert_work s w;
        let s := match coalesce (i_claimToken q) (i_leaseToken q) with
                 | Str t => keep_token s id (Some t)
                 | _ => s
                 end in
        r ← record_of s id; Ok (r, s)
  end.

Definition enqueue (clock : val) (s : store) (q : enqueue_input) : store_result (option work) * store :=
  transaction s (
    _ ← (match i_identity q with Obj _ | Arr _ => Ok tt | _ => fails "Base recovery identity is required" end);
    id ← (match i_workId q with Some id => Ok id | None => work_id q end);
    _ ← (match i_mandateId q with
         | Str t => refuse (negb (is_hex 32 (chars_of t))) "mandateId is invalid"
         | _ => fails "mandateId is invalid"
         end);
    _ ← refuse (match i_farmIntentDigest q with Some d => negb (is_hex 64 (chars_of d)) | None => false end)
          "farmIntentDigest is invalid";
    at_ ← recoveryNow clock (i_now q);
    enqueue_in s id q at_).

(** ** Leases *)
Definition is_expired (at_ : Z) (w : work) : bool :=
  bool_decide (state w = Running) && match leaseExpiresAt w with Some e => (e <=? at_)%Z | None => false end.

(** [UPDATE ... SET ... WHERE ...] *)
Definition update (p : work -> bool) (f : work -> work) (m : gmap string work) : gmap string work :=
  (fun w => if p w then f w else w) <$> m.
Definition ids_of (p : work -> bool) (m : gmap string work) : list string :=
  (filter (fun w => p w.2 = true) (map_to_list m)).*1.

(** [pending AND (lease_token IS NULL OR lease_expires_at<=?)] *)
Definition claimable (at_ : Z) (w : work) : bool :=
  bool_decide (state w = Pending)
  && (bool_decide (leaseToken w = None)
      || match leaseExpiresAt w with Some e => (e <=? at_)%Z | None => false end).

(** [leased]: the row that [UPDATE ... RETURNING *] gives. *)
Definition claim (clock : val) (s : store) (id : string) (holder now leaseMs : val) (token : string)
    : store_result (option work) * store :=
  let checked :=
    holder ← requireText holder "Base recovery lease holder";
    ms ← lease_length leaseMs;
    at_ ← recoveryNow clock now;
    Ok (holder, ms, at_) in
  match checked with
  | Throw e => (Throw e, s)
  | Ok (holder, ms, at_) =>
      let expired := ids_of (is_expired at_) (rows s) in
      let m := update (is_expired at_) (fun w => unleased w Held at_) (rows s) in
      match m !! id with
      | Some w =>
          if claimable at_ w then
            let w' := leased w holder token (at_ + ms)%Z at_ in
            if readable w' then (recoveryRecord (Some w'), forget_tokens (set_rows s (<[id := w']> m)) expired)
            else (Throw TypeError, s)
          else (Ok None, forget_tokens (set_rows s m) expired)
      | None => (Ok None, forget_tokens (set_rows s m) expired)
      end
  end.

(** [running AND lease_owner=? AND lease_token=? AND lease_expires_at>?] *)
Definition holds (holder token : string) (at_ : Z) (w : work) : bool :=
  bool_decide (state w = Running) && bool_decide (leaseOwner w = Some holder)
  && bool_decide (leaseToken w = Some token)
  && match leaseExpiresAt w with Some e => (at_ <? e)%Z | None => false end.

(** A statement on the row whose lease is shown: the row after it, where it changes one. *)
Definition on_lease (s : store) (id holder token : string) (at_ : Z) (f : work -> work) : option store :=
  match rows s !! id with
  | Some w => if holds holder token at_ w then Some (set_rows s (<[id := f w]> (rows s))) else None
  | None => None
  end.

Definition answered (id : string) (s : store) (changed : option store) (drop : bool)
    : store_result (option work) * store :=
  match changed with
  | Some s' =>
      let s' := if drop then forget_tokens s' [id] else s' in
      (record_of s' id, s')
  | None => (Ok None, s)
  end.

(** The first error of the checks leaves the store alone. *)
Definition checked {A B} (s : store) (m : store_result A) (k : A -> store_result B * store)
    : store_result B * store :=
  match m with Ok a => k a | Throw e => (Throw e, s) end.

Definition heartbeat (clock : val) (s : store) (id holder token : string) (now leaseMs : val)
    : store_result (option work) * store :=
  checked s (lease_length leaseMs) (fun ms =>
  checked s (recoveryNow clock now) (fun at_ =>
  answered id s (on_lease s id holder token at_ (fun w => extended w (at_ + ms)%Z at_)) false)).

Definition checkpoint (clock : val) (s : store) (id holder token : string) (ref reason : option string) (now : val)
    : store_result (option work) * store :=
  checked s (recoveryNow clock now) (fun at_ =>
  answered id s (on_lease s id holder token at_ (fun w => noted w ref reason at_)) false).

Definition hold (clock : val) (s : store) (id holder token : string) (reason : option string) (now : val)
    : store_result (option work) * store :=
  checked s (recoveryNow clock now) (fun at_ =>
  answered id s
    (on_lease s id holder token at_ (fun w => unleased (noted w (checkpointRef w) reason at_) Held at_)) true).

Definition finish (clock : val) (s : store) (id holder token : string) (st : work_state)
    (reason ref : option string) (now : val) : store_result (option work) * store :=
  if negb (terminal st) then (fails "Base recovery terminal state is invalid", s)
  else
    checked s (recoveryNow clock now) (fun at_ =>
    match on_lease s id holder token at_ (fun w => unleased (noted w ref reason at_) st at_) with
    | Some s' => answered id s (Some s') true
    | None =>
        (r ← row s id;
         match r with
         | Some w => if terminal (state w) then recoveryRecord (Some w) else Ok None
         | None => Ok None
         end, s)
    end).

(** ** Grants: a claim that its owner has proved *)
Definition token_text (claimToken : val) : option string := match claimToken with Str t => Some t | _ => None end.

Definition reopen (clock : val) (s : store) (id : string) (claimToken : val) (proven : bool) (now : val)
    : store_result (option work) * store :=
  checked s (recoveryNow clock now) (fun at_ =>
  checked s (recoveryClaimDigest claimToken) (fun digest =>
  match rows s !! id with
  | Some w =>
      if negb (bool_decide (state w = Held) && proven) then (Ok None, s)
      else if negb (digest_fits digest) then (Outbox.constraint, s)
      else
        let s' := keep_token (set_rows s (<[id := touched (granted w digest) at_]> (rows s))) id (token_text claimToken) in
        (record_of s' id, s')
  | None => (Ok None, s)
  end)).

Definition reopenHeld := reopen.

(** The three columns are empty, or the lease has run out. *)
Definition lease_free (at_ : Z) (w : work) : bool :=
  (bool_decide (leaseOwner w = None) && bool_decide (leaseToken w = None) && bool_decide (leaseExpiresAt w = None))
  || match leaseExpiresAt w with Some e => (e <=? at_)%Z | None => false end.

Definition reattachProven (clock : val) (s : store) (id : string) (claimToken : val) (proven : bool) (now : val)
    : store_result (option work) * store :=
  if negb proven then (Ok None, s)
  else
    checked s (recoveryNow clock now) (fun at_ =>
    checked s (recoveryClaimDigest claimToken) (fun digest =>
    match rows s !! id with
    | Some w =>
        if negb (bool_decide (state w ∈ [Pending; Held]) && lease_free at_ w) then (Ok None, s)
        else if negb (digest_fits digest) then (Outbox.constraint, s)
        else
          let s' := keep_token (set_rows s (<[id := unleased (granted w digest) Pending at_]> (rows s))) id
                      (token_text claimToken) in
          (record_of s' id, s')
    | None => (Ok None, s)
    end)).

(** ** Orders and lists *)
Definition order := work -> work -> bool.
Definition by_key (key : work -> Z) (next : order) : order := fun a b =>
  (key a <? key b)%Z || ((key a =? key b)%Z && next a b).
Definition by_id : order := fun a b => String.leb (workId (about a)) (workId (about b)).
Definition by_created : order := by_key (fun w => createdAt (about w)) by_id.
Definition by_expiry : order := by_key (fun w => default 0%Z (leaseExpiresAt w)) by_created.

(** [SELECT * ... WHERE keep ORDER BY cmp] *)
Definition sorted_rows (keep : work -> bool) (cmp : order) (s : store) : list work :=
  filter (fun w => keep w = true) (merge_sort (fun a b => Is_true (cmp a b)) (map_to_list (rows s)).*2).

Definition require_limit (limit : val) : store_result nat :=
  match limit with
  | Undefined => Ok 100%nat
  | Number (Num z) =>
      if isSafeInteger (Num z) && (1 <=? z)%Z && (z <=? 1000)%Z then Ok (Z.to_nat z)
      else fails "Base recovery limit is invalid"
  | _ => fails "Base recovery limit is invalid"
  end.

Definition reconcileExpired (clock : val) (s : store) (now limit : val) : store_result nat * store :=
  checked s (recoveryNow clock now) (fun at_ =>
  checked s (require_limit limit) (fun limit =>
  let ids := workId ∘ about <$> take limit (sorted_rows (is_expired at_) by_expiry s) in
  let m := update (fun w => bool_decide (workId (about w) ∈ ids)) (fun w => unleased w Held at_) (rows s) in
  (Ok (length ids), forget_tokens (set_rows s m) ids))).

Definition recoverable_row (w : work) : bool := bool_decide (state w ∈ [Pending; Held]).
Definition has_token (s : store) (w : work) : bool := bool_decide (is_Some (tokens s !! workId (about w))).

(** [created_at > ? OR (created_at=? AND work_id>?)] *)
Definition after_cursor (cursor : option work) (w : work) : bool :=
  match cursor with Some c => negb (by_created w c) | None => true end.

Definition page (s : store) (limit : nat) (cursor : option work) : store_result (list work) :=
  let l := take limit (sorted_rows (fun w => recoverable_row w && after_cursor cursor w) by_created s) in
  if forallb readable l then Ok l else Throw TypeError.

(** The rows of a page that have a token and can be read, while there is room. *)
Fixpoint collect (s : store) (limit : nat) (recoverable l : list work) : list work :=
  match l with
  | [] => recoverable
  | w :: l =>
      if has_token s w && well_formed w then
        let recoverable := recoverable ++ [w] in
        if (limit <=? length recoverable)%nat then recoverable else collect s limit recoverable l
      else collect s limit recoverable l
  end.

(** The pages, one unit of fuel for each. *)
Fixpoint pages (fuel : nat) (s : store) (limit : nat) (cursor : option work) (recoverable : list work)
    : store_result (list work) :=
  match fuel with
  | O => Ok recoverable
  | S fuel =>
      if (length recoverable <? limit)%nat then
        l ← page s limit cursor;
        match last l with
        | None => Ok recoverable
        | Some c =>
            let recoverable := collect s limit recoverable l in
            if (length l <? limit)%nat then Ok recoverable else pages fuel s limit (Some c) recoverable
        end
      else Ok recoverable
  end.

(** Every page but the last is full, so that there are no more pages than rows and one; that the
    fuel is enough is proved with [listing_complete]. *)
Definition listRecoverable (clock : val) (s : store) (now limit : val) : store_result (list work) * store :=
  match reconcileExpired clock s (coalesce now clock) limit with
  | (Throw e, s) => (Throw e, s)
  | (Ok _, s) =>
      checked s (require_limit limit) (fun limit => (pages (S (S (size (rows s)))) s limit None [], s))
  end.

(** ** Reading *)
Definition get_work (s : store) (id : string) : store_result (option work) := record_of s id.
Definition getClaimToken (s : store) (id : string) : option string := default None (tokens s !! id).

Record status_view := {
  st_workId : string; st_state : work_state; st_attempts : Z; st_evidenceVersion : Z; st_action : recovery_action }.
Definition status (s : store) (id : string) : store_result (option status_view) :=
  m ← row s id;
  Ok (w ← m;
      Some {| st_workId := workId (about w); st_state := state w; st_attempts := attempts w;
              st_evidenceVersion := evidenceVersion (about w); st_action := action_ (about w) |}).

(** ** The opening of the store: the rows stay, the tokens of the process do not. *)
Definition reopened (at_ : Z) (w : work) : bool :=
  bool_decide (state w = Pending)
  || (bool_decide (state w = Running)
      && match leaseExpiresAt w with Some e => (e <=? at_)%Z | None => true end).
Definition open (s : store) (now1 now2 : Z) : store :=
  {| rows := update (reopened now2) (fun w => unleased w Held now1) (rows s); tokens := ∅ |}.

(** ** Calls *)
Inductive call :=
| Enqueue (q : enqueue_input)
| Get (id : string)
| GetClaimToken (id : string)
| Claim (id : string) (holder now leaseMs : val) (token : string)
| Heartbeat (id holder token : string) (now leaseMs : val)
| Checkpoint (id holder token : string) (ref reason : option string) (now : val)
| Hold (id holder token : string) (reason : option string) (now : val)
| Finish (id holder token : string) (st : work_state) (reason ref : option string) (now : val)
| Reopen (id : string) (claimToken : val) (proven : bool) (now : val)
| ReattachProven (id : string) (claimToken : val) (proven : bool) (now : val)
| ReconcileExpired (now limit : val)
| ListRecoverable (now limit : val)
| Open (now1 now2 : Z).

(** The record a call gives, for the calls that give one. *)
Definition perform (clock : val) (s : store) (c : call) : store_result (option work) * store :=
  match c with
  | Enqueue q => enqueue clock s q
  | Get id => (get_work s id, s)
  | GetClaimToken _ => (Ok None, s)
  | Claim id holder now leaseMs token => claim clock s id holder now leaseMs token
  | Heartbeat id holder token now leaseMs => heartbeat clock s id holder token now leaseMs
  | Checkpoint id holder token ref reason now => checkpoint clock s id holder token ref reason now
  | Hold id holder token reason now => hold clock s id holder token reason now
  | Finish id holder token st reason ref now => finish clock s id holder token st reason ref now
  | Reopen id t proven now => reopen clock s id t proven now
  | ReattachProven id t proven now => reattachProven clock s id t proven now
  | ReconcileExpired now limit => (Ok None, (reconcileExpired clock s now limit).2)
  | ListRecoverable now limit => (Ok None, (listRecoverable clock s now limit).2)
  | Open now1 now2 => (Ok None, open s now1 now2)
  end.
Definition after (clock : val) (s : store) (c : call) : store := (perform clock s c).2.

End Work.
End Work.
