(* ===== verification/WorkSafety.v ===== *)
(** * What holds of every use of the table of recoveries

    A row moves between few states and ends once, the facts of a piece of work never change,
    and work is claimed at most once for each claim that its owner has proved. *)
From S2P Require Export RecoveryWork.

Module WorkSafety.
Export Work.

Section Safety.
Context (sha256 : chars -> chars).
Notation after := (after sha256).
Notation perform := (perform sha256).

(** ** How a row moves *)

(** The call carries a proof for the work. *)
Definition grants (id : string) (c : call) : bool :=
  match c with
  | Reopen id' _ proven _ | ReattachProven id' _ proven _ => proven && bool_decide (id' = id)
  | _ => false
  end.
Definition claims (id : string) (c : call) : bool :=
  match c with Claim id' _ _ _ _ => bool_decide (id' = id) | _ => false end.

Inductive moved (c : call) (id : string) (w : work) : work -> Prop :=
| mv_claim holder token until at_ : claims id c = true -> state w = Pending ->
    moved c id w (leased w holder token until at_)
| mv_beat until at_ : state w = Running -> moved c id w (extended w until at_)
| mv_note ref reason at_ : state w = Running -> moved c id w (noted w ref reason at_)
| mv_wait reason at_ : state w = Pending \/ state w = Running ->
    moved c id w (unleased (noted w (checkpointRef w) reason at_) Held at_)
| mv_finish st ref reason at_ : state w = Running -> terminal st = true ->
    moved c id w (unleased (noted w ref reason at_) st at_)
| mv_reopen digest at_ : grants id c = true -> state w = Held ->
    moved c id w (touched (granted w digest) at_)
| mv_reattach digest at_ : grants id c = true -> state w = Pending \/ state w = Held ->
    moved c id w (unleased (granted w digest) Pending at_).

(** A row as it is inserted. *)
Definition new_row (c : call) (id : string) (w : work) : Prop :=
  (exists q, c = Enqueue q) /\ workId (about w) = id /\ state w = Pending /\ attempts w = 0
  /\ leaseOwner w = None /\ leaseToken w = None /\ leaseExpiresAt w = None.

(** What a call makes of the rows. *)
Definition steps (c : call) (m m' : gmap string work) : Prop :=
  forall id,
    match m !! id, m' !! id with
    | None, None => True
    | None, Some w' => new_row c id w'
    | Some w, Some w' => w' = w \/ moved c id w w'
    | Some _, None => False
    end.

Lemma steps_refl c m : steps c m m.
Proof. intros id. destruct (m !! id); [by left|done]. Qed.

Lemma steps_update c m p f :
  (forall id w, m !! id = Some w -> p w = true -> moved c id w (f w)) -> steps c m (update p f m).
Proof.
  intros H id. unfold update. rewrite lookup_fmap. destruct (m !! id) as [w|] eqn:E; cbn; [|done].
  destruct (p w) eqn:Hp; [right; eauto|by left].
Qed.

Lemma steps_insert c m id w w' : m !! id = Some w -> moved c id w w' -> steps c m (<[id := w']> m).
Proof.
  intros Hw Hm id'. destruct (decide (id' = id)) as [->|E].
  - rewrite lookup_insert_eq, Hw. by right.
  - rewrite lookup_insert_ne by done. apply steps_refl.
Qed.

(** Rows are filed under their identifiers. *)
Definition filed (s : store) : Prop := forall id w, rows s !! id = Some w -> workId (about w) = id.

Lemma work_moved_about c id w w' : moved c id w w' -> about w' = about w.
Proof. by destruct 1. Qed.

Lemma work_filed_steps c s s' : filed s -> steps c (rows s) (rows s') -> filed s'.
Proof.
  intros Hf Hs id w' Hw'. specialize (Hs id). rewrite Hw' in Hs. destruct (rows s !! id) as [w|] eqn:Hw.
  - destruct Hs as [->|Hm]; [by apply Hf|]. rewrite (work_moved_about _ _ _ _ Hm). by apply Hf.
  - apply Hs.
Qed.

(** ** Every call *)
Lemma is_expired_running at_ w : is_expired at_ w = true -> state w = Running.
Proof. unfold is_expired. rewrite andb_true_iff, bool_decide_eq_true. tauto. Qed.

Lemma mv_expire c id w at_ : state w = Pending \/ state w = Running -> moved c id w (unleased w Held at_).
Proof. intros H. exact (mv_wait c id w (reasonCode w) at_ H). Qed.

Lemma holds_running h t at_ w : holds h t at_ w = true -> state w = Running.
Proof. unfold holds. rewrite !andb_true_iff, bool_decide_eq_true. tauto. Qed.

Lemma on_lease_steps c s id h t at_ f s' :
  on_lease s id h t at_ f = Some s' ->
  (forall w, rows s !! id = Some w -> state w = Running -> moved c id w (f w)) ->
  steps c (rows s) (rows s') /\ tokens s' = tokens s.
Proof.
  unfold on_lease. destruct (rows s !! id) as [w|] eqn:Hw; [|done].
  destruct (holds h t at_ w) eqn:Hh; [|done]. intros [= <-] Hm. split; [|done].
  eapply steps_insert; [done|]. apply Hm; [done|]. by eapply holds_running.
Qed.

Lemma new_work_row id q at_ w : new_work sha256 id q at_ = Ok w -> new_row (Enqueue q) id w.
Proof.
  unfold new_work. intros H. do 4 (apply bind_Ok in H as (? & _ & H)).
  destruct (member_action _) as [a|]; [|done]. injection H as <-. by split; [eauto|].
Qed.

(** The rows and the tokens after an accepted [enqueue]. *)
Lemma enqueue_in_inv s id q at_ r s' :
  enqueue_in sha256 s id q at_ = Ok (r, s') ->
  s' = s
  \/ exists w, rows s !! id = None /\ new_row (Enqueue q) id w /\ rows s' = <[id := w]> (rows s)
       /\ (tokens s' = tokens s \/ exists t, tokens s' = <[id := t]> (tokens s)).
Proof.
  unfold enqueue_in. intros H. apply bind_Ok in H as ([w|] & Hrow & H).
  - destruct (negb _); [done|]. apply bind_Ok in H as (? & _ & [= <- <-]). by left.
  - apply bind_Ok in H as (computed & _ & H). destruct (negb _); [done|].
    apply bind_Ok in H as (w & Hw & H). apply bind_Ok in H as (s1 & Hi & H).
    apply bind_Ok in H as (r' & _ & [= _ <-]). right. exists w. apply new_work_row in Hw.
    assert (rows s !! id = None) as Hnone.
    { unfold row in Hrow. destruct (rows s !! id) as [x|]; [by destruct (readable x)|done]. }
    unfold insert_work in Hi. destruct (_ || _); [done|]. injection Hi as <-.
    assert (workId (about w) = id) as -> by apply Hw.
    split_and!; [done|done| |].
    + by destruct (coalesce _ _).
    + destruct (coalesce _ _); eauto.
Qed.

Lemma enqueue_inv clock s q :
  let s' := (enqueue sha256 clock s q).2 in
  s' = s
  \/ exists id w, rows s !! id = None /\ new_row (Enqueue q) id w /\ rows s' = <[id := w]> (rows s)
       /\ (tokens s' = tokens s \/ exists t, tokens s' = <[id := t]> (tokens s)).
Proof.
  unfold enqueue, transaction. destruct (_ ≫= _) as [[r s']|] eqn:H; [|by left].
  apply bind_Ok in H as ([] & _ & H). apply bind_Ok in H as (id & _ & H).
  apply bind_Ok in H as ([] & _ & H). apply bind_Ok in H as ([] & _ & H). apply bind_Ok in H as (at_ & _ & H).
  apply enqueue_in_inv in H as [->|(w & H)]; [by left|right]. eauto.
Qed.

Lemma steps_new c m id w : m !! id = None -> new_row c id w -> steps c m (<[id := w]> m).
Proof.
  intros Hn Hw id'. destruct (decide (id' = id)) as [->|E].
  - by rewrite lookup_insert_eq, Hn.
  - rewrite lookup_insert_ne by done. apply steps_refl.
Qed.

Lemma steps_enqueue clock s q : steps (Enqueue q) (rows s) (rows (enqueue sha256 clock s q).2).
Proof.
  destruct (enqueue_inv clock s q) as [->|(id & w & Hn & Hw & -> & _)]; [apply steps_refl|].
  by apply steps_new.
Qed.

(** *** The tokens of the process: every token belongs to work that is pending or running. *)
Definition backed (s : store) : Prop :=
  forall id t, tokens s !! id = Some t ->
    exists w, rows s !! id = Some w /\ (state w = Pending \/ state w = Running).

(** Lease columns are filled together, where the work runs. *)
Definition lease_shape (w : work) : Prop :=
  if decide (state w = Running)
  then is_Some (leaseOwner w) /\ is_Some (leaseToken w) /\ is_Some (leaseExpiresAt w)
  else leaseOwner w = None /\ leaseToken w = None /\ leaseExpiresAt w = None.

Lemma moved_shape c id w w' : lease_shape w -> moved c id w w' -> lease_shape w'.
Proof.
  intros Hs Hm. unfold lease_shape in *.
  destruct Hm as [| | |??[Hst|Hst]|st ??? Hst Ht|?? _ Hst|?? _ [Hst|Hst]]; cbn in *;
    repeat match goal with H : state w = _ |- _ => rewrite H in * end; cbn in *; try done; try (split_and!; by eauto).
  - destruct Hs as (? & ? & ?). split_and!; eauto.
  - by destruct st.
Qed.

Lemma lookup_forget l (m : gmap string (option string)) id :
  foldr delete m l !! id = if decide (id ∈ l) then None else m !! id.
Proof.
  induction l as [|x l IH]; cbn.
  - destruct (decide _) as [H|]; [by apply elem_of_nil in H|done].
  - destruct (decide (id = x)) as [->|E].
    + rewrite lookup_delete_eq, decide_True; [done|]. apply list_elem_of_here.
    + rewrite lookup_delete_ne, IH by done. destruct (decide (id ∈ l)).
      * rewrite decide_True; [done|]. by apply list_elem_of_further.
      * rewrite decide_False; [done|]. by intros [?|?]%elem_of_cons.
Qed.

Lemma elem_of_ids p (m : gmap string work) id : id ∈ ids_of p m <-> exists w, m !! id = Some w /\ p w = true.
Proof.
  unfold ids_of. rewrite list_elem_of_fmap. split.
  - intros ([id' w] & -> & H). apply list_elem_of_filter in H as [Hp H]. apply elem_of_map_to_list in H. eauto.
  - intros (w & Hm & Hp). exists (id, w). split; [done|]. apply list_elem_of_filter. split; [done|].
    by apply elem_of_map_to_list.
Qed.

(** A token that is kept belongs to a row that the call made pending. *)
Lemma backed_insert s s' id w :
  backed s -> rows s' = <[id := w]> (rows s) -> state w = Pending \/ state w = Running ->
  (tokens s' = tokens s \/ exists t, tokens s' = <[id := t]> (tokens s)) -> backed s'.
Proof.
  intros Hb Hr Hw Ht id' t Hid. rewrite Hr. destruct (decide (id' = id)) as [->|E].
  - rewrite lookup_insert_eq. eauto.
  - rewrite lookup_insert_ne by done. destruct Ht as [Ht|[t' Ht]]; rewrite Ht in Hid; [by apply (Hb _ t)|].
    rewrite lookup_insert_ne in Hid by done. by apply (Hb _ t).
Qed.

Lemma backed_drop s s' id w :
  backed s -> rows s' = <[id := w]> (rows s) -> tokens s' = delete id (tokens s) -> backed s'.
Proof.
  intros Hb Hr Ht id' t Hid. rewrite Hr. rewrite Ht in Hid. destruct (decide (id' = id)) as [->|E].
  - by rewrite lookup_delete_eq in Hid.
  - rewrite lookup_delete_ne in Hid by done. rewrite lookup_insert_ne by done. by apply (Hb _ t).
Qed.

(** What a call keeps. *)
Definition keeps (c : call) (s s' : store) : Prop :=
  steps c (rows s) (rows s') /\ (backed s -> backed s').

Lemma keeps_refl c s : keeps c s s.
Proof. split; [apply steps_refl|done]. Qed.

Lemma keeps_enqueue clock s q : keeps (Enqueue q) s (enqueue sha256 clock s q).2.
Proof.
  split; [apply steps_enqueue|].
  destruct (enqueue_inv clock s q) as [->|(id & w & Hn & Hw & Hr & Ht)]; [done|].
  intros Hb. eapply backed_insert; [done|done| |done]. left. apply Hw.
Qed.

Lemma keeps_row c s id w w' :
  rows s !! id = Some w -> moved c id w w' -> (state w' = Pending \/ state w' = Running) ->
  keeps c s (set_rows s (<[id := w']> (rows s))).
Proof.
  intros Hw Hm Hst. split; [by eapply steps_insert|]. intros Hb.
  eapply backed_insert; [done|done|done|by left].
Qed.

Lemma keeps_row_token c s id w w' t :
  rows s !! id = Some w -> moved c id w w' -> (state w' = Pending \/ state w' = Running) ->
  keeps c s (keep_token (set_rows s (<[id := w']> (rows s))) id t).
Proof.
  intros Hw Hm Hst. split; [by eapply steps_insert|]. intros Hb.
  eapply backed_insert; [done|done|done|]. right. by exists t.
Qed.

Lemma keeps_row_drop c s id w w' :
  rows s !! id = Some w -> moved c id w w' ->
  keeps c s (forget_tokens (set_rows s (<[id := w']> (rows s))) [id]).
Proof.
  intros Hw Hm. split; [by eapply steps_insert|]. intros Hb.
  by eapply backed_drop.
Qed.

(** Expired rows are held and their tokens forgotten. *)
Lemma keeps_expire c s p at_ ids :
  (forall id w, rows s !! id = Some w -> p w = true -> state w = Pending \/ state w = Running) ->
  (forall id w, rows s !! id = Some w -> p w = true -> id ∈ ids) ->
  keeps c s (forget_tokens (set_rows s (update p (fun w => unleased w Held at_) (rows s))) ids).
Proof.
  intros Hp Hids. split.
  - apply steps_update. intros id w Hw H. apply mv_expire. eauto.
  - intros Hb id t Hid. cbn in Hid. rewrite lookup_forget in Hid. destruct (decide _) as [|Hn]; [done|].
    destruct (Hb id t Hid) as (w & Hw & Hst). exists w. split; [|done].
    cbn. unfold update. rewrite lookup_fmap, Hw. cbn. destruct (p w) eqn:E; [|done]. by destruct Hn; eauto.
Qed.

Lemma keeps_claim clock s id holder now leaseMs token :
  keeps (Claim id holder now leaseMs token) s (claim clock s id holder now leaseMs token).2.
Proof.
  set (c := Claim id holder now leaseMs token). unfold claim. destruct (_ ≫= _) as [[[h ms] at_]|]; [|apply keeps_refl].
  set (m := update _ _ _). set (ids := ids_of _ _).
  assert (keeps c s (forget_tokens (set_rows s m) ids)) as Hk.
  { apply keeps_expire; [by intros; right; eapply is_expired_running|].
    intros id' w Hw Hp. apply elem_of_ids. eauto. }
  destruct (m !! id) as [w|] eqn:Hw; [|done]. destruct (claimable at_ w) eqn:Hc; [|done].
  destruct (readable _); [|apply keeps_refl]. cbn.
  apply andb_true_iff in Hc as [Hst _]. apply bool_decide_eq_true in Hst.
  assert (rows s !! id = Some w) as Hw0.
  { unfold m, update in Hw. rewrite lookup_fmap in Hw. destruct (rows s !! id) as [w0|]; [|done].
    injection Hw as <-. by destruct (is_expired at_ w0). }
  destruct Hk as [Hs Hb]. split.
  - intros id'. specialize (Hs id'). cbn in *. destruct (decide (id' = id)) as [->|E].
    + rewrite lookup_insert_eq, Hw0. right. apply mv_claim; [by apply bool_decide_eq_true|done].
    + by rewrite lookup_insert_ne.
  - intros Hb0 id' t Hid. destruct (Hb Hb0 id' t Hid) as (w' & Hw' & Hst'). cbn in *.
    destruct (decide (id' = id)) as [->|E]; [rewrite lookup_insert_eq; eauto|].
    rewrite lookup_insert_ne by done. eauto.
Qed.

(** A statement on a leased row. *)
Lemma keeps_leased c s id h t at_ f drop r s' :
  answered id s (on_lease s id h t at_ f) drop = (r, s') ->
  (forall w, state w = Running -> moved c id w (f w)) ->
  (drop = true \/ forall w, state w = Running -> state (f w) = Running) ->
  keeps c s s'.
Proof.
  unfold answered, on_lease. destruct (rows s !! id) as [w|] eqn:Hw; [|by intros [= <- <-] ??; apply keeps_refl].
  destruct (holds h t at_ w) eqn:Hh; [|by intros [= <- <-] ??; apply keeps_refl].
  apply holds_running in Hh. intros [= _ <-] Hm Hst. destruct drop.
  - eapply keeps_row_drop; [done|auto].
  - destruct Hst as [|Hst]; [done|]. eapply keeps_row; [done|auto|auto].
Qed.

Lemma checked_snd {A B} s (m : store_result A) (k : A -> store_result B * store) (P : store -> Prop) :
  P s -> (forall a, P (k a).2) -> P (checked s m k).2.
Proof. by destruct m; cbn. Qed.

Lemma keeps_heartbeat clock s id h t now leaseMs :
  keeps (Heartbeat id h t now leaseMs) s (heartbeat clock s id h t now leaseMs).2.
Proof.
  unfold heartbeat. apply checked_snd; [apply keeps_refl|intros ms]. apply checked_snd; [apply keeps_refl|intros at_].
  destruct (answered _ _ _ _) as [r s'] eqn:E. eapply keeps_leased; [exact E|by constructor|by right].
Qed.

Lemma keeps_checkpoint clock s id h t ref reason now :
  keeps (Checkpoint id h t ref reason now) s (checkpoint clock s id h t ref reason now).2.
Proof.
  unfold checkpoint. apply checked_snd; [apply keeps_refl|intros at_].
  destruct (answered _ _ _ _) as [r s'] eqn:E. eapply keeps_leased; [exact E|by constructor|by right].
Qed.

Lemma keeps_hold clock s id h t reason now :
  keeps (Hold id h t reason now) s (hold clock s id h t reason now).2.
Proof.
  unfold hold. apply checked_snd; [apply keeps_refl|intros at_].
  destruct (answered _ _ _ _) as [r s'] eqn:E. eapply keeps_leased; [exact E| |by left].
  intros w Hw. apply mv_wait. by right.
Qed.

Lemma keeps_finish clock s id h t st reason ref now :
  keeps (Finish id h t st reason ref now) s (finish clock s id h t st reason ref now).2.
Proof.
  unfold finish. destruct (negb (terminal st)) eqn:Ht; [apply keeps_refl|]. apply negb_false_iff in Ht.
  apply checked_snd; [apply keeps_refl|intros at_].
  destruct (on_lease _ _ _ _ _ _) as [s'|] eqn:E; [|apply keeps_refl].
  destruct (answered id s (Some s') true) as [r s''] eqn:E'. rewrite <-E in E'.
  eapply keeps_leased; [exact E'| |by left]. by intros; apply mv_finish.
Qed.

Lemma keeps_reopen clock s id tok proven now :
  keeps (Reopen id tok proven now) s (reopen sha256 clock s id tok proven now).2.
Proof.
  unfold reopen. apply checked_snd; [apply keeps_refl|intros at_]. apply checked_snd; [apply keeps_refl|intros d].
  destruct (rows s !! id) as [w|] eqn:Hw; [|apply keeps_refl].
  destruct (bool_decide _ && proven) eqn:Hp; cbn [negb]; [|apply keeps_refl].
  destruct (negb _); [apply keeps_refl|]. apply andb_true_iff in Hp as [Hst ->]. apply bool_decide_eq_true in Hst.
  eapply keeps_row_token; [done| |by left]. apply mv_reopen; [by apply bool_decide_eq_true|done].
Qed.

Lemma keeps_reattach clock s id tok proven now :
  keeps (ReattachProven id tok proven now) s (reattachProven sha256 clock s id tok proven now).2.
Proof.
  unfold reattachProven. destruct proven; cbn [negb]; [|apply keeps_refl].
  apply checked_snd; [apply keeps_refl|intros at_]. apply checked_snd; [apply keeps_refl|intros d].
  destruct (rows s !! id) as [w|] eqn:Hw; [|apply keeps_refl].
  destruct (bool_decide _ && _) eqn:Hp; cbn [negb]; [|apply keeps_refl].
  destruct (negb _); [apply keeps_refl|]. apply andb_true_iff in Hp as [Hst _].
  apply bool_decide_eq_true in Hst. rewrite !elem_of_cons, elem_of_nil in Hst.
  eapply keeps_row_token; [done| |by left]. apply mv_reattach; [by apply bool_decide_eq_true|naive_solver].
Qed.

Lemma elem_of_sorted_rows p cmp s w :
  w ∈ sorted_rows p cmp s <-> p w = true /\ exists id, rows s !! id = Some w.
Proof.
  unfold sorted_rows. rewrite list_elem_of_filter, merge_sort_Permutation, list_elem_of_fmap.
  split; intros [Hp H]; (split; [done|]).
  - destruct H as ([id w'] & -> & H). apply elem_of_map_to_list in H. eauto.
  - destruct H as [id H]. exists (id, w). split; [done|]. by apply elem_of_map_to_list.
Qed.

Lemma keeps_reconcile c clock s now limit : filed s -> keeps c s (reconcileExpired clock s now limit).2.
Proof.
  intros Hf. unfold reconcileExpired. apply checked_snd; [apply keeps_refl|intros at_].
  apply checked_snd; [apply keeps_refl|intros n]. apply keeps_expire.
  - intros id w Hw Hp. apply bool_decide_eq_true, list_elem_of_fmap in Hp as (w' & Hid & Hin).
    apply elem_of_take in Hin as (i & Hin & _). apply list_elem_of_lookup_2, elem_of_sorted_rows in Hin as [Hx [id' Hw']].
    cbn in Hid. rewrite (Hf _ _ Hw), (Hf _ _ Hw') in Hid. subst id'. assert (w' = w) as -> by congruence.
    right. by eapply is_expired_running.
  - intros id w Hw Hp. apply bool_decide_eq_true in Hp. by rewrite (Hf _ _ Hw) in Hp.
Qed.

Lemma keeps_open s n1 n2 : keeps (Open n1 n2) s (open s n1 n2).
Proof.
  split; [|intros _ id t Hid; cbn in Hid; by rewrite lookup_empty in Hid].
  apply steps_update. intros id w Hw Hp. apply mv_expire. unfold reopened in Hp.
  apply orb_true_iff in Hp as [Hp|Hp]; [left; by apply bool_decide_eq_true in Hp|right].
  apply andb_true_iff in Hp as [Hp _]. by apply bool_decide_eq_true in Hp.
Qed.

Lemma keeps_after clock s c : filed s -> keeps c s (after clock s c).
Proof.
  intros Hf. destruct c; unfold after, Work.after; cbn [Work.perform snd];
    eauto using keeps_refl, keeps_enqueue, keeps_claim, keeps_heartbeat, keeps_checkpoint, keeps_hold, keeps_finish,
      keeps_reopen, keeps_reattach, keeps_reconcile, keeps_open.
  unfold listRecoverable. pose proof (keeps_reconcile (ListRecoverable now limit) clock s (coalesce now clock) limit Hf) as Hk.
  destruct (reconcileExpired _ _ _ _) as [[|] s']; [|done]. apply checked_snd; [done|by intros]. 
Qed.

(** ** Histories *)

(** Calls with what the clock said. *)
Definition run (s : store) (cs : list (val * call)) : store := foldl (fun s x => after x.1 s x.2) s cs.

Record sound (s : store) : Prop := {
  so_filed : filed s;
  so_backed : backed s;
  so_shape : forall id w, rows s !! id = Some w -> lease_shape w }.

(** The facts stay, attempts are counted, and what is finished stays as it is. *)
Record evolves (w w' : work) : Prop := {
  ev_about : about w' = about w;
  ev_attempts : attempts w <= attempts w';
  ev_terminal : terminal (state w) = true -> w' = w }.

Lemma work_evolves_refl w : evolves w w.
Proof. by split. Qed.
Lemma work_evolves_trans w1 w2 w3 : evolves w1 w2 -> evolves w2 w3 -> evolves w1 w3.
Proof.
  intros [a1 n1 t1] [a2 n2 t2]. split; [congruence|lia|]. intros Ht. specialize (t1 Ht). subst w2. auto.
Qed.

Lemma work_moved_evolves c id w w' : moved c id w w' -> evolves w w'.
Proof.
  intros H. split; [by eapply work_moved_about|destruct H; cbn; lia|].
  intros Ht. destruct H; repeat match goal with H : _ \/ _ |- _ => destruct H end;
    match goal with H : state w = _ |- _ => by rewrite H in Ht end.
Qed.

Lemma sound_after clock s c : sound s -> sound (after clock s c).
Proof.
  intros [Hf Hb Hsh]. destruct (keeps_after clock s c Hf) as [Hs Hk]. split; [by eapply work_filed_steps|auto|].
  intros id w' Hw'. specialize (Hs id). rewrite Hw' in Hs. destruct (rows s !! id) as [w|] eqn:Hw.
  - destruct Hs as [->|Hm]; [eauto|]. eapply moved_shape; eauto.
  - destruct Hs as (_ & _ & Hst & _ & Hlease). unfold lease_shape. by rewrite Hst.
Qed.

Lemma sound_run s cs : sound s -> sound (run s cs).
Proof. revert s. induction cs as [|[clock c] cs IH]; intros s Hs; [done|]. apply IH. by apply sound_after. Qed.

Lemma work_sound_empty : sound Work.empty.
Proof. split; intros id ? H; cbn in H; by rewrite lookup_empty in H. Qed.

Lemma work_after_evolves clock s c id w :
  filed s -> rows s !! id = Some w -> exists w', rows (after clock s c) !! id = Some w' /\ (w' = w \/ moved c id w w').
Proof.
  intros Hf Hw. destruct (keeps_after clock s c Hf) as [Hs _]. specialize (Hs id). rewrite Hw in Hs.
  destruct (rows (after clock s c) !! id) as [w'|]; [eauto|done].
Qed.

Lemma run_evolves s cs id w :
  sound s -> rows s !! id = Some w -> exists w', rows (run s cs) !! id = Some w' /\ evolves w w'.
Proof.
  revert s w. induction cs as [|[clock c] cs IH]; intros s w Hs Hw; [eauto using work_evolves_refl|].
  destruct (work_after_evolves clock s c id w (so_filed _ Hs) Hw) as (w1 & Hw1 & H1).
  destruct (IH _ w1 (sound_after clock s c Hs) Hw1) as (w' & Hw' & He). exists w'. split; [done|].
  destruct H1 as [->|Hm]; [done|]. eapply work_evolves_trans; [by eapply work_moved_evolves|done].
Qed.

(** C28. Whatever calls are made, crashes and openings included: a piece of work is filed under
    its identifier; its lease has an owner, a token and an end exactly while it runs; only work
    that is pending or running has a token in the memory of the process; its facts never
    change, its attempts are never taken back, and once it is finished nothing changes it. *)
Theorem recovery_work_history cs cs' id w :
  rows (run Work.empty cs) !! id = Some w ->
  workId (about w) = id /\ lease_shape w /\ backed (run Work.empty cs)
  /\ exists w', rows (run Work.empty (cs ++ cs')) !! id = Some w' /\ evolves w w'.
Proof.
  intros Hw. pose proof (sound_run Work.empty cs work_sound_empty) as Hs. split_and!.
  - by apply (so_filed _ Hs).
  - by apply (so_shape _ Hs id).
  - apply Hs.
  - unfold run. rewrite foldl_app. by apply run_evolves.
Qed.

(** *** Attempts and proofs *)
Definition proofs (id : string) (cs : list (val * call)) : Z :=
  Z.of_nat (length (filter (fun x => grants id x.2 = true) cs)).

Lemma proofs_cons id clock c cs :
  proofs id ((clock, c) :: cs) = (if grants id c then 1 else 0) + proofs id cs.
Proof.
  unfold proofs. rewrite filter_cons. cbn [snd]. destruct (decide _) as [->|E%not_true_is_false].
  - rewrite length_cons. lia.
  - by rewrite E.
Qed.

(** The attempts that were made and the one that may begin. *)
Definition quota (w : work) : Z := attempts w + if decide (state w = Pending) then 1 else 0.

Lemma moved_quota c id w w' : moved c id w w' -> quota w' <= quota w + if grants id c then 1 else 0.
Proof.
  intros H. assert (0 <= if grants id c then 1 else 0) by (destruct (grants id c); lia). unfold quota.
  destruct H as [| | | |st ? ? ? Hst Ht| |]; cbn; repeat match goal with H : _ \/ _ |- _ => destruct H end;
    repeat match goal with H : state w = _ |- _ => rewrite H | H : grants _ _ = _ |- _ => rewrite H end;
    cbn; repeat destruct (decide _); subst; try lia; done.
Qed.

Lemma after_quota clock s c id n :
  sound s -> (forall w, rows s !! id = Some w -> quota w <= n) -> 1 <= n ->
  forall w', rows (after clock s c) !! id = Some w' -> quota w' <= n + if grants id c then 1 else 0.
Proof.
  intros Hs Hq Hn w' Hw'. destruct (keeps_after clock s c (so_filed _ Hs)) as [Hst _]. specialize (Hst id).
  rewrite Hw' in Hst. assert (0 <= if grants id c then 1 else 0) by (destruct (grants id c); lia).
  destruct (rows s !! id) as [w|] eqn:Hw.
  - specialize (Hq w eq_refl). destruct Hst as [->|Hm%moved_quota]; lia.
  - destruct Hst as (_ & _ & Hp & Ha & _). unfold quota. rewrite Hp, Ha. destruct (decide _); [lia|done].
Qed.

Lemma run_quota s cs id n :
  sound s -> (forall w, rows s !! id = Some w -> quota w <= n) -> 1 <= n ->
  forall w, rows (run s cs) !! id = Some w -> quota w <= n + proofs id cs.
Proof.
  revert s n. induction cs as [|[clock c] cs IH]; intros s n Hs Hq Hn w Hw.
  - unfold proofs. cbn in *. specialize (Hq w Hw). lia.
  - pose proof (after_quota clock s c id n Hs Hq Hn) as Hq'.
    assert (0 <= if grants id c then 1 else 0) by (destruct (grants id c); lia).
    pose proof (IH _ (n + if grants id c then 1 else 0) (sound_after clock s c Hs) Hq' ltac:(lia) w Hw) as IHw.
    rewrite proofs_cons. lia.
Qed.

(** Work is claimed at most once for its creation and once for each claim that an owner has
    proved: neither a lease that ran out, nor a crash, nor a new start lets it be claimed
    again. *)
Lemma attempts_within_proofs cs id w :
  rows (run Work.empty cs) !! id = Some w -> attempts w <= 1 + proofs id cs.
Proof.
  intros Hw. assert (quota w <= 1 + proofs id cs).
  { apply (run_quota Work.empty cs id 1 work_sound_empty); [|done|done]. intros w0 H. cbn in H. by rewrite lookup_empty in H. }
  unfold quota in *. destruct (decide _); lia.
Qed.

(** ** What is listed *)
Lemma by_key_trans key next :
  (forall a b c, next a b = true -> next b c = true -> next a c = true) ->
  forall a b c, by_key key next a b = true -> by_key key next b c = true -> by_key key next a c = true.
Proof.
  intros Hn a b c. unfold by_key. rewrite !orb_true_iff, !andb_true_iff, !Z.ltb_lt, !Z.eqb_eq.
  intros [?|[? ?]] [?|[? ?]]; try (left; lia). right. split; [lia|eauto].
Qed.

Lemma leb_trans x y z : String.leb x y = true -> String.leb y z = true -> String.leb x z = true.
Proof.
  intros H1 H2. assert (String.le x z) as H by (etransitivity; by apply Is_true_true).
  by apply Is_true_true in H.
Qed.

Lemma by_created_trans a b c : by_created a b = true -> by_created b c = true -> by_created a c = true.
Proof. apply by_key_trans. intros x y z. apply leb_trans. Qed.

Lemma by_created_total a b : by_created a b = true \/ by_created b a = true.
Proof.
  unfold by_created, by_key, by_id. rewrite !orb_true_iff, !andb_true_iff, !Z.ltb_lt, !Z.eqb_eq.
  destruct (Z.lt_trichotomy (createdAt (about a)) (createdAt (about b))) as [?|[E|?]]; [tauto| |tauto].
  destruct (String.leb_total (workId (about a)) (workId (about b))); naive_solver.
Qed.

Lemma by_created_same a b : by_created a b = true -> by_created b a = true -> workId (about a) = workId (about b).
Proof.
  unfold by_created, by_key, by_id. rewrite !orb_true_iff, !andb_true_iff, !Z.ltb_lt, !Z.eqb_eq.
  intros [?|[? ?]] [?|[? ?]]; try lia. by apply String.leb_antisym.
Qed.

Notation created_le := (fun a b => Is_true (by_created a b)).
Notation ids l := (workId ∘ about <$> l).

(** In the order of the pages, no identifier twice. *)
Definition ordered (l : list work) : Prop := StronglySorted created_le l /\ NoDup (ids l).

Lemma ordered_filter p l : ordered l -> ordered (filter (fun w => p w = true) l).
Proof.
  intros [Hs Hn]. induction l as [|w l IH]; [done|].
  apply StronglySorted_inv in Hs as [Hs Hw]. rewrite fmap_cons in Hn. apply NoDup_cons in Hn as [Hx Hn].
  destruct (IH Hs Hn) as [Hs' Hn']. rewrite filter_cons. destruct (decide _); [|done]. split.
  - constructor; [done|]. rewrite Forall_forall in *. intros y Hy. apply Hw. by apply list_elem_of_filter in Hy as [_ ?].
  - rewrite fmap_cons. apply NoDup_cons. split; [|done]. intros Hin. apply Hx.
    apply list_elem_of_fmap in Hin as (y & -> & Hy). apply list_elem_of_fmap. exists y. split; [done|].
    by apply list_elem_of_filter in Hy as [_ ?].
Qed.

Lemma ordered_rows s p : filed s -> ordered (sorted_rows p by_created s).
Proof.
  intros Hf. apply ordered_filter. split.
  - apply StronglySorted_merge_sort.
    + intros a b c. rewrite !Is_true_true. apply by_created_trans.
    + intros a b. rewrite !Is_true_true. apply by_created_total.
  - rewrite (fmap_Permutation _ _ _ (merge_sort_Permutation _ _)).
    replace (ids (map_to_list (rows s)).*2) with ((map_to_list (rows s)).*1); [apply NoDup_fst_map_to_list|].
    rewrite <-list_fmap_compose. apply list_fmap_ext. intros i [id w] Hi. cbn.
    apply list_elem_of_lookup_2, elem_of_map_to_list in Hi. by rewrite (Hf _ _ Hi).
Qed.

(** The rows after the last of a prefix are the rest. *)
Lemma after_prefix l1 l2 :
  ordered (l1 ++ l2) -> filter (fun w => after_cursor (last l1) w = true) (l1 ++ l2) = l2.
Proof.
  intros [Hs Hn]. destruct (last l1) as [c|] eqn:Hl.
  - apply last_Some in Hl as [l0 ->]. rewrite filter_app.
    assert (forall x, x ∈ l0 -> by_created x c = true) as Hbefore.
    { intros x Hx. apply Is_true_true. apply StronglySorted_app_1_l in Hs.
      apply (StronglySorted_app_1_elem_of _ _ _ _ _ Hs Hx). apply list_elem_of_here. }
    assert (by_created c c = true) as Hc by (by destruct (by_created_total c c)).
    assert (forall y, y ∈ l2 -> by_created y c = false) as Hafter.
    { intros y Hy. apply not_true_is_false. intros Hyc.
      assert (by_created c y = true) as Hcy.
      { apply Is_true_true. apply (StronglySorted_app_1_elem_of _ _ _ _ _ Hs); [|done].
        apply elem_of_app. right. apply list_elem_of_here. }
      pose proof (by_created_same _ _ Hyc Hcy) as Hid. rewrite fmap_app in Hn. apply NoDup_app in Hn as (_ & Hd & _).
      apply (Hd (workId (about c))); apply list_elem_of_fmap.
      - exists c. split; [done|]. apply elem_of_app. right. apply list_elem_of_here.
      - exists y. by split. }
    assert (filter (fun w => after_cursor (Some c) w = true) (l0 ++ [c]) = []) as ->.
    { apply filter_none, Forall_forall. intros x Hx. cbn.
      apply elem_of_app in Hx as [Hx|Hx%list_elem_of_singleton]; [by rewrite Hbefore|by subst; rewrite Hc]. }
    apply filter_all, Forall_forall. intros y Hy. cbn. by rewrite Hafter.
  - apply last_None in Hl as ->. by apply filter_all, Forall_forall.
Qed.

Lemma page_rest s n l1 l2 :
  filed s -> sorted_rows recoverable_row by_created s = l1 ++ l2 ->
  forallb readable (l1 ++ l2) = true -> page s n (last l1) = Ok (take n l2).
Proof.
  intros Hf Hl Hr. unfold page.
  assert (sorted_rows (fun w => recoverable_row w && after_cursor (last l1) w) by_created s = l2) as ->.
  { pose proof (ordered_rows s recoverable_row Hf) as Ho. rewrite Hl in Ho. etransitivity; [|by apply (after_prefix l1 l2)].
    rewrite <-Hl. unfold sorted_rows. rewrite list_filter_filter. apply list_filter_iff. intros w.
    rewrite andb_true_iff. tauto. }
  rewrite forallb_app, andb_true_iff in Hr. destruct Hr as [_ Hr].
  rewrite <-(take_drop n l2), forallb_app, andb_true_iff in Hr. by rewrite (proj1 Hr).
Qed.

(** What a row needs to be listed. *)
Definition listed (s : store) (w : work) : bool := has_token s w && well_formed w.

Definition listing (s : store) (l : list work) : list work := filter (fun w => listed s w = true) l.

Lemma listing_app s l1 l2 : listing s (l1 ++ l2) = listing s l1 ++ listing s l2.
Proof. apply filter_app. Qed.

Lemma collect_take s n acc l :
  (length acc < n)%nat -> collect s n acc l = take n (acc ++ listing s l).
Proof.
  unfold listing. revert acc. induction l as [|w l IH]; intros acc Hn; cbn [collect].
  - by rewrite filter_nil, app_nil_r, take_ge by lia.
  - fold (listed s w). rewrite filter_cons. destruct (listed s w) eqn:E.
    + rewrite decide_True by done. cbv zeta.
      set (F := filter _ l). change (w :: F) with ([w] ++ F). destruct (Nat.leb_spec n (length (acc ++ [w]))) as [Hle|Hlt].
      * rewrite (app_assoc acc [w]), take_app_le by done. rewrite take_ge; [done|].
        rewrite length_app in *. cbn in *. lia.
      * rewrite IH by done. by rewrite <-app_assoc.
    + rewrite decide_False by done. by apply IH.
Qed.

Lemma pages_take s n fuel l1 l2 :
  filed s -> sorted_rows recoverable_row by_created s = l1 ++ l2 -> forallb readable (l1 ++ l2) = true ->
  (1 <= n)%nat -> (length l2 < fuel)%nat ->
  pages fuel s n (last l1) (take n (listing s l1)) = Ok (take n (listing s (l1 ++ l2))).
Proof.
  intros Hf. revert l1 l2. induction fuel as [|fuel IH]; intros l1 l2 Hl Hr Hn Hfuel; [lia|]. cbn [pages].
  rewrite length_take. destruct (Nat.ltb_spec (n `min` length (listing s l1)) n) as [Hlt|Hge].
  - rewrite page_rest with (l1 := l1) (l2 := l2) by done. cbn [mbind result_bind].
    assert (take n (listing s l1) = listing s l1) as Hacc by (apply take_ge; lia). rewrite Hacc.
    destruct (last (take n l2)) as [c|] eqn:Hlast.
    + rewrite collect_take, <-listing_app by lia.
      destruct (Nat.ltb_spec (length (take n l2)) n) as [Hshort|Hfull].
      * rewrite (take_ge l2); [done|]. rewrite length_take in Hshort. lia.
      * assert (Some c = last (l1 ++ take n l2)) as -> by (by rewrite last_app, Hlast).
        rewrite length_take in Hfull.
        assert (l1 ++ l2 = (l1 ++ take n l2) ++ drop n l2) as E by (by rewrite <-app_assoc, take_drop).
        rewrite E in Hl, Hr |- *. apply IH; [done|done|done|]. rewrite length_drop. lia.
    + apply last_None in Hlast. destruct l2 as [|x l2]; [|by destruct n; [lia|]].
      by rewrite app_nil_r, Hacc.
  - by rewrite listing_app, take_app_le by lia.
Qed.

Lemma require_limit_pos limit n : require_limit limit = Ok n -> (1 <= n)%nat.
Proof.
  unfold require_limit. destruct limit; try done; [by intros [= <-]; lia|]. destruct n0 as [z| | |]; try done.
  destruct (_ && _) eqn:E; [|done]. intros [= <-]. apply andb_true_iff in E as [E _].
  apply andb_true_iff in E as [_ E]. apply Z.leb_le in E. lia.
Qed.

Lemma sorted_rows_length p cmp s : (length (sorted_rows p cmp s) <= size (rows s))%nat.
Proof.
  unfold sorted_rows. etransitivity; [apply length_filter|].
  by rewrite (Permutation_length (merge_sort_Permutation _ _)), length_fmap, length_map_to_list.
Qed.

End Safety.
End WorkSafety.
