(* ===== verification/RecoveryExecutor.v ===== *)
(** * The execution of a recovery

    Models [createBaseRecoveryExecutor] of [relayer/src/baseRecovery.mjs].  A run is a program
    of the calls it makes: to the table of recoveries (RecoveryWork.v), to the clock, to the
    agent index, to the guards and to the operations that act on the chains.  What is not in
    the file answers as it likes.  The flag [leaseLost] is read and set by the run and by the
    renewals that its timer and its operation start; [ExecutorSafety] runs them together.  The
    constructor's tests of its dependencies are taken as passed; the work store is the one of
    RecoveryWork.v, so that it can hold work and its records carry no token. *)
From S2P Require Export RecoveryWork.

Module Executor.
Export Work.

Section Claims.
Local Open Scope string_scope.
Local Open Scope list_scope.

(** ** The claim of the agent index *)
Definition RECOVERY_CLAIM_FIELDS : list string :=
  ["ok"; "identity"; "action"; "phase"; "reasonCode"; "evidenceVersion"; "lease"; "bundle"].
Definition RECOVERY_LEASE_FIELDS : list string :=
  ["identity"; "owner"; "action"; "phase"; "evidenceVersion"; "holder"; "leaseToken"; "acquiredAt"; "expiresAt"].

Record authority := { a_given : val; a_identity : Outbox.identity; a_bundle : bundle }.

(** [typeof v === 'string' && v] *)
Definition text (v : val) : option string :=
  match v with Str t => if decide (t = EmptyString) then None else Some t | _ => None end.
Definition safe (v : val) : option Z :=
  match v with Number (Num z) => if isSafeInteger (Num z) then Some z else None | _ => None end.
Definition phase_val (m : option phase) : val := match m with Some p => Str (phase_name p) | None => Undefined end.

(** The holder, the owner, the token and the times of the lease. *)
Definition lease_in_form (lease : val) (at_ : Z) : store_result bool :=
  token ← tested LOWER_TOKEN lease#"leaseToken";
  Ok (match text lease#"holder", text lease#"owner", safe lease#"acquiredAt", safe lease#"expiresAt" with
      | Some holder, Some _, Some acquiredAt, Some expiresAt =>
          (String.length holder <=? 128)%nat && token && (0 <=? acquiredAt)%Z && (at_ <? expiresAt)%Z
          && (acquiredAt <=? expiresAt)%Z
      | _, _, _, _ => false
      end).

Definition validateAuthoritativeRecoveryClaim (claim : val) (record : work) (claimToken : option string) (at_ : Z)
    : store_result authority :=
  let f := about record in
  let differs a b := negb (strict_eq a b) in
  let expectedPhase := phase_val (ACTION_PHASE (action_ f)) in
  let version := Number (Num (evidenceVersion f)) in
  let action := Str (action_name (action_ f)) in
  _ ← exactObject claim RECOVERY_CLAIM_FIELDS "Base recovery claim";
  _ ← refuse (differs claim#"ok" (Bool true) || differs claim#"action" action
              || differs claim#"evidenceVersion" version
              || match text claim#"reasonCode" with Some _ => false | None => true end)
        "claim action/version/reason is not exact";
  i ← validateIdentity claim#"identity" "Base recovery claim identity";
  _ ← refuse (negb (sameIdentity i (identity f))) "claim identity disagrees with work";
  _ ← refuse (differs claim#"phase" expectedPhase) "claim phase disagrees with action";
  bundle ← validateBaseRecoveryBundle claim#"bundle";
  _ ← refuse (negb (sameIdentity (b_identity bundle) (identity f)) || negb (b_version bundle =? evidenceVersion f)%Z)
        "claim bundle identity/version disagrees with work";
  let lease := claim#"lease" in
  _ ← exactObject lease RECOVERY_LEASE_FIELDS "Base recovery claim lease";
  leaseIdentity ← validateIdentity lease#"identity" "Base recovery lease identity";
  _ ← refuse (negb (sameIdentity leaseIdentity (identity f)) || differs lease#"owner" (Str (b_owner bundle))
              || differs lease#"action" action || differs lease#"phase" expectedPhase
              || differs lease#"evidenceVersion" version || differs lease#"leaseToken" (option_val claimToken))
        "claim lease identity/version/token disagrees with work";
  ok ← lease_in_form lease at_;
  _ ← refuse (negb ok) "claim lease timing/token is invalid";
  Ok {| a_given := claim; a_identity := i; a_bundle := bundle |}.

(** The frozen bundle: the given one with the validated identity, projections and events. *)
Definition entry_val (e : phase_entry) : val :=
  with_props (e_given e) [("identity", Outbox.identity_val (e_identity e))].
Definition bundle_val (b : bundle) : val :=
  with_props (b_given b) [
    ("identity", Outbox.identity_val (b_identity b));
    ("intent", b_intent b);
    ("phases", Obj ((fun p => (recovery_phase_name p, match b_phases b p with Some e => entry_val e | None => Null end))
                      <$> BASE_RECOVERY_PHASES));
    ("events", Arr (entry_val <$> b_events b))].

End Claims.

(** ** Programs *)

(** What the renewal of the authority needs. *)
Record fence := {
  f_record : work;
  f_owner : string;
  f_leaseToken : string;
  f_holder : val;
  f_claimToken : string }.

(** The calls that are awaited. *)
Inductive remote :=
| ReadBaseRecoveryClaim (record : work) (claimToken : string)
| RenewBaseRecoveryClaim (f : fence)
| ReleaseBaseRecoveryClaim (record : work) (claimToken : string)
| LocalRecoveryGuard (bundle : val) (record : work)
| FreshActiveMandateGate (bundle : val) (record : work)
| ProjectBaseDepositOwnerAction (bundle : val) (record : work)
| Operate (a : recovery_action) (bundle : val) (record : work).

(** A rejection, by its code where it has one. *)
Inductive answer := Returned (v : val) | Rejected (code : option string).

Inductive prog (A : Type) :=
| Ret (a : A)
| Fail (code : option string)
| Now (k : Z -> prog A)
| Token (k : string -> prog A)
| Store (c : call) (k : store_result (option work) -> prog A)
| ClaimToken (id : string) (k : option string -> prog A)
| Call (c : remote) (k : answer -> prog A)
| LeaseLost (k : bool -> prog A)
| LoseLease (k : prog A)
| StartTimer (f : fence) (k : prog A)
| StopTimer (k : prog A).
Arguments Ret {A} a.
Arguments Fail {A} code.
Arguments Now {A} k.
Arguments Token {A} k.
Arguments Store {A} c k.
Arguments ClaimToken {A} id k.
Arguments Call {A} c k.
Arguments LeaseLost {A} k.
Arguments LoseLease {A} k.
Arguments StartTimer {A} f k.
Arguments StopTimer {A} k.

(** [p], then [f] on what it returns and [h] on the code it fails with. *)
Fixpoint then_or {A B} (p : prog A) (f : A -> prog B) (h : option string -> prog B) : prog B :=
  match p with
  | Ret a => f a
  | Fail code => h code
  | Now k => Now (fun n => then_or (k n) f h)
  | Token k => Token (fun t => then_or (k t) f h)
  | Store c k => Store c (fun r => then_or (k r) f h)
  | ClaimToken id k => ClaimToken id (fun t => then_or (k t) f h)
  | Call c k => Call c (fun a => then_or (k a) f h)
  | LeaseLost k => LeaseLost (fun b => then_or (k b) f h)
  | LoseLease k => LoseLease (then_or k f h)
  | StartTimer d k => StartTimer d (then_or k f h)
  | StopTimer k => StopTimer (then_or k f h)
  end.

#[global] Instance prog_ret : MRet prog := @Ret.
#[global] Instance prog_bind : MBind prog := fun A B f p => then_or p f Fail.
Definition catch {A} (p : prog A) (h : option string -> prog A) : prog A := then_or p Ret h.
(** [try { p } finally { q }] *)
Definition finally {A} (p : prog A) (q : prog unit) : prog A :=
  then_or p (fun a => _ ← q; Ret a) (fun code => _ ← q; Fail code).

Definition ask (c : remote) : prog val :=
  Call c (fun a => match a with Returned v => Ret v | Rejected code => Fail code end).
Definition store (c : call) : prog (option work) :=
  Store c (fun r => match r with Ok m => Ret m | Throw _ => Fail None end).
Definition clock : prog Z := Now Ret.

Section Executor.
Local Open Scope string_scope.
Local Open Scope list_scope.
Local Open Scope Z_scope.

(** The length of a lease, the operations that are there, and whether the two optional seams
    are. *)
Record config := {
  leaseMs : Z;
  has_operation : recovery_action -> bool;
  has_projection : bool;
  has_release : bool }.
Context (cfg : config).

Definition millis (z : Z) : val := Number (Num z).
Definition lease_conflict : option string := Some "RECOVERY_LEASE_CONFLICT".

(** ** The renewal of the authority *)
Definition renewAuthority (f : fence) : prog unit :=
  LeaseLost (fun lost =>
    if lost then Fail lease_conflict
    else
      catch
        (_ ← ask (RenewBaseRecoveryClaim f);
         now ← clock;
         renewed ← store (Heartbeat (workId (about (f_record f))) (f_owner f) (f_leaseToken f) (millis now)
                            (millis (leaseMs cfg)));
         match renewed with Some _ => Ret tt | None => Fail lease_conflict end)
        (fun code => LoseLease (Fail code))).

(** One tick of the timer. *)
Definition tick (f : fence) : prog unit :=
  LeaseLost (fun lost => if lost then Ret tt else catch (renewAuthority f) (fun _ => LoseLease (Ret tt))).

(** ** The ends of a run *)
Section Run.
Context (record local : work) (claimToken : option string).
Let id : string := workId (about record).
Let owner : string := default EmptyString (leaseOwner local).
Let token : string := default EmptyString (leaseToken local).

Definition hold_work (reason : string) : prog (option work) :=
  now ← clock; store (Hold id owner token (Some reason) (millis now)).
(** [workStore.hold(...) ?? workStore.get(workId)] *)
Definition hold_or_get (reason : string) : prog (option work) :=
  held ← hold_work reason;
  match held with Some w => Ret (Some w) | None => store (Get id) end.
Definition finish_work (st : work_state) (reason ref : option string) : prog (option work) :=
  now ← clock; store (Finish id owner token st reason ref (millis now)).

Definition given_token : option string :=
  match claimToken with Some t => if decide (t = EmptyString) then None else Some t | None => None end.

(** Best effort. *)
Definition releaseRemoteClaim : prog unit :=
  if has_release cfg then
    match given_token with
    | Some t => catch (_ ← ask (ReleaseBaseRecoveryClaim record t); Ret tt) (fun _ => Ret tt)
    | None => Ret tt
    end
  else Ret tt.

(** Reason codes and references are texts, or absent. *)
Definition text_of (v : val) : option string := match v with Str t => Some t | _ => None end.
Definition state_is (v : val) (names : list string) : bool :=
  existsb (fun n => strict_eq v#"state" (Str n)) names.

Definition terminal_named (v : val) : work_state :=
  if strict_eq v#"state" (Str "uncertain") then Uncertain
  else if strict_eq v#"state" (Str "blocked") then Blocked
  else if strict_eq v#"state" (Str "owner_action_required") then OwnerActionRequired
  else Done.

(** ** The operation and its result *)
Definition settle_operation (result : val) : prog (option work) :=
  if state_is result ["held"; "retryable"] then
    hold_or_get (default "base-recovery-held" (text_of result#"reasonCode"))
  else
    LeaseLost (fun lost =>
      finish_work (if lost then Uncertain else terminal_named result)
        (text_of result#"reasonCode") (text_of result#"checkpointRef")).

Definition operate (bundle : val) : prog (option work) :=
  LeaseLost (fun lost =>
    if lost then hold_work "base-recovery-lease-unavailable"
    else if negb (has_operation cfg (action_ (about record)))
    then finish_work Blocked (Some "safe-operation-unavailable") None
    else
      result ← ask (Operate (action_ (about record)) bundle record);
      settle_operation result).

(** *** A deposit needs a mandate that is active now *)
Definition owner_action (bundle : val) : prog (option work) :=
  let finished := finish_work OwnerActionRequired (Some "mandate_inactive") None in
  if has_projection cfg then
    projection ← catch (ask (ProjectBaseDepositOwnerAction bundle record))
                   (fun _ => Ret (Obj [("state", Str "held");
                                       ("reasonCode", Str "base-deposit-owner-action-projection-retryable")]));
    if state_is projection ["held"; "retryable"] then
      hold_or_get (default "base-deposit-owner-action-projection-retryable" (text_of projection#"reasonCode"))
    else finished
  else finished.

Definition gated (bundle : val) : prog (option work) :=
  if bool_decide (action_ (about record) = submit_base_deposit) then
    then_or (ask (FreshActiveMandateGate bundle record))
      (fun gate =>
         if negb (strict_eq gate#"active" (Bool true)) then owner_action bundle else operate bundle)
      (fun _ => hold_work "base-recovery-authority-retryable")
  else operate bundle.

Definition guarded (bundle : val) : prog (option work) :=
  then_or (ask (LocalRecoveryGuard bundle record))
    (fun local_ =>
       if negb (strict_eq local_#"valid" (Bool true))
       then finish_work Blocked (Some "base-recovery-local-authority-conflict") None
       else gated bundle)
    (fun _ => hold_work "base-recovery-local-authority-retryable").

(** ** From the claim to the operation *)
Definition read_claim (claim : val) : prog val :=
  if truthy claim then Ret claim
  else
    match given_token with
    | Some t => ask (ReadBaseRecoveryClaim record t)
    | None => Fail None
    end.

Definition authorized (a : authority) : prog (option work) :=
  let bundle := bundle_val (a_bundle a) in
  let selection := selectBaseChildRecoveryAction bundle in
  if negb (bool_decide (action selection = action_ (about record)))
     || negb (strict_eq (match sel_phase selection with Some p => Str (phase_name p) | None => Null end)
                (a_given a)#"phase")
  then finish_work Blocked (Some "base-recovery-selection-changed") None
  else
    match given_token with
    | None => Fail None
    | Some t =>
        let f := {| f_record := record; f_owner := owner; f_leaseToken := token;
                    f_holder := (a_given a)#"lease"#"holder"; f_claimToken := t |} in
        _ ← renewAuthority f;
        StartTimer f (LeaseLost (fun lost =>
          if lost then hold_work "base-recovery-lease-unavailable" else guarded bundle))
    end.

Definition attempt_run (claim : val) : prog (option work) :=
  claim ← read_claim claim;
  now ← clock;
  match validateAuthoritativeRecoveryClaim claim record claimToken now with
  | Ok a => authorized a
  | Throw _ => Fail (Some "RECOVERY_CLAIM_CONFLICT")
  end.

(** The errors after which the work waits for a new claim. *)
Definition HELD_CODES : list string :=
  ["RECOVERY_CONFLICT"; "RECOVERY_VERSION_CONFLICT"; "RECOVERY_LEASE_CONFLICT"; "REPORTER_RETRYABLE";
   "RECOVERY_CLAIM_CONFLICT"].

Definition on_error (code : option string) : prog (option work) :=
  catch
    (match code with
     | Some c =>
         if bool_decide (c ∈ HELD_CODES) then
           hold_or_get (if bool_decide (c = "RECOVERY_CLAIM_CONFLICT") then "base-recovery-claim-conflict"
                        else "base-recovery-lease-unavailable")
         else finish_work Uncertain (Some "base-recovery-executor-error") None
     | None => finish_work Uncertain (Some "base-recovery-executor-error") None
     end)
    (fun _ => store (Get id)).

Definition run_claimed (claim : val) : prog (option work) :=
  finally (catch (attempt_run claim) on_error) (StopTimer releaseRemoteClaim).
End Run.

(** ** The run of a piece of work *)
Definition holder_of (id : string) : string := "recovery-" +:+ String.substring 0 12 id.

Definition run (workId : string) (claim : val) : prog (option work) :=
  found ← store (Get workId);
  match found with
  | None => Ret None
  | Some record =>
      if terminal (state record) then Ret (Some record)
      else
        now ← clock;
        Token (fun t =>
          local ← store (Claim workId (Str (holder_of workId)) (millis now) (millis (leaseMs cfg)) t);
          match local with
          | None => store (Get workId)
          | Some local => ClaimToken workId (fun claimToken => run_claimed record local claimToken claim)
          end)
  end.
End Executor.
End Executor.
