(* ===== verification/ExecutorSafety.v ===== *)
(** * What recoveries do together

    The runs of the executor over one table, with their timers, the renewals their operations
    ask for, the other callers of the table and crashes; a logic for one run that is sound in
    every interleaving; and what it shows: an operation is only started on authority that
    was checked for it, and at most once for each claim that the owner has proved. *)
From S2P Require Export RecoveryExecutor WorkSafety RecoverySafety.

Module Recoveries.
Export RecoverySafety Executor WorkSafety.

(** ** The system *)
Inductive event :=
| Called (clock : val) (c : call)
| Sent (t : nat) (c : remote)
| Answered (t : nat) (c : remote) (a : answer).

Inductive activity := Running (p : prog unit) | Waiting (c : remote) (k : answer -> prog unit).

(** What a run has learnt, a ghost: the work it has claimed and not yet operated on, and the
    answers it was given. *)
Record know := { permit : option string; heard : list (remote * answer) }.

(** A run: its program, the renewals that were started for it, [leaseLost], the timer. *)
Record thread := {
  main : activity;
  fibers : list activity;
  lost : bool;
  timer : option fence;
  known : know }.

Record world := {
  table : Work.store;
  threads : gmap nat thread;
  log : list event }.

Section System.
Context (sha256 : chars -> chars) (cfg : config).
Notation perform := (perform sha256).
Notation after := (after sha256).

Definition reply (clock : val) (s : Work.store) (c : call) : store_result (option work) := (perform clock s c).1.

Definition gain (c : call) (r : store_result (option work)) (K : know) : know :=
  match c, r with
  | Claim id _ _ _ _, Ok (Some _) => {| permit := Some id; heard := heard K |}
  | _, _ => K
  end.
Definition spend (c : remote) (K : know) : know :=
  match c with Operate _ _ _ => {| permit := None; heard := heard K |} | _ => K end.
Definition hear (c : remote) (a : answer) (K : know) : know :=
  {| permit := permit K; heard := (c, a) :: heard K |}.

(** One step of a program of run [t]: the table, [leaseLost], the timer, what it has learnt,
    what it does next and the events. *)
Inductive op (t : nat) (s : Work.store) (lost_ : bool) (timer_ : option fence) (K : know) :
  prog unit -> Work.store -> bool -> option fence -> know -> activity -> list event -> Prop :=
| op_now k n : op t s lost_ timer_ K (Now k) s lost_ timer_ K (Running (k n)) []
| op_token k x : op t s lost_ timer_ K (Token k) s lost_ timer_ K (Running (k x)) []
| op_store clock c k :
    op t s lost_ timer_ K (Store c k) (after clock s c) lost_ timer_ (gain c (reply clock s c) K)
      (Running (k (reply clock s c))) [Called clock c]
| op_claim_token id k :
    op t s lost_ timer_ K (ClaimToken id k) s lost_ timer_ K (Running (k (getClaimToken s id))) []
| op_call c k : op t s lost_ timer_ K (Call c k) s lost_ timer_ (spend c K) (Waiting c k) [Sent t c]
| op_lease_lost k : op t s lost_ timer_ K (LeaseLost k) s lost_ timer_ K (Running (k lost_)) []
| op_lose_lease k : op t s lost_ timer_ K (LoseLease k) s true timer_ K (Running k) []
| op_start_timer f k : op t s lost_ timer_ K (StartTimer f k) s lost_ (Some f) K (Running k) []
| op_stop_timer k : op t s lost_ timer_ K (StopTimer k) s lost_ None K (Running k) [].

Definition nothing : know := {| permit := None; heard := [] |}.

Definition set_main (th : thread) (a : activity) (K : know) : thread :=
  {| main := a; fibers := fibers th; lost := lost th; timer := timer th; known := K |}.
Definition add_fiber (th : thread) (a : activity) : thread :=
  {| main := main th; fibers := a :: fibers th; lost := lost th; timer := timer th; known := known th |}.

(** An operation runs: it may renew the authority before it sends. *)
Definition operating (th : thread) : bool :=
  match main th with Waiting (Operate _ _ _) _ => true | _ => false end.

Inductive step (w : world) : world -> Prop :=
| step_start t id claim :
    threads w !! t = None ->
    step w {| table := table w;
              threads := <[t := {| main := Running (_ ← Executor.run cfg id claim; Ret tt); fibers := []; lost := false;
                                   timer := None; known := nothing |}]> (threads w);
              log := log w |}
| step_run t th p s' lost' timer' K' a evs :
    threads w !! t = Some th -> main th = Running p ->
    op t (table w) (lost th) (timer th) (known th) p s' lost' timer' K' a evs ->
    step w {| table := s';
              threads := <[t := {| main := a; fibers := fibers th; lost := lost'; timer := timer'; known := K' |}]>
                           (threads w);
              log := log w ++ evs |}
| step_fiber t th before p rest s' lost' timer' K' a evs :
    threads w !! t = Some th -> fibers th = before ++ Running p :: rest ->
    op t (table w) (lost th) (timer th) nothing p s' lost' timer' K' a evs ->
    step w {| table := s';
              threads := <[t := {| main := main th; fibers := before ++ a :: rest; lost := lost'; timer := timer';
                                   known := known th |}]> (threads w);
              log := log w ++ evs |}
| step_tick t th f :
    threads w !! t = Some th -> timer th = Some f ->
    step w {| table := table w; threads := <[t := add_fiber th (Running (tick cfg f))]> (threads w); log := log w |}
| step_renew t th f :
    threads w !! t = Some th -> operating th = true -> timer th = Some f ->
    step w {| table := table w; threads := <[t := add_fiber th (Running (renewAuthority cfg f))]> (threads w);
              log := log w |}
| step_answer t th c k a :
    threads w !! t = Some th -> main th = Waiting c k ->
    step w {| table := table w; threads := <[t := set_main th (Running (k a)) (hear c a (known th))]> (threads w);
              log := log w ++ [Answered t c a] |}
| step_answer_fiber t th before c k rest a :
    threads w !! t = Some th -> fibers th = before ++ Waiting c k :: rest ->
    step w {| table := table w;
              threads := <[t := {| main := main th; fibers := before ++ Running (k a) :: rest; lost := lost th;
                                   timer := timer th; known := known th |}]> (threads w);
              log := log w ++ [Answered t c a] |}
| step_other clock c :
    step w {| table := after clock (table w) c; threads := threads w; log := log w ++ [Called clock c] |}
| step_crash n1 n2 :
    step w {| table := after Undefined (table w) (Open n1 n2); threads := ∅;
              log := log w ++ [Called Undefined (Open n1 n2)] |}.

Definition initial : world := {| table := Work.empty; threads := ∅; log := [] |}.
Definition reachable (w : world) : Prop := rtc step initial w.

(** ** A logic for runs *)

(** The renewal of the claim of a piece of work. *)
Definition renewed_for (record : work) (x : remote * answer) : Prop :=
  exists f v, x = (RenewBaseRecoveryClaim f, Returned v) /\ f_record f = record.

(** The authority on which an operation is started. *)
Record justified (h : list (remote * answer)) (a : recovery_action) (bundle : val) (record : work) : Prop := {
  j_action : a = action_ (about record);
  j_claim : exists claim token at_ au,
    validateAuthoritativeRecoveryClaim claim record token at_ = Ok au /\ bundle = bundle_val (a_bundle au);
  j_selection : action (selectBaseChildRecoveryAction bundle) = a;
  j_renewed : exists x, x ∈ h /\ renewed_for record x;
  j_guard : exists v, (LocalRecoveryGuard bundle record, Returned v) ∈ h /\ v#"valid" = Bool true;
  j_gate : a = submit_base_deposit ->
    exists v, (FreshActiveMandateGate bundle record, Returned v) ∈ h /\ v#"active" = Bool true }.

Definition may_call (K : know) (c : remote) : Prop :=
  match c with
  | Operate a bundle record => permit K = Some (workId (about record)) /\ justified (heard K) a bundle record
  | _ => True
  end.

(** A record is the one that was asked for. *)
Definition genuine (c : call) (r : store_result (option work)) : Prop :=
  match c, r with Get id, Ok (Some w) => workId (about w) = id | _, _ => True end.

(** Every run of the program is allowed and ends with [Q] or fails with [E]. *)
Fixpoint wp {A} (p : prog A) (K : know) (Q : know -> A -> Prop) (E : know -> option string -> Prop) : Prop :=
  match p with
  | Ret a => Q K a
  | Fail code => E K code
  | Now k => forall n, wp (k n) K Q E
  | Token k => forall t, wp (k t) K Q E
  | Store c k => forall r, genuine c r -> wp (k r) (gain c r K) Q E
  | ClaimToken _ k => forall t, wp (k t) K Q E
  | Call c k => may_call K c /\ forall a, wp (k a) (hear c a (spend c K)) Q E
  | LeaseLost k => forall b, wp (k b) K Q E
  | LoseLease k => wp k K Q E
  | StartTimer _ k => wp k K Q E
  | StopTimer k => wp k K Q E
  end.

Definition any {A} (K : know) (a : A) : Prop := True.

Lemma run_wp_mono {A} (p : prog A) K (Q Q' : know -> A -> Prop) (E E' : know -> option string -> Prop) :
  wp p K Q E -> (forall K' a, Q K' a -> Q' K' a) -> (forall K' c, E K' c -> E' K' c) -> wp p K Q' E'.
Proof. revert K. induction p; intros K; cbn; intros; eauto. naive_solver. Qed.

Lemma wp_then_or {A B} (p : prog A) (f : A -> prog B) h K Q E :
  wp p K (fun K' a => wp (f a) K' Q E) (fun K' c => wp (h c) K' Q E) -> wp (then_or p f h) K Q E.
Proof. revert K. induction p; intros K; cbn; intros; eauto. naive_solver. Qed.

Lemma run_wp_bind {A B} (p : prog A) (f : A -> prog B) K Q E :
  wp p K (fun K' a => wp (f a) K' Q E) E -> wp (a ← p; f a) K Q E.
Proof. apply (wp_then_or p f Fail). Qed.

(** *** Programs that neither claim work nor operate on it *)
Fixpoint quiet {A} (p : prog A) : Prop :=
  match p with
  | Ret _ | Fail _ => True
  | Now k => forall n, quiet (k n)
  | Token k => forall t, quiet (k t)
  | Store c k => (match c with Claim _ _ _ _ _ => False | _ => True end) /\ forall r, quiet (k r)
  | ClaimToken _ k => forall t, quiet (k t)
  | Call c k => (match c with Operate _ _ _ => False | _ => True end) /\ forall a, quiet (k a)
  | LeaseLost k => forall b, quiet (k b)
  | LoseLease k => quiet k
  | StartTimer _ k => quiet k
  | StopTimer k => quiet k
  end.

Definition grown (K K' : know) : Prop := permit K' = permit K /\ heard K ⊆ heard K'.

Lemma run_wp_quiet {A} (p : prog A) K :
  quiet p -> wp p K (fun K' _ => grown K K') (fun K' _ => grown K K').
Proof.
  assert (forall K K0, grown K0 K -> quiet p -> wp p K (fun K' _ => grown K0 K') (fun K' _ => grown K0 K')) as H.
  { clear K. induction p as [| |k IH|k IH|c k IH|id k IH|c k IH|k IH|k IH|f k IH|k IH]; intros K K0 Hg; cbn; eauto.
    - intros [Hc Hk] r _. apply IH; [|done]. by destruct c.
    - intros [Hc Hk]. split; [by destruct c|]. intros a. apply IH; [|done].
      assert (spend c K = K) as -> by (by destruct c). destruct Hg as [Hp Hh]. split; [done|].
      cbn. set_solver. }
  intros Hq. apply H; [|done]. by split.
Qed.

Lemma wp_quiet_any {A} (p : prog A) K : quiet p -> wp p K any any.
Proof. intros H. eapply run_wp_mono; [by apply run_wp_quiet|done|done]. Qed.

Lemma quiet_then_or {A B} (p : prog A) (f : A -> prog B) h :
  quiet p -> (forall a, quiet (f a)) -> (forall c, quiet (h c)) -> quiet (then_or p f h).
Proof. induction p; cbn; intros; eauto; naive_solver. Qed.
Lemma run_quiet_bind {A B} (p : prog A) (f : A -> prog B) : quiet p -> (forall a, quiet (f a)) -> quiet (a ← p; f a).
Proof. intros. by apply (quiet_then_or p f Fail). Qed.

Ltac quiet_step := first
  [ exact I | apply run_quiet_bind; [|intros] | apply quiet_then_or; [|intros|intros]
  | match goal with
    | |- quiet (if ?c then _ else _) => destruct c
    | |- quiet (match ?m with _ => _ end) => destruct m
    | |- _ /\ _ => split
    | |- quiet (ask _) => split; [done|intros []; done]
    | |- quiet (Executor.store _) => split; [done|intros []; done]
    end
  | progress cbn; intros | progress intros ].
Ltac quiet := repeat quiet_step; try done.

Lemma quiet_hold record local reason : quiet (hold_work record local reason).
Proof. unfold hold_work, clock. quiet. Qed.
Lemma quiet_hold_or_get record local reason : quiet (hold_or_get record local reason).
Proof. unfold hold_or_get. apply run_quiet_bind; [apply quiet_hold|intros]. quiet. Qed.
Lemma quiet_finish record local st reason ref : quiet (finish_work record local st reason ref).
Proof. unfold finish_work, clock. quiet. Qed.
Lemma run_quiet_release record token : quiet (releaseRemoteClaim cfg record token).
Proof. unfold releaseRemoteClaim, catch. quiet. Qed.
Lemma quiet_renew f : quiet (renewAuthority cfg f).
Proof. unfold renewAuthority, catch, clock. quiet. Qed.
Lemma quiet_tick f : quiet (tick cfg f).
Proof. intros []; [exact I|]. apply quiet_then_or; [apply quiet_renew|done|done]. Qed.
Hint Resolve quiet_hold quiet_hold_or_get quiet_finish run_quiet_release quiet_renew quiet_tick : recovery.

Lemma quiet_on_error record local code : quiet (on_error record local code).
Proof.
  unfold on_error, catch. apply quiet_then_or; [|done|intros; quiet].
  destruct code as [c|]; [|auto with recovery]. destruct (bool_decide _); auto with recovery.
Qed.
Lemma quiet_settle record local v : quiet (settle_operation record local v).
Proof. unfold settle_operation. destruct (state_is _ _); [auto with recovery|]. intros lost_. auto with recovery. Qed.
Lemma quiet_owner_action record local bundle : quiet (Executor.owner_action cfg record local bundle).
Proof.
  unfold Executor.owner_action, catch. destruct (has_projection cfg); [|auto with recovery].
  apply run_quiet_bind; [quiet|]. intros v. destruct (state_is _ _); auto with recovery.
Qed.
Lemma quiet_read record token claim : quiet (read_claim record token claim).
Proof. unfold read_claim. quiet. Qed.
Hint Resolve quiet_on_error quiet_settle quiet_owner_action quiet_read : recovery.

(** *** A run starts an operation only on checked authority *)
Lemma wp_quiet_then {A B} (p : prog A) (f : A -> prog B) h K :
  quiet p -> (forall K' a, grown K K' -> wp (f a) K' any any) -> (forall K' c, grown K K' -> wp (h c) K' any any) ->
  wp (then_or p f h) K any any.
Proof. intros Hq Hf Hh. apply wp_then_or. eapply run_wp_mono; [by apply run_wp_quiet|auto|auto]. Qed.

Lemma wp_any_then {A B} (p : prog A) (f : A -> prog B) h K :
  wp p K any any -> (forall a, quiet (f a)) -> (forall c, quiet (h c)) -> wp (then_or p f h) K any any.
Proof. intros Hp Hf Hh. apply wp_then_or. eapply run_wp_mono; [done| |]; intros; by apply wp_quiet_any. Qed.

(** What a run has when it asks the local guard. *)
Record ready (K : know) (bundle : val) (record : work) : Prop := {
  r_permit : permit K = Some (workId (about record));
  r_claim : exists claim token at_ au,
    validateAuthoritativeRecoveryClaim claim record token at_ = Ok au /\ bundle = bundle_val (a_bundle au);
  r_selection : action (selectBaseChildRecoveryAction bundle) = action_ (about record);
  r_renewed : exists x, x ∈ heard K /\ renewed_for record x }.

Lemma ready_hear K bundle record c a : ready K bundle record -> ready (hear c a K) bundle record.
Proof.
  intros [Hp Hc Hs (x & Hx & Hr)]. split; [done|done|done|]. exists x. split; [|done]. by apply list_elem_of_further.
Qed.

Lemma run_wp_ask {B} c (f : val -> prog B) h K :
  may_call K c ->
  (forall v, wp (f v) (hear c (Returned v) (spend c K)) any any) ->
  (forall code, wp (h code) (hear c (Rejected code) (spend c K)) any any) ->
  wp (then_or (ask c) f h) K any any.
Proof. intros Hc Hf Hh. split; [done|]. intros [v|code]; [apply Hf|apply Hh]. Qed.

Lemma wp_operate record local bundle K v :
  ready K bundle record -> (LocalRecoveryGuard bundle record, Returned v) ∈ heard K -> v#"valid" = Bool true ->
  (action_ (about record) = submit_base_deposit ->
   exists g, (FreshActiveMandateGate bundle record, Returned g) ∈ heard K /\ g#"active" = Bool true) ->
  wp (operate cfg record local bundle) K any any.
Proof.
  intros Hr Hg Hv Hm lost_. destruct lost_; [apply wp_quiet_any; auto with recovery|].
  destruct (negb _); [apply wp_quiet_any; auto with recovery|].
  apply run_wp_ask; [|intros; apply wp_quiet_any; auto with recovery|done].
  destruct Hr. split; [done|]. split; eauto.
Qed.

Lemma wp_gated record local bundle K v :
  ready K bundle record -> (LocalRecoveryGuard bundle record, Returned v) ∈ heard K -> v#"valid" = Bool true ->
  wp (gated cfg record local bundle) K any any.
Proof.
  intros Hr Hg Hv. unfold gated. destruct (bool_decide _) eqn:Ea.
  - apply bool_decide_eq_true in Ea. apply run_wp_ask; [done| |intros; apply wp_quiet_any; auto with recovery].
    intros g. destruct (strict_eq g#"active" (Bool true)) eqn:Hact; cbn [negb];
      [|apply wp_quiet_any; auto with recovery].
    apply strict_eq_eq in Hact. eapply wp_operate; [by apply ready_hear| |done|].
    + by apply list_elem_of_further.
    + intros _. exists g. split; [apply list_elem_of_here|done].
  - apply bool_decide_eq_false in Ea. by eapply wp_operate.
Qed.

Lemma wp_guarded record local bundle K :
  ready K bundle record -> wp (guarded cfg record local bundle) K any any.
Proof.
  intros Hr. apply run_wp_ask; [done| |intros; apply wp_quiet_any; auto with recovery].
  intros v. destruct (strict_eq v#"valid" (Bool true)) eqn:Hv; cbn [negb]; [|apply wp_quiet_any; auto with recovery].
  apply strict_eq_eq in Hv. eapply wp_gated; [by apply ready_hear|apply list_elem_of_here|done].
Qed.

(** The renewal returns only after the agent index has answered. *)
Lemma wp_renew f K :
  wp (renewAuthority cfg f) K
    (fun K' _ => grown K K' /\ exists x, x ∈ heard K' /\ renewed_for (f_record f) x) (fun K' _ => grown K K').
Proof.
  intros []; [by split|]. split; [done|]. intros [v|code].
  - intros n [[w|]|] _; (split; [split; [done|cbn; set_solver]|]) || (split; [done|cbn; set_solver]).
    exists (RenewBaseRecoveryClaim f, Returned v). split; [apply list_elem_of_here|]. by exists f, v.
  - split; [done|cbn; set_solver].
Qed.

Lemma wp_authorized record local token claim at_ a K :
  validateAuthoritativeRecoveryClaim claim record token at_ = Ok a ->
  permit K = Some (workId (about record)) -> wp (authorized cfg record local token a) K any any.
Proof.
  intros Ha Hp. unfold authorized. destruct (_ || _) eqn:Hs; [apply wp_quiet_any; auto with recovery|].
  apply orb_false_iff in Hs as [Hs _]. apply negb_false_iff, bool_decide_eq_true in Hs.
  destruct (given_token token) as [t|]; [|done]. cbv zeta. set (f := {| f_record := record |}).
  apply wp_then_or. eapply run_wp_mono; [apply wp_renew| |done].
  intros K' _ [[Hp' _] Hx] lost_. destruct lost_; [apply wp_quiet_any; auto with recovery|].
  apply wp_guarded. split; [congruence|by exists claim, token, at_, a|done|done].
Qed.

Lemma wp_run id claim : wp (Executor.run cfg id claim) nothing any any.
Proof.
  intros [[record|]|] Hid; [|done|done]. cbn in Hid.
  change (wp (if terminal (state record) then Ret (Some record)
    else now ← clock; Token (fun t =>
      local ← Executor.store (Claim id (Str (holder_of id)) (millis now) (millis (leaseMs cfg)) t);
      match local with
      | None => Executor.store (Get id)
      | Some local => ClaimToken id (fun claimToken => run_claimed cfg record local claimToken claim)
      end)) nothing any any).
  destruct (terminal _); [done|]. intros n t [[local|]|] _; [|by intros [[]|] _|done].
  intros token. apply wp_any_then; [|intros; apply run_quiet_bind; [apply run_quiet_release|done]..].
  apply wp_any_then; [|done|intros; auto with recovery].
  apply wp_quiet_then; [auto with recovery| |done]. intros K given Hg now_.
  destruct (validateAuthoritativeRecoveryClaim given record token now_) as [a|] eqn:Ha;
    [|by cbn; rewrite Ha]. cbn. rewrite Ha. eapply wp_authorized; [done|]. destruct Hg as [-> _]. by rewrite Hid.
Qed.

(** ** The invariant of the system *)
Definition calls_of (l : list event) : list (val * call) :=
  omap (fun e => match e with Called clock c => Some (clock, c) | _ => None end) l.
Definition operates (id : string) (e : event) : bool :=
  match e with Sent _ (Operate _ _ record) => bool_decide (workId (about record) = id) | _ => false end.
(** How often an operation was started on a piece of work. *)
Definition operations (id : string) (l : list event) : Z :=
  Z.of_nat (length (filter (fun e => operates id e = true) l)).

Definition has (id : string) (th : thread) : Z := if decide (permit (known th) = Some id) then 1 else 0.
Definition permits (id : string) (m : gmap nat thread) : Z :=
  Z.of_nat (length (filter (fun x => permit (known x.2) = Some id) (map_to_list m))).
Definition attempts_of (id : string) (s : Work.store) : Z :=
  match rows s !! id with Some w => attempts w | None => 0 end.

Definition good (a : activity) (K : know) : Prop :=
  match a with
  | Running p => wp p K any any
  | Waiting c k => forall r, wp (k r) (hear c r K) any any
  end.
Definition quiet_activity (a : activity) : Prop :=
  match a with
  | Running p => quiet p
  | Waiting c k => forall r, quiet (k r)
  end.

(** Every answer was given to this run. *)
Definition given_in (t : nat) (l : list event) (h : list (remote * answer)) : Prop :=
  forall c a, (c, a) ∈ h -> Answered t c a ∈ l.

Record inv (w : world) : Prop := {
  iv_table : table w = WorkSafety.run sha256 Work.empty (calls_of (log w));
  iv_main : forall t th, threads w !! t = Some th -> good (main th) (known th);
  iv_fibers : forall t th, threads w !! t = Some th -> Forall quiet_activity (fibers th);
  iv_heard : forall t th, threads w !! t = Some th -> given_in t (log w) (heard (known th));
  iv_count : forall id, operations id (log w) + permits id (threads w) <= attempts_of id (table w);
  iv_just : forall l1 t a bundle record l2, log w = l1 ++ Sent t (Operate a bundle record) :: l2 ->
    exists h, justified h a bundle record /\ given_in t l1 h }.

Lemma has_bounds id th : 0 <= has id th <= 1.
Proof. unfold has. destruct (decide _); lia. Qed.

Lemma permits_cons id m t th : m !! t = Some th -> permits id m = has id th + permits id (delete t m).
Proof.
  intros H. unfold permits, has. rewrite <-(Permutation_length (filter_Permutation _ _ _ (map_to_list_delete _ _ _ H))).
  rewrite filter_cons. cbn [snd]. destruct (decide _); [rewrite length_cons|]; lia.
Qed.

Lemma permits_new id m t th : m !! t = None -> permits id (<[t := th]> m) = has id th + permits id m.
Proof.
  intros H. rewrite (permits_cons id _ t th) by apply lookup_insert_eq. by rewrite delete_insert_id.
Qed.

Lemma permits_set id m t th th' :
  m !! t = Some th -> permits id (<[t := th']> m) + has id th = permits id m + has id th'.
Proof.
  intros H. rewrite (permits_cons id (<[t := th']> m) t th') by apply lookup_insert_eq.
  rewrite (permits_cons id m t th H), delete_insert_eq. lia.
Qed.

Lemma operations_app id l l' : operations id (l ++ l') = operations id l + operations id l'.
Proof. unfold operations. rewrite filter_app, length_app. lia. Qed.

Lemma operations_other id e : operates id e = false -> operations id [e] = 0.
Proof. intros H. unfold operations. by rewrite filter_cons_False by (by rewrite H). Qed.
Lemma operations_own id e : operates id e = true -> operations id [e] = 1.
Proof. intros H. unfold operations. by rewrite filter_cons_True. Qed.

Lemma calls_of_app l l' : calls_of (l ++ l') = calls_of l ++ calls_of l'.
Proof. apply omap_app. Qed.

(** *** What a step of a program does to the system *)
Lemma reply_genuine clock s c : filed s -> genuine c (reply clock s c).
Proof.
  intros Hf. destruct c; try done. unfold reply, genuine. cbn. unfold get_work, record_of, row.
  destruct (rows s !! id) as [w|] eqn:Hw; [|done]. destruct (readable w); [|done]. cbn.
  destruct (well_formed w); [|done]. by apply Hf.
Qed.

Lemma after_attempts clock s c id : filed s -> attempts_of id s <= attempts_of id (after clock s c).
Proof.
  intros Hf. unfold attempts_of. destruct (rows s !! id) as [w|] eqn:Hw.
  - destruct (work_after_evolves sha256 clock s c id w Hf Hw) as (w' & Hw' & He).
    rewrite Hw'. destruct He as [->|[_ ? _]%work_moved_evolves]; lia.
  - destruct (keeps_after sha256 clock s c Hf) as [Hs _]. specialize (Hs id). rewrite Hw in Hs.
    destruct (rows (after clock s c) !! id) as [w'|]; [|lia]. destruct Hs as (_ & _ & _ & -> & _). lia.
Qed.

Lemma claim_counts clock s id holder now leaseMs token w :
  (claim clock s id holder now leaseMs token).1 = Ok (Some w) ->
  attempts_of id (claim clock s id holder now leaseMs token).2 = attempts_of id s + 1.
Proof.
  unfold claim. destruct (_ ≫= _) as [[[h ms] at_]|]; [|done].
  destruct (_ !! id) as [w0|] eqn:Hw; [|done]. destruct (claimable _ _); [|done].
  destruct (readable _); [|done]. intros _. unfold attempts_of. cbn. rewrite lookup_insert_eq. cbn.
  unfold update in Hw. rewrite lookup_fmap in Hw. destruct (rows s !! id) as [w1|]; [|done].
  injection Hw as <-. by destruct (is_expired _ _).
Qed.

Definition holds_permit (id : string) (K : know) : Z := if decide (permit K = Some id) then 1 else 0.

Lemma gain_counts clock s c id K :
  filed s ->
  attempts_of id s + holds_permit id (gain c (reply clock s c) K)
  <= attempts_of id (after clock s c) + holds_permit id K.
Proof.
  intros Hf. pose proof (after_attempts clock s c id Hf) as Ha.
  assert (0 <= holds_permit id K) by (unfold holds_permit; destruct (decide _); lia).
  destruct c as [| | |id0 holder now leaseMs token| | | | | | | | |]; cbn [gain]; try lia.
  destruct (reply clock s _) as [[w|]|] eqn:Hr; [|lia..].
  unfold holds_permit at 1. cbn [permit]. destruct (decide _) as [[= ->]|]; [|lia].
  unfold reply in Hr. cbn in Hr. apply claim_counts in Hr. unfold Work.after in *. cbn in *. lia.
Qed.

(** The effect of one step. *)
Inductive effect (t : nat) (s : Work.store) (K : know) : Work.store -> know -> list event -> Prop :=
| ef_none : effect t s K s K []
| ef_called clock c : effect t s K (after clock s c) (gain c (reply clock s c) K) [Called clock c]
| ef_sent c : may_call K c -> effect t s K s (spend c K) [Sent t c].

Lemma op_good t s l tm K p s' l' tm' K' a evs :
  filed s -> op t s l tm K p s' l' tm' K' a evs -> wp p K any any -> good a K' /\ effect t s K s' K' evs.
Proof.
  intros Hf Hop Hwp. destruct Hop; cbn in Hwp; try (split; [by apply Hwp|constructor]).
  - split; [|constructor]. apply Hwp. by apply reply_genuine.
  - split; [intros r; apply (proj2 Hwp)|]. constructor. apply Hwp.
Qed.

(** What a renewal may do. *)
Inductive quiet_effect (t : nat) (s : Work.store) : Work.store -> list event -> Prop :=
| qe_none : quiet_effect t s s []
| qe_called clock c : quiet_effect t s (after clock s c) [Called clock c]
| qe_sent c : (forall a bundle record, c <> Operate a bundle record) -> quiet_effect t s s [Sent t c].

Lemma op_quiet t s l tm K p s' l' tm' K' a evs :
  op t s l tm K p s' l' tm' K' a evs -> quiet p -> quiet_activity a /\ quiet_effect t s s' evs.
Proof.
  intros Hop Hq. destruct Hop; cbn in Hq; try (split; [by apply Hq|constructor]).
  split; [intros r; apply (proj2 Hq)|]. constructor. intros a b r ->. by destruct Hq.
Qed.

Lemma quiet_effect_operations t s s' evs id : quiet_effect t s s' evs -> operations id evs = 0.
Proof. destruct 1 as [| |c Hc]; [done|done|]. unfold operations. cbn. destruct c; try done. by edestruct Hc. Qed.

Lemma quiet_effect_table t s s' evs :
  quiet_effect t s s' evs -> s' = WorkSafety.run sha256 s (calls_of evs).
Proof. by destruct 1. Qed.
Lemma effect_table t s K s' K' evs : effect t s K s' K' evs -> s' = WorkSafety.run sha256 s (calls_of evs).
Proof. by destruct 1. Qed.

Lemma effect_heard t s K s' K' evs : effect t s K s' K' evs -> heard K' = heard K.
Proof. destruct 1 as [|clock c|c]; [done| |by destruct c]. destruct c; try done. cbn. by destruct (reply _ _ _) as [[|]|]. Qed.

Lemma effect_counts t s K s' K' evs id :
  filed s -> effect t s K s' K' evs ->
  operations id evs + holds_permit id K' + attempts_of id s <= attempts_of id s' + holds_permit id K.
Proof.
  intros Hf [|clock c|c Hc].
  - change (operations id []) with 0. lia.
  - pose proof (gain_counts clock s c id K Hf). rewrite (operations_other id (Called clock c)) by done. lia.
  - destruct (operates id (Sent t c)) eqn:Ho; [|rewrite operations_other by done].
    + rewrite operations_own by done. destruct c as [| | | | | |a bundle record]; try done.
      cbn in Ho. apply bool_decide_eq_true in Ho as <-. destruct Hc as [Hp _].
      assert (holds_permit (workId (about record)) K = 1) as -> by (unfold holds_permit; by rewrite decide_True).
      change (holds_permit (workId (about record)) (spend _ K)) with 0. lia.
    + enough (holds_permit id (spend c K) <= holds_permit id K) by lia. unfold holds_permit.
      destruct c; cbn [spend permit]; repeat destruct (decide _); done || lia.
Qed.

(** ** Every reachable state *)
Lemma recoveries_inv_initial : inv initial.
Proof.
  unfold initial. split; cbn [table threads log].
  - done.
  - intros t th H. by rewrite lookup_empty in H.
  - intros t th H. by rewrite lookup_empty in H.
  - intros t th H. by rewrite lookup_empty in H.
  - intros id. unfold operations, permits, attempts_of. cbn. by rewrite lookup_empty.
  - intros l1 t a b r l2 H. by destruct l1.
Qed.

Lemma inv_sound w : inv w -> WorkSafety.sound (table w).
Proof. intros Hi. rewrite (iv_table _ Hi). apply sound_run, work_sound_empty. Qed.

(** Events that start no operation keep every start justified. *)
Lemma just_app l evs :
  (forall l1 t a bundle record l2, l = l1 ++ Sent t (Operate a bundle record) :: l2 ->
     exists h, justified h a bundle record /\ given_in t l1 h) ->
  (forall t a bundle record l1 l2, evs = l1 ++ Sent t (Operate a bundle record) :: l2 ->
     exists h, justified h a bundle record /\ given_in t (l ++ l1) h) ->
  forall l1 t a bundle record l2, l ++ evs = l1 ++ Sent t (Operate a bundle record) :: l2 ->
     exists h, justified h a bundle record /\ given_in t l1 h.
Proof.
  intros Hl He l1 t a bundle record l2 H. apply app_eq_inv in H as [(k & Hk & H)|(k & -> & ->)].
  - destruct k as [|e k]; cbn in H.
    + rewrite app_nil_r in Hk. subst l1. destruct (He t a bundle record [] l2 (eq_sym H)) as (h & Hj & Hg).
      rewrite app_nil_r in Hg. eauto.
    + injection H as <- ->. by apply (Hl _ _ _ _ _ k).
  - by apply (He _ _ _ _ k l2).
Qed.

Lemma given_mono t l l' h : given_in t l h -> given_in t (l ++ l') h.
Proof. intros H c a Hin. apply elem_of_app. left. auto. Qed.

(** A thread is replaced, the table changes and events are added. *)
Lemma recoveries_inv_update w t th th' s' evs :
  inv w -> threads w !! t = Some th ->
  s' = WorkSafety.run sha256 (table w) (calls_of evs) ->
  good (main th') (known th') -> Forall quiet_activity (fibers th') ->
  given_in t (log w ++ evs) (heard (known th')) ->
  (forall id, operations id evs + has id th' + attempts_of id (table w) <= attempts_of id s' + has id th) ->
  (forall t a bundle record l1 l2, evs = l1 ++ Sent t (Operate a bundle record) :: l2 ->
     exists h, justified h a bundle record /\ given_in t (log w ++ l1) h) ->
  inv {| table := s'; threads := <[t := th']> (threads w); log := log w ++ evs |}.
Proof.
  intros [Ht Hm Hfib Hh Hc Hj] Hth -> Hgood Hq Hgiven Hcount Hjust. split; cbn.
  - rewrite calls_of_app, Ht. unfold WorkSafety.run. by rewrite foldl_app.
  - intros t' x [[<- <-]|[_ Hx]]%lookup_insert_Some; eauto.
  - intros t' x [[<- <-]|[_ Hx]]%lookup_insert_Some; eauto.
  - intros t' x [[<- <-]|[_ Hx]]%lookup_insert_Some; [done|]. apply given_mono. eauto.
  - intros id. specialize (Hc id). specialize (Hcount id). rewrite operations_app.
    pose proof (permits_set id (threads w) t th th' Hth). lia.
  - by apply just_app.
Qed.

Lemma quiet_effect_just t0 s s' evs l :
  quiet_effect t0 s s' evs -> forall t a bundle record l1 l2, evs = l1 ++ Sent t (Operate a bundle record) :: l2 ->
     exists h, justified h a bundle record /\ given_in t (l ++ l1) h.
Proof.
  intros H t a bundle record l1 l2 E. destruct H as [|clock c|c Hc].
  - by destruct l1.
  - destruct l1 as [|e l1]; [done|]. by destruct l1.
  - destruct l1 as [|e l1]; [|by destruct l1]. injection E as -> -> _. by edestruct Hc.
Qed.

Lemma effect_just t0 s K s' K' evs l :
  effect t0 s K s' K' evs -> given_in t0 l (heard K) ->
  forall t a bundle record l1 l2, evs = l1 ++ Sent t (Operate a bundle record) :: l2 ->
     exists h, justified h a bundle record /\ given_in t (l ++ l1) h.
Proof.
  intros H Hg t a bundle record l1 l2 E. destruct H as [|clock c|c Hc].
  - by destruct l1.
  - destruct l1 as [|e l1]; [done|]. by destruct l1.
  - destruct l1 as [|e l1]; [|by destruct l1]. injection E as -> -> _. rewrite app_nil_r.
    exists (heard K). split; [apply Hc|done].
Qed.

Lemma no_start (t0 : nat) (s : Work.store) l :
  forall t a bundle record (l1 l2 : list event), [] = l1 ++ Sent t (Operate a bundle record) :: l2 ->
     exists h, justified h a bundle record /\ given_in t (l ++ l1) h.
Proof. apply (quiet_effect_just t0 s s). constructor. Qed.

Lemma fibers_replace before a b rest :
  Forall quiet_activity (before ++ a :: rest) -> (quiet_activity a -> quiet_activity b) ->
  Forall quiet_activity (before ++ b :: rest).
Proof. rewrite !Forall_app, !Forall_cons. tauto. Qed.

Lemma count_same id K K' s : permit K' = permit K -> 0 + holds_permit id K' + attempts_of id s <= attempts_of id s + holds_permit id K.
Proof. intros H. unfold holds_permit. rewrite H. lia. Qed.

Lemma inv_start w t id claim : inv w -> threads w !! t = None ->
  inv {| table := table w;
         threads := <[t := {| main := Running (_ ← Executor.run cfg id claim; Ret tt); fibers := []; lost := false;
                              timer := None; known := nothing |}]> (threads w);
         log := log w |}.
Proof.
  intros [Ht Hm Hfib Hh Hc Hj] Hn. split; cbn; try done.
  - intros t' x [[<- <-]|[_ Hx]]%lookup_insert_Some; [|eauto].
    change (wp (_ ← Executor.run cfg id claim; Ret tt) nothing any any). apply run_wp_bind.
    eapply run_wp_mono; [apply wp_run|done|done].
  - intros t' x [[<- <-]|[_ Hx]]%lookup_insert_Some; [constructor|eauto].
  - intros t' x [[<- <-]|[_ Hx]]%lookup_insert_Some; [by intros ?? ?%elem_of_nil|eauto].
  - intros id'. rewrite permits_new by done. apply Hc.
Qed.

Lemma inv_call w clock c : inv w ->
  inv {| table := after clock (table w) c; threads := threads w; log := log w ++ [Called clock c] |}.
Proof.
  intros Hi. pose proof (so_filed _ (inv_sound w Hi)) as Hf. destruct Hi as [Ht Hm Hfib Hh Hc Hj].
  split; cbn; try done.
  - rewrite calls_of_app, Ht. unfold WorkSafety.run. by rewrite foldl_app.
  - intros t th Hth. apply given_mono. eauto.
  - intros id. pose proof (after_attempts clock (table w) c id Hf). specialize (Hc id).
    rewrite operations_app, operations_other by done. lia.
  - apply just_app; [done|]. intros t a bundle record l1 l2 E. destruct l1 as [|e l1]; [done|by destruct l1].
Qed.

Lemma recoveries_inv_step w w' : inv w -> step w w' -> inv w'.
Proof.
  intros Hi Hs. pose proof (so_filed _ (inv_sound w Hi)) as Hf. destruct Hs.
  - by apply inv_start.
  - pose proof (iv_main _ Hi _ _ H) as Hm. rewrite H0 in Hm.
    destruct (op_good _ _ _ _ _ _ _ _ _ _ _ _ Hf H1 Hm) as [Hg He]. eapply recoveries_inv_update; try done.
    + by eapply effect_table.
    + exact (iv_fibers _ Hi _ _ H).
    + cbn [known]. rewrite (effect_heard _ _ _ _ _ _ He). apply given_mono. exact (iv_heard _ Hi _ _ H).
    + intros id. exact (effect_counts _ _ _ _ _ _ id Hf He).
    + eapply effect_just; [done|]. exact (iv_heard _ Hi _ _ H).
  - pose proof (iv_fibers _ Hi _ _ H) as Hq. rewrite H0 in Hq.
    assert (quiet p) as Hp by (apply Forall_app in Hq as [_ Hq]; by inversion Hq).
    destruct (op_quiet _ _ _ _ _ _ _ _ _ _ _ _ H1 Hp) as [Ha He]. eapply recoveries_inv_update; try done.
    + by eapply quiet_effect_table.
    + exact (iv_main _ Hi _ _ H).
    + by eapply fibers_replace.
    + apply given_mono. exact (iv_heard _ Hi _ _ H).
    + intros id. rewrite (quiet_effect_operations _ _ _ _ id He). unfold has. cbn.
      assert (attempts_of id (table w) <= attempts_of id s') by
        (destruct He; [lia|by apply after_attempts|lia]). lia.
    + by eapply quiet_effect_just.
  - rewrite <-(app_nil_r (log w)). eapply recoveries_inv_update; try done.
    + exact (iv_main _ Hi _ _ H).
    + constructor; [apply quiet_tick|exact (iv_fibers _ Hi _ _ H)].
    + rewrite app_nil_r. exact (iv_heard _ Hi _ _ H).
    + intros id. change (operations id []) with 0. unfold has. cbn. lia.
    + by apply (no_start t (table w)).
  - rewrite <-(app_nil_r (log w)). eapply recoveries_inv_update; try done.
    + exact (iv_main _ Hi _ _ H).
    + constructor; [apply quiet_renew|exact (iv_fibers _ Hi _ _ H)].
    + rewrite app_nil_r. exact (iv_heard _ Hi _ _ H).
    + intros id. change (operations id []) with 0. unfold has. cbn. lia.
    + by apply (no_start t (table w)).
  - pose proof (iv_main _ Hi _ _ H) as Hm. rewrite H0 in Hm. eapply recoveries_inv_update; try done.
    + apply Hm.
    + exact (iv_fibers _ Hi _ _ H).
    + intros c' a' [[= -> ->]|Hin]%elem_of_cons; apply elem_of_app; [right; apply list_elem_of_here|left].
      exact (iv_heard _ Hi _ _ H _ _ Hin).
    + intros id. rewrite operations_other by done. unfold has. cbn. lia.
    + intros t' a' bundle record l1 l2 E. destruct l1 as [|e l1]; [done|by destruct l1].
  - pose proof (iv_fibers _ Hi _ _ H) as Hq. rewrite H0 in Hq. eapply recoveries_inv_update; try done.
    + exact (iv_main _ Hi _ _ H).
    + eapply fibers_replace; [done|]. intros Hk. apply Hk.
    + apply given_mono. exact (iv_heard _ Hi _ _ H).
    + intros id. rewrite operations_other by done. unfold has. cbn. lia.
    + intros t' a' bundle record l1 l2 E. destruct l1 as [|e l1]; [done|by destruct l1].
  - by apply inv_call.
  - destruct (inv_call w Undefined (Open n1 n2) Hi) as [Ht Hm Hfib Hh Hc Hj].
    split; [exact Ht|intros t th Hth; cbn in Hth; by rewrite lookup_empty in Hth..| |exact Hj].
    intros id. specialize (Hc id). cbn [log threads table] in *.
    assert (0 <= permits id (threads w)) by (unfold permits; lia).
    change (permits id ∅) with 0. lia.
Qed.

Lemma recoveries_reachable_inv w : reachable w -> inv w.
Proof.
  intros H. unfold reachable in H. assert (inv initial) as Hi by apply recoveries_inv_initial.
  induction H as [|x y z Hxy _ IH]; [done|]. apply IH. by eapply recoveries_inv_step.
Qed.

(** C2. However runs, their timers, other callers and crashes interleave, an operation on a
    piece of work (a poll or a submission) is started at most once for the creation of the
    work and once for each claim that its owner proved afterwards. *)
Theorem operations_within_proofs w id :
  reachable w -> operations id (log w) <= 1 + proofs id (calls_of (log w)).
Proof.
  intros Hr%recoveries_reachable_inv. pose proof (iv_count _ Hr id) as Hc.
  assert (0 <= permits id (threads w)) by (unfold permits; lia).
  assert (attempts_of id (table w) <= 1 + proofs id (calls_of (log w))); [|lia].
  unfold attempts_of. rewrite (iv_table _ Hr). destruct (rows _ !! id) as [x|] eqn:Hx.
  - by eapply attempts_within_proofs.
  - assert (0 <= proofs id (calls_of (log w))) by (unfold proofs; lia). lia.
Qed.

End System.
End Recoveries.
