(* ===== verification/ExecutorSample.v ===== *)
(** * A recovery from its request to its end

    A scheduler that plays the system of ExecutorSafety.v, one move after another, and the
    recovery of the child of RecoverySample.v whose mint is submitted: enqueued, claimed,
    checked, operated on while the authority is renewed once, and finished.  It shows that the
    hypotheses of the theorems about recoveries can hold. *)
From S2P Require Export ExecutorSafety RecoverySample.

Module ExecutorSample.
Import Recoveries.

(** ** Playing the system *)
Inductive move :=
| Start (t : nat) (id : string) (claim : val)
| Run (t : nat) (now : Z) (token : string)
| Answer (t : nat) (a : answer)
| Renew (t : nat)
| RunFiber (t : nat) (now : Z)
| AnswerFiber (t : nat) (a : answer)
| Other (now : Z) (c : call)
| Crash (now : Z).

Section Play.
Context (sha256 : chars -> chars) (cfg : config).
Notation step := (step sha256 cfg).

(** What one step of a program leaves: the table, [leaseLost], the timer, what it has learnt,
    what it does next and the events. *)
Definition effects : Type := (Work.store * bool * option fence * know * activity * list event)%type.

Definition run_op (t : nat) (s : Work.store) (l : bool) (tm : option fence) (K : know) (p : prog unit)
    (now : Z) (token : string) : option effects :=
  match p with
  | Ret _ | Fail _ => None
  | Now k => Some (s, l, tm, K, Running (k now), [])
  | Token k => Some (s, l, tm, K, Running (k token), [])
  | Store c k =>
      let clock := Number (Num now) in
      Some (Work.after sha256 clock s c, l, tm, gain c (reply sha256 clock s c) K,
            Running (k (reply sha256 clock s c)), [Called clock c])
  | ClaimToken id k => Some (s, l, tm, K, Running (k (getClaimToken s id)), [])
  | Call c k => Some (s, l, tm, spend c K, Waiting c k, [Sent t c])
  | LeaseLost k => Some (s, l, tm, K, Running (k l), [])
  | LoseLease k => Some (s, true, tm, K, Running k, [])
  | StartTimer f k => Some (s, l, Some f, K, Running k, [])
  | StopTimer k => Some (s, l, None, K, Running k, [])
  end.

Lemma run_op_sound t s l tm K p now token s' l' tm' K' a evs :
  run_op t s l tm K p now token = Some (s', l', tm', K', a, evs) -> op sha256 t s l tm K p s' l' tm' K' a evs.
Proof. destruct p; cbn; intros; simplify_eq; constructor. Qed.

Definition put (w : world) (s : Work.store) (t : nat) (th : thread) (evs : list event) : world :=
  {| table := s; threads := <[t := th]> (threads w); log := log w ++ evs |}.

Definition advance (w : world) (m : move) : option world :=
  match m with
  | Start t id claim =>
      match threads w !! t with
      | Some _ => None
      | None =>
          Some {| table := table w;
                  threads := <[t := {| main := Running (_ ← Executor.run cfg id claim; Ret tt); fibers := [];
                                       lost := false; timer := None; known := nothing |}]> (threads w);
                  log := log w |}
      end
  | Run t now token =>
      th ← threads w !! t;
      match main th with
      | Running p =>
          e ← run_op t (table w) (lost th) (timer th) (known th) p now token;
          let '(s, l, tm, K, a, evs) := e in
          Some (put w s t {| main := a; fibers := fibers th; lost := l; timer := tm; known := K |} evs)
      | Waiting _ _ => None
      end
  | Answer t a =>
      th ← threads w !! t;
      match main th with
      | Waiting c k => Some (put w (table w) t (set_main th (Running (k a)) (hear c a (known th))) [Answered t c a])
      | Running _ => None
      end
  | Renew t =>
      th ← threads w !! t;
      match timer th with
      | Some f =>
          if operating th then
            Some {| table := table w; threads := <[t := add_fiber th (Running (renewAuthority cfg f))]> (threads w);
                    log := log w |}
          else None
      | None => None
      end
  | RunFiber t now =>
      th ← threads w !! t;
      match fibers th with
      | Running p :: rest =>
          e ← run_op t (table w) (lost th) (timer th) nothing p now EmptyString;
          let '(s, l, tm, K, a, evs) := e in
          Some (put w s t {| main := main th; fibers := a :: rest; lost := l; timer := tm; known := known th |} evs)
      | _ => None
      end
  | AnswerFiber t a =>
      th ← threads w !! t;
      match fibers th with
      | Waiting c k :: rest =>
          Some (put w (table w) t {| main := main th; fibers := Running (k a) :: rest; lost := lost th;
                                     timer := timer th; known := known th |} [Answered t c a])
      | _ => None
      end
  | Other now c =>
      let clock := Number (Num now) in
      Some {| table := Work.after sha256 clock (table w) c; threads := threads w; log := log w ++ [Called clock c] |}
  | Crash now =>
      Some {| table := Work.after sha256 Undefined (table w) (Open now now); threads := ∅;
              log := log w ++ [Called Undefined (Open now now)] |}
  end.

Lemma advance_sound w m w' : advance w m = Some w' -> step w w'.
Proof.
  destruct m; cbn [advance]; intros H.
  - destruct (threads w !! t) eqn:E; [done|]. injection H as <-. by constructor.
  - apply bind_Some in H as (th & Hth & H). destruct (main th) as [p|] eqn:Hm; [|done].
    apply bind_Some in H as ([[[[[s l] tm] K] a] evs] & He & [= <-]). apply run_op_sound in He.
    by eapply step_run.
  - apply bind_Some in H as (th & Hth & H). destruct (main th) as [|c k] eqn:Hm; [done|]. injection H as <-.
    by eapply step_answer.
  - apply bind_Some in H as (th & Hth & H). destruct (timer th) as [f|] eqn:Hf; [|done].
    destruct (operating th) eqn:Ho; [|done]. injection H as <-. by eapply step_renew.
  - apply bind_Some in H as (th & Hth & H). destruct (fibers th) as [|[p|] rest] eqn:Hm; [done| |done].
    apply bind_Some in H as ([[[[[s l] tm] K] a] evs] & He & [= <-]). apply run_op_sound in He.
    by eapply (step_fiber sha256 cfg w t th []).
  - apply bind_Some in H as (th & Hth & H). destruct (fibers th) as [|[|c k] rest] eqn:Hm; [done|done|].
    injection H as <-. by eapply (step_answer_fiber sha256 cfg w t th []).
  - injection H as <-. constructor.
  - injection H as <-. constructor.
Qed.

(** A move that is not possible is left out. *)
Definition play (moves : list move) : world :=
  foldl (fun w m => default w (advance w m)) initial moves.

Lemma play_reachable moves : reachable sha256 cfg (play moves).
Proof.
  unfold play, reachable. generalize initial. induction moves as [|m moves IH]; intros w; [done|]. cbn.
  destruct (advance w m) as [w'|] eqn:E; [|apply IH].
  eapply rtc_l; [by eapply advance_sound|apply IH].
Qed.
End Play.

(** ** The recovery of a mint *)
Local Open Scope string_scope.
Local Open Scope list_scope.

Definition sha256 (l : chars) : chars := replicate 64 (if Nat.even (length l) then "a"%char else "b"%char).
Definition cfg : config := {|
  leaseMs := 30000; has_operation := fun _ => true; has_projection := true; has_release := true |}.

Definition id : string := string_of (replicate 64 "a"%char).
Definition proof : string := string_of (replicate 64 "5"%char).
Definition version : val := RecoverySample.number 2.

Definition request : enqueue_input := {|
  i_workId := Some id; i_identity := RecoverySample.identity; i_evidenceVersion := version;
  i_action := Str "submit-mint"; i_mandateId := Str RecoverySample.binding;
  i_farmJobId := Some RecoverySample.child; i_farmIntentDigest := None; i_claimToken := Str proof;
  i_leaseToken := Str proof; i_now := RecoverySample.number 1000 |}.

(** An older piece of work of the child, whose token the process has not. *)
Definition older : enqueue_input := {|
  i_workId := None; i_identity := RecoverySample.identity; i_evidenceVersion := RecoverySample.number 1;
  i_action := Str "poll-attestation"; i_mandateId := Str RecoverySample.binding;
  i_farmJobId := Some RecoverySample.child; i_farmIntentDigest := None; i_claimToken := Null;
  i_leaseToken := Null; i_now := RecoverySample.number 900 |}.
Definition history : list (val * call) := [(Undefined, Enqueue older); (Undefined, Enqueue request)].
Definition table_ : Work.store := WorkSafety.run sha256 Work.empty history.
Definition swept : Work.store := (reconcileExpired Undefined table_ (millis 2000) (RecoverySample.number 1)).2.

Lemma readable_all (s : Work.store) :
  forallb (fun x => readable x.2) (map_to_list (rows s)) = true ->
  forall i w, rows s !! i = Some w -> readable w = true.
Proof.
  rewrite forallb_forall. intros H i w Hw. apply (H (i, w)), list_elem_of_In. by apply elem_of_map_to_list.
Qed.


Definition enqueued : option work := rows table_ !! id.
Lemma recovery_work_history_witness :
  exists w, enqueued = Some w /\ workId (about w) = id /\ lease_shape w /\ backed table_
    /\ exists w', rows (WorkSafety.run sha256 Work.empty (history ++ [(Undefined, Open 3000 3000)])) !! id = Some w'
         /\ evolves w w'.
Proof.
  unfold enqueued. destruct (rows table_ !! id) as [w|] eqn:E; [|exfalso; revert E; vm_compute; discriminate].
  exists w. split; [reflexivity|]. exact (recovery_work_history sha256 history [(Undefined, Open 3000 3000)] id w E).
Defined.

Definition lease : val := Obj [
  ("identity", RecoverySample.identity); ("owner", Str "GOWNER"); ("action", Str "submit-mint");
  ("phase", Str "cctp_mint"); ("evidenceVersion", version); ("holder", Str "tab");
  ("leaseToken", Str proof); ("acquiredAt", RecoverySample.number 0);
  ("expiresAt", RecoverySample.number 90000)].
Definition claim : val := Obj [
  ("ok", Bool true); ("identity", RecoverySample.identity); ("action", Str "submit-mint");
  ("phase", Str "cctp_mint"); ("reasonCode", Str "base-attestation-confirmed");
  ("evidenceVersion", version); ("lease", lease); ("bundle", RecoverySample.before_mint)].

Definition steps_at (now : Z) (n : nat) : list move := replicate n (Run 0 now "lease").
Definition accepted : answer := Returned (Obj [("valid", Bool true)]).

(** The request, the claim, the checks, and the start of the operation. *)
Definition opening : list move :=
  [Other 1000 (Enqueue request); Start 0 id claim]
  ++ steps_at 1001 8 (* the record, the lease, the claim, the renewal *)
  ++ [Answer 0 (Returned Undefined)] ++ steps_at 1002 5 (* the heartbeat, the timer, the guard *)
  ++ [Answer 0 accepted] ++ steps_at 1003 2.
(** The operation renews the authority before it sends, and returns. *)
Definition closing : list move :=
  [Renew 0; RunFiber 0 1004; RunFiber 0 1004; AnswerFiber 0 (Returned Undefined); RunFiber 0 1005; RunFiber 0 1005;
   Answer 0 (Returned (Obj [("state", Str "done")]))] ++ steps_at 2000 5 ++ [Answer 0 (Returned Undefined)].

Definition started : world := play sha256 cfg opening.
Definition finished : world := play sha256 cfg (opening ++ closing).

Definition state_of (w : world) : option work_state := Work.state <$> rows (table w) !! id.

Example recovery_of_a_mint :
  (state_of started, operations id (log started), state_of finished, operations id (log finished),
   attempts_of id (table finished), tokens (table finished) !! id)
  = (Some Work.Running, 1, Some Work.Done, 1, 1, None).
Proof. vm_compute. reflexivity. Qed.

(** After a crash the work is held; without a proof it is not claimed again, and with one it is
    operated on a second time, which is as often as the bound allows. *)
Definition restarted : list move := opening ++ [Crash 40000; Start 0 id claim] ++ steps_at 41000 20.
Definition proved_again : list move :=
  opening ++ [Crash 40000; Other 41000 (ReattachProven id (Str proof) true Undefined); Start 0 id claim]
  ++ steps_at 41001 8 ++ [Answer 0 (Returned Undefined)] ++ steps_at 41002 5 ++ [Answer 0 accepted] ++ steps_at 41003 2.

Example recovery_after_a_crash :
  let w := play sha256 cfg restarted in
  let w' := play sha256 cfg proved_again in
  (state_of w, operations id (log w), state_of w', operations id (log w'), proofs id (calls_of (log w')))
  = (Some Work.Held, 1, Some Work.Running, 2, 1).
Proof. vm_compute. reflexivity. Qed.

Lemma operations_within_proofs_witness :
  operations id (log (play sha256 cfg proved_again)) = 2
  /\ operations id (log (play sha256 cfg proved_again))
     <= 1 + proofs id (calls_of (log (play sha256 cfg proved_again))).
Proof.
  split; [vm_compute; reflexivity|].
  apply (operations_within_proofs sha256 cfg). apply play_reachable.
Defined.

(** The start of the operation, the last event of [started]. *)
Definition start_of (l : list event) : option (nat * recovery_action * val * work) :=
  match last l with Some (Sent t (Operate a bundle record)) => Some (t, a, bundle, record) | _ => None end.
Lemma start_last l t a bundle record :
  start_of l = Some (t, a, bundle, record) -> l = removelast l ++ [Sent t (Operate a bundle record)].
Proof.
  unfold start_of. destruct (last l) as [e|] eqn:E; [|done]. intros H.
  assert (e = Sent t (Operate a bundle record)) as -> by (by destruct e as [|? []|]; simplify_eq).
  apply last_Some in E as [l' ->]. by rewrite removelast_last.
Qed.

Definition the_start : option (nat * recovery_action * val * work) := start_of (log started).
Definition started_bundle : val := match the_start with Some (_, _, b, _) => b | None => Undefined end.
Definition started_work : option work := match the_start with Some (_, _, _, r) => Some r | None => None end.

End ExecutorSample.
