(* ===== verification/MessageV2.v ===== *)
(** * Attested burn messages

    Models [relayer/src/cctp/messageV2.mjs]: the parser of the wire layout and the comparison of
    a parsed message with the immutable expectation; and the selection of a message among
    Circle's candidates of [relayer/src/cctp/iris.mjs].  Only the code of an error is kept. *)
From S2P Require Export JsValue Hex.
From S2P Require Import RelayStore RelayCanonical.

Module MessageV2.
Import Hex.

Inductive cctp_error :=
| CCTP_MESSAGE_FORMAT | CCTP_MESSAGE_LENGTH | CCTP_MESSAGE_VERSION | CCTP_MESSAGE_MISMATCH
| CCTP_MESSAGE_AMBIGUOUS | CCTP_EXPECTATION_REQUIRED | CCTP_ATTESTATION_TIMEOUT.

#[global] Instance cctp_error_eq_dec : EqDecision cctp_error.
Proof. solve_decision. Defined.

Definition HEADER_VERSION : Z := 1.
Definition BODY_VERSION : Z := 1.
Definition FINALITY_FAST : Z := 1000.
Definition FINALITY_STANDARD : Z := 2000.
Definition SUPPORTED_EXECUTED_FINALITIES : list Z := [FINALITY_FAST; FINALITY_STANDARD].
Definition BURN_UNITS7_PER_MESSAGE_UNIT : Z := 10.
Definition MIN_MESSAGE_BYTES : nat := 376.

Definition ZERO_BYTES32 : chars := prefix ++ replicate 64 "0"%char.

(** ** The parser *)
Record message := {
  headerVersion : Z; sourceDomain : Z; destinationDomain : Z;
  nonce : chars; sender : chars; recipient : chars; destinationCaller : chars;
  minFinalityThreshold : Z; finalityThresholdExecuted : Z; bodyVersion : Z;
  burnToken : chars; mintRecipient : chars; amount : Z; messageSender : chars;
  maxFee : Z; feeExecuted : Z; expirationBlock : Z; hookData : chars;
}.

Definition readU32 (bytes : chars) (off : nat) : Z := be_value (slice off 4 bytes).
Definition readU256 (bytes : chars) (off : nat) : Z := be_value (slice off 32 bytes).
Definition readBytes32 (bytes : chars) (off : nat) : chars := prefix ++ to_hex (slice off 32 bytes).

(** The fields at the offsets of the layout. *)
Definition read_message (bytes : chars) : message := {|
  headerVersion := readU32 bytes 0;
  sourceDomain := readU32 bytes 4;
  destinationDomain := readU32 bytes 8;
  nonce := readBytes32 bytes 12;
  sender := readBytes32 bytes 44;
  recipient := readBytes32 bytes 76;
  destinationCaller := readBytes32 bytes 108;
  minFinalityThreshold := readU32 bytes 140;
  finalityThresholdExecuted := readU32 bytes 144;
  bodyVersion := readU32 bytes 148;
  burnToken := readBytes32 bytes 152;
  mintRecipient := readBytes32 bytes 184;
  amount := readU256 bytes 216;
  messageSender := readBytes32 bytes 248;
  maxFee := readU256 bytes 280;
  feeExecuted := readU256 bytes 312;
  expirationBlock := readU256 bytes 344;
  hookData := prefix ++ to_hex (drop 376 bytes) |}.

Definition parse_text (text : chars) : result cctp_error message :=
  match after_0x text with
  | None => Throw CCTP_MESSAGE_FORMAT
  | Some hex =>
      if (length hex =? 0)%nat || negb (Nat.even (length hex)) || negb (forallb is_hex_digit hex)
      then Throw CCTP_MESSAGE_FORMAT
      else
        let bytes := from_hex hex in
        if (length bytes <? MIN_MESSAGE_BYTES)%nat then Throw CCTP_MESSAGE_LENGTH
        else if negb (readU32 bytes 0 =? HEADER_VERSION) then Throw CCTP_MESSAGE_VERSION
        else if negb (readU32 bytes 148 =? BODY_VERSION) then Throw CCTP_MESSAGE_VERSION
        else Ok (read_message bytes)
  end.

Definition parseCctpV2Message (messageHex : val) : result cctp_error message :=
  match messageHex with Str s => parse_text (chars_of s) | _ => Throw CCTP_MESSAGE_FORMAT end.

(** ** The comparison *)
Definition assertField (ok : bool) : result cctp_error unit :=
  guard_throw ok CCTP_MESSAGE_MISMATCH.

Definition expectBigInt (v : val) : result cctp_error Z :=
  match v with
  | Str s => if all_digits (chars_of s) then Ok (of_digits (chars_of s)) else Throw CCTP_MESSAGE_MISMATCH
  | Number (Num z) =>
      if isSafeInteger (Num z) && (0 <=? z) then Ok z else Throw CCTP_MESSAGE_MISMATCH
  | _ => Throw CCTP_MESSAGE_MISMATCH
  end.

(** [parsed.f === expectBigInt(v)] *)
Definition assertBigInt (parsed : Z) (v : val) : result cctp_error unit :=
  z ← expectBigInt v; assertField (parsed =? z).

(** [typeof v === 'string' && parsed.f === v] *)
Definition assertText (parsed : chars) (v : val) : result cctp_error unit :=
  assertField (match v with Str s => bool_decide (parsed = chars_of s) | _ => false end).

Section Fields.
Local Open Scope string_scope.

Definition assert_texts (m : message) (e : val) : result cctp_error unit :=
  _ ← assertText (sender m) e#"sender";
  _ ← assertText (recipient m) e#"recipient";
  _ ← assertText (destinationCaller m) e#"destinationCaller";
  _ ← assertText (burnToken m) e#"burnToken";
  _ ← assertText (mintRecipient m) e#"mintRecipient";
  _ ← assertText (messageSender m) e#"messageSender";
  assertText (hookData m) e#"hookData".

Definition assert_forward (m : message) (e : val) : result cctp_error unit :=
  _ ← assertField (bool_decide (destinationCaller m = ZERO_BYTES32));
  _ ← assertField (minFinalityThreshold m =? FINALITY_STANDARD)%Z;
  _ ← assertField (maxFee m =? 0)%Z;
  _ ← assertField (feeExecuted m =? 0)%Z;
  burnUnits7 ← expectBigInt e#"burnUnits7";
  _ ← assertField (burnUnits7 `rem` BURN_UNITS7_PER_MESSAGE_UNIT =? 0)%Z;
  assertField (amount m =? burnUnits7 `quot` BURN_UNITS7_PER_MESSAGE_UNIT)%Z.

Definition assert_reverse (m : message) (e : val) : result cctp_error unit :=
  _ ← assertField (strict_eq e#"burnUnits7" Null);
  assertBigInt (amount m) e#"amount".

Definition assertCctpV2BurnMatches (messageHex e : val) : result cctp_error message :=
  m ← parseCctpV2Message messageHex;
  _ ← assertField (is_object e || is_array e);
  _ ← assertField (strict_eq e#"version" (Number (Num 1)));
  _ ← assertBigInt (sourceDomain m) e#"sourceDomain";
  _ ← assertBigInt (destinationDomain m) e#"destinationDomain";
  _ ← assert_texts m e;
  _ ← assertBigInt (minFinalityThreshold m) e#"minFinalityThreshold";
  _ ← assertField (bool_decide (finalityThresholdExecuted m ∈ SUPPORTED_EXECUTED_FINALITIES));
  _ ← assertField (minFinalityThreshold m <=? finalityThresholdExecuted m)%Z;
  _ ← assertBigInt (maxFee m) e#"maxFee";
  _ ← assertField (feeExecuted m <=? maxFee m)%Z;
  _ ← (if strict_eq e#"direction" (Str "stellar-to-base") then assert_forward m e
       else if strict_eq e#"direction" (Str "base-to-stellar") then assert_reverse m e
       else Throw CCTP_MESSAGE_MISMATCH);
  Ok m.

(** ** Circle's candidates *)
Definition isCompleteCandidate (c : val) : bool :=
  truthy c && strict_eq c#"status" (Str "complete")
  && truthy c#"attestation" && negb (strict_eq c#"attestation" (Str "PENDING"))
  && is_string c#"message" && negb (strict_eq c#"message" (Str EmptyString)).

(** The message, its attestation and its parse. *)
Record selected := { sel_message : val; sel_attestation : val; sel_parsed : message }.

(** The matches of the loop over the candidates. *)
Fixpoint matches_of (candidates : list val) (e : val) : list selected :=
  match candidates with
  | [] => []
  | c :: cs =>
      if negb (isCompleteCandidate c) then matches_of cs e
      else
        match assertCctpV2BurnMatches c#"message" e with
        | Ok m =>
            {| sel_message := c#"message"; sel_attestation := c#"attestation"; sel_parsed := m |}
            :: matches_of cs e
        | Throw _ => matches_of cs e
        end
  end.

Definition hasPending (candidates : list val) : bool :=
  existsb (fun c => negb (isCompleteCandidate c)) candidates.

(** [None] when the response is not ready. *)
Definition selectUniqueMatch (candidates e : val) : result cctp_error (option selected) :=
  match candidates with
  | Arr (c :: cs) =>
      match matches_of (c :: cs) e with
      | _ :: _ :: _ => Throw CCTP_MESSAGE_AMBIGUOUS
      | ms =>
          if hasPending (c :: cs) then Ok None
          else match ms with m :: _ => Ok (Some m) | [] => Throw CCTP_MESSAGE_MISMATCH end
      end
  | _ => Ok None
  end.

(** The bodies of the responses in order; a failed request or a body that is no JSON is [Null]. *)
Fixpoint poll_loop (responses : nat -> val) (attempt fuel : nat) (e : val) : result cctp_error selected :=
  match fuel with
  | O => Throw CCTP_ATTESTATION_TIMEOUT
  | S fuel =>
      o ← selectUniqueMatch (responses attempt)#"messages" e;
      match o with Some m => Ok m | None => poll_loop responses (S attempt) fuel e end
  end.

Definition pollAttestation (responses : nat -> val) (maxAttempts : Z) (e : val)
    : result cctp_error selected :=
  if nullish e then Throw CCTP_EXPECTATION_REQUIRED
  else poll_loop responses 0 (Z.to_nat maxAttempts) e.
End Fields.
End MessageV2.

(** ** The layout *)
Section Layout.
Import Hex MessageV2.

(** The bytes of a field written as ["0x…"]. *)
Definition raw (field : chars) : chars := from_hex (drop 2 field).

(** The wire form of a message: its fields in order, integers big-endian. *)
Definition wire_bytes (m : message) : chars :=
  be_bytes 4 (headerVersion m) ++ be_bytes 4 (sourceDomain m) ++ be_bytes 4 (destinationDomain m)
  ++ raw (nonce m) ++ raw (sender m) ++ raw (recipient m) ++ raw (destinationCaller m)
  ++ be_bytes 4 (minFinalityThreshold m) ++ be_bytes 4 (finalityThresholdExecuted m)
  ++ be_bytes 4 (bodyVersion m) ++ raw (burnToken m) ++ raw (mintRecipient m)
  ++ be_bytes 32 (amount m) ++ raw (messageSender m) ++ be_bytes 32 (maxFee m)
  ++ be_bytes 32 (feeExecuted m) ++ be_bytes 32 (expirationBlock m) ++ raw (hookData m).

Definition u32 (z : Z) : Prop := 0 <= z < 256 ^ 4.
Definition u256 (z : Z) : Prop := 0 <= z < 256 ^ 32.
(** Lowercase hexadecimal of whole bytes after ["0x"]. *)
Definition hex_field (f : chars) : Prop := f = prefix ++ to_hex (raw f).
Definition bytes32 (f : chars) : Prop := hex_field f /\ length (raw f) = 32%nat.

Record well_formed (m : message) : Prop := {
  wf_header : headerVersion m = 1; wf_body : bodyVersion m = 1;
  wf_source : u32 (sourceDomain m); wf_destination : u32 (destinationDomain m);
  wf_nonce : bytes32 (nonce m); wf_sender : bytes32 (sender m);
  wf_recipient : bytes32 (recipient m); wf_caller : bytes32 (destinationCaller m);
  wf_min : u32 (minFinalityThreshold m); wf_executed : u32 (finalityThresholdExecuted m);
  wf_token : bytes32 (burnToken m); wf_mint : bytes32 (mintRecipient m);
  wf_amount : u256 (amount m); wf_message_sender : bytes32 (messageSender m);
  wf_max : u256 (maxFee m); wf_fee : u256 (feeExecuted m);
  wf_expiration : u256 (expirationBlock m); wf_hook : hex_field (hookData m);
}.

Lemma raw_prefix l : raw (prefix ++ to_hex l) = l.
Proof. unfold raw. cbn. apply from_to_hex. Qed.

Lemma be_slice off n l :
  (off + n <= length l)%nat -> be_bytes n (be_value (slice off n l)) = slice off n l.
Proof. intros H. rewrite <- (slice_length off n l H) at 1. apply be_bytes_value. Qed.

Lemma encode_read bytes : (376 <= length bytes)%nat -> wire_bytes (read_message bytes) = bytes.
Proof.
  intros Hl. unfold wire_bytes, read_message, readU32, readU256, readBytes32.
  cbn [headerVersion sourceDomain destinationDomain nonce sender recipient destinationCaller
    minFinalityThreshold finalityThresholdExecuted bodyVersion burnToken mintRecipient amount
    messageSender maxFee feeExecuted expirationBlock hookData].
  rewrite !raw_prefix, !be_slice by lia. rewrite <- (drop_0 bytes) at 19.
  rewrite (drop_slice 0 4), (drop_slice 4 4), (drop_slice 8 4), (drop_slice 12 32),
    (drop_slice 44 32), (drop_slice 76 32), (drop_slice 108 32), (drop_slice 140 4),
    (drop_slice 144 4), (drop_slice 148 4), (drop_slice 152 32), (drop_slice 184 32),
    (drop_slice 216 32), (drop_slice 248 32), (drop_slice 280 32), (drop_slice 312 32),
    (drop_slice 344 32). reflexivity.
Qed.

Lemma skip_be k z off n r : (k <= off)%nat -> slice off n (be_bytes k z ++ r) = slice (off - k) n r.
Proof. apply slice_skip, be_bytes_length. Qed.
Lemma skip_raw f off n r :
  bytes32 f -> (32 <= off)%nat -> slice off n (raw f ++ r) = slice (off - 32) n r.
Proof. intros [_ H]. by apply slice_skip. Qed.
Lemma here_be n z r : slice 0 n (be_bytes n z ++ r) = be_bytes n z.
Proof. apply slice_here, be_bytes_length. Qed.
Lemma here_raw f r : bytes32 f -> slice 0 32 (raw f ++ r) = raw f.
Proof. intros [_ H]. by apply slice_here. Qed.

Lemma drop_be k z off r : (k <= off)%nat -> drop off (be_bytes k z ++ r) = drop (off - k) r.
Proof. intros. by rewrite drop_app_ge, be_bytes_length by (by rewrite be_bytes_length). Qed.
Lemma drop_raw f off r : bytes32 f -> (32 <= off)%nat -> drop off (raw f ++ r) = drop (off - 32) r.
Proof. intros [_ H] Ho. rewrite drop_app_ge; rewrite H; done. Qed.

Lemma value_be4 z : u32 z -> be_value (be_bytes 4 z) = z.
Proof. apply (be_value_bytes 4). Qed.
Lemma value_be32 z : u256 z -> be_value (be_bytes 32 z) = z.
Proof. apply (be_value_bytes 32). Qed.

Lemma encode_length m :
  well_formed m -> length (wire_bytes m) = (376 + length (raw (hookData m)))%nat.
Proof.
  intros []. unfold wire_bytes, bytes32 in *. rewrite !length_app, !be_bytes_length.
  repeat match goal with H : hex_field ?f /\ _ |- _ => destruct H as [_ ->] end. lia.
Qed.

Lemma read_encode m : well_formed m -> read_message (wire_bytes m) = m.
Proof.
  intros W. pose proof W as [].
  assert (drop 376 (wire_bytes m) = raw (hookData m)) as Hd.
  { unfold wire_bytes. repeat (first [rewrite drop_be by lia | rewrite drop_raw by (lia || done)]; cbn [Nat.sub]).
    apply drop_0. }
  unfold read_message, readU32, readU256, readBytes32. rewrite Hd. unfold wire_bytes.
  repeat (first [rewrite here_be | rewrite here_raw by done | rewrite skip_be by lia | rewrite skip_raw by (lia || done)]; cbn [Nat.sub]).
  assert (u32 (headerVersion m)) by (rewrite wf_header0; done).
  assert (u32 (bodyVersion m)) by (rewrite wf_body0; done).
  rewrite !value_be4, !value_be32 by done.
  destruct m. cbn [headerVersion sourceDomain destinationDomain nonce sender recipient destinationCaller
    minFinalityThreshold finalityThresholdExecuted bodyVersion burnToken mintRecipient amount
    messageSender maxFee feeExecuted expirationBlock hookData] in *.
  f_equal; symmetry; (apply wf_hook0 || by match goal with H : bytes32 ?f |- ?f = _ => apply H end).
Qed.

Lemma well_formed_read bytes :
  (376 <= length bytes)%nat -> readU32 bytes 0 = 1 -> readU32 bytes 148 = 1 ->
  well_formed (read_message bytes).
Proof.
  intros Hl H0 H1.
  assert (forall off, (off + 32 <= length bytes)%nat -> bytes32 (readBytes32 bytes off)) as Hb.
  { intros off Ho. unfold bytes32, hex_field, readBytes32. rewrite raw_prefix.
    split; [done|by apply slice_length]. }
  assert (forall off, (off + 4 <= length bytes)%nat -> u32 (readU32 bytes off)) as H4.
  { intros off Ho. unfold u32, readU32. pose proof (be_value_range (slice off 4 bytes)) as H.
    by rewrite slice_length in H. }
  assert (forall off, (off + 32 <= length bytes)%nat -> u256 (readU256 bytes off)) as H32.
  { intros off Ho. unfold u256, readU256. pose proof (be_value_range (slice off 32 bytes)) as H.
    by rewrite slice_length in H. }
  split; try done; try (apply Hb; lia); try (apply H4; lia); try (apply H32; lia).
  unfold hex_field, read_message. cbn [hookData]. by rewrite raw_prefix.
Qed.

Lemma wire_form text m :
  parse_text text = Ok m <->
  well_formed m /\ exists hex, text = prefix ++ hex /\ toLowerCase hex = to_hex (wire_bytes m).
Proof.
  unfold parse_text. split.
  - intros H. destruct (after_0x text) as [hex|] eqn:E; [|done]. apply after_0x_Some in E as ->.
    destruct (_ || _ || _) eqn:Eh; [done|]. zbool.
    destruct (Nat.ltb_spec (length (from_hex hex)) MIN_MESSAGE_BYTES) as [|Hl]; [done|].
    destruct (Z.eqb_spec (readU32 (from_hex hex) 0) HEADER_VERSION) as [Hh|]; [|done].
    destruct (Z.eqb_spec (readU32 (from_hex hex) 148) BODY_VERSION) as [Hv|]; [|done].
    injection H as <-. split; [by apply well_formed_read|].
    exists hex. split; [done|]. rewrite encode_read by done. by rewrite to_from_hex.
  - intros (W & hex & -> & E). rewrite (proj2 (after_0x_Some _ _)) by done.
    assert (from_hex hex = wire_bytes m) as Hf.
    { rewrite <- (from_to_hex (wire_bytes m)), <- E. symmetry. apply from_hex_lower. }
    assert (length hex = (2 * length (wire_bytes m))%nat) as Hl.
    { rewrite <- to_hex_length, <- E. unfold toLowerCase. by rewrite length_fmap. }
    rewrite Hf, Hl, encode_length by done.
    assert (forallb is_hex_digit hex = true) as Hd.
    { unfold is_hex_digit. rewrite <- (forallb_lower is_lower_hex), E. apply to_hex_digits. }
    rewrite Hd. rewrite Nat.even_mul. cbn [negb orb].
    destruct (Nat.eqb_spec (2 * (376 + length (raw (hookData m)))) 0) as [|_]; [lia|]. cbn [orb negb Nat.even].
    destruct (Nat.ltb_spec (376 + length (raw (hookData m))) MIN_MESSAGE_BYTES) as [Hlt|_];
      [unfold MIN_MESSAGE_BYTES in Hlt; lia|].
    change (readU32 (wire_bytes m) 0) with (headerVersion (read_message (wire_bytes m))).
    change (readU32 (wire_bytes m) 148) with (bodyVersion (read_message (wire_bytes m))).
    rewrite read_encode by done. by rewrite wf_header, wf_body.
Qed.
End Layout.

(** ** What a match guarantees *)
Section Match.
Import Hex MessageV2.
Local Open Scope string_scope.

Lemma assertField_Ok b u : assertField b = Ok u <-> b = true.
Proof. apply guard_throw_Ok. Qed.

Lemma expectBigInt_Ok v z :
  expectBigInt v = Ok z ->
  v = Number (Num z) \/ exists s, v = Str s /\ all_digits (chars_of s) = true /\ of_digits (chars_of s) = z.
Proof.
  unfold expectBigInt. destruct v as [| | |[]| | |s| |]; intros H; try discriminate H.
  - destruct (_ && _) eqn:E; [|discriminate H]. injection H as <-. by left.
  - destruct (all_digits _) eqn:E; [|discriminate H]. injection H as <-. right. eauto.
Qed.

Lemma assertBigInt_Ok p v u : assertBigInt p v = Ok u -> expectBigInt v = Ok p.
Proof.
  unfold assertBigInt. intros H. apply bind_Ok in H as (z & Hz & H%assertField_Ok). zbool. by subst.
Qed.

Lemma assertText_Ok p v u : assertText p v = Ok u -> v = Str (string_of p).
Proof.
  unfold assertText. intros H%assertField_Ok. destruct v as [| | | | | |s| |]; try discriminate H.
  apply bool_decide_eq_true in H as ->. by rewrite string_of_chars_of.
Qed.

Record texts_agree (m : message) (e : val) : Prop := {
  ta_sender : e#"sender" = Str (string_of (sender m));
  ta_recipient : e#"recipient" = Str (string_of (recipient m));
  ta_caller : e#"destinationCaller" = Str (string_of (destinationCaller m));
  ta_token : e#"burnToken" = Str (string_of (burnToken m));
  ta_mint : e#"mintRecipient" = Str (string_of (mintRecipient m));
  ta_message_sender : e#"messageSender" = Str (string_of (messageSender m));
  ta_hook : e#"hookData" = Str (string_of (hookData m));
}.

Lemma assert_texts_Ok m e u : assert_texts m e = Ok u -> texts_agree m e.
Proof.
  unfold assert_texts. intros H.
  repeat (apply bind_Ok in H as (? & ?%assertText_Ok & H)). apply assertText_Ok in H. by split.
Qed.

(** The checks of a forward burn and of a reverse one. *)
Definition forward_agrees (m : message) (e : val) : Prop :=
  e#"direction" = Str "stellar-to-base" /\ destinationCaller m = ZERO_BYTES32
  /\ minFinalityThreshold m = 2000 /\ maxFee m = 0 /\ feeExecuted m = 0
  /\ exists units, expectBigInt e#"burnUnits7" = Ok units /\ units `rem` 10 = 0
     /\ amount m = units `quot` 10.
Definition reverse_agrees (m : message) (e : val) : Prop :=
  e#"direction" = Str "base-to-stellar" /\ e#"burnUnits7" = Null
  /\ expectBigInt e#"amount" = Ok (amount m).

Record agrees (m : message) (e : val) : Prop := {
  ag_source : expectBigInt e#"sourceDomain" = Ok (sourceDomain m);
  ag_destination : expectBigInt e#"destinationDomain" = Ok (destinationDomain m);
  ag_texts : texts_agree m e;
  ag_min : expectBigInt e#"minFinalityThreshold" = Ok (minFinalityThreshold m);
  ag_executed : finalityThresholdExecuted m ∈ SUPPORTED_EXECUTED_FINALITIES;
  ag_final : minFinalityThreshold m <= finalityThresholdExecuted m;
  ag_fee : expectBigInt e#"maxFee" = Ok (maxFee m);
  ag_charged : feeExecuted m <= maxFee m;
  ag_direction : forward_agrees m e \/ reverse_agrees m e;
}.

Lemma assert_agrees h e m :
  assertCctpV2BurnMatches h e = Ok m -> parseCctpV2Message h = Ok m /\ agrees m e.
Proof.
  unfold assertCctpV2BurnMatches. intros H. apply bind_Ok in H as (m' & Hm & H).
  apply bind_Ok in H as (? & _ & H). apply bind_Ok in H as (? & _ & H).
  apply bind_Ok in H as (? & H1%assertBigInt_Ok & H). apply bind_Ok in H as (? & H2%assertBigInt_Ok & H).
  apply bind_Ok in H as (? & H3%assert_texts_Ok & H). apply bind_Ok in H as (? & H4%assertBigInt_Ok & H).
  apply bind_Ok in H as (? & H5%assertField_Ok & H). apply bind_Ok in H as (? & H6%assertField_Ok & H).
  apply bind_Ok in H as (? & H7%assertBigInt_Ok & H). apply bind_Ok in H as (? & H8%assertField_Ok & H).
  apply bind_Ok in H as (? & Hd & [= <-]). apply bool_decide_eq_true in H5. zbool.
  split; [done|]. split; try done.
  destruct (strict_eq e#"direction" (Str "stellar-to-base")) eqn:E;
    [|destruct (strict_eq e#"direction" (Str "base-to-stellar")) eqn:E'; [|discriminate Hd]].
  - left. unfold assert_forward in Hd.
    apply bind_Ok in Hd as (? & D1%assertField_Ok & Hd). apply bind_Ok in Hd as (? & D2%assertField_Ok & Hd).
    apply bind_Ok in Hd as (? & D3%assertField_Ok & Hd). apply bind_Ok in Hd as (? & D4%assertField_Ok & Hd).
    apply bind_Ok in Hd as (units & D5 & Hd). apply bind_Ok in Hd as (? & D6%assertField_Ok & Hd%assertField_Ok).
    apply bool_decide_eq_true in D1. apply strict_eq_eq in E. zbool. unfold forward_agrees. eauto 10.
  - right. unfold assert_reverse in Hd.
    apply bind_Ok in Hd as (? & D1%assertField_Ok & Hd%assertBigInt_Ok).
    by apply strict_eq_eq in D1, E'.
Qed.

(** *** With a canonical expectation *)
Definition decimal (z : Z) : val := Str (string_of (to_digits z)).

(** The burn that a canonical expectation describes and a message that carries it. *)
Record carries (m : message) (c : val) : Prop := {
  ca_source : c#"sourceDomain" = Relay.number (sourceDomain m);
  ca_destination : c#"destinationDomain" = Relay.number (destinationDomain m);
  ca_texts : texts_agree m c;
  ca_amount : c#"amount" = decimal (amount m);
  ca_fee : c#"maxFee" = decimal (maxFee m);
  ca_charged : feeExecuted m <= maxFee m;
  ca_min : c#"minFinalityThreshold" = Relay.number (minFinalityThreshold m);
  ca_final : minFinalityThreshold m <= finalityThresholdExecuted m;
  ca_direction :
    (sourceDomain m = 27 /\ destinationDomain m = 6 /\ c#"burnUnits7" = decimal (10 * amount m)
     /\ destinationCaller m = ZERO_BYTES32 /\ finalityThresholdExecuted m = 2000 /\ feeExecuted m = 0)
    \/ (sourceDomain m = 6 /\ destinationDomain m = 27 /\ c#"burnUnits7" = Null);
}.

Lemma expect_decimal v z :
  Relay.expectDecimalString v = Ok z -> v = decimal z /\ expectBigInt v = Ok z.
Proof.
  unfold Relay.expectDecimalString, Relay.string_matches, test, Relay.DECIMAL_RE, Relay.invalid.
  intros H. invert_ok H. zbool. destruct v as [| | | | | |s| |]; try discriminate. cbn [coerce] in *.
  match goal with H : is_decimal _ = true |- _ => rename H into Hd end.
  pose proof (proj1 (is_decimal_canonical _) Hd) as Hc. split.
  - unfold decimal. by rewrite to_of_digits, string_of_chars_of.
  - unfold expectBigInt. assert (all_digits (chars_of s) = true) as ->; [|done].
    unfold all_digits, is_decimal in *. destruct (chars_of s) as [|a [|b l]]; [done| |by zbool].
    cbn. by rewrite Hd.
Qed.

Lemma expectBigInt_number z z' : expectBigInt (Relay.number z) = Ok z' -> z' = z.
Proof. unfold expectBigInt, Relay.number. intros H. by invert_ok H. Qed.

Lemma canonical_amounts c :
  Relay.canonicalizeExpectation c = Ok c ->
  exists source destination amount fee,
    Relay.DIRECTION_DOMAINS c#"direction" = Some (source, destination)
    /\ c#"sourceDomain" = source /\ c#"destinationDomain" = destination
    /\ Relay.expectDecimalString c#"amount" = Ok amount
    /\ Relay.expectDecimalString c#"maxFee" = Ok fee
    /\ (c#"minFinalityThreshold" = Relay.number 1000 \/ c#"minFinalityThreshold" = Relay.number 2000)
    /\ Relay.check_burnUnits7 c amount = Ok tt.
Proof.
  unfold Relay.canonicalizeExpectation, Relay.invalid. intros H.
  destruct (negb (is_object c)); [done|]. destruct (negb _ || negb _); [done|].
  destruct (negb _); [done|].
  destruct (Relay.DIRECTION_DOMAINS _) as [[source destination]|]; [|done].
  destruct (negb _ || negb _) eqn:E; [done|]. destruct (negb (forallb _ _)); [done|].
  apply bind_Ok in H as (a & Ha & H). apply bind_Ok in H as (f & Hf & H).
  destruct (negb _ && negb _) eqn:Em; [done|]. destruct (negb (Relay.string_matches _ _)); [done|].
  apply bind_Ok in H as ([] & Hb & _). zbool.
  apply andb_false_iff in Em as [Em|Em]; zbool;
    repeat match goal with H : strict_eq _ _ = true |- _ => apply strict_eq_eq in H end; eauto 15.
Qed.

Lemma direction_domains_forward : Relay.DIRECTION_DOMAINS (Str "stellar-to-base") = Some (Relay.number 27, Relay.number 6).
Proof. reflexivity. Qed.
Lemma direction_domains_reverse : Relay.DIRECTION_DOMAINS (Str "base-to-stellar") = Some (Relay.number 6, Relay.number 27).
Proof. reflexivity. Qed.

(** C20. A message that matches a canonical expectation carries exactly its burn: domains,
    parties, hook data, amount, fee limit and finality are those of the expectation, the fee
    charged is within the limit, and a burn on Stellar is for any caller, final, free of fees
    and of a tenth of the burned units, exactly. *)
Theorem matched_burn h e c m :
  Relay.canonicalizeExpectation e = Ok c -> assertCctpV2BurnMatches h c = Ok m -> carries m c.
Proof.
  intros Hc%canonicalizeExpectation_idem Hm. apply assert_agrees in Hm as [_ A]. destruct A.
  apply canonical_amounts in Hc as (s & d & a & f & Hd & Hs & Hds & Ha & Hf & Hmin & Hb).
  apply expect_decimal in Ha as [Ea Ia], Hf as [Ef If].
  rewrite If in ag_fee0. injection ag_fee0 as ->.
  assert (c#"minFinalityThreshold" = Relay.number (minFinalityThreshold m)) as Emin.
  { destruct Hmin as [E|E]; rewrite E in ag_min0 |- *; apply expectBigInt_number in ag_min0; by rewrite ag_min0. }
  destruct ag_direction0 as [(Hdir & Hcaller & Hm2 & Hmax & Hfee & units & Hu & Hrem & Ham)|(Hdir & Hu & Ham)].
  - rewrite Hdir, direction_domains_forward in Hd. injection Hd as <- <-.
    rewrite Hs in ag_source0. rewrite Hds in ag_destination0.
    apply expectBigInt_number in ag_source0, ag_destination0.
    unfold Relay.check_burnUnits7 in Hb. rewrite Hdir in Hb. cbn [strict_eq] in Hb.
    rewrite bool_decide_eq_true_2 in Hb by done.
    apply bind_Ok in Hb as (u & Hu' & Hb). apply expect_decimal in Hu' as [Eu Iu].
    rewrite Iu in Hu. injection Hu as <-. unfold Relay.invalid in Hb. invert_ok Hb. zbool.
    assert (a = amount m) as -> by congruence.
    assert (10 * amount m = u) as Eten by (pose proof (Z.quot_rem' u 10); lia).
    assert (finalityThresholdExecuted m = 2000) as Eex.
    { rewrite Hm2 in ag_final0. unfold SUPPORTED_EXECUTED_FINALITIES, FINALITY_FAST, FINALITY_STANDARD in *.
      set_unfold in ag_executed0. lia. }
    split; try done; try congruence. left. by rewrite Eten.
  - rewrite Hdir, direction_domains_reverse in Hd. injection Hd as <- <-.
    rewrite Hs in ag_source0. rewrite Hds in ag_destination0.
    apply expectBigInt_number in ag_source0, ag_destination0.
    rewrite Ia in Ham. injection Ham as ->. split; try done; try congruence. by right.
Qed.

Lemma Str_chars v (x y : chars) : v = Str (string_of x) -> v = Str (string_of y) -> x = y.
Proof.
  intros -> H. injection H as H. apply (f_equal chars_of) in H. by rewrite !chars_of_string_of in H.
Qed.

Lemma agrees_amount m1 m2 e : agrees m1 e -> agrees m2 e -> amount m1 = amount m2.
Proof.
  intros [] []. unfold forward_agrees, reverse_agrees in *.
  destruct ag_direction0 as [(? & ? & ? & ? & ? & u & ? & ? & ?)|(? & ? & ?)],
    ag_direction1 as [(? & ? & ? & ? & ? & u' & ? & ? & ?)|(? & ? & ?)]; congruence.
Qed.

Lemma agrees_unique m1 m2 e :
  agrees m1 e -> agrees m2 e -> headerVersion m1 = headerVersion m2 -> bodyVersion m1 = bodyVersion m2 ->
  nonce m1 = nonce m2 -> expirationBlock m1 = expirationBlock m2 ->
  finalityThresholdExecuted m1 = finalityThresholdExecuted m2 -> feeExecuted m1 = feeExecuted m2 ->
  m1 = m2.
Proof.
  intros A1 A2. pose proof (agrees_amount _ _ _ A1 A2) as Ha. destruct A1 as [? ? T1], A2 as [? ? T2].
  destruct T1, T2. destruct m1, m2. cbn in *. intros.
  f_equal; first [congruence|by eapply Str_chars].
Qed.

(** The expectation leaves nothing of a message open but the nonce, the expiration block and
    what the attesters fill in: two matching messages that agree in these are the same bytes. *)
Theorem matched_message_unique t1 t2 e m1 m2 :
  assertCctpV2BurnMatches (Str t1) e = Ok m1 -> assertCctpV2BurnMatches (Str t2) e = Ok m2 ->
  nonce m1 = nonce m2 -> expirationBlock m1 = expirationBlock m2 ->
  finalityThresholdExecuted m1 = finalityThresholdExecuted m2 -> feeExecuted m1 = feeExecuted m2 ->
  toLowerCase (chars_of t1) = toLowerCase (chars_of t2).
Proof.
  intros H1 H2 Hn Hx Hf He. apply assert_agrees in H1 as [P1 A1], H2 as [P2 A2].
  cbn [parseCctpV2Message] in P1, P2.
  apply wire_form in P1 as (W1 & h1 & -> & E1), P2 as (W2 & h2 & -> & E2).
  assert (m1 = m2) as ->.
  { apply (agrees_unique m1 m2 e); try done; [destruct W1, W2|destruct W1, W2]; congruence. }
  unfold toLowerCase in *. by rewrite !fmap_app, E1, E2.
Qed.

(** C37. The parser accepts exactly the wire forms of well-formed messages, the hexadecimal
    digits in either case, and gives the message back: nothing of the bytes is lost. *)
Theorem parse_wire_form v m :
  parseCctpV2Message v = Ok m <->
  well_formed m /\ exists hex, v = Str (string_of (prefix ++ hex)) /\ toLowerCase hex = to_hex (wire_bytes m).
Proof.
  split.
  - destruct v as [| | | | | |s| |]; try done. cbn [parseCctpV2Message].
    intros (W & hex & E & H)%wire_form. split; [done|]. exists hex. split; [|done].
    by rewrite <- E, string_of_chars_of.
  - intros (W & hex & -> & H). cbn [parseCctpV2Message]. rewrite chars_of_string_of.
    apply wire_form. eauto.
Qed.

(** ** The selection among the candidates *)
Lemma matches_of_In cs e s :
  s ∈ matches_of cs e ->
  assertCctpV2BurnMatches (sel_message s) e = Ok (sel_parsed s)
  /\ exists c, c ∈ cs /\ isCompleteCandidate c = true /\ sel_message s = c#"message"
      /\ sel_attestation s = c#"attestation".
Proof.
  induction cs as [|c cs IH]; cbn; [set_solver|].
  destruct (isCompleteCandidate c) eqn:Ec; cbn [negb].
  - destruct (assertCctpV2BurnMatches c#"message" e) as [m|] eqn:Em; [|set_solver].
    intros [->|Hin]%elem_of_cons; cbn; [|set_solver]. split; [done|]. exists c. set_solver.
  - set_solver.
Qed.

Lemma matches_of_complete cs e c :
  c ∈ cs -> isCompleteCandidate c = true -> (exists m, assertCctpV2BurnMatches c#"message" e = Ok m) ->
  exists s, s ∈ matches_of cs e /\ sel_message s = c#"message" /\ sel_attestation s = c#"attestation".
Proof.
  induction cs as [|c' cs IH]; [set_solver|]. intros [->|Hin]%elem_of_cons Hc [m Hm]; cbn.
  - rewrite Hc, Hm. cbn. eexists. split; [left|]. done.
  - destruct (IH Hin Hc (ex_intro _ m Hm)) as (s & Hs & E). exists s. split; [|done].
    destruct (isCompleteCandidate c'); cbn; [|done]. destruct (assertCctpV2BurnMatches c'#"message" e); [by right|done].
Qed.

(** The candidates of the response that settled the poll. *)
Definition settled_by (cs : list val) (e : val) (s : selected) : Prop :=
  assertCctpV2BurnMatches (sel_message s) e = Ok (sel_parsed s)
  /\ Forall (fun c => isCompleteCandidate c = true) cs
  /\ (exists c, c ∈ cs /\ sel_message s = c#"message" /\ sel_attestation s = c#"attestation")
  /\ forall c m, c ∈ cs -> assertCctpV2BurnMatches c#"message" e = Ok m ->
       c#"message" = sel_message s /\ c#"attestation" = sel_attestation s.

Lemma select_settled candidates e s :
  selectUniqueMatch candidates e = Ok (Some s) -> exists cs, candidates = Arr cs /\ settled_by cs e s.
Proof.
  unfold selectUniqueMatch. destruct candidates as [| | | | | | |[|c0 cs0]|]; try done.
  remember (c0 :: cs0) as cs eqn:Ecs. clear Ecs.
  destruct (matches_of cs e) as [|s1 [|]] eqn:Em; [by destruct (hasPending _)| |done].
  destruct (hasPending cs) eqn:Ep; [done|]. intros [= <-]. exists cs. split; [done|].
  assert (Forall (fun c => isCompleteCandidate c = true) cs) as Hall.
  { apply Forall_forall. intros c Hc. destruct (isCompleteCandidate c) eqn:E; [done|].
    assert (hasPending cs = true) as Hp; [|congruence].
    apply existsb_exists. exists c. split; [by apply list_elem_of_In|]. by rewrite E. }
  destruct (matches_of_In cs e s1) as (Hm & c & Hc & _ & E1 & E2); [rewrite Em; left|].
  split_and!; try done; [eauto|].
  intros c' m Hc' Hm'. rewrite Forall_forall in Hall.
  destruct (matches_of_complete cs e c' Hc' (Hall _ Hc') (ex_intro _ m Hm')) as (s & Hs & ? & ?).
  rewrite Em in Hs. apply list_elem_of_singleton in Hs as ->. done.
Qed.

Lemma poll_loop_settled responses attempt fuel e s :
  poll_loop responses attempt fuel e = Ok s ->
  exists k cs, (attempt <= k < attempt + fuel)%nat /\ (responses k)#"messages" = Arr cs /\ settled_by cs e s
    /\ forall j, (attempt <= j < k)%nat -> selectUniqueMatch (responses j)#"messages" e = Ok None.
Proof.
  revert attempt. induction fuel as [|fuel IH]; intros attempt; [done|]. cbn. intros H.
  apply bind_Ok in H as ([s'|] & Hs & H).
  - injection H as ->. apply select_settled in Hs as (cs & E & Hs). exists attempt, cs.
    split_and!; try done; lia.
  - apply IH in H as (k & cs & Hk & E & Hset & Hj). exists k, cs. split_and!; try done; try lia.
    intros j Hj'. destruct (decide (j = attempt)) as [->|]; [done|]. apply Hj. lia.
Qed.

(** Polling returns a message only when it matches the expectation, every candidate of that
    response is complete and no other candidate matches with another message or attestation,
    and all responses before it were not ready. *)
Theorem poll_unique responses maxAttempts e s :
  pollAttestation responses maxAttempts e = Ok s ->
  exists k cs, Z.of_nat k < maxAttempts /\ (responses k)#"messages" = Arr cs /\ settled_by cs e s
    /\ forall j, (j < k)%nat -> selectUniqueMatch (responses j)#"messages" e = Ok None.
Proof.
  unfold pollAttestation. destruct (nullish e); [done|]. intros H.
  apply poll_loop_settled in H as (k & cs & Hk & E & Hs & Hj). exists k, cs. split_and!; try done; [lia|].
  intros j Hjk. apply Hj. lia.
Qed.
End Match.

(** ** A concrete burn *)
Module BurnSample.
Import Hex MessageV2.
Local Open Scope string_scope.
Local Open Scope list_scope.

Definition field (c : ascii) : chars := prefix ++ replicate 64 c.
Definition burn (nonce : ascii) : message := {|
  headerVersion := 1; sourceDomain := 27; destinationDomain := 6; nonce := field nonce;
  sender := field "1"; recipient := field "2"; destinationCaller := field "0";
  minFinalityThreshold := 2000; finalityThresholdExecuted := 2000; bodyVersion := 1;
  burnToken := field "3"; mintRecipient := field "4"; amount := 1; messageSender := field "5";
  maxFee := 0; feeExecuted := 0; expirationBlock := 9; hookData := prefix |}.

Definition text_of (m : message) : string := string_of (prefix ++ to_hex (wire_bytes m)).
Definition raw_burn : string := text_of (burn "a").
Definition RAW_BURN : string := string_of (prefix ++ toUpperCase (to_hex (wire_bytes (burn "a")))).

Definition candidate (status : string) : val :=
  Obj [("status", Str status); ("attestation", Str "0xcd"); ("message", Str raw_burn)].
Definition responses (k : nat) : val :=
  match k with
  | O => Null
  | S O => Obj [("messages", Arr [candidate "pending_confirmations"])]
  | _ => Obj [("messages", Arr [candidate "complete"])]
  end.
End BurnSample.

Lemma matched_burn_witness :
  MessageV2.assertCctpV2BurnMatches (Str BurnSample.raw_burn) RelaySample.expectation = Ok (BurnSample.burn "a")
  /\ carries (BurnSample.burn "a") RelaySample.expectation.
Proof.
  assert (MessageV2.assertCctpV2BurnMatches (Str BurnSample.raw_burn) RelaySample.expectation
          = Ok (BurnSample.burn "a")) as H by (vm_compute; reflexivity).
  split; [exact H|]. eapply (matched_burn _ RelaySample.expectation); [|exact H].
  vm_compute; reflexivity.
Defined.

Lemma matched_message_unique_witness :
  BurnSample.raw_burn <> BurnSample.RAW_BURN
  /\ toLowerCase (chars_of BurnSample.raw_burn) = toLowerCase (chars_of BurnSample.RAW_BURN).
Proof.
  split; [intros H; vm_compute in H; discriminate H|].
  apply (matched_message_unique _ _ RelaySample.expectation (BurnSample.burn "a") (BurnSample.burn "a"));
    vm_compute; reflexivity.
Defined.

Lemma poll_unique_witness :
  exists s k cs, MessageV2.pollAttestation BurnSample.responses 3 RelaySample.expectation = Ok s
    /\ Z.of_nat k < 3 /\ settled_by cs RelaySample.expectation s.
Proof.
  assert (exists s, MessageV2.pollAttestation BurnSample.responses 3 RelaySample.expectation = Ok s)
    as [s H] by (eexists; vm_compute; reflexivity).
  destruct (poll_unique BurnSample.responses 3 RelaySample.expectation s H) as (k & cs & Hk & _ & Hs & _).
  exists s, k, cs. exact (conj H (conj Hk Hs)).
Defined.
