(* ===== verification/Watcher.v ===== *)
(** * The relay watcher

    Models [relayer/src/cctp/watcher.mjs]: the watcher as programs over the operations of the
    store, the clock, the set of executions in flight and the calls to Circle and to the two
    chains; and the interleavings of any number of such programs in processes that may crash at
    any point.  A store call and a reading of the table are one step each; between any two steps
    the others may run. *)
From S2P Require Export RelayLedger MessageV2.

Module Watcher.
Import Relay Ledger.

(** ** Programs *)

(** The calls to the outside.  [Submit] carries the execution it is made for, for the sake of
    the statements; the callee does not see it. *)
Inductive call :=
| Poll (source : option Z) (txHash : option chars) (e : val)
| Submit (execId : string) (forward : bool) (message attestation : option chars)
| Confirm (forward : bool) (hash : option chars).

(** A call returns a value or rejects with an error, of which the code is kept. *)
Inductive answer := Returned (v : val) | Rejected (code : string).

Inductive prog (A : Type) :=
| Ret (a : A)
| Fail (code : string)
| Now (k : num -> prog A)
| Token (k : string -> prog A)
| Rows (k : rows -> prog A)
| Store (q : request) (k : result relay_error (list relay) -> prog A)
| Call (c : call) (k : answer -> prog A)
| InFlight (k : gset string -> prog A)
| SetInFlight (f : gset string -> gset string) (k : prog A).
Arguments Ret {A} a.
Arguments Fail {A} code.
Arguments Now {A} k.
Arguments Token {A} k.
Arguments Rows {A} k.
Arguments Store {A} q k.
Arguments Call {A} c k.
Arguments InFlight {A} k.
Arguments SetInFlight {A} f k.

Fixpoint andThen {A B} (p : prog A) (f : A -> prog B) : prog B :=
  match p with
  | Ret a => f a
  | Fail c => Fail c
  | Now k => Now (fun n => andThen (k n) f)
  | Token k => Token (fun t => andThen (k t) f)
  | Rows k => Rows (fun m => andThen (k m) f)
  | Store q k => Store q (fun r => andThen (k r) f)
  | Call c k => Call c (fun a => andThen (k a) f)
  | InFlight k => InFlight (fun s => andThen (k s) f)
  | SetInFlight g k => SetInFlight g (andThen k f)
  end.

(** [try { p } catch (err) { h(err?.code) }] *)
Fixpoint catch {A} (p : prog A) (h : string -> prog A) : prog A :=
  match p with
  | Ret a => Ret a
  | Fail c => h c
  | Now k => Now (fun n => catch (k n) h)
  | Token k => Token (fun t => catch (k t) h)
  | Rows k => Rows (fun m => catch (k m) h)
  | Store q k => Store q (fun r => catch (k r) h)
  | Call c k => Call c (fun a => catch (k a) h)
  | InFlight k => InFlight (fun s => catch (k s) h)
  | SetInFlight g k => SetInFlight g (catch k h)
  end.

#[global] Instance prog_ret : MRet prog := @Ret.
#[global] Instance prog_bind : MBind prog := fun A B f p => andThen p f.

(** The error of a block as a value. *)
Definition attempt {A} (p : prog A) : prog (A + string) :=
  catch (a ← p; Ret (inl a)) (fun c => Ret (inr c)).

(** [try { p } finally { q }] *)
Definition finally {A} (p : prog A) (q : prog unit) : prog A :=
  o ← attempt p;
  _ ← q;
  match o with inl a => Ret a | inr c => Fail c end.

Definition clock : prog num := Now Ret.
Definition newToken : prog string := Token Ret.
Definition get (id : string) : prog (option relay) := Rows (fun m => Ret (fetch m id)).
Definition ask (c : call) : prog val :=
  Call c (fun a => match a with Returned v => Ret v | Rejected code => Fail code end).

Section Codes.
Local Open Scope string_scope.

Definition relay_code (e : relay_error) : string :=
  match e with
  | RELAY_VALIDATION => "RELAY_VALIDATION"
  | RELAY_ENQUEUE_CONFLICT => "RELAY_ENQUEUE_CONFLICT"
  | RELAY_CAS_CONFLICT => "RELAY_CAS_CONFLICT"
  | TypeError => ""
  end.

Definition cctp_code (e : MessageV2.cctp_error) : string :=
  match e with
  | MessageV2.CCTP_MESSAGE_FORMAT => "CCTP_MESSAGE_FORMAT"
  | MessageV2.CCTP_MESSAGE_LENGTH => "CCTP_MESSAGE_LENGTH"
  | MessageV2.CCTP_MESSAGE_VERSION => "CCTP_MESSAGE_VERSION"
  | MessageV2.CCTP_MESSAGE_MISMATCH => "CCTP_MESSAGE_MISMATCH"
  | MessageV2.CCTP_MESSAGE_AMBIGUOUS => "CCTP_MESSAGE_AMBIGUOUS"
  | MessageV2.CCTP_EXPECTATION_REQUIRED => "CCTP_EXPECTATION_REQUIRED"
  | MessageV2.CCTP_ATTESTATION_TIMEOUT => "CCTP_ATTESTATION_TIMEOUT"
  end.

Definition MESSAGE_MISMATCH_CODES : list string :=
  ["CCTP_MESSAGE_MISMATCH"; "CCTP_MESSAGE_FORMAT"; "CCTP_MESSAGE_LENGTH"; "CCTP_MESSAGE_VERSION"]%list.

(** A store operation that may return no record, and one that returns a record. *)
Definition store_opt (q : request) : prog (option relay) :=
  Store q (fun res => match res with Ok l => Ret (head l) | Throw e => Fail (relay_code e) end).
Definition store (q : request) : prog relay :=
  o ← store_opt q;
  match o with Some r => Ret r | None => Fail "" end.

Definition check {A} (m : result MessageV2.cctp_error A) : prog A :=
  match m with Ok a => Ret a | Throw e => Fail (cctp_code e) end.

(** ** The watcher *)
Section Config.
(** [domains.stellar] and [domains.base], the poll budget and the lease. *)
Context (stellar base : Z) (leaseMs pollMaxAttempts pollIntervalMs : Z).

Definition LEASE_MARGIN_MS : Z := 120000.
Definition effectiveLeaseMs : Z := Z.max leaseMs (pollMaxAttempts * pollIntervalMs + LEASE_MARGIN_MS).

Definition isForward (r : relay) : bool := bool_decide (sourceDomain (ident r) = Some stellar).

(** What a call of the watcher answers. *)
Inductive outcome :=
| in_progress
| pending
| already_minted (hash : option chars)
| stopped (s : state) (reason : option string)
| submitted_only (hash : option chars)
| now_minted (hash : option chars).

Definition terminalResult (r : relay) : option outcome :=
  match status r with
  | minted => Some (already_minted (mintTxHash r))
  | blocked => Some (stopped blocked (reasonCode r))
  | uncertain => Some (stopped uncertain (reasonCode r))
  | _ => None
  end.

Definition releaseQuietly (id token : string) : prog unit :=
  catch (now ← clock; _ ← store (Release id token now); Ret tt) (fun _ => Ret tt).

Definition block (id token reason : string) : prog outcome :=
  now ← clock;
  _ ← store (FinishBlocked id token reason now);
  Ret (stopped blocked (Some reason)).

(** The attested record, or the answer of a classified stop. *)
Definition pollPhase (record claimed : relay) (id token : string) : prog (outcome + relay) :=
  let e := or_null Datatypes.id (expectation (ident record)) in
  polled ← attempt
    (evidence ← ask (Poll (sourceDomain (ident record)) (burnTxHash (ident record)) e);
     parsed ← check (MessageV2.assertCctpV2BurnMatches evidence#"message" e);
     Ret (evidence, parsed));
  match polled with
  | inr code =>
      if decide (code = "CCTP_MESSAGE_AMBIGUOUS") then
        o ← block id token "message_ambiguous"; Ret (inl o)
      else if decide (code ∈ MESSAGE_MISMATCH_CODES) then
        o ← block id token "message_mismatch"; Ret (inl o)
      else
        _ ← releaseQuietly id token; Ret (inl pending)
  | inl (evidence, parsed) =>
      recorded ← attempt
        (now ← clock;
         store (RecordAttested id token evidence#"message" (text (MessageV2.nonce parsed))
                  evidence#"attestation" now));
      match recorded with
      | inl attested_record => Ret (inr attested_record)
      | inr code =>
          if decide (code = "RELAY_CAS_CONFLICT" /\ status claimed = attested) then
            o ← block id token "attested_evidence_changed"; Ret (inl o)
          else Fail code
      end
  end.

Definition uncertain_after (id token reason : string) (mint : val) : prog (outcome + relay) :=
  now ← clock;
  _ ← store (FinishUncertain id token mint reason now);
  Ret (inl (stopped uncertain (Some reason))).

Definition submitPhase (record attested_record : relay) (id token : string) : prog (outcome + relay) :=
  now ← clock;
  _ ← store (MarkMintSubmitting id token now);
  sent ← attempt (ask (Submit id (isForward record) (messageHex (ev attested_record))
                         (attestationHex (ev attested_record))));
  match sent with
  | inr _ => uncertain_after id token "submission_unknown" Undefined
  | inl hash =>
      submitted ← attempt (now ← clock; store (MarkMintSubmitted id token hash now));
      match submitted with
      | inl r => Ret (inr r)
      | inr _ =>
          let retained :=
            match record_mint_hash record hash with Ok h => text h | Throw _ => Undefined end in
          uncertain_after id token "submitted_checkpoint_failed" retained
      end
  end.

Definition confirmPhase (record submitted : relay) (id token : string) : prog outcome :=
  let hash := mintTxHash submitted in
  confirmed ← attempt (ask (Confirm (isForward record) hash));
  match confirmed with
  | inr code =>
      if decide (code = "CCTP_MINT_REVERTED" \/ code = "STELLAR_TX_FAILED") then
        block id token "destination_reverted"
      else
        _ ← releaseQuietly id token; Ret (submitted_only hash)
  | inl _ =>
      finished ← attempt (now ← clock; store (FinishMinted id token (or_null text hash) now));
      match finished with
      | inl _ => Ret (now_minted hash)
      | inr _ => _ ← releaseQuietly id token; Ret (submitted_only hash)
      end
  end.

(** The phases of a claimed record, up to the first answer. *)
Definition phases (record claimed : relay) (id token : string) : prog outcome :=
  polled ←
    (if decide (status claimed = attestation_pending \/ status claimed = attested)
     then pollPhase record claimed id token
     else Ret (inr claimed));
  match polled with
  | inl o => Ret o
  | inr working =>
      submitted ←
        (if decide (status working = attested)
         then submitPhase record working id token
         else Ret (inr working));
      match submitted with
      | inl o => Ret o
      | inr working => confirmPhase record working id token
      end
  end.

Definition drive (id : string) : prog outcome :=
  found ← get id;
  match found with
  | None => Fail ""
  | Some record =>
      match terminalResult record with
      | Some o => Ret o
      | None =>
          now ← clock;
          token ← newToken;
          claimed ← store_opt (Claim id now (Num effectiveLeaseMs) token);
          match claimed with
          | None => Ret in_progress
          | Some claimed =>
              catch (phases record claimed id token)
                (fun code => _ ← releaseQuietly id token; Fail code)
          end
      end
  end.

(** [if (inFlight.has(id)) … ] and [inFlight.add(id); try { p } finally { inFlight.delete(id) }] *)
Definition enter (id : string) : prog unit := SetInFlight (fun s => {[id]} ∪ s) (Ret tt).
Definition leave (id : string) : prog unit := SetInFlight (fun s => s ∖ {[id]}) (Ret tt).

Definition relayMint (source burn : val) (id : string) (e : val) : prog outcome :=
  InFlight (fun busy =>
    if decide (id ∈ busy) then Ret in_progress
    else
      _ ← enter id;
      finally
        (now ← clock;
         record ← store (Enqueue id source burn e now);
         match terminalResult record with
         | Some o => Ret o
         | None => drive id
         end)
        (leave id)).

Definition resumeExisting (id : string) : prog outcome :=
  InFlight (fun busy =>
    if decide (id ∈ busy) then Ret in_progress
    else
      found ← get id;
      match found with
      | None => Fail ""
      | Some record =>
          if negb (bool_decide (sourceDomain (ident record) = Some base)) then Fail ""
          else
            _ ← enter id;
            finally
              (expired ←
                 (if decide (leaseToken record = None) then Ret false
                  else
                    now ← clock;
                    Ret (JsNum.leb (Num (default 0%Z (leaseExpiresAt record))) now));
               current ←
                 (if expired : bool then
                    now ← clock;
                    store_opt (ReconcileOne id now)
                  else Ret (Some record));
               match current with
               | None => Fail ""
               | Some record =>
                   match terminalResult record with
                   | Some o => Ret o
                   | None => drive id
                   end
               end)
              (leave id)
      end).

Record sweep := { redriven : list string; held : list string; sw_blocked : list string; sw_uncertain : list string }.

Definition lift_result {A} (m : result relay_error A) : prog A :=
  match m with Ok a => Ret a | Throw e => Fail (relay_code e) end.

Definition report (busy : gset string) (s : sweep) (r : relay) : sweep :=
  let id := execId (ident r) in
  if decide (status r = blocked) then
    {| redriven := redriven s; held := held s; sw_blocked := sw_blocked s ++ [id]; sw_uncertain := sw_uncertain s |}
  else if decide (status r = uncertain) then
    {| redriven := redriven s; held := held s; sw_blocked := sw_blocked s; sw_uncertain := sw_uncertain s ++ [id] |}
  else if decide (leaseToken r <> None \/ id ∈ busy) then
    {| redriven := redriven s; held := held s ++ [id]; sw_blocked := sw_blocked s; sw_uncertain := sw_uncertain s |}
  else s.

Definition redrive (s : sweep) (id : string) : sweep :=
  {| redriven := redriven s ++ [id]; held := held s; sw_blocked := sw_blocked s; sw_uncertain := sw_uncertain s |}.

(** Where a row goes that was driven: by its record, or as driven when an error came. *)
Definition classify (s : sweep) (id : string) (after : option relay) : sweep :=
  match after with
  | Some r =>
      if decide (status r = blocked) then
        {| redriven := redriven s; held := held s; sw_blocked := sw_blocked s ++ [id]; sw_uncertain := sw_uncertain s |}
      else if decide (status r = uncertain) then
        {| redriven := redriven s; held := held s; sw_blocked := sw_blocked s; sw_uncertain := sw_uncertain s ++ [id] |}
      else redrive s id
  | None => redrive s id
  end.

Fixpoint redrive_rows (s : sweep) (l : list relay) : prog sweep :=
  match l with
  | [] => Ret s
  | r :: l =>
      let id := execId (ident r) in
      InFlight (fun busy =>
        if decide (id ∈ busy) then redrive_rows s l
        else
          s ← catch (_ ← drive id; after ← get id; Ret (classify s id after))
                (fun _ => Ret (redrive s id));
          redrive_rows s l)
  end.

Definition sweepStuck (now limit : num) : prog sweep :=
  _ ← store_opt (ReconcileExpired now limit);
  summary ← Rows (fun m => lift_result (listSweepSummary m now limit));
  found ← Rows (fun m => lift_result (listForSweep m now limit false));
  InFlight (fun busy =>
    redrive_rows
      (foldl (report busy) {| redriven := []; held := []; sw_blocked := []; sw_uncertain := [] |} summary)
      found).

(** [recoveryEvidence] of a minted record *)
Record recovery := {
  rec_burnTxHash : option chars; rec_expectationDigest : option chars;
  rec_messageDigest : option chars; rec_attestationDigest : option chars;
  rec_evidenceVersion : chars; rec_mintTxHash : option chars;
}.

Definition recoveryEvidence (r : relay) : recovery := {|
  rec_burnTxHash := burnTxHash (ident r); rec_expectationDigest := expectationDigest_ (ident r);
  rec_messageDigest := messageDigest (ev r); rec_attestationDigest := attestationDigest (ev r);
  rec_evidenceVersion := BigInt_toString (evidenceVersion r); rec_mintTxHash := mintTxHash r |}.

Definition getRecoveryEvidence (id : string) : prog recovery :=
  found ← get id;
  match found with
  | Some r => if decide (status r = minted) then Ret (recoveryEvidence r) else Fail ""
  | None => Fail ""
  end.
End Config.
End Codes.
End Watcher.
