(* ===== verification/WatcherSafety.v ===== *)
(** * Safety of the relay watcher

    The interleavings of watcher programs, a logic for one program that is sound in every
    interleaving, and what it shows: no execution is submitted twice, whatever crashes and
    whoever else works on it; every submitted message is the burn its execution expects, for the
    right chain; and a record is only minted with a confirmed hash. *)
From S2P Require Export Watcher.
From S2P Require Import RelayCanonical.

Module System.
Import Relay Ledger Watcher.

Inductive event := Sent (c : call) | Answered (c : call) (a : answer).

(** A thread runs a program or waits for a call; the ghost is the execution whose submission
    fence its last step crossed. *)
Inductive activity := Running (p : prog unit) | Waiting (c : call) (k : answer -> prog unit).
Definition thread : Type := activity * option string.

Record world := {
  table : rows;
  inFlight : gmap nat (gset string);
  threads : gmap (nat * nat) thread;
  log : list event;
}.

Section Semantics.
Context (sha256 : chars -> chars) (stellar base : Z) (leaseMs pollMaxAttempts pollIntervalMs : Z).

Definition reply (m : rows) (q : request) : result relay_error (list relay) :=
  match perform sha256 m q with Ok p => Ok p.1 | Throw e => Throw e end.

(** The fence a store call crosses. *)
Definition crossing (q : request) (res : result relay_error (list relay)) : option string :=
  match q, res with MarkMintSubmitting id _ _, Ok _ => Some id | _, _ => None end.

(** One step of a program, on the table and the set in flight of its process. *)
Inductive op (m : rows) (busy : gset string) :
  prog unit -> rows -> gset string -> thread -> list event -> Prop :=
| op_now k n : op m busy (Now k) m busy (Running (k n), None) []
| op_token k t : op m busy (Token k) m busy (Running (k t), None) []
| op_rows k : op m busy (Rows k) m busy (Running (k m), None) []
| op_store q k :
    op m busy (Store q k) (after sha256 m q) busy
      (Running (k (reply m q)), crossing q (reply m q)) []
| op_call c k : op m busy (Call c k) m busy (Waiting c k, None) [Sent c]
| op_in_flight k : op m busy (InFlight k) m busy (Running (k busy), None) []
| op_set_in_flight f k : op m busy (SetInFlight f k) m (f busy) (Running k, None) [].

(** The calls on a watcher. *)
Inductive entry : prog unit -> Prop :=
| entry_relayMint source burn id e :
    entry (_ ← relayMint stellar leaseMs pollMaxAttempts pollIntervalMs source burn id e; Ret tt)
| entry_resume id :
    entry (_ ← resumeExisting stellar base leaseMs pollMaxAttempts pollIntervalMs id; Ret tt)
| entry_sweep now limit :
    entry (_ ← sweepStuck stellar leaseMs pollMaxAttempts pollIntervalMs now limit; Ret tt)
| entry_evidence id : entry (_ ← getRecoveryEvidence id; Ret tt).

Inductive step (w : world) : world -> Prop :=
| step_boot p :
    inFlight w !! p = None ->
    step w {| table := table w; inFlight := <[p := ∅]> (inFlight w); threads := threads w; log := log w |}
| step_start p t prg busy :
    inFlight w !! p = Some busy -> threads w !! (p, t) = None -> entry prg ->
    step w {| table := table w; inFlight := inFlight w;
              threads := <[(p, t) := (Running prg, None)]> (threads w); log := log w |}
| step_run p t prg g busy m' busy' th evs :
    inFlight w !! p = Some busy -> threads w !! (p, t) = Some (Running prg, g) ->
    op (table w) busy prg m' busy' th evs ->
    step w {| table := m'; inFlight := <[p := busy']> (inFlight w);
              threads := <[(p, t) := th]> (threads w); log := log w ++ evs |}
| step_answer p t c k g a :
    threads w !! (p, t) = Some (Waiting c k, g) ->
    step w {| table := table w; inFlight := inFlight w;
              threads := <[(p, t) := (Running (k a), None)]> (threads w);
              log := log w ++ [Answered c a] |}
| step_crash p :
    step w {| table := table w; inFlight := delete p (inFlight w);
              threads := filter (fun th => th.1.1 <> p) (threads w); log := log w |}.

Definition initial : world := {| table := ∅; inFlight := ∅; threads := ∅; log := [] |}.
Definition reachable (w : world) : Prop := rtc step initial w.
End Semantics.

(** ** A logic for programs *)
Section Logic.
Context (stellar : Z).

(** What a thread has learnt: identities of records, confirmed hashes, the fence it has just
    crossed. *)
Record know := { facts : list (string * intent); confirms : list (option chars); permit : option string }.

Definition grows (K K' : know) : Prop := facts K ⊆ facts K' /\ confirms K ⊆ confirms K'.

Definition message_matches (m : option chars) (i : intent) : Prop :=
  exists t parsed, m = Some t
    /\ MessageV2.assertCctpV2BurnMatches (Str (string_of t)) (or_null id (expectation i)) = Ok parsed.

Definition spent (K : know) : know :=
  {| facts := facts K; confirms := confirms K; permit := None |}.
Definition learn (m : rows) (K : know) : know :=
  {| facts := map (fun p => (p.1, ident p.2)) (map_to_list m) ++ facts K; confirms := confirms K;
     permit := None |}.
Definition gain (q : request) (res : result relay_error (list relay)) (K : know) : know :=
  {| facts := facts K; confirms := confirms K; permit := crossing q res |}.
Definition heard (c : call) (a : answer) (K : know) : know :=
  {| facts := facts K;
     confirms := match c, a with Confirm _ h, Returned _ => h :: confirms K | _, _ => confirms K end;
     permit := None |}.

(** The identities a thread knows hold of a table. *)
Definition true_facts (K : know) (m : rows) : Prop :=
  forall id i, (id, i) ∈ facts K -> exists r, m !! id = Some r /\ ident r = i.

Definition answers (K : know) (q : request) (res : result relay_error (list relay)) : Prop :=
  match res with
  | Throw _ => True
  | Ok l =>
      (forall r i, r ∈ l -> (execId (ident r), i) ∈ facts K -> ident r = i)
      /\ match q with
         | RecordAttested id _ m _ _ _ =>
             forall r, r ∈ l -> exists h, even_hex_value m = Ok h /\ messageHex (ev r) = Some h
         | _ => True
         end
  end.

Definition allowed (K : know) (q : request) : Prop :=
  match q with
  | FinishMinted _ _ v _ => exists h, v = or_null text h /\ h ∈ confirms K
  | _ => True
  end.

Definition may_call (K : know) (c : call) : Prop :=
  match c with
  | Submit id forward m _ =>
      permit K = Some id /\ exists i, (id, i) ∈ facts K /\ message_matches m i
        /\ forward = bool_decide (sourceDomain i = Some stellar)
  | _ => True
  end.

(** Every run of the program is allowed, and ends with [Q] or fails with [E]. *)
Fixpoint wp {A} (p : prog A) (K : know) (Q : know -> A -> Prop) (E : know -> string -> Prop) : Prop :=
  match p with
  | Ret a => Q K a
  | Fail c => E K c
  | Now k => forall n, wp (k n) (spent K) Q E
  | Token k => forall t, wp (k t) (spent K) Q E
  | Rows k => forall m, keyed m -> true_facts K m -> wp (k m) (learn m K) Q E
  | Store q k => allowed K q /\ forall res, answers K q res -> wp (k res) (gain q res K) Q E
  | Call c k => may_call K c /\ forall a, wp (k a) (heard c a K) Q E
  | InFlight k => forall s, wp (k s) (spent K) Q E
  | SetInFlight f k => wp k (spent K) Q E
  end.

Definition done_ok {A} (K : know) (a : A) : Prop := True.
End Logic.
End System.

Section WpRules.
Import Relay Ledger Watcher System.
Context (stellar : Z).
Notation wp := (wp stellar).

Lemma grows_refl K : grows K K.
Proof. by split. Qed.
Lemma grows_trans K1 K2 K3 : grows K1 K2 -> grows K2 K3 -> grows K1 K3.
Proof. intros [? ?] [? ?]. split; by etransitivity. Qed.
Lemma grows_spent K : grows K (spent K).
Proof. by split. Qed.
Lemma grows_learn m K : grows K (learn m K).
Proof. split; [|done]. cbn. set_solver. Qed.
Lemma grows_gain q res K : grows K (gain q res K).
Proof. by split. Qed.
Lemma grows_heard c a K : grows K (heard c a K).
Proof. split; [done|]. cbn. destruct c, a; set_solver. Qed.

Lemma wp_mono {A} (p : prog A) K (Q Q' : know -> A -> Prop) (E E' : know -> string -> Prop) :
  wp p K Q E -> (forall K' a, grows K K' -> Q K' a -> Q' K' a) ->
  (forall K' c, grows K K' -> E K' c -> E' K' c) -> wp p K Q' E'.
Proof.
  revert K. induction p as [a|c|k IH|k IH|k IH|q k IH|c k IH|k IH|f k IH]; intros K H HQ HE; cbn in *.
  - apply HQ; [apply grows_refl|done].
  - apply HE; [apply grows_refl|done].
  - intros n. eapply IH; [apply H|..]; intros; [apply HQ|apply HE]; eauto using grows_trans, grows_spent.
  - intros n. eapply IH; [apply H|..]; intros; [apply HQ|apply HE]; eauto using grows_trans, grows_spent.
  - intros m Hk Hf. eapply IH; [by apply H|..]; intros; [apply HQ|apply HE]; eauto using grows_trans, grows_learn.
  - destruct H as [Ha H]. split; [done|]. intros res Hr.
    eapply IH; [by apply H|..]; intros; [apply HQ|apply HE]; eauto using grows_trans, grows_gain.
  - destruct H as [Ha H]. split; [done|]. intros a.
    eapply IH; [by apply H|..]; intros; [apply HQ|apply HE]; eauto using grows_trans, grows_heard.
  - intros n. eapply IH; [apply H|..]; intros; [apply HQ|apply HE]; eauto using grows_trans, grows_spent.
  - eapply IH; [apply H|..]; intros; [apply HQ|apply HE]; eauto using grows_trans, grows_spent.
Qed.

Lemma wp_bind {A B} (p : prog A) (f : A -> prog B) K Q E :
  wp p K (fun K' a => wp (f a) K' Q E) E -> wp (a ← p; f a) K Q E.
Proof.
  change (a ← p; f a) with (andThen p f).
  revert K. induction p; intros K; cbn; intros; naive_solver.
Qed.

Lemma wp_catch {A} (p : prog A) (h : string -> prog A) K Q E :
  wp p K Q (fun K' c => wp (h c) K' Q E) -> wp (catch p h) K Q E.
Proof. revert K. induction p; intros K; cbn; intros; naive_solver. Qed.

Lemma wp_attempt {A} (p : prog A) K (Q : know -> A + string -> Prop) E :
  wp p K (fun K' a => Q K' (inl a)) (fun K' c => Q K' (inr c)) -> wp (attempt p) K Q E.
Proof. intros H. unfold attempt. apply wp_catch, wp_bind. exact H. Qed.
End WpRules.

(** ** The watcher keeps to the logic *)
Section Programs.
Import Relay Ledger Watcher System.
Local Open Scope string_scope.
Context (stellar base leaseMs pollMaxAttempts pollIntervalMs : Z).
Notation wp := (wp stellar).
Notation anyway := (fun _ _ => True).

(** Programs that neither submit nor confirm. *)
Fixpoint quiet {A} (p : prog A) : Prop :=
  match p with
  | Ret _ | Fail _ => True
  | Now k => forall n, quiet (k n)
  | Token k => forall t, quiet (k t)
  | Rows k => forall m, quiet (k m)
  | Store q k => match q with FinishMinted _ _ _ _ => False | _ => True end /\ forall res, quiet (k res)
  | Call c k => match c with Submit _ _ _ _ => False | _ => True end /\ forall a, quiet (k a)
  | InFlight k => forall s, quiet (k s)
  | SetInFlight _ k => quiet k
  end.

Lemma quiet_bind {A B} (p : prog A) (f : A -> prog B) :
  quiet p -> (forall a, quiet (f a)) -> quiet (a ← p; f a).
Proof.
  change (a ← p; f a) with (andThen p f). intros Hp Hf.
  induction p; cbn in *; try done; naive_solver.
Qed.

Lemma quiet_catch {A} (p : prog A) h : quiet p -> (forall c, quiet (h c)) -> quiet (catch p h).
Proof. intros Hp Hh. induction p; cbn in *; try done; naive_solver. Qed.

Lemma wp_quiet {A} (p : prog A) K : quiet p -> wp p K anyway anyway.
Proof.
  revert K. induction p as [a|c|k IH|k IH|k IH|q k IH|c k IH|k IH|f k IH]; intros K; cbn; try done;
    try naive_solver.
  - intros [Hq H]. split; [by destruct q|]. intros res _. by apply IH.
  - intros [Hc H]. split; [by destruct c|]. intros a. by apply IH.
Qed.

Lemma quiet_store_opt q :
  match q with FinishMinted _ _ _ _ => False | _ => True end -> quiet (store_opt q).
Proof. intros Hq. cbn. split; [done|]. by intros []. Qed.

Lemma quiet_store q :
  match q with FinishMinted _ _ _ _ => False | _ => True end -> quiet (store q).
Proof. intros Hq. apply quiet_bind; [by apply quiet_store_opt|]. by intros []. Qed.

Lemma quiet_release id token : quiet (releaseQuietly id token).
Proof.
  apply quiet_catch; [|done]. apply quiet_bind; [done|]. intros now.
  apply quiet_bind; [by apply quiet_store|done].
Qed.

Lemma quiet_block id token reason : quiet (block id token reason).
Proof. apply quiet_bind; [done|]. intros now. apply quiet_bind; [by apply quiet_store|done]. Qed.

Lemma quiet_uncertain id token reason mint : quiet (uncertain_after id token reason mint).
Proof. apply quiet_bind; [done|]. intros now. apply quiet_bind; [by apply quiet_store|done]. Qed.

(** A message of other case matches the same. *)
Lemma assert_lower (t : chars) e m :
  MessageV2.assertCctpV2BurnMatches (Str (string_of t)) e = Ok m ->
  MessageV2.assertCctpV2BurnMatches (Str (string_of (toLowerCase t))) e = Ok m.
Proof.
  unfold MessageV2.assertCctpV2BurnMatches. intros H. apply bind_Ok in H as (m' & Hm & H).
  apply bind_Ok. exists m'. split; [|done]. cbn [MessageV2.parseCctpV2Message] in *.
  rewrite chars_of_string_of in *. apply wire_form in Hm as (W & hex & -> & E).
  apply wire_form. split; [done|]. exists (toLowerCase hex). split.
  - unfold toLowerCase. by rewrite fmap_app.
  - by rewrite toLowerCase_idemp.
Qed.

(** The message of an attested record matches the expectation. *)
Definition verified (record working : relay) : Prop :=
  status working = attested -> message_matches (messageHex (ev working)) (ident record).

(** *** Rules for the primitives *)
Lemma wp_ret {A} (a : A) K (Q : know -> A -> Prop) E : Q K a -> wp (Ret a) K Q E.
Proof. done. Qed.

Lemma wp_clock K Q E : (forall n, Q (spent K) n) -> wp clock K Q E.
Proof. done. Qed.

Lemma wp_token K Q E : (forall t, Q (spent K) t) -> wp newToken K Q E.
Proof. done. Qed.

Lemma wp_get id K Q E :
  (forall m, keyed m -> true_facts K m -> Q (learn m K) (m !! id)) -> wp (get id) K Q E.
Proof. done. Qed.

Lemma wp_in_flight {A} (k : gset string -> prog A) K Q E :
  (forall s, wp (k s) (spent K) Q E) -> wp (InFlight k) K Q E.
Proof. done. Qed.

Lemma wp_store_opt q K Q E :
  allowed K q -> (forall l, answers K q (Ok l) -> Q (gain q (Ok l) K) (head l)) ->
  (forall res c, E (gain q res K) c) -> wp (store_opt q) K Q E.
Proof. intros Ha HQ HE. split; [done|]. intros [l|e] Hr; cbn; auto. Qed.

Lemma wp_ask c K Q E :
  may_call stellar K c -> (forall v, Q (heard c (Returned v) K) v) ->
  (forall code, E (heard c (Rejected code) K) code) -> wp (ask c) K Q E.
Proof. intros Hc HQ HE. split; [done|]. intros [v|code]; cbn; auto. Qed.

Lemma wp_check {A} (m : result MessageV2.cctp_error A) K Q E :
  (forall a, m = Ok a -> Q K a) -> (forall c, E K c) -> wp (check m) K Q E.
Proof. intros HQ HE. destruct m; cbn; auto. Qed.

Lemma wp_store q K Q E :
  allowed K q ->
  (forall r l, answers K q (Ok (r :: l)) -> Q (gain q (Ok (r :: l)) K) r) ->
  (forall res c, E (gain q res K) c) -> wp (store q) K Q E.
Proof.
  intros Ha HQ HE. apply wp_bind. cbn. split; [done|].
  intros [[|r l]|e] Hr; cbn; auto.
Qed.

Lemma wp_quiet_bind {A B} (p : prog A) (f : A -> prog B) K Q :
  quiet p -> (forall K' a, grows K K' -> wp (f a) K' Q anyway) -> wp (a ← p; f a) K Q anyway.
Proof.
  intros Hp Hf. apply wp_bind. eapply wp_mono; [by apply wp_quiet|..]; cbn; auto.
Qed.

(** *** The phases *)
Lemma poll_verified record claimed id token K :
  wp (pollPhase record claimed id token) K
     (fun K' o => match o with inl _ => True | inr w => verified record w end) anyway.
Proof.
  unfold pollPhase. set (e := or_null _ _). apply wp_bind, wp_attempt, wp_bind, wp_ask; [done|..].
  - intros evidence. apply wp_bind, wp_check; [|intros c; cbv beta].
    + intros parsed Hp. apply wp_ret. cbv beta iota. apply wp_bind, wp_attempt, wp_bind, wp_clock. intros now.
      apply wp_store; [done|..].
      * intros r l [_ Hr] _. destruct (Hr r) as (h & Hh & Hm); [left|].
        unfold even_hex_value, string_matches, test, invalid in Hh. invert_ok Hh. zbool.
        destruct (evidence#"message") as [| | | | | |s| |] eqn:Es; try discriminate.
        rewrite Hm. exists (toLowerCase (chars_of s)), parsed. split; [done|].
        apply assert_lower. by rewrite string_of_chars_of.
      * intros res c. cbv beta iota. case_decide; [|done].
        apply wp_quiet_bind; [apply quiet_block|done].
    + repeat case_decide; (apply wp_quiet_bind; [first [apply quiet_block|apply quiet_release]|done]).
  - intros c. cbv beta iota. repeat case_decide; (apply wp_quiet_bind; [first [apply quiet_block|apply quiet_release]|done]).
Qed.

Lemma submit_allowed record working id token K :
  verified record working -> status working = attested -> (id, ident record) ∈ facts K ->
  wp (submitPhase stellar record working id token) K anyway anyway.
Proof.
  intros Hv Hs Hf. unfold submitPhase. apply wp_bind, wp_clock. intros now.
  apply wp_bind, wp_store; [done| |done]. intros r l _.
  apply wp_bind, wp_attempt, wp_ask.
  - split; [done|]. exists (ident record). split_and!; [done|by apply Hv|done].
  - intros hash. apply wp_bind. eapply wp_mono; [apply wp_quiet|..].
    + apply quiet_catch; [|done]. apply quiet_bind; [|done]. apply quiet_bind; [done|].
      intros n. by apply quiet_store.
    + intros K' [r'|c] _ _; [done|]. apply wp_quiet, quiet_uncertain.
    + done.
  - intros c. apply wp_quiet, quiet_uncertain.
Qed.

Lemma confirm_allowed record working id token K :
  wp (confirmPhase stellar record working id token) K anyway anyway.
Proof.
  unfold confirmPhase. apply wp_bind, wp_attempt, wp_ask; [done|..].
  - intros v. apply wp_bind, wp_attempt, wp_bind, wp_clock. intros now. apply wp_store.
    + exists (mintTxHash working). split; [done|]. left.
    + done.
    + intros res c. apply wp_quiet_bind; [apply quiet_release|done].
  - intros c. cbv beta iota. case_decide; [apply wp_quiet, quiet_block|].
    apply wp_quiet_bind; [apply quiet_release|done].
Qed.

Lemma phases_allowed record claimed id token K :
  (id, ident record) ∈ facts K ->
  wp (phases stellar record claimed id token) K anyway anyway.
Proof.
  intros Hf. unfold phases. apply wp_bind.
  eapply (wp_mono _ _ _ (fun K' o => match o with inl _ => True | inr w => verified record w end) _ _ anyway).
  { case_decide as Hc; [apply poll_verified|]. cbn. intros Hs. destruct Hc. by right. }
  - intros K' [o|w] HK Hv; [done|]. apply wp_bind.
    eapply (wp_mono _ _ _ anyway _ _ anyway); [|intros K2 [o|w2] _ _|done].
    + case_decide; [|done]. apply submit_allowed; [done|done|]. by apply HK.
    + done.
    + apply confirm_allowed.
  - done.
Qed.

Lemma drive_allowed id K : wp (drive stellar leaseMs pollMaxAttempts pollIntervalMs id) K anyway anyway.
Proof.
  unfold drive. apply wp_bind, wp_get. intros m Hk Hf.
  destruct (m !! id) as [record|] eqn:Hr; [|done].
  destruct (terminalResult record); [done|].
  apply wp_bind, wp_clock. intros now. apply wp_bind, wp_token. intros token.
  apply wp_bind, wp_store_opt; [done| |done]. intros l _. destruct (head l) as [claimed|]; [|done].
  apply wp_catch. eapply wp_mono; [apply phases_allowed|done|].
  - cbn. apply elem_of_app. left. apply list_elem_of_fmap. exists (id, record).
    split; [done|]. by apply elem_of_map_to_list.
  - intros K' c _ _. apply wp_quiet_bind; [apply quiet_release|done].
Qed.

Lemma wp_finally {A} (p : prog A) (q : prog unit) K :
  wp p K anyway anyway -> quiet q -> wp (finally p q) K anyway anyway.
Proof.
  intros Hp Hq. unfold finally. apply wp_bind, wp_attempt.
  eapply wp_mono; [exact Hp|..]; cbv beta; intros K' a _ _; by apply wp_quiet_bind.
Qed.

(** Every call on the watcher keeps to the logic. *)
Lemma entry_allowed prg K : entry stellar base leaseMs pollMaxAttempts pollIntervalMs prg -> wp prg K anyway anyway.
Proof.
  destruct 1; apply wp_bind.
  - unfold relayMint. apply wp_in_flight. intros busy. case_decide; [done|].
    apply wp_quiet_bind; [done|]. intros K' _ _. apply wp_finally; [|done]. apply wp_bind, wp_clock. intros now.
    apply wp_bind, wp_store; [done| |done]. intros r l _.
    destruct (terminalResult r); [done|apply drive_allowed].
  - unfold resumeExisting. apply wp_in_flight. intros busy. case_decide; [done|].
    apply wp_bind, wp_get. intros m _ _.
    destruct (m !! id) as [record|]; [|done]. destruct (negb _); [done|].
    apply wp_quiet_bind; [done|]. intros K0 _ _.
    apply wp_finally; [|done]. apply wp_quiet_bind; [by case_decide|]. intros K' expired _.
    apply wp_quiet_bind; [destruct expired; [|done]; apply quiet_bind; [done|]; intros n; by apply quiet_store_opt|].
    intros K2 [current|] _; [|done]. destruct (terminalResult current); [done|apply drive_allowed].
  - unfold sweepStuck. apply wp_quiet_bind; [by apply quiet_store_opt|]. intros K' _ _.
    apply wp_quiet_bind; [cbn; intros m; by destruct (listSweepSummary _ _ _)|]. intros K2 summary _.
    apply wp_quiet_bind; [cbn; intros m; by destruct (listForSweep _ _ _ _)|]. intros K3 l _.
    apply wp_in_flight. intros busy. generalize (foldl (report busy)
      {| redriven := []; held := []; sw_blocked := []; sw_uncertain := [] |} summary).
    generalize (spent K3). clear. induction l as [|r l IH]; intros K s; [done|].
    cbn [redrive_rows]. apply wp_in_flight. intros busy. case_decide; [apply IH|].
    apply wp_bind, wp_catch, wp_bind.
    eapply wp_mono; [apply drive_allowed|..]; cbv beta; intros K1 a _ _; [|apply IH].
    apply wp_bind, wp_get. intros m _ _. apply IH.
  - unfold getRecoveryEvidence. apply wp_quiet. cbn. intros m. destruct (fetch m id) as [r|]; [|done].
    by case_decide.
Qed.
End Programs.

(** ** The interleavings *)
Section Invariant.
Import Relay Ledger Watcher System.
Context (sha256 : chars -> chars) (stellar base : Z) (leaseMs pollMaxAttempts pollIntervalMs : Z).
Notation wp := (wp stellar).
Notation anyway := (fun _ _ => True).
Notation step := (step sha256 stellar base leaseMs pollMaxAttempts pollIntervalMs).
Notation op := (op sha256).

(** *** The table under one call *)

(** The rows a call returns are in the table it leaves. *)
Lemma returned_rows m q l m' :
  keyed m -> perform sha256 m q = Ok (l, m') ->
  Forall (fun r => m' !! execId (ident r) = Some r) l.
Proof.
  intros Hk H. pose proof (after_keyed sha256 m q Hk) as Hk'. unfold after in Hk'.
  rewrite H in Hk'. cbn [snd] in Hk'.
  assert (forall id r, m' !! id = Some r -> Forall (fun r => m' !! execId (ident r) = Some r) [r]) as Hone.
  { intros id r Hr. apply Forall_singleton. by rewrite (Hk' id r Hr). }
  destruct q as [id s b e now|id now ms t|id t now ms|id t ms n a now|id t now|id t mint now
    |id t mint now|id t re now|id t mint re now|id t now|now limit|id now];
    cbn [perform] in H; unfold one, at_most_one in H; apply bind_Ok in H as H';
    try (destruct H' as ([r m1] & H1 & [= <- <-]); unfold renew, markMintSubmitting, markMintSubmitted,
      finishMinted, finishBlocked, finishUncertain, release, put in H1;
      apply bind_Ok in H1 as (r' & _ & [= <- <-]); apply (Hone id), lookup_insert_eq; fail).
  - destruct H' as ([r m1] & H1 & [= <- <-]). unfold enqueue in H1.
    apply bind_Ok in H1 as ([r' changed] & H1 & [= <- <-]). cbn [fst snd] in *. destruct changed.
    + apply (Hone id), lookup_insert_eq.
    + apply (Hone id). destruct (m !! id) as [r0|] eqn:E; [by apply enqueue_existing in H1 as [= ->]|].
      unfold relayEnqueueDecision in H1. by invert_ok H1.
  - destruct H' as ([o m1] & H1 & [= <- <-]). unfold claim in H1.
    apply bind_Ok in H1 as ([r|] & _ & H1); injection H1 as <- <-; [|constructor].
    apply (Hone id), lookup_insert_eq.
  - destruct H' as ([r m1] & H1 & [= <- <-]). unfold recordAttested in H1.
    apply bind_Ok in H1 as (o & Ho & H1). destruct o as [r'|].
    + injection H1 as <- <-. apply (Hone id), lookup_insert_eq.
    + destruct (m !! id) as [r0|] eqn:E; [|discriminate H1]. injection H1 as <- <-. by apply (Hone id).
  - destruct H' as (z & _ & H1). apply bind_Ok in H1 as (lim & _ & [= <- <-]).
    rewrite Forall_map. apply Forall_forall. intros r Hr.
    replace (execId (ident (relayReconcileExpired r z))) with (execId (ident r))
      by (unfold relayReconcileExpired; by case_decide).
    apply reconcile_all_In; [|done]. apply Forall_forall.
    intros r0 (_ & id & Hid)%select_In. by rewrite (Hk _ _ Hid).
  - destruct H' as ([o m1] & H1 & [= <- <-]). unfold reconcileOne in H1.
    apply bind_Ok in H1 as (z & _ & H1). destruct (m !! id) as [r|] eqn:E; [|injection H1 as <- <-; constructor].
    destruct (_ || _); injection H1 as <- <-; apply (Hone id); [done|apply lookup_insert_eq].
Qed.

Lemma attested_message m id t v n a now r m' :
  recordAttested sha256 m id t v n a now = Ok (r, m') ->
  exists h, even_hex_value v = Ok h /\ messageHex (ev r) = Some h.
Proof.
  unfold recordAttested. intros H. apply bind_Ok in H as (o & Ho & H).
  unfold relayRecordAttested in Ho. apply bind_Ok in Ho as (z & _ & Ho).
  apply bind_Ok in Ho as (e & (h & ? & ? & Hh & _ & _ & ->)%normalizeEvidence_Ok & Ho).
  exists h. split; [done|]. apply bind_Ok in Ho as (r0 & Hl & Ho).
  destruct (m !! id) as [r1|] eqn:E; [|done]. apply assertLease_Ok in Hl as (-> & _).
  unfold conflict in Ho. case_decide; [by simplify_eq/=|].
  destruct (negb (bool_decide (status r1 = attested))); [done|].
  destruct (_ || _) eqn:Eo; [done|]. zbool. apply bool_decide_eq_true in H1. cbn in H1.
  match type of Ho with (if ?b then _ else _) = _ => destruct b end; simplify_eq/=; congruence.
Qed.

Lemma reply_answers K m q :
  keyed m -> true_facts K m -> answers K q (reply sha256 m q).
Proof.
  intros Hk Hf. unfold reply. destruct (perform sha256 m q) as [[l m']|e] eqn:E; [|done]. split.
  - intros r i Hr Hi. destruct (Hf _ _ Hi) as (r0 & H0 & <-).
    destruct (after_evolves sha256 m q _ r0 Hk H0) as (r1 & H1 & Hev).
    unfold after in H1. rewrite E in H1. cbn [snd] in H1.
    pose proof (returned_rows _ _ _ _ Hk E) as HF. rewrite Forall_forall in HF.
    cbn [fst] in Hr. rewrite (HF r Hr) in H1. injection H1 as ->. apply Hev.
  - destruct q; try done. cbn [perform] in E. unfold one in E.
    apply bind_Ok in E as ([r m1] & E & [= <- <-]). cbn [fst]. intros r' ->%list_elem_of_singleton.
    by eapply attested_message.
Qed.

Lemma true_facts_after K m q : keyed m -> true_facts K m -> true_facts K (after sha256 m q).
Proof.
  intros Hk Hf id i Hi. destruct (Hf id i Hi) as (r & Hr & <-).
  destruct (after_evolves sha256 m q id r Hk Hr) as (r' & Hr' & Hev). exists r'. split; [done|]. apply Hev.
Qed.

(** The submission fence of an execution is crossed. *)
Definition crossed (m : rows) (id : string) : Prop :=
  exists r, m !! id = Some r /\ (2 <= rank (status r))%nat.

Lemma crossed_after m q id : keyed m -> crossed m id -> crossed (after sha256 m q) id.
Proof.
  intros Hk (r & Hr & Hc). destruct (after_evolves sha256 m q id r Hk Hr) as (r' & Hr' & Hev).
  exists r'. split; [done|]. pose proof (ev_rank _ _ Hev). lia.
Qed.

(** The fence is crossed from outside, once. *)
Lemma crossing_fresh m q id :
  crossing q (reply sha256 m q) = Some id -> ~ crossed m id /\ crossed (after sha256 m q) id.
Proof.
  unfold reply, after. destruct q; try done. destruct (perform sha256 m _) as [[l m']|] eqn:E; [|done].
  intros [= <-]. cbn [perform] in E. unfold one in E. apply bind_Ok in E as ([r m1] & E & [= <- <-]).
  unfold markMintSubmitting, put in E. apply bind_Ok in E as (r' & E & [= <- <-]). cbn [snd].
  unfold relayMarkMintSubmitting, conflict in E. apply bind_Ok in E as (z & _ & E).
  apply bind_Ok in E as (r0 & Hl & E). destruct (negb _) eqn:Es; [done|]. injection E as <-.
  zbool. apply bool_decide_eq_true in Es.
  destruct (m !! id0) as [r1|] eqn:Em; [|done]. apply assertLease_Ok in Hl as (-> & _). split.
  - intros (r & Hr & Hc). rewrite Em in Hr. injection Hr as <-. rewrite Es in Hc. cbn in Hc. lia.
  - eexists. rewrite lookup_insert_eq. split; [done|]. cbn. lia.
Qed.

(** A record that becomes minted was finished with the hash it holds. *)
Lemma minted_after m q id r' :
  keyed m -> after sha256 m q !! id = Some r' -> status r' = minted ->
  (exists r, m !! id = Some r /\ status r = minted /\ mintTxHash r' = mintTxHash r)
  \/ exists id' t v now h, q = FinishMinted id' t v now /\ mintTxHash r' = Some h
      /\ (stellar_hash v = Ok h \/ base_hash v = Ok h).
Proof.
  intros Hk Hr' Hs. destruct (after_row sha256 m q id Hk) as [H|[(r & r1 & H0 & H1 & Ht)|(r1 & H0 & H1 & Hc)]].
  - left. rewrite H in Hr'. eauto.
  - rewrite H1 in Hr'. injection Hr' as ->. right.
    pose proof (touched_open _ _ _ _ Ht) as Ho.
    touch_cases Ht; try (cbn in Hs; first [discriminate Hs | rewrite Hs in Ho; discriminate Ho]);
      try (unfold relayReconcileExpired in Hs; case_decide; cbn in Hs; first [discriminate Hs | rewrite Hs in Ho; discriminate Ho]).
    do 5 eexists. split; [reflexivity|]. cbn [set_final mintTxHash].
    match goal with H : record_mint_hash _ _ = Ok ?h, H' : mintTxHash _ = Some ?h |- _ =>
      split; [exact H'|]; unfold record_mint_hash, normalizeMintTxHash in H; invert_ok H; tauto end.
  - rewrite H1 in Hr'. injection Hr' as ->. destruct q; try done. destruct Hc as (-> & c & Hc).
    unfold relayEnqueueDecision, relayNewPendingRecord in Hc. invert_ok Hc.
    match goal with H : requireNow _ ≫= _ = _ |- _ => by invert_ok H end.
Qed.

(** *** The log *)
Definition is_submit (id : string) (e : event) : bool :=
  match e with Sent (Submit id' _ _ _) => bool_decide (id' = id) | _ => false end.
(** How often an execution was submitted. *)
Definition submissions (l : list event) (id : string) : nat :=
  length (filter (fun e => is_submit id e = true) l).

Lemma submissions_app l1 l2 id : submissions (l1 ++ l2) id = (submissions l1 id + submissions l2 id)%nat.
Proof. unfold submissions. by rewrite filter_app, length_app. Qed.

Lemma submissions_one e id : submissions [e] id = if is_submit id e then 1%nat else O.
Proof.
  unfold submissions. rewrite filter_cons. destruct (is_submit id e) eqn:E.
  - by rewrite decide_True.
  - by rewrite decide_False.
Qed.

Definition activity_ok (a : activity) (K : know) : Prop :=
  match a with
  | Running p => wp p K anyway anyway
  | Waiting c k => forall ans, wp (k ans) (heard c ans K) anyway anyway
  end.

(** The hashes a thread holds confirmed were confirmed. *)
Definition true_confirms (K : know) (l : list event) : Prop :=
  forall h, h ∈ confirms K -> exists f v, Answered (Confirm f h) (Returned v) ∈ l.

Definition thread_ok (w : world) (th : thread) : Prop :=
  exists K, permit K = th.2 /\ activity_ok th.1 K /\ true_facts K (table w) /\ true_confirms K (log w).

Record inv (w : world) : Prop := {
  inv_keyed : keyed (table w);
  inv_threads : map_Forall (fun _ th => thread_ok w th) (threads w);
  (** The thread that crossed a fence is the only one to have, and has not submitted yet. *)
  inv_permit : forall t th id, threads w !! t = Some th -> th.2 = Some id ->
    crossed (table w) id /\ submissions (log w) id = O
    /\ forall t' th', threads w !! t' = Some th' -> th'.2 = Some id -> t' = t;
  inv_once : forall id, (submissions (log w) id <= 1)%nat
    /\ (submissions (log w) id = 1%nat -> crossed (table w) id);
  inv_match : forall id f m a, Sent (Submit id f m a) ∈ log w ->
    exists r, table w !! id = Some r /\ message_matches m (ident r)
      /\ f = bool_decide (sourceDomain (ident r) = Some stellar);
  inv_minted : forall id r, table w !! id = Some r -> status r = minted ->
    exists f t v h, Answered (Confirm f (Some t)) (Returned v) ∈ log w /\ mintTxHash r = Some h
      /\ toLowerCase t = h;
}.

Lemma inv_initial : inv initial.
Proof. split; cbn; try done.
  - intros id. split; [lia|done].
  - intros id f m a H. by apply elem_of_nil in H.
Qed.

(** The table a step leaves: the same, or that after one call. *)
Definition moved (m m' : rows) : Prop := m' = m \/ exists q, m' = after sha256 m q.

Lemma moved_evolves m m' id r :
  keyed m -> moved m m' -> m !! id = Some r -> exists r', m' !! id = Some r' /\ evolves r r'.
Proof. intros Hk [->|[q ->]] Hr; [eauto using evolves_refl|by apply after_evolves]. Qed.

Lemma moved_keyed m m' : keyed m -> moved m m' -> keyed m'.
Proof. intros Hk [->|[q ->]]; [done|by apply after_keyed]. Qed.

Lemma moved_crossed m m' id : keyed m -> moved m m' -> crossed m id -> crossed m' id.
Proof. intros Hk [->|[q ->]] H; [done|by apply crossed_after]. Qed.

Lemma moved_facts K m m' : keyed m -> moved m m' -> true_facts K m -> true_facts K m'.
Proof. intros Hk [->|[q ->]] H; [done|by apply true_facts_after]. Qed.

Lemma confirms_app K l1 l2 : true_confirms K l1 -> true_confirms K (l1 ++ l2).
Proof. intros H h Hh. destruct (H h Hh) as (f & v & Hin). exists f, v. apply elem_of_app. by left. Qed.

Lemma thread_ok_moved w m' fl ths evs th :
  keyed (table w) -> moved (table w) m' -> thread_ok w th ->
  thread_ok {| table := m'; inFlight := fl; threads := ths; log := log w ++ evs |} th.
Proof.
  intros Hk Hm (K & Hp & Ha & Hf & Hc). exists K. split_and!; try done.
  - by eapply moved_facts.
  - by apply confirms_app.
Qed.

(** A step of the thread [t]: what it becomes, what it does to the table, what it logs. *)
Lemma inv_update w t th m' fl evs :
  inv w -> moved (table w) m' ->
  let w' := {| table := m'; inFlight := fl; threads := <[t := th]> (threads w); log := log w ++ evs |} in
  thread_ok w' th ->
  (forall id, th.2 = Some id -> ~ crossed (table w) id /\ crossed m' id /\ evs = []) ->
  (forall id, (submissions evs id <= 1)%nat
     /\ (submissions evs id = 1%nat -> exists th0, threads w !! t = Some th0 /\ th0.2 = Some id)) ->
  (forall id f m a, Sent (Submit id f m a) ∈ evs ->
     exists r, m' !! id = Some r /\ message_matches m (ident r)
       /\ f = bool_decide (sourceDomain (ident r) = Some stellar)) ->
  (forall id r', m' !! id = Some r' -> status r' = minted ->
     (exists r, table w !! id = Some r /\ status r = minted /\ mintTxHash r' = mintTxHash r)
     \/ exists f t v, Answered (Confirm f (Some t)) (Returned v) ∈ log w
         /\ mintTxHash r' = Some (toLowerCase t)) ->
  inv w'.
Proof.
  intros I Hm w' Hth Hgrant Hsub Hmatch Hmint. destruct I as [Ik It Ip Io Im In].
  split; cbn [table threads log w'].
  - by eapply moved_keyed.
  - apply map_Forall_insert_2; [done|]. intros t0 th0 H0. eapply thread_ok_moved; [done|done|]. by eapply It.
  - intros t0 th0 id H0 H1. destruct (decide (t0 = t)) as [->|Hne].
    + rewrite lookup_insert_eq in H0. injection H0 as <-. destruct (Hgrant id H1) as (Hn & Hc & ->).
      rewrite app_nil_r. destruct (Io id) as [Hle Hone]. split_and!; [done| |].
      * destruct (submissions (log w) id) as [|[|]]; [done|exfalso; by apply Hn, Hone|lia].
      * intros t' th' Ht' Hp'. destruct (decide (t' = t)) as [|Hne]; [done|].
        rewrite lookup_insert_ne in Ht' by done. exfalso. by apply Hn, (Ip t' th' id Ht' Hp').
    + rewrite lookup_insert_ne in H0 by done. destruct (Ip t0 th0 id H0 H1) as (Hc & Hz & Hu).
      split_and!; [by eapply moved_crossed| |].
      * rewrite submissions_app, Hz. destruct (Hsub id) as [Hle Hone].
        destruct (submissions evs id) as [|[|]]; [done| |lia].
        destruct Hone as (th1 & H2 & H3); [done|]. destruct Hne. symmetry. by eapply Hu.
      * intros t' th' Ht' Hp'. destruct (decide (t' = t)) as [->|].
        -- rewrite lookup_insert_eq in Ht'. injection Ht' as <-. exfalso. by apply (Hgrant id Hp').
        -- rewrite lookup_insert_ne in Ht' by done. by eapply Hu.
  - intros id. rewrite submissions_app. destruct (Hsub id) as [Hle Hone], (Io id) as [Hle' Hone'].
    destruct (submissions evs id) as [|[|]]; [| |lia].
    + rewrite Nat.add_0_r. split; [done|]. intros H. by eapply moved_crossed, Hone'.
    + destruct Hone as (th0 & H2 & H3); [done|].
      destruct (Ip t th0 id H2 H3) as (Hc & -> & _). split; [done|]. intros _. by eapply moved_crossed.
  - intros id f m a [Hin|Hin]%elem_of_app; [|by eapply Hmatch].
    destruct (Im id f m a Hin) as (r & Hr & Hmm & Hf).
    destruct (moved_evolves _ _ id r Ik Hm Hr) as (r' & Hr' & Hev). exists r'.
    rewrite (ev_ident _ _ Hev). done.
  - intros id r' Hr' Hs. destruct (Hmint id r' Hr' Hs) as [(r & Hr & Hsr & ->)|(f & x & v & Hin & Hh)].
    + destruct (In id r Hr Hsr) as (f & x & v & h & Hin & ?). exists f, x, v, h. split; [|done].
      apply elem_of_app. by left.
    + exists f, x, v, (toLowerCase x). split_and!; try done. apply elem_of_app. by left.
Qed.

(** What one step of a program leaves a thread with. *)
Lemma op_thread w busy prg m' busy' th evs K :
  keyed (table w) -> op (table w) busy prg m' busy' th evs ->
  wp prg K anyway anyway -> true_facts K (table w) -> true_confirms K (log w) ->
  forall fl ths, thread_ok {| table := m'; inFlight := fl; threads := ths; log := log w ++ evs |} th.
Proof.
  intros Hk Hop Hwp Hf Hc fl ths. destruct Hop; cbn in Hwp.
  - exists (spent K). split_and!; [done|apply Hwp|done|by apply confirms_app].
  - exists (spent K). split_and!; [done|apply Hwp|done|by apply confirms_app].
  - exists (learn (table w) K). split_and!; [done|by apply Hwp| |by apply confirms_app].
    intros id i Hi. cbn [facts learn] in Hi. apply elem_of_app in Hi as [Hi|Hi]; [|by apply Hf].
    apply list_elem_of_fmap in Hi as ([id' r] & [= -> ->] & Hin).
    exists r. split; [by apply elem_of_map_to_list|done].
  - destruct Hwp as [_ Hwp]. exists (gain q (reply sha256 (table w) q) K). split_and!; [done| | |].
    + apply Hwp. by apply reply_answers.
    + by apply (true_facts_after K).
    + by apply confirms_app.
  - destruct Hwp as [_ Hwp]. exists (spent K). split_and!; [done| |done|by apply confirms_app].
    intros ans. exact (Hwp ans).
  - exists (spent K). split_and!; [done|apply Hwp|done|by apply confirms_app].
  - exists (spent K). split_and!; [done|apply Hwp|done|by apply confirms_app].
Qed.

Lemma text_hash_lower t h : stellar_hash (text t) = Ok h \/ base_hash (text t) = Ok h -> h = toLowerCase t.
Proof.
  unfold stellar_hash, base_hash, string_matches, invalid. cbn [text].
  rewrite chars_of_string_of. fold (text t). rewrite coerce_text.
  intros [H|H]; by invert_ok H.
Qed.

Lemma inv_step w w' : inv w -> step w w' -> inv w'.
Proof.
  intros I Hs. pose proof I as [Ik It Ip Io Im In]. destruct Hs as [p Hp|p t prg busy Hb Hn He|p t prg g busy m' busy' th evs Hb Ht Hop
    |p t c k g a Ht|p].
  - by split.
  - rewrite <- (app_nil_r (log w)). apply inv_update; try done; [by left| | | |].
    + exists {| facts := []; confirms := []; permit := None |}. split_and!; [done| | |].
      * by eapply entry_allowed.
      * intros id i H. by apply elem_of_nil in H.
      * intros h H. by apply elem_of_nil in H.
    + intros id. split; [cbn; lia|done].
    + intros id f m a H. by apply elem_of_nil in H.
    + intros id r' Hr Hm. left. eauto.
  - destruct (It _ _ Ht) as (K & Hpk & Hwp & Hf & Hc). cbn [fst snd activity_ok] in *.
    apply inv_update; [done| | | | | |].
    + destruct Hop; try (by left). right. eauto.
    + by eapply op_thread.
    + destruct Hop; try done. intros id Hid. cbn [snd] in Hid.
      destruct (crossing_fresh _ _ _ Hid). split_and!; done.
    + destruct Hop; try (intros id; split; [cbn; lia|done]).
      intros id. cbn [wp] in Hwp. destruct Hwp as [Hmay _]. 
      rewrite submissions_one. destruct c as [|id0 f m a|]; cbn [is_submit]; try (split; [lia|done]).
      destruct Hmay as [Hperm _]. destruct (bool_decide (id0 = id)) eqn:Hd; [|split; [lia|done]].
      apply bool_decide_eq_true in Hd as ->. split; [lia|]. intros _. eexists. split; [exact Ht|].
      cbn. congruence.
    + destruct Hop; try (intros ? ? ? ? H; by apply elem_of_nil in H).
      intros id f m a Hin%list_elem_of_singleton. injection Hin as <-.
      destruct Hwp as [(_ & i & Hi & Hmm & Hfw) _]. destruct (Hf _ _ Hi) as (r & Hr & <-). eauto.
    + intros id r' Hr Hm. destruct Hop; try (left; eauto; fail).
      destruct (minted_after _ _ _ _ Ik Hr Hm) as [?|(id' & x & v & now & h & -> & Hh & Hx)]; [by left|].
      right. destruct Hwp as [(h0 & -> & Hin) _]. destruct (Hc _ Hin) as (f & v & Hev).
      destruct h0 as [x0|]; [|by destruct Hx]. cbn [or_null] in Hx. apply text_hash_lower in Hx as ->. eauto.
  - destruct (It _ _ Ht) as (K & Hpk & Hwp & Hf & Hc). cbn [fst snd activity_ok] in *.
    apply inv_update; try done; [by left| | | |].
    + exists (heard c a K). split_and!; [done|apply Hwp|done|].
      intros h Hh. cbn [log]. cbn [confirms heard] in Hh.
      destruct c as [|?|f h']; try (by apply (confirms_app K)).
      destruct a as [v|code]; [|by apply (confirms_app K)].
      apply elem_of_cons in Hh as [->|Hh]; [|by apply (confirms_app K)].
      exists f, v. apply elem_of_app. right. by apply list_elem_of_singleton.
    + intros id. rewrite submissions_one. split; [cbn; lia|done].
    + intros id f m a' H%list_elem_of_singleton. done.
    + intros id r' Hr Hm. left. eauto.
  - split; try done.
    + intros t th [Ht _]%map_lookup_filter_Some. by apply (It t).
    + intros t th id H1 H2. cbn [threads] in H1. apply map_lookup_filter_Some in H1 as [H1 _].
      destruct (Ip t th id H1 H2) as (? & ? & Hu). split_and!; try done.
      intros t' th' H3 H4. cbn [threads] in H3. apply map_lookup_filter_Some in H3 as [H3 _]. eauto.
Qed.

Notation reachable := (reachable sha256 stellar base leaseMs pollMaxAttempts pollIntervalMs).

Lemma reachable_inv w : reachable w -> inv w.
Proof.
  unfold reachable. generalize inv_initial. generalize initial. intros w0 I H.
  induction H as [|w0 w1 w2 Hs _ IH]; [done|]. by apply IH, (inv_step w0).
Qed.

(** C1. However the watchers of any number of processes interleave, whichever calls never answer
    and whenever processes crash, an execution is submitted at most once, and only after its
    submission fence is durable. *)
Theorem submitted_at_most_once w id :
  reachable w ->
  (submissions (log w) id <= 1)%nat /\ (submissions (log w) id = 1%nat -> crossed (table w) id).
Proof. intros H. by apply reachable_inv. Qed.

(** C16. Every submitted message is the burn that the immutable expectation of its execution
    describes, and it goes to the chain opposite to the burn. *)
Theorem submitted_message_expected w id f m a :
  reachable w -> Sent (Submit id f m a) ∈ log w ->
  exists r, table w !! id = Some r /\ message_matches m (ident r)
    /\ f = bool_decide (sourceDomain (ident r) = Some stellar).
Proof. intros H. by apply reachable_inv. Qed.

(** C25. A record is minted only with a hash whose confirmation succeeded. *)
Theorem minted_is_confirmed w id r :
  reachable w -> table w !! id = Some r -> status r = minted ->
  exists f t v, Answered (Confirm f (Some t)) (Returned v) ∈ log w
    /\ mintTxHash r = Some (toLowerCase t).
Proof.
  intros H Hr Hs. destruct (inv_minted _ (reachable_inv w H) id r Hr Hs) as (f & t & v & h & ? & ? & <-). eauto.
Qed.
End Invariant.
