(* ===== verification/WatcherRuns.v ===== *)
(** * Runs of the relay watcher

    The run of one program with the answers given, as a function; it is one of the
    interleavings.  A drive that nobody disturbs, whose calls succeed, mints. *)
From S2P Require Export WatcherSafety.
From S2P Require Import RelayCanonical.

Module Run.
Import Relay Ledger Watcher System.

(** The result of a run: the value or the error, the table, the set in flight, what was logged. *)
Record ran (A : Type) := {
  out : A + string; ran_table : rows; ran_busy : gset string; ran_log : list event }.
Arguments out {A}.
Arguments ran_table {A}.
Arguments ran_busy {A}.
Arguments ran_log {A}.

Section Exec.
Context (sha256 : chars -> chars) (time : num) (token : string) (answers : call -> answer).

(** The clock stands still, tokens are [token] and calls answer [answers]. *)
Fixpoint exec {A} (p : prog A) (m : rows) (busy : gset string) : ran A :=
  match p with
  | Ret a => {| out := inl a; ran_table := m; ran_busy := busy; ran_log := [] |}
  | Fail c => {| out := inr c; ran_table := m; ran_busy := busy; ran_log := [] |}
  | Now k => exec (k time) m busy
  | Token k => exec (k token) m busy
  | Rows k => exec (k m) m busy
  | Store q k => exec (k (reply sha256 m q)) (after sha256 m q) busy
  | Call c k =>
      let r := exec (k (answers c)) m busy in
      {| out := out r; ran_table := ran_table r; ran_busy := ran_busy r;
         ran_log := Sent c :: Answered c (answers c) :: ran_log r |}
  | InFlight k => exec (k busy) m busy
  | SetInFlight f k => exec k m (f busy)
  end.

(** What a program ended as. *)
Definition ended {A} (r : ran A) : prog A := match out r with inl a => Ret a | inr c => Fail c end.
End Exec.
End Run.

Section Steps.
Import Relay Ledger Watcher System Run.
Context (sha256 : chars -> chars) (stellar base : Z) (leaseMs pollMaxAttempts pollIntervalMs : Z).
Context (time : num) (token : string) (answers : call -> answer).
Notation step := (step sha256 stellar base leaseMs pollMaxAttempts pollIntervalMs).
Notation reachable := (reachable sha256 stellar base leaseMs pollMaxAttempts pollIntervalMs).
Notation exec := (exec sha256 time token answers).

Definition at_thread (w : world) (p t : nat) (prg : prog unit) (m : rows) (busy : gset string)
    (l : list event) : Prop :=
  inFlight w !! p = Some busy /\ (exists g, threads w !! (p, t) = Some (Running prg, g))
  /\ table w = m /\ log w = l.

Lemma run_one w p t prg m busy l m' busy' prg' g' evs :
  at_thread w p t prg m busy l -> op sha256 m busy prg m' busy' (Running prg', g') evs ->
  exists w', step w w' /\ at_thread w' p t prg' m' busy' (l ++ evs).
Proof.
  intros (Hb & (g & Ht) & <- & <-) Hop. eexists. split; [by eapply step_run|].
  split_and!; cbn; try done; [by rewrite lookup_insert_eq|]. exists g'. by rewrite lookup_insert_eq.
Qed.

(** A run is an interleaving. *)
Lemma exec_steps prg w p t m busy l :
  at_thread w p t prg m busy l ->
  exists w', rtc step w w' /\ let r := exec prg m busy in
    at_thread w' p t (ended r) (ran_table r) (ran_busy r) (l ++ ran_log r).
Proof.
  revert w m busy l. induction prg as [a|c|k IH|k IH|k IH|q k IH|c k IH|k IH|f k IH]; intros w m busy l H; cbn.
  - exists w. rewrite app_nil_r. split; [apply rtc_refl|done].
  - exists w. rewrite app_nil_r. split; [apply rtc_refl|done].
  - destruct (run_one _ _ _ _ _ _ _ _ _ _ _ _ H (op_now _ _ _ k time)) as (w1 & Hs & H1).
    rewrite app_nil_r in H1. destruct (IH _ _ _ _ _ H1) as (w2 & Hr & H2). eauto using rtc_l.
  - destruct (run_one _ _ _ _ _ _ _ _ _ _ _ _ H (op_token _ _ _ k token)) as (w1 & Hs & H1).
    rewrite app_nil_r in H1. destruct (IH _ _ _ _ _ H1) as (w2 & Hr & H2). eauto using rtc_l.
  - destruct (run_one _ _ _ _ _ _ _ _ _ _ _ _ H (op_rows _ _ _ k)) as (w1 & Hs & H1).
    rewrite app_nil_r in H1. destruct (IH _ _ _ _ _ H1) as (w2 & Hr & H2). eauto using rtc_l.
  - destruct (run_one _ _ _ _ _ _ _ _ _ _ _ _ H (op_store _ _ _ q k)) as (w1 & Hs & H1).
    rewrite app_nil_r in H1. destruct (IH _ _ _ _ _ H1) as (w2 & Hr & H2). eauto using rtc_l.
  - destruct H as (Hb & (g & Ht) & <- & <-).
    assert (exists w1, rtc step w w1 /\ at_thread w1 p t (k (answers c)) (table w) busy
              (log w ++ [Sent c; Answered c (answers c)])) as (w1 & Hs & H1).
    { eexists. split.
      - eapply rtc_l; [eapply step_run; [done|done|apply op_call]|].
        eapply rtc_l; [|apply rtc_refl]. eapply step_answer. cbn. by rewrite lookup_insert_eq.
      - split_and!; cbn; [by rewrite lookup_insert_eq| |done|by rewrite <- app_assoc].
        exists None. by rewrite lookup_insert_eq. }
    destruct (IH _ _ _ _ _ H1) as (w2 & Hr & H2). exists w2. split; [by etransitivity|].
    cbn in H2. rewrite <- app_assoc in H2. exact H2.
  - destruct (run_one _ _ _ _ _ _ _ _ _ _ _ _ H (op_in_flight _ _ _ k)) as (w1 & Hs & H1).
    rewrite app_nil_r in H1. destruct (IH _ _ _ _ _ H1) as (w2 & Hr & H2). eauto using rtc_l.
  - destruct (run_one _ _ _ _ _ _ _ _ _ _ _ _ H (op_set_in_flight _ _ _ f k)) as (w1 & Hs & H1).
    rewrite app_nil_r in H1. destruct (IH _ _ _ _ H1) as (w2 & Hr & H2). eauto using rtc_l.
Qed.

(** The run of an entry in a fresh process leads from the initial world. *)
Lemma exec_reachable prg :
  entry stellar base leaseMs pollMaxAttempts pollIntervalMs prg ->
  exists w, reachable w /\ let r := exec prg ∅ ∅ in table w = ran_table r /\ log w = ran_log r.
Proof.
  intros He.
  set (w1 := {| table := ∅; inFlight := <[0%nat := ∅]> ∅;
    threads := <[(0%nat, 0%nat) := (Running prg, None)]> ∅;
                log := [] |}).
  assert (rtc step initial w1) as H1.
  { set (w0 := {| table := ∅; inFlight := <[0%nat := ∅]> ∅; threads := ∅; log := [] |}).
    eapply (rtc_l _ _ w0); [by apply (step_boot _ _ _ _ _ _ initial 0%nat)|].
    eapply rtc_l; [|apply rtc_refl].
    apply (step_start _ _ _ _ _ _ w0 0%nat 0%nat prg ∅); [by apply lookup_insert_eq|done|done]. }
  assert (at_thread w1 0 0 prg ∅ ∅ []) as Hat.
  { split_and!; try done. exists None. apply lookup_insert_eq. }
  destruct (exec_steps prg w1 0 0 ∅ ∅ [] Hat) as (w & Hr & (_ & _ & Ht & Hl)).
  exists w. split; [unfold System.reachable; by etransitivity|]. done.
Qed.
End Steps.

(** ** A drive that mints *)
Section Delivery.
Import Relay Ledger Watcher System Run.
Local Open Scope string_scope.
Context (sha256 : chars -> chars) (stellar leaseMs pollMaxAttempts pollIntervalMs : Z).
Context (now : Z) (token : string) (answers : call -> answer).
Notation exec := (exec sha256 (Num now) token answers).
Notation lease := (effectiveLeaseMs leaseMs pollMaxAttempts pollIntervalMs).

Lemma exec_bind {A B} (p : prog A) (f : A -> prog B) m busy :
  exec (a ← p; f a) m busy =
  let r := exec p m busy in
  match out r with
  | inl a =>
      let r' := exec (f a) (ran_table r) (ran_busy r) in
      {| out := out r'; ran_table := ran_table r'; ran_busy := ran_busy r';
         ran_log := ran_log r ++ ran_log r' |}
  | inr c => {| out := inr c; ran_table := ran_table r; ran_busy := ran_busy r; ran_log := ran_log r |}
  end.
Proof.
  change (a ← p; f a) with (andThen p f). revert m busy.
  induction p as [a|c|k IH|k IH|k IH|q k IH|c k IH|k IH|g k IH]; intros m busy; cbn; try done; try apply IH.
  - by destruct (exec (f a) m busy).
  - rewrite IH. cbn. by destruct (exec (k (answers c)) m busy) as [[] ? ? ?].
Qed.

Lemma exec_catch {A} (p : prog A) h m busy :
  exec (catch p h) m busy =
  let r := exec p m busy in
  match out r with
  | inl a => r
  | inr c =>
      let r' := exec (h c) (ran_table r) (ran_busy r) in
      {| out := out r'; ran_table := ran_table r'; ran_busy := ran_busy r';
         ran_log := ran_log r ++ ran_log r' |}
  end.
Proof.
  revert m busy.
  induction p as [a|c|k IH|k IH|k IH|q k IH|c k IH|k IH|g k IH]; intros m busy; cbn; try done; try apply IH.
  - by destruct (exec (h c) m busy).
  - rewrite IH. cbn. by destruct (exec (k (answers c)) m busy) as [[] ? ? ?].
Qed.

(** A run that returned [a] and left the table [m'], logging [l]. *)
Definition returns {A} (p : prog A) (m : rows) (a : A) (m' : rows) (l : list event) : Prop :=
  forall busy, exec p m busy = {| out := inl a; ran_table := m'; ran_busy := busy; ran_log := l |}.

Lemma returns_ret {A} (a : A) m : returns (Ret a) m a m [].
Proof. by intros busy. Qed.

Lemma returns_bind {A B} (p : prog A) (f : A -> prog B) m1 a m2 l b m3 l' :
  returns p m1 a m2 l -> returns (f a) m2 b m3 l' -> returns (a ← p; f a) m1 b m3 (l ++ l').
Proof. intros Hp Hf busy. rewrite exec_bind, Hp. cbn. by rewrite Hf. Qed.

Lemma returns_catch {A} (p : prog A) h m a m' l : returns p m a m' l -> returns (catch p h) m a m' l.
Proof. intros Hp busy. rewrite exec_catch, Hp. done. Qed.

Lemma returns_attempt {A} (p : prog A) m a m' l : returns p m a m' l -> returns (attempt p) m (inl a) m' l.
Proof.
  intros Hp. apply returns_catch. rewrite <- (app_nil_r l). eapply returns_bind; [done|apply returns_ret].
Qed.

Lemma returns_clock m : returns clock m (Num now) m [].
Proof. by intros busy. Qed.
Lemma returns_token m : returns newToken m token m [].
Proof. by intros busy. Qed.
Lemma returns_get id m : returns (get id) m (m !! id) m [].
Proof. by intros busy. Qed.

Lemma returns_ask c v m : answers c = Returned v -> returns (ask c) m v m [Sent c; Answered c (Returned v)].
Proof. intros H busy. cbn. by rewrite H. Qed.

Lemma returns_store_opt q m l m' : perform sha256 m q = Ok (l, m') -> returns (store_opt q) m (head l) m' [].
Proof. intros H busy. unfold reply, after. cbn. unfold reply, after. by rewrite H. Qed.

Lemma returns_store q m r l m' : perform sha256 m q = Ok (r :: l, m') -> returns (store q) m r m' [].
Proof.
  intros H. rewrite <- (app_nil_r []). eapply returns_bind; [by apply returns_store_opt|apply returns_ret].
Qed.

(** *** What the answers must be *)
Lemma matched_even_hex v e m :
  MessageV2.assertCctpV2BurnMatches v e = Ok m ->
  (exists h, even_hex_value v = Ok h) /\ base_hash (text (MessageV2.nonce m)) = Ok (MessageV2.nonce m).
Proof.
  intros [Hp _]%assert_agrees. destruct v as [| | | | | |s| |]; try discriminate Hp.
  cbn [MessageV2.parseCctpV2Message] in Hp. apply wire_form in Hp as (W & hex & E & Hh). split.
  - unfold even_hex_value, string_matches, test, EVEN_HEX_RE. cbn [is_string coerce]. rewrite E.
    rewrite (proj2 (Hex.after_0x_Some _ _)) by done.
    assert (length hex = (2 * length (wire_bytes m))%nat) as Hl.
    { rewrite <- Hex.to_hex_length, <- Hh. unfold toLowerCase. by rewrite length_fmap. }
    rewrite encode_length in Hl by done. destruct hex as [|c hex]; [cbn in Hl; lia|].
    unfold even_hex. rewrite Hl, Nat.even_mul.
    assert (forallb (fun c => is_lower_hex (lower c)) (c :: hex) = true) as ->; [|cbn; eauto].
    rewrite <- Hex.forallb_lower, Hh. apply Hex.to_hex_digits.
  - destruct (wf_nonce _ W) as [En Hlen]. unfold base_hash. cbn [text]. rewrite chars_of_string_of.
    rewrite En. rewrite (proj2 (Hex.after_0x_Some _ _)) by done.
    assert (HEX64_CI_RE (Hex.to_hex (raw (MessageV2.nonce m))) = true) as ->.
    { unfold HEX64_CI_RE, is_hex_ci. fold (toLowerCase (Hex.to_hex (raw (MessageV2.nonce m)))).
      rewrite Hex.to_hex_lower. unfold is_hex. rewrite Hex.to_hex_length, Hlen, Hex.to_hex_digits. done. }
    unfold toLowerCase. rewrite fmap_app. f_equal. f_equal. apply Hex.to_hex_lower.
Qed.

Lemma assertLease_held r :
  token <> EmptyString -> leaseToken r = Some token -> leaseExpiresAt r = Some (now + lease) ->
  isSafeInteger (Num (now + lease)) = true -> 0 < lease -> assertLease (Some r) token now = Ok r.
Proof.
  intros Ht Hl He Hs Hp. unfold assertLease. rewrite Hl, He, Hs.
  rewrite bool_decide_eq_false_2, bool_decide_eq_true_2 by done. cbn [orb negb].
  destruct (Z.leb_spec (now + lease) now); [lia|done].
Qed.

Lemma record_mint_hash_idem r v h : record_mint_hash r v = Ok h -> record_mint_hash r (text h) = Ok h.
Proof.
  unfold record_mint_hash. destruct (sourceDomain (ident r)) as [d|]; [|done].
  intros H. apply bind_Ok in H as (s & Hs & H). rewrite Hs. cbn. by eapply normalizeMintTxHash_idem.
Qed.

(** *** The drive of one record *)
Section OneRecord.
Context (m : rows) (id : string) (r : relay) (v : val) (parsed : MessageV2.message).
Context (msg att : chars) (hv : val) (hash : chars) (cv : val).
Let e := or_null Datatypes.id (expectation (ident r)).
Context (Hr : m !! id = Some r) (Hs : status r = attestation_pending) (Hl : leaseToken r = None).
Context (Htok : token <> EmptyString) (Hnow : isSafeInteger (Num now) = true).
Context (Hlease : isSafeInteger (Num lease) = true) (Hend : isSafeInteger (Num (now + lease)) = true).
Context (Hpos : 0 < lease).
Context (Hpoll : answers (Poll (sourceDomain (ident r)) (burnTxHash (ident r)) e) = Returned v).
Context (Hmatch : MessageV2.assertCctpV2BurnMatches v#"message" e = Ok parsed).
Context (Hmsg : even_hex_value v#"message" = Ok msg).
Context (Hnonce : base_hash (text (MessageV2.nonce parsed)) = Ok (MessageV2.nonce parsed)).
Context (Hatt : even_hex_value v#"attestation" = Ok att).
Context (Hsub : forall msg a, answers (Submit id (isForward stellar r) msg a) = Returned hv).
Context (Hhash : record_mint_hash r hv = Ok hash).
Context (Hconf : answers (Confirm (isForward stellar r) (Some hash)) = Returned cv).

(** The record after each checkpoint. *)
Definition claimed_record : relay := set_lease (count_attempt r) (Some token) (Some (now + lease)) now.
Definition found_evidence : evidence := {|
  messageHex := Some msg; nonceHex := Some (MessageV2.nonce parsed);
  messageDigest := Some (sha256Bytes sha256 (drop 2 msg)); attestationHex := Some att;
  attestationDigest := Some (sha256Bytes sha256 (drop 2 att)) |}.
Definition attested_record : relay := set_evidence claimed_record attested found_evidence 1 now.
Definition fenced_record : relay := set_status attested_record mint_submitting now.
Definition submitted_record : relay := set_mint fenced_record mint_submitted (Some hash) now.
Definition minted_record : relay := set_final submitted_record minted (Some hash) (reasonCode r) now.

Lemma now_ok : requireNow (Num now) = Ok now.
Proof. unfold requireNow. by rewrite Hnow. Qed.

Lemma lease_ok ri :
  leaseToken ri = Some token -> leaseExpiresAt ri = Some (now + lease) ->
  assertLease (Some ri) token now = Ok ri.
Proof. intros. by apply assertLease_held. Qed.

Lemma claim_ok :
  perform sha256 m (Claim id (Num now) (Num lease) token) = Ok ([claimed_record], <[id := claimed_record]> m).
Proof.
  cbn [perform]. unfold claim, relayClaim, requireLeaseArgs. rewrite Hr, now_ok, Hlease.
  cbn [mbind result_bind]. destruct (Z.ltb_spec 0 lease); [|lia].
  cbn [andb mbind result_bind]. by rewrite Hs, Hl.
Qed.

Lemma record_ok mi :
  mi !! id = Some claimed_record ->
  perform sha256 mi (RecordAttested id token v#"message" (text (MessageV2.nonce parsed)) v#"attestation" (Num now))
  = Ok ([attested_record], <[id := attested_record]> mi).
Proof.
  intros Hi. cbn [perform]. unfold recordAttested, relayRecordAttested, normalizeEvidence.
  rewrite Hi, now_ok, Hmsg, Hnonce, Hatt. cbn [mbind result_bind].
  rewrite lease_ok by done. cbn [mbind result_bind].
  rewrite decide_True by (cbn; by rewrite Hs). reflexivity.
Qed.

Lemma fence_ok mi :
  mi !! id = Some attested_record ->
  perform sha256 mi (MarkMintSubmitting id token (Num now)) = Ok ([fenced_record], <[id := fenced_record]> mi).
Proof.
  intros Hi. cbn [perform]. unfold markMintSubmitting, relayMarkMintSubmitting, put.
  rewrite Hi, now_ok. cbn [mbind result_bind]. by rewrite lease_ok by done.
Qed.

Lemma submitted_ok mi :
  mi !! id = Some fenced_record ->
  perform sha256 mi (MarkMintSubmitted id token hv (Num now)) = Ok ([submitted_record], <[id := submitted_record]> mi).
Proof.
  intros Hi. cbn [perform]. unfold markMintSubmitted, relayMarkMintSubmitted, put.
  rewrite Hi, now_ok. cbn [mbind result_bind].
  change (record_mint_hash fenced_record hv) with (record_mint_hash r hv).
  rewrite Hhash. cbn [mbind result_bind]. by rewrite lease_ok by done.
Qed.

Lemma finish_ok mi :
  mi !! id = Some submitted_record ->
  perform sha256 mi (FinishMinted id token (text hash) (Num now)) = Ok ([minted_record], <[id := minted_record]> mi).
Proof.
  intros Hi. cbn [perform]. unfold finishMinted, relayFinishMinted, put.
  rewrite Hi, now_ok. cbn [mbind result_bind]. rewrite lease_ok by done. cbn [mbind result_bind].
  change (record_mint_hash submitted_record (text hash)) with (record_mint_hash r (text hash)).
  rewrite (record_mint_hash_idem _ _ _ Hhash). cbn [mbind result_bind].
  rewrite !bool_decide_eq_true_2 by done. reflexivity.
Qed.

Lemma poll_runs mi :
  mi !! id = Some claimed_record ->
  exists l, returns (pollPhase r claimed_record id token) mi (inr attested_record)
              (<[id := attested_record]> mi) l.
Proof.
  intros Hi. eexists. unfold pollPhase. eapply returns_bind.
  { apply returns_attempt. eapply returns_bind; [by apply returns_ask|].
    fold e. rewrite Hmatch. eapply returns_bind; apply returns_ret. }
  cbv beta iota. eapply returns_bind.
  { apply returns_attempt. eapply returns_bind; [apply returns_clock|].
    eapply returns_store. by apply record_ok. }
  apply returns_ret.
Qed.

Lemma submit_runs mi :
  mi !! id = Some attested_record ->
  exists m' l, returns (submitPhase stellar r attested_record id token) mi (inr submitted_record) m' l
    /\ m' !! id = Some submitted_record.
Proof.
  intros Hi. do 2 eexists. split.
  - unfold submitPhase. eapply returns_bind; [apply returns_clock|].
    eapply returns_bind; [eapply returns_store; by apply fence_ok|].
    eapply returns_bind; [apply returns_attempt, returns_ask; by apply Hsub|]. cbv beta iota.
    eapply returns_bind.
    { apply returns_attempt. eapply returns_bind; [apply returns_clock|].
      eapply returns_store. apply submitted_ok. apply lookup_insert_eq. }
    apply returns_ret.
  - apply lookup_insert_eq.
Qed.

Lemma confirm_runs mi :
  mi !! id = Some submitted_record ->
  exists l, returns (confirmPhase stellar r submitted_record id token) mi (now_minted (Some hash))
              (<[id := minted_record]> mi) l.
Proof.
  intros Hi. eexists. unfold confirmPhase.
  eapply returns_bind; [apply returns_attempt, returns_ask; exact Hconf|]. cbv beta iota.
  eapply returns_bind.
  { apply returns_attempt. eapply returns_bind; [apply returns_clock|].
    eapply returns_store. by apply finish_ok. }
  apply returns_ret.
Qed.

Lemma drive_runs :
  exists m' l, returns (drive stellar leaseMs pollMaxAttempts pollIntervalMs id) m (now_minted (Some hash)) m' l
    /\ m' !! id = Some minted_record.
Proof.
  destruct (poll_runs (<[id := claimed_record]> m)) as [l1 H1]; [apply lookup_insert_eq|].
  destruct (submit_runs (<[id := attested_record]> (<[id := claimed_record]> m))) as (m2 & l2 & H2 & Hm2);
    [apply lookup_insert_eq|].
  destruct (confirm_runs m2 Hm2) as [l3 H3].
  do 2 eexists. split.
  - unfold drive. eapply returns_bind; [apply returns_get|]. rewrite Hr.
    assert (terminalResult r = None) as -> by (unfold terminalResult; by rewrite Hs).
    eapply returns_bind; [apply returns_clock|]. eapply returns_bind; [apply returns_token|].
    eapply returns_bind; [apply returns_store_opt, claim_ok|]. cbn [head].
    apply returns_catch. unfold phases. eapply returns_bind.
    { rewrite decide_True by (left; exact Hs). exact H1. }
    cbv beta iota. eapply returns_bind.
    { rewrite decide_True by done. exact H2. }
    cbv beta iota. exact H3.
  - apply lookup_insert_eq.
Qed.
End OneRecord.

End Delivery.

(** ** A concrete relay *)
Module WatcherSample.
Import Relay Ledger Watcher System Run.
Local Open Scope string_scope.

Definition evidence : val :=
  Obj [("message", Str BurnSample.RAW_BURN); ("attestation", Str "0xCD")].
Definition mint_hash : val := Str (RelaySample.bytes32 "8").
Definition answers (c : call) : answer :=
  match c with
  | Poll _ _ _ => Returned evidence
  | Submit _ _ _ _ => Returned mint_hash
  | Confirm _ _ => Returned Null
  end.

Definition mint : prog unit :=
  _ ← relayMint 27 60000 300 5000 (number 27) (Str (RelaySample.hex64 "a")) "e" RelaySample.expectation;
  Ret tt.
Definition result : ran unit := exec RelaySample.sha (Num 1) "t" answers mint ∅ ∅.
End WatcherSample.

Section WatcherWitnesses.
Import Relay Ledger Watcher System Run.
Local Open Scope string_scope.
Notation reachable := (reachable RelaySample.sha 27 6 60000 300 5000).

Lemma sample_reachable :
  exists w, reachable w /\ table w = ran_table WatcherSample.result /\ log w = ran_log WatcherSample.result.
Proof.
  destruct (exec_reachable RelaySample.sha 27 6 60000 300 5000 (Num 1) "t" WatcherSample.answers WatcherSample.mint)
    as (w & Hw & Ht & Hl); [apply entry_relayMint|]. eauto.
Qed.

Lemma sample_log :
  submissions (ran_log WatcherSample.result) "e" = 1%nat
  /\ exists m a, nth_error (ran_log WatcherSample.result) 2 = Some (Sent (Submit "e" true m a)).
Proof. split; [vm_compute; reflexivity|]. do 2 eexists. vm_compute. reflexivity. Qed.

Lemma sample_table :
  option_map status (ran_table WatcherSample.result !! "e") = Some minted.
Proof. vm_compute. reflexivity. Qed.

Lemma submitted_at_most_once_witness :
  exists w, reachable w /\ submissions (log w) "e" = 1%nat /\ crossed (table w) "e".
Proof.
  destruct sample_reachable as (w & Hw & Ht & Hl). exists w. split; [exact Hw|].
  assert (submissions (log w) "e" = 1%nat) as H1 by (rewrite Hl; apply sample_log).
  split; [exact H1|]. by apply (submitted_at_most_once _ _ _ _ _ _ w "e" Hw).
Defined.

Lemma submitted_message_expected_witness :
  exists w r m, reachable w /\ table w !! "e" = Some r /\ message_matches m (ident r).
Proof.
  destruct sample_reachable as (w & Hw & Ht & Hl). destruct (proj2 sample_log) as (m & a & Hin).
  destruct (submitted_message_expected RelaySample.sha 27 6 60000 300 5000 w "e" true m a Hw) as (r & Hr & Hm & _).
  - rewrite Hl. apply list_elem_of_In. eapply nth_error_In. exact Hin.
  - exists w, r, m. exact (conj Hw (conj Hr Hm)).
Defined.

Lemma minted_is_confirmed_witness :
  exists w f t v, reachable w /\ Answered (Confirm f (Some t)) (Returned v) ∈ log w.
Proof.
  destruct sample_reachable as (w & Hw & Ht & Hl). pose proof sample_table as Hs. rewrite <- Ht in Hs.
  destruct (table w !! "e") as [r|] eqn:Hr; [|discriminate Hs]. injection Hs as Hs.
  destruct (minted_is_confirmed RelaySample.sha 27 6 60000 300 5000 w "e" r Hw Hr Hs) as (f & t & v & Hin & _).
  exists w, f, t, v. exact (conj Hw Hin).
Defined.

End WatcherWitnesses.
