(* ===== verification/TransferJournal.v ===== *)
(** * The transfer journal

    Models [frontend/src/cctp/transferJournal.js]: the durable records of cross-chain
    transfers kept in the browser's storage, one per owner and request, that fence the
    irreversible actions of a transfer.  The storage is the browser's: its operations are a
    class with the laws the module relies on, and a map is an instance. *)
From stdpp Require Import sorting.
From S2P Require Export Json.

(** ** Web storage *)

(** [getItem], [setItem] and [removeItem] may throw: [None], or [false] with the storage
    the call left behind. *)
Class Storage (S : Type) := {
  getItem : S -> chars -> option (option chars);
  setItem : S -> chars -> chars -> S * bool;
  removeItem : S -> chars -> S * bool;
  storage_keys : S -> list chars;
}.

(** A write that succeeds is read back, one that fails changes nothing, and other keys are
    not affected. *)
Class StorageLaws (S : Type) `{Storage S} := {
  get_set : forall s k v s', setItem s k v = (s', true) -> getItem s' k = Some (Some v);
  set_failed : forall s k v s' j, setItem s k v = (s', false) -> getItem s' j = getItem s j;
  get_set_other : forall s k v s' b j, setItem s k v = (s', b) -> j <> k -> getItem s' j = getItem s j;
  get_removed : forall s k s' j,
    removeItem s k = (s', true) -> getItem s' j = if decide (j = k) then Some None else getItem s j;
  remove_failed : forall s k s' j, removeItem s k = (s', false) -> getItem s' j = getItem s j;
}.

#[global] Instance map_storage : Storage (gmap (list ascii) (list ascii)) := {
  getItem s k := Some (s !! k);
  setItem s k v := (<[k := v]> s, true);
  removeItem s k := (delete k s, true);
  storage_keys s := (map_to_list s).*1;
}.

#[global] Instance map_storage_laws : StorageLaws (gmap (list ascii) (list ascii)).
Proof.
  split; cbn; intros; simplify_eq; try done.
  - by rewrite lookup_insert_eq.
  - by rewrite lookup_insert_ne.
  - case_decide; subst; [by rewrite lookup_delete_eq|by rewrite lookup_delete_ne].
Qed.

Module Journal.
Section Strings.
Local Open Scope string_scope.
Local Open Scope list_scope.

Definition PREFIX : chars := chars_of "vf.cctpTransfer.v1:".
Definition ID : chars -> bool := is_hex 32.
Definition HASH : chars -> bool := is_hex 64.
Definition EVM_HASH : chars -> bool := is_0x_hex 64.
Definition EVM : chars -> bool := is_0x_hex 40.
Definition STRKEY : chars -> bool := is_strkey.
Definition DECIMAL : chars -> bool := is_decimal.

Definition TERMINAL : list string := ["done"; "error"; "uncertain"; "blocked"].
Definition FORWARD : list string :=
  ["intent_creating"; "intent_acked"; "burn_submitting"; "burn_confirmed"; "attach_pending";
   "settling"].
Definition REVERSE : list string :=
  ["userop_submitting"; "userop_submitted"; "unwind_confirmed"; "relay_pending"; "settling"].
Definition REASONS : list string :=
  ["intent_unavailable"; "authorization_unavailable"; "burn_submission_unknown";
   "burn_checkpoint_failed"; "attach_unavailable"; "status_unavailable";
   "userop_submission_unknown"; "userop_checkpoint_failed"; "receipt_pending";
   "receipt_reverted"; "receipt_evidence_unverified"; "unwind_attach_unavailable"; "job_error";
   "job_uncertain"; "job_blocked"; "journal_invalid"; "journal_unavailable"].
Definition SENSITIVE : list string :=
  ["secret"; "privatekey"; "capability"; "bearer"; "authorization"; "cookie"; "wallet";
   "passkey"; "signedxdr"; "serializedapproval"; "approval"; "sessionmaterial";
   "bridgematerial"].

(** The codes of [fail]. *)
Inductive journal_error := journal_invalid | journal_unavailable | journal_conflict.

#[global] Instance journal_error_eq_dec : EqDecision journal_error.
Proof. solve_decision. Defined.

(** [own(v, keys)]: an object with exactly these keys. *)
Definition own (v : val) (ks : list string) : bool :=
  is_object v && (length (keys v) =? length ks)%nat
  && forallb (fun k => bool_decide (k ∈ ks)) (keys v).

(** Membership of a value in a set of strings. *)
Definition among (options : list string) (v : val) : bool :=
  match v with Str s => bool_decide (s ∈ options) | _ => false end.

Definition isSafeTime (v : val) : bool :=
  match v with Number (Num z) => isSafeInteger (Num z) && (0 <=? z)%Z | _ => false end.

Definition opaque (v : val) : bool :=
  match v with
  | Str s =>
      let l := chars_of s in
      negb (bool_decide (l = [])) && (length l <=? 200)%nat && forallb (in_range 33 126) l
      && negb (existsb (fun c => bool_decide (c ∈ chars_of "/?#&=")) l)
  | _ => false
  end.

Definition ownerKey (owner : val) : chars :=
  match owner with Str s => toLowerCase (chars_of s) | _ => [] end.

Definition validOwner (owner : val) : bool :=
  match owner with Str s => STRKEY (toUpperCase (chars_of s)) | _ => false end.

Definition keyFor (owner requestId : val) : chars :=
  PREFIX ++ ownerKey owner ++ chars_of ":" ++ coerce requestId.

(** [SENSITIVE.test(key.replace(/[^a-z0-9]/gi, ''))] *)
Definition sensitive (key : string) : bool :=
  let letters := filter (fun c => (is_digit c || in_range 97 122 c) = true)
                   (toLowerCase (chars_of key)) in
  existsb (fun w => includes (chars_of w) letters) SENSITIVE.

(** Whether [rejectUnsafe] passes. *)
Fixpoint safe (v : val) : bool :=
  match v with
  | Null | Str _ | Bool _ | Double _ => true
  | Number n => JsNum.isFinite n
  | Arr l => forallb safe l
  | Obj fs => forallb (fun f => negb (sensitive f.1) && safe f.2) fs
  | Undefined | BigInt _ => false
  end.

(** [BigInt(v)] of a value that passed [DECIMAL]. *)
Definition BigInt_of (v : val) : Z := of_digits (coerce v).

Definition validAmount (amount : val) : bool :=
  own amount ["token"; "units"; "decimals"]
  && strict_eq amount#"token" (Str "USDC")
  && test DECIMAL amount#"units" && (BigInt_of amount#"units" >? 0)%Z
  && strict_eq amount#"decimals" (Number (Num 6)).

(** [v === null || re.test(v)] *)
Definition null_or (re : chars -> bool) (v : val) : bool := strict_eq v Null || test re v.

(** One allocation of a forward transfer. [ids.add(...)] returns the set, which is truthy,
    so repeated ids pass. *)
Definition validAllocation (t a : val) : bool :=
  own a ["allocationId"; "executionId"; "poolAddress"; "amount"; "minShares"]
  && opaque a#"allocationId" && opaque a#"executionId"
  && bool_decide (coerce a#"executionId"
                  = coerce t#"runId" ++ chars_of ":exec:" ++ coerce a#"allocationId")
  && test EVM a#"poolAddress"
  && is_string a#"poolAddress"
  && bool_decide (coerce a#"poolAddress" = toLowerCase (coerce a#"poolAddress"))
  && validAmount a#"amount" && test DECIMAL a#"minShares".

Definition forward_fields : list string :=
  ["mandateId"; "kernelAddress"; "bindingId"; "bindingHash"; "bridgeAgent"; "runId";
   "grantTxHash"; "burnUnits7"; "allocations"; "jobId"; "burnTxHash"].

Definition allocations_of (t : val) : list val :=
  match t#"allocations" with Arr l => l | _ => [] end.

Definition allocated (t : val) : Z :=
  sumZ ((fun a => BigInt_of (a#"amount"#"units")) <$> allocations_of t).

Definition validForwardTransfer (t : val) : bool :=
  own t forward_fields
  && test ID t#"mandateId" && test EVM t#"kernelAddress" && opaque t#"bindingId"
  && test HASH t#"bindingHash" && test STRKEY t#"bridgeAgent" && opaque t#"runId"
  && test HASH t#"grantTxHash"
  && test DECIMAL t#"burnUnits7" && (BigInt_of t#"burnUnits7" >? 0)%Z
  && (BigInt_of t#"burnUnits7" `rem` 10 =? 0)%Z
  && is_array t#"allocations" && negb (bool_decide (allocations_of t = []))
  && null_or ID t#"jobId" && null_or HASH t#"burnTxHash"
  && forallb (validAllocation t) (allocations_of t)
  && (allocated t * 10 =? BigInt_of t#"burnUnits7")%Z
  && (strict_eq t#"burnTxHash" Null || negb (strict_eq t#"jobId" Null)).

Definition validReverseTransfer (t requestId : val) : bool :=
  own t ["jobId"; "kernelAddress"; "recipientHint"; "userOpHash"; "unwindTxHash"]
  && strict_eq t#"jobId" requestId
  && test ID t#"jobId" && test EVM t#"kernelAddress" && test STRKEY t#"recipientHint"
  && null_or EVM_HASH t#"userOpHash" && null_or EVM_HASH t#"unwindTxHash"
  && (strict_eq t#"unwindTxHash" Null || negb (strict_eq t#"userOpHash" Null)).

Definition hasEvidence (record : val) : bool :=
  let t := record#"transfer" in
  let state := record#"state" in
  if strict_eq record#"direction" (Str "forward") then
    negb (among ["intent_acked"; "burn_submitting"; "burn_confirmed"; "attach_pending";
                 "settling"] state && negb (truthy t#"jobId"))
    && negb (among ["burn_confirmed"; "attach_pending"; "settling"] state
             && negb (truthy t#"burnTxHash"))
  else
    negb (among ["userop_submitted"; "unwind_confirmed"; "relay_pending"; "settling"] state
          && negb (truthy t#"userOpHash"))
    && negb (among ["unwind_confirmed"; "relay_pending"; "settling"] state
             && negb (truthy t#"unwindTxHash")).

Definition record_fields : list string :=
  ["version"; "direction"; "owner"; "requestId"; "state"; "createdAtMs"; "updatedAtMs";
   "reasonCode"; "terminalFrom"; "transfer"].

Definition states_of (record : val) : list string :=
  if strict_eq record#"direction" (Str "forward") then FORWARD else REVERSE.

Definition time_of (v : val) : Z := match v with Number (Num z) => z | _ => 0%Z end.

(** The condition on the state, its reason and the state it was reached from. *)
Definition valid_state (record : val) : bool :=
  let states := states_of record in
  let terminal := among TERMINAL record#"state" in
  (among states record#"state" || terminal)
  && (if terminal
      then among REASONS record#"reasonCode" && among states record#"terminalFrom"
      else strict_eq record#"reasonCode" Null && strict_eq record#"terminalFrom" Null).

Definition validate (record : val) : bool :=
  safe record
  && own record record_fields
  && strict_eq record#"version" (Number (Num 1))
  && among ["forward"; "reverse"] record#"direction"
  && test STRKEY record#"owner" && test ID record#"requestId"
  && isSafeTime record#"createdAtMs" && isSafeTime record#"updatedAtMs"
  && (time_of record#"createdAtMs" <=? time_of record#"updatedAtMs")%Z
  && valid_state record
  && (if strict_eq record#"direction" (Str "forward")
      then validForwardTransfer record#"transfer"
      else validReverseTransfer record#"transfer" record#"requestId")
  && hasEvidence record.

(** [JSON.stringify] of a record, and [clone]. *)
Definition body_of (record : val) : chars :=
  match JSON.stringify record with Ok (Some t) => t | _ => [] end.

Definition clone (record : val) : val :=
  match JSON.parse (body_of record) with Ok v => v | Throw _ => Undefined end.

(** ** The transition *)
Fixpoint index_of (l : list string) (v : val) : Z :=
  match l with
  | [] => -1
  | x :: l =>
      if strict_eq (Str x) v then 0
      else let i := index_of l v in if (i =? -1)%Z then (-1)%Z else (i + 1)%Z
  end.

(** [Math.max(a, now)] for a time [a]. *)
Definition max_time (a : val) (now : num) : val :=
  match a, now with
  | Number (Num x), Num y => Number (Num (Z.max x y))
  | Number (Num x), NegInf => Number (Num x)
  | Number (Num x), PosInf => Number PosInf
  | _, _ => Number NaN
  end.

Definition patchable (current : val) : list string :=
  if strict_eq current#"direction" (Str "forward")
  then ["jobId"; "burnTxHash"] else ["userOpHash"; "unwindTxHash"].

(** [Object.entries(patch)] without the reason. *)
Definition transfer_patch (patch : list (string * val)) : list (string * val) :=
  filter (fun f => f.1 <> "reasonCode") patch.

(** [Object.assign(target, patch)] *)
Definition assign (target : val) (patch : list (string * val)) : val :=
  Obj (foldl (fun fs f => set_property fs f.1 f.2) (entries target) patch).

Definition set_field (record : val) (k : string) (v : val) : val :=
  Obj (set_property (entries record) k v).

(** Replaying a transition that already happened. *)
Definition replayed (current : val) (patch : list (string * val)) : bool :=
  forallb (fun f =>
    if decide (f.1 = "reasonCode") then strict_eq current#"reasonCode" f.2
    else strict_eq (get current#"transfer" f.1) f.2) patch.

(** The record after the transition, before it is validated. *)
Definition next_record (current : val) (from to : val) (patch : list (string * val)) (now : num)
    : val :=
  let next := clone current in
  let next := set_field next "state" to in
  let next := set_field next "updatedAtMs" (max_time current#"updatedAtMs" now) in
  let next := set_field next "transfer" (assign next#"transfer" (transfer_patch patch)) in
  if among TERMINAL to
  then set_field (set_field next "reasonCode" (get (Obj patch) "reasonCode")) "terminalFrom" from
  else next.

(** What a checkpoint decides: answer with the current record, or write the next one. *)
Inductive decision := Answer (record : val) | Advance (next : val).

Definition decide_checkpoint (current from to : val) (patch : list (string * val)) (now : num)
    : result journal_error decision :=
  if negb (safe (Obj patch)) then Throw journal_invalid
  else if strict_eq current#"state" to && negb (strict_eq from to) then
    if replayed current patch then Ok (Answer (clone current)) else Throw journal_conflict
  else if negb (strict_eq current#"state" from) then Throw journal_conflict
  else if strict_eq from to && bool_decide (patch = []) then Ok (Answer (clone current))
  else
    let states := states_of current in
    let terminal := among TERMINAL to in
    if (negb terminal && negb (index_of states to =? index_of states from + 1)%Z)
       || (terminal && negb (among states from))
    then Throw journal_conflict
    else if negb (own (Obj patch)
                    (if terminal then ["reasonCode"]
                     else filter (fun k => has_own (Obj patch) k = true) (patchable current)))
    then Throw journal_invalid
    else if existsb (fun f => negb (strict_eq (get current#"transfer" f.1) Null)
                              && negb (strict_eq (get current#"transfer" f.1) f.2))
              (transfer_patch patch)
    then Throw journal_conflict
    else
      let next := next_record current from to patch now in
      if validate next then Ok (Advance next) else Throw journal_conflict.

(** ** Operations on the storage *)
Section Operations.
Context {S : Type} `{Storage S}.

Definition write (s : S) (key : chars) (record : val) : S * result journal_error val :=
  let body := body_of record in
  match setItem s key body with
  | (s, false) => (s, Throw journal_unavailable)
  | (s, true) =>
      match getItem s key with
      | Some (Some read) =>
          if bool_decide (read = body)
             && match JSON.parse read with Ok v => validate v | Throw _ => false end
          then (s, Ok (clone record))
          else (s, Throw journal_unavailable)
      | _ => (s, Throw journal_unavailable)
      end
  end.

(** [selected.removeItem(key)] of a record that does not validate, a failure ignored. *)
Definition discard (quarantine : bool) (s : S) (key : chars) : S :=
  if quarantine then (removeItem s key).1 else s.

(** The record stored for this identity. *)
Definition rawRead (quarantine : bool) (s : S) (owner requestId : val)
    : S * result journal_error (option val) :=
  if negb (validOwner owner) || negb (test ID requestId) then (s, Ok None)
  else
    let key := keyFor owner requestId in
    match getItem s key with
    | None => (s, Throw journal_unavailable)
    | Some None => (s, Ok None)
    | Some (Some raw) =>
        match JSON.parse raw with
        | Ok record =>
            if validate record && bool_decide (ownerKey record#"owner" = ownerKey owner)
               && strict_eq record#"requestId" requestId
            then (s, Ok (Some record))
            else (discard quarantine s key, Ok None)
        | Throw _ => (discard quarantine s key, Ok None)
        end
    end.

Definition createCctpTransfer (s : S) (record : val) : S * result journal_error val :=
  if negb (validate record) then (s, Throw journal_invalid)
  else
    match rawRead true s record#"owner" record#"requestId" with
    | (s, Throw e) => (s, Throw e)
    | (s, Ok (Some existing)) =>
        if bool_decide (body_of existing = body_of record) then (s, Ok (clone existing))
        else (s, Throw journal_conflict)
    | (s, Ok None) =>
        write s (keyFor record#"owner" record#"requestId") (clone record)
    end.

Definition readCctpTransfer (quarantine : bool) (s : S) (owner requestId : val)
    : S * result journal_error (option val) :=
  match rawRead quarantine s owner requestId with
  | (s, Ok (Some record)) => (s, Ok (Some (clone record)))
  | r => r
  end.

Definition checkpointCctpTransfer (s : S) (owner requestId from to : val)
    (patch : list (string * val)) (now : num) : S * result journal_error val :=
  match rawRead true s owner requestId with
  | (s, Throw e) => (s, Throw e)
  | (s, Ok None) => (s, Throw journal_conflict)
  | (s, Ok (Some current)) =>
      match decide_checkpoint current from to patch now with
      | Throw e => (s, Throw e)
      | Ok (Answer record) => (s, Ok record)
      | Ok (Advance next) => write s (keyFor owner requestId) next
      end
  end.

(** The records found under the owner's prefix, in key order. *)
Fixpoint found (s : S) (owner : val) (prefix : chars) (ks : list chars)
    : S * result journal_error (list val) :=
  match ks with
  | [] => (s, Ok [])
  | key :: ks =>
      if startsWith prefix key then
        match rawRead true s owner (Str (string_of (drop (length prefix) key))) with
        | (s, Throw e) => (s, Throw e)
        | (s, Ok r) =>
            match found s owner prefix ks with
            | (s, Throw e) => (s, Throw e)
            | (s, Ok rs) => (s, Ok (option_list r ++ rs))
            end
        end
      else found s owner prefix ks
  end.

(** By creation time, then by request id. *)
Definition before_in_list (a b : val) : Prop :=
  time_of a#"createdAtMs" < time_of b#"createdAtMs"
  \/ (time_of a#"createdAtMs" = time_of b#"createdAtMs"
      /\ String.le (string_of (coerce a#"requestId")) (string_of (coerce b#"requestId"))).

#[global] Instance before_in_list_dec : RelDecision before_in_list.
Proof. unfold before_in_list. intros a b. apply _. Defined.

Definition listCctpTransfers (s : S) (owner : val) (limit : val)
    : S * result journal_error (list val) :=
  if negb (validOwner owner) || negb (isSafeTime limit) then (s, Throw journal_invalid)
  else
    let prefix := PREFIX ++ ownerKey owner ++ chars_of ":" in
    match found s owner prefix (storage_keys s) with
    | (s, Throw e) => (s, Throw e)
    | (s, Ok rs) =>
        (s, Ok (clone <$> take (Z.to_nat (time_of limit)) (merge_sort before_in_list rs)))
    end.

Definition removeCctpTransfer (s : S) (owner requestId : val) : S * result journal_error unit :=
  if negb (validOwner owner) || negb (test ID requestId) then (s, Throw journal_invalid)
  else
    match removeItem s (keyFor owner requestId) with
    | (s, true) => (s, Ok tt)
    | (s, false) => (s, Throw journal_unavailable)
    end.
End Operations.
End Strings.
End Journal.

(** ** Lemmas *)
Section JournalLemmas.
Import Journal.
Local Open Scope string_scope.
Local Open Scope list_scope.

Lemma clone_wire v : wire v -> clone v = v.
Proof.
  intros Hv. unfold clone, body_of. rewrite stringify_wire by done. by rewrite parse_print.
Qed.

(** What [validate] gives. *)
Lemma transfer_validate_inv r :
  validate r = true ->
  (exists fs, r = Obj fs)
  /\ among ["forward"; "reverse"] r#"direction" = true
  /\ test STRKEY r#"owner" = true /\ test ID r#"requestId" = true
  /\ (exists c u, r#"createdAtMs" = Number (Num c) /\ r#"updatedAtMs" = Number (Num u)
        /\ 0 <= c <= u /\ isSafeInteger (Num u) = true)
  /\ valid_state r = true
  /\ (if strict_eq r#"direction" (Str "forward") then validForwardTransfer r#"transfer"
      else validReverseTransfer r#"transfer" r#"requestId") = true
  /\ hasEvidence r = true.
Proof.
  unfold validate, own. rewrite !andb_true_iff.
  intros (((((((((((_ & ((Ho & _) & _)) & _) & Hd) & Hk) & Hi) & Hc) & Hu) & Hle) & Hs) & Ht) & He).
  split_and!; try done.
  - by apply is_object_inv.
  - destruct (r#"createdAtMs") as [| | |[c| | |]| | | | |]; try done.
    destruct (r#"updatedAtMs") as [| | |[u| | |]| | | | |]; try done.
    unfold isSafeTime in Hc, Hu. cbn [time_of] in Hle. zbool. exists c, u. split_and!; done || lia.
Qed.

Lemma among_Str o v : among o v = true <-> exists s, v = Str s /\ s ∈ o.
Proof.
  destruct v; cbn; try (split; [done|intros (? & ? & ?); done]).
  rewrite bool_decide_eq_true. naive_solver.
Qed.

Lemma index_of_bounds l v : -1 <= index_of l v < Z.of_nat (length l).
Proof.
  induction l as [|x l IH]; cbn [index_of length]; [lia|].
  destruct (strict_eq _ _); [lia|]. destruct (Z.eqb_spec (index_of l v) (-1)); lia.
Qed.

Lemma index_of_among l v : among l v = true <-> 0 <= index_of l v.
Proof.
  induction l as [|x l IH]; cbn [index_of].
  - split; [|lia]. intros (s & -> & []%not_elem_of_nil)%among_Str.
  - pose proof (index_of_bounds l v). destruct (strict_eq (Str x) v) eqn:E.
    + apply strict_eq_eq in E as <-. split; [lia|]. intros _. apply among_Str.
      exists x. split; [done|left].
    + rewrite among_Str. setoid_rewrite elem_of_cons. rewrite among_Str in IH.
      destruct (Z.eqb_spec (index_of l v) (-1)) as [Hm|Hm].
      * split; [|lia]. intros (s & -> & [->|Hin]).
        -- cbn in E. by rewrite bool_decide_eq_true_2 in E.
        -- assert (0 <= index_of l (Str s)) by (apply IH; eauto). lia.
      * split; [lia|]. intros _. destruct (proj2 IH) as (s & -> & Hin); [lia|]. eauto.
Qed.

(** The states of the two directions and the terminal states do not meet. *)
Lemma states_not_terminal r v : among (states_of r) v = true -> among TERMINAL v = false.
Proof.
  unfold states_of. intros (s & -> & Hs)%among_Str. cbn. apply bool_decide_eq_false_2.
  destruct (strict_eq _ _); intros Ht; repeat (apply elem_of_cons in Hs as [->|Hs]);
    try (by apply not_elem_of_nil in Hs);
    repeat (apply elem_of_cons in Ht as [[=]|Ht]); by apply not_elem_of_nil in Ht.
Qed.

(** *** The transition *)
Lemma set_field_get r k v j :
  is_object r = true -> get (set_field r k v) j = if decide (j = k) then v else get r j.
Proof. intros (fs & ->)%is_object_inv. apply get_set_property. Qed.

Lemma set_field_object r k v : is_object (set_field r k v) = true.
Proof. done. Qed.

Lemma assign_get t patch j :
  is_object t = true ->
  get (assign t patch) j = get t j \/ exists v, (j, v) ∈ patch /\ get (assign t patch) j = v.
Proof.
  intros (fs & ->)%is_object_inv. unfold assign. cbn [entries].
  revert fs. induction patch as [|[k v] patch IH]; intros fs; [by left|]. cbn [foldl fst snd].
  destruct (IH (set_property fs k v)) as [->|(w & Hin & ->)].
  - rewrite get_set_property. case_decide as Hk; [subst; right|by left].
    exists v. split; [left|done].
  - right. exists w. split; [by right|done].
Qed.

(** What a checkpoint that advances gives. *)
Record advances (current next from to : val) (patch : list (string * val)) (now : num) : Prop := {
  adv_from : current#"state" = from;
  adv_next : next = next_record current from to patch now;
  adv_valid : validate next = true;
  adv_step : if among TERMINAL to then among (states_of current) from = true
             else index_of (states_of current) to = index_of (states_of current) from + 1;
  adv_keys : forall k v, (k, v) ∈ transfer_patch patch -> k ∈ patchable current;
  adv_patch : forall k v, (k, v) ∈ transfer_patch patch ->
    get current#"transfer" k = Null \/ get current#"transfer" k = v;
}.

Lemma decide_checkpoint_advance current from to patch now next :
  decide_checkpoint current from to patch now = Ok (Advance next) ->
  advances current next from to patch now.
Proof.
  unfold decide_checkpoint. destruct (safe (Obj patch)); [|done]. cbn [negb].
  destruct (strict_eq current#"state" to && negb (strict_eq from to)); [by destruct (replayed _ _)|].
  destruct (strict_eq current#"state" from) eqn:Ef; [|done]. cbn [negb].
  destruct (strict_eq from to && bool_decide (patch = [])); [done|].
  destruct (_ || _) eqn:E3; [done|].
  destruct (own _ _) eqn:Eo; [|done]. cbn [negb].
  destruct (existsb _ _) eqn:Ex; [done|].
  destruct (validate _) eqn:Ev; [|done]. intros [= <-].
  split; try done.
  - by apply strict_eq_eq.
  - apply orb_false_elim in E3 as [H1 H2]. destruct (among TERMINAL to); cbn in H1, H2.
    + by apply negb_false_iff in H2.
    + apply negb_false_iff in H1. zbool. done.
  - intros k v [Hne Hin]%list_elem_of_filter. cbn in Hne.
    unfold own in Eo. apply andb_prop in Eo as [_ Ha]. rewrite forallb_Forall, Forall_forall in Ha.
    specialize (Ha k). rewrite bool_decide_eq_true in Ha. cbn in Ha.
    assert (k ∈ patch.*1) as Hk by (by apply (list_elem_of_fmap_2 fst) in Hin).
    specialize (Ha Hk). destruct (among TERMINAL to); [set_solver|].
    by apply list_elem_of_filter in Ha as [_ ?].
  - intros k v Hin. assert (forall f, f ∈ transfer_patch patch ->
      negb (strict_eq (get current#"transfer" f.1) Null)
      && negb (strict_eq (get current#"transfer" f.1) f.2) = false) as Hall.
    { intros f Hf. apply not_true_iff_false. intros Ht. apply not_true_iff_false in Ex.
      apply Ex, existsb_exists. exists f. split; [by apply list_elem_of_In|done]. }
    specialize (Hall _ Hin). cbn in Hall. apply andb_false_iff in Hall as [H|H];
      apply negb_false_iff, strict_eq_eq in H; auto.
Qed.

(** *** Progress of a record *)

(** The position of a record in its sequence of states; a terminal state is after all. *)
Definition rank (r : val) : Z :=
  if among TERMINAL r#"state" then 100 else index_of (states_of r) r#"state".

Definition evidence_fields : list string := ["jobId"; "burnTxHash"; "userOpHash"; "unwindTxHash"].

(** [b] is [a] or a later version of it: the same transfer, evidence only added, time and
    state only forward, and nothing after a terminal state. *)
Record later (a b : val) : Prop := {
  lat_fields : forall k, k ∈ ["version"; "direction"; "owner"; "requestId"; "createdAtMs"] ->
    get b k = get a k;
  lat_transfer : forall k, k ∉ evidence_fields -> get b#"transfer" k = get a#"transfer" k;
  lat_evidence : forall k, get a#"transfer" k = Null \/ get b#"transfer" k = get a#"transfer" k;
  lat_time : time_of a#"updatedAtMs" <= time_of b#"updatedAtMs";
  lat_rank : rank a <= rank b;
  lat_terminal : among TERMINAL a#"state" = true -> b = a;
}.

Lemma later_refl a : later a a.
Proof. split; try done. by right. Qed.

Lemma later_trans a b c : later a b -> later b c -> later a c.
Proof.
  intros H1 H2. split.
  - intros k Hk. by rewrite (lat_fields _ _ H2), (lat_fields _ _ H1).
  - intros k Hk. by rewrite (lat_transfer _ _ H2), (lat_transfer _ _ H1).
  - intros k. destruct (lat_evidence _ _ H1 k) as [|E]; [by left|].
    destruct (lat_evidence _ _ H2 k) as [|E2]; [left; congruence|right; congruence].
  - pose proof (lat_time _ _ H1). pose proof (lat_time _ _ H2). lia.
  - pose proof (lat_rank _ _ H1). pose proof (lat_rank _ _ H2). lia.
  - intros Ht. pose proof (lat_terminal _ _ H1 Ht) as ->. by apply (lat_terminal _ _ H2).
Qed.

(** *** The next record is plain data *)
Lemma Forall_filter {A} (P Q : A -> Prop) `{forall x, Decision (Q x)} l :
  Forall P l -> Forall P (filter Q l).
Proof. rewrite !Forall_forall. intros HF x [_ Hx]%list_elem_of_filter. auto. Qed.

Definition plain (v : val) : Prop :=
  exists fs, v = Obj fs /\ NoDup fs.*1 /\ Forall (fun f => wire f.2) fs.

Lemma wire_plain v : wire v -> is_object v = true -> plain v.
Proof.
  intros Hv (fs & ->)%is_object_inv. inversion Hv as [| | | | | |? He HF]; subst.
  exists fs. split_and!; [done| |done]. rewrite <- He. apply from_entries_NoDup.
Qed.

Lemma plain_wire v ks :
  plain v -> own v ks = true -> forallb (fun k => negb (is_index k)) ks = true -> wire v.
Proof.
  intros (fs & -> & Hnd & HF) Ho Hi. unfold own in Ho. apply andb_prop in Ho as [_ Hk].
  rewrite forallb_Forall, Forall_forall in Hk, Hi.
  assert (Forall (fun f => is_index f.1 = false) fs) as Hni.
  { apply Forall_forall. intros [k v] Hin. cbn.
    assert (k ∈ fs.*1) as Hk' by (by apply (list_elem_of_fmap_2 fst) in Hin).
    specialize (Hk k Hk'). rewrite bool_decide_eq_true in Hk. apply Hi, negb_true_iff in Hk. done. }
  constructor; [|done]. rewrite from_entries_distinct by done. unfold own_order.
  rewrite filter_none, filter_all; [done|done|].
  eapply Forall_impl; [exact Hni|]. cbn. congruence.
Qed.

Lemma set_field_plain r k v : plain r -> wire v -> plain (set_field r k v).
Proof.
  intros (fs & -> & Hnd & HF) Hv. exists (set_property fs k v). split_and!; [done| |].
  - by apply set_property_NoDup.
  - by apply set_property_Forall.
Qed.

Lemma assign_plain t patch : plain t -> Forall (fun f => wire f.2) patch -> plain (assign t patch).
Proof.
  intros (fs & -> & Hnd & HF) Hp. eexists. split_and!; [done| |].
  - cbn. by apply set_properties_NoDup.
  - cbn. by apply set_properties_Forall.
Qed.

Lemma wire_among o v : among o v = true -> wire v.
Proof. intros (s & -> & _)%among_Str. constructor. Qed.

Lemma state_Str r : validate r = true -> among (states_of r ++ TERMINAL) r#"state" = true.
Proof.
  intros Hv. destruct (transfer_validate_inv _ Hv) as (_ & _ & _ & _ & _ & Hs & _).
  unfold valid_state in Hs. apply andb_prop in Hs as [Hs _]. apply among_Str.
  apply orb_prop in Hs as [(s & E & H)%among_Str|(s & E & H)%among_Str]; exists s; set_solver.
Qed.

Lemma fields_not_index :
  forallb (fun k => negb (is_index k)) record_fields = true
  /\ forallb (fun k => negb (is_index k)) forward_fields = true
  /\ forallb (fun k => negb (is_index k))
       ["jobId"; "kernelAddress"; "recipientHint"; "userOpHash"; "unwindTxHash"] = true.
Proof. by vm_compute. Qed.

Lemma transfer_own r :
  validate r = true -> exists ks, own r#"transfer" ks = true
    /\ forallb (fun k => negb (is_index k)) ks = true.
Proof.
  intros Hv. destruct (transfer_validate_inv _ Hv) as (_ & _ & _ & _ & _ & _ & Ht & _).
  destruct fields_not_index as (_ & H1 & H2).
  destruct (strict_eq _ _); unfold validForwardTransfer, validReverseTransfer in Ht;
    rewrite !andb_true_iff in Ht; eexists; (split; [apply Ht|assumption]).
Qed.

Lemma validate_own r : validate r = true -> own r record_fields = true.
Proof. unfold validate. rewrite !andb_true_iff. tauto. Qed.

Lemma get_wire fs k :
  Forall (fun f => wire f.2) fs -> is_object (get (Obj fs) k) = true -> wire (get (Obj fs) k).
Proof.
  intros HF. cbn. destruct (assoc fs k) as [v|] eqn:E; [|done]. intros _. cbn.
  apply assoc_In in E. rewrite Forall_forall in HF. exact (HF _ E).
Qed.

(** The fields of the next record. *)
Section Next.
Context (current from to : val) (patch : list (string * val)) (now : num).
Context (Hw : wire current) (Hc : validate current = true).
Let next := next_record current from to patch now.

Lemma current_object : is_object current = true.
Proof. destruct (transfer_validate_inv _ Hc) as [(fs & ->) _]. done. Qed.

Lemma next_get k :
  get next k =
    if decide (k = "transfer") then assign current#"transfer" (transfer_patch patch)
    else if decide (k = "updatedAtMs") then max_time current#"updatedAtMs" now
    else if decide (k = "state") then to
    else if decide (k = "reasonCode" /\ among TERMINAL to = true)
    then get (Obj patch) "reasonCode"
    else if decide (k = "terminalFrom" /\ among TERMINAL to = true) then from
    else get current k.
Proof.
  unfold next, next_record. rewrite (clone_wire _ Hw).
  assert (forall r k v, is_object (set_field r k v) = true) as Ho by done.
  pose proof current_object as Hco.
  assert ((set_field (set_field current "state" to) "updatedAtMs"
             (max_time current#"updatedAtMs" now))#"transfer" = current#"transfer") as Et.
  { by rewrite !set_field_get. }
  rewrite Et. destruct (among TERMINAL to); rewrite !set_field_get by done;
    repeat case_decide; subst; try done; try naive_solver.
Qed.

Context (Ha : advances current next from to patch now).

Lemma from_not_terminal : among TERMINAL from = false.
Proof.
  pose proof (adv_step _ _ _ _ _ _ Ha) as Hs. destruct (among TERMINAL to) eqn:Et.
  - by eapply states_not_terminal.
  - destruct (among TERMINAL from) eqn:Ef; [|done]. exfalso.
    pose proof (adv_valid _ _ _ _ _ _ Ha) as Hv.
    apply transfer_validate_inv in Hv as (_ & _ & _ & _ & _ & Hst & _).
    destruct (transfer_validate_inv _ Hc) as (_ & _ & _ & _ & _ & Hst' & _).
    unfold valid_state in Hst, Hst'. rewrite (adv_from _ _ _ _ _ _ Ha), Ef in Hst'.
    assert (next#"state" = to) as E by (by rewrite next_get).
    rewrite E, Et in Hst. apply andb_prop in Hst as [_ [Hr _]%andb_prop].
    assert (next#"reasonCode" = current#"reasonCode") as E2.
    { rewrite next_get. repeat case_decide; try done; naive_solver congruence. }
    rewrite E2 in Hr. apply strict_eq_eq in Hr. rewrite Hr in Hst'.
    by rewrite andb_false_r in Hst'.
Qed.

Lemma next_transfer_get k :
  get next#"transfer" k = get current#"transfer" k
  \/ (k ∈ patchable current /\ get current#"transfer" k = Null).
Proof.
  rewrite next_get. cbn [decide]. rewrite decide_True by done.
  assert (is_object current#"transfer" = true) as Hto.
  { destruct (transfer_validate_inv _ Hc) as (_ & _ & _ & _ & _ & _ & Ht & _).
    destruct (strict_eq _ _); unfold validForwardTransfer, validReverseTransfer, own in Ht;
      rewrite !andb_true_iff in Ht; tauto. }
  destruct (assign_get current#"transfer" (transfer_patch patch) k Hto) as [E|(v & Hin & E)];
    [by left|]. destruct (adv_patch _ _ _ _ _ _ Ha k v Hin) as [En|Ev].
  - right. split; [|done]. by apply (adv_keys _ _ _ _ _ _ Ha) in Hin.
  - left. congruence.
Qed.

Lemma patchable_evidence k : k ∈ patchable current -> k ∈ evidence_fields.
Proof. unfold patchable, evidence_fields. destruct (strict_eq _ _); set_solver. Qed.

Lemma next_time : time_of current#"updatedAtMs" <= time_of next#"updatedAtMs".
Proof.
  pose proof (adv_valid _ _ _ _ _ _ Ha) as Hv.
  apply transfer_validate_inv in Hv as (_ & _ & _ & _ & (c & u & _ & Hu & _ & _) & _).
  destruct (transfer_validate_inv _ Hc) as (_ & _ & _ & _ & (c' & u' & _ & Hu' & _ & _) & _).
  assert (next#"updatedAtMs" = max_time current#"updatedAtMs" now) as E by (by rewrite next_get).
  rewrite Hu. rewrite E, Hu' in Hu. rewrite Hu'. cbn.
  destruct now; cbn in Hu; try done; injection Hu as <-; lia.
Qed.

Lemma next_same k :
  k ∉ ["transfer"; "updatedAtMs"; "state"; "reasonCode"; "terminalFrom"] ->
  get next k = get current k.
Proof. intros Hk. rewrite next_get. repeat case_decide; set_solver. Qed.

Lemma next_states : states_of next = states_of current.
Proof. unfold states_of. rewrite next_same; [done|]. by apply (bool_decide_unpack _). Qed.

Lemma next_rank : rank current < rank next /\ next#"state" = to.
Proof.
  assert (next#"state" = to) as Et by (by rewrite next_get). split; [|done].
  unfold rank. rewrite Et, (adv_from _ _ _ _ _ _ Ha), from_not_terminal, next_states.
  pose proof (index_of_bounds (states_of current) from).
  assert (Z.of_nat (length (states_of current)) <= 6)
    by (unfold states_of; destruct (strict_eq _ _); cbn; lia).
  pose proof (adv_step _ _ _ _ _ _ Ha) as Hs. destruct (among TERMINAL to); lia.
Qed.

Lemma next_later : later current next.
Proof.
  pose proof next_rank as [Hr _].
  split.
  - intros k Hk. apply next_same. set_solver.
  - intros k Hk. destruct (next_transfer_get k) as [|[Hp _]]; [done|].
    by apply patchable_evidence in Hp.
  - intros k. destruct (next_transfer_get k) as [|[_ ?]]; auto.
  - apply next_time.
  - lia.
  - rewrite (adv_from _ _ _ _ _ _ Ha), from_not_terminal. done.
Qed.

Context (Hp : Forall (fun f => wire f.2) patch).

Lemma next_wire : wire next.
Proof.
  pose proof (adv_valid _ _ _ _ _ _ Ha) as Hv.
  pose proof (wire_plain _ Hw current_object) as Hpc.
  destruct (transfer_validate_inv _ Hv) as (_ & _ & _ & _ & (c & u & _ & Hu & _ & Hsafe) & Hst & _).
  assert (next#"state" = to) as Et by (by rewrite next_get).
  assert (wire to) as Hto by (rewrite <- Et; eapply wire_among, state_Str, Hv).
  assert (wire from) as Hfrom.
  { rewrite <- (adv_from _ _ _ _ _ _ Ha). eapply wire_among, state_Str, Hc. }
  assert (next#"updatedAtMs" = max_time current#"updatedAtMs" now) as Eu by (by rewrite next_get).
  assert (wire (max_time current#"updatedAtMs" now)) as Hmax.
  { rewrite <- Eu, Hu. by constructor. }
  assert (next#"transfer" = assign current#"transfer" (transfer_patch patch)) as Ett
    by (by rewrite next_get).
  assert (wire (assign current#"transfer" (transfer_patch patch))) as Htr.
  { destruct (transfer_own _ Hv) as (ks & Hown & Hni). rewrite Ett in Hown.
    eapply plain_wire; [|exact Hown|exact Hni]. apply assign_plain; [|by apply Forall_filter].
    destruct (transfer_own _ Hc) as (ks' & Hown' & _).
    assert (is_object current#"transfer" = true) as Hto'
      by (unfold own in Hown'; rewrite !andb_true_iff in Hown'; tauto).
    apply wire_plain; [|done]. destruct Hpc as (fs & Ec & _ & HF). rewrite Ec in *.
    by apply get_wire. }
  eapply plain_wire; [|apply (validate_own _ Hv)|apply fields_not_index].
  unfold next, next_record. rewrite (clone_wire _ Hw).
  assert ((set_field (set_field current "state" to) "updatedAtMs"
             (max_time current#"updatedAtMs" now))#"transfer" = current#"transfer") as E.
  { pose proof current_object. by rewrite !set_field_get. }
  rewrite E. destruct (among TERMINAL to) eqn:Eterm; repeat (apply set_field_plain; try done).
  unfold valid_state in Hst. rewrite Et, Eterm in Hst. rewrite !andb_true_iff in Hst.
  destruct Hst as (_ & Hr & _). rewrite next_get in Hr. rewrite Eterm in Hr. eapply wire_among.
  exact Hr.
Qed.
End Next.
End JournalLemmas.

(** ** The journal over a storage *)
Section JournalStorage.
Import Journal.
Local Open Scope string_scope.
Local Open Scope list_scope.
Context {S : Type} `{HS : Storage S} `{SL : !StorageLaws S}.

Lemma base32_upper c : is_base32 c = true -> upper_chars c = [c].
Proof.
  unfold is_base32, upper_chars, upper, in_range. intros Hc.
  destruct (Z.eqb_spec (code c) 223); [lia|].
  destruct (Z.leb_spec 97 (code c)), (Z.leb_spec (code c) 122); done || lia.
Qed.

Lemma strkey_upper l : STRKEY l = true -> toUpperCase l = l.
Proof.
  unfold STRKEY, is_strkey. destruct l as [|a l]; [done|]. intros [[Ha _]%andb_prop Hl]%andb_prop.
  assert (is_base32 a = true) as Ha'.
  { apply orb_prop in Ha as [->%Ascii.eqb_eq | ->%Ascii.eqb_eq]; done. }
  rewrite forallb_Forall in Hl. unfold toUpperCase. cbn. rewrite base32_upper by done. cbn. f_equal.
  induction Hl as [|c l Hc _ IH]; [done|]. cbn. by rewrite base32_upper, IH.
Qed.

(** A record found under a valid owner's key has a valid owner. *)
Lemma valid_owner_of owner r :
  validOwner owner = true -> validate r = true -> ownerKey r#"owner" = ownerKey owner ->
  validOwner r#"owner" = true.
Proof.
  intros Ho Hv Hk. destruct (transfer_validate_inv _ Hv) as (_ & _ & Hst & _).
  destruct owner as [| | | | | |o| |]; try done.
  destruct (r#"owner") as [| | | | | |o'| |];
    try (cbn in Hk, Ho; destruct (chars_of o); [by rewrite andb_false_r in Ho || done|done]).
  cbn. unfold test in Hst. cbn in Hst. by rewrite strkey_upper.
Qed.

(** The storage holds a record, under its own key. *)
Definition holds (s : S) (r : val) : Prop :=
  exists raw, getItem s (keyFor r#"owner" r#"requestId") = Some (Some raw)
    /\ JSON.parse raw = Ok r /\ validate r = true
    /\ validOwner r#"owner" = true /\ is_string r#"requestId" = true.

Lemma keyFor_inj o1 o2 r1 r2 :
  test ID r1 = true -> test ID r2 = true -> keyFor o1 r1 = keyFor o2 r2 ->
  ownerKey o1 = ownerKey o2 /\ coerce r1 = coerce r2.
Proof.
  intros H1 H2. unfold keyFor. intros E%app_inv_head.
  unfold test, ID, is_hex in H1, H2. apply andb_prop in H1 as [H1 _], H2 as [H2 _].
  apply Nat.eqb_eq in H1, H2. rewrite !app_assoc in E.
  apply app_inj_2 in E as [E ->]; [|lia]. by apply app_inj_2 in E as [-> _].
Qed.

Lemma string_coerce_inj a b :
  is_string a = true -> is_string b = true -> coerce a = coerce b -> a = b.
Proof. destruct a, b; try done. cbn. by intros _ _ ->%chars_of_inj. Qed.

Lemma holds_id s r : holds s r -> test ID r#"requestId" = true.
Proof. intros (raw & _ & _ & Hv & _). by destruct (transfer_validate_inv _ Hv) as (_ & _ & _ & Hid & _). Qed.

Lemma holds_wire s r : holds s r -> wire r.
Proof. intros (raw & _ & Hp & _). by eapply parse_wire. Qed.

Lemma holds_transfer s s' r :
  holds s r ->
  getItem s' (keyFor r#"owner" r#"requestId") = getItem s (keyFor r#"owner" r#"requestId") ->
  holds s' r.
Proof. intros (raw & Hg & Hr) E. exists raw. by rewrite E. Qed.

(** Reading the record by any identity with its key. *)
Lemma rawRead_holds q s r owner :
  holds s r -> validOwner owner = true -> ownerKey owner = ownerKey r#"owner" ->
  rawRead q s owner r#"requestId" = (s, Ok (Some r)).
Proof.
  intros Hh Ho Hk. pose proof (holds_id _ _ Hh) as Hid. destruct Hh as (raw & Hg & Hp & Hv & Hvo & Hs).
  unfold rawRead. rewrite Ho, Hid. cbn [negb orb].
  assert (keyFor owner r#"requestId" = keyFor r#"owner" r#"requestId") as ->
    by (unfold keyFor; by rewrite Hk).
  rewrite Hg, Hp, Hv, Hk, bool_decide_eq_true_2 by done.
  assert (strict_eq r#"requestId" r#"requestId" = true) as ->; [|done].
  destruct (r#"requestId"); try done. cbn. by apply bool_decide_eq_true_2.
Qed.

Lemma rawRead_inv q s s' owner rid r :
  is_string rid = true -> rawRead q s owner rid = (s', Ok (Some r)) ->
  s' = s /\ holds s r /\ validOwner owner = true /\ ownerKey owner = ownerKey r#"owner"
  /\ rid = r#"requestId".
Proof.
  intros Hs. unfold rawRead. destruct (validOwner owner) eqn:Ho; [|done].
  destruct (test ID rid); [|done]. cbn [negb orb].
  destruct (getItem s (keyFor owner rid)) as [[raw|]|] eqn:Hg; try done.
  destruct (JSON.parse raw) as [rec|] eqn:Hp; [|done].
  destruct (validate rec) eqn:Hv; [|done]. case_bool_decide as Hk; [|done].
  destruct (strict_eq rec#"requestId" rid) eqn:Hr; [|done]. intros [= <- <-].
  apply strict_eq_eq in Hr. split_and!; try done. exists raw. rewrite Hr.
  assert (keyFor rec#"owner" rid = keyFor owner rid) as -> by (unfold keyFor; by rewrite Hk).
  split_and!; try done.
  by eapply valid_owner_of; [| |exact Hk].
Qed.

(** Reading any identity never loses a record: only data that does not validate under its
    own key is discarded. *)
Lemma rawRead_preserves q s s' owner rid res r :
  is_string rid = true -> holds s r -> rawRead q s owner rid = (s', res) -> holds s' r.
Proof.
  intros Hs Hh Hr. destruct (decide (keyFor owner rid = keyFor r#"owner" r#"requestId")) as [Hk|Hk].
  - unfold rawRead in Hr. destruct (validOwner owner) eqn:Ho; [|by injection Hr as <- _].
    destruct (test ID rid) eqn:Hi; [|by injection Hr as <- _].
    destruct (keyFor_inj _ _ _ _ Hi (holds_id _ _ Hh) Hk) as [Hok Hc].
    assert (rid = r#"requestId") as ->.
    { destruct Hh as (? & ? & ? & ? & ? & Hrs). by apply string_coerce_inj. }
    pose proof (rawRead_holds q s r owner Hh Ho Hok) as E. unfold rawRead in E.
    rewrite Ho, Hi in E. cbn [negb orb] in *. rewrite E in Hr. by injection Hr as <- _.
  - assert (getItem s' (keyFor r#"owner" r#"requestId") = getItem s (keyFor r#"owner" r#"requestId"))
      as E; [|by eapply holds_transfer].
    unfold rawRead in Hr. repeat case_match; simplify_eq; try done; unfold discard; destruct q;
      try done; destruct (removeItem s (keyFor owner rid)) as [s2 []] eqn:Erm; cbn;
      first [ erewrite get_removed by exact Erm; by rewrite decide_False
            | by erewrite remove_failed by exact Erm ].
Qed.

(** A write of a valid record succeeds or leaves every key as it was. *)
Lemma write_cases s s' key r res :
  wire r -> validate r = true -> write s key r = (s', res) ->
  (res = Ok r /\ getItem s' key = Some (Some (body_of r))
   /\ forall j, j <> key -> getItem s' j = getItem s j)
  \/ (res = Throw journal_unavailable /\ forall j, getItem s' j = getItem s j).
Proof.
  intros Hw Hv. unfold write. destruct (setItem s key (body_of r)) as [s2 []] eqn:Es.
  - pose proof (get_set _ _ _ _ Es) as Hg. rewrite Hg, bool_decide_eq_true_2 by done.
    assert (JSON.parse (body_of r) = Ok r) as ->.
    { unfold body_of. rewrite stringify_wire by done. by apply parse_print. }
    rewrite Hv. cbn [andb]. intros [= <- <-]. left. rewrite clone_wire by done.
    split_and!; try done. intros j Hj. by eapply get_set_other.
  - intros [= <- <-]. right. split; [done|]. intros j. by eapply set_failed.
Qed.

Lemma body_parses r : wire r -> JSON.parse (body_of r) = Ok r.
Proof. intros Hw. unfold body_of. rewrite stringify_wire by done. by apply parse_print. Qed.

(** A checkpoint of a record that is held. *)
Lemma checkpoint_cases s s' owner rid from to patch now res r :
  holds s r -> validOwner owner = true -> ownerKey owner = ownerKey r#"owner" ->
  rid = r#"requestId" -> Forall (fun f => wire f.2) patch ->
  checkpointCctpTransfer s owner rid from to patch now = (s', res) ->
  (exists r', res = Ok r' /\ later r r' /\ r'#"state" = to /\ holds s' r')
  \/ (exists e, res = Throw e /\ holds s' r).
Proof.
  intros Hh Ho Hk -> Hp H. unfold checkpointCctpTransfer in H.
  rewrite (rawRead_holds true s r owner Hh Ho Hk) in H.
  pose proof (holds_wire _ _ Hh) as Hw.
  destruct (decide_checkpoint r from to patch now) as [[rec|next]|e] eqn:Ed.
  - injection H as <- <-. left. exists rec.
    assert (rec = r /\ r#"state" = to) as [-> <-].
    { unfold decide_checkpoint in Ed. destruct (safe _); [|done]. cbn [negb] in Ed.
      destruct (strict_eq r#"state" to && negb (strict_eq from to)) eqn:E1.
      - destruct (replayed _ _); [|done]. injection Ed as <-. rewrite clone_wire by done.
        apply andb_prop in E1 as [E1 _]. by apply strict_eq_eq in E1.
      - destruct (strict_eq r#"state" from) eqn:E2; [|done]. cbn [negb] in Ed.
        destruct (strict_eq from to && bool_decide (patch = [])) eqn:E3.
        + injection Ed as <-. rewrite clone_wire by done. apply andb_prop in E3 as [E3 _].
          apply strict_eq_eq in E2, E3. split; congruence.
        + repeat case_match; done. }
    split_and!; [done|apply later_refl|done|done].
  - apply decide_checkpoint_advance in Ed. destruct Hh as (raw & Hg & Hpr & Hv & Hvo & Hrs).
    pose proof (next_wire r from to patch now Hw Hv) as Hnw.
    pose proof (adv_next _ _ _ _ _ _ Ed) as En. subst next.
    specialize (Hnw Ed Hp). pose proof (next_later r from to patch now Hw Hv Ed) as Hl.
    pose proof (next_rank r from to patch now Hw Hv Ed) as [_ Hto].
    assert (keyFor owner r#"requestId" = keyFor r#"owner" r#"requestId") as Hkey
      by (unfold keyFor; by rewrite Hk).
    destruct (write_cases _ _ _ _ _ Hnw (adv_valid _ _ _ _ _ _ Ed) H)
      as [(-> & Hget & _)|(-> & Hsame)].
    + left. eexists. split_and!; [done|done|done|]. exists (body_of (next_record r from to patch now)).
      rewrite !(lat_fields _ _ Hl) by set_solver. rewrite <- Hkey.
      split_and!; [done|by apply body_parses|apply Ed|done|done].
    + right. eexists. split; [done|]. exists raw. by rewrite Hsame.
  - injection H as <- <-. right. eauto.
Qed.

Lemma write_other s s' key rec res j :
  write s key rec = (s', res) -> j <> key -> getItem s' j = getItem s j.
Proof.
  unfold write. destruct (setItem s key (body_of rec)) as [s2 b] eqn:Es. intros Hw Hj.
  assert (s' = s2) as -> by (repeat case_match; simplify_eq; done). by eapply get_set_other.
Qed.

Lemma create_preserves s s' rec res r :
  is_string rec#"owner" = true -> is_string rec#"requestId" = true ->
  holds s r -> createCctpTransfer s rec = (s', res) -> holds s' r.
Proof.
  intros Hos Hrs Hh. unfold createCctpTransfer.
  destruct (validate rec) eqn:Hv; [|by intros [= <- _]]. cbn [negb].
  destruct (rawRead true s rec#"owner" rec#"requestId") as [s1 res1] eqn:Er.
  pose proof (rawRead_preserves _ _ _ _ _ _ _ Hrs Hh Er) as Hh1.
  destruct res1 as [[existing|]|e]; [by case_bool_decide; intros [= <- _]| |by intros [= <- _]].
  intros Hwr. destruct (transfer_validate_inv _ Hv) as (_ & _ & Hst & Hid & _).
  destruct (decide (keyFor rec#"owner" rec#"requestId" = keyFor r#"owner" r#"requestId")) as [Hk|Hk].
  - exfalso. destruct (keyFor_inj _ _ _ _ Hid (holds_id _ _ Hh) Hk) as [Hok Hc].
    assert (rec#"requestId" = r#"requestId") as Hreq.
    { destruct Hh as (? & ? & ? & ? & ? & ?). by apply string_coerce_inj. }
    rewrite Hreq in Er. rewrite (rawRead_holds true s r) in Er; [done|done| |done].
    unfold test in Hst. destruct (rec#"owner"); try done. cbn in Hst |- *. by rewrite strkey_upper.
  - eapply holds_transfer; [exact Hh1|]. by eapply write_other.
Qed.

Lemma found_preserves s s' owner prefix ks res r :
  holds s r -> found s owner prefix ks = (s', res) -> holds s' r.
Proof.
  revert s s' res. induction ks as [|k ks IH]; intros s s' res Hh; cbn [found]; [by intros [= <- _]|].
  destruct (startsWith prefix k); [|by apply IH].
  destruct (rawRead true s owner _) as [s1 res1] eqn:Er.
  eapply rawRead_preserves in Er; [|done|exact Hh].
  destruct res1; [|by intros [= <- _]].
  destruct (found s1 owner prefix ks) as [s2 res2] eqn:Ef. apply IH in Ef; [|done].
  destruct res2; by intros [= <- _].
Qed.

(** *** Histories *)
Inductive op :=
| Create (record : val)
| Read (quarantine : bool) (owner requestId : val)
| Checkpoint (owner requestId from to : val) (patch : list (string * val)) (now : num)
| List (owner limit : val).

Definition exec (s : S) (o : op) : S :=
  match o with
  | Create record => (createCctpTransfer s record).1
  | Read q owner rid => (readCctpTransfer q s owner rid).1
  | Checkpoint owner rid from to patch now =>
      (checkpointCctpTransfer s owner rid from to patch now).1
  | List owner limit => (listCctpTransfers s owner limit).1
  end.

(** Identities are strings, and patches are data that JSON can carry. *)
Definition op_ok (o : op) : Prop :=
  match o with
  | Create record => is_string record#"owner" = true /\ is_string record#"requestId" = true
  | Read _ _ rid => is_string rid = true
  | Checkpoint _ rid _ _ patch _ => is_string rid = true /\ Forall (fun f => wire f.2) patch
  | List _ _ => True
  end.

Lemma checkpoint_later s owner rid from to patch now r :
  is_string rid = true -> Forall (fun f => wire f.2) patch -> holds s r ->
  exists r', holds (checkpointCctpTransfer s owner rid from to patch now).1 r' /\ later r r'.
Proof.
  intros Hrs Hp Hh.
  destruct (checkpointCctpTransfer s owner rid from to patch now) as [s' res] eqn:E. cbn.
  destruct (decide (keyFor owner rid = keyFor r#"owner" r#"requestId")) as [Hk|Hk].
  - destruct (validOwner owner) eqn:Ho; [destruct (test ID rid) eqn:Hi|].
    + destruct (keyFor_inj _ _ _ _ Hi (holds_id _ _ Hh) Hk) as [Hok Hc].
      assert (rid = r#"requestId") as Hreq.
      { destruct Hh as (? & ? & ? & ? & ? & ?). by apply string_coerce_inj. }
      destruct (checkpoint_cases _ _ _ _ _ _ _ _ _ _ Hh Ho Hok Hreq Hp E)
        as [(r' & _ & Hl & _ & Hh')|(e & _ & Hh')]; [eauto|].
      exists r. split; [done|apply later_refl].
    + unfold checkpointCctpTransfer, rawRead in E. rewrite Hi, orb_true_r in E.
      injection E as <- _. exists r. split; [done|apply later_refl].
    + unfold checkpointCctpTransfer, rawRead in E. rewrite Ho in E.
      injection E as <- _. exists r. split; [done|apply later_refl].
  - exists r. split; [|apply later_refl]. unfold checkpointCctpTransfer in E.
    destruct (rawRead true s owner rid) as [s1 res1] eqn:Er.
    pose proof (rawRead_preserves _ _ _ _ _ _ _ Hrs Hh Er) as Hh1.
    destruct res1 as [[cur|]|e]; [|by injection E as <- _|by injection E as <- _].
    destruct (decide_checkpoint cur from to patch now) as [[rec|next]|e];
      [by injection E as <- _| |by injection E as <- _].
    eapply holds_transfer; [exact Hh1|]. eapply write_other; [exact E|done].
Qed.

Lemma exec_later s o r : op_ok o -> holds s r -> exists r', holds (exec s o) r' /\ later r r'.
Proof.
  intros Ho Hh. destruct o as [rec|q owner rid|owner rid from to patch now|owner limit]; cbn in *.
  - destruct Ho as [H1 H2]. exists r. split; [|apply later_refl].
    destruct (createCctpTransfer s rec) as [s' res] eqn:E. by eapply create_preserves.
  - exists r. split; [|apply later_refl]. unfold readCctpTransfer.
    destruct (rawRead q s owner rid) as [s' res] eqn:E.
    eapply rawRead_preserves in E; [|done|exact Hh]. by destruct res as [[]|].
  - destruct Ho. by apply checkpoint_later.
  - exists r. split; [|apply later_refl]. unfold listCctpTransfers.
    destruct (_ || _); [done|]. destruct (found _ _ _ _) as [s' res] eqn:E.
    eapply found_preserves in E; [|exact Hh]. by destruct res.
Qed.
End JournalStorage.

(** ** Properties *)
Section JournalProperties.
Import Journal.
Local Open Scope string_scope.
Local Open Scope list_scope.
Context {S : Type} `{HS : Storage S} `{SL : !StorageLaws S}.

(** C15. The journal never forgets and never goes back: whatever sequence of creations,
    reads, checkpoints and listings follows, on any transfers, a transfer that is recorded
    stays recorded, under the same identity and immutable fields, with every piece of
    evidence it had, in the same or a later state, and unchanged once its state is
    terminal. *)
Theorem journal_history (s : S) (r : val) (ops : list op)
    (Hr : holds s r) (Hops : Forall op_ok ops) :
  exists r', holds (foldl exec s ops) r' /\ later r r'.
Proof.
  revert s r Hr. induction Hops as [|o ops Ho _ IH]; intros s r Hr; cbn.
  - exists r. split; [done|apply later_refl].
  - destruct (exec_later s o r Ho Hr) as (r1 & H1 & L1).
    destruct (IH _ _ H1) as (r2 & H2 & L2). exists r2. split; [done|]. by eapply later_trans.
Qed.

(** A checkpoint is one durable step: it either returns a later version of the record in
    the requested state, which the storage then holds, or fails and leaves the record that
    was held. *)
Theorem checkpoint_durable (s s' : S) (owner from to r : val) (patch : list (string * val))
    (now : num) (res : result journal_error val)
    (Hr : holds s r) (Ho : validOwner owner = true) (Hk : ownerKey owner = ownerKey r#"owner")
    (Hp : Forall (fun f => wire f.2) patch)
    (H : checkpointCctpTransfer s owner r#"requestId" from to patch now = (s', res)) :
  (exists r', res = Ok r' /\ later r r' /\ r'#"state" = to /\ holds s' r')
  \/ (exists e, res = Throw e /\ holds s' r).
Proof. by eapply checkpoint_cases. Qed.

(** The states from a given position on. *)
Lemma forward_from v k :
  0 <= k -> k <= index_of FORWARD v -> among (drop (Z.to_nat k) FORWARD) v = true.
Proof.
  intros Hk Hi. assert (among FORWARD v = true) as (x & -> & Hx)%among_Str
    by (apply index_of_among; lia).
  repeat (apply elem_of_cons in Hx as [->|Hx]); try (by apply not_elem_of_nil in Hx);
    match type of Hi with _ <= ?i => let n := eval vm_compute in i in change (k <= n) in Hi end;
    assert (k = 0 \/ k = 1 \/ k = 2 \/ k = 3 \/ k = 4 \/ k = 5) as Hc by lia;
    repeat (destruct Hc as [->|Hc]); try subst; try reflexivity; lia.
Qed.

Lemma null_or_truthy re v : null_or re v = true -> truthy v = true -> test re v = true.
Proof.
  unfold null_or. intros [H|H]%orb_prop; [|done]. by apply strict_eq_eq in H as ->.
Qed.

Lemma forward_evidence r :
  validate r = true -> r#"direction" = Str "forward" ->
  let t := r#"transfer" in
  (1 <= index_of FORWARD r#"state" -> test ID t#"jobId" = true)
  /\ (3 <= index_of FORWARD r#"state" -> test HASH t#"burnTxHash" = true)
  /\ (t#"jobId" = Null -> t#"burnTxHash" = Null)
  /\ allocated t * 10 = BigInt_of t#"burnUnits7" /\ 0 < BigInt_of t#"burnUnits7".
Proof.
  intros Hv Hf t.
  destruct (transfer_validate_inv _ Hv) as (_ & _ & _ & _ & _ & _ & Ht & He).
  unfold hasEvidence in He. rewrite Hf in Ht, He. change (strict_eq (Str "forward") (Str "forward"))
    with true in Ht, He. cbn iota in Ht, He. fold t in Ht, He.
  apply andb_prop in He as [He1 He2]. unfold validForwardTransfer in Ht.
  rewrite !andb_true_iff in Ht.
  assert ((BigInt_of t#"burnUnits7" >? 0)%Z = true) as Hpos by tauto.
  assert (null_or ID t#"jobId" = true) as Hj by tauto.
  assert (null_or HASH t#"burnTxHash" = true) as Hb by tauto.
  assert ((allocated t * 10 =? BigInt_of t#"burnUnits7")%Z = true) as Hsum by tauto.
  assert (strict_eq t#"burnTxHash" Null || negb (strict_eq t#"jobId" Null) = true) as Hbj by tauto.
  split_and!.
  - intros Hi. apply forward_from in Hi; [|lia]. apply null_or_truthy; [done|].
    change (drop _ FORWARD) with
      ["intent_acked"; "burn_submitting"; "burn_confirmed"; "attach_pending"; "settling"] in Hi.
    rewrite Hi in He1. by destruct (truthy t#"jobId").
  - intros Hi. apply forward_from in Hi; [|lia]. apply null_or_truthy; [done|].
    change (drop _ FORWARD) with ["burn_confirmed"; "attach_pending"; "settling"] in Hi.
    rewrite Hi in He2. by destruct (truthy t#"burnTxHash").
  - intros E. rewrite E in Hbj. cbn in Hbj. rewrite orb_false_r in Hbj. by apply strict_eq_eq.
  - by apply Z.eqb_eq.
  - rewrite Z.gtb_ltb in Hpos. by apply Z.ltb_lt.
Qed.

Lemma reverse_from v k :
  0 <= k -> k <= index_of REVERSE v -> among (drop (Z.to_nat k) REVERSE) v = true.
Proof.
  intros Hk Hi. assert (among REVERSE v = true) as (x & -> & Hx)%among_Str
    by (apply index_of_among; lia).
  repeat (apply elem_of_cons in Hx as [->|Hx]); try (by apply not_elem_of_nil in Hx);
    match type of Hi with _ <= ?i => let n := eval vm_compute in i in change (k <= n) in Hi end;
    assert (k = 0 \/ k = 1 \/ k = 2 \/ k = 3 \/ k = 4) as Hc by lia;
    repeat (destruct Hc as [->|Hc]); try subst; try reflexivity; lia.
Qed.

Lemma reverse_evidence r :
  validate r = true -> strict_eq r#"direction" (Str "forward") = false ->
  let t := r#"transfer" in
  t#"jobId" = r#"requestId"
  /\ (1 <= index_of REVERSE r#"state" -> test EVM_HASH t#"userOpHash" = true)
  /\ (2 <= index_of REVERSE r#"state" -> test EVM_HASH t#"unwindTxHash" = true).
Proof.
  intros Hv Hf t. destruct (transfer_validate_inv _ Hv) as (_ & _ & _ & _ & _ & _ & Ht & He).
  unfold hasEvidence in He. rewrite Hf in Ht, He. fold t in Ht, He.
  apply andb_prop in He as [He1 He2]. unfold validReverseTransfer in Ht.
  rewrite !andb_true_iff in Ht.
  assert (strict_eq t#"jobId" r#"requestId" = true) as Hj by tauto.
  assert (null_or EVM_HASH t#"userOpHash" = true) as Hu by tauto.
  assert (null_or EVM_HASH t#"unwindTxHash" = true) as Hw by tauto.
  split_and!.
  - by apply strict_eq_eq.
  - intros Hi. apply reverse_from in Hi; [|lia]. apply null_or_truthy; [done|].
    change (drop _ REVERSE) with
      ["userop_submitted"; "unwind_confirmed"; "relay_pending"; "settling"] in Hi.
    rewrite Hi in He1. by destruct (truthy t#"userOpHash").
  - intros Hi. apply reverse_from in Hi; [|lia]. apply null_or_truthy; [done|].
    change (drop _ REVERSE) with ["unwind_confirmed"; "relay_pending"; "settling"] in Hi.
    rewrite Hi in He2. by destruct (truthy t#"unwindTxHash").
Qed.

(** A recorded forward transfer carries its evidence: past the acknowledgement it has a
    job id, past the burn it has the burn hash, a burn hash never stands without a job, and
    the allocations add up to the burned amount, six decimals against seven. *)
Theorem journal_evidence (s : S) (r : val)
    (Hr : holds s r) (Hf : r#"direction" = Str "forward") :
  let t := r#"transfer" in
  (1 <= index_of FORWARD r#"state" -> test ID t#"jobId" = true)
  /\ (3 <= index_of FORWARD r#"state" -> test HASH t#"burnTxHash" = true)
  /\ (t#"jobId" = Null -> t#"burnTxHash" = Null)
  /\ allocated t * 10 = BigInt_of t#"burnUnits7" /\ 0 < BigInt_of t#"burnUnits7".
Proof. destruct Hr as (raw & _ & _ & Hv & _). by apply forward_evidence. Qed.

(** Creating is idempotent and never overwrites: where a transfer is recorded under the
    identity, the same record is acknowledged and another is refused, and the record that
    was held stays. *)
Theorem create_idempotent (s : S) (r rec : val)
    (Hr : holds s r) (Hv : validate rec = true) (Ho : validOwner rec#"owner" = true)
    (Hk : ownerKey rec#"owner" = ownerKey r#"owner") (Hi : rec#"requestId" = r#"requestId") :
  createCctpTransfer s rec
  = (s, if bool_decide (body_of r = body_of rec) then Ok r else Throw journal_conflict).
Proof.
  unfold createCctpTransfer. rewrite Hv. cbn [negb]. rewrite Hi.
  rewrite (rawRead_holds true s r _ Hr Ho Hk). rewrite (clone_wire r) by (by eapply holds_wire).
  by case_bool_decide.
Qed.
End JournalProperties.

(** ** Witnesses *)
Section JournalWitnesses.
Import Journal.
Local Open Scope string_scope.
Local Open Scope list_scope.

Definition hex32 : string := "0123456789abcdef0123456789abcdef".
Definition hex64 : string := hex32 +:+ hex32.
Definition account : string := "GAAAAAAAAAAAAAAAAAAAAAAAAAAAAAAAAAAAAAAAAAAAAAAAAAAAAAAA".
Definition evm : string := "0x00000000000000000000000000000000000000aa".

Definition sample_allocation (id : string) (units : string) : val :=
  Obj ["allocationId" ↦ Str id; "executionId" ↦ Str ("run:exec:" +:+ id);
       "poolAddress" ↦ Str evm;
       "amount" ↦ Obj ["token" ↦ Str "USDC"; "units" ↦ Str units; "decimals" ↦ Number (Num 6)];
       "minShares" ↦ Str "0"].

Definition sample_transfer (allocations : list val) (units7 : string) (job burn : val) : val :=
  Obj ["mandateId" ↦ Str hex32; "kernelAddress" ↦ Str evm; "bindingId" ↦ Str "binding";
       "bindingHash" ↦ Str hex64; "bridgeAgent" ↦ Str account; "runId" ↦ Str "run";
       "grantTxHash" ↦ Str hex64; "burnUnits7" ↦ Str units7; "allocations" ↦ Arr allocations;
       "jobId" ↦ job; "burnTxHash" ↦ burn].

Definition sample_record (state : string) (job burn : val) : val :=
  Obj ["version" ↦ Number (Num 1); "direction" ↦ Str "forward"; "owner" ↦ Str account;
       "requestId" ↦ Str hex32; "state" ↦ Str state; "createdAtMs" ↦ Number (Num 1000);
       "updatedAtMs" ↦ Number (Num 1000); "reasonCode" ↦ Null; "terminalFrom" ↦ Null;
       "transfer" ↦ sample_transfer [sample_allocation "a1" "5"; sample_allocation "a2" "7"]
                      "120" job burn].

Definition memory : Type := gmap (list ascii) (list ascii).

Definition sample_storage : memory := (createCctpTransfer (S := memory) ∅
  (sample_record "intent_creating" Null Null)).1.

Lemma sample_holds : holds sample_storage (sample_record "intent_creating" Null Null).
Proof.
  eexists. split_and!; [vm_compute; reflexivity|vm_compute; reflexivity|vm_compute; reflexivity|
    vm_compute; reflexivity|vm_compute; reflexivity].
Defined.

Definition sample_ops : list op :=
  [List (Str account) (Number (Num 20));
   Checkpoint (Str account) (Str hex32) (Str "intent_creating") (Str "intent_acked")
     ["jobId" ↦ Str hex32] (Num 2000);
   Create (sample_record "intent_creating" Null Null);
   Checkpoint (Str account) (Str hex32) (Str "intent_acked") (Str "burn_submitting") [] (Num 1500);
   Checkpoint (Str account) (Str hex32) (Str "burn_submitting") (Str "uncertain")
     ["reasonCode" ↦ Str "burn_submission_unknown"] (Num 3000);
   Checkpoint (Str account) (Str hex32) (Str "uncertain") (Str "intent_creating") [] (Num 4000)].

Lemma journal_history_witness :
  exists r', holds (foldl exec sample_storage sample_ops) r'
    /\ later (sample_record "intent_creating" Null Null) r'.
Proof.
  apply (journal_history (S := memory)); [apply sample_holds|].
  repeat constructor.
Defined.

(** The same history, computed: the transfer ends uncertain, with its job id and the reason,
    at the time of its last transition. *)
Example sample_history_result :
  match readCctpTransfer false (foldl exec sample_storage sample_ops) (Str account) (Str hex32) with
  | (_, Ok (Some r)) =>
      (r#"state", r#"reasonCode", r#"terminalFrom", r#"transfer"#"jobId", r#"updatedAtMs")
  | _ => (Null, Null, Null, Null, Null)
  end = (Str "uncertain", Str "burn_submission_unknown", Str "burn_submitting", Str hex32,
         Number (Num 3000)).
Proof. vm_compute. reflexivity. Qed.

Definition sample_checkpoint : memory * result journal_error val :=
  checkpointCctpTransfer sample_storage (Str account) (Str hex32) (Str "intent_creating")
    (Str "intent_acked") ["jobId" ↦ Str hex32] (Num 2000).

Lemma checkpoint_durable_witness :
  (exists r', sample_checkpoint.2 = Ok r' /\ later (sample_record "intent_creating" Null Null) r'
     /\ r'#"state" = Str "intent_acked" /\ holds sample_checkpoint.1 r')
  \/ (exists e, sample_checkpoint.2 = Throw e
        /\ holds sample_checkpoint.1 (sample_record "intent_creating" Null Null)).
Proof.
  apply (checkpoint_durable (S := memory) sample_storage _ (Str account) (Str "intent_creating")
    (Str "intent_acked") (sample_record "intent_creating" Null Null) ["jobId" ↦ Str hex32]
    (Num 2000)).
  - apply sample_holds.
  - vm_compute. reflexivity.
  - vm_compute. reflexivity.
  - repeat constructor.
  - apply surjective_pairing.
Defined.

Lemma journal_evidence_witness :
  allocated (sample_record "intent_creating" Null Null)#"transfer" * 10 = 120.
Proof.
  destruct (journal_evidence (S := memory) sample_storage
    (sample_record "intent_creating" Null Null) sample_holds eq_refl) as (_ & _ & _ & H & _).
  exact H.
Defined.

Lemma create_idempotent_witness :
  (createCctpTransfer (S := memory) sample_storage (sample_record "intent_creating" Null Null)).2
  = Ok (sample_record "intent_creating" Null Null).
Proof.
  rewrite (create_idempotent (S := memory) sample_storage
    (sample_record "intent_creating" Null Null) (sample_record "intent_creating" Null Null)
    sample_holds); [by rewrite bool_decide_eq_true_2|vm_compute; reflexivity..].
Defined.

(** The set of allocation ids is filled but never consulted: a forward transfer that
    lists the same allocation twice validates. *)
Theorem duplicate_allocations_accepted :
  validForwardTransfer
    (sample_transfer [sample_allocation "a1" "5"; sample_allocation "a1" "7"] "120" Null Null)
  = true.
Proof. vm_compute. reflexivity. Qed.
End JournalWitnesses.
