(* ===== verification/ResumeTransfers.v ===== *)
(** * Resuming transfers after a reload

    Models [frontend/src/cctp/resumeTransfers.js]: what is done with each recorded transfer
    when the application starts again.  The endpoints it may call are parameters, absent or
    answering; a record touches only its own key of the journal, so the records of one run
    are taken in order. *)
From S2P Require Export TransferJournal.

Module Resume.
Import Journal.

(** The answer of an endpoint: a value, or an error with its [code]. *)
Inductive reply := Resolves (v : val) | Rejects (code : val).

Record deps := {
  postFarmIntent : option (val -> reply);
  postFarmAttach : option (val -> reply);
  postUnwindAttach : option (val -> reply);
  pollForwardStatus : option (val -> reply);
  pollUnwindStatus : option (val -> reply);
  reconcileUnwindUserOp : option (val -> reply);
}.

(** The calls that leave the browser. *)
Inductive call :=
| PostFarmIntent (body : val)
| PostFarmAttach (body : val)
| PostUnwindAttach (body : val)
| PollForwardStatus (body : val)
| PollUnwindStatus (body : val)
| ReconcileUnwindUserOp (body : val).

(** The lists of the summary. *)
Inductive bucket := Resumed | Held | Terminal | Uncertain | Blocked.

#[global] Instance bucket_eq_dec : EqDecision bucket.
Proof. solve_decision. Defined.

Section Strings.
Local Open Scope string_scope.
Local Open Scope list_scope.

Definition terminalForStatus (status : val) : option (string * string) :=
  match status with
  | Str s =>
      if decide (s = "expired") then Some ("blocked", "authorization_unavailable")
      else if decide (s = "done") then Some ("done", "job_error")
      else if decide (s = "error" \/ s = "uncertain" \/ s = "blocked") then Some (s, "job_" +:+ s)
      else None
  | _ => None
  end.

Definition intentBody (record : val) : val :=
  let t := record#"transfer" in
  Obj ["requestId" ↦ record#"requestId"; "sourceDomain" ↦ Number (Num 27);
       "mandateId" ↦ t#"mandateId"; "stellarOwner" ↦ record#"owner";
       "kernelAddress" ↦ t#"kernelAddress"; "bridgeAgent" ↦ t#"bridgeAgent";
       "runId" ↦ t#"runId"; "grantTxHash" ↦ t#"grantTxHash"; "allocations" ↦ t#"allocations"].

(** [v !== undefined && v !== w] *)
Definition differs (v w : val) : bool := negb (strict_eq v Undefined) && negb (strict_eq v w).

Definition is_mismatch (code : val) : bool := strict_eq code (Str "identity_mismatch").

(** [re.test(v || '')] *)
Definition test_or_empty (re : chars -> bool) (v : val) : bool :=
  test re (if truthy v then v else Str "").

Definition ack_valid (record ack : val) : bool :=
  strict_eq ack#"acknowledged" (Bool true) && strict_eq ack#"schemaVersion" (Number (Num 1))
  && test_or_empty (is_hex 32) ack#"jobId"
  && negb (differs ack#"echoedRequestId" record#"requestId").

Section One.
Context {S : Type} `{Storage S}.
Context (d : deps).
(** The time read when a record moves to a state. *)
Context (clock : val -> num).

Definition checkpoint (s : S) (record : val) (from to : val) (patch : list (string * val))
    : S * result journal_error val :=
  checkpointCctpTransfer s record#"owner" record#"requestId" from to patch (clock to).

(** The storage, the calls made and the list the record was put in; none when an error
    escaped. *)
Definition outcome : Type := S * list call * option bucket.

Definition bucket_of (state : string) : bucket :=
  if decide (state = "uncertain") then Uncertain
  else if decide (state = "blocked") then Blocked else Terminal.

Definition terminalize (s : S) (record : val) (state reasonCode : string) : S * option bucket :=
  match checkpoint s record record#"state" (Str state) ["reasonCode" ↦ Str reasonCode] with
  | (s, Ok _) => (s, Some (bucket_of state))
  | (s, Throw _) => (s, None)
  end.

Definition after (calls : list call) (r : S * option bucket) : outcome := (r.1, calls, r.2).

(** [catch (error)]: a mismatch of identity blocks the record, any other error holds it. *)
Definition recover (s : S) (record : val) (mismatch : bool) (reason : string) : S * option bucket :=
  if mismatch then terminalize s record "blocked" reason else (s, Some Held).

(** [try { answer = await call; if (bad) throw mismatch(); checkpoint; put resumed }] *)
Definition attempt_step (s : S) (record : val) (reason : string) (bad : val -> bool)
    (from to : string) (patch : val -> list (string * val)) (answer : reply) : S * option bucket :=
  match answer with
  | Rejects code => recover s record (is_mismatch code) reason
  | Resolves response =>
      if bad response then recover s record true reason
      else
        match checkpoint s record (Str from) (Str to) (patch response) with
        | (s, Ok _) => (s, Some Resumed)
        | (s, Throw _) => recover s record false reason
        end
  end.

(** [try { status = await call; if (bad) throw mismatch(); terminalize or hold }] *)
Definition attempt_status (s : S) (record : val) (bad : val -> bool) (answer : reply)
    : S * option bucket :=
  match answer with
  | Rejects code => recover s record (is_mismatch code) "status_unavailable"
  | Resolves response =>
      if bad response then recover s record true "status_unavailable"
      else
        match terminalForStatus response#"status" with
        | Some (state, reason) =>
            match terminalize s record state reason with
            | (s, Some b) => (s, Some b)
            | (s, None) => recover s record false "status_unavailable"
            end
        | None => (s, Some Held)
        end
  end.

Definition no_endpoint (s : S) (record : val) : outcome :=
  after [] (terminalize s record "blocked" "authorization_unavailable").

(** *** Forward *)
Definition on_intent_creating (s : S) (record : val) : outcome :=
  match postFarmIntent d with
  | None => no_endpoint s record
  | Some post =>
      let body := intentBody record in
      after [PostFarmIntent body]
        (attempt_step s record "intent_unavailable" (fun ack => negb (ack_valid record ack))
           "intent_creating" "intent_acked" (fun ack => ["jobId" ↦ ack#"jobId"]) (post body))
  end.

Definition on_attach_pending (s : S) (record : val) : outcome :=
  match postFarmAttach d with
  | None => no_endpoint s record
  | Some post =>
      let t := record#"transfer" in
      let body := Obj ["mandateId" ↦ t#"mandateId"; "jobId" ↦ t#"jobId";
                       "burnTxHash" ↦ t#"burnTxHash"] in
      after [PostFarmAttach body]
        (attempt_step s record "attach_unavailable"
           (fun r => differs r#"jobId" t#"jobId" || differs r#"burnTxHash" t#"burnTxHash")
           "attach_pending" "settling" (fun _ => []) (post body))
  end.

Definition on_forward_settling (s : S) (record : val) : outcome :=
  match pollForwardStatus d with
  | None => no_endpoint s record
  | Some poll =>
      let t := record#"transfer" in
      let body := Obj ["mandateId" ↦ t#"mandateId"; "jobId" ↦ t#"jobId"] in
      after [PollForwardStatus body]
        (attempt_status s record
           (fun r => differs r#"jobId" t#"jobId" || differs r#"burnTxHash" t#"burnTxHash")
           (poll body))
  end.

Definition state_is (record : val) (state : string) : bool := strict_eq record#"state" (Str state).

Definition one_forward (s : S) (record : val) : outcome :=
  if state_is record "intent_creating" then on_intent_creating s record
  else if state_is record "intent_acked" then after [] (s, Some Held)
  else if state_is record "burn_submitting"
  then after [] (terminalize s record "uncertain" "burn_submission_unknown")
  else if state_is record "burn_confirmed" then
    match checkpoint s record (Str "burn_confirmed") (Str "attach_pending") [] with
    | (s, Ok record) => on_attach_pending s record
    | (s, Throw _) => after [] (s, None)
    end
  else if state_is record "attach_pending" then on_attach_pending s record
  else if state_is record "settling" then on_forward_settling s record
  else after [] (s, None).

(** *** Reverse *)
Definition on_relay_pending (s : S) (record : val) : outcome :=
  match postUnwindAttach d with
  | None => no_endpoint s record
  | Some post =>
      let t := record#"transfer" in
      let body := Obj ["jobId" ↦ t#"jobId"; "userOpHash" ↦ t#"userOpHash";
                       "unwindTxHash" ↦ t#"unwindTxHash"] in
      after [PostUnwindAttach body]
        (attempt_step s record "unwind_attach_unavailable" (fun r => differs r#"jobId" t#"jobId")
           "relay_pending" "settling" (fun _ => []) (post body))
  end.

Definition on_unwind_confirmed (s : S) (record : val) : outcome :=
  match checkpoint s record (Str "unwind_confirmed") (Str "relay_pending") [] with
  | (s, Ok record) => on_relay_pending s record
  | (s, Throw _) => after [] (s, None)
  end.

Definition on_reverse_settling (s : S) (record : val) : outcome :=
  match pollUnwindStatus d with
  | None => no_endpoint s record
  | Some poll =>
      let t := record#"transfer" in
      let body := Obj ["jobId" ↦ t#"jobId"] in
      after [PollUnwindStatus body]
        (attempt_status s record
           (fun r => negb (strict_eq r#"jobId" t#"jobId")
                     || differs r#"userOpHash" t#"userOpHash"
                     || differs r#"unwindTxHash" t#"unwindTxHash")
           (poll body))
  end.

(** [catch { put held }] around a [terminalize]. *)
Definition or_held (r : S * option bucket) : S * option bucket :=
  match r with (s, Some b) => (s, Some b) | (s, None) => (s, Some Held) end.

Definition evidence_verified (t evidence : val) : bool :=
  strict_eq evidence#"userOpHash" t#"userOpHash"
  && strict_eq evidence#"kernelAddress" t#"kernelAddress"
  && test_or_empty (is_0x_hex 64) evidence#"unwindTxHash"
  && strict_eq evidence#"evidenceStatus" (Str "verified").

Definition on_userop_submitted (s : S) (record : val) : outcome :=
  match reconcileUnwindUserOp d with
  | None => after [] (s, Some Held)
  | Some reconcile =>
      let t := record#"transfer" in
      let body := Obj ["jobId" ↦ t#"jobId"; "userOpHash" ↦ t#"userOpHash";
                       "kernelAddress" ↦ t#"kernelAddress";
                       "recipientHint" ↦ t#"recipientHint"] in
      let calls := [ReconcileUnwindUserOp body] in
      match reconcile body with
      | Rejects _ => after calls (s, Some Held)
      | Resolves evidence =>
          if strict_eq evidence#"status" (Str "pending")
             || strict_eq evidence#"evidenceStatus" (Str "needs_reconcile")
          then after calls (s, Some Held)
          else if strict_eq evidence#"status" (Str "reverted")
          then after calls (or_held (terminalize s record "error" "receipt_reverted"))
          else if negb (evidence_verified t evidence)
          then after calls (or_held (terminalize s record "blocked" "receipt_evidence_unverified"))
          else
            match checkpoint s record (Str "userop_submitted") (Str "unwind_confirmed")
                    ["unwindTxHash" ↦ evidence#"unwindTxHash"] with
            | (s, Ok record) =>
                let '(s, more, b) := on_unwind_confirmed s record in (s, calls ++ more, b)
            | (s, Throw _) => after calls (s, Some Held)
            end
      end
  end.

Definition one_reverse (s : S) (record : val) : outcome :=
  if state_is record "userop_submitting"
  then after [] (terminalize s record "uncertain" "userop_submission_unknown")
  else if state_is record "userop_submitted" then on_userop_submitted s record
  else if state_is record "unwind_confirmed" then on_unwind_confirmed s record
  else if state_is record "relay_pending" then on_relay_pending s record
  else if state_is record "settling" then on_reverse_settling s record
  else after [] (s, None).

Definition one (s : S) (record : val) : outcome :=
  if strict_eq record#"direction" (Str "forward") then one_forward s record
  else one_reverse s record.

(** A record whose state is terminal is only listed. *)
Definition resume_record (s : S) (record : val) : outcome :=
  if among TERMINAL record#"state" then after [] (s, Some Terminal) else one s record.

Fixpoint resume_all (s : S) (records : list val) : S * list call * list (val * option bucket) :=
  match records with
  | [] => (s, [], [])
  | record :: records =>
      let '(s, calls, b) := resume_record s record in
      let '(s, more, rest) := resume_all s records in
      (s, calls ++ more, (record#"requestId", b) :: rest)
  end.

(** The request ids of one list of the summary, sorted. *)
Definition listed (b : bucket) (rs : list (val * option bucket)) : list string :=
  merge_sort String.le
    ((fun r => string_of (coerce r.1)) <$> filter (fun r => r.2 = Some b) rs).

Record summary := {
  resumed : list string; held : list string; terminal : list string;
  uncertain : list string; blocked : list string;
}.

Definition resumePendingCctpTransfers (s : S) (owner limit : val)
    : S * list call * result journal_error summary :=
  match listCctpTransfers s owner limit with
  | (s, Throw e) => (s, [], Throw e)
  | (s, Ok records) =>
      let '(s, calls, rs) := resume_all s records in
      (s, calls, Ok {| resumed := listed Resumed rs; held := listed Held rs;
                       terminal := listed Terminal rs; uncertain := listed Uncertain rs;
                       blocked := listed Blocked rs |})
  end.
End One.
End Strings.
End Resume.

(** ** Lemmas *)
Section ResumeLemmas.
Import Journal Resume.
Local Open Scope string_scope.
Local Open Scope list_scope.
Lemma later_direction a b :
  later a b -> strict_eq b#"direction" (Str "forward") = strict_eq a#"direction" (Str "forward").
Proof. intros Hl. by rewrite (lat_fields _ _ Hl) by set_solver. Qed.

Context {S : Type} `{HS : Storage S} `{SL : !StorageLaws S}.
Context (d : deps) (clock : val -> num).

Lemma checkpoint_spec s s' record from to patch res :
  holds s record -> Forall (fun f => wire f.2) patch ->
  checkpoint clock s record from to patch = (s', res) ->
  (exists r', res = Ok r' /\ later record r' /\ r'#"state" = to /\ holds s' r')
  \/ (exists e, res = Throw e /\ holds s' record).
Proof.
  intros Hh Hp H. pose proof Hh as (raw & _ & _ & _ & Ho & _).
  by eapply (checkpoint_cases s s' record#"owner" record#"requestId").
Qed.

(** What the journal holds after a record was put in a list. *)
Definition settled_as (record r' : val) (b : option bucket) : Prop :=
  match b with
  | Some Resumed => rank record < rank r' /\ among TERMINAL r'#"state" = false
  | Some Held => among TERMINAL r'#"state" = false
  | Some Uncertain => r'#"state" = Str "uncertain"
  | Some Blocked => r'#"state" = Str "blocked"
  | Some Terminal => among TERMINAL r'#"state" = true
  | None => True
  end.

Definition sound (record : val) (s' : S) (b : option bucket) : Prop :=
  exists r', holds s' r' /\ later record r' /\ settled_as record r' b.

Lemma sound_same record s b :
  holds s record -> settled_as record record b -> sound record s b.
Proof. intros Hh Hb. exists record. split_and!; [done|apply later_refl|done]. Qed.

Lemma sound_later record r1 s b : later record r1 -> sound r1 s b -> sound record s b.
Proof.
  intros Hl (r' & Hh & Hl' & Hb). exists r'. split_and!; [done|by eapply later_trans|].
  destruct b as [[]|]; try done. cbn in *. pose proof (lat_rank _ _ Hl). destruct Hb. split; [lia|done].
Qed.

Lemma terminalize_sound s record state reason :
  holds s record -> among TERMINAL (Str state) = true ->
  sound record (terminalize clock s record state reason).1
    (terminalize clock s record state reason).2.
Proof.
  intros Hh Ht. unfold terminalize.
  destruct (checkpoint _ _ _ _ _ _) as [s' res] eqn:E.
  eapply checkpoint_spec in E; [|done|repeat constructor].
  destruct E as [(r' & -> & Hl & Hst & Hh')|(e & -> & Hh')]; cbn.
  - exists r'. split_and!; [done|done|]. unfold bucket_of.
    repeat case_decide; subst; cbn [settled_as]; by rewrite Hst.
  - by apply sound_same.
Qed.

Lemma terminalize_none s record state reason :
  holds s record -> (terminalize clock s record state reason).2 = None ->
  holds (terminalize clock s record state reason).1 record.
Proof.
  intros Hh. unfold terminalize. destruct (checkpoint _ _ _ _ _ _) as [s' res] eqn:E.
  eapply checkpoint_spec in E; [|done|repeat constructor].
  by destruct E as [(r' & -> & _)|(e & -> & Hh')].
Qed.

Lemma recover_sound s record mismatch reason :
  holds s record -> among TERMINAL record#"state" = false ->
  sound record (recover clock s record mismatch reason).1 (recover clock s record mismatch reason).2.
Proof.
  intros Hh Hnt. unfold recover. destruct mismatch; [by apply terminalize_sound|].
  by apply sound_same.
Qed.

Lemma attempt_step_sound s record reason bad from to patch answer :
  holds s record -> record#"state" = Str from -> among TERMINAL (Str from) = false ->
  among TERMINAL (Str to) = false ->
  index_of (states_of record) (Str from) < index_of (states_of record) (Str to) ->
  (forall r, answer = Resolves r -> bad r = false -> Forall (fun f => wire f.2) (patch r)) ->
  sound record (attempt_step clock s record reason bad from to patch answer).1
    (attempt_step clock s record reason bad from to patch answer).2.
Proof.
  intros Hh Hst Hf Ht Hi Hp. unfold attempt_step.
  assert (among TERMINAL record#"state" = false) as Hnt by (by rewrite Hst).
  destruct answer as [response|code]; [|by apply recover_sound].
  destruct (bad response) eqn:Hb; [by apply recover_sound|].
  destruct (checkpoint _ _ _ _ _ _) as [s' res] eqn:E.
  eapply checkpoint_spec in E; [|done|by apply Hp].
  destruct E as [(r' & -> & Hl & Hst' & Hh')|(e & -> & Hh')]; cbn; [|by apply sound_same].
  exists r'. split_and!; [done|done|]. cbn. rewrite Hst', Ht. split; [|done].
  unfold rank. rewrite Hst, Hf, Hst', Ht.
  assert (states_of r' = states_of record) as ->; [|done].
  unfold states_of. rewrite (lat_fields _ _ Hl); [done|set_solver].
Qed.

Lemma terminalForStatus_terminal status state reason :
  terminalForStatus status = Some (state, reason) -> among TERMINAL (Str state) = true.
Proof.
  unfold terminalForStatus. destruct status; try done. intros H.
  repeat case_decide; simplify_eq; try done. by destruct_or!; subst.
Qed.

Lemma attempt_status_sound s record bad answer :
  holds s record -> among TERMINAL record#"state" = false ->
  sound record (attempt_status clock s record bad answer).1
    (attempt_status clock s record bad answer).2.
Proof.
  intros Hh Hnt. unfold attempt_status. destruct answer as [response|code]; [|by apply recover_sound].
  destruct (bad response); [by apply recover_sound|].
  destruct (terminalForStatus _) as [[state reason]|] eqn:Ets; [|by apply sound_same].
  pose proof (terminalize_sound s record state reason Hh (terminalForStatus_terminal _ _ _ Ets)) as Hs.
  pose proof (terminalize_none s record state reason Hh) as Hn.
  destruct (terminalize clock s record state reason) as [s' [b|]]; [done|].
  apply sound_same; [by apply Hn|done].
Qed.

Lemma no_endpoint_sound s record :
  holds s record -> among TERMINAL record#"state" = false ->
  sound record (no_endpoint clock s record).1.1 (no_endpoint clock s record).2.
Proof. intros Hh _. by apply terminalize_sound. Qed.

(** *** The answers of the endpoints are data *)
Definition answers_wire (f : option (val -> reply)) : Prop :=
  forall post body v, f = Some post -> post body = Resolves v -> wire v.

Lemma wire_property v k : wire v -> k <> "length" -> get v k = Undefined \/ wire (get v k).
Proof.
  intros Hv Hk. inversion Hv as [| | | |s|l HF|fs He HF]; subst; cbn; try (by left).
  - left. by rewrite decide_False.
  - left. by rewrite decide_False.
  - destruct (assoc fs k) as [w|] eqn:E; [|by left]. right. cbn. apply assoc_In in E.
    rewrite Forall_forall in HF. exact (HF _ E).
Qed.

Lemma tested_wire re v k :
  wire v -> k <> "length" -> re [] = false -> test_or_empty re (get v k) = true -> wire (get v k).
Proof.
  intros Hv Hk Hre Ht. destruct (wire_property v k Hv Hk) as [E|]; [|done].
  rewrite E in Ht. unfold test_or_empty, test in Ht. cbn in Ht. congruence.
Qed.

Lemma state_is_eq record state : state_is record state = true -> record#"state" = Str state.
Proof. apply strict_eq_Str. Qed.

Lemma forward_states record :
  strict_eq record#"direction" (Str "forward") = true -> states_of record = FORWARD.
Proof. unfold states_of. by intros ->. Qed.

Lemma reverse_states record :
  strict_eq record#"direction" (Str "forward") = false -> states_of record = REVERSE.
Proof. unfold states_of. by intros ->. Qed.

Context (Hintent : answers_wire (postFarmIntent d)).

Lemma on_intent_creating_sound s record :
  holds s record -> strict_eq record#"direction" (Str "forward") = true ->
  record#"state" = Str "intent_creating" ->
  sound record (on_intent_creating d clock s record).1.1 (on_intent_creating d clock s record).2.
Proof.
  intros Hh Hd Hst. unfold on_intent_creating.
  destruct (postFarmIntent d) as [post|] eqn:Ep;
    [|apply no_endpoint_sound; [done|by rewrite Hst]].
  apply attempt_step_sound; try done; [by rewrite forward_states|].
  intros ack Hack Hbad. constructor; [|constructor]. cbn. apply negb_false_iff in Hbad.
  unfold ack_valid in Hbad. rewrite !andb_true_iff in Hbad.
  eapply tested_wire; [by eapply Hintent|done| |apply Hbad]. done.
Qed.

Lemma on_attach_pending_sound s record :
  holds s record -> strict_eq record#"direction" (Str "forward") = true ->
  record#"state" = Str "attach_pending" ->
  sound record (on_attach_pending d clock s record).1.1 (on_attach_pending d clock s record).2.
Proof.
  intros Hh Hd Hst. unfold on_attach_pending.
  destruct (postFarmAttach d); [|apply no_endpoint_sound; [done|by rewrite Hst]].
  apply attempt_step_sound; try done. by rewrite forward_states.
Qed.

Lemma on_relay_pending_sound s record :
  holds s record -> strict_eq record#"direction" (Str "forward") = false ->
  record#"state" = Str "relay_pending" ->
  sound record (on_relay_pending d clock s record).1.1 (on_relay_pending d clock s record).2.
Proof.
  intros Hh Hd Hst. unfold on_relay_pending.
  destruct (postUnwindAttach d); [|apply no_endpoint_sound; [done|by rewrite Hst]].
  apply attempt_step_sound; try done. by rewrite reverse_states.
Qed.

Lemma one_forward_sound s record :
  holds s record -> strict_eq record#"direction" (Str "forward") = true ->
  among TERMINAL record#"state" = false ->
  sound record (one_forward d clock s record).1.1 (one_forward d clock s record).2.
Proof.
  intros Hh Hd Hnt. unfold one_forward.
  destruct (state_is record "intent_creating") eqn:E1.
  { apply on_intent_creating_sound; [done|done|by apply state_is_eq]. }
  destruct (state_is record "intent_acked"); [by apply sound_same|].
  destruct (state_is record "burn_submitting"); [by apply terminalize_sound|].
  destruct (state_is record "burn_confirmed") eqn:E4.
  { destruct (checkpoint _ _ _ _ _ _) as [s' res] eqn:E.
    eapply checkpoint_spec in E; [|done|constructor].
    destruct E as [(r' & -> & Hl & Hst & Hh')|(e & -> & Hh')]; [|by apply sound_same].
    eapply sound_later; [exact Hl|]. apply on_attach_pending_sound; [done| |done].
    by rewrite (later_direction _ _ Hl). }
  destruct (state_is record "attach_pending") eqn:E5.
  { apply on_attach_pending_sound; [done|done|by apply state_is_eq]. }
  destruct (state_is record "settling"); [|by apply sound_same].
  unfold on_forward_settling. destruct (pollForwardStatus d); [|by apply no_endpoint_sound].
  by apply attempt_status_sound.
Qed.

Lemma on_unwind_confirmed_sound s record :
  holds s record -> strict_eq record#"direction" (Str "forward") = false ->
  sound record (on_unwind_confirmed d clock s record).1.1 (on_unwind_confirmed d clock s record).2.
Proof.
  intros Hh Hd. unfold on_unwind_confirmed. destruct (checkpoint _ _ _ _ _ _) as [s' res] eqn:E.
  eapply checkpoint_spec in E; [|done|constructor].
  destruct E as [(r' & -> & Hl & Hst & Hh')|(e & -> & Hh')]; [|by apply sound_same].
  eapply sound_later; [exact Hl|]. apply on_relay_pending_sound; [done| |done].
  by rewrite (later_direction _ _ Hl).
Qed.

Context (Hreconcile : answers_wire (reconcileUnwindUserOp d)).

Lemma or_held_sound s record state reason :
  holds s record -> among TERMINAL record#"state" = false -> among TERMINAL (Str state) = true ->
  sound record (or_held (terminalize clock s record state reason)).1
    (or_held (terminalize clock s record state reason)).2.
Proof.
  intros Hh Hnt Ht. pose proof (terminalize_sound s record state reason Hh Ht) as Hs.
  pose proof (terminalize_none s record state reason Hh) as Hn.
  destruct (terminalize clock s record state reason) as [s' [b|]]; [done|].
  apply sound_same; [by apply Hn|done].
Qed.

Lemma on_userop_submitted_sound s record :
  holds s record -> strict_eq record#"direction" (Str "forward") = false ->
  among TERMINAL record#"state" = false ->
  sound record (on_userop_submitted d clock s record).1.1 (on_userop_submitted d clock s record).2.
Proof.
  intros Hh Hd Hnt. unfold on_userop_submitted.
  destruct (reconcileUnwindUserOp d) as [rec|] eqn:Er; [|by apply sound_same].
  destruct (rec _) as [evidence|code] eqn:Ev; [|by apply sound_same].
  destruct (_ || _); [by apply sound_same|].
  destruct (strict_eq _ (Str "reverted")); [by apply or_held_sound|].
  destruct (evidence_verified record#"transfer" evidence) eqn:Eok; [|by apply or_held_sound].
  cbn [negb]. destruct (checkpoint _ _ _ _ _ _) as [s' res] eqn:E.
  eapply checkpoint_spec in E; [|done|].
  - destruct E as [(r' & -> & Hl & Hst & Hh')|(e & -> & Hh')]; [|by apply sound_same].
    pose proof (on_unwind_confirmed_sound s' r' Hh') as Hs.
    rewrite (later_direction _ _ Hl) in Hs. specialize (Hs Hd).
    destruct (on_unwind_confirmed d clock s' r') as [[s2 more] b]. by eapply sound_later.
  - constructor; [|constructor]. cbn. unfold evidence_verified in Eok.
    rewrite !andb_true_iff in Eok. eapply tested_wire; [by eapply Hreconcile|done| |apply Eok]. done.
Qed.

Lemma one_sound s record :
  holds s record -> among TERMINAL record#"state" = false ->
  sound record (one d clock s record).1.1 (one d clock s record).2.
Proof.
  intros Hh Hnt. unfold one. destruct (strict_eq record#"direction" _) eqn:Hd;
    [by apply one_forward_sound|]. unfold one_reverse.
  destruct (state_is record "userop_submitting"); [by apply terminalize_sound|].
  destruct (state_is record "userop_submitted"); [by apply on_userop_submitted_sound|].
  destruct (state_is record "unwind_confirmed"); [by apply on_unwind_confirmed_sound|].
  destruct (state_is record "relay_pending") eqn:E.
  { apply on_relay_pending_sound; [done|done|by apply state_is_eq]. }
  destruct (state_is record "settling"); [|by apply sound_same].
  unfold on_reverse_settling. destruct (pollUnwindStatus d); [|by apply no_endpoint_sound].
  by apply attempt_status_sound.
Qed.
End ResumeLemmas.

(** ** Properties *)
Section ResumeProperties.
Import Journal Resume.
Local Open Scope string_scope.
Local Open Scope list_scope.
Context {S : Type} `{HS : Storage S} `{SL : !StorageLaws S}.
Context (d : deps) (clock : val -> num).

(** Resuming is sound: for a recorded transfer, whatever the endpoints answer, the
    journal afterwards holds the same transfer in the same or a later state, and the list it
    is put in says what happened: a resumed transfer moved forward and is not over, a held
    one is not over, an uncertain or blocked one is recorded as such, a terminal one is
    over. *)
Theorem resume_sound (s : S) (record : val)
    (Hr : holds s record)
    (Hintent : answers_wire (postFarmIntent d))
    (Hreconcile : answers_wire (reconcileUnwindUserOp d)) :
  exists r', holds (resume_record d clock s record).1.1 r' /\ later record r'
    /\ settled_as record r' (resume_record d clock s record).2.
Proof.
  unfold resume_record. destruct (among TERMINAL record#"state") eqn:Ht.
  - exists record. split_and!; [done|apply later_refl|done].
  - by apply (one_sound d clock Hintent Hreconcile).
Qed.


(** What a call must carry. *)
Definition call_ok (record : val) (c : call) : Prop :=
  match c with
  | PostFarmIntent b => record#"state" = Str "intent_creating" /\ b = intentBody record
  | PostFarmAttach b => test ID b#"jobId" = true /\ test HASH b#"burnTxHash" = true
  | PollForwardStatus b => test ID b#"jobId" = true
  | ReconcileUnwindUserOp b => test EVM_HASH b#"userOpHash" = true
  | PostUnwindAttach b =>
      test EVM_HASH b#"userOpHash" = true /\ test EVM_HASH b#"unwindTxHash" = true
  | PollUnwindStatus b => b#"jobId" = record#"requestId"
  end.

Lemma holds_validate s r : holds s r -> validate r = true.
Proof. by intros (raw & _ & _ & Hv & _). Qed.

Lemma terminalize_calls s record state reason c :
  c ∈ (after [] (terminalize clock s record state reason)).1.2 -> False.
Proof. cbn. by apply not_elem_of_nil. Qed.

Lemma attach_calls s record r1 c :
  holds s r1 -> r1#"direction" = Str "forward" -> r1#"state" = Str "attach_pending" ->
  c ∈ (on_attach_pending d clock s r1).1.2 -> call_ok record c.
Proof.
  intros Hh Hd Hst. unfold on_attach_pending, no_endpoint.
  destruct (postFarmAttach d); cbn; [|by intros ?%not_elem_of_nil].
  intros ->%list_elem_of_singleton.
  destruct (forward_evidence _ (holds_validate _ _ Hh) Hd) as (Hj & Hb & _).
  rewrite Hst in Hj, Hb. split; [apply Hj|apply Hb]; by vm_compute.
Qed.

Lemma relay_calls s record r1 c :
  holds s r1 -> strict_eq r1#"direction" (Str "forward") = false ->
  r1#"state" = Str "relay_pending" ->
  c ∈ (on_relay_pending d clock s r1).1.2 -> call_ok record c.
Proof.
  intros Hh Hd Hst. unfold on_relay_pending, no_endpoint.
  destruct (postUnwindAttach d); cbn; [|by intros ?%not_elem_of_nil].
  intros ->%list_elem_of_singleton.
  destruct (reverse_evidence _ (holds_validate _ _ Hh) Hd) as (_ & Hu & Hw).
  rewrite Hst in Hu, Hw. split; [apply Hu|apply Hw]; by vm_compute.
Qed.

Lemma unwind_calls s record r1 c :
  holds s r1 -> strict_eq r1#"direction" (Str "forward") = false ->
  c ∈ (on_unwind_confirmed d clock s r1).1.2 -> call_ok record c.
Proof.
  intros Hh Hd. unfold on_unwind_confirmed. destruct (checkpoint _ _ _ _ _ _) as [s' res] eqn:E.
  eapply checkpoint_spec in E; [|done|constructor].
  destruct E as [(r' & -> & Hl & Hst & Hh')|(e & -> & _)]; [|cbn; by intros ?%not_elem_of_nil].
  apply relay_calls; [done| |done]. by rewrite (later_direction _ _ Hl).
Qed.

Lemma forward_calls s record c :
  holds s record -> strict_eq record#"direction" (Str "forward") = true ->
  c ∈ (one_forward d clock s record).1.2 -> call_ok record c.
Proof.
  intros Hh Hd. pose proof (strict_eq_eq _ _ Hd) as Hdir. unfold one_forward.
  destruct (state_is record "intent_creating") eqn:E1.
  { unfold on_intent_creating, no_endpoint. destruct (postFarmIntent d); cbn;
      [|by intros ?%not_elem_of_nil].
    intros ->%list_elem_of_singleton. split; [by apply state_is_eq|done]. }
  destruct (state_is record "intent_acked"); [by intros ?%not_elem_of_nil|].
  destruct (state_is record "burn_submitting"); [by intros ?%terminalize_calls|].
  destruct (state_is record "burn_confirmed").
  { destruct (checkpoint _ _ _ _ _ _) as [s' res] eqn:E.
    eapply checkpoint_spec in E; [|done|constructor].
    destruct E as [(r' & -> & Hl & Hst & Hh')|(e & -> & _)]; [|cbn; by intros ?%not_elem_of_nil].
    apply attach_calls; [done| |done]. by rewrite (lat_fields _ _ Hl) by set_solver. }
  destruct (state_is record "attach_pending") eqn:E5.
  { apply attach_calls; [done|done|by apply state_is_eq]. }
  destruct (state_is record "settling") eqn:E6; [|cbn; by intros ?%not_elem_of_nil].
  unfold on_forward_settling, no_endpoint. destruct (pollForwardStatus d); cbn;
    [|by intros ?%not_elem_of_nil].
  intros ->%list_elem_of_singleton. apply state_is_eq in E6.
  destruct (forward_evidence _ (holds_validate _ _ Hh) Hdir) as (Hj & _).
  rewrite E6 in Hj. cbn. apply Hj. by vm_compute.
Qed.

Lemma userop_calls s record c :
  holds s record -> strict_eq record#"direction" (Str "forward") = false ->
  record#"state" = Str "userop_submitted" ->
  answers_wire (reconcileUnwindUserOp d) ->
  c ∈ (on_userop_submitted d clock s record).1.2 -> call_ok record c.
Proof.
  intros Hh Hd Hst Hrec. unfold on_userop_submitted.
  destruct (reverse_evidence _ (holds_validate _ _ Hh) Hd) as (_ & Hu & _).
  rewrite Hst in Hu. specialize (Hu ltac:(by vm_compute)).
  destruct (reconcileUnwindUserOp d) as [rec|] eqn:Er; [|cbn; by intros ?%not_elem_of_nil].
  destruct (rec _) as [evidence|code] eqn:Ev; [|by intros ->%list_elem_of_singleton].
  destruct (_ || _); [by intros ->%list_elem_of_singleton|].
  destruct (strict_eq _ (Str "reverted")); [by intros ->%list_elem_of_singleton|].
  destruct (evidence_verified record#"transfer" evidence) eqn:Eok;
    [|by intros ->%list_elem_of_singleton].
  cbn [negb]. destruct (checkpoint _ _ _ _ _ _) as [s' res] eqn:E.
  eapply checkpoint_spec in E; [|done|].
  - destruct E as [(r' & -> & Hl & _ & Hh')|(e & -> & _)]; [|by intros ->%list_elem_of_singleton].
    pose proof (unwind_calls s' record r' c Hh') as Hc. rewrite (later_direction _ _ Hl) in Hc.
    specialize (Hc Hd). destruct (on_unwind_confirmed d clock s' r') as [[s2 more] b].
    cbn in *. intros [->|Hin]%elem_of_cons; [done|auto].
  - constructor; [|constructor]. cbn. unfold evidence_verified in Eok.
    rewrite !andb_true_iff in Eok. eapply tested_wire; [by eapply Hrec|done| |apply Eok]. done.
Qed.

(** Every call carries recorded evidence: an intent is posted only for a transfer still
    being created and names it exactly, an attach carries the recorded job and burn hash, a
    reconciliation or a relay carries the recorded operation hashes, and a status is asked
    only for the recorded job. *)
Theorem calls_carry_evidence (s : S) (record : val) (c : call)
    (Hr : holds s record) (Hreconcile : answers_wire (reconcileUnwindUserOp d))
    (Hc : c ∈ (resume_record d clock s record).1.2) :
  call_ok record c.
Proof.
  unfold resume_record in Hc. destruct (among TERMINAL record#"state").
  { by apply not_elem_of_nil in Hc. }
  unfold one in Hc. destruct (strict_eq record#"direction" _) eqn:Hd; [by eapply forward_calls|].
  unfold one_reverse in Hc.
  destruct (state_is record "userop_submitting"); [by apply terminalize_calls in Hc|].
  destruct (state_is record "userop_submitted") eqn:E2.
  { eapply userop_calls; [exact Hr|done|by apply state_is_eq|done|done]. }
  destruct (state_is record "unwind_confirmed"); [by eapply unwind_calls|].
  destruct (state_is record "relay_pending") eqn:E4.
  { eapply relay_calls; [exact Hr|done|by apply state_is_eq|exact Hc]. }
  destruct (state_is record "settling"); [|by apply not_elem_of_nil in Hc].
  unfold on_reverse_settling, no_endpoint in Hc.
  destruct (pollUnwindStatus d); cbn in Hc; [|by apply not_elem_of_nil in Hc].
  apply list_elem_of_singleton in Hc as ->.
  by destruct (reverse_evidence _ (holds_validate _ _ Hr) Hd) as (Hj & _).
Qed.
End ResumeProperties.

(** ** Witnesses *)
Section ResumeWitnesses.
Import Journal Resume.
Local Open Scope string_scope.
Local Open Scope list_scope.

(** Endpoints that acknowledge an intent with a job, and answer nothing else. *)
Definition sample_deps : deps := {|
  postFarmIntent := Some (fun _ => Resolves
    (Obj ["acknowledged" ↦ Bool true; "schemaVersion" ↦ Number (Num 1); "jobId" ↦ Str hex32]));
  postFarmAttach := None; postUnwindAttach := None; pollForwardStatus := None;
  pollUnwindStatus := None; reconcileUnwindUserOp := None |}.

Definition sample_clock (to : val) : num := Num 5000.

Lemma sample_answers : answers_wire (postFarmIntent sample_deps)
  /\ answers_wire (reconcileUnwindUserOp sample_deps).
Proof.
  split; [|intros post body v [=]]. intros post body v [= <-] [= <-].
  apply wire_obj; [vm_compute; reflexivity|].
  repeat constructor.
Defined.

Definition created : val := sample_record "intent_creating" Null Null.

Lemma resume_sound_witness :
  exists r', holds (resume_record sample_deps sample_clock sample_storage created).1.1 r'
    /\ later created r'
    /\ settled_as created r' (resume_record sample_deps sample_clock sample_storage created).2.
Proof.
  apply (resume_sound (S := memory) sample_deps sample_clock sample_storage created sample_holds);
    apply sample_answers.
Defined.

(** The endpoint acknowledges, and the transfer is resumed. *)
Example sample_resumed :
  (resume_record (S := memory) sample_deps sample_clock sample_storage created).2 = Some Resumed.
Proof. vm_compute. reflexivity. Qed.

Definition submitting_storage : memory :=
  foldl exec sample_storage
    [Checkpoint (Str account) (Str hex32) (Str "intent_creating") (Str "intent_acked")
       ["jobId" ↦ Str hex32] (Num 2000);
     Checkpoint (Str account) (Str hex32) (Str "intent_acked") (Str "burn_submitting") []
       (Num 2500)].

Definition submitting : val :=
  match readCctpTransfer false submitting_storage (Str account) (Str hex32) with
  | (_, Ok (Some r)) => r
  | _ => Undefined
  end.

Lemma submitting_holds : holds submitting_storage submitting.
Proof.
  eexists. split_and!; [vm_compute; reflexivity|vm_compute; reflexivity|vm_compute; reflexivity|
    vm_compute; reflexivity|vm_compute; reflexivity].
Defined.


Lemma calls_carry_evidence_witness :
  call_ok created (PostFarmIntent (intentBody created)).
Proof.
  apply (calls_carry_evidence (S := memory) sample_deps sample_clock sample_storage created _
    sample_holds).
  - apply sample_answers.
  - vm_compute. left.
Defined.
End ResumeWitnesses.

