(* ===== verification/FlowState.v ===== *)
(** * The three moments of a strategy: plan, protect, start

    Models [frontend/src/strategy/flowState.js].  The reducer is a partial function: [None]
    where it returns the state it was given, the same reference.  Plans, decisions and errors
    are values the reducer stores as they are; a lane's record is keyed by its allocation id.
    The agents of a plan are objects. *)
From S2P Require Export JsValue.

Module Flow.
Section Strings.
Local Open Scope string_scope.
Local Open Scope list_scope.

Inductive moment := AtPlan | AtProtect | AtStart.
Inductive plan_status := PlanIdle | Loading | Ready | PlanFailed.
Inductive permission_status :=
| Idle | Preflight_ready | Grant_requested | Rejected | Grant_confirmed | Reuse_confirmed.

#[global] Instance moment_eq_dec : EqDecision moment.
Proof. solve_decision. Defined.
#[global] Instance permission_status_eq_dec : EqDecision permission_status.
Proof. solve_decision. Defined.

(** The custody of one allocation: [{ ...row, status }], the other fields [undefined] until
    an event sets them. *)
Record row := { status : string; error : val; jobId : val }.

Record state := {
  at_moment : moment;
  plan : val;
  planStatus : plan_status;
  planError : val;
  permission : val;
  permissionStatus : permission_status;
  permissionError : val;
  protectMessage : val;
  retryable : bool;
  custody : gmap string row;
  attestation : val;
}.

Definition initialStrategyFlowState : state := {|
  at_moment := AtPlan; plan := Null; planStatus := PlanIdle; planError := Null;
  permission := Null; permissionStatus := Idle; permissionError := Null;
  protectMessage := Null; retryable := false; custody := ∅; attestation := Null |}.

(** The events, with the fields the reducer reads; [Other] is any other type, or none. *)
Inductive event :=
| PLAN_REQUESTED
| PLAN_READY (plan : val)
| PLAN_FAILED (error : val)
| PROTECT_OPENED
| PERMISSION_WINDOW_BOUND (plan : val)
| PREFLIGHT_READY (decision : val)
| PREFLIGHT_FAILED (error : val)
| GRANT_REQUESTED
| WALLET_REJECTED (reason error : val)
| WALLET_FAILED (reason error : val)
| GRANT_CONFIRMED
| REUSE_CONFIRMED
| WORKER_QUEUED (allocationId : val)
| WORKER_STARTED (allocationId : val)
| PULL_CONFIRMED (allocationId : val)
| PULL_FAILED (allocationId error : val)
| DEPOSIT_CONFIRMED (allocationId : val)
| DEPOSIT_FAILED (allocationId error : val)
| BASE_JOB_UPDATED (allocationId status jobId : val)
| ATTESTATION_RECEIVED (attestation : val)
| Other.

Definition planHasEligibleAgent (plan : val) : bool :=
  match plan#"agents" with Arr (_ :: _) => true | _ => false end.

Definition KNOWN_BASE_JOB_STATUSES : list string := ["submitted"; "bridged"; "bridge-failed"].
Definition CUSTODY_TERMINAL : list string := ["deposited"; "failed"; "bridged"; "bridge-failed"].

Definition known_job_status (status : val) : string :=
  match status with
  | Str s => if decide (s ∈ KNOWN_BASE_JOB_STATUSES) then s else "unknown"
  | _ => "unknown"
  end.

(** A value as a property key. *)
Definition key_of (allocationId : val) : string := string_of (coerce allocationId).

(** [custody[allocationId]?.status] *)
Definition status_of (custody : gmap string row) (allocationId : val) : option string :=
  status <$> custody !! key_of allocationId.

Definition terminal (status : option string) : bool :=
  match status with Some s => bool_decide (s ∈ CUSTODY_TERMINAL) | None => false end.

Definition with_status (r : option row) (s : string) : row :=
  match r with
  | Some r => {| status := s; error := error r; jobId := jobId r |}
  | None => {| status := s; error := Undefined; jobId := Undefined |}
  end.
Definition with_error (r : row) (e : val) : row :=
  {| status := status r; error := e; jobId := jobId r |}.
Definition with_job (r : row) (j : val) : row :=
  {| status := status r; error := error r; jobId := j |}.

(** The allocation an event is about, and its new record from the one it had. *)
Definition lane_event (e : event) : option (val * (option row -> row)) :=
  match e with
  | WORKER_QUEUED a => Some (a, fun r => with_status r "queued")
  | WORKER_STARTED a => Some (a, fun r => with_status r "started")
  | PULL_CONFIRMED a => Some (a, fun r => with_status r "pulled")
  | PULL_FAILED a err => Some (a, fun r => with_error (with_status r "failed") (coalesce err Null))
  | DEPOSIT_CONFIRMED a => Some (a, fun r => with_status r "deposited")
  | DEPOSIT_FAILED a err => Some (a, fun r => with_error (with_status r "failed") (coalesce err Null))
  | BASE_JOB_UPDATED a s j => Some (a, fun r => with_job (with_status r (known_job_status s)) j)
  | _ => None
  end.

Definition applyCustodyEvent (custody : gmap string row) (e : event) : gmap string row :=
  match lane_event e with
  | Some (a, f) =>
      if truthy a then <[key_of a := f (custody !! key_of a)]> custody else custody
  | None => custody
  end.

(** [{ ...s, custody }] and the like. *)
Definition set_custody (s : state) (c : gmap string row) : state := {|
  at_moment := at_moment s; plan := plan s; planStatus := planStatus s;
  planError := planError s; permission := permission s;
  permissionStatus := permissionStatus s; permissionError := permissionError s;
  protectMessage := protectMessage s; retryable := retryable s; custody := c;
  attestation := attestation s |}.

Definition set_attestation (s : state) (a : val) : state := {|
  at_moment := at_moment s; plan := plan s; planStatus := planStatus s;
  planError := planError s; permission := permission s;
  permissionStatus := permissionStatus s; permissionError := permissionError s;
  protectMessage := protectMessage s; retryable := retryable s; custody := custody s;
  attestation := a |}.

Definition set_plan (s : state) (p : val) (st : plan_status) (err : val) : state := {|
  at_moment := at_moment s; plan := p; planStatus := st; planError := err;
  permission := permission s; permissionStatus := permissionStatus s;
  permissionError := permissionError s; protectMessage := protectMessage s;
  retryable := retryable s; custody := custody s; attestation := attestation s |}.

(** The protect fields, [moment] included. *)
Definition set_protect (s : state) (m : moment) (p : val) (st : permission_status)
    (err msg : val) (retry : bool) : state := {|
  at_moment := m; plan := plan s; planStatus := planStatus s; planError := planError s;
  permission := p; permissionStatus := st; permissionError := err; protectMessage := msg;
  retryable := retry; custody := custody s; attestation := attestation s |}.

Definition nothing_moved : val := Str "Nothing moved".

Definition at_ (m : moment) (s : state) : bool := bool_decide (at_moment s = m).
Definition has_status (st : permission_status) (s : state) : bool :=
  bool_decide (permissionStatus s = st).

(** [if (!guard) return state] *)
Definition when (guard : bool) (s : state) : option state := if guard then Some s else None.

Definition step (s : state) (e : event) : option state :=
  match e with
  | PLAN_REQUESTED => when (at_ AtPlan s) (set_plan s (plan s) Loading Null)
  | PLAN_READY p => when (at_ AtPlan s) (set_plan s p Ready Null)
  | PLAN_FAILED err => when (at_ AtPlan s) (set_plan s (plan s) PlanFailed (coalesce err Null))
  | PROTECT_OPENED =>
      when (at_ AtPlan s)
        (if planHasEligibleAgent (plan s)
         then set_protect s AtProtect (permission s) Idle (permissionError s) Null false
         else set_plan s (plan s) PlanFailed (Str "no-eligible-agents"))
  | PERMISSION_WINDOW_BOUND p =>
      when (at_ AtProtect s && planHasEligibleAgent p)
        (set_protect (set_plan s p (planStatus s) (planError s)) AtProtect Null Idle Null Null false)
  | PREFLIGHT_READY d =>
      when (at_ AtProtect s) (set_protect s AtProtect d Preflight_ready Null Null false)
  | PREFLIGHT_FAILED err =>
      when (at_ AtProtect s)
        (set_protect s AtProtect Null Idle (coalesce err Null) nothing_moved true)
  | GRANT_REQUESTED =>
      when (at_ AtProtect s && (has_status Preflight_ready s || has_status Rejected s))
        (set_protect s AtProtect (permission s) Grant_requested (permissionError s) Null false)
  | WALLET_REJECTED reason err | WALLET_FAILED reason err =>
      when (at_ AtProtect s && has_status Grant_requested s)
        (set_protect s AtProtect (permission s) Rejected
           (coalesce reason (coalesce err Null)) nothing_moved true)
  | GRANT_CONFIRMED =>
      when (at_ AtProtect s && has_status Grant_requested s)
        (set_protect s AtStart (permission s) Grant_confirmed Null Null (retryable s))
  | REUSE_CONFIRMED =>
      when (at_ AtProtect s && has_status Preflight_ready s
            && strict_eq (permission s)#"mode" (Str "reuse"))
        (set_protect s AtStart (permission s) Reuse_confirmed Null Null (retryable s))
  | WORKER_STARTED a =>
      when (at_ AtStart s && bool_decide (status_of (custody s) a = Some "queued"))
        (set_custody s (applyCustodyEvent (custody s) e))
  | WORKER_QUEUED a =>
      when (at_ AtStart s && negb (terminal (status_of (custody s) a)))
        (set_custody s (applyCustodyEvent (custody s) e))
  | PULL_CONFIRMED _ | PULL_FAILED _ _ | DEPOSIT_CONFIRMED _ | DEPOSIT_FAILED _ _
  | BASE_JOB_UPDATED _ _ _ =>
      when (at_ AtStart s) (set_custody s (applyCustodyEvent (custody s) e))
  | ATTESTATION_RECEIVED a => Some (set_attestation s (coalesce a Null))
  | Other => None
  end.

Definition strategyFlowReducer (s : state) (e : event) : state := default s (step s e).

Definition isReceiptComplete (s : state) : bool :=
  match (plan s)#"agents" with
  | Arr (a :: agents) =>
      forallb (fun a => terminal (status_of (custody s) a#"allocationId")) (a :: agents)
  | _ => false
  end.

(** The state after a sequence of events. *)
Definition run (es : list event) : state := foldl strategyFlowReducer initialStrategyFlowState es.
End Strings.
End Flow.

(** ** Lemmas *)

Lemma when_Some g (s s' : Flow.state) : Flow.when g s = Some s' <-> g = true /\ s = s'.
Proof. destruct g; cbn; naive_solver. Qed.

(** From an applied event, the guard it passed and the state it gave. *)
Ltac applied H :=
  first [ discriminate H
        | apply when_Some in H as [Hg <-]
        | injection H as <- ].

Section FlowLemmas.
Import Flow.
Local Open Scope string_scope.
Local Open Scope list_scope.

Lemma run_snoc es e : run (es ++ [e]) = strategyFlowReducer (run es) e.
Proof. unfold run. by rewrite foldl_app. Qed.

Lemma at_spec m s : at_ m s = true <-> at_moment s = m.
Proof. apply bool_decide_eq_true. Qed.

(** An event is applied, or nothing happens. *)
Lemma reducer_cases s e :
  (exists s', step s e = Some s' /\ strategyFlowReducer s e = s')
  \/ (step s e = None /\ strategyFlowReducer s e = s).
Proof. unfold strategyFlowReducer. destruct (step s e); [left|right]; eauto. Qed.

(** *** The review behind a permission *)

(** Events after which a reviewed decision still stands. *)
Definition keeps_review (e : event) : Prop :=
  match e with
  | PREFLIGHT_READY _ | PREFLIGHT_FAILED _ => False
  | PERMISSION_WINDOW_BOUND p => planHasEligibleAgent p = false
  | _ => True
  end.

(** The decision [d] was reviewed at Protect, for the plan [p], and nothing replaced or
    cleared it since; with [requested], a grant was then asked for. *)
Definition reviewed (es : list event) (d p : val) (requested : bool) : Prop :=
  exists before since,
    es = before ++ PREFLIGHT_READY d :: since
    /\ at_moment (run before) = AtProtect /\ plan (run before) = p
    /\ Forall keeps_review since
    /\ (requested = true -> GRANT_REQUESTED ∈ since).

Lemma reviewed_snoc es d p q e :
  reviewed es d p q -> keeps_review e -> reviewed (es ++ [e]) d p q.
Proof.
  intros (b & since & -> & Hm & Hp & HF & Hq) He. exists b, (since ++ [e]). split_and!; try done.
  - by rewrite <- app_assoc.
  - by apply Forall_app_2; [|constructor].
  - intros H. apply elem_of_app. left. auto.
Qed.

Lemma reviewed_request es d p q :
  reviewed es d p q -> reviewed (es ++ [GRANT_REQUESTED]) d p true.
Proof.
  intros (b & since & -> & Hm & Hp & HF & _). exists b, (since ++ [GRANT_REQUESTED]).
  split_and!; try done.
  - by rewrite <- app_assoc.
  - by apply Forall_app_2; [|constructor].
  - intros _. apply elem_of_app. right. left.
Qed.

(** The confirmation that opens Start. *)
Definition confirms (s : state) (e : event) : Prop :=
  at_moment s = AtProtect
  /\ ((e = GRANT_CONFIRMED /\ permissionStatus s = Grant_requested)
      \/ (e = REUSE_CONFIRMED /\ permissionStatus s = Preflight_ready
          /\ (permission s)#"mode" = Str "reuse")).

Definition by_grant (e : event) : bool :=
  match e with GRANT_CONFIRMED => true | _ => false end.

(** What a run that reached a moment has been through. *)
Definition history (es : list event) (s : state) : Prop :=
  match at_moment s with
  | AtPlan => custody s = ∅ /\ permissionStatus s = Idle
  | AtProtect =>
      custody s = ∅ /\ planHasEligibleAgent (plan s) = true
      /\ match permissionStatus s with
         | Idle => True
         | Preflight_ready => reviewed es (permission s) (plan s) false
         | Grant_requested | Rejected => reviewed es (permission s) (plan s) true
         | _ => False
         end
  | AtStart =>
      exists before e after,
        es = before ++ e :: after /\ confirms (run before) e
        /\ planHasEligibleAgent (plan s) = true
        /\ reviewed before (permission s) (plan s) (by_grant e)
  end.

Lemma history_later es s e :
  at_moment s = AtStart -> history es s -> history (es ++ [e]) s.
Proof.
  unfold history. intros -> (b & c & a & -> & H). exists b, c, (a ++ [e]).
  split; [by rewrite <- app_assoc|done].
Qed.

Lemma history_same es s s' :
  at_moment s' = at_moment s -> custody s' = custody s -> plan s' = plan s ->
  permission s' = permission s -> permissionStatus s' = permissionStatus s ->
  history es s -> history es s'.
Proof. unfold history. by intros -> -> -> -> ->. Qed.

(** Each applied event keeps the history, by the moment it applies at. *)
Lemma history_plan es e s' :
  history es (run es) -> at_moment (run es) = AtPlan ->
  step (run es) e = Some s' -> history (es ++ [e]) s'.
Proof.
  intros Hh Hm Hs. unfold history in Hh. rewrite Hm in Hh. destruct Hh as [Hc Hst].
  unfold step, at_ in Hs. rewrite Hm in Hs.
  destruct e; cbn in Hs; applied Hs;
    try (unfold history; cbn; rewrite Hm; done).
  destruct (planHasEligibleAgent (plan (run es))) eqn:Ep;
    [done|unfold history; cbn; by rewrite Hm].
Qed.

Lemma history_protect es e s' :
  history es (run es) -> at_moment (run es) = AtProtect ->
  step (run es) e = Some s' -> history (es ++ [e]) s'.
Proof.
  intros Hh Hm Hs. pose proof Hh as Hh'. unfold history in Hh. rewrite Hm in Hh.
  destruct Hh as (Hc & Hp & Hr). unfold step, at_, has_status in Hs. rewrite Hm in Hs.
  destruct e; cbn in Hs; applied Hs; unfold history; cbn; try done.
  - (* the decision is reviewed *)
    split_and!; [done|done|]. exists es, []. split_and!; done.
  - split_and!; [done|done|]. apply orb_prop in Hg as [Hg|Hg]; apply bool_decide_eq_true in Hg;
      rewrite Hg in Hr; by eapply reviewed_request.
  - split_and!; [done|done|]. apply bool_decide_eq_true in Hg. rewrite Hg in Hr.
    by apply reviewed_snoc.
  - split_and!; [done|done|]. apply bool_decide_eq_true in Hg. rewrite Hg in Hr.
    by apply reviewed_snoc.
  - apply bool_decide_eq_true in Hg. rewrite Hg in Hr. exists es, GRANT_CONFIRMED, [].
    split_and!; try done. split; [done|by left].
  - apply andb_prop in Hg as [Hg Hmode]. apply bool_decide_eq_true in Hg. rewrite Hg in Hr.
    apply strict_eq_eq in Hmode. exists es, REUSE_CONFIRMED, [].
    split_and!; try done. split; [done|by right].
  - rewrite Hm. split_and!; [done|done|]. destruct (permissionStatus (run es)); try done;
      by apply reviewed_snoc.
Qed.

Lemma history_start es e s' :
  history es (run es) -> at_moment (run es) = AtStart ->
  step (run es) e = Some s' -> history (es ++ [e]) s'.
Proof.
  intros Hh Hm Hs. unfold step, at_ in Hs. rewrite Hm in Hs.
  apply (history_later _ _ e Hm) in Hh. unfold history in Hh. rewrite Hm in Hh.
  destruct e; cbn in Hs; applied Hs;
    unfold history; cbn; rewrite Hm; done.
Qed.

Lemma history_idle es e :
  history es (run es) -> step (run es) e = None -> history (es ++ [e]) (run es).
Proof.
  intros Hh Hs. destruct (at_moment (run es)) eqn:Hm; [|..].
  - unfold history in *. by rewrite Hm in *.
  - unfold history in *. rewrite Hm in *. destruct Hh as (Hc & Hp & Hr).
    split_and!; [done|done|].
    assert (keeps_review e).
    { destruct e; try done; unfold step, at_ in Hs; rewrite Hm in Hs; cbn in Hs; [|done..].
      cbn. by destruct (planHasEligibleAgent plan0). }
    destruct (permissionStatus (run es)); try done; by apply reviewed_snoc.
  - by apply history_later.
Qed.

Lemma run_history es : history es (run es).
Proof.
  induction es as [|e es IH] using rev_ind; [done|]. rewrite run_snoc.
  destruct (reducer_cases (run es) e) as [(s' & Hs & ->)|[Hs ->]]; [|by apply history_idle].
  destruct (at_moment (run es)) eqn:Hm;
    [by eapply history_plan|by eapply history_protect|by eapply history_start].
Qed.

(** *** Lanes *)
Lemma applyCustodyEvent_lookup c e k :
  applyCustodyEvent c e !! k = c !! k
  \/ (exists a f, lane_event e = Some (a, f) /\ key_of a = k
         /\ applyCustodyEvent c e !! k = Some (f (c !! k))).
Proof.
  unfold applyCustodyEvent. destruct (lane_event e) as [[a f]|]; [|by left].
  destruct (truthy a); [|by left].
  destruct (decide (key_of a = k)) as [<-|Hk].
  - right. exists a, f. by rewrite lookup_insert_eq.
  - left. by rewrite lookup_insert_ne.
Qed.

(** The reports that end a lane. *)
Definition ends_lane (e : event) (k : string) : Prop :=
  match e with
  | PULL_FAILED a _ | DEPOSIT_CONFIRMED a | DEPOSIT_FAILED a _ => key_of a = k
  | BASE_JOB_UPDATED a s _ => key_of a = k /\ (s = Str "bridged" \/ s = Str "bridge-failed")
  | _ => False
  end.

Lemma status_with_status r s : status (with_status r s) = s.
Proof. by destruct r. Qed.

Lemma known_terminal s :
  known_job_status s ∈ CUSTODY_TERMINAL -> s = Str "bridged" \/ s = Str "bridge-failed".
Proof.
  unfold known_job_status. destruct s as [| | | | | |s| |]; try (by intros H; vm_compute in H; set_solver).
  case_decide as Hk; [|intros H; vm_compute in H; set_solver].
  unfold KNOWN_BASE_JOB_STATUSES in Hk. intros H.
  repeat (apply elem_of_cons in Hk as [->|Hk]); try (by apply not_elem_of_nil in Hk);
    [vm_compute in H; set_solver|by left|by right].
Qed.

Lemma lane_ends e a f r :
  lane_event e = Some (a, f) -> terminal (Some (status (f r))) = true -> ends_lane e (key_of a).
Proof.
  intros He Ht. destruct e; cbn in He; simplify_eq; cbn in Ht |- *; try done;
    rewrite ?status_with_status in Ht; try (by vm_compute in Ht).
  apply bool_decide_eq_true in Ht. split; [done|by apply known_terminal].
Qed.

Lemma step_custody s e s' :
  step s e = Some s' ->
  custody s' = custody s \/ (at_moment s = AtStart /\ custody s' = applyCustodyEvent (custody s) e).
Proof.
  intros Hs. destruct e; cbn in Hs; applied Hs; cbn; try (by left);
    try (right; split; [|done]; apply at_spec; revert Hg; by destruct (at_ AtStart s)).
  left. by destruct (planHasEligibleAgent _).
Qed.

Lemma lane_evidence es k :
  terminal (status <$> custody (run es) !! k) = true ->
  exists before e after, es = before ++ e :: after /\ at_moment (run before) = AtStart
    /\ ends_lane e k.
Proof.
  induction es as [|e es IH] using rev_ind; [done|]. rewrite run_snoc.
  assert (forall c : gmap string row, c !! k = custody (run es) !! k -> terminal (status <$> c !! k) = true ->
    exists before e0 after, es ++ [e] = before ++ e0 :: after /\ at_moment (run before) = AtStart
      /\ ends_lane e0 k) as Hold.
  { intros c -> Ht. destruct (IH Ht) as (b & e0 & a & -> & H).
    exists b, e0, (a ++ [e]). by rewrite <- app_assoc. }
  destruct (reducer_cases (run es) e) as [(s' & Hs & ->)|[_ ->]]; [|by apply Hold].
  destruct (step_custody _ _ _ Hs) as [E|[Hm E]]; rewrite E; [by apply Hold|].
  destruct (applyCustodyEvent_lookup (custody (run es)) e k) as [E'|(a & f & He & <- & ->)];
    [by apply Hold|].
  cbn [fmap option_fmap option_map]. intros Ht. exists es, e, []. split_and!; [done|done|].
  by eapply lane_ends.
Qed.

(** A report that takes a finished lane back. *)
Definition late (e : event) : Prop :=
  match e with
  | PULL_CONFIRMED _ => True
  | BASE_JOB_UPDATED _ s _ => terminal (Some (known_job_status s)) = false
  | _ => False
  end.

Lemma lane_stable s e k :
  ~ late e -> at_moment s = AtStart -> terminal (status <$> custody s !! k) = true ->
  terminal (status <$> custody (strategyFlowReducer s e) !! k) = true.
Proof.
  intros Hl Hm Ht. destruct (reducer_cases s e) as [(s' & Hs & ->)|[_ ->]]; [|done].
  destruct (step_custody _ _ _ Hs) as [->|[_ E]]; [done|]. rewrite E.
  destruct (applyCustodyEvent_lookup (custody s) e k) as [->|(a & f & He & <- & ->)]; [done|].
  destruct e; cbn in He; simplify_eq; cbn in Hs |- *; rewrite ?status_with_status;
    try (by vm_compute).
  - unfold status_of in Hs. by rewrite Ht, andb_false_r in Hs.
  - apply when_Some in Hs as [Hs _]. apply andb_prop in Hs as [_ Hs].
    apply bool_decide_eq_true in Hs. unfold status_of in Hs. by rewrite Hs in Ht.
  - destruct (terminal (Some (known_job_status status0))) eqn:E2; [done|]. by destruct Hl.
Qed.

Lemma start_frozen s e :
  at_moment s = AtStart ->
  at_moment (strategyFlowReducer s e) = AtStart /\ plan (strategyFlowReducer s e) = plan s
  /\ permission (strategyFlowReducer s e) = permission s.
Proof.
  intros Hm. destruct (reducer_cases s e) as [(s' & Hs & ->)|[_ ->]]; [|done].
  unfold step, at_ in Hs. rewrite Hm in Hs.
  destruct e; cbn in Hs; applied Hs; done.
Qed.

Lemma complete_lanes s :
  isReceiptComplete s = true ->
  exists a agents, (plan s)#"agents" = Arr (a :: agents)
    /\ forall a', a' ∈ a :: agents -> terminal (status_of (custody s) a'#"allocationId") = true.
Proof.
  unfold isReceiptComplete. destruct ((plan s)#"agents") as [| | | | | | |[|a agents]|]; try done.
  rewrite forallb_Forall, Forall_forall. intros H. by exists a, agents.
Qed.
End FlowLemmas.

(** ** Properties *)
Section FlowProperties.
Import Flow.
Local Open Scope string_scope.
Local Open Scope list_scope.

(** Start is entered only through a confirmation: when a run is at Start, one event of
    it confirmed, at Protect, either a grant that was requested or a reuse that was
    preflighted in reuse mode; the permission in force is a decision that was reviewed before
    that for the very plan that is started, nothing having replaced or cleared it, and for a
    grant the request came after the review. *)
Theorem start_requires_confirmation (es : list event)
    (Hs : at_moment (run es) = AtStart) :
  exists before e after,
    es = before ++ e :: after /\ confirms (run before) e
    /\ planHasEligibleAgent (plan (run es)) = true
    /\ reviewed before (permission (run es)) (plan (run es)) (by_grant e).
Proof. pose proof (run_history es) as H. unfold history in H. by rewrite Hs in H. Qed.

(** A complete receipt is evidence: when the receipt of a run is complete, its plan has
    agents, and for each of them, by its own allocation id, a report that ends its lane
    arrived after Start was entered. *)
Theorem receipt_evidence (es : list event) (Hc : isReceiptComplete (run es) = true) :
  exists a agents, (plan (run es))#"agents" = Arr (a :: agents)
    /\ forall a', a' ∈ a :: agents ->
         exists before e after, es = before ++ e :: after /\ at_moment (run before) = AtStart
           /\ ends_lane e (key_of a'#"allocationId").
Proof.
  destruct (complete_lanes _ Hc) as (a & agents & E & H). exists a, agents. split; [done|].
  intros a' Ha. by apply lane_evidence, H.
Qed.

(** A complete receipt stays complete: at Start the plan is frozen, and no event takes a
    complete receipt back but a late confirmation of a pull or a late report of a job that is
    not over. *)
Theorem receipt_stable (s : state) (e : event)
    (Hm : at_moment s = AtStart) (Hc : isReceiptComplete s = true) (Hl : ~ late e) :
  isReceiptComplete (strategyFlowReducer s e) = true.
Proof.
  destruct (complete_lanes _ Hc) as (a & agents & E & H).
  destruct (start_frozen s e Hm) as (_ & Hp & _).
  unfold isReceiptComplete. rewrite Hp, E. apply forallb_Forall, Forall_forall.
  intros a' Ha. apply lane_stable; [done|done|]. by apply H.
Qed.
End FlowProperties.

(** ** Witnesses *)
Section FlowWitnesses.
Import Flow.
Local Open Scope string_scope.
Local Open Scope list_scope.

Definition sample_plan : val :=
  Obj ["agents" ↦ Arr [Obj ["allocationId" ↦ Str "run:deposit:0"];
                       Obj ["allocationId" ↦ Str "run:bridge:base"]]].

Definition sample_events : list event :=
  [PLAN_READY sample_plan; PROTECT_OPENED; PREFLIGHT_READY (Obj ["mode" ↦ Str "fresh"]);
   GRANT_REQUESTED; WALLET_REJECTED (Str "declined") Undefined; GRANT_REQUESTED; GRANT_CONFIRMED;
   WORKER_QUEUED (Str "run:deposit:0"); WORKER_STARTED (Str "run:deposit:0");
   PULL_CONFIRMED (Str "run:deposit:0"); DEPOSIT_CONFIRMED (Str "run:deposit:0");
   BASE_JOB_UPDATED (Str "run:bridge:base") (Str "bridged") (Str "job")].

Lemma start_requires_confirmation_witness :
  exists before e after,
    sample_events = before ++ e :: after /\ confirms (run before) e
    /\ planHasEligibleAgent (plan (run sample_events)) = true
    /\ reviewed before (permission (run sample_events)) (plan (run sample_events))
         (by_grant e).
Proof. apply start_requires_confirmation. vm_compute. reflexivity. Defined.

Lemma receipt_evidence_witness :
  exists a agents, (plan (run sample_events))#"agents" = Arr (a :: agents)
    /\ forall a', a' ∈ a :: agents ->
         exists before e after, sample_events = before ++ e :: after
           /\ at_moment (run before) = AtStart /\ ends_lane e (key_of a'#"allocationId").
Proof. apply receipt_evidence. vm_compute. reflexivity. Defined.

Lemma receipt_stable_witness :
  isReceiptComplete
    (strategyFlowReducer (run sample_events) (WORKER_QUEUED (Str "run:deposit:0"))) = true.
Proof.
  apply receipt_stable; [vm_compute; reflexivity|vm_compute; reflexivity|]. intros [].
Defined.

(** A pull confirmed after its deposit takes a complete receipt back. *)
Example late_pull :
  isReceiptComplete (run sample_events) = true
  /\ isReceiptComplete (run (sample_events ++ [PULL_CONFIRMED (Str "run:deposit:0")])) = false.
Proof. split; vm_compute; reflexivity. Qed.
End FlowWitnesses.
