(* ===== verification/Venue.v ===== *)
(** * Venues told truthfully

    Models [frontend/src/strategy/venueTruth.js]: the normalisation of any record shaped like
    a venue into the one record the interface may show, and the guards on top of it.  A
    fractional time stamp is compared with the clock exactly. *)
From S2P Require Export JsValue Json.

Module Venue.
Section Strings.
Local Open Scope string_scope.
Local Open Scope list_scope.

Definition STELLAR_LIVE : string := "stellar-live".
Definition BASE_CUSTODY_PROXY : string := "base-custody-proxy".
Definition STELLAR_TESTNET : string := "stellar-testnet".
Definition BASE_SEPOLIA : string := "base-sepolia".

Definition STELLAR_DESTINATION : string := "Autofarm Vault to Blend Capital v2".
Definition STELLAR_LIVE_DISCLOSURE : string :=
  "Vibing Farmer Autofarm supplies to Blend Capital v2 on Stellar testnet.".
Definition BASE_PROXY_DISCLOSURE : string := "Base Sepolia proxy. Custody only. No protocol yield.".

Definition NONE_YIELD : val := Obj ["state" ↦ Str "none"; "apy" ↦ Null].
Definition UNAVAILABLE_YIELD : val := Obj ["state" ↦ Str "unavailable"; "apy" ↦ Null].

Definition MAX_LIVE_YIELD_AGE_MS : Z := 6 * 60 * 60 * 1000.

(** The error of contradictory signals, which quotes the record; quoting a record that holds
    a [bigint] fails first. *)
Inductive venue_error := ContradictorySignals | CannotQuote | NoExecutionAddress.

(** [/^0x[a-fA-F0-9]{40}$/] and [/^[CG][A-Z2-7]{55}$/] *)
Definition ZERO_X_ADDRESS_RE (l : chars) : bool :=
  match l with
  | a :: b :: l => Ascii.eqb a "0" && Ascii.eqb b "x" && is_hex 40 (lower <$> l)
  | _ => false
  end.
Definition STELLAR_ADDRESS_RE : chars -> bool := is_strkey.

Definition isProxyKind (venueKind : string) : bool := bool_decide (venueKind = BASE_CUSTODY_PROXY).

(** [a || b] *)
Definition or_else (a b : val) : val := if truthy a then a else b.

Definition addressOf (r : val) : val :=
  if is_string r#"address" then r#"address"
  else if is_string r#"addr" then r#"addr"
  else Undefined.

(** [v !== undefined && re.test(v)] *)
Definition matches (re : chars -> bool) (v : val) : bool :=
  negb (strict_eq v Undefined) && test re v.

Definition baseSignal (r : val) : bool :=
  strict_eq r#"chain" (Str "base")
  || (is_string r#"factSlug" && endsWith (chars_of "-base") (coerce r#"factSlug"))
  || matches ZERO_X_ADDRESS_RE (addressOf r).

Definition stellarSignal (r : val) : bool :=
  strict_eq r#"chain" (Str "stellar") || matches STELLAR_ADDRESS_RE (addressOf r).

Definition resolveVenueKind (r : val) : result venue_error string :=
  if strict_eq r#"venueKind" (Str BASE_CUSTODY_PROXY) then Ok BASE_CUSTODY_PROXY
  else if strict_eq r#"venueKind" (Str STELLAR_LIVE) then Ok STELLAR_LIVE
  else if baseSignal r && stellarSignal r then
    match JSON.stringify r with
    | Ok _ => Throw ContradictorySignals
    | Throw _ => Throw CannotQuote
    end
  else Ok (if baseSignal r then BASE_CUSTODY_PROXY else STELLAR_LIVE).

(** [typeof v === 'number' && Number.isFinite(v)] *)
Definition is_finite_number (v : val) : bool :=
  match v with Number n => JsNum.isFinite n | Double _ => true | _ => false end.

(** The floor of a number from its text. *)
Definition text_floor (t : chars) : Z :=
  let '(sign, u) :=
    match t with c :: t' => if Ascii.eqb c "-" then (-1, t') else (1, t) | [] => (1, t) end%Z in
  let '(mantissa, exponent) := split_at "e" u in
  let '(whole, fraction) := split_at "." mantissa in
  let f := default [] fraction in
  let e := match exponent with
           | Some (c :: x) => if Ascii.eqb c "-" then (- of_digits x)%Z else of_digits x
           | _ => 0%Z
           end in
  let shift := (e - Z.of_nat (length f))%Z in
  let digits := (sign * of_digits (whole ++ f))%Z in
  if (0 <=? shift)%Z then (digits * 10 ^ shift)%Z else (digits / 10 ^ (- shift))%Z.

(** [typeof y.asOf === 'number' && nowMs - y.asOf > MAX_LIVE_YIELD_AGE_MS] *)
Definition too_old (nowMs : Z) (asOf : val) : bool :=
  match asOf with
  | Number (Num z) => (nowMs - z >? MAX_LIVE_YIELD_AGE_MS)%Z
  | Number NegInf => true
  | Double t => (text_floor t <? nowMs - MAX_LIVE_YIELD_AGE_MS)%Z
  | _ => false
  end.

Definition normalizeYield (raw : val) (venueKind : string) (nowMs : Z) : val :=
  if isProxyKind venueKind then NONE_YIELD
  else
    let y := raw#"yield" in
    if negb (truthy y) || negb (strict_eq y#"state" (Str "live"))
       || negb (is_finite_number y#"apy")
    then UNAVAILABLE_YIELD
    else if too_old nowMs y#"asOf" then UNAVAILABLE_YIELD
    else Obj ["state" ↦ Str "live"; "apy" ↦ y#"apy"].

(** The record a venue is shown by. *)
Definition truth_of (r : val) (venueKind : string) (nowMs : Z) : val :=
  let isProxy := isProxyKind venueKind in
  Obj ["name" ↦ or_else r#"name" (if isProxy then Undefined else Str "Vibing Farmer Autofarm");
       "protocol" ↦ (if isProxy then Str "vf-erc4626-proxy"
                     else or_else r#"protocol" (Str "blend-usdc"));
       "factSlug" ↦ r#"factSlug";
       "address" ↦ addressOf r;
       "networkId" ↦ Str (if isProxy then BASE_SEPOLIA else STELLAR_TESTNET);
       "venueKind" ↦ Str venueKind;
       "chain" ↦ Str (if isProxy then "base" else "stellar");
       "destination" ↦ (if isProxy then Undefined else Str STELLAR_DESTINATION);
       "proxyTarget" ↦ (if isProxy then r#"proxyTarget" else Undefined);
       "yield" ↦ normalizeYield r venueKind nowMs;
       "disclosure" ↦ Str (if isProxy then BASE_PROXY_DISCLOSURE else STELLAR_LIVE_DISCLOSURE)].

Definition normalizeVenue (raw : val) (now : Z) : result venue_error val :=
  let r := if is_object raw || is_array raw then raw else Obj [] in
  venueKind ← resolveVenueKind r; Ok (truth_of r venueKind now).

Definition venueYield (raw : val) (now : Z) : result venue_error val :=
  v ← normalizeVenue raw now; Ok (v#"yield").

Definition venueDisclosure (raw : val) (now : Z) : result venue_error val :=
  v ← normalizeVenue raw now; Ok (v#"disclosure").

Definition isLiveYieldVenue (raw : val) (now : Z) : result venue_error bool :=
  y ← venueYield raw now; Ok (strict_eq y#"state" (Str "live")).

Definition assertExecutableVenue (raw : val) (now : Z) : result venue_error val :=
  v ← normalizeVenue raw now;
  if truthy v#"address" then Ok v else Throw NoExecutionAddress.
End Strings.
End Venue.

(** ** Lemmas *)
Section VenueLemmas.
Import Venue.
Local Open Scope string_scope.
Local Open Scope list_scope.

Lemma resolveVenueKind_Ok r k :
  resolveVenueKind r = Ok k -> k = BASE_CUSTODY_PROXY \/ k = STELLAR_LIVE.
Proof.
  unfold resolveVenueKind. intros H. repeat case_match; simplify_eq; tauto.
Qed.

Lemma or_else_idemp a b : or_else (or_else a b) b = or_else a b.
Proof. unfold or_else. destruct (truthy a) eqn:E; [by rewrite E|by destruct (truthy b)]. Qed.

Lemma addressOf_cases r : addressOf r = Undefined \/ exists s, addressOf r = Str s.
Proof.
  unfold addressOf. destruct (is_string r#"address") eqn:E; [destruct (r#"address"); eauto; done|].
  destruct (is_string r#"addr") eqn:E'; [destruct (r#"addr"); eauto; done|]. by left.
Qed.

Lemma normalizeYield_cases r k now :
  normalizeYield r k now = NONE_YIELD /\ k = BASE_CUSTODY_PROXY
  \/ normalizeYield r k now = UNAVAILABLE_YIELD /\ k <> BASE_CUSTODY_PROXY
  \/ (normalizeYield r k now = Obj ["state" ↦ Str "live"; "apy" ↦ r#"yield"#"apy"]
      /\ k <> BASE_CUSTODY_PROXY /\ is_finite_number r#"yield"#"apy" = true
      /\ r#"yield"#"state" = Str "live" /\ too_old now r#"yield"#"asOf" = false).
Proof.
  unfold normalizeYield, isProxyKind. case_bool_decide as Hk; [by left|right].
  destruct (negb (truthy r#"yield") || _ || _) eqn:E; [by left|].
  rewrite !orb_false_iff, !negb_false_iff in E. destruct E as [[_ Hst] Hf].
  apply strict_eq_eq in Hst. destruct (too_old now _) eqn:Ho; [by left|right]. by rewrite Hst.
Qed.

Lemma yield_again r k now now' t :
  t#"yield" = normalizeYield r k now -> normalizeYield t k now' = normalizeYield r k now.
Proof.
  intros Hy. destruct (normalizeYield_cases r k now) as [[E Hk]|[[E Hk]|(E & Hk & Hf & _)]];
    rewrite E in Hy |- *; unfold normalizeYield, isProxyKind.
  - by rewrite bool_decide_eq_true_2.
  - rewrite bool_decide_eq_false_2 by done. by rewrite Hy.
  - rewrite bool_decide_eq_false_2 by done. rewrite Hy. set (w := r#"yield"#"apy") in *.
    set (y := Obj _). change (get y "state") with (Str "live"). change (get y "apy") with w.
    rewrite Hf. reflexivity.
Qed.

Lemma truth_resolves r k now :
  k = BASE_CUSTODY_PROXY \/ k = STELLAR_LIVE -> resolveVenueKind (truth_of r k now) = Ok k.
Proof. unfold resolveVenueKind. intros [-> | ->]; reflexivity. Qed.

Lemma truth_address r k now : addressOf (truth_of r k now) = addressOf r.
Proof.
  unfold truth_of. unfold addressOf at 1. cbn [get assoc].
  destruct (addressOf_cases r) as [E|[s E]]; rewrite E; reflexivity.
Qed.

(** The fields of the shown record that normalising reads. *)
Lemma truth_fields r k now :
  let p := isProxyKind k in let t := truth_of r k now in
  t#"name" = or_else r#"name" (if p then Undefined else Str "Vibing Farmer Autofarm")
  /\ t#"protocol" = (if p then Str "vf-erc4626-proxy" else or_else r#"protocol" (Str "blend-usdc"))
  /\ t#"factSlug" = r#"factSlug" /\ t#"proxyTarget" = (if p then r#"proxyTarget" else Undefined)
  /\ t#"yield" = normalizeYield r k now.
Proof. split_and!; reflexivity. Qed.

Lemma truth_again r k now now' : truth_of (truth_of r k now) k now' = truth_of r k now.
Proof.
  destruct (truth_fields r k now) as (Hn & Hp & Hs & Ht & Hy).
  pose proof (truth_address r k now) as Ha. pose proof (yield_again r k now now' _ Hy) as Hy'.
  set (t := truth_of r k now) in *. unfold truth_of at 1. rewrite Ha, Hy', Hn, Hp, Hs, Ht.
  unfold t, truth_of. destruct (isProxyKind k); by rewrite ?or_else_idemp.
Qed.
End VenueLemmas.

(** ** Properties *)
Section VenueProperties.
Import Venue.
Local Open Scope string_scope.
Local Open Scope list_scope.

(** Normalising is idempotent at any later time: the record a venue is shown by
    normalises to itself. Its yield is never looked at again: the age of a live yield is
    checked once, since the record does not keep the time it was read at. *)
Theorem normalizeVenue_idempotent (raw v : val) (now now' : Z)
    (H : normalizeVenue raw now = Ok v) :
  normalizeVenue v now' = Ok v.
Proof.
  unfold normalizeVenue in H. apply bind_Ok in H as (k & Hk & [= <-]).
  unfold normalizeVenue. change (is_object (truth_of ?r ?k ?n)) with true. cbn [orb].
  rewrite truth_resolves by (by eapply resolveVenueKind_Ok). cbn. by rewrite truth_again.
Qed.

(** A venue never claims more than it is: a Base proxy has no yield and says it only
    keeps custody; a Stellar venue always names the one destination; a yield is called live
    only on a finite number that was fresh when it was read. *)
Theorem normalizeVenue_truthful (raw v : val) (now : Z) (H : normalizeVenue raw now = Ok v) :
  (v#"venueKind" = Str BASE_CUSTODY_PROXY
   /\ v#"networkId" = Str BASE_SEPOLIA /\ v#"yield" = NONE_YIELD
   /\ v#"disclosure" = Str BASE_PROXY_DISCLOSURE /\ v#"destination" = Undefined)
  \/ (v#"venueKind" = Str STELLAR_LIVE
      /\ v#"networkId" = Str STELLAR_TESTNET /\ v#"destination" = Str STELLAR_DESTINATION
      /\ v#"disclosure" = Str STELLAR_LIVE_DISCLOSURE /\ v#"proxyTarget" = Undefined
      /\ (v#"yield"#"state" = Str "live" ->
          is_finite_number v#"yield"#"apy" = true
          /\ v#"yield"#"apy" = raw#"yield"#"apy" /\ too_old now raw#"yield"#"asOf" = false)).
Proof.
  unfold normalizeVenue in H. apply bind_Ok in H as (k & Hk & [= <-]).
  set (r := if is_object raw || is_array raw then raw else Obj []) in *.
  destruct (resolveVenueKind_Ok _ _ Hk) as [-> | ->]; [left; by split_and!|right].
  split_and!; try reflexivity.
  change (get (truth_of r STELLAR_LIVE now) "yield") with (normalizeYield r STELLAR_LIVE now).
  destruct (normalizeYield_cases r STELLAR_LIVE now) as [[_ [=]]|[[-> _]|(-> & _ & Hf & Hs & Ho)]];
    [done|]. intros _. cbn [get assoc]. cbn in Hf, Hs, Ho |- *.
  assert (r = raw \/ raw#"yield" = Undefined /\ r = Obj []) as [->|[_ Er]].
  { unfold r. destruct raw; try (by left); by right. }
  - done.
  - rewrite Er in Hs. done.
Qed.
End VenueProperties.

(** ** Witnesses *)
Section VenueWitnesses.
Import Venue.
Local Open Scope string_scope.
Local Open Scope list_scope.

Definition live_record : val :=
  Obj ["chain" ↦ Str "stellar";
       "yield" ↦ Obj ["state" ↦ Str "live"; "apy" ↦ Double (chars_of "4.25");
                      "asOf" ↦ Number (Num 1000)]].

Definition live_venue : val := truth_of live_record STELLAR_LIVE 2000.

(** A yield that was live once is still shown as live a thousand hours later. *)
Lemma normalizeVenue_idempotent_witness :
  normalizeVenue live_record 2000 = Ok live_venue
  /\ normalizeVenue live_venue (2000 + 3600000000) = Ok live_venue.
Proof.
  assert (normalizeVenue live_record 2000 = Ok live_venue) as H by (vm_compute; reflexivity).
  split; [exact H|]. exact (normalizeVenue_idempotent live_record live_venue 2000 _ H).
Defined.

Lemma normalizeVenue_truthful_witness :
  live_venue#"yield"#"state" = Str "live" /\ too_old 2000 live_record#"yield"#"asOf" = false.
Proof.
  split; [vm_compute; reflexivity|].
  destruct (normalizeVenue_truthful live_record live_venue 2000) as [(H & _)|(_ & _ & _ & _ & _ & H)].
  - vm_compute. reflexivity.
  - discriminate H.
  - apply H. vm_compute. reflexivity.
Defined.

(** Contradictory signals are refused; a record that carries a [bigint] is refused too, but
    by the failure to quote it. *)
Example contradictory :
  normalizeVenue (Obj ["chain" ↦ Str "base"; "address" ↦ Str ("C" +:+ String.concat "" (replicate 55 "A"))])
    0 = Throw ContradictorySignals
  /\ normalizeVenue (Obj ["chain" ↦ Str "base";
       "address" ↦ Str ("C" +:+ String.concat "" (replicate 55 "A")); "units" ↦ BigInt 5]) 0
     = Throw CannotQuote.
Proof. split; vm_compute; reflexivity. Qed.
End VenueWitnesses.
