(* ===== verification/PlanModel.v ===== *)
(** * The plan of a strategy and its amounts

    Models [frontend/src/strategy/planModel.js] (the expansion of a destination split into
    agents, the canonical plan, the amounts shown for it, the narrowing to eligible agents)
    and [frontend/src/strategy/amountValidation.js] (the checks before a plan is executed).
    The view model of the cards, which divides doubles for display, is left out. *)
From S2P Require Export JsValue Json Venue.
From S2P Require Import AssetUnits.

Module Plan.
Import Venue.
Section Strings.
Local Open Scope string_scope.
Local Open Scope list_scope.

(** A venue refused, an amount [BigInt] cannot read, or a [TypeError]. *)
Inductive plan_error := Refused (e : venue_error) | NotBigInt | NotObject.

Definition RISK_PROFILES : list (string * Z) := [("low", 1); ("med", 2); ("high", 3)]%Z.

(** [RISK_PROFILES[risk]], by its [targetSlots]: an inherited property is an object without
    them, whose arithmetic gives [NaN]. *)
Definition risk_profile (risk : val) : option num :=
  let k := string_of (coerce risk) in
  match assoc RISK_PROFILES k with
  | Some n => Some (Num n)
  | None => if decide (k ∈ object_prototype) then Some NaN else None
  end.

Definition STELLAR_NETWORK_ID : string := "stellar-testnet".
Definition DEFAULT_PERIOD_SECONDS : Z := 3600.
Definition DEFAULT_EXPIRY_SECONDS : Z := 3600.
Definition DEFAULT_STELLAR_DECIMALS : Z := 7.
Definition DEFAULT_BASE_DECIMALS : Z := 6.

Definition toBigIntUnits (units : val) : result plan_error Z :=
  match units with
  | BigInt z => Ok z
  | Undefined | Null => Ok 0%Z
  | _ => match to_BigInt units with Some z => Ok z | None => Throw NotBigInt end
  end.

Definition splitEven (totalUnits k : Z) : list Z :=
  if (k <=? 0)%Z then []
  else
    let base := (totalUnits `quot` k)%Z in
    let remainder := (totalUnits `rem` k)%Z in
    (fun i => base + if i <? remainder then 1 else 0)%Z <$> seqZ 0 k.

(** [`${runId || 'unrun'}:${kind}:${key}`] *)
Definition allocationId (runId : val) (kind : string) (key : val) : val :=
  Str (string_of (coerce (or_else runId (Str "unrun")) ++ chars_of (":" +:+ kind +:+ ":")
                  ++ coerce key)).

(** A destructuring default, taken for [undefined] alone. *)
Definition default_to (v d : val) : val := match v with Undefined => d | _ => v end.

(** [v.k], which throws on [undefined] and [null]. *)
Definition prop (v : val) (k : string) : result plan_error val :=
  if nullish v then Throw NotObject else Ok (get v k).

(** [for (const x of v)]; a string gives its characters. *)
Definition iterate (v : val) : result plan_error (list val) :=
  match v with
  | Arr l => Ok l
  | Str s => Ok ((fun c => Str (string_of [c])) <$> chars_of s)
  | _ => Throw NotObject
  end.

Definition amount (token : val) (units : Z) (decimals : val) : val :=
  Obj ["token" ↦ token; "units" ↦ Str (string_of (BigInt_toString units)); "decimals" ↦ decimals].

(** ** The number of deposit agents *)
Definition math_max (a b : num) : num :=
  match a, b with
  | NaN, _ | _, NaN => NaN
  | _, _ => if JsNum.ltb a b then b else a
  end.
Definition minus (a : num) (z : Z) : num := match a with Num x => Num (x - z) | _ => a end.

Definition stellar_slots (targetSlots : num) (bridgeSlots stellarTotal : Z) : num :=
  let stellarSlotsAvailable := math_max (Num 0) (minus targetSlots bridgeSlots) in
  let kStellar :=
    if (stellarTotal >? 0)%Z then math_max (Num 1) stellarSlotsAvailable else Num 0 in
  match kStellar with
  | Num k => if (k >? 0)%Z && (stellarTotal <? k)%Z then Num stellarTotal else Num k
  | k => k
  end.

(** [if (kStellar > 0) splitEven(stellarTotal, kStellar)] *)
Definition deposit_shares (stellarTotal : Z) (kStellar : num) : list Z :=
  match kStellar with
  | Num k => if (k >? 0)%Z then splitEven stellarTotal k else []
  | _ => []
  end.

(** ** Agents *)
Definition deposit_agent (runId token stellarDecimals periodSeconds expiry destination : val)
    (i : nat) (units : Z) : val :=
  Obj ["allocationId" ↦ allocationId runId "deposit" (Number (Num (Z.of_nat i)));
       "kind" ↦ Str "deposit"; "hostNetworkId" ↦ Str STELLAR_NETWORK_ID;
       "allocation" ↦ amount token units stellarDecimals;
       "cap" ↦ amount token units stellarDecimals; "periodSeconds" ↦ periodSeconds;
       "expiry" ↦ expiry; "destination" ↦ destination; "children" ↦ Arr []].

(** [{ ...b, units: toBigIntUnits(b.units) }] *)
Definition with_units (b : val) : result plan_error (val * Z) :=
  raw ← prop b "units";
  units ← toBigIntUnits raw;
  Ok (Obj (set_property (entries b) "units" (BigInt units)), units).

Definition base_child (now : Z) (runId token : val) (bu : val * Z) : result plan_error val :=
  let '(b, units) := bu in
  match normalizeVenue b now with
  | Throw e => Throw (Refused e)
  | Ok venue =>
      Ok (Obj ["allocationId" ↦ allocationId runId "bridge"
                 (or_else (or_else b#"proxyTarget" b#"factSlug") b#"address");
               "address" ↦ venue#"address"; "proxyTarget" ↦ venue#"proxyTarget";
               "destination" ↦ or_else (or_else venue#"proxyTarget" venue#"name")
                                 (Str "Base custody proxy");
               "venueKind" ↦ venue#"venueKind"; "disclosure" ↦ venue#"disclosure";
               "yield" ↦ venue#"yield";
               "allocation" ↦ amount token units
                                (coalesce b#"decimals" (Number (Num DEFAULT_BASE_DECIMALS)))])
  end.

Definition bridge_agent (runId bridgeToken stellarDecimals periodSeconds expiry : val)
    (bridgeCapUnits : Z) (children : list val) : val :=
  Obj ["allocationId" ↦ allocationId runId "bridge" (Str "base"); "kind" ↦ Str "bridge";
       "hostNetworkId" ↦ Str STELLAR_NETWORK_ID;
       "allocation" ↦ amount bridgeToken bridgeCapUnits stellarDecimals;
       "cap" ↦ amount bridgeToken bridgeCapUnits stellarDecimals;
       "periodSeconds" ↦ periodSeconds; "expiry" ↦ expiry;
       "destination" ↦ Str "Base Sepolia bridge"; "children" ↦ Arr children].

(** [(baseAllocations || []).map(...)] *)
Definition base_inputs (baseAllocations : val) : result plan_error (list (val * Z)) :=
  if negb (truthy baseAllocations) then Ok []
  else match baseAllocations with Arr l => map_throw with_units l | _ => Throw NotObject end.

Definition expandAgentSlots (now : Z) (input : val) : result plan_error (list val) :=
  let input := or_empty input in
  let runId := input#"runId" in
  let token := default_to input#"token" (Str "USDC") in
  let bridgeToken := default_to input#"bridgeToken" token in
  let stellarDecimals :=
    default_to input#"stellarDecimals" (Number (Num DEFAULT_STELLAR_DECIMALS)) in
  let destination := default_to input#"destination" (Str "Stellar deposit") in
  let baseAllocations := default_to input#"baseAllocations" (Arr []) in
  let periodSeconds := default_to input#"periodSeconds" (Number (Num DEFAULT_PERIOD_SECONDS)) in
  let expiry :=
    default_to input#"expiry" (Number (Num (now / 1000 + DEFAULT_EXPIRY_SECONDS))) in
  let targetSlots := default (Num 1) (risk_profile input#"risk") in
  stellarTotal ← toBigIntUnits (default_to input#"stellarUnits" (BigInt 0));
  inputs ← base_inputs baseAllocations;
  let baseChildrenInput := filter (fun b => 0 < b.2)%Z inputs in
  let bridgeSlots := if decide (baseChildrenInput = []) then 0%Z else 1%Z in
  let kStellar := stellar_slots targetSlots bridgeSlots stellarTotal in
  let deposits :=
    imap (deposit_agent runId token stellarDecimals periodSeconds expiry destination)
      (deposit_shares stellarTotal kStellar) in
  if decide (baseChildrenInput = []) then Ok deposits
  else
    let bridgeBaseUnits := sumZ (snd <$> baseChildrenInput) in
    children ← map_throw (base_child now runId token) baseChildrenInput;
    Ok (deposits
        ++ [bridge_agent runId bridgeToken stellarDecimals periodSeconds expiry
              (bridgeBaseUnits * 10) children]).

Definition is_kind (kind : string) (a : val) : bool := strict_eq a#"kind" (Str kind).

Definition computeTruth (agents : list val) : val :=
  Obj ["agentIsolationCount" ↦ Number (Num (Z.of_nat (length agents)));
       "stellarVenueCount" ↦ Number (Num (if existsb (is_kind "deposit") agents then 1 else 0));
       "baseUsesProxyVaults" ↦ Bool (existsb (is_kind "bridge") agents)].

(** [toBigIntUnits(a.allocation.units)] *)
Definition agent_units (a : val) : result plan_error Z :=
  allocation ← prop a "allocation";
  units ← prop allocation "units";
  toBigIntUnits units.

Definition normalizeStrategyPlan (now : Z) (input : val) : result plan_error val :=
  let i := or_empty input in
  let token := default_to i#"token" (Str "USDC") in
  let stellarDecimals := default_to i#"stellarDecimals" (Number (Num DEFAULT_STELLAR_DECIMALS)) in
  agents ← expandAgentSlots now
    (Obj (set_property (set_property (entries input) "token" token)
            "stellarDecimals" stellarDecimals));
  units ← map_throw agent_units agents;
  Ok (Obj ["runId" ↦ i#"runId"; "planFingerprint" ↦ Null;
           "source" ↦ default_to i#"source" (Str "fallback");
           "sourceState" ↦ default_to i#"sourceState" (Str "deterministic");
           "amount" ↦ amount token (sumZ units) stellarDecimals;
           "agents" ↦ Arr agents; "truth" ↦ computeTruth agents;
           "review" ↦ coalesce input#"review" Null]).

(** The verdicts of eligibility: a predicate, or a record by allocation id. *)
Inductive eligibility := Predicate (f : val -> val) | Verdicts (v : val).

Definition verdictFor (e : eligibility) (agent : val) : result plan_error val :=
  match e with
  | Predicate f => Ok (f agent)
  | Verdicts v =>
      if truthy v then
        id ← prop agent "allocationId";
        Ok (or_else (get v (string_of (coerce id))) (Obj ["eligible" ↦ Bool true]))
      else Ok (Obj ["eligible" ↦ Bool true])
  end.

(** [verdictFor(a).eligible !== false] *)
Definition kept (e : eligibility) (a : val) : result plan_error bool :=
  verdict ← verdictFor e a;
  eligible ← prop verdict "eligible";
  Ok (negb (strict_eq eligible (Bool false))).

Definition toDispatchStrategy (plan : val) (e : eligibility) : result plan_error val :=
  all ← prop plan "agents";
  let all := or_else all (Arr []) in
  match all with
  | Arr l =>
      agents ← filter_throw (kept e) l;
      Ok (Obj (set_property (set_property (entries plan) "agents" (Arr agents))
                 "truth" (computeTruth agents)))
  | _ => Throw NotObject
  end.

(** ** The amounts shown *)
Definition roundCentsBigInt (units decimals : Z) : Z :=
  if (decimals <? 2)%Z then (units * 10 ^ (2 - decimals))%Z
  else
    let denom := (10 ^ (decimals - 2))%Z in
    ((units + denom `quot` 2) `quot` denom)%Z.

Definition formatCents (cents : Z) : chars :=
  let negative := (cents <? 0)%Z in
  let abs := if negative then (- cents)%Z else cents in
  let whole := BigInt_toString (abs `quot` 100)%Z in
  let frac := padStart (BigInt_toString (abs `rem` 100)%Z) 2 "0" in
  (if negative then ["-"%char] else []) ++ whole ++ "."%char :: frac.

(** An agent by what the display reads of it: its id, its kind, the units and decimals of
    the amount named. *)
Record shown := { id : string; kind : val; units : Z; decimals : Z }.

(** The kinds in the order they first appear, the keys of [byKind]. *)
Fixpoint kinds (l : list shown) : list val :=
  match l with
  | [] => []
  | a :: l => kind a :: filter (fun k => strict_eq k (kind a) = false) (kinds l)
  end.

(** [cents[cents.length - 1] += diff] *)
Fixpoint add_last (l : list Z) (diff : Z) : list Z :=
  match l with
  | [] => []
  | [c] => [c + diff]%Z
  | c :: l => c :: add_last l diff
  end.

Definition group_cents (group : list shown) : list Z :=
  let cents := (fun a => roundCentsBigInt (units a) (decimals a)) <$> group in
  let exactUnits := sumZ (units <$> group) in
  let exactCents := roundCentsBigInt exactUnits (default 0%Z (decimals <$> head group)) in
  add_last cents (exactCents - sumZ cents).

Definition put_group (m : gmap string chars) (group : list shown) : gmap string chars :=
  foldl (fun m ac => <[id ac.1 := formatCents ac.2]> m) m (zip group (group_cents group)).

Definition buildAmountDisplayMap (planAgents : list shown) : gmap string chars :=
  foldl (fun m k => put_group m (filter (fun a => strict_eq (kind a) k = true) planAgents))
    ∅ (kinds planAgents).

(** ** The checks before a plan is executed *)
Definition FIRST_DEPOSIT_MIN_UNITS : Z := 10000000.
Definition UNKNOWN_VAULT_MESSAGE : string := "Could not verify the vault minimum. Try again.".

Definition verdict (ok : bool) (code : string) (field message units : val) : val :=
  Obj ["ok" ↦ Bool ok; "code" ↦ Str code; "field" ↦ field; "message" ↦ message;
       "units" ↦ units].

Definition retry (v : val) : val := Obj (entries v ++ ["retryable" ↦ Bool true]).

Definition parse_message (code : string) (decimals : val) : string :=
  if decide (code = "EMPTY") then "Enter an amount."
  else if decide (code = "INVALID_FORMAT") then "Enter a plain decimal amount, like 100 or 12.5."
  else if decide (code = "ZERO") then "Amount must be greater than zero."
  else if decide (code = "TOO_PRECISE")
  then "Amount has more than " +:+ string_of (coerce decimals) +:+ " decimal places."
  else "Amount is too large for the selected asset.".

Definition code_name (c : AssetUnits.parse_code) : string :=
  match c with
  | AssetUnits.EMPTY => "EMPTY"
  | AssetUnits.INVALID_FORMAT => "INVALID_FORMAT"
  | AssetUnits.TOO_PRECISE => "TOO_PRECISE"
  | AssetUnits.ZERO => "ZERO"
  | AssetUnits.OVERFLOW => "OVERFLOW"
  | AssetUnits.EXCEEDS_AVAILABLE => "EXCEEDS_AVAILABLE"
  end.

(** [/^-\d+(?:\.\d+)?$/] *)
Definition negative_decimal (v : val) : bool :=
  match v with
  | Str s =>
      match chars_of s with
      | c :: l => Ascii.eqb c "-" && AssetUnits.UNSIGNED_DECIMAL l
      | [] => false
      end
  | _ => false
  end.

Definition raw_of (v : val) : option chars :=
  match v with Str s => Some (chars_of s) | _ => None end.

Definition parseUsdcInput (value : val) (decimals : num) : val :=
  match AssetUnits.parseAssetUnits (raw_of value) decimals AssetUnits.no_options with
  | Ok (units, _) => verdict true "OK" Null Null (BigInt units)
  | Throw c =>
      let negative := bool_decide (c = AssetUnits.INVALID_FORMAT) && negative_decimal value in
      let code := if negative then "NEGATIVE" else code_name c in
      verdict false code Null
        (Str (if negative then "Amount cannot be negative."
              else parse_message code (Number decimals))) Null
  end.

Definition validateAmountInput (value risk vaultTotalShares : val) : val :=
  let parsed := parseUsdcInput value (Num 7) in
  if negb (truthy parsed#"ok")
  then Obj (set_property (entries parsed) "field" (Str "amount"))
  else
    match risk_profile risk with
    | None => verdict false "INVALID_RISK" (Str "risk") (Str "Select a risk level.") parsed#"units"
    | Some _ =>
        if nullish vaultTotalShares then
          retry (verdict false "VAULT_STATE_UNKNOWN" (Str "amount") (Str UNKNOWN_VAULT_MESSAGE)
                   parsed#"units")
        else if strict_eq vaultTotalShares (BigInt 0)
                && match parsed#"units" with
                   | BigInt u => (u <? FIRST_DEPOSIT_MIN_UNITS)%Z
                   | _ => false
                   end
        then verdict false "BELOW_FIRST_DEPOSIT_MINIMUM" (Str "amount")
               (Str "The vault has no deposits yet. The first deposit must be at least 1 USDC.")
               parsed#"units"
        else verdict true "OK" Null Null parsed#"units"
    end.

(** [toBigIntUnits(a.allocation?.units)] *)
Definition units_of (a : val) : result plan_error Z :=
  allocation ← prop a "allocation"; toBigIntUnits (get allocation "units").

(** The first child without positive units. *)
Fixpoint check_children (agent : val) (children : list val) : result plan_error (option val) :=
  match children with
  | [] => Ok None
  | child :: children =>
      childUnits ← units_of child;
      if (childUnits <=? 0)%Z
      then Ok (Some (verdict false "NON_POSITIVE_BASE_UNITS"
                       (or_else child#"allocationId" agent#"allocationId")
                       (Str "Base amount is too small once converted to six decimals.")
                       (BigInt childUnits)))
      else check_children agent children
  end.

(** The first agent, or child of a bridge, without positive units. *)
Fixpoint check_agents (agents : list val) : result plan_error (option val) :=
  match agents with
  | [] => Ok None
  | agent :: agents =>
      units ← units_of agent;
      if (units <=? 0)%Z
      then Ok (Some (verdict false "NON_POSITIVE_AGENT_UNITS"
                       (or_else agent#"allocationId" (Str "agents"))
                       (Str "Every crew member needs a positive amount to execute.")
                       (BigInt units)))
      else
        bad ← (if is_kind "bridge" agent
               then children ← iterate (or_else agent#"children" (Arr []));
                    check_children agent children
               else Ok None);
        match bad with Some v => Ok (Some v) | None => check_agents agents end
  end.

(** The first deposit below the minimum of an empty vault, with its units. *)
Fixpoint shortAgent (agents : list val) : result plan_error (option (val * Z)) :=
  match agents with
  | [] => Ok None
  | a :: agents =>
      if is_kind "deposit" a then
        units ← units_of a;
        if (units <? FIRST_DEPOSIT_MIN_UNITS)%Z then Ok (Some (a, units)) else shortAgent agents
      else shortAgent agents
  end.

Definition depositTotal (agents : list val) : result plan_error Z :=
  us ← map_throw units_of (filter (fun a => is_kind "deposit" a = true) agents); Ok (sumZ us).

Definition validateExecutionAllocations (plan vaultTotalShares : val) : result plan_error val :=
  if nullish vaultTotalShares then
    Ok (retry (verdict false "VAULT_STATE_UNKNOWN" (Str "vaultTotalShares")
                 (Str UNKNOWN_VAULT_MESSAGE) Null))
  else
    agents ← iterate (or_else plan#"agents" (Arr []));
    bad ← check_agents agents;
    match bad with
    | Some v => Ok v
    | None =>
        short ← (if strict_eq vaultTotalShares (BigInt 0) then shortAgent agents else Ok None);
        match short with
        | Some (a, units) =>
            Ok (verdict false "BELOW_FIRST_DEPOSIT_MINIMUM" a#"allocationId"
                  (Str "The vault has no deposits yet. Every deposit slot must be at least 1 USDC.")
                  (BigInt units))
        | None =>
            total ← depositTotal agents; Ok (verdict true "OK" Null Null (BigInt total))
        end
    end.
End Strings.
End Plan.

(** ** Lemmas *)
Section PlanLemmas.
Import Venue Plan.
Local Open Scope string_scope.
Local Open Scope list_scope.

(** *** An even split *)
Section Split.
Context (base remainder : Z) (Hr : (0 <= remainder)%Z).

Let share (i : Z) : Z := (base + if i <? remainder then 1 else 0)%Z.

Lemma share_sum (n : nat) :
  sumZ (share <$> seqZ 0 (Z.of_nat n)) = (Z.of_nat n * base + Z.min remainder (Z.of_nat n))%Z.
Proof.
  induction n as [|n IH]; [rewrite seqZ_nil by lia; cbn [fmap list_fmap sumZ]; lia|].
  rewrite seqZ_S.
  rewrite fmap_app, sumZ_app, IH. cbn. unfold share.
  destruct (Z.ltb_spec (0 + Z.of_nat n) remainder); lia.
Qed.
End Split.

(** The shares of a split: they add up to the whole, and no two differ by more than one. *)
Record fair (total : Z) (shares : list Z) : Prop := {
  fair_sum : sumZ shares = Z.max 0 total;
  fair_positive : Forall (fun u => 0 < u)%Z shares;
  fair_close : forall u v, u ∈ shares -> v ∈ shares -> (Z.abs (u - v) <= 1)%Z;
}.

Lemma splitEven_fair total k :
  (0 < k)%Z -> (k <= total)%Z -> fair total (splitEven total k) /\ length (splitEven total k) = Z.to_nat k.
Proof.
  intros Hk Ht. unfold splitEven. destruct (Z.leb_spec k 0) as [?|_]; [lia|].
  assert (0 <= total `rem` k < k)%Z as Hr by (apply Z.rem_bound_pos; lia).
  assert (1 <= total `quot` k)%Z as Hq.
  { rewrite Z.quot_div_nonneg by lia. apply Z.div_le_lower_bound; lia. }
  pose proof (Z.quot_rem' total k) as E.
  split; [split|].
  - pose proof (share_sum (total `quot` k) (total `rem` k) ltac:(lia) (Z.to_nat k)) as H.
    rewrite Z2Nat.id in H by lia. rewrite H. lia.
  - apply Forall_fmap, Forall_forall. intros i _. cbn. destruct (_ <? _)%Z; lia.
  - intros u v (i & -> & _)%list_elem_of_fmap (j & -> & _)%list_elem_of_fmap.
    destruct (i <? _)%Z, (j <? _)%Z; lia.
  - by rewrite length_fmap, length_seqZ.
Qed.

Lemma stellar_slots_spec targetSlots bridgeSlots total :
  (1 <= targetSlots <= 3)%Z -> (0 <= bridgeSlots)%Z ->
  exists k, stellar_slots (Num targetSlots) bridgeSlots total = Num k
    /\ ((total <= 0 /\ k = 0) \/ (1 <= k <= 3 /\ k <= total))%Z.
Proof.
  intros Ht Hb. unfold stellar_slots, math_max, minus, JsNum.ltb.
  destruct (Z.gtb_spec total 0) as [H0|H0]; [|exists 0%Z; split; [reflexivity|by left]].
  destruct (Z.ltb_spec 0 (targetSlots - bridgeSlots)) as [H1|H1]; cbn [JsNum.ltb];
    [destruct (Z.ltb_spec 1 (targetSlots - bridgeSlots)) as [H2|H2]|];
    cbn; repeat match goal with
    | |- context [(?a >? ?b)%Z] => destruct (Z.gtb_spec a b)
    | |- context [(?a <? ?b)%Z] => destruct (Z.ltb_spec a b)
    end; cbn; eexists; (split; [reflexivity|]); right; lia.
Qed.

Lemma deposit_shares_fair targetSlots bridgeSlots total :
  (1 <= targetSlots <= 3)%Z -> (0 <= bridgeSlots)%Z ->
  fair total (deposit_shares total (stellar_slots (Num targetSlots) bridgeSlots total))
  /\ (length (deposit_shares total (stellar_slots (Num targetSlots) bridgeSlots total)) <= 3)%nat.
Proof.
  intros Ht Hb. destruct (stellar_slots_spec targetSlots bridgeSlots total Ht Hb)
    as (k & -> & [[H0 ->]|[Hk Hle]]); cbn.
  - split; [|cbn; lia]. split; [cbn; lia|constructor|by intros u v ?%not_elem_of_nil].
  - destruct (Z.gtb_spec k 0); [|lia]. destruct (splitEven_fair total k) as [? ->]; [lia|lia|].
    split; [done|lia].
Qed.

(** *** Agents and the units they carry *)
Definition carries (a : val) (u : Z) : Prop :=
  exists fs token decimals, a = Obj fs /\ a#"allocation" = amount token u decimals.

Lemma amount_units token u decimals :
  (0 <= u)%Z -> toBigIntUnits (amount token u decimals)#"units" = Ok u.
Proof.
  intros Hu. change ((amount token u decimals)#"units") with (Str (string_of (BigInt_toString u))).
  cbn [toBigIntUnits to_BigInt]. by rewrite chars_of_string_of, StringToBigInt_toString.
Qed.

Lemma carries_units a u : carries a u -> (0 <= u)%Z -> agent_units a = Ok u /\ units_of a = Ok u.
Proof.
  intros (fs & token & decimals & Ho & Ha) Hu. unfold agent_units, units_of, prop.
  assert (nullish a = false) as -> by (by rewrite Ho). cbn [mbind result_bind]. rewrite Ha.
  split; [|by apply amount_units].
  change (nullish (amount token u decimals)) with false. cbn [mbind result_bind].
  by apply amount_units.
Qed.

(** What a plan is: deposit agents with their shares, and at most one bridge agent carrying
    ten times what its children carry. *)
Definition plan_of (agents : list val) (shares us : list Z) : Prop :=
  exists deposits bridge,
    agents = deposits ++ bridge
    /\ Forall2 (fun a u => is_kind "deposit" a = true /\ carries a u) deposits shares
    /\ ((bridge = [] /\ us = [])
        \/ exists b children,
             bridge = [b] /\ us <> [] /\ is_kind "bridge" b = true /\ carries b (sumZ us * 10)
             /\ b#"children" = Arr children /\ Forall2 carries children us).

Lemma imap_deposits f shares :
  (forall i u, is_kind "deposit" (f i u) = true /\ carries (f i u) u) ->
  Forall2 (fun a u => is_kind "deposit" a = true /\ carries a u) (imap f shares) shares.
Proof.
  revert f. induction shares as [|u shares IH]; intros f Hf; [constructor|].
  rewrite imap_cons. constructor; [apply Hf|]. apply IH. intros i v. apply Hf.
Qed.

Lemma base_children_carry now runId token inputs children :
  map_throw (base_child now runId token) inputs = Ok children ->
  Forall2 carries children inputs.*2.
Proof.
  intros H%map_throw_Forall2. induction H as [|[b u] c inputs children Hc _ IH]; [constructor|].
  cbn. constructor; [|done]. cbn in Hc. destruct (normalizeVenue b now) as [venue|e]; [|done].
  injection Hc as <-. by eexists _, _, _.
Qed.

Lemma risk_profile_bounds risk :
  risk_profile risk <> Some NaN ->
  exists n, default (Num 1) (risk_profile risk) = Num n /\ (1 <= n <= 3)%Z.
Proof.
  unfold risk_profile. cbn [assoc RISK_PROFILES]. intros H.
  repeat case_decide; cbn; try done; eexists; (split; [reflexivity|lia]).
Qed.

(** The base units of a plan: the positive amounts of the base allocations, in order. *)
Definition base_units (input : val) : result plan_error (list Z) :=
  inputs ← base_inputs (default_to input#"baseAllocations" (Arr []));
  Ok (filter (fun u => 0 < u)%Z inputs.*2).

Lemma filter_snd (inputs : list (val * Z)) :
  filter (fun u => 0 < u)%Z inputs.*2 = (filter (fun b => 0 < b.2)%Z inputs).*2.
Proof.
  induction inputs as [|[b u] inputs IH]; [done|].
  rewrite fmap_cons, !filter_cons. cbn [snd]. case_decide; [rewrite fmap_cons|]; by rewrite IH.
Qed.

Lemma expandAgentSlots_Ok now input agents :
  is_object input = true -> expandAgentSlots now input = Ok agents ->
  risk_profile input#"risk" <> Some NaN ->
  exists total us shares,
    toBigIntUnits (default_to input#"stellarUnits" (BigInt 0)) = Ok total
    /\ base_units input = Ok us
    /\ fair total shares /\ (length shares <= 3)%nat /\ plan_of agents shares us.
Proof.
  intros Ho H Hp. unfold expandAgentSlots in H.
  replace (or_empty input) with input in H by (by destruct input).
  destruct (risk_profile_bounds _ Hp) as (n & En & Hn). rewrite En in H.
  apply bind_Ok in H as (total & Ht & H). apply bind_Ok in H as (inputs & Hi & H).
  set (kept_inputs := filter _ inputs) in H.
  set (slots := if decide (kept_inputs = []) then 0%Z else 1%Z) in H.
  exists total, (kept_inputs.*2), (deposit_shares total (stellar_slots (Num n) slots total)).
  destruct (deposit_shares_fair n slots total Hn) as [Hf Hl].
  { unfold slots. case_decide; lia. }
  split_and!; [done| |done|done|].
  { unfold base_units. rewrite Hi. cbn. by rewrite filter_snd. }
  case_decide as Hk.
  - injection H as <-. eexists _, []. rewrite app_nil_r. split_and!; [done| |left; by rewrite Hk].
    apply imap_deposits. intros i u. split; [done|]. by eexists _, _, _.
  - apply bind_Ok in H as (children & Hc & [= <-]). eexists _, _. split_and!; [done| |right].
    + apply imap_deposits. intros i u. split; [done|]. by eexists _, _, _.
    + eexists _, children. split_and!; [done| |done| |done|by apply base_children_carry in Hc].
      * intros E. by apply fmap_nil_inv in E.
      * by eexists _, _, _.
Qed.
End PlanLemmas.

(** *** Checking a plan *)
Section PlanChecks.
Import Venue Plan.
Local Open Scope string_scope.
Local Open Scope list_scope.

Lemma kind_unique a k k' : is_kind k a = true -> k <> k' -> is_kind k' a = false.
Proof.
  unfold is_kind. intros H Hk. apply strict_eq_eq in H. rewrite H. cbn.
  by apply bool_decide_eq_false_2.
Qed.

Lemma positive_sum us : Forall (fun u => 0 < u)%Z us -> (0 <= sumZ us)%Z.
Proof. intros H. apply sumZ_nonneg. eapply Forall_impl; [exact H|]. cbn. lia. Qed.

(** Everything a plan carries is positive. *)
Definition positive (l : list Z) : Prop := Forall (fun u => 0 < u)%Z l.

Definition bridge_units (us : list Z) : list Z :=
  match us with [] => [] | _ => [sumZ us * 10]%Z end.

Lemma plan_units agents shares us :
  plan_of agents shares us -> positive shares -> positive us ->
  map_throw agent_units agents = Ok (shares ++ bridge_units us).
Proof.
  intros (deposits & bridge & -> & HF & Hb) Hs Hu. apply map_throw_Forall2, Forall2_app.
  - clear Hb. revert Hs. induction HF as [|a u l shares [_ Ha] _ IH]; intros Hs; [constructor|].
    inversion Hs; subst. constructor; [|by apply IH]. apply carries_units; [done|lia].
  - destruct Hb as [[-> ->]|(b & children & -> & Hne & _ & Hc & _)]; [constructor|].
    destruct us as [|u us]; [done|]. constructor; [|constructor].
    apply carries_units; [done|]. pose proof (positive_sum _ Hu). lia.
Qed.

Lemma check_children_ok agent children us :
  Forall2 carries children us -> positive us -> check_children agent children = Ok None.
Proof.
  induction 1 as [|c u children us Hc _ IH]; intros Hu; [done|]. inversion Hu; subst. cbn.
  destruct (carries_units c u Hc) as [_ ->]; [lia|]. cbn.
  destruct (Z.leb_spec u 0); [lia|]. by apply IH.
Qed.

Lemma check_agents_ok agents shares us :
  plan_of agents shares us -> positive shares -> positive us -> check_agents agents = Ok None.
Proof.
  intros (deposits & bridge & -> & HF & Hb) Hs Hu.
  induction HF as [|a u l shares [Hk Ha] HF IH].
  - destruct Hb as [[-> _]|(b & children & -> & Hne & Hk & Hc & Hch & HF)]; [done|].
    cbn. pose proof (positive_sum _ Hu). destruct us as [|u us]; [done|].
    assert (0 < sumZ (u :: us) * 10)%Z.
    { inversion Hu as [|? ? ? Hu']; subst. pose proof (positive_sum _ Hu'). cbn. lia. }
    destruct (carries_units _ _ Hc) as [_ ->]; [lia|]. cbn [mbind result_bind].
    destruct (Z.leb_spec (sumZ (u :: us) * 10) 0); [lia|]. rewrite Hk, Hch.
    cbn [or_else truthy iterate mbind result_bind]. by rewrite (check_children_ok b children _ HF Hu).
  - inversion Hs; subst. cbn. destruct (carries_units a u Ha) as [_ ->]; [lia|].
    cbn [mbind result_bind]. destruct (Z.leb_spec u 0); [lia|].
    rewrite (kind_unique a "deposit" "bridge" Hk) by done. cbn. by apply IH.
Qed.

Lemma bridge_not_deposit (bridge : list val) us :
  ((bridge = [] /\ us = [])
   \/ exists b children,
        bridge = [b] /\ us <> [] /\ is_kind "bridge" b = true /\ carries b (sumZ us * 10)
        /\ b#"children" = Arr children /\ Forall2 carries children us) ->
  Forall (fun b => is_kind "deposit" b = false) bridge.
Proof.
  intros [[-> _]|(b & children & -> & _ & Hk & _)]; [constructor|].
  constructor; [|constructor]. by apply (kind_unique b "bridge").
Qed.

Lemma shortAgent_plan agents shares us :
  plan_of agents shares us -> positive shares ->
  exists short, shortAgent agents = Ok short
    /\ (short = None <-> Forall (fun u => FIRST_DEPOSIT_MIN_UNITS <= u)%Z shares).
Proof.
  intros (deposits & bridge & -> & HF & Hb) Hs. apply bridge_not_deposit in Hb.
  induction HF as [|a u l shares [Hk Ha] HF IH].
  - exists None. split; [|split; [constructor|done]].
    induction Hb as [|b bridge Hn _ IH]; [done|]. cbn. by rewrite Hn.
  - inversion Hs; subst. cbn. rewrite Hk. destruct (carries_units a u Ha) as [_ ->]; [lia|].
    cbn [mbind result_bind]. destruct (Z.ltb_spec u FIRST_DEPOSIT_MIN_UNITS).
    + eexists. split; [reflexivity|]. split; [done|]. intros HF'. inversion HF'; lia.
    + destruct (IH ltac:(done)) as (short & E & Hi). exists short. split; [done|].
      rewrite Hi. split; [by constructor|by inversion 1].
Qed.

Lemma depositTotal_plan agents shares us :
  plan_of agents shares us -> positive shares -> depositTotal agents = Ok (sumZ shares).
Proof.
  intros (deposits & bridge & -> & HF & Hb) Hs. apply bridge_not_deposit in Hb.
  unfold depositTotal. rewrite filter_app. rewrite (filter_none _ bridge).
  2:{ eapply Forall_impl; [exact Hb|]. cbn. congruence. }
  rewrite app_nil_r, (filter_all _ deposits).
  2:{ clear Hs. induction HF as [|a u l sh [Hk _] _ IH]; by constructor. }
  rewrite (proj2 (map_throw_Forall2 units_of deposits shares)); [done|].
  revert Hs. induction HF as [|a u l sh [_ Ha] _ IH]; intros Hs; [constructor|].
  inversion Hs; subst. constructor; [|by apply IH]. apply carries_units; [done|lia].
Qed.

Lemma base_units_positive input us : base_units input = Ok us -> positive us.
Proof.
  unfold base_units. intros (inputs & _ & [= <-])%bind_Ok. apply Forall_forall.
  by intros u [Hu _]%list_elem_of_filter.
Qed.

(** What the canonical plan of an input is. *)
Lemma normalizeStrategyPlan_Ok now input plan :
  is_object input = true -> normalizeStrategyPlan now input = Ok plan ->
  risk_profile input#"risk" <> Some NaN ->
  exists total us shares agents,
    toBigIntUnits (default_to input#"stellarUnits" (BigInt 0)) = Ok total
    /\ base_units input = Ok us /\ positive us
    /\ fair total shares /\ (length shares <= 3)%nat /\ plan_of agents shares us
    /\ plan#"agents" = Arr agents
    /\ toBigIntUnits plan#"amount"#"units" = Ok (Z.max 0 total + 10 * sumZ us)%Z.
Proof.
  intros (fs & ->)%is_object_inv H Hp. unfold normalizeStrategyPlan in H.
  apply bind_Ok in H as (agents & Ha & H). apply bind_Ok in H as (units & Hu & [= <-]).
  set (token := default_to _ (Str "USDC")) in *. set (dec := default_to _ _) in Ha |- *.
  change (entries (Obj fs)) with fs in Ha.
  set (input' := Obj (set_property (set_property fs "token" token) "stellarDecimals" dec)) in Ha.
  assert (forall k, k <> "token" -> k <> "stellarDecimals" -> get input' k = get (Obj fs) k) as Hg.
  { intros k H1 H2. unfold input'. by rewrite !get_set_property, !decide_False by congruence. }
  destruct (expandAgentSlots_Ok now input' agents) as (total & us & shares & Ht & Hb & Hf & Hl & Hpl);
    [done|done|by rewrite Hg|].
  rewrite Hg in Ht by done. unfold base_units in Hb. rewrite Hg in Hb by done.
  pose proof (base_units_positive (Obj fs) us Hb) as Hpos.
  exists total, us, shares, agents. split_and!; try done.
  rewrite (plan_units agents shares us Hpl (fair_positive _ _ Hf) Hpos) in Hu.
  injection Hu as <-.
  assert (sumZ (shares ++ bridge_units us) = (Z.max 0 total + 10 * sumZ us)%Z) as <-.
  { rewrite sumZ_app, (fair_sum _ _ Hf). destruct us; cbn; lia. }
  apply amount_units. rewrite sumZ_app. pose proof (positive_sum _ (fair_positive _ _ Hf)).
  pose proof (positive_sum _ Hpos). destruct us; cbn in *; lia.
Qed.
End PlanChecks.

(** ** Properties *)
Section PlanProperties.
Import Venue Plan.
Local Open Scope string_scope.
Local Open Scope list_scope.

(** C19. No unit is lost or invented when a split is expanded into a crew: the deposits are
    at most three, all positive, differ by at most one unit and add up to the Stellar amount;
    there is a bridge exactly when some base allocation is positive, it carries ten times the
    sum of its children (seven decimals against six), which are the positive base allocations
    in order; and the plan's amount is the sum of all of it. This holds for every risk but
    the name of an inherited property. *)
Theorem plan_conserves (now : Z) (input plan : val)
    (Ho : is_object input = true) (H : normalizeStrategyPlan now input = Ok plan)
    (Hp : risk_profile input#"risk" <> Some NaN) :
  exists total us shares agents,
    toBigIntUnits (default_to input#"stellarUnits" (BigInt 0)) = Ok total
    /\ base_units input = Ok us /\ positive us
    /\ fair total shares /\ (length shares <= 3)%nat /\ plan_of agents shares us
    /\ plan#"agents" = Arr agents
    /\ toBigIntUnits plan#"amount"#"units" = Ok (Z.max 0 total + 10 * sumZ us)%Z.
Proof. by apply (normalizeStrategyPlan_Ok now). Qed.

(** A canonical plan is executable: the checks before execution never find a member
    without positive units in it; they accept it, with the deposit total, unless the vault
    is empty and some deposit is under the minimum, and then they say so. *)
Theorem plan_executable (now s : Z) (input plan : val)
    (Ho : is_object input = true) (H : normalizeStrategyPlan now input = Ok plan)
    (Hp : risk_profile input#"risk" <> Some NaN) :
  exists agents shares us v,
    plan#"agents" = Arr agents /\ plan_of agents shares us
    /\ validateExecutionAllocations plan (BigInt s) = Ok v
    /\ (s <> 0%Z \/ Forall (fun u => FIRST_DEPOSIT_MIN_UNITS <= u)%Z shares ->
        v = verdict true "OK" Null Null (BigInt (sumZ shares)))
    /\ (s = 0%Z /\ ~ Forall (fun u => FIRST_DEPOSIT_MIN_UNITS <= u)%Z shares ->
        v#"code" = Str "BELOW_FIRST_DEPOSIT_MINIMUM").
Proof.
  destruct (normalizeStrategyPlan_Ok now input plan Ho H Hp)
    as (total & us & shares & agents & _ & _ & Hu & Hf & _ & Hpl & Ha & _).
  pose proof (fair_positive _ _ Hf) as Hs.
  destruct (shortAgent_plan agents shares us Hpl Hs) as (short & Esh & Hsh).
  unfold validateExecutionAllocations. cbn [nullish]. rewrite Ha.
  cbn [or_else truthy iterate mbind result_bind]. rewrite (check_agents_ok agents shares us) by done.
  cbn [mbind result_bind]. rewrite Esh, (depositTotal_plan agents shares us Hpl Hs).
  exists agents, shares, us. cbn [strict_eq].
  destruct (Z.eqb_spec s 0) as [->|Hne].
  - destruct short as [[a u]|]; cbn [mbind result_bind]; eexists; split_and!; try done.
    + intros [?|HF]; [done|]. by apply Hsh in HF.
    + intros [_ HF]. destruct HF. by apply Hsh.
  - eexists. cbn [mbind result_bind]. split_and!; try done. by intros [-> _].
Qed.
End PlanProperties.

(** The amounts shown for one kind add up to its rounded total: the last one takes what the
    rounding of the others left. *)
Section Display.
Import Plan.

Lemma add_last_sum l diff : l <> [] -> sumZ (add_last l diff) = sumZ l + diff.
Proof.
  induction l as [|c l IH]; [done|]. intros _. destruct l as [|d l]; [cbn; lia|].
  change (add_last (c :: d :: l) diff) with (c :: add_last (d :: l) diff).
  cbn [sumZ] in *. rewrite IH by done. lia.
Qed.

Lemma group_cents_sum group :
  group <> [] ->
  sumZ (group_cents group)
  = roundCentsBigInt (sumZ (units <$> group)) (default 0 (decimals <$> head group)).
Proof.
  intros Hne. unfold group_cents. rewrite add_last_sum; [lia|]. by destruct group.
Qed.
End Display.

(** ** Witnesses *)
Section PlanWitnesses.
Import Venue Plan.
Local Open Scope string_scope.
Local Open Scope list_scope.

Definition plan_input (risk : string) : val :=
  Obj ["runId" ↦ Str "run"; "risk" ↦ Str risk; "stellarUnits" ↦ Str "1000000001";
       "baseAllocations" ↦ Arr
         [Obj ["proxyTarget" ↦ Str "aave"; "units" ↦ Str "2500000"; "chain" ↦ Str "base"];
          Obj ["proxyTarget" ↦ Str "morpho"; "units" ↦ Number (Num 0)];
          Obj ["factSlug" ↦ Str "comet-base"; "units" ↦ BigInt 1500000]]].

Definition plan_output : val :=
  match normalizeStrategyPlan 1700000000000 (plan_input "high") with
  | Ok plan => plan
  | Throw _ => Undefined
  end.

Lemma plan_conserves_witness :
  exists total us shares agents,
    toBigIntUnits (default_to (plan_input "high")#"stellarUnits" (BigInt 0)) = Ok total
    /\ base_units (plan_input "high") = Ok us /\ positive us
    /\ fair total shares /\ (length shares <= 3)%nat /\ plan_of agents shares us
    /\ plan_output#"agents" = Arr agents
    /\ toBigIntUnits plan_output#"amount"#"units" = Ok (Z.max 0 total + 10 * sumZ us)%Z.
Proof.
  apply (plan_conserves 1700000000000 (plan_input "high") plan_output);
    [reflexivity|vm_compute; reflexivity|]. intros H. vm_compute in H. discriminate H.
Defined.

(** Two deposits, the odd unit to the first, and a bridge for the two positive pools. *)
Example plan_output_units :
  (fun a => a#"allocation"#"units") <$> match plan_output#"agents" with Arr l => l | _ => [] end
  = [Str "500000001"; Str "500000000"; Str "40000000"].
Proof. vm_compute. reflexivity. Qed.

Lemma plan_executable_witness :
  exists agents shares us v,
    plan_output#"agents" = Arr agents /\ plan_of agents shares us
    /\ validateExecutionAllocations plan_output (BigInt 0) = Ok v
    /\ (0%Z <> 0%Z \/ Forall (fun u => FIRST_DEPOSIT_MIN_UNITS <= u)%Z shares ->
        v = verdict true "OK" Null Null (BigInt (sumZ shares)))
    /\ (0%Z = 0%Z /\ ~ Forall (fun u => FIRST_DEPOSIT_MIN_UNITS <= u)%Z shares ->
        v#"code" = Str "BELOW_FIRST_DEPOSIT_MINIMUM").
Proof.
  apply (plan_executable 1700000000000 0 (plan_input "high") plan_output);
    [reflexivity|vm_compute; reflexivity|]. intros H. vm_compute in H. discriminate H.
Defined.

(** A risk that names an inherited property passes the validation of the input, and the plan
    for it has no deposit at all: the Stellar amount is silently left out. *)
Example inherited_risk :
  (validateAmountInput (Str "100") (Str "constructor") (BigInt 1))#"ok" = Bool true
  /\ normalizeStrategyPlan 0
       (Obj ["risk" ↦ Str "constructor"; "stellarUnits" ↦ Str "1000000000"])
     = normalizeStrategyPlan 0 (Obj ["risk" ↦ Str "low"; "stellarUnits" ↦ Str "0"]).
Proof. split; vm_compute; reflexivity. Qed.

Example shown_thirds :
  buildAmountDisplayMap
    ((fun iu => {| id := iu.1; kind := Str "deposit"; units := iu.2; decimals := 7 |})
       <$> [("a", 333333334); ("b", 333333333); ("c", 333333333)]%Z)
  = {[ "a" := chars_of "33.33"; "b" := chars_of "33.33"; "c" := chars_of "33.34" ]}.
Proof. vm_compute. reflexivity. Qed.
End PlanWitnesses.
