(* ===== verification/MyMoney.v ===== *)
(** * What the owner is told about their money

    Models [frontend/src/money/freshness.js] and [frontend/src/money/myMoneyModel.js]: how
    old a reading is, and the one state and the one action the money screen shows.  The
    readings are values; [now] is the clock in milliseconds; a time stamp and the expiry of a
    mandate are numbers or missing, a fractional one being compared exactly.  A [TypeError]
    escapes where a reading has not the documented shape. *)
From S2P Require Export JsValue Venue.

Module Money.
Import Venue.
Section Strings.
Local Open Scope string_scope.
Local Open Scope list_scope.

(** ** Freshness *)
Inductive freshness := Current | Stale | Unavailable.

#[global] Instance freshness_eq_dec : EqDecision freshness.
Proof. solve_decision. Defined.

Definition freshness_name (f : freshness) : string :=
  match f with Current => "current" | Stale => "stale" | Unavailable => "unavailable" end.

Definition DEFAULT_STALE_AFTER_MS : Z := 2 * 60 * 1000.
Definition MAX_CLOCK_SKEW_MS : Z := 60 * 1000.

(** [x < z] and [x <= z] for a finite number. *)
Definition before (x : val) (z : Z) : bool :=
  match x with
  | Number (Num n) => (n <? z)%Z
  | Double t => (text_floor t <? z)%Z
  | _ => false
  end.
Definition at_most (x : val) (z : Z) : bool :=
  match x with
  | Number (Num n) => (n <=? z)%Z
  | Double t => (text_floor t <? z)%Z
  | _ => false
  end.

Definition classifyFreshness (checkedAt : val) (now staleAfterMs : Z) : freshness :=
  if negb (is_finite_number checkedAt) then Unavailable
  else if negb (at_most checkedAt now)
  then if at_most checkedAt (now + MAX_CLOCK_SKEW_MS) then Current else Unavailable
  else if before checkedAt (now - staleAfterMs) then Stale else Current.

(** [r && r.state && r.state !== 'unavailable'] *)
Definition usable (r : val) : bool :=
  truthy r && truthy r#"state" && negb (strict_eq r#"state" (Str "unavailable")).

Definition withCacheFallback (cached fresh : val) (now staleAfterMs : Z) : val :=
  if usable fresh then
    Obj (set_property (entries fresh) "freshness"
           (Str (freshness_name (classifyFreshness fresh#"checkedAt" now staleAfterMs))))
  else if usable cached then Obj (set_property (entries cached) "freshness" (Str "stale"))
  else Obj ["state" ↦ Str "unavailable"; "amount" ↦ Null; "checkedAt" ↦ Null;
            "confirmedLedger" ↦ Null; "confirmedBlock" ↦ Null; "source" ↦ Null;
            "freshness" ↦ Str "unavailable"].

(** Tokens are the natural numbers this function makes, or missing. *)
Definition nextReconciliationToken (prevToken : option Z) : Z := default 0%Z prevToken + 1.

Definition isReconciliationCurrent (readToken currentToken : option Z) : bool :=
  match currentToken, readToken with
  | None, _ => true
  | Some _, None => false
  | Some current, Some read => (current <=? read)%Z
  end.

(** ** The model *)
Inductive type_error := TypeError.

Definition prop (v : val) (k : string) : result type_error val :=
  if nullish v then Throw TypeError else Ok (get v k).

(** [l.some(f)] where [f] may throw. *)
Fixpoint some_throw {A} (f : A -> result type_error bool) (l : list A) : result type_error bool :=
  match l with
  | [] => Ok false
  | x :: l => b ← f x; if b : bool then Ok true else some_throw f l
  end.

Definition CONFIRMED_PROBLEM_MARKERS : list string :=
  ["scope-revoked"; "scope-expired"; "base-execution-failed"].
Definition URGENT_RENEWAL_WITHIN_S : Z := 2 * 3600.

Definition marker (p : val) : bool :=
  match p with Str s => bool_decide (s ∈ CONFIRMED_PROBLEM_MARKERS) | _ => false end.

(** [safeBigInt(v) > 0n] *)
Definition positive_units (v : val) : bool :=
  match to_BigInt v with Some u => (u >? 0)%Z | None => false end.

Definition isKnownPositiveAmount (amount : val) : bool :=
  if nullish amount then false else positive_units amount#"units".

Definition has_confirmed_problem (a : val) : result type_error bool :=
  problems ← prop a "problems";
  some ← match problems with
         | Undefined | Null => Ok false
         | Arr l => Ok (existsb marker l)
         | _ => Throw TypeError
         end;
  Ok (some && isKnownPositiveAmount a#"amount").

Definition confirmedProblemAgents (agents : val) : result type_error (list val) :=
  match agents with
  | Undefined | Null => Ok []
  | Arr l => found ← filter_throw has_confirmed_problem l; Ok (map (fun a => a#"address") found)
  | _ => Throw TypeError
  end.

Definition hasUnknownUnattributed (unattributed : val) : result type_error bool :=
  some_throw (fun u => state ← prop u "state"; Ok (strict_eq state (Str "unavailable")))
    (values unattributed).

Definition hasKnownPositiveUnattributed (unattributed : val) : result type_error bool :=
  some_throw (fun u =>
    state ← prop u "state";
    Ok (strict_eq state (Str "known") && isKnownPositiveAmount u#"amount")) (values unattributed).

Definition hasKnownVaultMoney (money : val) : bool :=
  let units := money#"custodyBreakdown"#"stellar-vault" in
  if nullish units then false else positive_units units.

(** [m && m.confirmedTotal && m.confirmedTotal.state !== 'unavailable'] *)
Definition money_ok (m : val) : bool :=
  truthy m && truthy m#"confirmedTotal"
  && negb (strict_eq m#"confirmedTotal"#"state" (Str "unavailable")).

Definition resolveMoney (fresh cached : val) (now : Z) : option val * freshness :=
  if money_ok fresh
  then (Some fresh, classifyFreshness fresh#"checkedAt" now DEFAULT_STALE_AFTER_MS)
  else if money_ok cached then (Some cached, Stale)
  else (None, Unavailable).

(** [p.mandateExpiry - nowS <= URGENT_RENEWAL_WITHIN_S] *)
Definition within_renewal (expiry : val) (nowS : Z) : bool :=
  match expiry with
  | Number NegInf => true
  | _ => at_most expiry (nowS + URGENT_RENEWAL_WITHIN_S)
  end.

Record protection_view := {
  p_state : val; p_authority : val; p_mandateExpiry : val; urgentRenewal : bool;
}.

Definition resolveProtection (protection cache : val) (now : Z) : protection_view :=
  let p :=
    if usable protection then Some protection
    else if truthy cache#"protection" && usable cache#"protection" then Some cache#"protection"
    else None in
  match p with
  | None => {| p_state := Str "unavailable"; p_authority := Null; p_mandateExpiry := Null;
               urgentRenewal := false |}
  | Some p =>
      let nowS := (now / 1000)%Z in
      {| p_state := p#"state"; p_authority := coalesce p#"authority" Null;
         p_mandateExpiry := coalesce p#"mandateExpiry" Null;
         urgentRenewal :=
           (strict_eq p#"state" (Str "armed") || strict_eq p#"state" (Str "disarmed"))
           && negb (nullish p#"mandateExpiry") && within_renewal p#"mandateExpiry" nowS |}
  end.

Record model := {
  m_state : string;
  m_owner : val;
  (** The reading shown, the source of every figure: [money?.confirmedTotal ?? null] and so
      on for the yield, the breakdowns, the counts and the freshness triple. *)
  m_money : val;
  m_freshness : freshness;
  m_problemAgents : list val;
  m_protection : protection_view;
  m_ownerIsAuthority : bool;
  m_automation : val;
  m_hasKnownVaultMoney : bool;
}.

(** A figure of the model. *)
Definition figure (m : model) (k : string) : val := coalesce (get (m_money m) k) Null.

Section Build.
Context (owner discovery money protection automation cache : val) (now : Z).

Definition finishModel (state : string) (owner money : val) (problemAgents : list val)
    (f : freshness) : model :=
  let p := resolveProtection protection cache now in
  {| m_state := state; m_owner := coalesce owner Null; m_money := money; m_freshness := f;
     m_problemAgents := problemAgents; m_protection := p;
     m_ownerIsAuthority :=
       truthy owner && truthy (p_authority p) && strict_eq (p_authority p) owner;
     m_automation := coalesce automation Null;
     m_hasKnownVaultMoney := hasKnownVaultMoney money |}.

(** [freshness === 'current' && discovery?.status === 'complete' && ...] *)
Definition authoritativelyEmpty (md : val) (f : freshness) (totalUnits : option Z)
    : result type_error bool :=
  if bool_decide (f = Current) && strict_eq discovery#"status" (Str "complete")
     && bool_decide (totalUnits = Some 0%Z)
  then
    unknown ← hasUnknownUnattributed md#"unattributed";
    if unknown : bool then Ok false
    else held ← hasKnownPositiveUnattributed md#"unattributed"; Ok (negb held)
  else Ok false.

Definition buildMyMoneyModel : result type_error model :=
  problemAgents ← confirmedProblemAgents money#"agents";
  let checked := classifyFreshness money#"checkedAt" now DEFAULT_STALE_AFTER_MS in
  if bool_decide (problemAgents <> [])
  then Ok (finishModel "problem" owner money problemAgents checked)
  else if negb (truthy owner)
  then Ok (finishModel "disconnected" Null money problemAgents checked)
  else
    cached ← prop (match cache with Undefined => Obj [] | _ => cache end) "money";
    match resolveMoney money cached now with
    | (None, _) =>
        let neverAttempted := nullish money && nullish cached in
        Ok (finishModel (if neverAttempted then "loading" else "unavailable") owner Null
              problemAgents Unavailable)
    | (Some md, f) =>
        let discoveryStatus := coalesce discovery#"status" (Str "unavailable") in
        if strict_eq discoveryStatus (Str "partial") || strict_eq discoveryStatus (Str "unavailable")
           || strict_eq md#"confirmedTotal"#"state" (Str "partial")
        then Ok (finishModel "partial-discovery" owner md problemAgents f)
        else
          units ← prop md#"confirmedTotal"#"amount" "units";
          empty ← authoritativelyEmpty md f (to_BigInt units);
          if empty : bool then Ok (finishModel "empty" owner md problemAgents f)
          else
            Ok (finishModel
                  (match f with Stale => "stale" | Unavailable => "unavailable"
                   | Current => "current" end) owner md problemAgents f)
    end.
End Build.

Inductive action := ReviewProblem | ConnectWallet | Deposit | RenewProtection | AddMoney.

#[global] Instance action_eq_dec : EqDecision action.
Proof. solve_decision. Defined.

Definition choosePrimaryMoneyAction (m : model) : option action :=
  if decide (m_state m = "problem") then Some ReviewProblem
  else if decide (m_state m = "disconnected") then Some ConnectWallet
  else if decide (m_state m = "empty") then Some Deposit
  else if truthy (m_owner m) && m_ownerIsAuthority m && urgentRenewal (m_protection m)
          && m_hasKnownVaultMoney m
  then Some RenewProtection
  else if truthy (m_owner m) then Some AddMoney
  else None.
End Strings.
End Money.

(** ** Lemmas *)
Section MoneyLemmas.
Import Venue Money.
Local Open Scope string_scope.
Local Open Scope list_scope.

Lemma some_throw_false {A} (f : A -> result type_error bool) l :
  some_throw f l = Ok false -> Forall (fun x => f x = Ok false) l.
Proof.
  induction l as [|x l IH]; intros H; [constructor|]. cbn in H.
  apply bind_Ok in H as ([] & Hx & H); [done|]. constructor; auto.
Qed.

(** An unattributed balance that could hide money. *)
Definition doubtful (u : val) : Prop :=
  u#"state" = Str "unavailable"
  \/ (u#"state" = Str "known" /\ isKnownPositiveAmount u#"amount" = true).

Lemma authoritativelyEmpty_true discovery md f total :
  authoritativelyEmpty discovery md f total = Ok true ->
  f = Current /\ discovery#"status" = Str "complete" /\ total = Some 0
  /\ Forall (fun u => ~ doubtful u) (values md#"unattributed").
Proof.
  unfold authoritativelyEmpty. destruct (_ && _) eqn:E; [|done].
  rewrite !andb_true_iff in E. destruct E as [[Hf Hd] Ht].
  apply bool_decide_eq_true in Hf, Ht. apply strict_eq_eq in Hd.
  intros H. apply bind_Ok in H as ([] & Hu & H); [done|].
  apply bind_Ok in H as (held & Hh & [= Hn]). destruct held; [done|].
  split_and!; try done. unfold hasUnknownUnattributed in Hu. unfold hasKnownPositiveUnattributed in Hh.
  apply some_throw_false in Hu, Hh. apply Forall_forall. intros u Hin.
  rewrite Forall_forall in Hu, Hh. specialize (Hu u Hin). specialize (Hh u Hin).
  unfold prop in Hu, Hh. destruct (nullish u); [done|]. cbn in Hu, Hh.
  intros [Hs|[Hs Ha]]; [by rewrite Hs in Hu|by rewrite Hs, Ha in Hh].
Qed.

Section Model.
Context (owner discovery money protection automation cache : val) (now : Z).
Notation build := (buildMyMoneyModel owner discovery money protection automation cache now).

(** The branches, by the evidence each of them rests on. *)
Inductive built (m : model) : Prop :=
| built_problem agents :
    confirmedProblemAgents money#"agents" = Ok agents -> agents <> [] ->
    m = finishModel protection automation cache now "problem" owner money agents
          (classifyFreshness money#"checkedAt" now DEFAULT_STALE_AFTER_MS) -> built m
| built_disconnected :
    confirmedProblemAgents money#"agents" = Ok [] -> truthy owner = false ->
    m = finishModel protection automation cache now "disconnected" Null money []
          (classifyFreshness money#"checkedAt" now DEFAULT_STALE_AFTER_MS) -> built m
| built_nothing state :
    confirmedProblemAgents money#"agents" = Ok [] -> truthy owner = true ->
    money_ok money = false -> state = "loading" \/ state = "unavailable" ->
    m = finishModel protection automation cache now state owner Null [] Unavailable -> built m
| built_reading state md f cached :
    confirmedProblemAgents money#"agents" = Ok [] -> truthy owner = true ->
    resolveMoney money cached now = (Some md, f) ->
    m = finishModel protection automation cache now state owner md [] f ->
    (state = "partial-discovery"
     \/ (strict_eq (coalesce discovery#"status" (Str "unavailable")) (Str "partial") = false
         /\ strict_eq (coalesce discovery#"status" (Str "unavailable")) (Str "unavailable") = false
         /\ strict_eq md#"confirmedTotal"#"state" (Str "partial") = false
         /\ ((state = "empty"
              /\ authoritativelyEmpty discovery md f (to_BigInt md#"confirmedTotal"#"amount"#"units")
                 = Ok true)
             \/ state = freshness_name f))) -> built m.

Lemma build_cases m : build = Ok m -> built m.
Proof.
  unfold buildMyMoneyModel. intros H. apply bind_Ok in H as (agents & Ha & H).
  case_bool_decide as Hp; [injection H as <-; by eapply built_problem|].
  assert (agents = []) as -> by (by destruct agents; [|destruct Hp]).
  destruct (truthy owner) eqn:Ho; [|injection H as <-; by apply built_disconnected].
  cbn [negb] in H. apply bind_Ok in H as (cached & _ & H).
  destruct (resolveMoney money cached now) as [[md|] f] eqn:Er.
  - destruct (_ || _) eqn:Ed; [injection H as <-; eapply built_reading; by eauto|].
    rewrite !orb_false_iff in Ed. destruct Ed as [[Ed1 Ed2] Ed3].
    apply bind_Ok in H as (units & Hu & H). apply bind_Ok in H as (empty & He & H).
    assert (units = md#"confirmedTotal"#"amount"#"units") as ->.
    { unfold prop in Hu. by destruct (nullish _); [|injection Hu as <-]. }
    destruct empty; injection H as <-; (eapply built_reading; [done|done|done|reflexivity|]);
      right; split_and!; try done; [by left|right; by destruct f].
  - injection H as <-. eapply built_nothing; [done|done| | |done].
    + unfold resolveMoney in Er. by destruct (money_ok money).
    + destruct (nullish money && nullish cached); [by left|by right].
Qed.

Lemma resolveMoney_current cached md :
  resolveMoney money cached now = (Some md, Current) ->
  md = money /\ money_ok money = true
  /\ classifyFreshness money#"checkedAt" now DEFAULT_STALE_AFTER_MS = Current.
Proof.
  unfold resolveMoney. destruct (money_ok money); [by intros [= <- ->]|].
  by destruct (money_ok cached).
Qed.
End Model.

(** Urgency rests on usable evidence, fresh or of the last good read. *)
Lemma urgent_evidence protection cache now :
  urgentRenewal (resolveProtection protection cache now) = true ->
  exists p, (p = protection \/ p = cache#"protection") /\ usable p = true
    /\ (p#"state" = Str "armed" \/ p#"state" = Str "disarmed")
    /\ within_renewal p#"mandateExpiry" (now / 1000) = true
    /\ p_authority (resolveProtection protection cache now) = coalesce p#"authority" Null.
Proof.
  unfold resolveProtection.
  assert (forall p, urgentRenewal
    {| p_state := p#"state"; p_authority := coalesce p#"authority" Null;
       p_mandateExpiry := coalesce p#"mandateExpiry" Null;
       urgentRenewal :=
         (strict_eq p#"state" (Str "armed") || strict_eq p#"state" (Str "disarmed"))
         && negb (nullish p#"mandateExpiry") && within_renewal p#"mandateExpiry" (now / 1000) |}
    = true -> (p#"state" = Str "armed" \/ p#"state" = Str "disarmed")
      /\ within_renewal p#"mandateExpiry" (now / 1000) = true) as Hu.
  { cbn. intros p. rewrite !andb_true_iff, orb_true_iff. intros [[Hs _] Hw].
    split; [|done]. destruct Hs as [Hs|Hs]; apply strict_eq_eq in Hs; tauto. }
  destruct (usable protection) eqn:E.
  { intros H. exists protection. destruct (Hu _ H). split_and!; try done. by left. }
  destruct (truthy cache#"protection" && usable cache#"protection") eqn:E'; [|done].
  apply andb_prop in E' as [_ E']. intros H. exists (cache#"protection").
  destruct (Hu _ H). split_and!; try done. by right.
Qed.
End MoneyLemmas.

(** ** Properties *)
Section MoneyProperties.
Import Venue Money.
Local Open Scope string_scope.
Local Open Scope list_scope.

(** A confident state is positive evidence: the model says current or empty only for a
    connected owner, without a confirmed problem, from the fresh reading itself (never a
    cached one) checked recently, with a discovery that ended and a total that is not
    partial. It says empty only when discovery is complete, the total is zero and no
    unattributed balance is unknown or holds money. *)
Theorem confident_states (owner discovery money protection automation cache : val) (now : Z)
    (m : model)
    (H : buildMyMoneyModel owner discovery money protection automation cache now = Ok m)
    (Hs : m_state m = "current" \/ m_state m = "empty") :
  truthy owner = true /\ m_problemAgents m = [] /\ m_money m = money /\ money_ok money = true
  /\ m_freshness m = Current
  /\ classifyFreshness money#"checkedAt" now DEFAULT_STALE_AFTER_MS = Current
  /\ nullish discovery#"status" = false
  /\ discovery#"status" <> Str "partial" /\ discovery#"status" <> Str "unavailable"
  /\ money#"confirmedTotal"#"state" <> Str "partial"
  /\ (m_state m = "empty" ->
      discovery#"status" = Str "complete"
      /\ to_BigInt money#"confirmedTotal"#"amount"#"units" = Some 0
      /\ Forall (fun u => ~ doubtful u) (values money#"unattributed")).
Proof.
  apply build_cases in H as [agents _ _ ->|_ _ ->|st _ _ _ Hst ->|st md f cached _ Ho Hr -> Hst];
    [by destruct Hs|by destruct Hs|by destruct Hst as [-> | ->]; destruct Hs|].
  cbn in Hs |- *. destruct Hst as [->|(H1 & H2 & H3 & Hst)]; [by destruct Hs|].
  assert (f = Current) as ->.
  { destruct Hst as [[_ He]| ->]; [by apply authoritativelyEmpty_true in He as (-> & _)|].
    destruct f; [done|by destruct Hs..]. }
  destruct (resolveMoney_current _ _ _ _ Hr) as (-> & Hok & Hc).
  split_and!; try done.
  - by destruct (discovery#"status").
  - intros E. by rewrite E in H1.
  - intros E. by rewrite E in H2.
  - intros E. by rewrite E in H3.
  - intros ->. destruct Hst as [[_ He]|Hst]; [|done].
    by apply authoritativelyEmpty_true in He as (_ & ? & ? & ?).
Qed.

(** The action offered is the one that is owed: a confirmed problem with money at stake
    comes before everything, whoever is connected and however old the reading; a deposit is
    proposed only to an empty position; and renewing the protection is proposed only to its
    authority, on usable evidence that the mandate ends within two hours, with known money in
    the vault. *)
Theorem primary_action (owner discovery money protection automation cache : val) (now : Z)
    (m : model) (agents : list val)
    (H : buildMyMoneyModel owner discovery money protection automation cache now = Ok m)
    (Ha : confirmedProblemAgents money#"agents" = Ok agents) :
  (agents <> [] ->
     choosePrimaryMoneyAction m = Some ReviewProblem /\ m_problemAgents m = agents)
  /\ (choosePrimaryMoneyAction m = Some ReviewProblem -> agents <> [])
  /\ (choosePrimaryMoneyAction m = Some Deposit -> m_state m = "empty")
  /\ (choosePrimaryMoneyAction m = Some RenewProtection ->
      exists p, (p = protection \/ p = cache#"protection") /\ usable p = true
        /\ (p#"state" = Str "armed" \/ p#"state" = Str "disarmed")
        /\ within_renewal p#"mandateExpiry" (now / 1000) = true
        /\ p#"authority" = owner /\ hasKnownVaultMoney (m_money m) = true).
Proof.
  assert (m_protection m = resolveProtection protection cache now
          /\ m_hasKnownVaultMoney m = hasKnownVaultMoney (m_money m)
          /\ (m_ownerIsAuthority m = true ->
              truthy owner = true /\ p_authority (m_protection m) = owner)
          /\ m_problemAgents m = agents /\ (m_state m = "problem" <-> agents <> []))
    as (Hp & Hv & Hau & Hag & Hst).
  { apply build_cases in H as [ag Hg Hne ->|Hg Ho ->|st Hg Ho Hm Hst ->|st md f cd Hg Ho Hr -> Hst];
      rewrite Ha in Hg; injection Hg as <-; cbn;
      (split_and!; [done|done| |done|]);
      try (rewrite !andb_true_iff; intros [[Ht _] He]; split; [done|by apply strict_eq_eq]);
      try done.
    - destruct Hst as [-> | ->]; done.
    - destruct Hst as [->|(_ & _ & _ & [[-> _]| ->])]; [done|done|]. by destruct f. }
  unfold choosePrimaryMoneyAction. split_and!.
  - intros Hne. apply Hst in Hne. by rewrite Hne.
  - case_decide as E; [by apply Hst in E|]. by repeat case_match.
  - repeat case_decide; try done. by repeat case_match.
  - repeat case_decide; try done. destruct (_ && _ && _ && _) eqn:E; [|by case_match].
    rewrite !andb_true_iff in E. destruct E as [[[_ Ho] Hu] Hm]. intros _.
    destruct (Hau Ho) as [Ht Hauth]. rewrite Hp in Hu, Hauth.
    destruct (urgent_evidence _ _ _ Hu) as (p & Hpc & Hus & Hs & Hw & Hpa).
    exists p. rewrite Hpa in Hauth. split_and!; try done; [|by rewrite <- Hv].
    destruct (p#"authority"); try done; cbn in Hauth; by subst owner.
Qed.
End MoneyProperties.

(** ** Witnesses *)
Section MoneyWitnesses.
Import Venue Money.
Local Open Scope string_scope.
Local Open Scope list_scope.

Definition sample_money (units : string) (problems : list val) : val :=
  Obj ["confirmedTotal" ↦ Obj ["state" ↦ Str "known"; "amount" ↦ Obj ["units" ↦ Str units]];
       "agents" ↦ Arr [Obj ["address" ↦ Str "CAGENT"; "problems" ↦ Arr problems;
                            "amount" ↦ Obj ["units" ↦ Str "5"]]];
       "custodyBreakdown" ↦ Obj ["stellar-vault" ↦ Str units];
       "unattributed" ↦ Obj ["kernel" ↦ Obj ["state" ↦ Str "known"; "amount" ↦ Null]];
       "checkedAt" ↦ Number (Num 1000000)].

Definition sample_discovery : val := Obj ["status" ↦ Str "complete"].
Definition sample_protection : val :=
  Obj ["state" ↦ Str "armed"; "authority" ↦ Str "GOWNER"; "mandateExpiry" ↦ Number (Num 2000)].

Definition sample_model (money : val) : model :=
  match buildMyMoneyModel (Str "GOWNER") sample_discovery money sample_protection Null (Obj [])
          1060000 with
  | Ok m => m
  | Throw _ => finishModel Null Null Null 0 "none" Null Null [] Unavailable
  end.

Lemma confident_states_witness :
  m_state (sample_model (sample_money "0" [])) = "empty"
  /\ classifyFreshness (sample_money "0" [])#"checkedAt" 1060000 DEFAULT_STALE_AFTER_MS = Current.
Proof.
  split; [vm_compute; reflexivity|].
  apply (confident_states (Str "GOWNER") sample_discovery (sample_money "0" []) sample_protection
           Null (Obj []) 1060000 (sample_model (sample_money "0" []))).
  - vm_compute. reflexivity.
  - right. vm_compute. reflexivity.
Defined.

Lemma primary_action_witness :
  choosePrimaryMoneyAction (sample_model (sample_money "7" [Str "scope-revoked"]))
  = Some ReviewProblem.
Proof.
  apply (primary_action (Str "GOWNER") sample_discovery (sample_money "7" [Str "scope-revoked"])
           sample_protection Null (Obj []) 1060000
           (sample_model (sample_money "7" [Str "scope-revoked"])) [Str "CAGENT"]).
  - vm_compute. reflexivity.
  - vm_compute. reflexivity.
  - discriminate.
Defined.

Example renewal_proposed :
  choosePrimaryMoneyAction (sample_model (sample_money "7" [])) = Some RenewProtection.
Proof. vm_compute. reflexivity. Qed.
End MoneyWitnesses.
